(* ===== verification/_CoqProject ===== *)
-Q . S2P
Prelude.v
StdHeap.v
World.v
ReadyList.v
TaskQueue.v
Notify.v
Scheduler.v
Blocking.v
Quit.v
Future.v
RunTask.v
ProcessTasks.v
Delivery.v
LoopRun.v
LoopYield.v
Calls.v
TwoThreads.v
Fibres.v
ThreadMachine.v
SchedInvariant.v
Cancel.v
Sync.v
Thread.v
Log.v
TcpRead.v
TcpIterator.v
TcpWrite.v
Streambuf.v
Iostream.v
Asio.v
DefaultService.v
Acceptor.v
Retainable.v
Lock.v
Actor.v
Delegate.v
ActorForward.v
ActorSignal.v
SignalWait.v
PostQueue.v
Concrete.v
ConcreteIO.v
ConcreteSignals.v
ConcreteLog.v
ConcreteLoop.v
ConcreteFibres.v
