(* ===== verification/Prelude.v ===== *)
(** * Boost.CMT: cooperative multi-tasking, verified

    Boost.CMT runs fibres ("contexts") cooperatively on system threads. A thread
    has a queue of posted tasks; a task runs on a context, and whatever waits for
    the result of a task waits for a promise, blocking its context while the thread
    goes on with others. Sockets, acceptors, stream buffers and actors are built on
    promises. Source files are named below relative to src/include/boost/cmt
    (headers) and src/src (.cpp).

    ** How code is translated

    Code that changes a store, may throw, or may run into undefined behaviour is a
    function of type [M S E A]: from a store to an outcome ([Ret], [Exc] with a C++
    exception, [Undef] for a null or dangling pointer, a failed BOOST_ASSERT, an
    access outside a vector, a signed overflow or an endless walk) and the store left
    behind. [wp] is its weakest precondition and [returns] the postcondition of a run
    that must return. Objects live in finite maps keyed by address, pointers are
    [option nat], intrusive lists are read through the pointer fields, times are
    64-bit nanoseconds in Z. Blocking calls are cut at their context switch: the part
    before returns the switch, the part after resumes once the context is jumped back
    to. Vectors kept as heaps use the standard library's algorithms through the class
    [HeapAlgo] with the documented laws [HeapSpec]; [StdHeap.v] also implements it.

    ** Files

    - [Prelude.v]: the monad, [wp], symbolic execution, frames ([keeps]: the parts of the
      store an operation leaves alone), pointer chains.
    - [StdHeap.v]: push_heap, pop_heap and make_heap: interface, laws, instance.
    - [World.v]: exceptions (error.hpp), tasks, contexts, [thread_private], promises
      and the store they live in (thread.cpp, task.hpp, future.hpp).
    - [ReadyList.v]: ready list and blocked list of [thread_private] (thread.cpp).
    - [TaskQueue.v]: posting, [enqueue], [dequeue] and the two heaps (thread.cpp).
    - [Notify.v]: [promise::set_value], [set_exception], [set_timeout] and
      [thread::notify] (future.hpp, future.cpp, thread.cpp).
    - [Scheduler.v]: [check_for_timeouts], [start_next_task] and the invariant of a
      thread's lists, heap and promises (thread.cpp).
    - [Blocking.v], [Quit.v]: [yield], [sleep_until], [usleep], [wait]; [quit].
    - [Future.v]: promises and futures as users see them; [task::cancel].
    - [RunTask.v]: [rtask], [vtask], [async], [schedule] (task.hpp, thread.hpp).
    - [ProcessTasks.v]: the task loop [process_tasks], from each of its waits and
      switches to the next.
    - [Delivery.v]: the components put together: from a promise completed on one
      thread, through the task, the loop and the switch, to the waiter on another.
    - [LoopRun.v]: whole runs of the loop over the tasks posted to a thread.
    - [LoopYield.v]: the loop and a context that yields to it.
    - [Calls.v]: [async] and the wait for its result put together, on one thread.
    - [TwoThreads.v]: a call on one thread and the loop of another that serves it, under
      every interleaving of their steps.
    - [Fibres.v]: the contexts of a thread that do not run, as queues and promise states.
    - [ThreadMachine.v]: a thread with its loop, tasks and contexts as an abstract machine
      over queues, and the thread on the library that implements it.
    - [SchedInvariant.v], [Cancel.v]: histories of the operations of a thread's contexts,
      and what becomes of a context whose task is canceled.
    - [Sync.v]: [thread::sync] and its frame, with the promise and the task in it
      (thread.hpp).
    - [Thread.v]: [thread::current], [thread::create] on both of its threads, names, the
      functions that act on the current thread, [to_system_time] (thread.cpp).
    - [Log.v]: the log functions and macros, console codes (log/log.hpp,
      log/console_defines.h).
    - [TcpRead.v], [TcpIterator.v], [TcpWrite.v]: the buffered socket and its input iterator
      (asio/tcp/socket.hpp, asio/tcp/socket.cpp).
    - [Streambuf.v], [Iostream.v]: asio/basic_socket_streambuf.hpp and the stream
      around it, asio/basic_socket_iostream.hpp.
    - [Asio.v]: completion handlers and the blocking wrappers over asynchronous
      operations (asio.hpp, asio.cpp, asio/udp/socket.cpp).
    - [DefaultService.v]: [default_io_service] (asio.cpp).
    - [Acceptor.v]: asio/acceptor.cpp.
    - [Retainable.v]: reference counting (retainable.hpp).
    - [Lock.v]: spin_lock.hpp and mutex.hpp under every interleaving of fibres.
    - [Actor.v]: construction of actors and dispatch of their methods (actor.hpp,
      actor_interface.hpp).
    - [Delegate.v]: asynchronous delegates (delegate.hpp, detail/async_delegate_impl.hpp) as
      they are written.
    - [ActorForward.v]: actors made of other actors, and the calls through them.
    - [ActorSignal.v], [SignalWait.v]: signal members of actors (actor_interface.hpp)
      and waiting for a signal (signals.hpp), over the interface [Signals] of
      Boost.Signals with the laws [SignalsSpec].
    - [PostQueue.v]: posting and waiting in atomic steps, and its specification.
    - [Concrete.v], [ConcreteIO.v], [ConcreteSignals.v], [ConcreteLog.v], [ConcreteLoop.v],
      [ConcreteFibres.v]: concrete inputs on which the theorems apply.

    A file requires those of the components it calls. Components with state of their
    own embed the store through the class [HasWorld] and run its operations with
    [on_world]. [Future.v], [Asio.v] and
    [Actor.v] are proved from the lemmas of [Notify.v], [Scheduler.v] and [Blocking.v]
    about the [running] invariant, not from their definitions.

    ** What the theorems show

    - Scheduling: a thread with its loop and tasks implements an abstract machine over
      queues ([thread_implements_machine]); the lists and heaps of a thread stay well
      formed through every history of operations whose preconditions hold
      ([thread_stays_well_formed]); contexts that yield
      take turns; waiting and sleeping suspend exactly the caller; completing a promise makes exactly its waiter ready, and yielding
      resumes it; expired sleepers are woken and no others; quit cancels what is ready
      or asleep.
    - Tasks: dequeuing loses and duplicates nothing and respects priority, then order
      of posting; running a task completes its promise in the right way; the loop
      sleeps only when it finds no task, and runs everything posted before it does
      ([loop_runs_everything_posted]); posting without locks refines atomic posting,
      and no wakeup is lost. Calling a function through [async] or [sync] gives what a
      call gives ([async_and_wait_equals_call], [sync_on_own_thread_equals_call]), before
      [exec] too; so does a call on another thread, however the two interleave
      ([remote_call_equals_call]), and what is completed on one thread gets back to its
      waiter on another ([completion_reaches_waiter]).
    - Futures: waiting, errors, null futures; once a task is canceled, every blocking
      operation of its context throws ([canceled_context_throws]).
    - Input and output: reads and writes deliver the stream in order, and so
      does the iterator; after a failed write, what was sent stays a prefix of what was
      accepted; a write loop ends; a stream buffer stays within its arrays as long as
      error codes are stored in time, and not otherwise; what is put and flushed at one end is got at the other; a wrapper starts one
      operation and suspends its caller, and its handler settles the promise and posts
      the task that wakes it; a stream sends a request before it reads the answer.
    - Threads, actors and signals: [create] returns a new thread, which is its system
      thread's own; calls of members run locally or are posted; a signal member calls each
      listener once without feedback, and forwards what the object emits; waiting for
      a signal returns the argument of its emission.
    - Logging: a log statement returns whatever goes wrong in it, and leaves one line and
      the mutex free.
    - Memory and locks: objects live exactly as long as they are referenced; at most
      one fibre holds a lock.
    - Defects, each proved on the translated code: the theorems
      [second_yield_sleeps], [notify_wakes_only_one], [frame_ends_before_task], [failed_sync_leaves_task_posted],
      [dequeue_held_back_by_latest], [quit_skips_blocked],
      [quit_null_promise], [sleep_until_past_asserts], [due_scheduled_task_spins],
      [scheduled_task_is_slept_over], [blocked_wait_consumes_error],
      [read_some_repeats], [read_some_overreports], [write_after_failure],
      [failed_flush_sends_twice], [error_code_arrives_late],
      [late_failure_leaves_get_area], [move_assignment_leaks],
      [two_failures_end_listening], [destroyed_while_listening],
      [single_listener_is_not_called], [name_is_read_after_create_returns],
      [iterator_end_is_not_reached], [spin_lock_never_yields].

    ** Bounds and fuel

    Loops along pointers take as fuel the number of objects in the store, or one more; a
    chain without repetition cannot be longer, so on well-formed stores the fuel is enough,
    which the theorems state by concluding [returns]. The loop that sends the put area
    takes one round per byte, enough because every send takes something, and one for each
    send that fails unseen, which [net_patience] bounds; [write_loop]
    takes two, one per buffer. Slots that emit for each other nest at most [n] deep in
    [run_slot n]; two levels are enough for a member and the signal it mirrors.
    [pt_steps n] is [n] steps of a loop that does not end; [pt_ran] takes one step per task
    to run and eight more, which is enough to fall asleep again. A call between two threads
    takes at most 45 steps, which is proved, not assumed. [run_steps n] is [n] steps of
    a thread that need not sleep; the theorem on it holds for every [n].
    Integers are kept at their width where the code depends on it: int64 times and
    task numbers, int32 reference counts, and the size_t, int and uint32_t of the
    socket's reads.

    ** Not modelled

    - Members without a result in actors made of actors (Boost.Reflect adapts them), and
      the running of a posted call that gets to such an actor. Default construction
      leaves an actor pointer uninitialised; the model takes it for null. Signals have
      no result here, since the combiner of a result is Boost's.
    - strand.hpp and strand_pool.cpp, asio/streambuf.hpp: unfinished code that is not
      built and does not compile.
    - The console codes of Windows, which are not strings, and the order in which the
      operands of a log line are evaluated beyond its two extremes.
    - Pointers inside reference-counted objects: a [retainable_ptr] that is destroyed
      by the release of the object it is a member of, in an assignment that reads it.
    - Joining system threads, and what the io_service thread of [default_io_service] runs.
    - Memory orders: atomic operations are sequentially consistent here. The locks the
      promises take around their fields are left out of [Notify.v], where each of these
      sections is one step.
    - The code the blocks behind [#if 0] and comments contain.

    ** Plan

    Next: the machine of [ThreadMachine.v] with time, canceling and other threads; the two
    threads of [TwoThreads.v] over the atomic steps of [PostQueue.v]. *)

From stdpp Require Export base gmap list strings.

(** Map updates are reasoned about by lemmas, never unfolded by [simpl]. *)
#[global] Arguments insert _ _ _ _ _ _ _ : simpl never.

(** * The computation monad

    C++ code that reads and writes a shared store, may throw, and may run into
    undefined behaviour, is translated to functions of type [M S E A]: from a
    store to an outcome and the store left behind (an exception keeps the
    effects made before it was thrown). *)

(** What the translated code may not do: dereference a null or dangling
    pointer, fail a BOOST_ASSERT, read outside a vector, overflow a signed
    integer, or walk a pointer chain for ever. *)
Inductive fault :=
  | BadPointer
  | AssertFailed
  | OutOfRange
  | SignedOverflow
  | Diverges.

#[export] Instance fault_eq_dec : EqDecision fault.
Proof. solve_decision. Defined.

Inductive outcome (E A : Type) :=
  | Ret (a : A)
  | Exc (e : E)
  | Undef (f : fault).
Arguments Ret {E A} a.
Arguments Exc {E A} e.
Arguments Undef {E A} f.

#[export] Instance outcome_eq_dec {E A} `{EqDecision E, EqDecision A} :
  EqDecision (outcome E A).
Proof. solve_decision. Defined.

Definition M (S E A : Type) : Type := S → outcome E A * S.

#[export] Instance M_ret {S E} : MRet (M S E) := λ A a s, (Ret a, s).

#[export] Instance M_bind {S E} : MBind (M S E) := λ A B f m s,
  match m s with
  | (Ret a, s') => f a s'
  | (Exc e, s') => (Exc e, s')
  | (Undef u, s') => (Undef u, s')
  end.

Declare Scope cmt_scope.
Delimit Scope cmt_scope with cmt.

Section monad.
Context {S E : Type}.

Definition throw {A} (e : E) : M S E A := λ s, (Exc e, s).
Definition undef {A} (u : fault) : M S E A := λ s, (Undef u, s).
Definition gets {A} (f : S → A) : M S E A := λ s, (Ret (f s), s).
Definition modify (f : S → S) : M S E unit := λ s, (Ret tt, f s).

(** [BOOST_ASSERT(b)] *)
Definition check (b : bool) : M S E unit :=
  if b then mret tt else undef AssertFailed.

(** Dereference of a pointer that may be null. *)
Definition deref {A} (o : option A) : M S E A :=
  match o with Some a => mret a | None => undef BadPointer end.

Definition when (b : bool) (m : M S E unit) : M S E unit :=
  if b then m else mret tt.

(** [try { m } catch( e ) { h e }] *)
Definition catch {A} (m : M S E A) (h : E → M S E A) : M S E A := λ s,
  match m s with
  | (Exc e, s') => h e s'
  | r => r
  end.

(** The destructor [d] of a local object, run when its block [m] is left, in
    whichever way. *)
Definition finally {A} (m : M S E A) (d : M S E unit) : M S E A := λ s,
  match m s with
  | (Ret a, s') => (d;; mret a) s'
  | (Exc e, s') => (d;; throw e) s'
  | r => r
  end.

(** Weakest precondition: [wp m Q s] says that the run of [m] from [s] ends
    in an outcome and a store that satisfy [Q]. *)
Definition wp {A} (m : M S E A) (Q : outcome E A → S → Prop) (s : S) : Prop :=
  Q (m s).1 (m s).2.

(** The postcondition of a run that must return. *)
Definition returns {A} (Q : A → S → Prop) : outcome E A → S → Prop :=
  λ r s, match r with Ret a => Q a s | _ => False end.

Lemma wp_bind {A B} (m : M S E A) (f : A → M S E B) Q s :
  wp (a ← m; f a) Q s ↔
  wp m (λ r s', match r with
                | Ret a => wp (f a) Q s'
                | Exc e => Q (Exc e) s'
                | Undef u => Q (Undef u) s'
                end) s.
Proof. unfold wp, mbind, M_bind. by destruct (m s) as [[a|e|u] s']. Qed.

Lemma wp_ret {A} (a : A) Q s : wp (mret a) Q s ↔ Q (Ret a) s.
Proof. done. Qed.
Lemma wp_throw {A} e Q s : wp (throw (A:=A) e) Q s ↔ Q (Exc e) s.
Proof. done. Qed.
Lemma wp_undef {A} u Q s : wp (undef (A:=A) u) Q s ↔ Q (Undef u) s.
Proof. done. Qed.
Lemma wp_gets {A} (f : S → A) Q s : wp (gets f) Q s ↔ Q (Ret (f s)) s.
Proof. done. Qed.
Lemma wp_modify f Q s : wp (modify f) Q s ↔ Q (Ret tt) (f s).
Proof. done. Qed.
Lemma wp_deref {A} (o : option A) Q s :
  wp (deref o) Q s ↔
  match o with Some a => Q (Ret a) s | None => Q (Undef BadPointer) s end.
Proof. by destruct o. Qed.
Lemma wp_check b Q s :
  wp (check b) Q s ↔ if b then Q (Ret tt) s else Q (Undef AssertFailed) s.
Proof. by destruct b. Qed.

Lemma wp_finally {A} (m : M S E A) d Q s :
  wp (finally m d) Q s ↔
  wp m (λ r s', match r with
                | Ret a => wp d (λ r' s'', match r' with
                    | Ret _ => Q (Ret a) s'' | Exc e => Q (Exc e) s'' | Undef u => Q (Undef u) s''
                    end) s'
                | Exc e => wp d (λ r' s'', match r' with
                    | Ret _ => Q (Exc e) s'' | Exc e' => Q (Exc e') s'' | Undef u => Q (Undef u) s''
                    end) s'
                | Undef u => Q (Undef u) s'
                end) s.
Proof.
  unfold wp, finally, mbind, M_bind, mret, M_ret, throw.
  destruct (m s) as [[a|e|u] s']; simpl; [by destruct (d s') as [[]]..|done].
Qed.

Lemma wp_catch {A} (m : M S E A) h Q s :
  wp (catch m h) Q s ↔
  wp m (λ r s', match r with Exc e => wp (h e) Q s' | _ => Q r s' end) s.
Proof. unfold wp, catch. by destruct (m s) as [[a|e|u] s']. Qed.

Lemma wp_mono {A} (m : M S E A) (Q Q' : outcome E A → S → Prop) s :
  (∀ r s', Q r s' → Q' r s') → wp m Q s → wp m Q' s.
Proof. unfold wp. eauto. Qed.

(** ... and a run as an equation about both its outcome and its store. *)
Lemma wp_run {A} (m : M S E A) o s s' :
  wp m (λ r t, r = o ∧ t = s') s ↔ m s = (o, s').
Proof. unfold wp. destruct (m s); simpl. naive_solver. Qed.

Lemma wp_eq {A} (m : M S E A) Q s o s' : m s = (o, s') → Q o s' → wp m Q s.
Proof. unfold wp. by intros ->. Qed.

(** A run that is known to return can be read back as an equation. *)
Lemma wp_returns {A} (m : M S E A) Q s :
  wp m (returns Q) s ↔ ∃ a s', m s = (Ret a, s') ∧ Q a s'.
Proof.
  unfold wp, returns. destruct (m s) as [[a|e|u] s'] eqn:Hm; simpl; naive_solver.
Qed.

(** ** Frames

    [keeps f m]: no run of [m], however it ends, changes the part [f] of the store. *)
Definition keeps {A X} (f : S → X) (m : M S E A) : Prop := ∀ s, f (m s).2 = f s.

Lemma keeps_bind {A B X} (f : S → X) (m : M S E A) (k : A → M S E B) :
  keeps f m → (∀ a, keeps f (k a)) → keeps f (a ← m; k a).
Proof.
  intros Hm Hk s. specialize (Hm s). unfold mbind, M_bind.
  destruct (m s) as [[a|e|u] s']; simpl in *; [by rewrite Hk|done..].
Qed.

Lemma keeps_ret {A X} (f : S → X) (a : A) : keeps f (mret a).
Proof. done. Qed.
Lemma keeps_throw {A X} (f : S → X) e : keeps f (throw (A:=A) e).
Proof. done. Qed.
Lemma keeps_undef {A X} (f : S → X) u : keeps f (undef (A:=A) u).
Proof. done. Qed.
Lemma keeps_gets {A X} (f : S → X) (g : S → A) : keeps f (gets g).
Proof. done. Qed.
Lemma keeps_modify {X} (f : S → X) g : (∀ s, f (g s) = f s) → keeps f (modify g).
Proof. done. Qed.
Lemma keeps_check {X} (f : S → X) b : keeps f (check b).
Proof. by destruct b. Qed.
Lemma keeps_deref {A X} (f : S → X) (o : option A) : keeps f (deref o).
Proof. by destruct o. Qed.
Lemma keeps_when {X} (f : S → X) b m : keeps f m → keeps f (when b m).
Proof. by destruct b. Qed.

Lemma wp_keeps {A X} (f : S → X) (m : M S E A) Q s :
  keeps f m → wp m Q s → wp m (λ r s', Q r s' ∧ f s' = f s) s.
Proof. unfold wp. by intros Hm HQ. Qed.

Lemma returns_keeps {A X} (f : S → X) (m : M S E A) Q s :
  keeps f m → wp m (returns Q) s → wp m (returns (λ a s', Q a s' ∧ f s' = f s)) s.
Proof. intros Hm HQ. eapply wp_mono, wp_keeps; [|done..]. by intros [?|?|?] s' []. Qed.
End monad.

(** What an operation returned tells what it ran. *)
Lemma ret_bind {S E A B} (m : M S E A) (f : A → M S E B) s v s' :
  (a ← m; f a) s = (Ret v, s') → ∃ a s1, m s = (Ret a, s1) ∧ f a s1 = (Ret v, s').
Proof. unfold mbind, M_bind. destruct (m s) as [[a|e|u] s1]; [eauto|done..]. Qed.

Ltac ret_inv H :=
  repeat (let x := fresh "x" in let w := fresh "w" in let Hx := fresh "Hx" in
    apply ret_bind in H as (x & w & Hx & H)).

Create HintDb keeps.
#[export] Hint Resolve keeps_ret keeps_throw keeps_undef keeps_gets keeps_modify keeps_check
  keeps_deref keeps_when : keeps.

(** Frames follow the structure of the code. *)
Ltac solve_keeps :=
  repeat first
    [ progress intros
    | solve [eauto with keeps]
    | apply keeps_bind
    | apply keeps_when
    | case_match ].

Create HintDb cmt.
Create Rewrite HintDb cmt.
#[export] Hint Rewrite @wp_bind @wp_ret @wp_throw @wp_undef @wp_gets @wp_modify
  @wp_deref @wp_check : cmt.

(** Symbolic execution of a monadic goal: push [wp] through the code and
    simplify the resulting store lookups. *)
Ltac wp_step := autorewrite with cmt; simpl.

(** Resolve a map lookup from the hypotheses. *)
Ltac wp_lookup :=
  match goal with
  | H : ?m !! ?k = Some _ |- context [?m !! ?k] => rewrite H
  | |- context [<[?k := ?v]> ?m !! ?k] => rewrite (lookup_insert_eq m k v)
  | H : ?k ≠ ?k' |- context [<[?k := ?v]> ?m !! ?k'] => rewrite (lookup_insert_ne m k k' v H)
  end.

Ltac wp_steps := repeat (progress wp_step); repeat (wp_lookup; repeat (progress wp_step)).

(** * Pointer chains

    Intrusive singly linked lists. [lseg nx p xs q] says that following [nx]
    from the pointer [p] visits exactly [xs] and arrives at the pointer [q];
    a null-terminated list is a segment that arrives at null. *)

Fixpoint lseg (nx : nat → option nat) (p : option nat) (xs : list nat)
    (q : option nat) : Prop :=
  match xs with
  | [] => p = q
  | x :: xs' => p = Some x ∧ lseg nx (nx x) xs' q
  end.

Abbreviation chain nx p xs := (lseg nx p xs None).

Lemma lseg_ext nx nx' p xs q :
  (∀ x, x ∈ xs → nx x = nx' x) → lseg nx p xs q → lseg nx' p xs q.
Proof.
  revert p. induction xs as [|x xs IH]; intros p Hext; simpl; [done|].
  intros [-> Hc]. split; [done|]. rewrite <-(Hext x) by set_solver.
  apply IH; [set_solver|done].
Qed.

Lemma lseg_app nx p xs ys q :
  lseg nx p (xs ++ ys) q ↔ ∃ r, lseg nx p xs r ∧ lseg nx r ys q.
Proof. revert p. induction xs as [|x xs IH]; intros p; simpl; naive_solver. Qed.

Lemma lseg_snoc nx p xs y q :
  lseg nx p (xs ++ [y]) q ↔ lseg nx p xs (Some y) ∧ nx y = q.
Proof. rewrite lseg_app. simpl. naive_solver. Qed.

(** Two null-terminated readings of the same pointer agree. *)
Lemma chain_det nx p xs ys : chain nx p xs → chain nx p ys → xs = ys.
Proof.
  revert p ys. induction xs as [|x xs IH]; intros p [|y ys]; simpl; naive_solver.
Qed.

(** No node occurs twice in a null-terminated chain. *)
Lemma chain_NoDup nx p xs : chain nx p xs → NoDup xs.
Proof.
  revert p. induction xs as [|x xs IH]; intros p; simpl; [constructor|].
  intros [-> Hc]. constructor; [|by eapply IH].
  intros (l1 & l2 & ->)%list_elem_of_split.
  pose proof Hc as (r & Hl & Hr)%lseg_app. destruct Hr as [-> Hr].
  pose proof (chain_det _ _ _ _ Hc Hr) as Heq.
  apply (f_equal length) in Heq. rewrite length_app in Heq. simpl in Heq. lia.
Qed.

(** Distinct keys of a map are at most as many as the map's entries. *)
Lemma NoDup_keys_size {V} (m : gmap nat V) (xs : list nat) :
  NoDup xs → (∀ x, x ∈ xs → is_Some (m !! x)) → length xs ≤ size m.
Proof.
  intros Hnd Ha. rewrite <-size_dom, <-(size_list_to_set (C:=gset nat) xs) by done.
  apply subseteq_size. intros x Hx%elem_of_list_to_set. by apply elem_of_dom, Ha.
Qed.

(** Unlinking [c], the successor of [b]. *)
Lemma chain_unlink nx nx' p xs b c ys :
  chain nx p (xs ++ b :: c :: ys) →
  nx' b = nx c → (∀ x, x ≠ b → x ≠ c → nx' x = nx x) →
  chain nx' p (xs ++ b :: ys).
Proof.
  intros Hc Hb Hx. pose proof (chain_NoDup _ _ _ Hc) as Hnd.
  apply lseg_app in Hc as (r & H1 & -> & H2 & H3).
  apply NoDup_app in Hnd as (_ & Hd & (Hbc & (Hcy & _)%NoDup_cons)%NoDup_cons).
  apply lseg_app. exists (Some b). split; [|split; [done|rewrite Hb]].
  - eapply lseg_ext; [|done]. intros x Hin. symmetry.
    apply Hx; intros ->; apply (Hd _ Hin); set_solver.
  - eapply lseg_ext; [|done]. intros x Hin. symmetry. apply Hx; set_solver.
Qed.

Lemma filter_all {A} (P : A → Prop) `{!∀ x, Decision (P x)} (l : list A) :
  (∀ x, x ∈ l → P x) → filter P l = l.
Proof.
  induction l as [|x l IH]; intros Hl; [done|].
  rewrite filter_cons_True by set_solver. f_equal. apply IH. set_solver.
Qed.
