(* ===== verification/StdHeap.v ===== *)
(** The standard library's heap algorithms on vectors (std::push_heap,
    std::pop_heap, std::make_heap), which every priority queue of the scheduler
    uses: a typeclass with what the C++ standard promises of them, the lemmas
    the queues need, and an executable implementation that keeps the promise.
    Comparators are C++ "less" functors, so the front of a heap is a greatest
    element. *)
From S2P Require Import Prelude.

(** A comparator the standard algorithms accept: a strict weak ordering. *)
Class StrictWeak {A} (lt : A → A → bool) : Prop := {
  sw_asym x y : lt x y = true → lt y x = false;
  sw_negtrans x y z : lt x y = false → lt y z = false → lt x z = false;
}.

Lemma sw_irrefl {A} (lt : A → A → bool) `{!StrictWeak lt} x : lt x x = false.
Proof. destruct (lt x x) eqn:H; [|done]. by rewrite (sw_asym x x H) in H. Qed.

(** The index of the parent in the implicit binary tree. *)
Definition parent (i : nat) : nat := (i - 1) / 2.

Lemma parent_lt i : 0 < i → parent i < i.
Proof. unfold parent. intros. apply Nat.Div0.div_lt_upper_bound. lia. Qed.

Lemma parent_child i j : 0 < j → parent j = i ↔ j = 2 * i + 1 ∨ j = 2 * i + 2.
Proof.
  unfold parent. intros Hj. pose proof (Nat.div_mod_eq (j - 1) 2).
  pose proof (Nat.mod_upper_bound (j - 1) 2). lia.
Qed.

(** The heap property between indexes from [k] on, among the first [n]. *)
Definition heap_from {A} (lt : A → A → bool) (k n : nat) (l : list A) : Prop :=
  ∀ j a b, 0 < j < n → k ≤ parent j →
    l !! parent j = Some a → l !! j = Some b → lt a b = false.

Definition is_heap {A} (lt : A → A → bool) (l : list A) : Prop :=
  heap_from lt 0 (length l) l.

Definition pop_back {A} (l : list A) : list A := take (length l - 1) l.

(** * The interface *)

Class HeapAlgo (A : Type) := {
  push_heap : (A → A → bool) → list A → list A;
  pop_heap : (A → A → bool) → list A → list A;
  make_heap : (A → A → bool) → list A → list A;
}.

Class HeapSpec (A : Type) `{!HeapAlgo A} : Prop := {
  push_heap_perm lt (l : list A) : push_heap lt l ≡ₚ l;
  push_heap_heap lt `{!StrictWeak lt} (l : list A) x :
    is_heap lt l → is_heap lt (push_heap lt (l ++ [x]));
  pop_heap_spec lt `{!StrictWeak lt} (l : list A) x :
    is_heap lt l → head l = Some x →
    ∃ l', pop_heap lt l = l' ++ [x] ∧ x :: l' ≡ₚ l ∧ is_heap lt l';
  make_heap_perm lt (l : list A) : make_heap lt l ≡ₚ l;
  make_heap_heap lt `{!StrictWeak lt} (l : list A) : is_heap lt (make_heap lt l);
}.

Section facts.
Context {A : Type} (lt : A → A → bool).

Lemma is_heap_nil : is_heap lt [].
Proof. intros j a b Hj. simpl in Hj. lia. Qed.

Lemma is_heap_singleton x : is_heap lt [x].
Proof. intros j a b Hj. simpl in Hj. lia. Qed.

(** The property only looks at the comparator on the elements present. *)
Lemma is_heap_ext lt' (l : list A) :
  (∀ x y, x ∈ l → y ∈ l → lt x y = lt' x y) → is_heap lt l → is_heap lt' l.
Proof.
  intros Hext Hh j a b Hj Hk Ha Hb. rewrite <-Hext;
    [by eapply Hh|by eapply list_elem_of_lookup_2..].
Qed.

Lemma heap_front_max `{!StrictWeak lt} (l : list A) x y :
  is_heap lt l → head l = Some x → y ∈ l → lt x y = false.
Proof.
  intros Hh Hx (j & Hj)%list_elem_of_lookup. revert y Hj.
  induction (lt_wf j) as [j _ IH]. intros y Hj.
  destruct (decide (j = 0)) as [->|Hj0].
  { destruct l; simplify_eq/=. by apply sw_irrefl. }
  pose proof (parent_lt j ltac:(lia)) as Hp.
  pose proof (lookup_lt_Some _ _ _ Hj) as Hlen.
  destruct (lookup_lt_is_Some_2 l (parent j) ltac:(lia)) as [a Ha].
  apply sw_negtrans with a; [by eapply IH|].
  eapply (Hh j); [lia|lia|done|done].
Qed.

Lemma pop_back_snoc (l : list A) x : pop_back (l ++ [x]) = l.
Proof. unfold pop_back. rewrite length_app. simpl. by rewrite take_app_length' by lia. Qed.

Lemma length_pop_back (l : list A) : length (pop_back l) = length l - 1.
Proof. unfold pop_back. rewrite length_take. lia. Qed.

Context `{HeapSpec A}.

(** push_back followed by push_heap *)
Lemma heap_push_perm (l : list A) x : push_heap lt (l ++ [x]) ≡ₚ x :: l.
Proof. rewrite push_heap_perm. by rewrite <-Permutation_cons_append. Qed.

(** front, pop_heap, pop_back *)
Lemma heap_pop_spec `{!StrictWeak lt} (l : list A) x :
  is_heap lt l → head l = Some x →
  is_heap lt (pop_back (pop_heap lt l)) ∧
  l ≡ₚ x :: pop_back (pop_heap lt l) ∧
  (∀ y, y ∈ l → lt x y = false).
Proof.
  intros Hh Hx. destruct (pop_heap_spec lt l x Hh Hx) as (l' & -> & Hp & Hh').
  rewrite pop_back_snoc. split; [done|]. split; [by symmetry|].
  intros y Hy. by apply (heap_front_max l).
Qed.
End facts.

#[export] Hint Resolve is_heap_nil is_heap_singleton : cmt.

(** * An implementation *)

Section swap.
Context {A : Type}.
Implicit Types l : list A.

Definition swap (i j : nat) (l : list A) : list A :=
  match l !! i, l !! j with
  | Some a, Some b => <[i:=b]> (<[j:=a]> l)
  | _, _ => l
  end.

Definition trans (i j k : nat) : nat :=
  if decide (k = i) then j else if decide (k = j) then i else k.

Lemma lookup_swap l i j k :
  i < length l → j < length l → swap i j l !! k = l !! trans i j k.
Proof.
  intros [a Ha]%lookup_lt_is_Some [b Hb]%lookup_lt_is_Some.
  pose proof (lookup_lt_Some _ _ _ Ha). pose proof (lookup_lt_Some _ _ _ Hb).
  unfold swap, trans. rewrite Ha, Hb. rewrite !list_lookup_insert, length_insert.
  repeat case_decide; naive_solver.
Qed.

Lemma length_swap l i j : length (swap i j l) = length l.
Proof. unfold swap. repeat case_match; rewrite ?length_insert; done. Qed.

Lemma swap_perm l i j : swap i j l ≡ₚ l.
Proof.
  destruct (decide (i < length l ∧ j < length l)) as [[Hi Hj]|Hn].
  - apply Permutation_inj. rewrite length_swap. split; [done|].
    exists (trans i j). split; [|intros k; by apply lookup_swap].
    intros x y. unfold trans. repeat case_decide; lia.
  - unfold swap. destruct (l !! i) eqn:Hi; [|done]. destruct (l !! j) eqn:Hj; [|done].
    apply lookup_lt_Some in Hi, Hj. lia.
Qed.
End swap.

Section algo.
Context {A : Type} (lt : A → A → bool).

Fixpoint sift_up (fuel : nat) (l : list A) (i : nat) : list A :=
  match fuel with
  | 0 => l
  | S fuel =>
    if decide (i = 0) then l else
    match l !! parent i, l !! i with
    | Some p, Some c =>
      if lt p c then sift_up fuel (swap i (parent i) l) (parent i) else l
    | _, _ => l
    end
  end.

Definition largest_child (l : list A) (i n : nat) : option nat :=
  if decide (2 * i + 2 < n) then
    match l !! (2 * i + 1), l !! (2 * i + 2) with
    | Some a, Some b => Some (if lt a b then 2 * i + 2 else 2 * i + 1)
    | _, _ => None
    end
  else if decide (2 * i + 1 < n) then Some (2 * i + 1) else None.

Fixpoint sift_down (fuel : nat) (l : list A) (i n : nat) : list A :=
  match fuel with
  | 0 => l
  | S fuel =>
    match largest_child l i n with
    | None => l
    | Some c =>
      match l !! i, l !! c with
      | Some a, Some b => if lt a b then sift_down fuel (swap i c l) c n else l
      | _, _ => l
      end
    end
  end.

Fixpoint heapify (k : nat) (l : list A) : list A :=
  match k with
  | 0 => l
  | S k => heapify k (sift_down (length l) l k (length l))
  end.

Lemma length_sift_up fuel l i : length (sift_up fuel l i) = length l.
Proof.
  revert l i. induction fuel as [|fuel IH]; intros l i; simpl; [done|].
  repeat case_match; rewrite ?IH, ?length_swap; done.
Qed.
Lemma sift_up_perm fuel l i : sift_up fuel l i ≡ₚ l.
Proof.
  revert l i. induction fuel as [|fuel IH]; intros l i; simpl; [done|].
  repeat case_match; rewrite ?IH, ?swap_perm; done.
Qed.
Lemma length_sift_down fuel l i n : length (sift_down fuel l i n) = length l.
Proof.
  revert l i. induction fuel as [|fuel IH]; intros l i; simpl; [done|].
  repeat case_match; rewrite ?IH, ?length_swap; done.
Qed.
Lemma sift_down_perm fuel l i n : sift_down fuel l i n ≡ₚ l.
Proof.
  revert l i. induction fuel as [|fuel IH]; intros l i; simpl; [done|].
  repeat case_match; rewrite ?IH, ?swap_perm; done.
Qed.
(** Positions from [n] on are out of reach. *)
Lemma sift_down_lookup fuel l i n j :
  n ≤ j → n ≤ length l → sift_down fuel l i n !! j = l !! j.
Proof.
  revert l i. induction fuel as [|fuel IH]; intros l i Hi Hn; simpl; [done|].
  destruct (largest_child l i n) as [c|] eqn:Hc; [|done].
  assert (i < c < n) by (unfold largest_child in Hc; repeat case_match; simplify_eq; lia).
  repeat case_match; try done. rewrite IH by (rewrite ?length_swap; lia).
  rewrite lookup_swap by lia. unfold trans. by rewrite !decide_False by lia.
Qed.
Lemma heapify_perm k l : heapify k l ≡ₚ l.
Proof.
  revert l. induction k as [|k IH]; intros l; simpl; [done|].
  by rewrite IH, sift_down_perm.
Qed.

Context `{!StrictWeak lt}.

(** [x] is not less than [y]: a total preorder. *)
Let ge x y := lt x y = false.

(** Heap everywhere except that [i] may be greater than its parent. *)
Definition up_inv (l : list A) (i : nat) : Prop :=
  (∀ j a b, 0 < j → j ≠ i → l !! parent j = Some a → l !! j = Some b → ge a b) ∧
  (∀ j a b, 0 < j → 0 < i → parent j = i →
     l !! parent i = Some a → l !! j = Some b → ge a b).

Lemma up_inv_swap l i p c :
  0 < i → l !! parent i = Some p → l !! i = Some c → lt p c = true →
  up_inv l i → up_inv (swap i (parent i) l) (parent i).
Proof.
  intros Hi Hp Hc Hlt [H1 H2]. pose proof (parent_lt i Hi).
  assert (Hpl : parent i < length l) by by eapply lookup_lt_Some.
  assert (Hil : i < length l) by by eapply lookup_lt_Some.
  assert (Hcp : ge c p) by by apply sw_asym.
  split; intros j a b Hj.
  - intros Hjp. rewrite !lookup_swap by done. unfold trans.
    pose proof (parent_lt j Hj).
    destruct (decide (j = i)) as [->|Hji].
    + rewrite !decide_False by lia. rewrite decide_True by done. naive_solver.
    + rewrite (decide_False (P:=j = parent i)) by done.
      destruct (decide (parent j = i)) as [Hpj|Hpj].
      * intros. simplify_eq. by eapply (H2 j).
      * destruct (decide (parent j = parent i)) as [Hpp|Hpp].
        -- intros Ha Hb. simplify_eq. apply sw_negtrans with p; [done|].
           apply (H1 j); [done|done|congruence|done].
        -- intros. by apply (H1 j).
  - intros Hpi Hjp. rewrite !lookup_swap by done. unfold trans.
    pose proof (parent_lt (parent i) Hpi).
    rewrite !(decide_False (P:=parent (parent i) = _)) by lia.
    intros Ha. destruct (decide (j = i)) as [->|Hji].
    + intros. simplify_eq. apply (H1 (parent i)); [done|lia|done|done].
    + rewrite decide_False by (pose proof (parent_lt j Hj); lia).
      intros Hb. apply sw_negtrans with p.
      * apply (H1 (parent i)); [done|lia|done|done].
      * apply (H1 j); [done|done|congruence|done].
Qed.

Lemma sift_up_heap fuel l i :
  i ≤ fuel → i < length l → up_inv l i → is_heap lt (sift_up fuel l i).
Proof.
  revert l i. induction fuel as [|fuel IH]; intros l i Hf Hi Hinv.
  { assert (i = 0) as -> by lia. simpl. intros j a b Hj _ Ha Hb.
    apply (proj1 Hinv j); [lia|lia|done|done]. }
  simpl. case_decide as Hi0.
  { subst. intros j a b Hj _ Ha Hb. apply (proj1 Hinv j); [lia|lia|done|done]. }
  pose proof (parent_lt i ltac:(lia)).
  destruct (lookup_lt_is_Some_2 l i Hi) as [c Hc].
  destruct (lookup_lt_is_Some_2 l (parent i) ltac:(lia)) as [p Hp].
  rewrite Hp, Hc. destruct (lt p c) eqn:Hlt.
  - apply IH; [lia|rewrite length_swap; lia|]. by apply (up_inv_swap l i p c); [lia|..].
  - intros j a b Hj _ Ha Hb. destruct (decide (j = i)) as [->|]; [naive_solver|].
    apply (proj1 Hinv j); [lia|done|done|done].
Qed.

Lemma largest_child_Some l i n c :
  n ≤ length l → largest_child l i n = Some c →
  0 < c < n ∧ parent c = i ∧
  ∀ j a b, 0 < j < n → parent j = i → l !! c = Some a → l !! j = Some b → ge a b.
Proof.
  intros Hn. unfold largest_child. case_decide as H2.
  - destruct (lookup_lt_is_Some_2 l (2*i+1) ltac:(lia)) as [a1 Ha1].
    destruct (lookup_lt_is_Some_2 l (2*i+2) ltac:(lia)) as [a2 Ha2]. rewrite Ha1, Ha2.
    intros Hc. apply Some_inj in Hc. destruct (lt a1 a2) eqn:Hl; subst c;
      (split_and!; [lia|lia|apply parent_child; lia|]);
      intros j a b Hj [-> | ->]%parent_child Ha Hb; try lia;
      simplify_eq;
      first [done|by apply sw_irrefl|by apply sw_asym].
  - case_decide as H1; [|done]. intros Hc. apply Some_inj in Hc. subst c.
    split_and!; [lia|lia|apply parent_child; lia|].
    intros j a b Hj [-> | ->]%parent_child Ha Hb; [|lia|lia].
    simplify_eq. by apply sw_irrefl.
Qed.

Lemma largest_child_None l i n :
  n ≤ length l → largest_child l i n = None → ∀ j, 0 < j < n → parent j ≠ i.
Proof.
  intros Hn. unfold largest_child. case_decide as H2.
  - destruct (lookup_lt_is_Some_2 l (2*i+1) ltac:(lia)) as [a1 Ha1].
    destruct (lookup_lt_is_Some_2 l (2*i+2) ltac:(lia)) as [a2 Ha2].
    by rewrite Ha1, Ha2.
  - case_decide as H1; [done|]. intros _ j Hj [-> | ->]%parent_child; lia.
Qed.

(** Heap from [k] on except that [i] may be less than its children. *)
Definition down_inv (l : list A) (k i n : nat) : Prop :=
  (∀ j a b, 0 < j < n → k ≤ parent j → parent j ≠ i →
     l !! parent j = Some a → l !! j = Some b → ge a b) ∧
  (∀ j a b, 0 < j < n → 0 < i → k ≤ parent i → parent j = i →
     l !! parent i = Some a → l !! j = Some b → ge a b).

Lemma down_inv_swap l k i n c a b :
  n ≤ length l → k ≤ i → largest_child l i n = Some c →
  l !! i = Some a → l !! c = Some b → lt a b = true →
  down_inv l k i n → down_inv (swap i c l) k c n.
Proof.
  intros Hn Hki Hc Ha Hb Hlt [H1 H2].
  destruct (largest_child_Some _ _ _ _ Hn Hc) as (Hcn & Hpc & Hmax).
  pose proof (parent_lt c ltac:(lia)) as Hlc. rewrite Hpc in Hlc.
  assert (Hba : ge b a) by by apply sw_asym.
  split; intros j x y Hj.
  - intros Hk Hpj. rewrite !lookup_swap by lia. unfold trans.
    pose proof (parent_lt j ltac:(lia)).
    rewrite (decide_False (P:=parent j = c)) by done.
    destruct (decide (j = i)) as [->|Hji].
    + rewrite (decide_False (P:=parent i = i)) by lia.
      intros Hx Hy. apply (H2 c); [lia|lia|done|done|done|done].
    + destruct (decide (parent j = i)) as [Hpi|Hpi].
      * destruct (decide (j = c)) as [->|Hjc]; [naive_solver|].
        intros Hx Hy. by apply (Hmax j).
      * rewrite decide_False by congruence. intros. by apply (H1 j).
  - intros Hc0 Hkc Hpj. rewrite !lookup_swap by lia. unfold trans.
    pose proof (parent_lt j ltac:(lia)).
    rewrite (decide_True (P:=parent c = i)) by done.
    rewrite !(decide_False (P:=j = _)) by lia.
    intros Hx Hy. simplify_eq. apply (H1 j); [done|lia|lia|congruence|done].
Qed.

Lemma sift_down_heap fuel l k i n :
  n ≤ fuel + i → n ≤ length l → k ≤ i → down_inv l k i n →
  heap_from lt k n (sift_down fuel l i n).
Proof.
  revert l i. induction fuel as [|fuel IH]; intros l i Hf Hn Hk Hinv; simpl.
  { intros j a b Hj Hkj. pose proof (parent_lt j ltac:(lia)).
    apply (proj1 Hinv); [done|done|lia]. }
  destruct (largest_child l i n) as [c|] eqn:Hc.
  2:{ intros j a b Hj Hkj. apply (proj1 Hinv); [done|done|].
      by eapply largest_child_None. }
  destruct (largest_child_Some _ _ _ _ Hn Hc) as (Hcn & Hpc & Hmax).
  pose proof (parent_lt c ltac:(lia)) as Hlc.
  destruct (lookup_lt_is_Some_2 l i ltac:(lia)) as [a Ha].
  destruct (lookup_lt_is_Some_2 l c ltac:(lia)) as [b Hb].
  rewrite Ha, Hb. destruct (lt a b) eqn:Hlt.
  - apply IH; [lia|by rewrite length_swap|lia|by eapply down_inv_swap].
  - intros j x y Hj Hkj Hx Hy. destruct (decide (parent j = i)) as [Hpj|].
    + rewrite Hpj in Hx. simplify_eq. apply sw_negtrans with b; [done|].
      by apply (Hmax j).
    + by apply (proj1 Hinv j).
Qed.

Lemma heapify_heap k l :
  heap_from lt k (length l) l → is_heap lt (heapify k l).
Proof.
  revert l. induction k as [|k IH]; intros l Hh; simpl; [done|].
  apply IH. rewrite length_sift_down.
  apply sift_down_heap; [lia|lia|lia|]. split.
  - intros j a b Hj Hkj Hpj. apply Hh; [done|lia].
  - intros j a b Hj Hk0 Hkp. pose proof (parent_lt k Hk0). lia.
Qed.
End algo.

#[export] Instance std_heap A : HeapAlgo A := {
  push_heap lt l := sift_up lt (length l) l (length l - 1);
  pop_heap lt l :=
    let n := length l - 1 in
    sift_down lt n (swap 0 n l) 0 n;
  make_heap lt l := heapify lt (length l) l;
}.

Lemma std_pop_heap {A} (lt : A → A → bool) `{!StrictWeak lt} (l : list A) x :
  is_heap lt l → head l = Some x →
  ∃ l', pop_heap lt l = l' ++ [x] ∧ x :: l' ≡ₚ l ∧ is_heap lt l'.
Proof.
  intros Hh Hx. simpl. set (n := length l - 1).
  assert (Hlen : length l = S n) by (subst n; destruct l; simpl in *; [done|lia]).
  clearbody n. assert (H0 : l !! 0 = Some x) by by destruct l.
  set (l1 := swap 0 n l). set (l2 := sift_down lt n l1 0 n).
  assert (Hl1 : length l1 = S n) by (subst l1; by rewrite length_swap).
  assert (Hl2 : length l2 = S n) by (subst l2; by rewrite length_sift_down).
  assert (Hlast : l2 !! n = Some x).
  { subst l2. rewrite sift_down_lookup by lia. subst l1.
    rewrite lookup_swap by lia. unfold trans. destruct (decide (n = 0)) as [Hn|Hn].
    - by rewrite Hn.
    - by rewrite decide_True. }
  assert (Hdec : l2 = take n l2 ++ [x]).
  { rewrite <-(take_drop n l2) at 1. f_equal. apply drop_S in Hlast as ->.
    f_equal. apply drop_ge. lia. }
  exists (take n l2). split; [done|]. split.
  - transitivity l2; [|by subst l2 l1; rewrite sift_down_perm, swap_perm].
    rewrite Hdec at 2. by rewrite Permutation_cons_append.
  - assert (Hfrom : heap_from lt 0 n l2).
    { subst l2. apply (sift_down_heap lt n l1 0 0 n); [lia|lia|lia|]. split; [|intros; lia].
      intros j a b Hj _ Hp. subst l1. pose proof (parent_lt j ltac:(lia)).
      rewrite !lookup_swap by lia. unfold trans.
      rewrite !decide_False by lia. intros. apply (Hh j); [lia|lia|done|done]. }
    intros j a b Hj _. rewrite length_take in Hj. pose proof (parent_lt j ltac:(lia)).
    rewrite !lookup_take_lt by lia. intros. apply (Hfrom j); [lia|lia|done|done].
Qed.

#[export] Instance std_heap_spec A : HeapSpec A.
Proof.
  split; intros; simpl.
  - apply sift_up_perm.
  - rewrite length_app. simpl. apply sift_up_heap; [done|lia|rewrite length_app; simpl; lia|].
    assert (Hlt : ∀ j, j < length l → (l ++ [x]) !! j = l !! j)
      by (intros; by apply lookup_app_l).
    split; intros j a b Hj.
    + intros Hji Ha Hb. pose proof (lookup_lt_Some _ _ _ Hb) as Hl.
      rewrite length_app in Hl. simpl in Hl. pose proof (parent_lt j Hj).
      rewrite Hlt in Ha, Hb by lia. apply (H j); [lia|lia|done|done].
    + intros _ Hp _ Hb. apply lookup_lt_Some in Hb. rewrite length_app in Hb.
      simpl in Hb. pose proof (parent_lt j Hj). lia.
  - by apply std_pop_heap.
  - apply heapify_perm.
  - apply heapify_heap; [done|]. intros j a b Hj Hp. pose proof (parent_lt j ltac:(lia)). lia.
Qed.

Example heap_trace :
  pop_back (pop_heap Nat.ltb (push_heap Nat.ltb (make_heap Nat.ltb [3; 9; 4; 7] ++ [8])))
  = [8; 7; 4; 3].
Proof. reflexivity. Qed.
