(* ===== verification/World.v ===== *)
(** The store the library's code runs on: exceptions ([error.hpp]), priorities
    and tasks ([task.hpp]), promises ([future.hpp]), fibre contexts
    ([cmt_context]) and the private state of a [cmt::thread]
    ([thread_private], both in [thread.cpp]), with the primitive reads and
    writes the translated code is made of. Objects live in finite maps keyed by
    their address; a C++ pointer is an [option nat]. *)
From S2P Require Import Prelude.

(** * Time points: 64-bit signed nanoseconds *)

Definition time_point_max : Z := (2 ^ 63 - 1)%Z.
Definition time_point_min : Z := (- 2 ^ 63)%Z.
Definition in_int64 (z : Z) : bool := bool_decide (time_point_min ≤ z ≤ time_point_max)%Z.

(** [microseconds::max()], the default of every timeout argument. *)
Definition microseconds_max : Z := (2 ^ 63 - 1)%Z.

(** Successive readings of [system_clock::now()]. *)
Class Clock := now_at : nat → Z.
Class MonoClock `{!Clock} : Prop := clock_mono i j : i ≤ j → (now_at i ≤ now_at j)%Z.

(** * Exceptions *)

Inductive exn :=
  | null_future
  | future_value_not_ready
  | future_wait_timeout
  | broken_promise
  | task_canceled
  | thread_quit
  | system_error (ec : Z)          (* boost::system::system_error *)
  | std_error (id : nat)           (* any other std or boost exception *)
  | foreign_error (id : nat).      (* an exception of no known base class *)

#[export] Instance exn_eq_dec : EqDecision exn.
Proof. solve_decision. Defined.

(** [what()] of the exceptions of [error.hpp]. *)
Definition what (e : exn) : option string :=
  match e with
  | null_future => Some "attempt to access null future"
  | future_value_not_ready => Some "the future value is not ready"
  | future_wait_timeout => Some "timeout waiting for future"
  | broken_promise => Some "broken promise - operation timeout"
  | task_canceled => Some "task canceled"
  | thread_quit => Some "thread quit"
  | _ => None
  end%string.

(** * Objects *)

Abbreviation ptr := (option nat).

(** The callable a task carries: user code, or one of the library's own
    [boost::bind] closures. *)
Inductive functor :=
  | UserFn (id : nat)
  | BindNotify (thr p : nat)       (* boost::bind( &thread::notify, thr, p ) *)
  | BindQuit (thr : nat).          (* boost::bind( &thread::quit, thr ) *)

Record task := Task {
  t_when : Z;
  t_canceled : bool;
  t_posted_num : Z;
  t_prio : Z;
  t_next : ptr;
  t_active_context : ptr;
  t_functor : functor;
  t_prom : ptr;                    (* rtask<R>::m_prom; null for a vtask *)
  t_refs : Z;                      (* retainable::m_ref_count *)
}.

Record cmt_context := Context {
  c_prio : Z;
  c_prom : ptr;
  c_resume_time : Z;
  c_next_blocked : ptr;
  c_next : ptr;
  c_canceled : bool;
  c_complete : bool;
}.

Record thread_private := ThreadPrivate {
  boost_thread : ptr;
  task_in_queue : ptr;
  task_pqueue : list nat;
  task_sch_queue : list nat;
  sleep_pqueue : list nat;
  th_done : bool;
  th_name : string;
  current : ptr;
  ready_head : ptr;
  ready_tail : ptr;
  blocked : ptr;
  task_ready : nat;                (* number of notify_all calls so far *)
}.

Record promise (T : Type) := Promise {
  m_task : ptr;
  m_blocked_thread : ptr;
  m_timeout : Z;
  m_error : option exn;
  m_value : option T;
}.
Arguments Promise {T} _ _ _ _ _.
Arguments m_task {T} _.
Arguments m_blocked_thread {T} _.
Arguments m_timeout {T} _.
Arguments m_error {T} _.
Arguments m_value {T} _.

Record world (T : Type) := World {
  w_ctx : gmap nat cmt_context;
  w_prom : gmap nat (promise T);
  w_task : gmap nat task;
  w_thr : gmap nat thread_private;
  w_self : nat;                    (* thread::current() *)
  w_ticks : nat;                   (* clock readings made so far *)
  w_task_count : Z;                (* static int64_t global_task_count *)
  w_fresh : nat;                   (* next address operator new returns *)
}.
Arguments World {T} _ _ _ _ _ _ _ _.
Arguments w_ctx {T} _.
Arguments w_prom {T} _.
Arguments w_task {T} _.
Arguments w_thr {T} _.
Arguments w_self {T} _.
Arguments w_ticks {T} _.
Arguments w_task_count {T} _.
Arguments w_fresh {T} _.

(** * Constructors of the objects *)

(** [cmt_context::cmt_context()]; the members it does not name default to the
    epoch and to priority 0. *)
Definition new_cmt_context : cmt_context := Context 0 None 0 None None false false.

Definition new_promise {T} : promise T := Promise None None microseconds_max None None.
Definition new_promise_value {T} (v : T) : promise T :=
  Promise None None microseconds_max None (Some v).

Definition new_thread_private (name : string) : thread_private :=
  ThreadPrivate None None [] [] [] false name None None None None 0.

(** * Field updates *)

Definition set_t_canceled x (t : task) : task :=
  Task (t_when t) x (t_posted_num t) (t_prio t) (t_next t) (t_active_context t) (t_functor
    t) (t_prom t) (t_refs t).
Definition set_t_next x (t : task) : task :=
  Task (t_when t) (t_canceled t) (t_posted_num t) (t_prio t) x (t_active_context t)
    (t_functor t) (t_prom t) (t_refs t).
Definition set_t_active_context x (t : task) : task :=
  Task (t_when t) (t_canceled t) (t_posted_num t) (t_prio t) (t_next t) x (t_functor t)
    (t_prom t) (t_refs t).
Definition set_t_refs x (t : task) : task :=
  Task (t_when t) (t_canceled t) (t_posted_num t) (t_prio t) (t_next t) (t_active_context t)
    (t_functor t) (t_prom t) x.

Definition set_c_prom x (c : cmt_context) : cmt_context :=
  Context (c_prio c) x (c_resume_time c) (c_next_blocked c) (c_next c) (c_canceled c)
    (c_complete c).
Definition set_c_resume_time x (c : cmt_context) : cmt_context :=
  Context (c_prio c) (c_prom c) x (c_next_blocked c) (c_next c) (c_canceled c) (c_complete
    c).
Definition set_c_next_blocked x (c : cmt_context) : cmt_context :=
  Context (c_prio c) (c_prom c) (c_resume_time c) x (c_next c) (c_canceled c) (c_complete
    c).
Definition set_c_next x (c : cmt_context) : cmt_context :=
  Context (c_prio c) (c_prom c) (c_resume_time c) (c_next_blocked c) x (c_canceled c)
    (c_complete c).
Definition set_c_canceled x (c : cmt_context) : cmt_context :=
  Context (c_prio c) (c_prom c) (c_resume_time c) (c_next_blocked c) (c_next c) x
    (c_complete c).

Definition set_boost_thread x (s : thread_private) : thread_private :=
  ThreadPrivate x (task_in_queue s) (task_pqueue s) (task_sch_queue s) (sleep_pqueue s)
    (th_done s) (th_name s) (current s) (ready_head s) (ready_tail s) (blocked s)
    (task_ready s).
Definition set_task_in_queue x (s : thread_private) : thread_private :=
  ThreadPrivate (boost_thread s) x (task_pqueue s) (task_sch_queue s) (sleep_pqueue s)
    (th_done s) (th_name s) (current s) (ready_head s) (ready_tail s) (blocked s)
    (task_ready s).
Definition set_task_pqueue x (s : thread_private) : thread_private :=
  ThreadPrivate (boost_thread s) (task_in_queue s) x (task_sch_queue s) (sleep_pqueue s)
    (th_done s) (th_name s) (current s) (ready_head s) (ready_tail s) (blocked s)
    (task_ready s).
Definition set_task_sch_queue x (s : thread_private) : thread_private :=
  ThreadPrivate (boost_thread s) (task_in_queue s) (task_pqueue s) x (sleep_pqueue s)
    (th_done s) (th_name s) (current s) (ready_head s) (ready_tail s) (blocked s)
    (task_ready s).
Definition set_sleep_pqueue x (s : thread_private) : thread_private :=
  ThreadPrivate (boost_thread s) (task_in_queue s) (task_pqueue s) (task_sch_queue s) x
    (th_done s) (th_name s) (current s) (ready_head s) (ready_tail s) (blocked s)
    (task_ready s).
Definition set_th_done x (s : thread_private) : thread_private :=
  ThreadPrivate (boost_thread s) (task_in_queue s) (task_pqueue s) (task_sch_queue s)
    (sleep_pqueue s) x (th_name s) (current s) (ready_head s) (ready_tail s) (blocked s)
    (task_ready s).
Definition set_th_name x (s : thread_private) : thread_private :=
  ThreadPrivate (boost_thread s) (task_in_queue s) (task_pqueue s) (task_sch_queue s)
    (sleep_pqueue s) (th_done s) x (current s) (ready_head s) (ready_tail s) (blocked s)
    (task_ready s).
Definition set_current x (s : thread_private) : thread_private :=
  ThreadPrivate (boost_thread s) (task_in_queue s) (task_pqueue s) (task_sch_queue s)
    (sleep_pqueue s) (th_done s) (th_name s) x (ready_head s) (ready_tail s) (blocked s)
    (task_ready s).
Definition set_ready_head x (s : thread_private) : thread_private :=
  ThreadPrivate (boost_thread s) (task_in_queue s) (task_pqueue s) (task_sch_queue s)
    (sleep_pqueue s) (th_done s) (th_name s) (current s) x (ready_tail s) (blocked s)
    (task_ready s).
Definition set_ready_tail x (s : thread_private) : thread_private :=
  ThreadPrivate (boost_thread s) (task_in_queue s) (task_pqueue s) (task_sch_queue s)
    (sleep_pqueue s) (th_done s) (th_name s) (current s) (ready_head s) x (blocked s)
    (task_ready s).
Definition set_blocked x (s : thread_private) : thread_private :=
  ThreadPrivate (boost_thread s) (task_in_queue s) (task_pqueue s) (task_sch_queue s)
    (sleep_pqueue s) (th_done s) (th_name s) (current s) (ready_head s) (ready_tail s) x
    (task_ready s).
Definition set_task_ready x (s : thread_private) : thread_private :=
  ThreadPrivate (boost_thread s) (task_in_queue s) (task_pqueue s) (task_sch_queue s)
    (sleep_pqueue s) (th_done s) (th_name s) (current s) (ready_head s) (ready_tail s)
    (blocked s) x.

Definition set_m_task {T} x (p : promise T) : promise T :=
  Promise x (m_blocked_thread p) (m_timeout p) (m_error p) (m_value p).
Definition set_m_blocked_thread {T} x (p : promise T) : promise T :=
  Promise (m_task p) x (m_timeout p) (m_error p) (m_value p).
Definition set_m_error {T} x (p : promise T) : promise T :=
  Promise (m_task p) (m_blocked_thread p) (m_timeout p) x (m_value p).
Definition set_m_value {T} x (p : promise T) : promise T :=
  Promise (m_task p) (m_blocked_thread p) (m_timeout p) (m_error p) x.

Definition set_w_ctx {T} x (w : world T) : world T :=
  World x (w_prom w) (w_task w) (w_thr w) (w_self w) (w_ticks w) (w_task_count w) (w_fresh
    w).
Definition set_w_prom {T} x (w : world T) : world T :=
  World (w_ctx w) x (w_task w) (w_thr w) (w_self w) (w_ticks w) (w_task_count w) (w_fresh
    w).
Definition set_w_task {T} x (w : world T) : world T :=
  World (w_ctx w) (w_prom w) x (w_thr w) (w_self w) (w_ticks w) (w_task_count w) (w_fresh
    w).
Definition set_w_thr {T} x (w : world T) : world T :=
  World (w_ctx w) (w_prom w) (w_task w) x (w_self w) (w_ticks w) (w_task_count w) (w_fresh
    w).
Definition set_w_self {T} x (w : world T) : world T :=
  World (w_ctx w) (w_prom w) (w_task w) (w_thr w) x (w_ticks w) (w_task_count w) (w_fresh
    w).
Definition set_w_ticks {T} x (w : world T) : world T :=
  World (w_ctx w) (w_prom w) (w_task w) (w_thr w) (w_self w) x (w_task_count w) (w_fresh
    w).
Definition set_w_task_count {T} x (w : world T) : world T :=
  World (w_ctx w) (w_prom w) (w_task w) (w_thr w) (w_self w) (w_ticks w) x (w_fresh w).
Definition set_w_fresh {T} x (w : world T) : world T :=
  World (w_ctx w) (w_prom w) (w_task w) (w_thr w) (w_self w) (w_ticks w) (w_task_count w)
    x.

(** * Primitive actions *)

Section actions.
Context {T : Type}.
Abbreviation C := (M (world T) exn).

(** [p->...]: every access through a pointer checks that it is valid. *)
Definition get_ctx (c : nat) : C cmt_context := λ w,
  match w_ctx w !! c with Some k => (Ret k, w) | None => (Undef BadPointer, w) end.
Definition get_prom (p : nat) : C (promise T) := λ w,
  match w_prom w !! p with Some k => (Ret k, w) | None => (Undef BadPointer, w) end.
Definition get_task (t : nat) : C task := λ w,
  match w_task w !! t with Some k => (Ret k, w) | None => (Undef BadPointer, w) end.
Definition get_thr (t : nat) : C thread_private := λ w,
  match w_thr w !! t with Some k => (Ret k, w) | None => (Undef BadPointer, w) end.

Definition mod_ctx (c : nat) (f : cmt_context → cmt_context) : C unit := λ w,
  match w_ctx w !! c with
  | Some k => (Ret tt, set_w_ctx (<[c := f k]> (w_ctx w)) w)
  | None => (Undef BadPointer, w)
  end.
Definition mod_prom (p : nat) (f : promise T → promise T) : C unit := λ w,
  match w_prom w !! p with
  | Some k => (Ret tt, set_w_prom (<[p := f k]> (w_prom w)) w)
  | None => (Undef BadPointer, w)
  end.
Definition mod_task (t : nat) (f : task → task) : C unit := λ w,
  match w_task w !! t with
  | Some k => (Ret tt, set_w_task (<[t := f k]> (w_task w)) w)
  | None => (Undef BadPointer, w)
  end.
Definition mod_thr (t : nat) (f : thread_private → thread_private) : C unit := λ w,
  match w_thr w !! t with
  | Some k => (Ret tt, set_w_thr (<[t := f k]> (w_thr w)) w)
  | None => (Undef BadPointer, w)
  end.

(** [&thread::current()] *)
Definition self : C nat := gets w_self.

(** [system_clock::now()] *)
Definition now `{!Clock} : C Z := λ w,
  (Ret (now_at (w_ticks w)), set_w_ticks (S (w_ticks w)) w).

(** [operator new] *)
Definition fresh : C nat := λ w, (Ret (w_fresh w), set_w_fresh (S (w_fresh w)) w).

Definition alloc_ctx : C nat :=
  a ← fresh; modify (λ w, set_w_ctx (<[a := new_cmt_context]> (w_ctx w)) w);; mret a.
Definition alloc_prom : C nat :=
  a ← fresh; modify (λ w, set_w_prom (<[a := new_promise]> (w_prom w)) w);; mret a.

Lemma wp_get_ctx c Q w : wp (get_ctx c) Q w ↔
  match w_ctx w !! c with Some k => Q (Ret k) w | None => Q (Undef BadPointer) w end.
Proof. unfold wp, get_ctx. by destruct (w_ctx w !! c). Qed.
Lemma wp_get_prom p Q w : wp (get_prom p) Q w ↔
  match w_prom w !! p with Some k => Q (Ret k) w | None => Q (Undef BadPointer) w end.
Proof. unfold wp, get_prom. by destruct (w_prom w !! p). Qed.
Lemma wp_get_task t Q w : wp (get_task t) Q w ↔
  match w_task w !! t with Some k => Q (Ret k) w | None => Q (Undef BadPointer) w end.
Proof. unfold wp, get_task. by destruct (w_task w !! t). Qed.
Lemma wp_get_thr t Q w : wp (get_thr t) Q w ↔
  match w_thr w !! t with Some k => Q (Ret k) w | None => Q (Undef BadPointer) w end.
Proof. unfold wp, get_thr. by destruct (w_thr w !! t). Qed.
Lemma wp_mod_ctx c f Q w : wp (mod_ctx c f) Q w ↔
  match w_ctx w !! c with
  | Some k => Q (Ret tt) (set_w_ctx (<[c := f k]> (w_ctx w)) w)
  | None => Q (Undef BadPointer) w end.
Proof. unfold wp, mod_ctx. by destruct (w_ctx w !! c). Qed.
Lemma wp_mod_prom p f Q w : wp (mod_prom p f) Q w ↔
  match w_prom w !! p with
  | Some k => Q (Ret tt) (set_w_prom (<[p := f k]> (w_prom w)) w)
  | None => Q (Undef BadPointer) w end.
Proof. unfold wp, mod_prom. by destruct (w_prom w !! p). Qed.
Lemma wp_mod_task t f Q w : wp (mod_task t f) Q w ↔
  match w_task w !! t with
  | Some k => Q (Ret tt) (set_w_task (<[t := f k]> (w_task w)) w)
  | None => Q (Undef BadPointer) w end.
Proof. unfold wp, mod_task. by destruct (w_task w !! t). Qed.
Lemma wp_mod_thr t f Q w : wp (mod_thr t f) Q w ↔
  match w_thr w !! t with
  | Some k => Q (Ret tt) (set_w_thr (<[t := f k]> (w_thr w)) w)
  | None => Q (Undef BadPointer) w end.
Proof. unfold wp, mod_thr. by destruct (w_thr w !! t). Qed.
Lemma wp_self Q w : wp self Q w ↔ Q (Ret (w_self w)) w.
Proof. done. Qed.
Lemma wp_now `{!Clock} Q w :
  wp now Q w ↔ Q (Ret (now_at (w_ticks w))) (set_w_ticks (S (w_ticks w)) w).
Proof. done. Qed.
Lemma wp_fresh Q w :
  wp fresh Q w ↔ Q (Ret (w_fresh w)) (set_w_fresh (S (w_fresh w)) w).
Proof. done. Qed.

(** ** Frames *)

(** The threads other than [this] *)
Definition others (this : nat) (w : world T) : gmap nat thread_private := delete this (w_thr w).

Lemma others_lookup this w w' t :
  others this w' = others this w → t ≠ this → w_thr w' !! t = w_thr w !! t.
Proof.
  intros Ho Hne. apply (f_equal (lookup t)) in Ho. unfold others in Ho.
  by rewrite !lookup_delete_ne in Ho.
Qed.

Lemma keeps_get_ctx {X} (f : world T → X) c : keeps f (get_ctx c).
Proof. intros w. unfold get_ctx. by case_match. Qed.
Lemma keeps_get_prom {X} (f : world T → X) p : keeps f (get_prom p).
Proof. intros w. unfold get_prom. by case_match. Qed.
Lemma keeps_get_task {X} (f : world T → X) t : keeps f (get_task t).
Proof. intros w. unfold get_task. by case_match. Qed.
Lemma keeps_get_thr {X} (f : world T → X) t : keeps f (get_thr t).
Proof. intros w. unfold get_thr. by case_match. Qed.
Lemma keeps_mod_thr this f : keeps (others this) (mod_thr this f).
Proof.
  intros w. unfold mod_thr, others. case_match; simpl; [|done]. by rewrite delete_insert_eq.
Qed.
Lemma keeps_mod_ctx this c f : keeps (others this) (mod_ctx c f).
Proof. intros w. unfold mod_ctx. by case_match. Qed.
Lemma keeps_mod_prom this p f : keeps (others this) (mod_prom p f).
Proof. intros w. unfold mod_prom. by case_match. Qed.
Lemma keeps_mod_task this t f : keeps (others this) (mod_task t f).
Proof. intros w. unfold mod_task. by case_match. Qed.
Lemma keeps_fresh this : keeps (others this) fresh.
Proof. done. Qed.
Lemma keeps_now this `{!Clock} : keeps (others this) now.
Proof. done. Qed.
Lemma keeps_self {X} (f : world T → X) : keeps f self.
Proof. done. Qed.
Lemma keeps_task_mod_thr this f : keeps (w_task (T := T)) (mod_thr this f).
Proof. intros w. unfold mod_thr. by case_match. Qed.
Lemma keeps_task_mod_ctx c f : keeps (w_task (T := T)) (mod_ctx c f).
Proof. intros w. unfold mod_ctx. by case_match. Qed.
Lemma keeps_task_mod_prom p f : keeps (w_task (T := T)) (mod_prom p f).
Proof. intros w. unfold mod_prom. by case_match. Qed.
Lemma keeps_alloc_ctx this : keeps (others this) alloc_ctx.
Proof. done. Qed.
End actions.

#[export] Hint Resolve keeps_get_ctx keeps_get_prom keeps_get_task keeps_get_thr keeps_mod_thr
  keeps_mod_ctx keeps_mod_prom keeps_mod_task keeps_fresh keeps_now keeps_self
  keeps_alloc_ctx keeps_task_mod_thr keeps_task_mod_ctx keeps_task_mod_prom : keeps.

#[export] Hint Rewrite @wp_get_ctx @wp_get_prom @wp_get_task @wp_get_thr @wp_mod_ctx
  @wp_mod_prom @wp_mod_task @wp_mod_thr @wp_self @wp_now @wp_fresh : cmt.

(** * Larger stores

    Components that keep state of their own run the operations of this store on
    the part of theirs that is one. *)

Class HasWorld (S T : Type) := {
  the_world : S → world T;
  put_world : world T → S → S;
}.
#[export] Hint Mode HasWorld ! - : typeclass_instances.

Section larger.
Context {S T : Type} `{!HasWorld S T}.

Definition on_world {B} (m : M (world T) exn B) : M S exn B := λ s,
  let '(r, w) := m (the_world s) in (r, put_world w s).

Lemma wp_on_world {B} (m : M (world T) exn B) Q s :
  wp (on_world m) Q s ↔ wp m (λ r w, Q r (put_world w s)) (the_world s).
Proof. unfold wp, on_world. by destruct (m (the_world s)). Qed.
End larger.
