(* ===== verification/ReadyList.v ===== *)
(** The intrusive context lists of [thread_private] (thread.cpp): the ready
    list, a deque threaded through [cmt_context::next] with head and tail
    pointers, and the blocked list, a stack threaded through
    [cmt_context::next_blocked]. The pointer operations are shown to implement
    the operations on the lists of contexts they represent. *)
From S2P Require Import Prelude World.

Section ops.
Context {T : Type}.
Abbreviation C := (M (world T) exn).
Implicit Types (t c : nat).

Definition add_to_blocked (t c : nat) : C unit :=
  s ← get_thr t;
  mod_ctx c (set_c_next_blocked (blocked s));;
  mod_thr t (set_blocked (Some c)).

Definition ready_pop_front (t : nat) : C ptr :=
  s ← get_thr t;
  match ready_head s with
  | None => mret None
  | Some tmp =>
    k ← get_ctx tmp;
    mod_thr t (set_ready_head (c_next k));;
    when (bool_decide (c_next k = None)) (mod_thr t (set_ready_tail None));;
    mod_ctx tmp (set_c_next None);;
    mret (Some tmp)
  end.

Definition ready_push_front (t c : nat) : C unit :=
  s ← get_thr t;
  mod_ctx c (set_c_next (ready_head s));;
  mod_thr t (set_ready_head (Some c));;
  when (bool_decide (ready_tail s = None)) (mod_thr t (set_ready_tail (Some c))).

Definition ready_push_back (t c : nat) : C unit :=
  mod_ctx c (set_c_next None);;
  s ← get_thr t;
  match ready_tail s with
  | Some tl => mod_ctx tl (set_c_next (Some c))
  | None => mod_thr t (set_ready_head (Some c))
  end;;
  mod_thr t (set_ready_tail (Some c)).

(** No other thread's lists are touched. *)
Lemma keeps_add_to_blocked t c : keeps (others t) (add_to_blocked t c).
Proof. unfold add_to_blocked. solve_keeps. Qed.
Lemma keeps_ready_pop_front t : keeps (others t) (ready_pop_front t).
Proof. unfold ready_pop_front. solve_keeps. Qed.
Lemma keeps_ready_push_front t c : keeps (others t) (ready_push_front t c).
Proof. unfold ready_push_front. solve_keeps. Qed.
Lemma keeps_ready_push_back t c : keeps (others t) (ready_push_back t c).
Proof. unfold ready_push_back. solve_keeps. Qed.
End ops.

#[export] Hint Resolve keeps_add_to_blocked keeps_ready_pop_front keeps_ready_push_front
  keeps_ready_push_back : keeps.

(** * What the pointers represent *)

Abbreviation ctx_map := (gmap nat cmt_context).

Definition next_of (m : ctx_map) (x : nat) : ptr := m !! x ≫= c_next.
Definition next_blocked_of (m : ctx_map) (x : nat) : ptr := m !! x ≫= c_next_blocked.

Definition allocated (m : ctx_map) (xs : list nat) : Prop :=
  ∀ x, x ∈ xs → is_Some (m !! x).

Definition ready_rep (m : ctx_map) (s : thread_private) (xs : list nat) : Prop :=
  chain (next_of m) (ready_head s) xs ∧ ready_tail s = last xs ∧ allocated m xs.

Definition blocked_rep (m : ctx_map) (s : thread_private) (xs : list nat) : Prop :=
  chain (next_blocked_of m) (blocked s) xs ∧ allocated m xs.

(** What an operation leaves alone: everything but the ready links of the
    contexts, respectively the ready pointers of the thread. *)
Definition same_but_next (m m' : ctx_map) : Prop :=
  set_c_next None <$> m = set_c_next None <$> m'.

Definition same_but_ready (s s' : thread_private) : Prop :=
  set_ready_head None (set_ready_tail None s) = set_ready_head None (set_ready_tail None s').

#[export] Instance same_but_next_equiv : Equivalence same_but_next.
Proof. unfold same_but_next. split; [intros ?|intros ???|intros ?????]; congruence. Qed.

#[export] Instance same_but_ready_equiv : Equivalence same_but_ready.
Proof. unfold same_but_ready. split; [intros ?|intros ???|intros ?????]; congruence. Qed.

Section reps.
Implicit Types (m : ctx_map) (s : thread_private) (xs : list nat).

Lemma ready_rep_NoDup m s xs : ready_rep m s xs → NoDup xs.
Proof. intros [H _]. by eapply chain_NoDup. Qed.

Lemma blocked_rep_NoDup m s xs : blocked_rep m s xs → NoDup xs.
Proof. intros [H _]. by eapply chain_NoDup. Qed.

Lemma ready_rep_det m s xs ys : ready_rep m s xs → ready_rep m s ys → xs = ys.
Proof. intros [H _] [H' _]. by eapply chain_det. Qed.

Lemma blocked_rep_det m s xs ys : blocked_rep m s xs → blocked_rep m s ys → xs = ys.
Proof. intros [H _] [H' _]. by eapply chain_det. Qed.

Lemma same_but_next_insert m c k v :
  m !! c = Some k → same_but_next m (<[c := set_c_next v k]> m).
Proof.
  intros Hc. apply map_eq. intros i. rewrite !lookup_fmap, lookup_insert.
  case_decide as Hi; [|done]. subst. by rewrite Hc.
Qed.

Lemma same_but_next_lookup m m' x :
  same_but_next m m' → set_c_next None <$> m !! x = set_c_next None <$> m' !! x.
Proof. intros H. by rewrite <-!lookup_fmap, H. Qed.

Lemma same_but_next_allocated m m' xs :
  same_but_next m m' → allocated m xs → allocated m' xs.
Proof.
  intros H Ha x Hx. destruct (Ha x Hx) as [k Hk].
  apply (same_but_next_lookup _ _ x) in H. rewrite Hk in H.
  destruct (m' !! x); simpl in *; [eauto|done].
Qed.

Lemma same_but_next_None m m' x : same_but_next m m' → m !! x = None → m' !! x = None.
Proof.
  intros H Hx. apply (same_but_next_lookup _ _ x) in H. rewrite Hx in H.
  by destruct (m' !! x).
Qed.

Lemma same_but_next_blocked m m' s s' xs :
  same_but_next m m' → blocked s = blocked s' → blocked_rep m s xs →
  blocked_rep m' s' xs.
Proof.
  intros H Hs [Hc Ha]. rewrite Hs in Hc. split; [|by eapply same_but_next_allocated].
  eapply lseg_ext; [|done]. intros x _. unfold next_blocked_of.
  apply (same_but_next_lookup _ _ x) in H.
  destruct (m !! x), (m' !! x); simpl in *; unfold set_c_next in H; congruence.
Qed.

Lemma ready_rep_head m s xs :
  ready_rep m s xs → ready_head s = head xs.
Proof. intros (H & _). destruct xs; simpl in H; [done|by destruct H]. Qed.

(** Relinking one context that is not in the list keeps the list. *)
Lemma chain_insert_next m c k p xs :
  c ∉ xs → chain (next_of m) p xs → chain (next_of (<[c:=k]> m)) p xs.
Proof.
  intros Hc. apply lseg_ext. intros x Hx. unfold next_of.
  by rewrite lookup_insert_ne by set_solver.
Qed.
End reps.

(** * The operations on represented lists *)

Section specs.
Context {T : Type}.
Implicit Types (w : world T).

(** The store after an operation on the ready list of thread [t]. *)
Definition ready_upd w t (m' : ctx_map) (s' : thread_private) : world T :=
  set_w_thr (<[t:=s']> (w_thr w)) (set_w_ctx m' w).

(** [op] turns the ready list [xs] of [t] into [ys], touches nothing else and
    returns [r]. *)
Definition ready_effect {A} (w : world T) t (s : thread_private) ys (r : A) :
    outcome exn A → world T → Prop :=
  returns (λ a w', a = r ∧ ∃ m' s', w' = ready_upd w t m' s' ∧
    ready_rep m' s' ys ∧ same_but_next (w_ctx w) m' ∧ same_but_ready s s').

Lemma ready_push_front_spec w t s xs c :
  w_thr w !! t = Some s → ready_rep (w_ctx w) s xs →
  c ∉ xs → is_Some (w_ctx w !! c) →
  wp (ready_push_front t c) (ready_effect w t s (c :: xs) tt) w.
Proof.
  intros Hs (Hc & Ht & Ha) Hin [k Hk]. unfold ready_push_front. wp_steps.
  unfold when, ready_effect, ready_upd.
  assert (Hrep : ∀ tl, tl = last (c :: xs) →
    ready_rep (<[c:=set_c_next (ready_head s) k]> (w_ctx w))
      (set_ready_head (Some c) (set_ready_tail tl s)) (c :: xs)).
  { intros tl ->. split; [|split].
    - simpl. split; [done|]. unfold next_of at 2. rewrite lookup_insert_eq. simpl.
      by apply chain_insert_next.
    - done.
    - intros x [->|Hx]%elem_of_cons; rewrite lookup_insert; case_decide; eauto. }
  case_bool_decide as Htl; wp_steps.
  - split; [done|]. eexists _, (set_ready_head (Some c) (set_ready_tail (Some c) s)).
    split; [unfold set_w_thr, set_w_ctx; simpl; by rewrite insert_insert_eq|].
    split; [apply Hrep; rewrite Ht in Htl; by destruct xs as [|x xs _] using rev_ind;
      [|rewrite last_snoc in Htl]|].
    split; [by apply same_but_next_insert|done].
  - split; [done|]. eexists _, (set_ready_head (Some c) s). split; [done|].
    split; [|split; [by apply same_but_next_insert|done]].
    replace (set_ready_head (Some c) s)
      with (set_ready_head (Some c) (set_ready_tail (ready_tail s) s)) by by destruct s.
    apply Hrep. rewrite Ht in *. by destruct xs.
Qed.

Lemma ready_push_back_spec w t s xs c :
  w_thr w !! t = Some s → ready_rep (w_ctx w) s xs →
  c ∉ xs → is_Some (w_ctx w !! c) →
  wp (ready_push_back t c) (ready_effect w t s (xs ++ [c]) tt) w.
Proof.
  intros Hs (Hc & Ht & Ha) Hin [k Hk]. unfold ready_push_back. wp_steps.
  unfold ready_effect, ready_upd.
  destruct xs as [|y ys _] using rev_ind.
  - rewrite Ht. wp_steps. split; [done|]. eexists _, (set_ready_tail (Some c) (set_ready_head (Some c) s)).
    split; [unfold set_w_thr, set_w_ctx; simpl; by rewrite insert_insert_eq|].
    split; [|split; [by apply same_but_next_insert|done]].
    split; [|split; [done|]].
    + simpl. split; [done|]. unfold next_of. by rewrite lookup_insert_eq.
    + intros x ->%list_elem_of_singleton. rewrite lookup_insert_eq. eauto.
  - rewrite last_snoc in Ht. rewrite Ht. wp_steps.
    assert (Hyc : c ≠ y) by set_solver.
    destruct (Ha y ltac:(set_solver)) as [ky Hy]. wp_steps. split; [done|]. eexists _, (set_ready_tail (Some c) s). split; [done|].
    set (m' := <[y:=_]> (<[c:=_]> (w_ctx w))).
    assert (Hnext : same_but_next (w_ctx w) m').
    { transitivity (<[c:=set_c_next None k]> (w_ctx w)); [by apply same_but_next_insert|].
      apply same_but_next_insert. by rewrite lookup_insert_ne. }
    split; [|split; [done|done]].
    pose proof (chain_NoDup _ _ _ Hc) as Hnd. apply lseg_snoc in Hc as [Hc _].
    apply NoDup_app in Hnd as (_ & Hny & _).
    split; [|split].
    + rewrite lseg_snoc. unfold next_of at 2, m'. rewrite lookup_insert_ne by done.
      rewrite lookup_insert_eq. split; [|done]. rewrite lseg_snoc.
      unfold next_of at 2. rewrite lookup_insert_eq. split; [|done].
      eapply lseg_ext; [|done]. intros x Hx. unfold next_of.
      rewrite !lookup_insert_ne; [done|set_solver|].
      intros ->. by apply (Hny x Hx), list_elem_of_singleton.
    + simpl. by rewrite last_snoc.
    + intros x [Hx|Hx]%elem_of_app.
      * by apply (same_but_next_allocated _ _ _ Hnext Ha).
      * subst m'. apply list_elem_of_singleton in Hx as ->.
        rewrite lookup_insert_ne by done. rewrite lookup_insert_eq. eauto.
Qed.

Lemma ready_pop_front_spec w t s xs :
  w_thr w !! t = Some s → ready_rep (w_ctx w) s xs →
  wp (ready_pop_front t) (ready_effect w t s (tail xs) (head xs)) w.
Proof.
  intros Hs (Hc & Ht & Ha). unfold ready_pop_front. wp_steps.
  unfold ready_effect, ready_upd. destruct xs as [|x xs].
  - simpl in *. rewrite Hc. wp_steps. split; [done|]. exists (w_ctx w), s.
    split; [rewrite insert_id by done; by destruct w|]. done.
  - destruct Hc as [-> Hc]. destruct (Ha x ltac:(set_solver)) as [k Hk].
    wp_steps.
    pose proof (chain_NoDup (next_of (w_ctx w)) (Some x) (x :: xs) (conj eq_refl Hc)) as Hnd.
    apply NoDup_cons in Hnd as [Hx Hnd].
    assert (Hnx : next_of (w_ctx w) x = c_next k) by (unfold next_of; by rewrite Hk).
    rewrite Hnx in Hc.
    assert (Hrep : ∀ tl, tl = last xs → ready_rep (<[x:=set_c_next None k]> (w_ctx w))
      (set_ready_head (c_next k) (set_ready_tail tl s)) xs).
    { intros tl ->. split; [by apply chain_insert_next|split; [done|]].
      intros y Hy. rewrite lookup_insert_ne by set_solver. apply Ha. set_solver. }
    unfold when. case_bool_decide as Hn; wp_steps; (split; [done|]).
    + assert (xs = []) as -> by (destruct xs; [done|simpl in Hc; naive_solver]).
      eexists _, (set_ready_head (c_next k) (set_ready_tail None s)).
      split; [unfold set_w_thr, set_w_ctx; simpl; by rewrite insert_insert_eq|].
      split; [by apply Hrep|]. split; [by apply same_but_next_insert|done].
    + eexists _, (set_ready_head (c_next k) s). split; [done|].
      split; [|split; [by apply same_but_next_insert|done]].
      replace (set_ready_head (c_next k) s)
        with (set_ready_head (c_next k) (set_ready_tail (ready_tail s) s)) by by destruct s.
      apply Hrep. rewrite Ht. destruct xs as [|y ys]; [simpl in Hc; congruence|done].
Qed.
End specs.
