(* ===== verification/TaskQueue.v ===== *)
(** The task queues of a [thread_private] (thread.cpp): posting a task
    ([thread::async]), moving posted tasks into the two priority queues
    ([enqueue]) and choosing the next one to run ([dequeue]), on top of the
    standard heap algorithms. Shown: no task is lost or duplicated, ready tasks
    come out by priority and then in posting order, and what the order of the
    scheduled queue really is. *)
From Stdlib Require Import Sorted.
From S2P Require Import Prelude StdHeap World.

(** * Comparators *)

Abbreviation task_map := (gmap nat task).

Definition prio_of (m : task_map) (a : nat) : Z := default 0%Z (t_prio <$> m !! a).
Definition posted_of (m : task_map) (a : nat) : Z := default 0%Z (t_posted_num <$> m !! a).
Definition when_of (m : task_map) (a : nat) : Z := default 0%Z (t_when <$> m !! a).
Definition t_next_of (m : task_map) (a : nat) : ptr := m !! a ≫= t_next.

Definition task_priority_less (m : task_map) (a b : nat) : bool :=
  if decide (prio_of m a < prio_of m b)%Z then true
  else if decide (prio_of m a > prio_of m b)%Z then false
  else bool_decide (posted_of m a > posted_of m b)%Z.

Definition task_when_less (m : task_map) (a b : nat) : bool :=
  bool_decide (when_of m a < when_of m b)%Z.

#[export] Instance task_priority_less_sw m : StrictWeak (task_priority_less m).
Proof.
  unfold task_priority_less.
  split; intros *; repeat case_decide; repeat case_bool_decide; try done; lia.
Qed.

#[export] Instance task_when_less_sw m : StrictWeak (task_when_less m).
Proof. unfold task_when_less. split; intros *; repeat case_bool_decide; try done; lia. Qed.

(** [uint64_t( ++global_task_count )] *)
Definition to_uint64 (z : Z) : Z := (z mod 2 ^ 64)%Z.

Section ops.
Context {T : Type} `{!Clock} `{!HeapAlgo nat}.
Abbreviation C := (M (world T) exn).

(** [task::task( p, w )] with the members of the derived class. *)
Definition new_task (p w : Z) (f : functor) (prom : ptr) : C nat :=
  n ← gets w_task_count;
  if in_int64 (n + 1) then
    modify (set_w_task_count (n + 1)%Z);;
    a ← fresh;
    modify (λ wd, set_w_task
      (<[a := Task w false (to_uint64 (n + 1)) p None None f prom 1]> (w_task wd)) wd);;
    mret a
  else undef SignedOverflow.

(** [thread::async( const task::ptr& )], with the compare-exchange loop taken
    as one atomic push; [PostQueue.v] has the loop itself. *)
Definition async_task (this t : nat) : C unit :=
  s ← get_thr this;
  mod_task t (set_t_next (task_in_queue s));;
  mod_thr this (set_task_in_queue (Some t));;
  cur ← self;
  when (negb (bool_decide (this = cur)))
    (mod_thr this (λ s, set_task_ready (S (task_ready s)) s)).

(** The loop of [thread_private::enqueue]. *)
Fixpoint enqueue_loop (fuel this : nat) (n : Z) (cur : ptr) : C unit :=
  match cur, fuel with
  | None, _ => mret tt
  | Some _, 0 => undef Diverges
  | Some c, S fuel =>
    k ← get_task c;
    m ← gets w_task;
    (if bool_decide (t_when k > n)%Z then
      mod_thr this (λ s, set_task_sch_queue
        (push_heap (task_when_less m) (task_sch_queue s ++ [c])) s)
    else
      mod_thr this (λ s, set_task_pqueue
        (push_heap (task_priority_less m) (task_pqueue s ++ [c])) s));;
    enqueue_loop fuel this n (t_next k)
  end.

(** The list is walked at most once through every task there is, and may end in
    one that is gone. *)
Definition enqueue (this : nat) (t : ptr) : C unit :=
  n ← now;
  m ← gets w_task;
  enqueue_loop (S (size m)) this n t.

(** The last part of [dequeue]: the front of [task_pqueue], if any. *)
Definition dequeue_ready (this : nat) : C ptr :=
  s ← get_thr this;
  m ← gets w_task;
  match task_pqueue s with
  | p :: _ =>
    mod_thr this (set_task_pqueue
      (pop_back (pop_heap (task_priority_less m) (task_pqueue s))));;
    mret (Some p)
  | [] => mret None
  end.

(** The choice [dequeue] makes once the posted tasks are enqueued. *)
Definition dequeue_next (this : nat) : C ptr :=
  s ← get_thr this;
  m ← gets w_task;
  match task_sch_queue s with
  | p :: _ =>
    k ← get_task p;
    n ← now;
    if bool_decide (t_when k ≤ n)%Z then
      mod_thr this (set_task_sch_queue
        (pop_back (pop_heap (task_when_less m) (task_sch_queue s))));;
      mret (Some p)
    else dequeue_ready this
  | [] => dequeue_ready this
  end.

Definition dequeue (this : nat) : C ptr :=
  s0 ← get_thr this;
  mod_thr this (set_task_in_queue None);;
  when (bool_decide (task_in_queue s0 ≠ None)) (enqueue this (task_in_queue s0));;
  dequeue_next this.

(** The tasks [process_tasks] runs in its inner loop while nothing is posted. *)
Fixpoint drain (fuel this : nat) : C (list nat) :=
  match fuel with
  | 0 => undef Diverges
  | S fuel =>
    p ← dequeue this;
    match p with
    | None => mret []
    | Some t => ts ← drain fuel this; mret (t :: ts)
    end
  end.

(** Posting a task touches the thread it is posted to only. *)
Lemma keeps_new_task this p wh f pr : keeps (others this) (new_task p wh f pr).
Proof. unfold new_task. solve_keeps. Qed.
Lemma keeps_async_task this t : keeps (others this) (async_task this t).
Proof. unfold async_task. solve_keeps. Qed.
End ops.

#[export] Hint Resolve keeps_new_task keeps_async_task : keeps.

(** * What the queues represent *)

(** The posted tasks [xs] (last posted first), and the two priority queues. *)
Record queue_rep (m : task_map) (s : thread_private) (xs : list nat) : Prop := {
  qr_chain : chain (t_next_of m) (task_in_queue s) xs;
  qr_alloc : ∀ x, x ∈ xs ++ task_pqueue s ++ task_sch_queue s → is_Some (m !! x);
  qr_prio : is_heap (task_priority_less m) (task_pqueue s);
  qr_when : is_heap (task_when_less m) (task_sch_queue s);
}.

(** Every task the thread holds. *)
Definition held (s : thread_private) (xs : list nat) : list nat :=
  xs ++ task_pqueue s ++ task_sch_queue s.

(** Only the queues of the thread (and the clock) change. *)
Definition queue_upd {T} (w : world T) this (n : nat) (s : thread_private)
    (inq : ptr) (pq sch : list nat) : world T :=
  set_w_ticks n (set_w_thr (<[this :=
    set_task_in_queue inq (set_task_pqueue pq (set_task_sch_queue sch s))]> (w_thr w)) w).

Section specs.
Context {T : Type} `{!Clock} `{HeapSpec nat}.
Implicit Types (w : world T).

Definition due (m : task_map) (n : Z) (x : nat) : Prop := (when_of m x ≤ n)%Z.
#[local] Instance due_dec m n x : Decision (due m n x) := decide (_ ≤ _)%Z.

(** What [enqueue] at time [n] makes of the posted list [xs]. *)
Definition enqueued (m : task_map) (n : Z) (xs pq sch pq' sch' : list nat) : Prop :=
  pq' ≡ₚ pq ++ filter (due m n) xs ∧
  sch' ≡ₚ sch ++ filter (λ x, ¬ due m n x) xs ∧
  is_heap (task_priority_less m) pq' ∧ is_heap (task_when_less m) sch'.

Lemma queue_upd_id w this s :
  w_thr w !! this = Some s →
  queue_upd w this (w_ticks w) s (task_in_queue s) (task_pqueue s) (task_sch_queue s) = w.
Proof.
  intros Hs. unfold queue_upd. replace (set_task_in_queue _ _) with s by by destruct s.
  rewrite insert_id by done. by destruct w.
Qed.

Lemma queue_upd_twice w this n n' s inq pq sch inq' pq' sch' :
  queue_upd (queue_upd w this n s inq pq sch) this n'
    (set_task_in_queue inq (set_task_pqueue pq (set_task_sch_queue sch s))) inq' pq' sch'
  = queue_upd w this n' s inq' pq' sch'.
Proof. unfold queue_upd, set_w_ticks, set_w_thr. simpl. by rewrite insert_insert_eq. Qed.

Lemma enqueue_loop_spec fuel w this n cur xs s :
  w_thr w !! this = Some s → chain (t_next_of (w_task w)) cur xs →
  length xs ≤ fuel → (∀ x, x ∈ xs → is_Some (w_task w !! x)) →
  is_heap (task_priority_less (w_task w)) (task_pqueue s) →
  is_heap (task_when_less (w_task w)) (task_sch_queue s) →
  wp (enqueue_loop fuel this n cur) (returns (λ _ w', ∃ pq' sch',
    w' = queue_upd w this (w_ticks w) s (task_in_queue s) pq' sch' ∧
    enqueued (w_task w) n xs (task_pqueue s) (task_sch_queue s) pq' sch')) w.
Proof.
  revert fuel w cur s. induction xs as [|x xs IH]; intros fuel w cur s Hs Hc Hf Ha Hp Hw.
  { simpl in Hc. subst. replace (enqueue_loop fuel this n None) with (mret () : M (world T) exn unit)
      by by destruct fuel.
    exists (task_pqueue s), (task_sch_queue s). simpl.
    rewrite queue_upd_id by done. split; [done|]. split_and!; rewrite ?app_nil_r; done. }
  destruct Hc as [-> Hc]. destruct fuel as [|fuel]; simpl in Hf; [lia|]. simpl.
  destruct (Ha x ltac:(set_solver)) as [k Hk].
  assert (Hwx : when_of (w_task w) x = t_when k) by (unfold when_of; by rewrite Hk).
  unfold t_next_of at 2 in Hc. rewrite Hk in Hc. simpl in Hc.
  wp_steps. case_bool_decide as Hn; wp_steps.
  - set (sch1 := push_heap _ _). eapply wp_mono, (IH _ _ _ (set_task_sch_queue sch1 s));
      [|by simpl; rewrite lookup_insert_eq|done|lia|set_solver|done|by apply push_heap_heap; [apply _|]].
    intros [[]|?|?] w'; try done. intros (pq' & sch' & -> & Hpq & Hsch & Hh).
    exists pq', sch'. split; [unfold queue_upd, set_w_ticks, set_w_thr; simpl;
      by rewrite insert_insert_eq|].
    simpl in *. split; [|split; [|done]].
    + by rewrite Hpq, filter_cons_False by (unfold due; lia).
    + rewrite Hsch, filter_cons_True by (unfold due; lia). subst sch1.
      rewrite heap_push_perm by apply _. by rewrite <-Permutation_middle.
  - set (pq1 := push_heap _ _). eapply wp_mono, (IH _ _ _ (set_task_pqueue pq1 s));
      [|by simpl; rewrite lookup_insert_eq|done|lia|set_solver|by apply push_heap_heap; [apply _|]|done].
    intros [[]|?|?] w'; try done. intros (pq' & sch' & -> & Hpq & Hsch & Hh).
    exists pq', sch'. split; [unfold queue_upd, set_w_ticks, set_w_thr; simpl;
      by rewrite insert_insert_eq|].
    simpl in *. split; [|split; [|done]].
    + rewrite Hpq, filter_cons_True by (unfold due; lia). subst pq1.
      rewrite heap_push_perm by apply _. by rewrite <-Permutation_middle.
    + by rewrite Hsch, filter_cons_False by (unfold due; lia).
Qed.
Lemma enqueue_spec w this cur xs s :
  w_thr w !! this = Some s → chain (t_next_of (w_task w)) cur xs →
  (∀ x, x ∈ xs → is_Some (w_task w !! x)) →
  is_heap (task_priority_less (w_task w)) (task_pqueue s) →
  is_heap (task_when_less (w_task w)) (task_sch_queue s) →
  wp (enqueue this cur) (returns (λ _ w', ∃ pq' sch',
    w' = queue_upd w this (S (w_ticks w)) s (task_in_queue s) pq' sch' ∧
    enqueued (w_task w) (now_at (w_ticks w)) xs
      (task_pqueue s) (task_sch_queue s) pq' sch')) w.
Proof.
  intros Hs Hc Ha Hp Hw. unfold enqueue. rewrite wp_bind, wp_now, wp_bind, wp_gets.
  eapply wp_mono, (enqueue_loop_spec _ (set_w_ticks (S (w_ticks w)) w)); try done;
    [|apply le_S, NoDup_keys_size; [by eapply chain_NoDup|done]].
  done.
Qed.

(** The abstract choice, at time [n], from ready tasks [pq] and scheduled
    tasks [sch]: the latest of the scheduled tasks once even that one is due,
    otherwise a first one of the ready tasks. *)
Definition dequeued (m : task_map) (n : Z) (p : ptr) (pq sch pq' sch' : list nat) : Prop :=
  let latest_not_due := sch = [] ∨ ∃ y, y ∈ sch ∧ ¬ due m n y in
  match p with
  | Some x =>
    (sch ≡ₚ x :: sch' ∧ pq' = pq ∧ due m n x ∧
     ∀ y, y ∈ sch' → (when_of m y ≤ when_of m x)%Z) ∨
    (pq ≡ₚ x :: pq' ∧ sch' = sch ∧ latest_not_due ∧
     ∀ y, y ∈ pq' → task_priority_less m x y = false)
  | None => pq = [] ∧ pq' = [] ∧ sch' = sch ∧ latest_not_due
  end.

Lemma dequeue_ready_spec w this s inq sch :
  w_thr w !! this = Some s → inq = task_in_queue s → sch = task_sch_queue s →
  is_heap (task_priority_less (w_task w)) (task_pqueue s) →
  wp (dequeue_ready this) (returns (λ p w', ∃ pq',
    w' = queue_upd w this (w_ticks w) s inq pq' sch ∧
    task_pqueue s ≡ₚ option_list p ++ pq' ∧
    is_heap (task_priority_less (w_task w)) pq' ∧
    match p with
    | Some x => ∀ y, y ∈ pq' → task_priority_less (w_task w) x y = false
    | None => pq' = []
    end)) w.
Proof.
  intros Hs -> -> Hh. unfold dequeue_ready. wp_steps.
  destruct (task_pqueue s) as [|x pq] eqn:Hpq; wp_steps.
  - exists []. rewrite <-Hpq at 1. by rewrite queue_upd_id.
  - destruct (heap_pop_spec (task_priority_less (w_task w)) (x :: pq) x)
      as (Hh' & Hperm & Hmax); [done|done|].
    eexists. split; [|split_and!; [exact Hperm|exact Hh'|]].
    + by destruct w, s.
    + intros y Hy. apply Hmax. rewrite Hperm. set_solver.
Qed.

Lemma dequeue_next_spec w this s :
  w_thr w !! this = Some s → queue_rep (w_task w) s [] →
  wp (dequeue_next this) (returns (λ p w', ∃ n' pq' sch',
    w' = queue_upd w this n' s None pq' sch' ∧ w_ticks w ≤ n' ∧
    is_heap (task_priority_less (w_task w)) pq' ∧
    is_heap (task_when_less (w_task w)) sch' ∧
    dequeued (w_task w) (now_at (w_ticks w)) p
      (task_pqueue s) (task_sch_queue s) pq' sch')) w.
Proof.
  intros Hs [Hc Ha Hp Hw]. simpl in Hc. unfold dequeue_next. wp_steps.
  destruct (task_sch_queue s) as [|x sch] eqn:Hsch.
  - eapply wp_mono, dequeue_ready_spec; [|done..].
    intros [p|?|?] w'; try done. intros (pq' & -> & Hperm & Hh & Hmax). simpl.
    exists (w_ticks w), pq', []. rewrite ?Hc, ?Hsch. split_and!; [done|done|done|done|].
    destruct p; simpl in *; [|by subst; apply Permutation_nil_r in Hperm; eauto].
    right. split_and!; eauto.
  - destruct (Ha x) as [k Hk]; [simpl; set_solver|]. wp_steps.
    assert (Hwx : when_of (w_task w) x = t_when k) by (unfold when_of; by rewrite Hk).
    destruct (heap_pop_spec (task_when_less (w_task w)) (x :: sch) x)
      as (Hh' & Hperm & Hmax); [done|done|].
    case_bool_decide as Hdue.
    + wp_steps. eexists (S (w_ticks w)), (task_pqueue s), _.
      split_and!; [|lia|exact Hp|exact Hh'|].
      * unfold queue_upd, set_w_thr, set_w_ticks. simpl. rewrite <-Hc. by destruct s.
      * left. split_and!; [exact Hperm|done|unfold due; lia|]. intros y Hy.
        assert (Hlt : task_when_less (w_task w) x y = false).
        { apply Hmax. rewrite Hperm. set_solver. }
        unfold task_when_less in Hlt. case_bool_decide; [done|lia].
    + eapply wp_mono, dequeue_ready_spec; [|by simpl|done|done|done].
      intros [p|?|?] w'; try done. intros (pq' & -> & Hperm' & Hh & Hm). simpl in *.
      exists (S (w_ticks w)), pq', (x :: sch). rewrite ?Hc, ?Hsch.
      split_and!; [done|lia|done|done|].
      assert (∃ y, y ∈ x :: sch ∧ ¬ due (w_task w) (now_at (w_ticks w)) y)
        by (exists x; unfold due; split; [set_solver|lia]).
      destruct p; simpl in *; [|by subst; apply Permutation_nil_r in Hperm'; eauto].
      right. split_and!; eauto.
Qed.

(** The whole of [dequeue]: the posted tasks are sorted into the two queues
    and then a choice is made; the posted list is left empty. *)
Lemma dequeue_spec w this s xs :
  w_thr w !! this = Some s → queue_rep (w_task w) s xs →
  wp (dequeue this) (returns (λ p w', ∃ n1 n' pq1 sch1 pq' sch',
    w' = queue_upd w this n' s None pq' sch' ∧ w_ticks w ≤ n1 ≤ n' ∧ n1 ≤ S (w_ticks w) ∧
    enqueued (w_task w) (now_at (w_ticks w)) xs
      (task_pqueue s) (task_sch_queue s) pq1 sch1 ∧
    dequeued (w_task w) (now_at n1) p pq1 sch1 pq' sch' ∧
    is_heap (task_priority_less (w_task w)) pq' ∧
    is_heap (task_when_less (w_task w)) sch')) w.
Proof.
  intros Hs [Hc Ha Hp Hw]. unfold dequeue. wp_steps. unfold when.
  set (s1 := set_task_in_queue None s).
  case_bool_decide as Hnone.
  - eapply wp_mono, (enqueue_spec (set_w_thr (<[this:=s1]> (w_thr w)) w) _ _ xs s1);
      [|by simpl; rewrite lookup_insert_eq|done|set_solver|done|done].
    intros [[]|?|?] w'; try done. intros (pq1 & sch1 & -> & Henq).
    set (s2 := set_task_in_queue None (set_task_pqueue pq1 (set_task_sch_queue sch1 s))).
    destruct Henq as (Hpq & Hsch & Hh1 & Hh2).
    eapply wp_mono, (dequeue_next_spec _ _ s2); [|by simpl; rewrite lookup_insert_eq|].
    + intros [p|?|?] w'; try done. intros (n' & pq' & sch' & -> & Hn & ? & ? & Hd).
      exists (S (w_ticks w)), n', pq1, sch1, pq', sch'. simpl in *.
      split; [by unfold queue_upd, set_w_ticks, set_w_thr; simpl; rewrite !insert_insert_eq|].
      split; [lia|]. split; [lia|]. by split_and!.
    + split; simpl; [done| |done|done]. intros x Hx. apply Ha. revert Hx.
      rewrite Hpq, Hsch, !elem_of_app, !list_elem_of_filter. naive_solver.
  - rewrite Hnone in Hc.
    assert (xs = []) as -> by (destruct xs; [done|by destruct Hc]).
    rewrite wp_ret. eapply wp_mono, (dequeue_next_spec _ _ s1);
      [|by simpl; rewrite lookup_insert_eq|by split].
    intros [p|?|?] w'; try done. intros (n' & pq' & sch' & -> & Hn & ? & ? & Hd).
    exists (w_ticks w), n', (task_pqueue s), (task_sch_queue s), pq', sch'. simpl in *.
    split; [by unfold queue_upd, set_w_ticks, set_w_thr; simpl; rewrite insert_insert_eq|].
    split; [lia|]. split; [lia|]. split; [|by split_and!]. split_and!; rewrite ?app_nil_r; done.
Qed.

Lemma dequeued_perm m n p pq sch pq' sch' :
  dequeued m n p pq sch pq' sch' → option_list p ++ pq' ++ sch' ≡ₚ pq ++ sch.
Proof.
  destruct p as [x|]; simpl.
  - intros [(Hp & -> & _)|(Hp & -> & _)]; rewrite Hp; simpl; [|done].
    by rewrite Permutation_middle.
  - by intros (-> & -> & -> & _).
Qed.

Lemma enqueued_perm m n xs pq sch pq' sch' :
  enqueued m n xs pq sch pq' sch' → pq' ++ sch' ≡ₚ xs ++ pq ++ sch.
Proof.
  intros (Hp & Hs & _). rewrite Hp, Hs. rewrite <-(filter_app_complement (due m n) xs) at 3.
  set (F := filter (due m n) xs). set (G := filter _ xs).
  rewrite (Permutation_app_comm pq F), (Permutation_app_comm sch G), <-!app_assoc.
  f_equiv. by rewrite !app_assoc, (Permutation_app_comm pq G).
Qed.

(** The comparators do not see the [next] link of a task. *)
Lemma task_field_set_next {B} (f : task → B) (m : task_map) (t : nat) k v (x : nat) :
  (∀ k v, f (set_t_next v k) = f k) → m !! t = Some k →
  f <$> <[t:=set_t_next v k]> m !! x = f <$> m !! x.
Proof.
  intros Hf Ht. rewrite lookup_insert. case_decide; subst; [|done].
  rewrite Ht. simpl. by rewrite Hf.
Qed.

Lemma prio_less_set_next m t k v a b :
  m !! t = Some k →
  task_priority_less (<[t:=set_t_next v k]> m) a b = task_priority_less m a b.
Proof.
  intros Ht. unfold task_priority_less, prio_of, posted_of.
  by rewrite !task_field_set_next.
Qed.

Lemma when_less_set_next m t k v a b :
  m !! t = Some k →
  task_when_less (<[t:=set_t_next v k]> m) a b = task_when_less m a b.
Proof. intros Ht. unfold task_when_less, when_of. by rewrite !task_field_set_next. Qed.

Lemma queue_rep_push m s t k xs :
  m !! t = Some k → t ∉ xs → queue_rep m s xs →
  queue_rep (<[t:=set_t_next (task_in_queue s) k]> m)
    (set_task_in_queue (Some t) s) (t :: xs).
Proof.
  intros Ht Hin [Hc Ha Hp Hw]. split; simpl.
  - split; [done|]. unfold t_next_of at 2. rewrite lookup_insert_eq. simpl.
    eapply lseg_ext; [|done]. intros x Hx. unfold t_next_of.
    by rewrite lookup_insert_ne by set_solver.
  - intros x Hx. rewrite lookup_insert. case_decide; [eauto|].
    apply elem_of_cons in Hx as [->|Hx]; [done|by apply Ha].
  - eapply is_heap_ext; [|done]. intros. by rewrite prio_less_set_next.
  - eapply is_heap_ext; [|done]. intros. by rewrite when_less_set_next.
Qed.

(** A new task does not disturb the ones a thread holds. *)
Lemma queue_rep_fresh m s xs a k :
  a ∉ held s xs → queue_rep m s xs → queue_rep (<[a:=k]> m) s xs.
Proof.
  unfold held. intros Hin [Hc Ha Hp Hw].
  assert (Hlk : ∀ x, x ∈ xs ++ task_pqueue s ++ task_sch_queue s →
    <[a:=k]> m !! x = m !! x) by (intros x Hx; rewrite lookup_insert_ne; [done|set_solver]).
  split.
  - eapply lseg_ext; [|done]. intros x Hx. unfold t_next_of. rewrite Hlk; [done|set_solver].
  - intros x Hx. rewrite Hlk by done. by apply Ha.
  - eapply is_heap_ext; [|done]. intros x y Hx Hy.
    unfold task_priority_less, prio_of, posted_of. rewrite !Hlk; [done|set_solver..].
  - eapply is_heap_ext; [|done]. intros x y Hx Hy.
    unfold task_when_less, when_of. rewrite !Hlk; [done|set_solver..].
Qed.

(** ** Properties *)

(** Posting a task puts exactly that task on top of the thread's posted
    list, keeps every queue well formed, and wakes the thread up exactly when
    it is posted from another thread. *)
Theorem async_task_posts w this t k s xs :
  w_thr w !! this = Some s → queue_rep (w_task w) s xs →
  w_task w !! t = Some k → t ∉ held s xs →
  wp (async_task this t) (returns (λ _ w', ∃ s',
    w_thr w' = <[this:=s']> (w_thr w) ∧ queue_rep (w_task w') s' (t :: xs) ∧
    held s' (t :: xs) = t :: held s xs ∧
    task_ready s' = (if decide (w_self w = this) then 0 else 1) + task_ready s)) w.
Proof.
  intros Hs Hr Ht Hin. unfold async_task. wp_steps. unfold when.
  assert (Hxs : t ∉ xs) by (unfold held in Hin; set_solver).
  pose proof (queue_rep_push _ _ _ _ _ Ht Hxs Hr) as Hr'.
  case_bool_decide as Hself; simpl; wp_steps.
  - exists (set_task_in_queue (Some t) s). rewrite decide_True by done. by split_and!.
  - exists (set_task_ready (S (task_ready s)) (set_task_in_queue (Some t) s)).
    rewrite decide_False by done. split_and!; [|destruct Hr'; by split|done|done].
    simpl. by rewrite insert_insert_eq.
Qed.

(** C12: a call of [dequeue] neither loses nor duplicates a task: what it
    returns together with what the thread still holds is what it held, nothing
    is left in the posted list, and the queues stay well formed. *)
Theorem dequeue_conserves_tasks w this s xs :
  w_thr w !! this = Some s → queue_rep (w_task w) s xs →
  wp (dequeue this) (returns (λ p w', ∃ s',
    w_thr w' = <[this:=s']> (w_thr w) ∧ w_task w' = w_task w ∧
    queue_rep (w_task w') s' [] ∧ option_list p ++ held s' [] ≡ₚ held s xs)) w.
Proof.
  intros Hs Hr. eapply wp_mono, dequeue_spec; [|done..].
  intros [p|?|?] w'; try done. simpl.
  intros (n1 & n' & pq1 & sch1 & pq' & sch' & -> & _ & _ & Henq & Hdeq & Hh1 & Hh2).
  eexists. split; [done|]. split; [done|].
  apply enqueued_perm in Henq. apply dequeued_perm in Hdeq. rewrite Henq in Hdeq.
  split; [|done]. destruct Hr as [_ Ha _ _]. split; [done| |done|done].
  intros x Hx. apply Ha. rewrite <-Hdeq. apply elem_of_app. by right.
Qed.

(** [a] is to run before [b]: higher priority, or the same and posted earlier. *)
Definition runs_before (m : task_map) (a b : nat) : Prop :=
  (prio_of m b < prio_of m a)%Z ∨
  (prio_of m a = prio_of m b ∧ (posted_of m a ≤ posted_of m b)%Z).

Lemma not_less_runs_before m a b :
  task_priority_less m a b = false → runs_before m a b.
Proof.
  unfold task_priority_less, runs_before.
  repeat case_decide; try case_bool_decide; try done; lia.
Qed.

Lemma drain_sorted fuel w this s xs :
  MonoClock → length (held s xs) < fuel →
  w_thr w !! this = Some s → queue_rep (w_task w) s xs → task_sch_queue s = [] →
  (∀ x, x ∈ held s xs → due (w_task w) (now_at (w_ticks w)) x) →
  wp (drain fuel this) (returns (λ ts w',
    ts ≡ₚ held s xs ∧ StronglySorted (runs_before (w_task w)) ts)) w.
Proof.
  intros Hmono. revert w s xs.
  induction fuel as [|fuel IH]; intros w s xs Hlen Hs Hr Hsch Hdue; [lia|].
  simpl. rewrite wp_bind. eapply wp_mono, dequeue_spec; [|done..].
  intros [p|?|?] w'; try done. simpl.
  intros (n1 & n' & pq1 & sch1 & pq' & sch' & -> & Hn & _ & Henq & Hdeq & Hh1 & Hh2).
  pose proof (enqueued_perm _ _ _ _ _ _ _ Henq) as Hperm.
  destruct Henq as (_ & Hs1 & _). rewrite Hsch in Hs1. simpl in Hs1.
  assert (sch1 = []) as ->.
  { apply elem_of_nil_inv. intros x. rewrite Hs1, list_elem_of_filter.
    intros [Hnd Hx]. apply Hnd, Hdue. apply elem_of_app. by left. }
  rewrite app_nil_r in Hperm. change (xs ++ _ ++ _) with (held s xs) in Hperm.
  destruct p as [x|]; simpl in Hdeq.
  2:{ rewrite wp_ret. destruct Hdeq as (-> & _). simpl. split; [done|constructor]. }
  destruct Hdeq as [(Hbad & _)|(Hpq & -> & _ & Hmax)].
  { by apply Permutation_nil_cons in Hbad. }
  set (s' := set_task_in_queue None (set_task_pqueue pq' (set_task_sch_queue [] s))).
  assert (Hheld : held s' [] = pq') by (unfold held; simpl; by rewrite app_nil_r).
  rewrite Hpq in Hperm. destruct Hr as [_ Ha _ _].
  rewrite wp_bind. eapply wp_mono, (IH _ s' []).
  - intros [ts|?|?] w'; try done. simpl. rewrite Hheld. intros [Hts Hsorted].
    split; [by rewrite Hts, Hperm|]. constructor; [done|].
    apply Forall_forall. intros y Hy. apply not_less_runs_before, Hmax. by rewrite <-Hts.
  - rewrite Hheld. apply Permutation_length in Hperm. simpl in Hperm. lia.
  - simpl. by rewrite lookup_insert_eq.
  - split; simpl; [done| |done|done]. intros y Hy. apply Ha.
    change (y ∈ held s xs). rewrite <-Hperm. rewrite app_nil_r in Hy. by right.
  - done.
  - rewrite Hheld. intros y Hy. unfold due in *. simpl.
    etransitivity; [apply Hdue; rewrite <-Hperm; by right|]. apply clock_mono. lia.
Qed.

(** C8: with no scheduled task and nothing else posted meanwhile, the tasks of
    a thread are all run, each once, by decreasing priority and, among equal
    priorities, in the order they were posted. *)
Theorem tasks_run_by_priority_then_fifo w this s xs :
  MonoClock → w_thr w !! this = Some s → queue_rep (w_task w) s xs →
  task_sch_queue s = [] →
  (∀ x, x ∈ held s xs → due (w_task w) (now_at (w_ticks w)) x) →
  wp (drain (S (length (held s xs))) this) (returns (λ ts w',
    ts ≡ₚ held s xs ∧ StronglySorted (runs_before (w_task w)) ts)) w.
Proof. intros. eapply drain_sorted; try done. lia. Qed.

(** As long as one scheduled task is not due, [dequeue] hands out no
    scheduled task at all, however long the others are overdue: the front of
    the scheduled heap is the latest task, not the earliest. *)
Theorem dequeue_held_back_by_latest w this s xs y :
  w_thr w !! this = Some s → queue_rep (w_task w) s xs →
  y ∈ task_sch_queue s → (∀ i, i ≤ S (w_ticks w) → ¬ due (w_task w) (now_at i) y) →
  wp (dequeue this) (returns (λ p w', ∃ s', w_thr w' !! this = Some s' ∧
    (∀ x, x ∈ task_sch_queue s → x ∈ task_sch_queue s'))) w.
Proof.
  intros Hs Hr Hy Hnd. eapply wp_mono, dequeue_spec; [|done..].
  intros [p|?|?] w'; try done. simpl.
  intros (n1 & n' & pq1 & sch1 & pq' & sch' & -> & _ & Hn1 & (_ & Hsch & _) & Hdeq & _).
  eexists. simpl. rewrite lookup_insert_eq. split; [done|]. simpl. intros x Hx.
  assert (Hin : ∀ z, z ∈ task_sch_queue s → z ∈ sch1)
    by (intros z Hz; rewrite Hsch; apply elem_of_app; by left).
  destruct p as [q|]; simpl in Hdeq; [|by destruct Hdeq as (_ & _ & -> & _); apply Hin].
  destruct Hdeq as [(Hq & _ & Hdue & Hlast)|(_ & -> & _)]; [|by apply Hin].
  pose proof (Hin y Hy) as Hy1. rewrite Hq in Hy1.
  apply elem_of_cons in Hy1 as [->|Hy1]; [by destruct (Hnd n1 Hn1)|].
  destruct (Hnd n1 Hn1). unfold due in *. specialize (Hlast y Hy1). lia.
Qed.
End specs.
