(* ===== verification/Notify.v ===== *)
(** Completing a promise and waking the context that waits for it:
    [promise<T>::set_value], [set_exception], [set_timeout] and
    [promise_base::notify] (future.hpp, future.cpp), and [thread::notify]
    (thread.cpp), which searches the blocked list and the sleep queue of the
    waiting thread, or posts itself to that thread when called from another. *)
From S2P Require Import Prelude StdHeap World ReadyList TaskQueue.

Definition prom_of (m : ctx_map) (x : nat) : ptr := m !! x ≫= c_prom.
Definition resume_time_of (m : ctx_map) (x : nat) : Z :=
  default 0%Z (c_resume_time <$> m !! x).

(** [struct sleep_priority_less] *)
Definition sleep_priority_less (m : ctx_map) (a b : nat) : bool :=
  bool_decide (resume_time_of m a > resume_time_of m b)%Z.

#[export] Instance sleep_priority_less_sw m : StrictWeak (sleep_priority_less m).
Proof. unfold sleep_priority_less. split; intros *; repeat case_bool_decide; try done; lia. Qed.

(** [cmt_context::try_unblock] *)
Definition try_unblock (k : cmt_context) (p : nat) : bool := bool_decide (c_prom k = Some p).

(** [std::vector::back] of a vector that is not empty, into slot [i], then
    [pop_back]: the slot's element is gone. *)
Definition vector_remove (i : nat) (l : list nat) : list nat :=
  match last l with
  | Some b => pop_back (<[i := b]> l)
  | None => l
  end.

Section ops.
Context {T : Type} `{!Clock} `{!HeapAlgo nat}.
Abbreviation C := (M (world T) exn).

(** [promise<T>::ready] *)
Definition promise_ready (p : nat) : C bool :=
  k ← get_prom p;
  mret (bool_decide (is_Some (m_error k)) || bool_decide (m_value k ≠ None)).

(** [thread::async( const boost::function<void()>&, priority )] *)
Definition async_fn (this : nat) (f : functor) (prio : Z) : C unit :=
  t ← new_task prio time_point_min f None;
  async_task this t.

(** Taking the context [c] off the blocked list, [prev_blocked] before it. *)
Definition blocked_unlink (this : nat) (prev_blocked : ptr) (c : nat) : C unit :=
  k ← get_ctx c;
  match prev_blocked with
  | Some pb => mod_ctx pb (set_c_next_blocked (c_next_blocked k))
  | None => mod_thr this (set_blocked (c_next_blocked k))
  end;;
  mod_ctx c (set_c_next_blocked None).

(** The loop of [thread::notify] over the blocked contexts. *)
Fixpoint notify_loop (fuel this p : nat) (prev_blocked cur_blocked : ptr) : C unit :=
  match cur_blocked, fuel with
  | None, _ => mret tt
  | Some _, 0 => undef Diverges
  | Some c, S fuel =>
    k ← get_ctx c;
    if try_unblock k p then
      blocked_unlink this prev_blocked c;;
      ready_push_front this c;;
      k' ← get_ctx c;
      notify_loop fuel this p prev_blocked (c_next_blocked k')
    else notify_loop fuel this p (Some c) (c_next_blocked k)
  end.

(** The loop of [thread::notify] over the sleep queue, which stops at the
    first context that waits for [p]. *)
Definition notify_sleep (this p : nat) : C unit :=
  s ← get_thr this;
  m ← gets w_ctx;
  match list_find (λ c, prom_of m c = Some p) (sleep_pqueue s) with
  | None => mret tt
  | Some (i, c) =>
    mod_ctx c (set_c_prom None);;
    m' ← gets w_ctx;
    mod_thr this (set_sleep_pqueue
      (make_heap (sleep_priority_less m') (vector_remove i (sleep_pqueue s))))
  end.

(** [thread::notify] *)
Definition thread_notify (this p : nat) : C unit :=
  r ← promise_ready p;
  check r;;
  cur ← self;
  if bool_decide (cur ≠ this) then async_fn this (BindNotify this p) 0%Z
  else
    s ← get_thr this;
    m ← gets w_ctx;
    notify_loop (size m) this p None (blocked s);;
    notify_sleep this p.

(** [promise_base::notify] *)
Definition promise_notify (p : nat) : C unit :=
  r ← promise_ready p;
  check r;;
  k ← get_prom p;
  match m_blocked_thread k with
  | Some t => thread_notify t p
  | None => mret tt
  end.

(** [promise<T>::set_exception] *)
Definition set_exception (p : nat) (e : exn) : C unit :=
  mod_prom p (set_m_error (Some e));;
  promise_notify p.

(** [promise<T>::set_value] *)
Definition set_value (p : nat) (v : T) : C unit :=
  k ← get_prom p;
  match m_error k with
  | Some _ => mret tt
  | None =>
    mod_prom p (set_m_value (Some v));;
    promise_notify p
  end.

(** [promise<T>::set_timeout] *)
Definition set_timeout (p : nat) : C unit :=
  k ← get_prom p;
  match m_value k with
  | Some _ => mret tt
  | None =>
    mod_prom p (set_m_error (Some future_wait_timeout));;
    promise_notify p
  end.

(** A thread's [notify] touches that thread only, from wherever it is called. *)
Lemma keeps_async_fn this f prio : keeps (others this) (async_fn this f prio).
Proof. unfold async_fn. solve_keeps. Qed.
Lemma keeps_notify_loop fuel this p pb cb : keeps (others this) (notify_loop fuel this p pb cb).
Proof.
  revert pb cb. induction fuel as [|fuel IH]; intros pb cb; simpl; unfold blocked_unlink; solve_keeps.
Qed.
Lemma keeps_thread_notify this p : keeps (others this) (thread_notify this p).
Proof.
  pose proof keeps_notify_loop. unfold thread_notify, notify_sleep, promise_ready. solve_keeps.
Qed.
End ops.

#[export] Hint Resolve keeps_async_fn keeps_thread_notify : keeps.

(** * What the blocked loop does *)

(** Context data other than the two intrusive links. *)
Definition erase_links (k : cmt_context) : cmt_context :=
  set_c_next None (set_c_next_blocked None k).

Definition same_but_links (m m' : ctx_map) : Prop := erase_links <$> m = erase_links <$> m'.

#[export] Instance same_but_links_equiv : Equivalence same_but_links.
Proof. unfold same_but_links. split; [intros ?|intros ???|intros ?????]; congruence. Qed.

(** The thread's fields other than the ready and blocked pointers. *)
Definition same_but_lists (s s' : thread_private) : Prop :=
  set_blocked None (set_ready_head None (set_ready_tail None s)) =
  set_blocked None (set_ready_head None (set_ready_tail None s')).

#[export] Instance same_but_lists_equiv : Equivalence same_but_lists.
Proof. unfold same_but_lists. split; [intros ?|intros ???|intros ?????]; congruence. Qed.

(** ... and other than these and the sleep queue. *)
Definition same_but_sched (s s' : thread_private) : Prop :=
  set_sleep_pqueue [] (set_blocked None (set_ready_head None (set_ready_tail None s))) =
  set_sleep_pqueue [] (set_blocked None (set_ready_head None (set_ready_tail None s'))).

#[export] Instance same_but_sched_equiv : Equivalence same_but_sched.
Proof. unfold same_but_sched. split; [intros ?|intros ???|intros ?????]; congruence. Qed.

Lemma same_but_lists_sched s s' : same_but_lists s s' → same_but_sched s s'.
Proof. intros Hs. by apply (f_equal (set_sleep_pqueue [])) in Hs. Qed.

Section links.
Implicit Types m : ctx_map.

Lemma same_but_links_field {B} (f : cmt_context → B) m m' x :
  (∀ k, f (erase_links k) = f k) → same_but_links m m' → f <$> m !! x = f <$> m' !! x.
Proof.
  intros Hf H. apply (f_equal (λ mm : ctx_map, mm !! x)) in H. rewrite !lookup_fmap in H.
  destruct (m !! x) as [k|], (m' !! x) as [k'|]; simpl in *; try done.
  apply Some_inj in H. by rewrite <-(Hf k), H, Hf.
Qed.

Lemma same_but_links_prom m m' x :
  same_but_links m m' → prom_of m x = prom_of m' x.
Proof.
  intros H. unfold prom_of.
  pose proof (same_but_links_field c_prom m m' x (λ _, eq_refl) H) as Hf.
  destruct (m !! x), (m' !! x); simpl in *; congruence.
Qed.

Lemma same_but_links_resume m m' x :
  same_but_links m m' → resume_time_of m x = resume_time_of m' x.
Proof.
  intros H. unfold resume_time_of. by rewrite (same_but_links_field c_resume_time m m' x (λ _, eq_refl) H).
Qed.

Lemma same_but_links_allocated m m' xs :
  same_but_links m m' → allocated m xs → allocated m' xs.
Proof.
  intros H Ha x Hx. destruct (Ha x Hx) as [k Hk].
  pose proof (same_but_links_field erase_links m m' x (λ _, eq_refl) H) as Hf.
  rewrite Hk in Hf. destruct (m' !! x); simpl in *; [eauto|done].
Qed.

Lemma same_but_next_links m m' : same_but_next m m' → same_but_links m m'.
Proof.
  intros H. unfold same_but_links. apply map_eq. intros x. rewrite !lookup_fmap.
  apply (same_but_next_lookup _ _ x) in H.
  destruct (m !! x), (m' !! x); simpl in *; try done.
  apply Some_inj, (f_equal (set_c_next_blocked None)) in H. f_equal. exact H.
Qed.

Lemma same_but_links_insert m c k v :
  m !! c = Some k → same_but_links m (<[c := set_c_next_blocked v k]> m).
Proof.
  intros Hc. apply map_eq. intros i. rewrite !lookup_fmap, lookup_insert.
  case_decide as Hi; [|done]. subst. by rewrite Hc.
Qed.

Lemma sleep_heap_links m m' l :
  same_but_links m m' → is_heap (sleep_priority_less m) l →
  is_heap (sleep_priority_less m') l.
Proof.
  intros H. apply is_heap_ext. intros x y _ _. unfold sleep_priority_less.
  by rewrite !(same_but_links_resume m m').
Qed.

(** Relinking [next_blocked] keeps the ready list. *)
Lemma ready_rep_relink m s s' c k v xs :
  m !! c = Some k → ready_head s' = ready_head s → ready_tail s' = ready_tail s →
  ready_rep m s xs → ready_rep (<[c:=set_c_next_blocked v k]> m) s' xs.
Proof.
  intros Hc Hh Ht (H1 & H2 & H3). split; [|split].
  - rewrite Hh. eapply lseg_ext; [|done]. intros x _. unfold next_of.
    rewrite lookup_insert. case_decide; subst; by rewrite ?Hc.
  - by rewrite Ht.
  - eapply same_but_links_allocated; [|done]. by apply same_but_links_insert.
Qed.
End links.

Section loop.
Context {T : Type} `{!Clock} `{HeapSpec nat}.
Implicit Types (w : world T).

(** The store after the blocked loop took [c] off the blocked list [b] of
    [this] and made it the first ready context. *)
Definition unblocked w this s (c : nat) (b' r : list nat) : world T → Prop := λ w',
  ∃ m' s', w' = ready_upd w this m' s' ∧
    blocked_rep m' s' b' ∧ ready_rep m' s' (c :: r) ∧
    same_but_links (w_ctx w) m' ∧ same_but_lists s s'.

Lemma notify_loop_none fuel w this p prev cur s pre b :
  blocked_rep (w_ctx w) s (pre ++ b) →
  lseg (next_blocked_of (w_ctx w)) cur b None → length b ≤ fuel →
  (∀ c, c ∈ b → prom_of (w_ctx w) c ≠ Some p) →
  wp (notify_loop fuel this p prev cur) (returns (λ _ w', w' = w)) w.
Proof.
  revert fuel prev cur pre.
  induction b as [|c b IH]; intros fuel prev cur pre Hb Hcur Hf Hp.
  { simpl in Hcur. subst. by destruct fuel. }
  destruct fuel as [|fuel]; [simpl in Hf; lia|]. destruct Hcur as [-> Hcur]. simpl.
  destruct Hb as [Hb Ha]. destruct (Ha c ltac:(set_solver)) as [k Hk]. wp_steps.
  unfold try_unblock. rewrite bool_decide_eq_false_2.
  - apply (IH _ _ _ (pre ++ [c])); [by rewrite <-app_assoc| |simpl in Hf; lia|set_solver].
    unfold next_blocked_of at 2 in Hcur. by rewrite Hk in Hcur.
  - intros Heq. apply (Hp c ltac:(set_solver)). unfold prom_of. by rewrite Hk.
Qed.

(** Unlinking [c] from the blocked list, whichever way the list is entered. *)
Lemma blocked_unlink_spec w this s pre c b r :
  w_thr w !! this = Some s → blocked_rep (w_ctx w) s (pre ++ c :: b) →
  ready_rep (w_ctx w) s r →
  wp (blocked_unlink this (last pre) c) (returns (λ _ w', ∃ m' s', w' = ready_upd w this m' s' ∧
    blocked_rep m' s' (pre ++ b) ∧ ready_rep m' s' r ∧
    same_but_links (w_ctx w) m' ∧ same_but_lists s s' ∧
    next_blocked_of m' c = None)) w.
Proof.
  intros Hs [Hb Ha] Hr. destruct (Ha c ltac:(set_solver)) as [k Hk].
  assert (Hnb : next_blocked_of (w_ctx w) c = c_next_blocked k)
    by (unfold next_blocked_of; by rewrite Hk).
  assert (Hal : ∀ m', same_but_links (w_ctx w) m' → allocated m' (pre ++ b)).
  { intros m' Hm. eapply same_but_links_allocated; [done|].
    intros x Hx. apply Ha. set_solver. }
  pose proof (chain_NoDup _ _ _ Hb) as Hnd.
  unfold blocked_unlink. destruct pre as [|pb pre _] using rev_ind; simpl.
  - wp_steps. destruct Hb as [Hbl Hb]. rewrite Hnb in Hb.
    exists (<[c:=set_c_next_blocked None k]> (w_ctx w)), (set_blocked (c_next_blocked k) s).
    split; [done|].
    pose proof (same_but_links_insert (w_ctx w) c k None Hk) as Hm.
    split_and!; [split; [|by apply Hal]|by eapply ready_rep_relink|done|done|].
    + change (blocked _) with (c_next_blocked k).
      eapply lseg_ext; [|done]. intros x Hx. unfold next_blocked_of.
      rewrite lookup_insert_ne; [done|]. simpl in Hnd.
      apply NoDup_cons in Hnd as [Hc _]. by intros ->.
    + unfold next_blocked_of. by rewrite lookup_insert_eq.
  - rewrite last_snoc. destruct (Ha pb ltac:(set_solver)) as [kb Hkb].
    rewrite <-app_assoc in *. simpl in *.
    assert (Hne : pb ≠ c).
    { apply NoDup_app in Hnd as (_ & _ & [Hin _]%NoDup_cons). set_solver. }
    wp_steps.
    set (m1 := <[pb:=_]> (w_ctx w)). assert (Hc1 : m1 !! c = Some k)
      by (unfold m1; by rewrite lookup_insert_ne).
    exists (<[c:=set_c_next_blocked None k]> m1), s. split; [unfold ready_upd;
      by rewrite (insert_id _ _ _ Hs)|].
    assert (Hm : same_but_links (w_ctx w) (<[c:=set_c_next_blocked None k]> m1)).
    { transitivity m1; by apply same_but_links_insert. }
    split_and!; [split; [|by apply Hal]| |done|done|].
    + eapply chain_unlink; [exact Hb| |].
      * rewrite Hnb. unfold next_blocked_of. rewrite lookup_insert_ne by done.
        unfold m1. by rewrite lookup_insert_eq.
      * intros x H1 H2. unfold next_blocked_of, m1.
        by rewrite !lookup_insert_ne by done.
    + eapply ready_rep_relink; [done..|]. by eapply ready_rep_relink.
    + unfold next_blocked_of. by rewrite lookup_insert_eq.
Qed.

Lemma ready_upd_twice w this m s m' s' :
  ready_upd (ready_upd w this m s) this m' s' = ready_upd w this m' s'.
Proof. unfold ready_upd, set_w_thr, set_w_ctx. simpl. by rewrite insert_insert_eq. Qed.

Lemma ready_upd_lookup w this m s : w_thr (ready_upd w this m s) !! this = Some s.
Proof. apply lookup_insert_eq. Qed.

Lemma same_but_ready_lists s s' :
  same_but_ready s s' → same_but_lists s s' ∧ blocked s = blocked s'.
Proof.
  unfold same_but_ready, same_but_lists. intros Heq. split.
  - by apply (f_equal (set_blocked None)) in Heq.
  - by apply (f_equal blocked) in Heq.
Qed.

Lemma notify_loop_hit fuel w this p prev s pre b1 c b2 r :
  w_thr w !! this = Some s → prev = last pre →
  blocked_rep (w_ctx w) s (pre ++ b1 ++ c :: b2) → ready_rep (w_ctx w) s r →
  c ∉ r → prom_of (w_ctx w) c = Some p →
  (∀ c', c' ∈ b1 → prom_of (w_ctx w) c' ≠ Some p) → length b1 < fuel →
  wp (notify_loop fuel this p prev (head (b1 ++ c :: b2)))
    (returns (λ _ w', unblocked w this s c (pre ++ b1 ++ b2) r w')) w.
Proof.
  revert fuel prev pre. induction b1 as [|c1 b1 IH];
    intros fuel prev pre Hs -> Hb Hr Hcr Hp Hne Hf; (destruct fuel as [|fuel]; [lia|]); simpl.
  - assert (is_Some (w_ctx w !! c)) as [k Hk] by (apply Hb; set_solver).
    rewrite wp_bind, wp_get_ctx, Hk. unfold try_unblock.
    rewrite bool_decide_eq_true_2 by (unfold prom_of in Hp; by rewrite Hk in Hp).
    rewrite wp_bind. eapply wp_mono, blocked_unlink_spec; [|done..].
    intros [[]|?|?] w1; try done. intros (m1 & s1 & -> & Hb1 & Hr1 & Hm1 & Hs1 & Hn1).
    rewrite wp_bind. eapply wp_mono, (ready_push_front_spec _ _ s1 r);
      [|apply ready_upd_lookup|done|done|].
    2:{ by eapply (same_but_links_allocated _ _ [c] Hm1); [intros x ->%list_elem_of_singleton|left]. }
    intros [[]|?|?] w2; try done. intros (_ & m2 & s2 & -> & Hr2 & Hm2 & Hs2).
    simpl in Hm2. rewrite ready_upd_twice.
    destruct (same_but_ready_lists _ _ Hs2) as [Hs2' Hbl].
    assert (is_Some (m2 !! c)) as [k2 Hk2] by (apply Hr2; set_solver).
    rewrite wp_bind, wp_get_ctx. simpl. rewrite Hk2.
    assert (c_next_blocked k2 = None) as ->.
    { apply (same_but_next_lookup _ _ c) in Hm2. rewrite Hk2 in Hm2.
      unfold next_blocked_of in Hn1. destruct (m1 !! c) as [k1|]; simpl in *; [|done].
      apply Some_inj, (f_equal c_next_blocked) in Hm2. simpl in Hm2. congruence. }
    replace (notify_loop fuel this p (last pre) None) with (mret () : M (world T) exn unit)
      by by destruct fuel.
    rewrite wp_ret. exists m2, s2. split_and!; [done| |done| |].
    + by eapply same_but_next_blocked.
    + etransitivity; [done|]. by apply same_but_next_links.
    + by etransitivity.
  - assert (is_Some (w_ctx w !! c1)) as [k Hk] by (apply Hb; set_solver).
    rewrite wp_bind, wp_get_ctx, Hk. unfold try_unblock.
    rewrite bool_decide_eq_false_2.
    2:{ intros Heq. apply (Hne c1); [set_solver|]. unfold prom_of. by rewrite Hk. }
    assert (Hnext : c_next_blocked k = head (b1 ++ c :: b2)).
    { destruct Hb as [Hc _]. apply lseg_app in Hc as (q & _ & _ & Hc).
      assert (Hn : next_blocked_of (w_ctx w) c1 = c_next_blocked k)
        by (unfold next_blocked_of; by rewrite Hk).
      rewrite Hn in Hc. destruct b1; simpl in *; by destruct Hc. }
    rewrite Hnext. eapply wp_mono, (IH _ _ (pre ++ [c1]));
      [|done|by rewrite last_snoc|by rewrite <-app_assoc|done..|set_solver|simpl in Hf; lia].
    intros [[]|?|?] w'; try done. simpl. by rewrite <-app_assoc.
Qed.
End loop.

(** * Thread-level state and the effect of [notify] on it *)

(** The scheduling state of a thread: ready contexts [r], blocked contexts [b]
    and the sleep queue, each well formed, and no context ready while it is
    still blocked or asleep. *)
Record sched_rep (m : ctx_map) (s : thread_private) (r b : list nat) : Prop := {
  sr_ready : ready_rep m s r;
  sr_blocked : blocked_rep m s b;
  sr_heap : is_heap (sleep_priority_less m) (sleep_pqueue s);
  sr_alloc : allocated m (sleep_pqueue s);
  sr_nodup : NoDup (sleep_pqueue s);
  sr_ready_blocked : ∀ c, c ∈ r → c ∉ b;
  sr_ready_sleep : ∀ c, c ∈ r → c ∉ sleep_pqueue s;
}.

Definition is_ready {T} (w : world T) (p : nat) : Prop :=
  ∃ k, w_prom w !! p = Some k ∧ (is_Some (m_error k) ∨ m_value k ≠ None).

Lemma vector_remove_perm (i : nat) (l : list nat) c :
  l !! i = Some c → c :: vector_remove i l ≡ₚ l.
Proof.
  destruct l as [|b l _] using rev_ind; [done|]. intros Hi.
  unfold vector_remove. rewrite last_snoc.
  destruct (decide (i < length l)) as [Hlt|Hge].
  - rewrite insert_app_l by done. rewrite pop_back_snoc.
    rewrite lookup_app_l in Hi by done.
    rewrite <-(take_drop_middle l i c Hi) at 2. rewrite insert_take_drop by done.
    transitivity (c :: b :: take i l ++ drop (S i) l).
    + constructor. symmetry. apply Permutation_middle.
    + rewrite (Permutation_app_comm _ [b]). simpl.
      rewrite <-(Permutation_middle (take i l) (drop (S i) l) c). constructor.
  - pose proof (lookup_lt_Some _ _ _ Hi) as Hl. rewrite length_app in Hl. simpl in Hl.
    assert (i = length l) as -> by lia.
    rewrite lookup_app_r, Nat.sub_diag in Hi by done. simpl in Hi. simplify_eq.
    rewrite list_insert_id by by rewrite lookup_app_r, Nat.sub_diag.
    rewrite pop_back_snoc. by rewrite Permutation_cons_append.
Qed.

Section notify.
Context {T : Type} `{!Clock} `{HeapSpec nat}.
Implicit Types (w : world T).

(** The sleep loop takes at most one context out of the queue. *)
Lemma notify_sleep_spec w this p s :
  w_thr w !! this = Some s → allocated (w_ctx w) (sleep_pqueue s) →
  wp (notify_sleep this p) (returns (λ _ w',
    (w' = w ∧ ∀ c, c ∈ sleep_pqueue s → prom_of (w_ctx w) c ≠ Some p) ∨
    (∃ c k l, c ∈ sleep_pqueue s ∧ w_ctx w !! c = Some k ∧ c_prom k = Some p ∧
      w' = ready_upd w this (<[c:=set_c_prom None k]> (w_ctx w)) (set_sleep_pqueue l s) ∧
      c :: l ≡ₚ sleep_pqueue s ∧ is_heap (sleep_priority_less (w_ctx w)) l))) w.
Proof.
  intros Hs Ha. unfold notify_sleep. wp_steps.
  destruct (list_find _ (sleep_pqueue s)) as [[i c]|] eqn:Hf.
  - apply list_find_Some in Hf as (Hi & Hp & _).
    assert (Hin : c ∈ sleep_pqueue s) by by eapply list_elem_of_lookup_2.
    destruct (Ha c Hin) as [k Hk]. wp_steps. right.
    unfold prom_of in Hp. rewrite Hk in Hp. simpl in Hp.
    exists c, k. eexists. split; [done|]. split; [done|]. split; [done|].
    split; [reflexivity|]. split.
    + rewrite make_heap_perm by apply _. by apply vector_remove_perm.
    + eapply is_heap_ext; [|apply make_heap_heap; apply _].
      intros x y _ _. unfold sleep_priority_less, resume_time_of.
      assert (Hsame : ∀ z, c_resume_time <$> <[c:=set_c_prom None k]> (w_ctx w) !! z
        = c_resume_time <$> w_ctx w !! z).
      { intros z. rewrite lookup_insert. case_decide; subst; [by rewrite Hk|done]. }
      by rewrite !Hsame.
  - rewrite wp_ret. left. split; [done|]. intros c Hc.
    by eapply list_find_None, Forall_forall in Hf.
Qed.

Lemma promise_ready_spec w p :
  is_ready w p → wp (promise_ready p) (λ r w', r = Ret true ∧ w' = w) w.
Proof.
  intros (k & Hk & Hr). unfold promise_ready. wp_steps. split; [|done]. f_equal.
  destruct Hr as [Hr|Hr]; [by rewrite (bool_decide_eq_true_2 _ Hr)|].
  rewrite (bool_decide_eq_true_2 _ Hr). by apply orb_true_r.
Qed.

Lemma thread_notify_here w this p :
  is_ready w p → w_self w = this →
  ∀ Q, wp (s ← get_thr this;
           m ← gets w_ctx;
           notify_loop (size m) this p None (blocked s);;
           notify_sleep this p) Q w →
       wp (thread_notify this p) Q w.
Proof.
  intros Hr Hself Q HQ. unfold thread_notify. rewrite wp_bind.
  eapply wp_mono, promise_ready_spec; [|done]. intros r w' [-> ->].
  rewrite wp_bind. simpl. rewrite wp_ret, wp_bind, wp_self, bool_decide_eq_false_2; [done|].
  intros Hn. by apply Hn.
Qed.

(** Only the contexts' links and [c]'s promise pointer may differ. *)
Definition woken (m m' : ctx_map) (c : nat) : Prop :=
  ∀ x, erase_links <$> m' !! x = erase_links <$> m !! x ∨
       (x = c ∧ erase_links <$> m' !! x = set_c_prom None <$> (erase_links <$> m !! x)).

Lemma same_but_lists_sleep s s' : same_but_lists s s' → sleep_pqueue s' = sleep_pqueue s.
Proof. intros H1. by apply (f_equal sleep_pqueue) in H1. Qed.

Lemma clear_prom_links m m' c k :
  same_but_links m m' → m' !! c = Some k →
  woken m (<[c:=set_c_prom None k]> m') c.
Proof.
  intros Hm Hk x. pose proof (same_but_links_field erase_links m m' x (λ _, eq_refl) Hm) as Hx.
  rewrite lookup_insert. case_decide as Hc; [|by left]. subst.
  right. split; [done|]. rewrite Hx, Hk. done.
Qed.

Lemma ready_rep_clear_prom m s s' c k xs :
  m !! c = Some k → ready_head s' = ready_head s → ready_tail s' = ready_tail s →
  ready_rep m s xs → ready_rep (<[c:=set_c_prom None k]> m) s' xs.
Proof.
  intros Hc Hh Ht (H1 & H2 & H3). split; [|split].
  - rewrite Hh. eapply lseg_ext; [|done]. intros x _. unfold next_of.
    rewrite lookup_insert. case_decide; subst; by rewrite ?Hc.
  - by rewrite Ht.
  - intros x Hx. rewrite lookup_insert. case_decide; [eauto|by apply H3].
Qed.

Lemma blocked_rep_clear_prom m s s' c k xs :
  m !! c = Some k → blocked s' = blocked s →
  blocked_rep m s xs → blocked_rep (<[c:=set_c_prom None k]> m) s' xs.
Proof.
  intros Hc Hb (H1 & H2). split.
  - rewrite Hb. eapply lseg_ext; [|done]. intros x _. unfold next_blocked_of.
    rewrite lookup_insert. case_decide; subst; by rewrite ?Hc.
  - intros x Hx. rewrite lookup_insert. case_decide; [eauto|by apply H2].
Qed.

Lemma is_heap_clear_prom m c k l :
  m !! c = Some k → is_heap (sleep_priority_less m) l →
  is_heap (sleep_priority_less (<[c:=set_c_prom None k]> m)) l.
Proof.
  intros Hc. apply is_heap_ext. intros x y _ _. unfold sleep_priority_less, resume_time_of.
  assert (Hsame : ∀ z, c_resume_time <$> <[c:=set_c_prom None k]> m !! z
    = c_resume_time <$> m !! z).
  { intros z. rewrite lookup_insert. case_decide; subst; [by rewrite Hc|done]. }
  by rewrite !Hsame.
Qed.

(** [c] is the only context of the thread that waits for [p]. *)
Definition sole_waiter (m : ctx_map) (s : thread_private) (b : list nat) (p c : nat) :=
  prom_of m c = Some p ∧
  ∀ x, x ∈ b ++ sleep_pqueue s → prom_of m x = Some p → x = c.

(** The thread [this] after [c] was woken: off the blocked list and out of the
    sleep queue, and first of the ready contexts. *)
Definition waiter_woken w this s (c : nat) (r b : list nat) (w' : world T) : Prop :=
  ∃ m' s', w' = ready_upd w this m' s' ∧ sched_rep m' s' (c :: r) b ∧
    sleep_pqueue s' ≡ₚ filter (λ x, x ≠ c) (sleep_pqueue s) ∧
    woken (w_ctx w) m' c ∧ same_but_sched s s'.

Lemma thread_notify_spec w this p s r b1 c b2 :
  w_thr w !! this = Some s → w_self w = this → is_ready w p →
  sched_rep (w_ctx w) s r (b1 ++ c :: b2) →
  sole_waiter (w_ctx w) s (b1 ++ c :: b2) p c →
  wp (thread_notify this p)
    (returns (λ _ w', waiter_woken w this s c r (b1 ++ b2) w')) w.
Proof.
  intros Hs Hself Hready Hrep [Hp Huniq]. destruct Hrep as [Hr Hb Hh Ha Hnd Hrb Hrs].
  pose proof (blocked_rep_NoDup _ _ _ Hb) as Hbnd.
  assert (Hcb : c ∉ b1 ++ b2).
  { intros Hin. apply NoDup_app in Hbnd as (_ & Hd & [Hc2 _]%NoDup_cons).
    apply elem_of_app in Hin as [Hin|Hin]; [|done]. apply (Hd _ Hin). set_solver. }
  apply thread_notify_here; [done|done|].
  rewrite wp_bind, wp_get_thr, Hs, wp_bind, wp_gets, wp_bind.
  assert (blocked s = head (b1 ++ c :: b2)) as ->.
  { destruct Hb as [Hb _]. destruct b1; simpl in *; by destruct Hb. }
  eapply wp_mono, (notify_loop_hit _ _ _ _ None s []); try done.
  2:{ intros Hin. apply (Hrb c Hin). set_solver. }
  2:{ intros c' Hc' Hp'. apply Hcb. rewrite <-(Huniq c'); set_solver. }
  2:{ pose proof (NoDup_keys_size (w_ctx w) (b1 ++ c :: b2) Hbnd (proj2 Hb)) as Hl.
      rewrite length_app in Hl. simpl in Hl. lia. }
  intros [[]|?|?] w1; try done. intros (m1 & s1 & -> & Hb1 & Hr1 & Hm1 & Hs1).
  pose proof (same_but_lists_sleep _ _ Hs1) as Hsl.
  eapply wp_mono, (notify_sleep_spec _ _ _ s1);
    [|apply ready_upd_lookup|rewrite Hsl; by eapply same_but_links_allocated].
  intros [[]|?|?] w2; try done. simpl. rewrite Hsl.
  intros [[-> Hnone]|(c' & k & l & Hin & Hk & Hpk & -> & Hl & Hhl)].
  - exists m1, s1. split; [done|].
    assert (Hcs : c ∉ sleep_pqueue s).
    { intros Hin. apply (Hnone c Hin). by rewrite <-(same_but_links_prom (w_ctx w)). }
    split; [|split].
    + split; rewrite ?Hsl; [done|done|by eapply sleep_heap_links|
        by eapply same_but_links_allocated|done|set_solver|set_solver].
    + rewrite Hsl. by rewrite filter_all by set_solver.
    + split; [|by apply same_but_lists_sched].
      intros x. left. symmetry. by apply same_but_links_field.
  - rewrite ready_upd_twice. exists (<[c':=set_c_prom None k]> m1), (set_sleep_pqueue l s1).
    split; [done|].
    assert (c' = c) as ->.
    { apply Huniq; [set_solver|]. rewrite (same_but_links_prom _ m1) by done.
      unfold prom_of. by rewrite Hk. }
    assert (Hnd' : NoDup (c :: l)) by by rewrite Hl.
    apply NoDup_cons in Hnd' as [Hcl Hndl].
    split; [split; simpl|split].
    + by eapply ready_rep_clear_prom.
    + by eapply blocked_rep_clear_prom.
    + by apply is_heap_clear_prom.
    + intros x Hx. rewrite lookup_insert. case_decide; [eauto|].
      eapply same_but_links_allocated; [done|done|]. rewrite <-Hl. by right.
    + done.
    + set_solver.
    + intros x Hx. assert (Hsub : ∀ y, y ∈ l → y ∈ sleep_pqueue s)
        by (intros y Hy; rewrite <-Hl; by right). set_solver.
    + simpl. rewrite <-Hl, filter_cons_False by naive_solver.
      by rewrite filter_all by set_solver.
    + split; [by apply clear_prom_links|].
      transitivity s1; [by apply same_but_lists_sched|done].
Qed.

Lemma promise_notify_here w this p k Q :
  w_prom w !! p = Some k → (is_Some (m_error k) ∨ m_value k ≠ None) →
  m_blocked_thread k = Some this →
  wp (thread_notify this p) Q w → wp (promise_notify p) Q w.
Proof.
  intros Hk Hr Hb HQ. unfold promise_notify. rewrite wp_bind.
  eapply wp_mono, promise_ready_spec; [|by exists k]. intros r w' [-> ->].
  rewrite wp_bind. simpl. rewrite wp_ret, wp_bind, wp_get_prom, Hk. by rewrite Hb.
Qed.

Definition with_prom w (p : nat) (k : promise T) : world T :=
  set_w_prom (<[p := k]> (w_prom w)) w.

Lemma set_value_wakes w this p v k s r b1 c b2 :
  w_prom w !! p = Some k → m_error k = None → m_blocked_thread k = Some this →
  w_thr w !! this = Some s → w_self w = this →
  sched_rep (w_ctx w) s r (b1 ++ c :: b2) →
  sole_waiter (w_ctx w) s (b1 ++ c :: b2) p c →
  wp (set_value p v) (returns (λ _ w',
    waiter_woken (with_prom w p (set_m_value (Some v) k)) this s c r (b1 ++ b2) w')) w.
Proof.
  intros Hk He Hb Hs Hself Hrep Hsole. unfold set_value. wp_steps. rewrite He. wp_steps.
  apply (promise_notify_here _ this p (set_m_value (Some v) k));
    [apply lookup_insert_eq|by right|done|].
  apply thread_notify_spec; try done. exists (set_m_value (Some v) k).
  split; [apply lookup_insert_eq|by right].
Qed.

(** ** Properties *)

(** Setting the value of a promise that has no error stores the value and
    makes the one context that waits for it the first ready context of its
    thread, no longer blocked or asleep; every other context stays where it
    was and the thread's lists and heap stay well formed. *)
Theorem set_value_wakes_the_waiter w this p v k s r b1 c b2 :
  w_prom w !! p = Some k → m_error k = None → m_blocked_thread k = Some this →
  w_thr w !! this = Some s → w_self w = this →
  sched_rep (w_ctx w) s r (b1 ++ c :: b2) →
  sole_waiter (w_ctx w) s (b1 ++ c :: b2) p c →
  wp (set_value p v) (returns (λ _ w',
    waiter_woken (with_prom w p (set_m_value (Some v) k)) this s c r (b1 ++ b2) w')) w.
Proof. by apply set_value_wakes. Qed.

(** Once a promise holds an error a later value is dropped: nothing is
    stored and nobody is woken. *)
Theorem set_value_after_error w p v k e :
  w_prom w !! p = Some k → m_error k = Some e →
  set_value p v w = (Ret tt, w).
Proof.
  intros Hk He. unfold set_value, mbind, M_bind, get_prom. rewrite Hk. by rewrite He.
Qed.

(** Of several contexts that wait for the same promise, [notify] wakes
    only the one that blocked last: the loop clears the link it is about to
    follow, so the others stay on the blocked list. *)
Theorem notify_wakes_only_one w this p s r b1 c b2 :
  w_thr w !! this = Some s → w_self w = this → is_ready w p →
  ready_rep (w_ctx w) s r → blocked_rep (w_ctx w) s (b1 ++ c :: b2) → c ∉ r →
  prom_of (w_ctx w) c = Some p →
  (∀ x, x ∈ b1 → prom_of (w_ctx w) x ≠ Some p) →
  allocated (w_ctx w) (sleep_pqueue s) →
  wp (thread_notify this p) (returns (λ _ w', ∃ s',
    w_thr w' !! this = Some s' ∧
    ready_rep (w_ctx w') s' (c :: r) ∧ blocked_rep (w_ctx w') s' (b1 ++ b2))) w.
Proof.
  intros Hs Hself Hready Hr Hb Hcr Hp Hfirst Ha. apply thread_notify_here; [done|done|].
  pose proof (blocked_rep_NoDup _ _ _ Hb) as Hbnd.
  rewrite wp_bind, wp_get_thr, Hs, wp_bind, wp_gets, wp_bind.
  assert (blocked s = head (b1 ++ c :: b2)) as ->.
  { destruct Hb as [Hb _]. destruct b1; simpl in *; by destruct Hb. }
  eapply wp_mono, (notify_loop_hit _ _ _ _ None s []); try done.
  2:{ pose proof (NoDup_keys_size (w_ctx w) (b1 ++ c :: b2) Hbnd (proj2 Hb)) as Hl.
      rewrite length_app in Hl. simpl in Hl. lia. }
  intros [[]|?|?] w1; try done. intros (m1 & s1 & -> & Hb1 & Hr1 & Hm1 & Hs1).
  pose proof (same_but_lists_sleep _ _ Hs1) as Hsl.
  eapply wp_mono, (notify_sleep_spec _ _ _ s1);
    [|apply ready_upd_lookup|rewrite Hsl; by eapply same_but_links_allocated].
  intros [[]|?|?] w2; try done. simpl.
  intros [[-> _]|(c' & k & l & _ & Hk & _ & -> & _)].
  - exists s1. by rewrite ready_upd_lookup.
  - rewrite ready_upd_twice. exists (set_sleep_pqueue l s1). rewrite ready_upd_lookup.
    split_and!; [done|by eapply ready_rep_clear_prom|by eapply blocked_rep_clear_prom].
Qed.

(** The thread once another one has posted it the task [t]. *)
Definition posted_to (s : thread_private) (t : nat) : thread_private :=
  set_task_ready (S (task_ready s)) (set_task_in_queue (Some t) s).

(** Completing a promise from a thread other than the one that waits for
    it leaves the waiting thread's contexts alone: it posts one task, bound to
    [notify] on that promise, and wakes the thread up. *)
Theorem notify_from_another_thread w this p s xs :
  w_thr w !! this = Some s → w_self w ≠ this → is_ready w p →
  queue_rep (w_task w) s xs → w_task w !! w_fresh w = None →
  in_int64 (w_task_count w + 1) = true →
  wp (thread_notify this p) (returns (λ _ w', ∃ k,
    w_thr w' = <[this := posted_to s (w_fresh w)]> (w_thr w) ∧
    w_ctx w' = w_ctx w ∧ w_prom w' = w_prom w ∧ w_self w' = w_self w ∧
    w_fresh w' = S (w_fresh w) ∧
    queue_rep (w_task w') (posted_to s (w_fresh w)) (w_fresh w :: xs) ∧
    w_task w' = <[w_fresh w := k]> (w_task w) ∧ t_functor k = BindNotify this p ∧
    t_when k = time_point_min ∧ t_prom k = None ∧ t_canceled k = false ∧ t_refs k = 1%Z)) w.
Proof.
  intros Hs Hself Hready Hq Hfr Hcount. unfold thread_notify. rewrite wp_bind.
  eapply wp_mono, promise_ready_spec; [|done]. intros r w' [-> ->].
  rewrite wp_bind. simpl. rewrite wp_ret, wp_bind, wp_self, bool_decide_eq_true_2 by done.
  unfold async_fn, new_task. wp_steps. rewrite Hcount. wp_steps.
  unfold async_task. wp_steps. rewrite bool_decide_eq_false_2 by done. simpl. wp_steps.
  set (k := Task _ _ _ _ _ _ _ _ _).
  assert (Hfresh : w_fresh w ∉ xs ++ task_pqueue s ++ task_sch_queue s).
  { intros Hin. destruct (qr_alloc _ _ _ Hq _ Hin) as [? Hx]. congruence. }
  assert (Hq1 : queue_rep (<[w_fresh w:=k]> (w_task w)) s xs).
  { by apply queue_rep_fresh. }
  exists (set_t_next (task_in_queue s) k).
  simpl. rewrite !insert_insert_eq.
  split_and!; [done|done|done|done|done| |done..].
  assert (Hin : w_fresh w ∉ xs) by set_solver.
  pose proof (queue_rep_push _ _ (w_fresh w) k xs (lookup_insert_eq _ _ _) Hin Hq1) as [H1 H2 H3 H4].
  rewrite insert_insert_eq in *. by split.
Qed.
End notify.
