(* ===== verification/Scheduler.v ===== *)
(** The cooperative scheduler of one [cmt::thread] (thread.cpp): expiring
    timeouts ([check_for_timeouts]) and choosing the next context
    ([start_next_task]), with the invariant of a thread's contexts. [Blocking.v]
    and [Quit.v] have the operations built on them.

    A blocking operation is cut at the call of [jump_fcontext], which belongs to
    Boost.Context: the part before it is the operation's own definition and ends
    in the [switch] it performs, the part that runs when the context is jumped
    back to is the definition with the suffix [_resume]. *)
From S2P Require Import Prelude StdHeap World ReadyList TaskQueue Notify.

(** The jump a blocking operation makes: the context it saves, the context it
    enters, and whether that one was just created (and starts in
    [start_process_tasks]) or resumes where it last jumped away. *)
Record switch := Switch { sw_prev : nat; sw_next : nat; sw_new : bool }.

Section ops.
Context {T : Type} `{!Clock} `{!HeapAlgo nat}.
Abbreviation C := (M (world T) exn).

(** The loop of [check_for_timeouts]. *)
Fixpoint timeouts_loop (fuel this : nat) (n : Z) : C unit :=
  s ← get_thr this;
  m ← gets w_ctx;
  match sleep_pqueue s, fuel with
  | [], _ => mret tt
  | c :: _, fuel =>
    k ← get_ctx c;
    if bool_decide (c_resume_time k ≤ n)%Z then
      match fuel with
      | 0 => undef Diverges
      | S fuel =>
        mod_thr this (set_sleep_pqueue
          (pop_back (pop_heap (sleep_priority_less m) (sleep_pqueue s))));;
        match c_prom k with
        | Some p => set_exception p future_wait_timeout
        | None => ready_push_back this c
        end;;
        timeouts_loop fuel this n
      end
    else mret tt
  end.

(** When something scheduled or asleep is due next. *)
Definition next_timeout (this : nat) : C Z :=
  s ← get_thr this;
  next ← match task_sch_queue s with
         | t :: _ => k ← get_task t; mret (Z.min time_point_max (t_when k))
         | [] => mret time_point_max
         end;
  match sleep_pqueue s with
  | c :: _ => k ← get_ctx c; mret (Z.min next (c_resume_time k))
  | [] => mret next
  end.

Definition check_for_timeouts (this : nat) : C Z :=
  s ← get_thr this;
  if bool_decide (sleep_pqueue s = [] ∧ task_sch_queue s = []) then mret time_point_max
  else
    next ← next_timeout this;
    n ← now;
    if bool_decide (n < next)%Z then mret next
    else
      timeouts_loop (length (sleep_pqueue s)) this n;;
      mret time_point_min.

(** [if( !current ) current = new cmt_context();] *)
Definition ensure_current (this : nat) : C nat :=
  s ← get_thr this;
  match current s with
  | Some c => mret c
  | None => c ← alloc_ctx; mod_thr this (set_current (Some c));; mret c
  end.

(** [start_next_task] once there is a current context [cur]. *)
Definition jump_from (this cur : nat) (reschedule : bool) : C switch :=
  s ← get_thr this;
  match ready_head s with
  | Some _ =>
    next ← ready_pop_front this;
    next ← deref next;
    check (bool_decide (next ≠ cur));;
    when reschedule (ready_push_back this cur);;
    mod_thr this (set_current (Some next));;
    mret (Switch cur next false)
  | None =>
    when reschedule (ready_push_back this cur);;
    next ← alloc_ctx;
    mod_thr this (set_current (Some next));;
    mret (Switch cur next true)
  end.

Definition start_next_task (this : nat) (reschedule : bool) : C switch :=
  check_for_timeouts this;;
  cur ← ensure_current this;
  jump_from this cur reschedule.

(** [start_next_task] once its context is jumped back to. *)
Definition start_next_task_resume (this prev : nat) : C bool :=
  mod_thr this (set_current (Some prev));;
  k ← get_ctx prev;
  if c_canceled k then throw task_canceled else mret true.

(** [thread::is_running], [thread::current_priority] *)
Definition is_running (this : nat) : C bool :=
  s ← get_thr this;
  mret (bool_decide (current s ≠ None)).
Definition current_priority (this : nat) : C Z :=
  s ← get_thr this;
  match current s with
  | Some c => k ← get_ctx c; mret (c_prio k)
  | None => mret 0%Z
  end.


(** The jump touches its own thread only; the timeouts before it may complete a
    promise of another. *)
Lemma keeps_ensure_current this : keeps (others this) (ensure_current this).
Proof. unfold ensure_current. solve_keeps. Qed.
Lemma keeps_jump_from this cur b : keeps (others this) (jump_from this cur b).
Proof. unfold jump_from. solve_keeps. Qed.
Lemma keeps_start_next_task_resume this prev : keeps (others this) (start_next_task_resume this prev).
Proof. unfold start_next_task_resume. solve_keeps. Qed.
End ops.

#[export] Hint Resolve keeps_ensure_current keeps_jump_from keeps_start_next_task_resume : keeps.

(** * Invariant *)

Section inv.
Context {T : Type} `{!Clock} `{HeapSpec nat}.
Implicit Types (w : world T).

(** Thread [this] with ready contexts [r] and blocked contexts [b]: every
    blocked context waits for a promise that will notify this thread, no two
    contexts wait for the same promise, and a context in the sleep queue is
    also blocked exactly when it waits for a promise. *)
Record thread_inv w (this : nat) (s : thread_private) (r b : list nat) : Prop := {
  ti_thr : w_thr w !! this = Some s;
  ti_rep : sched_rep (w_ctx w) s r b;
  ti_prom c : c ∈ b → ∃ p k, prom_of (w_ctx w) c = Some p ∧
    w_prom w !! p = Some k ∧ m_blocked_thread k = Some this;
  ti_sole c c' p : c ∈ b ++ sleep_pqueue s → c' ∈ b ++ sleep_pqueue s →
    prom_of (w_ctx w) c = Some p → prom_of (w_ctx w) c' = Some p → c = c';
  ti_sleep c : c ∈ sleep_pqueue s → c ∈ b ↔ is_Some (prom_of (w_ctx w) c);
}.

(** [set_exception] on the promise the blocked context [c] waits for. *)
Lemma set_exception_wakes w this p e k s r b1 c b2 :
  w_prom w !! p = Some k → m_blocked_thread k = Some this →
  w_thr w !! this = Some s → w_self w = this →
  sched_rep (w_ctx w) s r (b1 ++ c :: b2) →
  sole_waiter (w_ctx w) s (b1 ++ c :: b2) p c →
  wp (set_exception p e) (returns (λ _ w',
    waiter_woken (with_prom w p (set_m_error (Some e) k)) this s c r (b1 ++ b2) w')) w.
Proof.
  intros Hk Hb Hs Hself Hrep Hsole. unfold set_exception. wp_steps.
  apply (promise_notify_here _ this p (set_m_error (Some e) k));
    [apply lookup_insert_eq|by left|done|].
  apply thread_notify_spec; try done. exists (set_m_error (Some e) k).
  split; [apply lookup_insert_eq|by left].
Qed.

Lemma woken_prom m m' c x : woken m m' c → x ≠ c → prom_of m' x = prom_of m x.
Proof.
  intros Hw Hne. destruct (Hw x) as [Hx|[-> _]]; [|done]. unfold prom_of.
  destruct (m' !! x), (m !! x); simpl in *; try done.
  apply Some_inj, (f_equal c_prom) in Hx. done.
Qed.

Lemma woken_resume m m' c x : woken m m' c → resume_time_of m' x = resume_time_of m x.
Proof.
  intros Hw. unfold resume_time_of.
  destruct (Hw x) as [Hx|[-> Hx]]; (destruct (m' !! _), (m !! _); simpl in *; try done);
    apply Some_inj, (f_equal c_resume_time) in Hx; done.
Qed.

Definition expired (m : ctx_map) (n : Z) (c : nat) : Prop := (resume_time_of m c ≤ n)%Z.
#[export] Instance expired_dec m n c : Decision (expired m n c) := decide (_ ≤ _)%Z.

(** Nothing but the thread's contexts, promises and scheduling state changes. *)
Record framed w w' (this : nat) (s s' : thread_private) : Prop := {
  fr_task : w_task w' = w_task w;
  fr_self : w_self w' = w_self w;
  fr_fresh : w_fresh w' = w_fresh w;
  fr_thr : delete this (w_thr w') = delete this (w_thr w);
  fr_ctx : ∀ c, is_Some (w_ctx w' !! c) ↔ is_Some (w_ctx w !! c);
  fr_state : same_but_sched s s';
}.

Lemma framed_refl w this s : framed w w this s s.
Proof. done. Qed.

Lemma framed_trans w w1 w2 this s s1 s2 :
  framed w w1 this s s1 → framed w1 w2 this s1 s2 → framed w w2 this s s2.
Proof.
  intros [? ? ? ? Hc1 ?] [? ? ? ? Hc2 ?].
  split; [congruence..|intros c; by rewrite Hc2|by etransitivity].
Qed.

Lemma framed_sched w w' this s s' {A} (f : thread_private → A) :
  (∀ s, f (set_sleep_pqueue [] (set_blocked None (set_ready_head None
    (set_ready_tail None s)))) = f s) → framed w w' this s s' → f s' = f s.
Proof.
  intros Hf [_ _ _ _ _ Hs]. apply (f_equal f) in Hs. by rewrite !Hf in Hs.
Qed.

Lemma framed_unsleep w this s l :
  framed w (set_w_thr (<[this := set_sleep_pqueue l s]> (w_thr w)) w) this s
    (set_sleep_pqueue l s).
Proof. split; simpl; try done. by rewrite delete_insert_eq. Qed.

Lemma framed_ready w this s m' s' :
  same_but_links (w_ctx w) m' → same_but_sched s s' →
  framed w (ready_upd w this m' s') this s s'.
Proof.
  intros Hm Hs. split; simpl; try done; [by rewrite delete_insert_eq|].
  intros c. rewrite <-(fmap_is_Some erase_links (m' !! c)).
  rewrite <-(same_but_links_field erase_links _ _ c (λ _, eq_refl) Hm).
  by rewrite fmap_is_Some.
Qed.

(** The invariant after a blocked context was taken out and made ready. *)
Lemma thread_inv_woken w w' this s r b1 c b2 p k k' :
  thread_inv w this s r (b1 ++ c :: b2) → w_prom w !! p = Some k →
  m_blocked_thread k' = m_blocked_thread k →
  waiter_woken (with_prom w p k') this s c r (b1 ++ b2) w' →
  ∃ s', thread_inv w' this s' (c :: r) (b1 ++ b2) ∧
    sleep_pqueue s' ≡ₚ filter (λ x, x ≠ c) (sleep_pqueue s) ∧
    w_prom w' = <[p := k']> (w_prom w) ∧ framed w w' this s s' ∧
    ∀ x, resume_time_of (w_ctx w') x = resume_time_of (w_ctx w) x.
Proof.
  intros [Hthr Hrep Hprom Hsole Hsleep] Hk Hk' (m' & s' & -> & Hrep' & Hsl & Hwk & Hst).
  pose proof (blocked_rep_NoDup _ _ _ (sr_blocked _ _ _ _ Hrep)) as Hnd.
  assert (Hcb : c ∉ b1 ++ b2) by (rewrite <-Permutation_middle in Hnd;
    by apply NoDup_cons in Hnd as [? _]).
  assert (Hsub : ∀ x, x ∈ b1 ++ b2 → x ∈ b1 ++ c :: b2 ∧ x ≠ c) by set_solver.
  assert (Hsub' : ∀ x, x ∈ sleep_pqueue s' → x ∈ sleep_pqueue s ∧ x ≠ c).
  { intros x. rewrite Hsl, list_elem_of_filter. tauto. }
  assert (Hpr : ∀ x, x ≠ c → prom_of m' x = prom_of (w_ctx w) x)
    by (intros; by eapply woken_prom).
  exists s'. split; [|split_and!; [done|done| |intros x; by eapply woken_resume]].
  2:{ split; simpl; [done..|by rewrite delete_insert_eq| |done].
      intros x. rewrite <-(fmap_is_Some erase_links (m' !! x)).
      destruct (Hwk x) as [-> |[_ ->]]; by rewrite !fmap_is_Some. }
  split; simpl.
  - apply lookup_insert_eq.
  - done.
  - intros x [Hx Hne]%Hsub. destruct (Hprom x Hx) as (q & kq & Hq & Hkq & Hbq).
    rewrite Hpr by done. exists q. destruct (decide (p = q)) as [<-|].
    + exists k'. split; [done|]. rewrite lookup_insert_eq. split; [done|]. congruence.
    + exists kq. by rewrite lookup_insert_ne.
  - intros x y q Hx Hy. assert (x ≠ c ∧ y ≠ c) as [??] by set_solver.
    rewrite !Hpr by done. apply Hsole; set_solver.
  - intros x [Hx Hne]%Hsub'. rewrite Hpr by done. rewrite <-(Hsleep x Hx). set_solver.
Qed.

(** Taking a context off the front of the sleep queue. *)
Lemma thread_inv_unsleep w this s r b c l :
  thread_inv w this s r b → c :: l ≡ₚ sleep_pqueue s →
  is_heap (sleep_priority_less (w_ctx w)) l →
  thread_inv (set_w_thr (<[this := set_sleep_pqueue l s]> (w_thr w)) w) this
    (set_sleep_pqueue l s) r b ∧ (c ∉ l) ∧ (c ∉ r) ∧ is_Some (w_ctx w !! c).
Proof.
  intros [Hthr [Hr Hb Hh Ha Hnd Hrb Hrs] Hprom Hsole Hsleep] Hl Hhl.
  assert (Hsub : ∀ x, x ∈ l → x ∈ sleep_pqueue s) by (intros x; rewrite <-Hl; set_solver).
  assert (Hc : c ∈ sleep_pqueue s) by (rewrite <-Hl; set_solver).
  rewrite <-Hl in Hnd. apply NoDup_cons in Hnd as [Hcl Hnd].
  split; [|split_and!; [done|set_solver|by apply Ha]].
  split; simpl; [apply lookup_insert_eq| |done| |].
  - split; simpl; try done; [intros x Hx; by apply Ha, Hsub|set_solver].
  - intros x y p Hx Hy. apply Hsole; set_solver.
  - intros x Hx. by apply Hsleep, Hsub.
Qed.

(** Any change of the ready list to contexts neither blocked nor asleep. *)
Lemma ready_relist_inv w this s r ys b m' s' :
  thread_inv w this s r b → ready_rep m' s' ys →
  same_but_next (w_ctx w) m' → same_but_ready s s' →
  (∀ c, c ∈ ys → (c ∉ b) ∧ (c ∉ sleep_pqueue s)) →
  thread_inv (ready_upd w this m' s') this s' ys b.
Proof.
  intros [Hthr [Hr Hb Hh Ha Hnd Hrb Hrs] Hprom Hsole Hsleep] Hr' Hm Hs Hys.
  pose proof (same_but_next_links _ _ Hm) as Hm'.
  assert (Hsl : sleep_pqueue s' = sleep_pqueue s) by by apply (f_equal sleep_pqueue) in Hs.
  assert (Hbl : blocked s = blocked s') by by apply (f_equal blocked) in Hs.
  assert (Hpr : ∀ x, prom_of m' x = prom_of (w_ctx w) x)
    by (intros; symmetry; by apply same_but_links_prom).
  split; simpl.
  - apply lookup_insert_eq.
  - split; rewrite ?Hsl; [done|by eapply same_but_next_blocked|by eapply sleep_heap_links|
      by eapply same_but_links_allocated|done|naive_solver|naive_solver].
  - intros x. rewrite Hpr. apply Hprom.
  - intros x y p. rewrite Hsl, !Hpr. apply Hsole.
  - intros x. rewrite Hsl, Hpr. apply Hsleep.
Qed.

(** Making ready a context that is neither blocked nor asleep. *)
Lemma ready_push_back_inv w this s r b c :
  thread_inv w this s r b → c ∉ r → c ∉ b → c ∉ sleep_pqueue s → is_Some (w_ctx w !! c) →
  wp (ready_push_back this c) (returns (λ _ w', ∃ m' s',
    w' = ready_upd w this m' s' ∧ thread_inv w' this s' (r ++ [c]) b ∧
    same_but_next (w_ctx w) m' ∧ same_but_ready s s')) w.
Proof.
  intros Hinv Hcr Hcb Hcs Hc.
  pose proof Hinv as [Hthr [Hr _ _ _ _ Hrb Hrs] _ _ _].
  eapply wp_mono, ready_push_back_spec; [|done..].
  intros [[]|?|?] w'; try done. intros (_ & m' & s' & -> & Hr' & Hm & Hs).
  exists m', s'. split; [done|]. split; [|done]. eapply ready_relist_inv; try done.
  intros x [Hx|Hx]%elem_of_app; [eauto|]. by apply list_elem_of_singleton in Hx as ->.
Qed.

(** Ready contexts [r] before and [r'] after the contexts [woken] were made
    ready: those that wait for a promise go in front, the others to the back,
    and the contexts that were ready keep their order in between. *)
Definition made_ready w (woken r r' : list nat) : Prop :=
  ∃ pre post, r' = pre ++ r ++ post ∧ pre ++ post ≡ₚ woken ∧
    (∀ c, c ∈ pre → is_Some (prom_of (w_ctx w) c)) ∧
    (∀ c, c ∈ post → prom_of (w_ctx w) c = None).

(** The thread after every context asleep until [n] at the latest was woken:
    those that wait for a promise find a timeout error in it, the others are
    simply ready; nothing else about the contexts and promises changes. *)
Definition expired_into w this (n : Z) s (r b : list nat) (w' : world T) s' r' b' : Prop :=
    thread_inv w' this s' r' b' ∧ framed w w' this s s' ∧
    sleep_pqueue s' ≡ₚ filter (λ c, ¬ expired (w_ctx w) n c) (sleep_pqueue s) ∧
    made_ready w (filter (expired (w_ctx w) n) (sleep_pqueue s)) r r' ∧
    (∀ c, c ∈ b' ↔ c ∈ b ∧ ¬ (c ∈ sleep_pqueue s ∧ expired (w_ctx w) n c)) ∧
    (∀ c p, c ∈ sleep_pqueue s → expired (w_ctx w) n c → prom_of (w_ctx w) c = Some p →
      w_prom w' !! p = set_m_error (Some future_wait_timeout) <$> w_prom w !! p) ∧
    (∀ p, (∀ c, c ∈ sleep_pqueue s → expired (w_ctx w) n c →
        prom_of (w_ctx w) c ≠ Some p) → w_prom w' !! p = w_prom w !! p) ∧
    (∀ c, erase_links <$> w_ctx w' !! c = erase_links <$> w_ctx w !! c ∨
      (c ∈ sleep_pqueue s ∧ expired (w_ctx w) n c ∧ erase_links <$> w_ctx w' !! c =
        set_c_prom None <$> (erase_links <$> w_ctx w !! c))).

Definition timeouts_expired w this (n : Z) s (r b : list nat) (w' : world T) : Prop :=
  ∃ s' r' b', expired_into w this n s r b w' s' r' b'.

(** One round of the loop on a context that waits for a promise. *)
Lemma expire_waiting w this s r b c p :
  thread_inv w this s r b → w_self w = this → c ∈ b → prom_of (w_ctx w) c = Some p →
  wp (set_exception p future_wait_timeout) (returns (λ _ w', ∃ s' b',
    thread_inv w' this s' (c :: r) b' ∧ framed w w' this s s' ∧
    sleep_pqueue s' ≡ₚ filter (λ x, x ≠ c) (sleep_pqueue s) ∧
    (∀ x, x ∈ b' ↔ x ∈ b ∧ x ≠ c) ∧
    woken (w_ctx w) (w_ctx w') c ∧
    ∀ q, w_prom w' !! q = if decide (p = q)
      then set_m_error (Some future_wait_timeout) <$> w_prom w !! q
      else w_prom w !! q)) w.
Proof.
  intros Hinv Hself Hin Hp. pose proof Hinv as [Hthr Hrep Hprom Hsole Hsleep].
  destruct (Hprom c Hin) as (q & k & Hq & Hk & Hbl). rewrite Hp in Hq. simplify_eq.
  apply list_elem_of_split in Hin as (b1 & b2 & ->).
  pose proof (blocked_rep_NoDup _ _ _ (sr_blocked _ _ _ _ Hrep)) as Hnd.
  assert (Hcb : c ∉ b1 ++ b2) by (rewrite <-Permutation_middle in Hnd;
    by apply NoDup_cons in Hnd as [? _]).
  eapply wp_mono, set_exception_wakes; try done.
  2:{ split; [done|]. intros x Hx Hpx. eapply Hsole; [done| |done|done]. set_solver. }
  intros [[]|?|?] w'; try done. intros Hw'.
  destruct (thread_inv_woken _ _ _ _ _ _ _ _ _ _
    (set_m_error (Some future_wait_timeout) k) Hinv Hk eq_refl Hw')
    as (s' & Hinv' & Hsl & Hpr & Hfr & Hres).
  destruct Hw' as (m' & s'' & -> & _ & _ & Hwk & _).
  exists s', (b1 ++ b2). split_and!; [done|done|done|set_solver|done|].
  intros x. rewrite Hpr, lookup_insert. case_decide; [|done]. subst. by rewrite Hk.
Qed.

Lemma expired_none m n (c : nat) (l : list nat) :
  is_heap (sleep_priority_less m) (c :: l) → ¬ expired m n c →
  ∀ x, x ∈ c :: l → ¬ expired m n x.
Proof.
  intros Hh Hc x Hx. unfold expired in *.
  assert (Hlt : sleep_priority_less m c x = false) by by apply (heap_front_max _ (c :: l)).
  unfold sleep_priority_less in Hlt. case_bool_decide; [done|lia].
Qed.

#[export] Instance made_ready_proper w :
  Proper ((≡ₚ) ==> eq ==> eq ==> iff) (made_ready w).
Proof. intros xs ys Hxs r ? <- r' ? <-. unfold made_ready. by setoid_rewrite Hxs. Qed.

Lemma made_ready_refl w r : made_ready w [] r r.
Proof. exists [], []. rewrite app_nil_r. split_and!; [done|done|set_solver|set_solver]. Qed.

Lemma made_ready_nil w r r' : made_ready w [] r r' → r' = r.
Proof.
  intros (pre & post & -> & Hp & _). symmetry in Hp. apply Permutation_nil_l in Hp.
  destruct pre; [|done]. simpl in *. subst. by rewrite app_nil_r.
Qed.

Lemma made_ready_elem w xs r r' c : made_ready w xs r r' → c ∈ r' ↔ c ∈ r ∨ c ∈ xs.
Proof. intros (pre & post & -> & <- & _). set_solver. Qed.

Lemma made_ready_trans w w1 c l l1 r r1 r2 :
  made_ready w [c] r r1 → made_ready w1 l1 r1 r2 →
  (∀ x, x ≠ c → prom_of (w_ctx w1) x = prom_of (w_ctx w) x) → l1 ≡ₚ l → c ∉ l →
  made_ready w (c :: l) r r2.
Proof.
  intros (pre & post & -> & Hp & Hpre & Hpost) (pre1 & post1 & -> & Hp1 & Hpre1 & Hpost1)
    Hpr Hl Hc. rewrite Hl in Hp1.
  assert (Hne : ∀ x, x ∈ pre1 ++ post1 → x ≠ c) by (intros x; rewrite Hp1; by intros ? ->).
  exists (pre1 ++ pre), (post ++ post1). split_and!.
  - by rewrite <-!app_assoc.
  - rewrite <-Hp1, app_assoc, <-(app_assoc pre1), Hp. rewrite <-app_assoc. simpl.
    by rewrite Permutation_middle.
  - intros x [Hx|Hx]%elem_of_app; [|by apply Hpre]. rewrite <-Hpr; [by apply Hpre1|].
    apply Hne. set_solver.
  - intros x [Hx|Hx]%elem_of_app; [by apply Hpost|]. rewrite <-Hpr; [by apply Hpost1|].
    apply Hne. set_solver.
Qed.

(** One round of the loop, as a step towards the whole effect. *)
Lemma timeouts_expired_step w w1 w2 this n s s1 r r1 b b1 c l :
  sleep_pqueue s ≡ₚ c :: l → NoDup (sleep_pqueue s) → expired (w_ctx w) n c →
  (∀ x y p, x ∈ sleep_pqueue s → y ∈ sleep_pqueue s → prom_of (w_ctx w) x = Some p →
    prom_of (w_ctx w) y = Some p → x = y) →
  sleep_pqueue s1 ≡ₚ l → made_ready w [c] r r1 → framed w w1 this s s1 →
  (∀ x, x ∈ b1 ↔ x ∈ b ∧ x ≠ c) →
  woken (w_ctx w) (w_ctx w1) c →
  (∀ q, w_prom w1 !! q = if decide (prom_of (w_ctx w) c = Some q)
    then set_m_error (Some future_wait_timeout) <$> w_prom w !! q else w_prom w !! q) →
  timeouts_expired w1 this n s1 r1 b1 w2 → timeouts_expired w this n s r b w2.
Proof.
  intros Hl Hnd Hexp Hsole Hsl Hr1 Hself Hb1 Hwk Hprom
    (s' & r' & b' & Hinv & Hself' & Hs' & Hr' & Hb' & Herr & Hkeep & Hctx).
  assert (Hres : ∀ x, resume_time_of (w_ctx w1) x = resume_time_of (w_ctx w) x)
    by (intros x; by eapply woken_resume).
  assert (Hpr : ∀ x, x ≠ c → prom_of (w_ctx w1) x = prom_of (w_ctx w) x)
    by (intros x; by eapply woken_prom).
  assert (Hcl : c ∉ l) by (rewrite Hl in Hnd; by apply NoDup_cons in Hnd as [? _]).
  assert (Hiff : ∀ x, expired (w_ctx w1) n x ↔ expired (w_ctx w) n x)
    by (intros x; unfold expired; by rewrite Hres).
  assert (Hin : ∀ x, x ∈ sleep_pqueue s ↔ x = c ∨ x ∈ l)
    by (intros x; rewrite Hl; set_solver).
  assert (Hin1 : ∀ x, x ∈ sleep_pqueue s1 ↔ x ∈ l) by (intros x; by rewrite Hsl).
  exists s', r', b'. split_and!; [done|by eapply framed_trans| | | | | |].
  - rewrite Hs', Hsl, Hl, filter_cons_False by naive_solver.
    apply reflexive_eq, list_filter_iff. intros x. by rewrite Hiff.
  - rewrite Hl, filter_cons_True by done.
    eapply made_ready_trans; [exact Hr1|exact Hr'|exact Hpr| |
      by rewrite list_elem_of_filter; intros [_ ?]].
    rewrite Hsl. apply reflexive_eq, list_filter_iff. intros x. by rewrite Hiff.
  - intros x. rewrite Hb', Hb1, Hin1, Hiff, Hin. clear -Hexp Hcl.
    destruct (decide (x = c)); naive_solver.
  - intros x p Hx Hex Hp. destruct (decide (x = c)) as [->|Hne].
    + rewrite Hkeep.
      * rewrite Hprom. by rewrite decide_True.
      * intros y Hy _ Hpy. assert (y ≠ c) by (intros ->; by apply Hcl, Hin1).
        rewrite Hpr in Hpy by done. destruct (Hsole c y p); try done; apply Hin; auto.
        right. by apply Hin1.
    + rewrite (Herr x); [|apply Hin1; naive_solver|by apply Hiff|by rewrite Hpr].
      rewrite Hprom. case_decide as Hpc; [|done].
      destruct Hne. eapply Hsole; [done| |done|done]. apply Hin. by left.
  - intros p Hnone. rewrite Hkeep.
    + rewrite Hprom, decide_False; [done|]. apply Hnone; [apply Hin; by left|done].
    + intros x Hx Hex. rewrite Hpr by (intros ->; by apply Hcl, Hin1).
      apply Hnone; [apply Hin; right; by apply Hin1|by apply Hiff].
  - intros x. destruct (Hctx x) as [-> |(Hx & Hex & Heq)].
    + destruct (Hwk x) as [-> |[-> ->]]; [by left|]. right.
      split_and!; [apply Hin; by left|done|done].
    + right. split_and!; [apply Hin; right; by apply Hin1|by apply Hiff|]. rewrite Heq.
      destruct (Hwk x) as [-> |[-> _]]; [done|]. by destruct Hcl; apply Hin1.
Qed.

Lemma timeouts_expired_none w this n s r b :
  thread_inv w this s r b → (∀ c, c ∈ sleep_pqueue s → ¬ expired (w_ctx w) n c) →
  timeouts_expired w this n s r b w.
Proof.
  intros Hinv Hnone. exists s, r, b. unfold expired_into. rewrite filter_all by done.
  assert (filter (expired (w_ctx w) n) (sleep_pqueue s) = []) as ->.
  { apply elem_of_nil_inv. intros x [Hx Hin]%list_elem_of_filter. by apply (Hnone x). }
  split_and!; [done|done|done|apply made_ready_refl|naive_solver|naive_solver|done|by left].
Qed.

Lemma timeouts_loop_spec fuel w this n s r b :
  thread_inv w this s r b → w_self w = this → length (sleep_pqueue s) ≤ fuel →
  wp (timeouts_loop fuel this n)
    (returns (λ _ w', timeouts_expired w this n s r b w')) w.
Proof.
  revert w s r b. induction fuel as [|fuel IH]; intros w s r b Hinv Hself Hf;
    pose proof Hinv as [Hthr Hrep Hprom Hsole Hsleep];
    simpl; rewrite wp_bind, wp_get_thr, Hthr, wp_bind, wp_gets;
    destruct (sleep_pqueue s) as [|c l] eqn:Hsl; simpl in Hf; try lia.
  1,2: rewrite wp_ret; apply timeouts_expired_none; [done|rewrite Hsl; set_solver].
  assert (is_Some (w_ctx w !! c)) as [k Hk]
    by (apply (sr_alloc _ _ _ _ Hrep); rewrite Hsl; set_solver).
  rewrite wp_bind, wp_get_ctx, Hk.
  assert (Hres : resume_time_of (w_ctx w) c = c_resume_time k)
    by (unfold resume_time_of; by rewrite Hk).
  pose proof (sr_heap _ _ _ _ Hrep) as Hheap. rewrite Hsl in Hheap.
  case_bool_decide as Hexp.
  2:{ rewrite wp_ret. apply timeouts_expired_none; [done|]. rewrite Hsl.
      apply expired_none; [done|]. unfold expired. lia. }
  destruct (heap_pop_spec _ _ c Hheap eq_refl) as (Hh' & Hl & _).
  set (l' := pop_back _) in *. rewrite wp_bind, wp_mod_thr, Hthr.
  assert (Hperm : sleep_pqueue s ≡ₚ c :: l') by by rewrite Hsl, Hl.
  assert (Hnd : NoDup (sleep_pqueue s)) by apply Hrep.
  assert (Hexp' : expired (w_ctx w) n c) by (unfold expired; lia).
  assert (Hsole' : ∀ x y p, x ∈ sleep_pqueue s → y ∈ sleep_pqueue s →
    prom_of (w_ctx w) x = Some p → prom_of (w_ctx w) y = Some p → x = y).
  { intros x y p Hx Hy. rewrite Hsl in *. apply Hsole; set_solver. }
  destruct (thread_inv_unsleep w this s r b c l' Hinv) as (Hinv1 & Hcl & Hcr & _);
    [by rewrite Hsl, Hl|done|].
  set (w1 := set_w_thr _ w) in *.
  assert (Hlen : length l' ≤ fuel) by (apply Permutation_length in Hl; simpl in Hl; lia).
  assert (Hprom_c : prom_of (w_ctx w) c = c_prom k) by (unfold prom_of; by rewrite Hk).
  pose proof (Hsleep c ltac:(set_solver)) as Hcb. rewrite Hprom_c in Hcb.
  rewrite wp_bind. destruct (c_prom k) as [p|] eqn:Hp.
  - assert (c ∈ b) as Hin by by apply Hcb.
    eapply wp_mono, (expire_waiting w1); [|done..].
    intros [[]|?|?] w2; try done.
    intros (s2 & b2 & Hinv2 & Hfr2 & Hs2 & Hb2 & Hwk2 & Hprom2).
    simpl in Hs2. rewrite filter_all in Hs2 by set_solver.
    eapply wp_mono, (IH w2 s2);
      [|done|by rewrite (fr_self _ _ _ _ _ Hfr2)|by rewrite Hs2].
    intros [[]|?|?] w3; try done. intros Hw3.
    eapply (timeouts_expired_step w w2 w3 this n s s2 r (c :: r) b b2 c l');
      try done; [|eapply framed_trans; [apply framed_unsleep|done]|].
    { exists [c], []. split_and!; [by rewrite app_nil_r|done| |set_solver].
      intros x ->%list_elem_of_singleton. rewrite Hprom_c. eauto. }
    intros q. rewrite Hprom2, Hprom_c. by repeat case_decide; simplify_eq.
  - assert (c ∉ b) as Hin by (intros Hin; by destruct (proj1 Hcb Hin)).
    eapply wp_mono, (ready_push_back_inv w1); [|done|done|done|done|by exists k].
    intros [[]|?|?] w2; try done. intros (m2 & s2 & Hw2 & Hinv2 & Hm2 & Hs2).
    pose proof (same_but_next_links _ _ Hm2) as Hm2'. simpl in Hm2'.
    assert (Hsl2 : sleep_pqueue s2 = l') by by apply (f_equal sleep_pqueue) in Hs2.
    assert (Hself2 : w_self w2 = this) by by subst w2.
    eapply wp_mono, (IH w2 s2); [|done|done|by rewrite Hsl2].
    intros [[]|?|?] w3; try done. intros Hw3.
    eapply (timeouts_expired_step w w2 w3 this n s s2 r (r ++ [c]) b b c l');
      try done; subst w2; simpl.
    + by rewrite Hsl2.
    + exists [], [c]. split_and!; [done|done|set_solver|].
      by intros x ->%list_elem_of_singleton; rewrite Hprom_c.
    + eapply framed_trans; [apply framed_unsleep|].
      apply framed_ready; [done|by apply same_but_lists_sched, same_but_ready_lists].
    + intros x. split; [|tauto]. intros Hx. split; [done|]. by intros ->.
    + intros x. left. symmetry. by apply same_but_links_field.
    + intros q. by rewrite decide_False by congruence.
Qed.

Lemma thread_inv_tick w this s r b n :
  thread_inv w this s r b → thread_inv (set_w_ticks n w) this s r b.
Proof. intros [H1 H2 H3 H4 H5]. by split. Qed.

Definition sch_allocated w (s : thread_private) : Prop :=
  ∀ t, t ∈ task_sch_queue s → is_Some (w_task w !! t).

(** [next_timeout] bounds the resume time of every sleeping context. *)
Lemma next_timeout_spec w this s r b :
  thread_inv w this s r b → sch_allocated w s →
  wp (next_timeout this) (returns (λ v w', w' = w ∧
    (∀ c, c ∈ sleep_pqueue s → (v ≤ resume_time_of (w_ctx w) c)%Z))) w.
Proof.
  intros [Hthr Hrep _ _ _] Ht. unfold next_timeout.
  rewrite wp_bind, wp_get_thr, Hthr, wp_bind.
  assert (Hsleep : ∀ v0, wp (match sleep_pqueue s with
    | c :: _ => k ← get_ctx c; mret (Z.min v0 (c_resume_time k))
    | [] => mret v0
    end) (returns (λ v w', w' = w ∧
      ∀ c, c ∈ sleep_pqueue s → (v ≤ resume_time_of (w_ctx w) c)%Z)) w).
  { intros v0. destruct (sleep_pqueue s) as [|c l] eqn:Hsl.
    - rewrite wp_ret. split; [done|]. set_solver.
    - assert (is_Some (w_ctx w !! c)) as [k Hk]
        by (apply (sr_alloc _ _ _ _ Hrep); rewrite Hsl; set_solver).
      rewrite wp_bind, wp_get_ctx, Hk, wp_ret. split; [done|]. intros x Hx.
      assert (Hlt : sleep_priority_less (w_ctx w) c x = false).
      { apply (heap_front_max _ (c :: l)); [|done|done]. rewrite <-Hsl. apply Hrep. }
      unfold sleep_priority_less in Hlt.
      assert (resume_time_of (w_ctx w) c = c_resume_time k)
        by (unfold resume_time_of; by rewrite Hk).
      case_bool_decide; [done|lia]. }
  destruct (task_sch_queue s) as [|t l] eqn:Hsch; [apply Hsleep|].
  destruct (Ht t) as [kt Hkt]; [rewrite Hsch; set_solver|].
  rewrite wp_bind, wp_get_task, Hkt, wp_ret. apply Hsleep.
Qed.

(** What the value returned by [check_for_timeouts] says. *)
Definition timeout_value w s (n v : Z) : Prop :=
  (v = time_point_max ∧ sleep_pqueue s = [] ∧ task_sch_queue s = []) ∨
  ((n < v)%Z ∧ ∀ c, c ∈ sleep_pqueue s → (v ≤ resume_time_of (w_ctx w) c)%Z) ∨
  v = time_point_min.

Lemma check_for_timeouts_inv w this s r b :
  thread_inv w this s r b → w_self w = this → sch_allocated w s →
  wp (check_for_timeouts this) (returns (λ v w',
    timeouts_expired w this (now_at (w_ticks w)) s r b w' ∧
    timeout_value w s (now_at (w_ticks w)) v)) w.
Proof.
  intros Hinv Hself Ht. unfold check_for_timeouts.
  rewrite wp_bind, wp_get_thr, (ti_thr _ _ _ _ _ Hinv).
  case_bool_decide as Hempty.
  { rewrite wp_ret. destruct Hempty as [Hsl Hsch]. split; [|by left].
    apply timeouts_expired_none; [done|rewrite Hsl; set_solver]. }
  rewrite wp_bind. eapply wp_mono, next_timeout_spec; [|done..].
  intros [v|?|?] w1; try done. intros [-> Hv].
  rewrite wp_bind, wp_now. set (n := now_at (w_ticks w)) in *.
  set (w1 := set_w_ticks _ w).
  assert (Hinv1 : thread_inv w1 this s r b) by by apply thread_inv_tick.
  case_bool_decide as Hlt.
  - rewrite wp_ret. split; [|right; left; done].
    assert (Hexp : timeouts_expired w1 this n s r b w1).
    { apply timeouts_expired_none; [done|]. intros c Hc. unfold expired.
      specialize (Hv c Hc). simpl in *. lia. }
    destruct Hexp as (s' & r' & b' & H1 & H2 & H3).
    exists s', r', b'. split; [done|]. split; [|done]. destruct H2. by split.
  - rewrite wp_bind. eapply wp_mono, (timeouts_loop_spec _ w1); [|done..].
    intros [[]|?|?] w2; try done. intros (s' & r' & b' & H1 & H2 & H3).
    rewrite wp_ret. split; [|by right; right].
    exists s', r', b'. split; [done|]. split; [|done].
    destruct H2 as [H21 H22 H23 H24 H25 H26]. by split.
Qed.

Lemma check_for_timeouts_step w this s r b :
  thread_inv w this s r b → w_self w = this → sch_allocated w s →
  wp (check_for_timeouts this) (returns (λ _ w', ∃ s' r' b',
    thread_inv w' this s' r' b' ∧ framed w w' this s s' ∧
    (∀ c, c ∈ r' → c ∈ r ∨ c ∈ sleep_pqueue s) ∧
    (∀ c, c ∈ b' → c ∈ b) ∧ (∀ c, c ∈ sleep_pqueue s' → c ∈ sleep_pqueue s) ∧
    (sleep_pqueue s = [] → r' = r))) w.
Proof.
  intros Hinv Hself Ht. eapply wp_mono, check_for_timeouts_inv; [|done..].
  intros [v|?|?] w'; try done. intros [(s' & r' & b' & H1 & H2 & Hs & Hr & Hb & _) _].
  exists s', r', b'. split_and!; [done|done| | | |].
  - intros c. rewrite (made_ready_elem _ _ _ _ _ Hr), list_elem_of_filter. tauto.
  - intros c. rewrite Hb. tauto.
  - intros c. rewrite Hs, list_elem_of_filter. tauto.
  - intros Hnil. rewrite Hnil in Hr. by apply made_ready_nil in Hr.
Qed.

(** Only the running context and the ready list of the thread change. *)
Lemma thread_inv_set_current w this s r b c :
  thread_inv w this s r b →
  thread_inv (set_w_thr (<[this := set_current c s]> (w_thr w)) w) this
    (set_current c s) r b.
Proof.
  intros [H1 [H21 H22 H23 H24 H25 H26 H27] H3 H4 H5].
  split; simpl; [apply lookup_insert_eq|by split|done|done|done].
Qed.

(** A context that is in none of the thread's lists may change as it likes. *)
Lemma thread_inv_set_ctx w this s r b c k :
  thread_inv w this s r b → c ∉ r → c ∉ b → c ∉ sleep_pqueue s →
  thread_inv (set_w_ctx (<[c := k]> (w_ctx w)) w) this s r b.
Proof.
  intros [H1 [(H211 & H212 & H213) (H221 & H222) H23 H24 H25 H26 H27] H3 H4 H5] Hr Hb Hs.
  assert (Hlk : ∀ (xs : list nat) x, c ∉ xs → x ∈ xs → <[c:=k]> (w_ctx w) !! x = w_ctx w !! x)
    by (intros xs x ? ?; apply lookup_insert_ne; naive_solver).
  assert (Hal : ∀ xs : list nat, c ∉ xs → allocated (w_ctx w) xs → allocated (<[c:=k]> (w_ctx w)) xs).
  { intros xs Hc Ha x Hx. rewrite (Hlk xs) by done. by apply Ha. }
  split; simpl; [done| | | |].
  - split; try done; [split_and!; [|done|by apply Hal]|split; [|by apply Hal]| |by apply Hal].
    + eapply lseg_ext; [|done]. intros x Hx. unfold next_of. by rewrite (Hlk r).
    + eapply lseg_ext; [|done]. intros x Hx. unfold next_blocked_of. by rewrite (Hlk b).
    + eapply is_heap_ext; [|done]. intros x y Hx Hy.
      unfold sleep_priority_less, resume_time_of. by rewrite !(Hlk (sleep_pqueue s)).
  - intros x Hx. unfold prom_of. rewrite (Hlk b) by done. by apply H3.
  - intros x x' p Hx Hx'. unfold prom_of. rewrite !(Hlk (b ++ sleep_pqueue s)) by set_solver. by apply H4.
  - intros x Hx. unfold prom_of. rewrite (Hlk (sleep_pqueue s)) by done. by apply H5.
Qed.

Lemma thread_inv_new_ctx w this s r b :
  thread_inv w this s r b → w_ctx w !! w_fresh w = None →
  let w' := set_w_ctx (<[w_fresh w := new_cmt_context]> (w_ctx w))
              (set_w_fresh (S (w_fresh w)) w) in
  thread_inv w' this s r b ∧
  (w_fresh w ∉ r) ∧ (w_fresh w ∉ b) ∧ (w_fresh w ∉ sleep_pqueue s).
Proof.
  intros Hinv Hfr. pose proof (ti_rep _ _ _ _ _ Hinv) as [H21 H22 _ H24 _ _ _].
  assert (Hout : ∀ xs : list nat, allocated (w_ctx w) xs → w_fresh w ∉ xs).
  { intros xs Ha Hin. destruct (Ha _ Hin). congruence. }
  assert (Hr := Hout _ (proj2 (proj2 H21))). assert (Hb := Hout _ (proj2 H22)).
  assert (Hs := Hout _ H24). split; [|done].
  apply (thread_inv_set_ctx (set_w_fresh (S (w_fresh w)) w)); try done. by destruct Hinv; split.
Qed.

Lemma ready_pop_front_inv w this s c r b :
  thread_inv w this s (c :: r) b →
  wp (ready_pop_front this) (returns (λ p w', p = Some c ∧ ∃ m' s',
    w' = ready_upd w this m' s' ∧ thread_inv w' this s' r b ∧
    same_but_next (w_ctx w) m' ∧ same_but_ready s s')) w.
Proof.
  intros Hinv. pose proof Hinv as [Hthr [Hr _ _ _ _ Hrb Hrs] _ _ _].
  eapply wp_mono, ready_pop_front_spec; [|done..].
  intros [p|?|?] w'; try done. intros (-> & m' & s' & -> & Hr' & Hm & Hs).
  split; [done|]. exists m', s'. split; [done|]. split; [|done].
  eapply ready_relist_inv; try done. intros x Hx. split; [apply Hrb|apply Hrs]; by right.
Qed.

Lemma framed_ready_next w this s m' s' :
  same_but_next (w_ctx w) m' → same_but_ready s s' →
  framed w (ready_upd w this m' s') this s s'.
Proof.
  intros Hm Hs. apply framed_ready; [by apply same_but_next_links|].
  by apply same_but_lists_sched, same_but_ready_lists.
Qed.

Lemma framed_current w w' this s s' : framed w w' this s s' → current s' = current s.
Proof. intros Hf. by apply (framed_sched _ _ _ _ _ current) in Hf. Qed.

Lemma framed_sch w w' this s s' :
  framed w w' this s s' → sch_allocated w s → sch_allocated w' s'.
Proof.
  intros Hf Ha t. rewrite (fr_task _ _ _ _ _ Hf).
  rewrite (framed_sched _ _ _ _ _ task_sch_queue (λ _, eq_refl) Hf). apply Ha.
Qed.

(** The jump from [cur] when the contexts [r] are ready: to the first of them,
    or to a new context; [cur] goes to the back if it is to be rescheduled. *)
Definition jumped w this s (r b : list nat) (cur : nat) (reschedule : bool) :
    outcome exn switch → world T → Prop := λ o w',
  let back := if reschedule then [cur] else [] in
  match r with
  | [] => o = Ret (Switch cur (w_fresh w) true) ∧ ∃ m' s',
      w' = set_w_fresh (S (w_fresh w)) (ready_upd w this m' s') ∧
      thread_inv w' this s' back b ∧
      same_but_next (<[w_fresh w := new_cmt_context]> (w_ctx w)) m' ∧
      same_but_ready (set_current (Some (w_fresh w)) s) s'
  | x :: rs =>
      if decide (x = cur) then o = Undef AssertFailed
      else o = Ret (Switch cur x false) ∧ ∃ m' s',
        w' = ready_upd w this m' s' ∧ thread_inv w' this s' (rs ++ back) b ∧
        same_but_next (w_ctx w) m' ∧ same_but_ready (set_current (Some x) s) s'
  end.

(** Pushing [cur] back, if it is to be rescheduled. *)
Lemma reschedule_inv w this s r b cur (reschedule : bool) :
  thread_inv w this s r b → is_Some (w_ctx w !! cur) →
  (reschedule → (cur ∉ r) ∧ (cur ∉ b) ∧ (cur ∉ sleep_pqueue s)) →
  wp (when reschedule (ready_push_back this cur)) (returns (λ _ w', ∃ m' s',
    w' = ready_upd w this m' s' ∧
    thread_inv w' this s' (r ++ if reschedule then [cur] else []) b ∧
    same_but_next (w_ctx w) m' ∧ same_but_ready s s')) w.
Proof.
  intros Hinv Hc Hcb. destruct reschedule; simpl.
  - destruct Hcb as (? & ? & ?); [done|]. by eapply ready_push_back_inv.
  - rewrite wp_ret, app_nil_r. exists (w_ctx w), s.
    assert (ready_upd w this (w_ctx w) s = w) as ->; [|done].
    unfold ready_upd. rewrite insert_id by apply Hinv. by destruct w.
Qed.

Lemma jump_from_spec w this s r b cur (reschedule : bool) :
  thread_inv w this s r b → is_Some (w_ctx w !! cur) →
  (reschedule → (cur ∉ tail r) ∧ (cur ∉ b) ∧ (cur ∉ sleep_pqueue s)) → w_ctx w !! w_fresh w = None →
  wp (jump_from this cur reschedule) (jumped w this s r b cur reschedule) w.
Proof.
  intros Hinv Hc Hcb Hfr. unfold jump_from, jumped.
  rewrite wp_bind, wp_get_thr, (ti_thr _ _ _ _ _ Hinv).
  rewrite (ready_rep_head _ _ _ (sr_ready _ _ _ _ (ti_rep _ _ _ _ _ Hinv))).
  destruct r as [|x rs]; simpl.
  - rewrite wp_bind. eapply wp_mono, reschedule_inv; [|done..].
    intros [[]|?|?] w1; try done. intros (m1 & s1 & -> & Hinv1 & Hm1 & Hs1).
    unfold alloc_ctx. wp_steps.
    destruct (thread_inv_new_ctx _ _ _ _ _ Hinv1) as (Hinv2 & _).
    { simpl. by apply (same_but_next_None (w_ctx w)). }
    apply (thread_inv_set_current _ _ _ _ _ (Some (w_fresh w))) in Hinv2.
    split; [done|].
    exists (<[w_fresh w:=new_cmt_context]> m1), (set_current (Some (w_fresh w)) s1).
    simpl in *. unfold ready_upd, set_w_fresh, set_w_thr, set_w_ctx in *. simpl in *.
    rewrite insert_insert_eq in *. split_and!; [done|done| |].
    + unfold same_but_next in *. by rewrite !fmap_insert, Hm1.
    + unfold same_but_ready in *. by apply (f_equal (set_current (Some (w_fresh w)))) in Hs1.
  - rewrite wp_bind. eapply wp_mono, ready_pop_front_inv; [|done].
    intros [p|?|?] w1; try done. intros (-> & m1 & s1 & -> & Hinv1 & Hm1 & Hs1).
    rewrite wp_bind, wp_deref, wp_bind, wp_check. case_decide as Hx.
    { by rewrite bool_decide_eq_false_2 by naive_solver. }
    rewrite bool_decide_eq_true_2 by done. rewrite wp_bind.
    assert (Hsl : sleep_pqueue s1 = sleep_pqueue s) by by apply (f_equal sleep_pqueue) in Hs1.
    eapply wp_mono, reschedule_inv;
      [|done| |by rewrite Hsl].
    2:{ eapply (same_but_next_allocated _ _ [cur] Hm1); [|by left].
        by intros y ->%list_elem_of_singleton. }
    intros [[]|?|?] w2; try done. intros (m2 & s2 & -> & Hinv2 & Hm2 & Hs2).
    wp_steps.
    apply (thread_inv_set_current _ _ _ _ _ (Some x)) in Hinv2.
    split; [done|]. exists m2, (set_current (Some x) s2).
    unfold ready_upd, set_w_thr, set_w_ctx in *. simpl in *.
    rewrite !insert_insert_eq in *. split_and!; [done|done|by etransitivity|].
    assert (Hs : same_but_ready s s2) by by etransitivity.
    unfold same_but_ready in *. by apply (f_equal (set_current (Some x))) in Hs.
Qed.

(** The whole of [start_next_task]: first the timeouts, then the jump. *)
Lemma start_next_task_spec w this s r b cur (reschedule : bool) :
  thread_inv w this s r b → w_self w = this → sch_allocated w s →
  current s = Some cur → is_Some (w_ctx w !! cur) → cur ∉ r →
  (reschedule → (cur ∉ b) ∧ (cur ∉ sleep_pqueue s)) → w_ctx w !! w_fresh w = None →
  wp (start_next_task this reschedule) (λ o w', ∃ w1 s1 r1 b1,
    expired_into w this (now_at (w_ticks w)) s r b w1 s1 r1 b1 ∧
    jumped w1 this s1 r1 b1 cur reschedule o w') w.
Proof.
  intros Hinv Hself Hsch Hcur Hc Hcr Hcb Hfr. unfold start_next_task. rewrite wp_bind.
  eapply wp_mono, check_for_timeouts_inv; [|done..].
  intros [v|?|?] w1; try done. intros [(s1 & r1 & b1 & Hexp) _].
  pose proof Hexp as (Hinv1 & Hf & Hsl & Hr & Hb & _).
  unfold ensure_current. rewrite !wp_bind, wp_get_thr, (ti_thr _ _ _ _ _ Hinv1).
  rewrite (framed_current _ _ _ _ _ Hf), Hcur, wp_ret.
  eapply wp_mono, jump_from_spec; [|done| | |].
  - intros o w' Ho. by exists w1, s1, r1, b1.
  - by apply (fr_ctx _ _ _ _ _ Hf).
  - intros Hre. destruct (Hcb Hre) as [Hcb' Hcs].
    rewrite Hb, Hsl, list_elem_of_filter. split; [|tauto].
    intros Hin. assert (Hr1 : cur ∈ r1) by (destruct r1; [done|by right]).
    apply (made_ready_elem _ _ _ _ _ Hr) in Hr1. rewrite list_elem_of_filter in Hr1. tauto.
  - rewrite (fr_fresh _ _ _ _ _ Hf). destruct (w_ctx w1 !! w_fresh w) eqn:Hw; [|done].
    assert (is_Some (w_ctx w !! w_fresh w)) as [? ?] by (apply (fr_ctx _ _ _ _ _ Hf); eauto).
    congruence.
Qed.

(** Context [cur] runs on thread [this]: it is in none of the thread's lists,
    and no context lives at an address not handed out yet. *)
Record running w this s r b cur : Prop := {
  ru_inv : thread_inv w this s r b;
  ru_self : w_self w = this;
  ru_sch : sch_allocated w s;
  ru_cur : current s = Some cur;
  ru_alloc : is_Some (w_ctx w !! cur);
  ru_ready : cur ∉ r;
  ru_blocked : cur ∉ b;
  ru_sleep : cur ∉ sleep_pqueue s;
  ru_fresh a : w_fresh w ≤ a → w_ctx w !! a = None;
}.

Lemma running_set_ctx w this s r b c k :
  running w this s r b c → running (set_w_ctx (<[c := k]> (w_ctx w)) w) this s r b c.
Proof.
  intros [Hinv ? ? ? [kc Hkc] ? ? ? Hfr]. split; try done; simpl.
  - by apply thread_inv_set_ctx.
  - rewrite lookup_insert_eq. eauto.
  - intros a Ha. rewrite lookup_insert_ne; [by apply Hfr|]. intros <-. by rewrite Hfr in Hkc.
Qed.

Lemma framed_fresh w w' this s s' :
  framed w w' this s s' → (∀ a, w_fresh w ≤ a → w_ctx w !! a = None) →
  ∀ a, w_fresh w' ≤ a → w_ctx w' !! a = None.
Proof.
  intros Hf Hfr a Ha. rewrite (fr_fresh _ _ _ _ _ Hf) in Ha.
  destruct (w_ctx w' !! a) eqn:Hw; [|done].
  assert (is_Some (w_ctx w !! a)) as [? ?] by (apply (fr_ctx _ _ _ _ _ Hf); eauto).
  by rewrite Hfr in *.
Qed.

(** A jump leaves the thread running the context jumped to. *)
Lemma jumped_running w this s r b cur (reschedule : bool) sw w' :
  jumped w this s r b cur reschedule (Ret sw) w' → thread_inv w this s r b →
  w_self w = this → sch_allocated w s → is_Some (w_ctx w !! cur) →
  (∀ a, w_fresh w ≤ a → w_ctx w !! a = None) →
  ∃ s', running w' this s' (tail r ++ if reschedule then [cur] else []) b (sw_next sw) ∧
    sw = Switch cur (default (w_fresh w) (head r)) (bool_decide (r = [])) ∧
    w_prom w' = w_prom w ∧ w_task w' = w_task w ∧ w_ticks w' = w_ticks w ∧
    sleep_pqueue s' = sleep_pqueue s ∧ task_sch_queue s' = task_sch_queue s ∧
    (∀ c, is_Some (w_ctx w !! c) →
      erase_links <$> w_ctx w' !! c = erase_links <$> w_ctx w !! c).
Proof.
  intros Hj Hinv Hself Hsch Hcur Hfr. pose proof (ti_rep _ _ _ _ _ Hinv) as Hrep.
  unfold jumped in Hj. destruct r as [|x rs]; simpl in *.
  - destruct Hj as [Hsw (m' & s' & -> & Hinv' & Hm & Hs)]. simplify_eq. simpl.
    set (f := w_fresh w) in *. assert (Hff : w_ctx w !! f = None) by by apply Hfr.
    assert (Hsl : sleep_pqueue s' = sleep_pqueue s)
      by by apply (f_equal sleep_pqueue) in Hs.
    assert (Hsq : task_sch_queue s' = task_sch_queue s)
      by by apply (f_equal task_sch_queue) in Hs.
    assert (Hout : ∀ xs : list nat, allocated (w_ctx w) xs → f ∉ xs).
    { intros xs Ha Hin. destruct (Ha _ Hin). congruence. }
    exists s'. split_and!; try done.
    + split; try done.
      * unfold sch_allocated. by rewrite Hsq.
      * by apply (f_equal current) in Hs.
      * eapply (same_but_next_allocated _ _ [f] Hm); [|by left].
        intros y ->%list_elem_of_singleton. rewrite lookup_insert_eq. eauto.
      * destruct reschedule; [|set_solver]. intros ->%list_elem_of_singleton.
        destruct Hcur. congruence.
      * by apply Hout, Hrep.
      * rewrite Hsl. by apply Hout, Hrep.
      * simpl. intros a Ha. eapply same_but_next_None; [done|].
        rewrite lookup_insert_ne by lia. apply Hfr. lia.
    + intros c Hc. simpl. apply same_but_next_links in Hm.
      rewrite <-(same_but_links_field erase_links _ _ c (λ _, eq_refl) Hm).
      rewrite lookup_insert_ne; [done|]. intros ->. destruct Hc. congruence.
  - case_decide as Hx; [done|]. destruct Hj as [Hsw (m' & s' & -> & Hinv' & Hm & Hs)].
    simplify_eq. simpl.
    assert (Hsl : sleep_pqueue s' = sleep_pqueue s)
      by by apply (f_equal sleep_pqueue) in Hs.
    assert (Hsq : task_sch_queue s' = task_sch_queue s)
      by by apply (f_equal task_sch_queue) in Hs.
    pose proof (ready_rep_NoDup _ _ _ (sr_ready _ _ _ _ Hrep)) as Hnd.
    apply NoDup_cons in Hnd as [Hxr Hnd].
    exists s'. split_and!; try done.
    + split; try done.
      * unfold sch_allocated. by rewrite Hsq.
      * by apply (f_equal current) in Hs.
      * eapply (same_but_next_allocated _ _ [x] Hm); [|by left].
        intros y ->%list_elem_of_singleton. apply (sr_ready _ _ _ _ Hrep). by left.
      * intros [?|Hin]%elem_of_app; [done|]. destruct reschedule; set_solver.
      * apply (sr_ready_blocked _ _ _ _ Hrep). by left.
      * rewrite Hsl. apply (sr_ready_sleep _ _ _ _ Hrep). by left.
      * simpl. intros a Ha. eapply same_but_next_None; [done|]. by apply Hfr.
    + intros c Hc. simpl. apply same_but_next_links in Hm.
      by rewrite (same_but_links_field erase_links _ _ c (λ _, eq_refl) Hm).
Qed.
(** ** Properties *)

(** C25: [check_for_timeouts] wakes exactly the contexts whose time has come
    and says when to look again: it returns the maximum only if nothing is
    asleep or scheduled, and a value in the future only if every sleeping
    context sleeps at least that long. *)
Theorem check_for_timeouts_wakes_expired w this s r b :
  thread_inv w this s r b → w_self w = this → sch_allocated w s →
  wp (check_for_timeouts this) (returns (λ v w',
    timeouts_expired w this (now_at (w_ticks w)) s r b w' ∧
    timeout_value w s (now_at (w_ticks w)) v)) w.
Proof. apply check_for_timeouts_inv. Qed.
End inv.
