(* ===== verification/Blocking.v ===== *)
(** The operations that block the running context: [thread::yield],
    [sleep_until], [usleep] and [wait] (thread.cpp). Shown: [yield] is fair and
    never fails, [wait] suspends its caller until the promise is completed or the
    time is over, a completed promise resumes its waiter at the next jump,
    [sleep_until] suspends its caller on the sleep queue alone. *)
From S2P Require Import Prelude StdHeap World ReadyList TaskQueue Notify Scheduler.

Section ops.
Context {T : Type} `{!Clock} `{!HeapAlgo nat}.
Abbreviation C := (M (world T) exn).

(** Pushing the current context on the sleep queue. *)
Definition sleep_push (this c : nat) : C unit :=
  m ← gets w_ctx;
  mod_thr this (λ s, set_sleep_pqueue
    (push_heap (sleep_priority_less m) (sleep_pqueue s ++ [c])) s).

(** [thread::sleep_until] *)
Definition sleep_until (this : nat) (tp : Z) : C switch :=
  s ← get_thr this;
  if th_done s then throw thread_quit
  else
    me ← self;
    check (bool_decide (me = this));;
    c ← ensure_current this;
    mod_ctx c (set_c_resume_time tp);;
    mod_ctx c (set_c_prom None);;
    sleep_push this c;;
    start_next_task this false.

Definition sleep_until_resume (this prev : nat) : C unit :=
  start_next_task_resume this prev;;
  s ← get_thr this;
  c ← deref (current s);
  mod_ctx c (set_c_resume_time time_point_max);;
  k ← get_ctx c;
  if c_canceled k then throw task_canceled else mret tt.

(** [system_clock::now() + microseconds( us )], in nanoseconds. *)
Definition add_microseconds (n us : Z) : C Z :=
  if in_int64 (us * 1000) && in_int64 (n + us * 1000)
  then mret (n + us * 1000)%Z
  else undef SignedOverflow.

(** [microseconds( us )] of an unsigned 64-bit count. *)
Definition to_int64 (us : Z) : Z :=
  if bool_decide (us ≤ time_point_max)%Z then us else (us - 2 ^ 64)%Z.

(** [thread::usleep] *)
Definition usleep (this : nat) (us : Z) : C switch :=
  me ← self;
  check (bool_decide (me = this));;
  n ← now;
  tp ← add_microseconds n (to_int64 us);
  sleep_until this tp.

(** [thread::wait( p, time_point )]: [None] when it returns at once. *)
Definition wait (this p : nat) (timeout : Z) : C (option switch) :=
  me ← self;
  check (bool_decide (me = this));;
  r ← promise_ready p;
  if (r : bool) then mret None
  else
    n ← now;
    if bool_decide (timeout < n)%Z then throw future_wait_timeout
    else
      c ← ensure_current this;
      mod_ctx c (set_c_prom (Some p));;
      when (bool_decide (timeout ≠ time_point_max))
        (mod_ctx c (set_c_resume_time timeout);; sleep_push this c);;
      add_to_blocked this c;;
      sw ← start_next_task this false;
      mret (Some sw).

Definition wait_resume (this prev : nat) : C unit :=
  start_next_task_resume this prev;;
  s ← get_thr this;
  c ← deref (current s);
  mod_ctx c (set_c_prom None);;
  k ← get_ctx c;
  if c_canceled k then throw task_canceled else mret tt.

(** [thread::wait( p, microseconds )] *)
Definition wait_us (this p : nat) (timeout_us : Z) : C (option switch) :=
  if bool_decide (timeout_us = microseconds_max) then wait this p time_point_max
  else
    n ← now;
    tp ← add_microseconds n timeout_us;
    wait this p tp.

(** [thread::yield] *)
Definition yield (this : nat) : C switch := start_next_task this true.

(** [n] jumps of contexts that do nothing but [yield]: each is resumed inside
    its own call and calls [yield] again. The contexts that ran, in order. *)
Fixpoint yields (n this : nat) : C (list nat) :=
  match n with
  | 0 => mret []
  | S n =>
    sw ← yield this;
    start_next_task_resume this (sw_next sw);;
    xs ← yields n this;
    mret (sw_next sw :: xs)
  end.

Lemma keeps_wait_resume this prev : keeps (others this) (wait_resume this prev).
Proof. unfold wait_resume. solve_keeps. Qed.
End ops.

#[export] Hint Resolve keeps_wait_resume : keeps.

Section blocking.
Context {T : Type} `{!Clock} `{HeapSpec nat}.
Implicit Types (w : world T).

(** The operation switched from [cur] in the state [w1], reached after the
    timeouts up to [n] had been handled, in which [r1] were ready. *)
Definition switched w this n s r b cur back (sw : switch) (w' : world T) r1 b1 s' : Prop :=
  ∃ w1 s1, expired_into w this n s r b w1 s1 r1 b1 ∧
    running w' this s' (tail r1 ++ back) b1 (sw_next sw) ∧
    sw = Switch cur (default (w_fresh w) (head r1)) (bool_decide (r1 = [])) ∧
    w_prom w' = w_prom w1 ∧ w_task w' = w_task w ∧
    sleep_pqueue s' = sleep_pqueue s1 ∧
    (∀ c, is_Some (w_ctx w !! c) →
      erase_links <$> w_ctx w' !! c = erase_links <$> w_ctx w1 !! c).

Lemma expired_no_assert w this n s r b w1 s1 r1 b1 cur :
  expired_into w this n s r b w1 s1 r1 b1 →
  ((cur ∉ r) ∧ (cur ∉ sleep_pqueue s)) ∨ cur ∈ b1 ∨ cur ∈ sleep_pqueue s1 → cur ∉ r1.
Proof.
  intros (Hinv & _ & _ & Hr & _) Hc Hin.
  pose proof (ti_rep _ _ _ _ _ Hinv) as Hrep.
  destruct Hc as [[Hcr Hcs]|[Hb|Hs]].
  - apply (made_ready_elem _ _ _ _ _ Hr) in Hin. rewrite list_elem_of_filter in Hin. tauto.
  - by apply (sr_ready_blocked _ _ _ _ Hrep) in Hin.
  - by apply (sr_ready_sleep _ _ _ _ Hrep) in Hin.
Qed.

(** [start_next_task] by a context that the timeouts do not make ready. *)
Lemma start_next_task_switches w this s r b cur (reschedule : bool) :
  thread_inv w this s r b → w_self w = this → sch_allocated w s →
  current s = Some cur → is_Some (w_ctx w !! cur) → cur ∉ r →
  (reschedule → (cur ∉ b) ∧ (cur ∉ sleep_pqueue s)) →
  (∀ a, w_fresh w ≤ a → w_ctx w !! a = None) →
  (∀ w1 s1 r1 b1, expired_into w this (now_at (w_ticks w)) s r b w1 s1 r1 b1 → cur ∉ r1) →
  wp (start_next_task this reschedule) (returns (λ sw w', ∃ r1 b1 s',
    switched w this (now_at (w_ticks w)) s r b cur
      (if reschedule then [cur] else []) sw w' r1 b1 s')) w.
Proof.
  intros Hinv Hself Hsch Hcur Hc Hcr Hcb Hfr Hno.
  eapply wp_mono, start_next_task_spec; try done; [|by apply Hfr].
  intros o w' (w1 & s1 & r1 & b1 & Hexp & Hj). pose proof (Hno _ _ _ _ Hexp) as Hnr.
  pose proof Hexp as (Hinv1 & Hf & _).
  assert (∃ sw, o = Ret sw) as [sw ->].
  { unfold jumped in Hj. destruct r1 as [|x rs]; [by destruct Hj; eauto|].
    rewrite decide_False in Hj by set_solver. destruct Hj; eauto. }
  destruct (jumped_running _ _ _ _ _ _ _ _ _ Hj Hinv1) as
    (s' & Hrun & Hsw & Hp & Ht & Htk & Hsl & Hsq & Hctx).
  - by rewrite (fr_self _ _ _ _ _ Hf).
  - by eapply framed_sch.
  - by apply (fr_ctx _ _ _ _ _ Hf).
  - by eapply framed_fresh.
  - exists r1, b1, s', w1, s1. rewrite (fr_fresh _ _ _ _ _ Hf) in Hsw.
    split_and!; try done; [by rewrite Ht, (fr_task _ _ _ _ _ Hf)|].
    intros c Hcc. by apply Hctx, (fr_ctx _ _ _ _ _ Hf).
Qed.

Lemma yield_switches w this s r b cur :
  running w this s r b cur →
  wp (yield this) (returns (λ sw w', ∃ r1 b1 s',
    switched w this (now_at (w_ticks w)) s r b cur [cur] sw w' r1 b1 s')) w.
Proof.
  intros [? ? ? ? ? ? ? ? ?]. apply (start_next_task_switches _ _ _ _ _ _ true); try done.
  intros w1 s1 r1 b1 He. eapply expired_no_assert; [done|]. by left.
Qed.

(** A context that was not canceled resumes without an effect. *)
Lemma resume_running w this s r b c k :
  running w this s r b c → w_ctx w !! c = Some k → c_canceled k = false →
  start_next_task_resume this c w = (Ret true, w).
Proof.
  intros Hrun Hk Hc. pose proof (ti_thr _ _ _ _ _ (ru_inv _ _ _ _ _ _ Hrun)) as Hthr.
  unfold start_next_task_resume, mbind, M_bind, mod_thr. rewrite Hthr.
  replace (set_current (Some c) s) with s
    by (rewrite <-(ru_cur _ _ _ _ _ _ Hrun); by destruct s).
  rewrite insert_id by done. unfold get_ctx. destruct w; simpl in *. rewrite Hk, Hc. done.
Qed.

(** As long as no sleeping context is due, time does not change who is ready. *)
Lemma expired_into_nobody w this n s r b w1 s1 r1 b1 :
  expired_into w this n s r b w1 s1 r1 b1 →
  (∀ c, c ∈ sleep_pqueue s → ¬ expired (w_ctx w) n c) →
  r1 = r ∧ sleep_pqueue s1 ≡ₚ sleep_pqueue s ∧ (∀ c, c ∈ b1 ↔ c ∈ b) ∧
  (∀ c, erase_links <$> w_ctx w1 !! c = erase_links <$> w_ctx w !! c) ∧
  (∀ p, w_prom w1 !! p = w_prom w !! p).
Proof.
  intros (_ & _ & Hsl & Hr & Hb & _ & Hp & Hctx) Hs.
  assert (filter (expired (w_ctx w) n) (sleep_pqueue s) = []) as Hnil.
  { apply elem_of_nil_inv. intros x [Hx Hin]%list_elem_of_filter. by apply (Hs x). }
  rewrite Hnil in Hr. rewrite filter_all in Hsl by done. apply made_ready_nil in Hr.
  split_and!; [done|done| | |].
  - intros c. rewrite Hb. naive_solver.
  - intros c. destruct (Hctx c) as [?|(Hin & He & _)]; [done|]. by destruct (Hs c).
  - intros p. apply Hp. naive_solver.
Qed.

(** No context of [xs] was canceled. *)
Definition none_canceled w (xs : list nat) : Prop :=
  ∀ c, c ∈ xs → c_canceled <$> w_ctx w !! c = Some false.

Lemma erase_links_canceled (m m' : ctx_map) c :
  erase_links <$> m' !! c = erase_links <$> m !! c →
  c_canceled <$> m' !! c = c_canceled <$> m !! c.
Proof.
  destruct (m' !! c) as [k'|], (m !! c) as [k|]; simpl; intros Hk; try done.
  apply Some_inj, (f_equal c_canceled) in Hk. simpl in Hk. by rewrite Hk.
Qed.

(** While the first contexts [l] of the ready list yield in turn. *)
Lemma yields_prefix w this s l rest b cur :
  running w this s (l ++ rest) b cur → sleep_pqueue s = [] →
  none_canceled w (cur :: l ++ rest) →
  wp (yields (length l) this) (returns (λ xs w', xs = l ∧ ∃ s' b',
    running w' this s' (rest ++ removelast (cur :: l)) b' (List.last (cur :: l) 0) ∧
    sleep_pqueue s' = [] ∧ none_canceled w' (cur :: l ++ rest) ∧ ∀ c, c ∈ b' ↔ c ∈ b)) w.
Proof.
  revert w s b cur rest. induction l as [|x l IH]; intros w s b cur rest Hrun Hs Hnc.
  { simpl. rewrite wp_ret. split; [done|]. exists s, b. by rewrite app_nil_r. }
  cbn [yields length]. rewrite wp_bind. eapply wp_mono, yield_switches; [|done].
  intros [sw|?|?] w'; try done.
  intros (r1 & b1 & s' & w1 & s1 & Hexp & Hrun' & Hsw & _ & _ & Hsl & Hctx).
  assert (Hnone : ∀ c, c ∈ sleep_pqueue s → ¬ expired (w_ctx w) (now_at (w_ticks w)) c).
  { rewrite Hs. intros c Hc _. exact (not_elem_of_nil c Hc). }
  destruct (expired_into_nobody _ _ _ _ _ _ _ _ _ _ Hexp Hnone) as (-> & Hs1 & Hb & He & _).
  rewrite Hs in Hs1. apply Permutation_nil_r in Hs1. simpl in *. rewrite Hsw in *. simpl in *.
  assert (Hnc' : none_canceled w' (cur :: x :: l ++ rest)).
  { intros c Hc. rewrite <-(Hnc c Hc). apply erase_links_canceled. rewrite Hctx; [apply He|].
    apply fmap_is_Some with c_canceled. rewrite (Hnc c Hc). eauto. }
  pose proof (Hnc' x ltac:(set_solver +)) as Hx. apply fmap_Some in Hx as (k & Hk & Hkc).
  rewrite wp_bind. unfold wp at 1. rewrite (resume_running _ _ _ _ _ _ _ Hrun' Hk) by done.
  simpl. rewrite wp_bind. rewrite <-app_assoc in Hrun'. eapply wp_mono, IH; [|exact Hrun'| |].
  - intros [xs|?|?] w2; try done. intros (-> & s2 & b2 & Hrun2 & Hs2 & Hnc2 & Hb2).
    rewrite wp_ret. split; [done|]. exists s2, b2.
    split_and!; [|done| |intros c; by rewrite Hb2].
    + rewrite <-app_assoc in Hrun2. destruct l; exact Hrun2.
    + intros c Hc. apply Hnc2. set_solver +Hc.
  - by rewrite Hsl.
  - intros c Hc. apply Hnc'. set_solver +Hc.
Qed.

Lemma yields_app n m this w Q :
  wp (yields n this) (λ o w1, match o with
    | Ret xs => wp (yields m this) (λ o' w2, Q (match o' with
        | Ret ys => Ret (xs ++ ys) | Exc e => Exc e | Undef u => Undef u end) w2) w1
    | Exc e => Q (Exc e) w1 | Undef u => Q (Undef u) w1 end) w →
  wp (yields (n + m) this) Q w.
Proof.
  revert w Q. induction n as [|n IH]; intros w Q HQ; simpl in *.
  - rewrite wp_ret in HQ. eapply wp_mono; [|exact HQ]. by intros [?|?|?] w'.
  - rewrite wp_bind in HQ |- *. eapply wp_mono; [|exact HQ].
    intros [sw|?|?] w1; [|done..]. clear HQ. intros HQ.
    rewrite wp_bind in HQ |- *. eapply wp_mono; [|exact HQ].
    intros [a|?|?] w2; [|done..]. clear HQ. intros HQ.
    rewrite wp_bind. apply IH. rewrite wp_bind in HQ. eapply wp_mono; [|exact HQ].
    intros [xs|?|?] w3; [|done..]. clear HQ. intros HQ. rewrite wp_ret in HQ.
    eapply wp_mono; [|exact HQ]. by intros [?|?|?] w4.
Qed.

(** Context [cur] after its own fields and the thread's lists were changed to
    make it wait for the promise [p], or for the clock alone. *)
Record suspended w this s (b : list nat) cur (k : cmt_context) (p : ptr) b' s' (k' : cmt_context) :
    Prop := {
  su_next : c_next k' = c_next k;
  su_prom : c_prom k' = p;
  su_head : ready_head s' = ready_head s;
  su_tail : ready_tail s' = ready_tail s;
  su_blocked : match p with
    | Some p => b' = cur :: b ∧ blocked s' = Some cur ∧ c_next_blocked k' = blocked s ∧
        (∃ kp, w_prom w !! p = Some kp ∧ m_blocked_thread kp = Some this) ∧
        (∀ x, x ∈ b ++ sleep_pqueue s → prom_of (w_ctx w) x ≠ Some p)
    | None => b' = b ∧ blocked s' = blocked s
    end;
  su_sleep : sleep_pqueue s' = sleep_pqueue s ∨
    sleep_pqueue s' ≡ₚ cur :: sleep_pqueue s;
  su_heap : is_heap (sleep_priority_less (<[cur:=k']> (w_ctx w))) (sleep_pqueue s');
}.

Lemma thread_inv_suspend w this s r b cur k p b' s' k' :
  running w this s r b cur → w_ctx w !! cur = Some k →
  suspended w this s b cur k p b' s' k' →
  thread_inv (ready_upd w this (<[cur:=k']> (w_ctx w)) s') this s' r b'.
Proof.
  intros [[Hthr [Hr [Hb Hba] Hh Ha Hnd Hrb Hrs] Hprom Hsole Hsleep] _ _ _ _ Hcr Hcb Hcs _] Hk
    [Hn Hp Hhd Htl Hbl Hsl Hhp].
  set (m' := <[cur:=k']> (w_ctx w)).
  assert (Hlk : ∀ x, x ≠ cur → m' !! x = w_ctx w !! x)
    by (intros x Hx; unfold m'; by rewrite lookup_insert_ne).
  assert (Hcur : m' !! cur = Some k') by (unfold m'; by rewrite lookup_insert_eq).
  assert (Hin : ∀ x, x ∈ sleep_pqueue s' → x = cur ∨ x ∈ sleep_pqueue s).
  { intros x. destruct Hsl as [-> | ->]; set_solver. }
  assert (Hb' : ∀ x, x ∈ b' ↔ x ∈ b ∨ (x = cur ∧ is_Some p)).
  { intros x. destruct p; [destruct Hbl as (-> & _)|destruct Hbl as (-> & _)];
      rewrite ?elem_of_cons; naive_solver. }
  assert (Hal : ∀ xs : list nat, allocated (w_ctx w) xs → allocated m' (cur :: xs)).
  { intros xs Hxs x Hx. destruct (decide (x = cur)) as [->|]; [eauto|].
    rewrite Hlk by done. apply Hxs. set_solver. }
  assert (Hpr : ∀ x, x ≠ cur → prom_of m' x = prom_of (w_ctx w) x)
    by (intros x Hx; unfold prom_of; by rewrite Hlk).
  assert (Hprc : prom_of m' cur = p) by (unfold prom_of; by rewrite Hcur).
  split; simpl.
  - apply lookup_insert_eq.
  - split.
    + destruct Hr as (Hr1 & Hr2 & Hr3). split_and!.
      * rewrite Hhd. eapply lseg_ext; [|exact Hr1]. intros x Hx. unfold next_of.
        rewrite Hlk; [done|]. by intros ->.
      * by rewrite Htl.
      * intros x Hx. apply (Hal r Hr3). by right.
    + assert (Hchain : chain (next_blocked_of m') (blocked s) b).
      { eapply lseg_ext; [|exact Hb]. intros x Hx. unfold next_blocked_of.
        rewrite Hlk; [done|]. by intros ->. }
      destruct p as [p|].
      * destruct Hbl as (-> & Hbs & Hnb & _). split; [|by apply Hal].
        rewrite Hbs. split; [done|].
        unfold next_blocked_of at 2. rewrite Hcur. simpl. by rewrite Hnb.
      * destruct Hbl as (-> & Hbs). split; [by rewrite Hbs|]. intros x Hx. apply (Hal b Hba). by right.
    + done.
    + intros x Hx. apply (Hal _ Ha). destruct (Hin x Hx); set_solver.
    + destruct Hsl as [-> | ->]; [done|]. by constructor.
    + intros x Hx. rewrite Hb'. naive_solver.
    + intros x Hx Hxs. destruct (Hin x Hxs); naive_solver.
  - intros x. rewrite Hb'. intros Hx. destruct (decide (x = cur)) as [->|].
    + destruct p as [p|]; [|destruct Hx as [?|[_ [? ?]]]; done].
      destruct Hbl as (_ & _ & _ & (kp & ? & ?) & _). by exists p, kp.
    + rewrite Hpr by done. apply Hprom. naive_solver.
  - assert (Hin' : ∀ x, x ∈ b' ++ sleep_pqueue s' → x ≠ cur → x ∈ b ++ sleep_pqueue s).
    { intros x [Hx|Hx]%elem_of_app Hne; [apply Hb' in Hx|apply Hin in Hx]; set_solver. }
    assert (Hother : ∀ x q, x ∈ b' ++ sleep_pqueue s' → x ≠ cur →
      prom_of m' x = Some q → p ≠ Some q).
    { intros x q Hx Hne Hq ->. rewrite Hpr in Hq by done.
      destruct Hbl as (_ & _ & _ & _ & Hnone). by apply (Hnone x), Hq; apply Hin'. }
    intros x y q Hx Hy Hqx Hqy.
    destruct (decide (x = cur)) as [->|Hxc], (decide (y = cur)) as [->|Hyc]; [done| | |].
    + rewrite Hprc in Hqx. by destruct (Hother y q).
    + rewrite Hprc in Hqy. by destruct (Hother x q).
    + rewrite Hpr in Hqx, Hqy by done. eapply Hsole; eauto.
  - intros x Hx. rewrite Hb'. destruct (decide (x = cur)) as [->|Hne].
    + rewrite Hprc. naive_solver.
    + rewrite Hpr by done. rewrite <-Hsleep by naive_solver. naive_solver.
Qed.

Lemma erase_links_fields (m : ctx_map) c k :
  erase_links <$> m !! c = Some (erase_links k) →
  prom_of m c = c_prom k ∧ resume_time_of m c = c_resume_time k.
Proof.
  unfold prom_of, resume_time_of. destruct (m !! c) as [k'|]; simpl; [|done].
  intros Hk%Some_inj. split; [by apply (f_equal c_prom) in Hk|].
  by apply (f_equal c_resume_time) in Hk.
Qed.

(** The jump of a context that has just been suspended, and that the clock
    does not wake at once. *)
Lemma suspend_switches w this s r b cur k p b' s' k' n w0 :
  running w this s r b cur → w_ctx w !! cur = Some k →
  suspended w this s b cur k p b' s' k' →
  current s' = current s → task_sch_queue s' = task_sch_queue s →
  (cur ∈ b' ∧ cur ∉ sleep_pqueue s') ∨
    (cur ∈ sleep_pqueue s' ∧ (now_at n < c_resume_time k')%Z) →
  w0 = set_w_ticks n (ready_upd w this (<[cur:=k']> (w_ctx w)) s') →
  wp (start_next_task this false) (returns (λ sw w', ∃ r1 b1 s1,
    switched w0 this (now_at n) s' r b' cur [] sw w' r1 b1 s1 ∧
    (cur ∈ b' → cur ∈ b1) ∧ (cur ∈ sleep_pqueue s' → cur ∈ sleep_pqueue s1) ∧
    prom_of (w_ctx w') cur = p ∧ resume_time_of (w_ctx w') cur = c_resume_time k')) w0.
Proof.
  intros Hrun Hk Hsu Hcs Hqs Hwait Hw0.
  pose proof (thread_inv_suspend _ _ _ _ _ _ _ _ _ _ _ Hrun Hk Hsu) as Hinv.
  apply (thread_inv_tick _ _ _ _ _ n) in Hinv. rewrite <-Hw0 in Hinv.
  assert (Hcur : w_ctx w0 !! cur = Some k') by (subst; apply lookup_insert_eq).
  assert (w_ticks w0 = n) as Hn by by subst.
  assert (Hres : resume_time_of (w_ctx w0) cur = c_resume_time k')
    by (unfold resume_time_of; by rewrite Hcur).
  assert (Hnexp : ¬ (cur ∈ sleep_pqueue s' ∧ expired (w_ctx w0) (now_at n) cur)).
  { unfold expired. rewrite Hres. intros [H1 H2]. destruct Hwait as [[_ ?]|[_ ?]]; [done|lia]. }
  assert (Hstay : ∀ w1 s1 r1 b1, expired_into w0 this (now_at n) s' r b' w1 s1 r1 b1 →
    (cur ∈ b' → cur ∈ b1) ∧ (cur ∈ sleep_pqueue s' → cur ∈ sleep_pqueue s1)).
  { intros w1 s1 r1 b1 (_ & _ & Hsl & _ & Hb & _). rewrite Hb, Hsl, list_elem_of_filter.
    tauto. }
  destruct Hrun as [_ Hself Hsch Hcr0 _ Hcr _ _ Hfr].
  eapply wp_mono, (start_next_task_switches w0 this s' r b' cur false); rewrite ?Hn.
  - intros [sw|?|?] w'; try done. intros (r1 & b1 & s1 & Hsw).
    exists r1, b1, s1. split; [exact Hsw|].
    destruct Hsw as (w1 & s2 & Hexp & Hrun' & _ & _ & _ & Hsl & Hctx).
    destruct (Hstay _ _ _ _ Hexp) as [H1 H2]. rewrite Hsl. split; [done|]. split; [done|].
    rewrite <-(su_prom _ _ _ _ _ _ _ _ _ _ Hsu). apply erase_links_fields.
    rewrite Hctx by eauto. destruct Hexp as (_ & _ & _ & _ & _ & _ & _ & Hwk).
    destruct (Hwk cur) as [-> |(Hs & He & _)]; [by rewrite Hcur|]. by destruct Hnexp.
  - done.
  - by subst.
  - unfold sch_allocated. rewrite Hqs. by subst.
  - by rewrite Hcs.
  - eauto.
  - done.
  - done.
  - intros a Ha. subst w0. simpl in *. rewrite lookup_insert_ne by (intros <-; by rewrite Hfr in Hk).
    by apply Hfr.
  - intros w1 s1 r1 b1 Hexp. eapply expired_no_assert; [done|].
    destruct (Hstay _ _ _ _ Hexp) as [H1 H2]. destruct Hwait as [[? _]|[? _]]; auto.
Qed.

(** Only the resume times decide the order of the sleep queue. *)
Lemma sleep_heap_ext (m m' : ctx_map) l :
  (∀ x, x ∈ l → resume_time_of m x = resume_time_of m' x) →
  is_heap (sleep_priority_less m) l → is_heap (sleep_priority_less m') l.
Proof.
  intros Hx. apply is_heap_ext. intros x y Hx' Hy. unfold sleep_priority_less.
  by rewrite !Hx.
Qed.

(** Pushing [cur] on the sleep queue, with the resume time it has in [m]. *)
Lemma sleep_push_heap w s (m m' : ctx_map) cur :
  is_heap (sleep_priority_less (w_ctx w)) (sleep_pqueue s) → cur ∉ sleep_pqueue s →
  (∀ x, x ≠ cur → m !! x = w_ctx w !! x) →
  (∀ x, resume_time_of m' x = resume_time_of m x) →
  let l := push_heap (sleep_priority_less m) (sleep_pqueue s ++ [cur]) in
  is_heap (sleep_priority_less m') l ∧ l ≡ₚ cur :: sleep_pqueue s.
Proof.
  intros Hh Hcs Hm Hm' l. split.
  - apply (sleep_heap_ext m); [done|]. apply push_heap_heap; [apply _|].
    eapply sleep_heap_ext; [|exact Hh]. intros x Hx. unfold resume_time_of.
    rewrite Hm; [done|]. by intros ->.
  - unfold l. rewrite heap_push_perm by apply _. done.
Qed.

(** Waiting for a promise that is not ready suspends the caller. *)
Lemma wait_suspends w this s r b cur p kp tmo :
  running w this s r b cur → w_prom w !! p = Some kp →
  m_error kp = None → m_value kp = None → m_blocked_thread kp = Some this →
  (∀ x, x ∈ b ++ sleep_pqueue s → prom_of (w_ctx w) x ≠ Some p) →
  (now_at (w_ticks w) ≤ tmo)%Z →
  tmo = time_point_max ∨ (now_at (S (w_ticks w)) < tmo)%Z →
  wp (wait this p tmo) (returns (λ osw w', ∃ sw r1 b1 s1,
    osw = Some sw ∧ running w' this s1 (tail r1) b1 (sw_next sw) ∧
    sw = Switch cur (default (w_fresh w) (head r1)) (bool_decide (r1 = [])) ∧
    cur ∈ b1 ∧ prom_of (w_ctx w') cur = Some p ∧
    (tmo ≠ time_point_max → cur ∈ sleep_pqueue s1 ∧ resume_time_of (w_ctx w') cur = tmo))) w.
Proof.
  intros Hrun Hkp He Hv Hbt Hnone Htmo Hlater.
  pose proof Hrun as [[Hthr [Hr Hb Hh Ha _ _ _] _ _ _] Hself _ Hcur [k Hk] Hcr Hcb Hcs _].
  unfold wait. rewrite wp_bind, wp_self, wp_bind, wp_check.
  rewrite bool_decide_eq_true_2 by done. unfold promise_ready.
  rewrite !wp_bind, wp_get_prom, Hkp, He, Hv. simpl. rewrite wp_ret, wp_bind, wp_now. rewrite bool_decide_eq_false_2 by lia.
  unfold ensure_current. rewrite !wp_bind, wp_get_thr. simpl. rewrite Hthr, Hcur, wp_ret.
  rewrite wp_bind, wp_mod_ctx. simpl. rewrite Hk. unfold when.
  case_bool_decide as Hmax.
  - unfold sleep_push, add_to_blocked. wp_steps.
    match goal with |- context [push_heap (sleep_priority_less ?m) _] => set (m2 := m) end.
    set (k' := set_c_next_blocked (blocked s) (set_c_resume_time tmo (set_c_prom (Some p) k))).
    set (s' := set_blocked (Some cur) (set_sleep_pqueue
      (push_heap (sleep_priority_less m2) (sleep_pqueue s ++ [cur])) s)).
    destruct (sleep_push_heap w s m2 (<[cur:=k']> (w_ctx w)) cur Hh Hcs) as [Hh' Hp'].
    { intros x Hx. unfold m2. by rewrite !lookup_insert_ne. }
    { intros x. unfold resume_time_of, m2. rewrite !lookup_insert. by case_decide. }
    destruct Hlater as [|Hlater]; [done|].
    eapply wp_mono, (suspend_switches w this s r b cur k (Some p) (cur :: b) s' k'
      (S (w_ticks w)) _ Hrun Hk); [|split| | | |].
    + intros [sw|?|?] w'; try done.
      intros (r1 & b1 & s1 & (w1 & s2 & _ & Hrun' & Hsw & _) & H1 & H2 & H3 & H4).
      rewrite wp_ret. exists sw, r1, b1, s1.
      rewrite app_nil_r in Hrun'. split_and!; [done|done|done|apply H1; by left|done|].
      intros _. split; [|done]. apply H2. simpl. rewrite Hp'. by left.
    + done.
    + done.
    + done.
    + done.
    + split_and!; [done|done|done|by exists kp|done].
    + by right.
    + done.
    + done.
    + done.
    + right. simpl. rewrite Hp'. split; [by left|done].
    + unfold ready_upd, set_w_ticks, set_w_thr, set_w_ctx, k', m2. simpl.
      by rewrite !insert_insert_eq.
  - subst tmo. rewrite wp_bind, wp_ret.
    unfold add_to_blocked. wp_steps.
    set (k' := set_c_next_blocked (blocked s) (set_c_prom (Some p) k)).
    set (s' := set_blocked (Some cur) s).
    eapply wp_mono, (suspend_switches w this s r b cur k (Some p) (cur :: b) s' k'
      (S (w_ticks w)) _ Hrun Hk); [|split| | | |].
    + intros [sw|?|?] w'; try done.
      intros (r1 & b1 & s1 & (w1 & s2 & _ & Hrun' & Hsw & _) & H1 & H2 & H3 & _).
      rewrite wp_ret. exists sw, r1, b1, s1.
      rewrite app_nil_r in Hrun'. split_and!; [done|done|done|apply H1; by left|done|done].
    + done.
    + done.
    + done.
    + done.
    + split_and!; [done|done|done|by exists kp|done].
    + by left.
    + eapply sleep_heap_ext; [|exact Hh]. intros x Hx. unfold resume_time_of.
      rewrite lookup_insert_ne; [done|]. by intros ->.
    + done.
    + done.
    + left. split; [by left|done].
    + unfold ready_upd, set_w_ticks, set_w_thr, set_w_ctx, k'. simpl.
      by rewrite !insert_insert_eq.
Qed.

(** Putting the caller to sleep. *)
Definition asleep_world w this s cur k tp w0 : Prop := ∃ l,
  let k' := set_c_prom None (set_c_resume_time tp k) in
  w0 = ready_upd w this (<[cur:=k']> (w_ctx w)) (set_sleep_pqueue l s) ∧
  is_heap (sleep_priority_less (<[cur:=k']> (w_ctx w))) l ∧ l ≡ₚ cur :: sleep_pqueue s.

Lemma sleep_until_enter w this s r b cur k tp Q :
  running w this s r b cur → w_ctx w !! cur = Some k → th_done s = false →
  (∀ w0, asleep_world w this s cur k tp w0 → wp (start_next_task this false) Q w0) →
  wp (sleep_until this tp) Q w.
Proof.
  intros Hrun Hk Hd HQ.
  destruct Hrun as [[Hthr [_ _ Hh _ _ _ _] _ _ _] Hself _ Hcur _ _ _ Hcs _].
  unfold sleep_until, ensure_current, sleep_push.
  rewrite wp_bind, wp_get_thr, Hthr, Hd, wp_bind, wp_self, wp_bind, wp_check.
  rewrite bool_decide_eq_true_2 by done. rewrite !wp_bind, wp_get_thr, Hthr, Hcur, wp_ret.
  rewrite wp_bind, wp_mod_ctx, Hk, wp_bind, wp_mod_ctx. simpl.
  rewrite lookup_insert_eq, wp_bind. wp_steps. apply HQ.
  match goal with |- context [push_heap (sleep_priority_less ?m) _] => set (m2 := m) end.
  assert (m2 = <[cur:=set_c_prom None (set_c_resume_time tp k)]> (w_ctx w)) as Hm2
    by (unfold m2; by rewrite insert_insert_eq).
  destruct (sleep_push_heap w s m2 m2 cur Hh Hcs) as [Hh' Hp']; [|done|].
  { intros x Hx. rewrite Hm2. by rewrite lookup_insert_ne. }
  eexists. split_and!; [|rewrite <-Hm2; exact Hh'|exact Hp'].
  unfold ready_upd. rewrite <-Hm2. done.
Qed.

Lemma asleep_suspended w this s r b cur k tp w0 :
  running w this s r b cur → asleep_world w this s cur k tp w0 → ∃ l,
  let k' := set_c_prom None (set_c_resume_time tp k) in
  w0 = ready_upd w this (<[cur:=k']> (w_ctx w)) (set_sleep_pqueue l s) ∧
  l ≡ₚ cur :: sleep_pqueue s ∧ suspended w this s b cur k None b (set_sleep_pqueue l s) k'.
Proof.
  intros Hrun (l & -> & Hh & Hl). exists l. split; [done|]. split; [done|].
  split; simpl; try done. by right.
Qed.

(** The second half of [wait], once its context was woken. *)
Lemma wait_resume_runs w this s r b c k :
  running w this s r b c → w_ctx w !! c = Some k → c_canceled k = false →
  wp (wait_resume this c) (returns (λ _ w',
    w' = set_w_ctx (<[c := set_c_prom None k]> (w_ctx w)) w ∧ running w' this s r b c)) w.
Proof.
  intros Hrun Hk Hc. unfold wait_resume. rewrite wp_bind. unfold wp at 1.
  rewrite (resume_running _ _ _ _ _ _ _ Hrun Hk) by done. simpl.
  rewrite wp_bind, wp_get_thr, (ti_thr _ _ _ _ _ (ru_inv _ _ _ _ _ _ Hrun)).
  rewrite (ru_cur _ _ _ _ _ _ Hrun). wp_steps. rewrite Hc, wp_ret. split; [done|by apply running_set_ctx].
Qed.

Lemma wait_resume_returns w this s r b c k :
  running w this s r b c → w_ctx w !! c = Some k → c_canceled k = false →
  wp (wait_resume this c) (returns (λ _ w', ∃ s',
    running w' this s' r b c ∧ w_prom w' = w_prom w ∧
    prom_of (w_ctx w') c = None)) w.
Proof.
  intros Hrun Hk Hc. eapply wp_mono, wait_resume_runs; [|done..]. intros [[]|?|?] w'; try done.
  intros [-> Hrun']. exists s. split_and!; [done|done|]. unfold prom_of. simpl. by rewrite lookup_insert_eq.
Qed.

(** A running context that completes a promise keeps running, with the waiter
    first in line. *)
Lemma running_woken w w' this s r b1 c b2 p k k' x :
  running w this s r (b1 ++ c :: b2) x → w_prom w !! p = Some k →
  m_blocked_thread k' = m_blocked_thread k →
  waiter_woken (with_prom w p k') this s c r (b1 ++ b2) w' →
  ∃ s', running w' this s' (c :: r) (b1 ++ b2) x ∧
    sleep_pqueue s' ≡ₚ filter (λ x, x ≠ c) (sleep_pqueue s) ∧
    w_prom w' = <[p := k']> (w_prom w) ∧ w_task w' = w_task w ∧ same_but_sched s s' ∧
    w_ticks w' = w_ticks w ∧
    (∀ x, resume_time_of (w_ctx w') x = resume_time_of (w_ctx w) x) ∧
    (∀ x, c_canceled <$> w_ctx w' !! x = c_canceled <$> w_ctx w !! x).
Proof.
  intros [Hinv Hself Hsch Hcur Hx Hxr Hxb Hxs Hfr] Hk Hk' Hw.
  destruct (thread_inv_woken _ _ _ _ _ _ _ _ _ _ _ Hinv Hk Hk' Hw)
    as (s' & Hinv' & Hsl & Hpr & Hf & Hres).
  assert (Hst : w_task w' = w_task w ∧ same_but_sched s s').
  { destruct Hw as (m' & s'' & -> & _ & _ & _ & Hst). split; [done|].
    pose proof (ti_thr _ _ _ _ _ Hinv') as Hthr. simpl in Hthr. rewrite lookup_insert_eq in Hthr. congruence. }
  exists s'. split_and!; [|done|done|apply Hst|apply Hst| |done|].
  - split; [done| | | | | | | |].
    + by rewrite (fr_self _ _ _ _ _ Hf).
    + by eapply framed_sch.
    + by rewrite (framed_current _ _ _ _ _ Hf).
    + by apply (fr_ctx _ _ _ _ _ Hf).
    + set_solver.
    + set_solver.
    + rewrite Hsl, list_elem_of_filter. naive_solver.
    + by eapply framed_fresh.
  - destruct Hw as (m' & s'' & -> & _). done.
  - destruct Hw as (m' & s'' & -> & _ & _ & Hwk & _). simpl in *. intros y.
    destruct (Hwk y) as [Hy|[_ Hy]]; revert Hy; destruct (m' !! y), (w_ctx w !! y);
      simpl; try done; intros Hy%Some_inj%(f_equal c_canceled); simpl in Hy; by rewrite Hy.
Qed.

(** With nobody's time come, [yield] jumps to the first ready context. *)
Lemma yield_to_first w this s c r b x :
  running w this s (c :: r) b x →
  (∀ y, y ∈ sleep_pqueue s → ¬ expired (w_ctx w) (now_at (w_ticks w)) y) →
  wp (yield this) (returns (λ sw w', ∃ s' b', sw = Switch x c false ∧
    running w' this s' (r ++ [x]) b' c ∧ (∀ p, w_prom w' !! p = w_prom w !! p) ∧
    w_task w' = w_task w ∧
    ∀ y, is_Some (w_ctx w !! y) → c_canceled <$> w_ctx w' !! y = c_canceled <$> w_ctx w !! y)) w.
Proof.
  intros Hrun Hnexp. eapply wp_mono, yield_switches; [|done].
  intros [sw|?|?] w2; try done.
  intros (r2 & b2 & s2 & w1 & s1 & Hexp & Hrun2 & Hsw & Hpr2 & Htk2 & _ & Hctx2).
  destruct (expired_into_nobody _ _ _ _ _ _ _ _ _ _ Hexp Hnexp) as (-> & _ & _ & He1 & Hp1).
  simpl in *. rewrite Hsw in *. exists s2, b2. split_and!; [done|done| |done|].
  - intros p. by rewrite Hpr2.
  - intros y Hy. apply erase_links_canceled. rewrite Hctx2; [apply He1|done].
Qed.

(** Setting the value of the promise a context waits for, and yielding to it *)
Lemma set_value_yield w this s r b1 c b2 x p k v :
  running w this s r (b1 ++ c :: b2) x →
  prom_of (w_ctx w) c = Some p → w_prom w !! p = Some k → m_error k = None →
  c_canceled <$> w_ctx w !! c = Some false →
  (∀ y, y ∈ sleep_pqueue s → ¬ expired (w_ctx w) (now_at (w_ticks w)) y) →
  wp (set_value p v) (returns (λ _ w1, wp (yield this) (returns (λ sw w', sw_next sw = c ∧
    ∃ s' b' k', running w' this s' (r ++ [x]) b' c ∧
      w_ctx w' !! c = Some k' ∧ c_canceled k' = false ∧
      w_prom w' !! p = Some (set_m_value (Some v) k))) w1)) w.
Proof.
  intros Hrun Hp Hk He Hc Hnexp.
  pose proof (ru_inv _ _ _ _ _ _ Hrun) as [Hthr Hrep Hprom Hsole Hsleep].
  destruct (Hprom c ltac:(set_solver)) as (q & kq & Hq & Hkq & Hbt). simplify_eq.
  eapply wp_mono, set_value_wakes; try done;
    [|by apply Hrun|split; [done|]; intros y Hy Hpy; eapply Hsole; [done| |done|done]; set_solver].
  intros [[]|?|?] w1; try done. intros Hw1.
  eapply (running_woken _ _ _ _ _ _ _ _ _ k) in Hw1 as
    (s1 & Hrun1 & Hsl1 & Hpr1 & _ & _ & Htk1 & Hres1 & Hcan1); [|done..].
  eapply wp_mono, yield_to_first; [|exact Hrun1|].
  2:{ intros y. rewrite Hsl1, list_elem_of_filter, Htk1. unfold expired. rewrite Hres1.
      intros [_ Hy]. by apply Hnexp. }
  intros [sw|?|?] w2; try done. intros (s2 & b2' & -> & Hrun2 & Hpr2 & _ & Hcan2). split; [done|].
  assert (Hc2 : c_canceled <$> w_ctx w2 !! c = Some false).
  { rewrite Hcan2, Hcan1, Hc; [done|]. rewrite <-(fmap_is_Some c_canceled), Hcan1, Hc. eauto. }
  apply fmap_Some in Hc2 as (k2 & Hk2 & Hk2c). exists s2, b2', k2. split_and!; try done.
  by rewrite Hpr2, Hpr1, lookup_insert_eq.
Qed.

Lemma wait_returns_at_once w this p kp tmo :
  w_self w = this → w_prom w !! p = Some kp →
  (is_ready w p → wait this p tmo w = (Ret None, w)) ∧
  (¬ is_ready w p → (tmo < now_at (w_ticks w))%Z →
    wait this p tmo w = (Exc future_wait_timeout, set_w_ticks (S (w_ticks w)) w)).
Proof.
  intros Hself Hkp. split.
  - intros Hr. apply wp_run. unfold wait. rewrite wp_bind, wp_self, wp_bind, wp_check.
    rewrite bool_decide_eq_true_2 by done. rewrite wp_bind.
    eapply wp_mono, promise_ready_spec; [|done]. by intros o w' [-> ->].
  - intros Hn Ht. apply wp_run. unfold wait. rewrite wp_bind, wp_self, wp_bind, wp_check.
    rewrite bool_decide_eq_true_2 by done. unfold promise_ready.
    rewrite !wp_bind, wp_get_prom, Hkp, wp_ret.
    rewrite !bool_decide_eq_false_2 by (intros ?; apply Hn; exists kp; tauto). simpl.
    rewrite wp_bind, wp_now. by rewrite bool_decide_eq_true_2.
Qed.

Lemma sleep_until_switches w this s r b cur tp :
  running w this s r b cur → th_done s = false → (now_at (w_ticks w) < tp)%Z →
  wp (sleep_until this tp) (returns (λ sw w', ∃ r1 b1 s1,
    running w' this s1 (tail r1) b1 (sw_next sw) ∧
    sw = Switch cur (default (w_fresh w) (head r1)) (bool_decide (r1 = [])) ∧
    cur ∈ sleep_pqueue s1 ∧ prom_of (w_ctx w') cur = None ∧
    resume_time_of (w_ctx w') cur = tp)) w.
Proof.
  intros Hrun Hd Htp. destruct (ru_alloc _ _ _ _ _ _ Hrun) as [k Hk].
  eapply sleep_until_enter; [done..|]. intros w0 Hw0.
  eapply asleep_suspended in Hw0 as (l & -> & Hl & Hsu); [|done].
  eapply wp_mono, (suspend_switches w _ _ _ _ _ _ _ _ _ _ (w_ticks w) _ Hrun Hk Hsu);
    [|done|done| |by destruct w].
  - intros [sw|?|?] w'; try done.
    intros (r1 & b1 & s1 & (w1 & s2 & _ & Hrun' & Hsw & _) & _ & H2 & H3 & H4).
    simpl in *. rewrite app_nil_r in Hrun'. exists r1, b1, s1. split_and!; try done.
    apply H2. rewrite Hl. by left.
  - right. simpl. rewrite Hl. split; [by left|done].
Qed.

(** ** Properties *)

(** [yield] never fails: it switches to the first ready context once the
    expired ones were made ready too, or to a new one if there is none, and
    puts its caller at the back of the ready list. *)
Theorem yield_runs_next_ready w this s r b cur :
  running w this s r b cur →
  wp (yield this) (returns (λ sw w', ∃ r1 b1 s',
    made_ready w (filter (expired (w_ctx w) (now_at (w_ticks w))) (sleep_pqueue s)) r r1 ∧
    sw = Switch cur (default (w_fresh w) (head r1)) (bool_decide (r1 = [])) ∧
    running w' this s' (tail r1 ++ [cur]) b1 (sw_next sw))) w.
Proof.
  intros Hrun. eapply wp_mono, yield_switches; [|done].
  intros [sw|?|?] w'; try done.
  intros (r1 & b1 & s' & w1 & s1 & (_ & _ & _ & Hr & _) & Hrun' & Hsw & _).
  by exists r1, b1, s'.
Qed.

(** C10: yielding is round robin: with nobody asleep, contexts that keep
    yielding run in the order of the ready list, and after all of them the
    first caller runs again, with the ready list as it was. *)
Theorem yields_round_robin w this s r b cur :
  running w this s r b cur → r ≠ [] → sleep_pqueue s = [] → none_canceled w (cur :: r) →
  wp (yields (S (length r)) this) (returns (λ xs w', xs = r ++ [cur] ∧ ∃ s' b',
    running w' this s' r b' cur ∧ ∀ c, c ∈ b' ↔ c ∈ b)) w.
Proof.
  intros Hrun Hne Hs Hnc. rewrite <-Nat.add_1_r. apply yields_app.
  rewrite <-(app_nil_r r) in Hrun, Hnc. eapply wp_mono, yields_prefix; [|done..].
  intros [xs|?|?] w1; try done. intros (-> & s1 & b1 & Hrun1 & Hs1 & Hnc1 & Hb1).
  destruct (exists_last Hne) as (l & z & ->). rewrite app_nil_r in *.
  change (cur :: l ++ [z]) with ((cur :: l) ++ [z]) in Hrun1.
  rewrite removelast_last, List.last_last in Hrun1.
  eapply wp_mono, (yields_prefix _ _ _ [cur] l); [|done|done|].
  - intros [ys|?|?] w2; try done. intros (-> & s2 & b2 & Hrun2 & _ & _ & Hb2).
    split; [done|]. exists s2, b2. split; [done|]. intros c. by rewrite Hb2.
  - intros c Hc. apply Hnc1. set_solver +Hc.
Qed.

(** C11: a context that waits for a promise nobody has completed is suspended:
    it is blocked on that promise, asleep until the timeout if there is one,
    and another context of the thread runs. *)
Theorem wait_blocks_caller w this s r b cur p kp tmo :
  running w this s r b cur → w_prom w !! p = Some kp →
  m_error kp = None → m_value kp = None → m_blocked_thread kp = Some this →
  (∀ x, x ∈ b ++ sleep_pqueue s → prom_of (w_ctx w) x ≠ Some p) →
  (now_at (w_ticks w) ≤ tmo)%Z →
  tmo = time_point_max ∨ (now_at (S (w_ticks w)) < tmo)%Z →
  wp (wait this p tmo) (returns (λ osw w', ∃ sw r1 b1 s1,
    osw = Some sw ∧ running w' this s1 (tail r1) b1 (sw_next sw) ∧
    sw = Switch cur (default (w_fresh w) (head r1)) (bool_decide (r1 = [])) ∧
    cur ∈ b1 ∧ prom_of (w_ctx w') cur = Some p ∧
    (tmo ≠ time_point_max → cur ∈ sleep_pqueue s1 ∧ resume_time_of (w_ctx w') cur = tmo))) w.
Proof. by apply wait_suspends. Qed.

(** [wait] does not block when it need not: it returns at once for a
    promise that has a value or an error, whatever the timeout, and throws
    [future_wait_timeout] at once when the time is already over. *)
Theorem wait_without_blocking w this p kp tmo :
  w_self w = this → w_prom w !! p = Some kp →
  (is_ready w p → wait this p tmo w = (Ret None, w)) ∧
  (¬ is_ready w p → (tmo < now_at (w_ticks w))%Z →
    wait this p tmo w = (Exc future_wait_timeout, set_w_ticks (S (w_ticks w)) w)).
Proof. by apply wait_returns_at_once. Qed.

(** C5: completing a promise resumes its waiter: when the running context
    sets the value and yields, the next context to run is the waiter, whose
    [wait] then returns, no longer waiting, with the value in the promise; the
    context that set the value is last in line. *)
Theorem set_value_then_yield_resumes w this s r b1 c b2 x p k v :
  running w this s r (b1 ++ c :: b2) x →
  prom_of (w_ctx w) c = Some p → w_prom w !! p = Some k → m_error k = None →
  c_canceled <$> w_ctx w !! c = Some false →
  (∀ y, y ∈ sleep_pqueue s → ¬ expired (w_ctx w) (now_at (w_ticks w)) y) →
  wp (set_value p v;; sw ← yield this; wait_resume this (sw_next sw);; mret (sw_next sw))
    (returns (λ y w', y = c ∧ ∃ s' b', running w' this s' (r ++ [x]) b' c ∧
      prom_of (w_ctx w') c = None ∧
      w_prom w' !! p = Some (set_m_value (Some v) k))) w.
Proof.
  intros Hrun Hp Hk He Hc Hnexp. rewrite wp_bind.
  eapply wp_mono, (set_value_yield w this s r b1 c b2 x p k v); [|done..].
  intros [[]|?|?] w1; try done. intros Hw1. rewrite wp_bind. eapply wp_mono, Hw1.
  intros [sw|?|?] w2; try done. intros (-> & s2 & b2' & k2 & Hrun2 & Hk2 & Hk2c & Hpr2).
  rewrite wp_bind. eapply wp_mono, wait_resume_returns; [|done..].
  intros [[]|?|?] w3; try done. intros (s3 & Hrun3 & Hpr3 & Hnone).
  rewrite wp_ret. split; [done|]. exists s3, b2'. split_and!; [done|done|]. by rewrite Hpr3.
Qed.

(** [sleep_until] a time to come suspends its caller on the sleep queue
    alone, with that resume time and no promise, and another context runs. *)
Theorem sleep_until_suspends w this s r b cur tp :
  running w this s r b cur → th_done s = false → (now_at (w_ticks w) < tp)%Z →
  wp (sleep_until this tp) (returns (λ sw w', ∃ r1 b1 s1,
    running w' this s1 (tail r1) b1 (sw_next sw) ∧
    sw = Switch cur (default (w_fresh w) (head r1)) (bool_decide (r1 = [])) ∧
    cur ∈ sleep_pqueue s1 ∧ prom_of (w_ctx w') cur = None ∧
    resume_time_of (w_ctx w') cur = tp)) w.
Proof. by apply sleep_until_switches. Qed.

(** A context alone on its thread cannot sleep until a time that is over:
    the timeout makes it the first ready context, and the assertion of
    [start_next_task] that the next context is another one fails. *)
Theorem sleep_until_past_asserts w this s b cur tp :
  running w this s [] b cur → th_done s = false → sleep_pqueue s = [] →
  (tp ≤ now_at (w_ticks w))%Z →
  wp (sleep_until this tp) (λ o _, o = Undef AssertFailed) w.
Proof.
  intros Hrun Hd Hs Htp. destruct (ru_alloc _ _ _ _ _ _ Hrun) as [k Hk].
  eapply sleep_until_enter; [done..|]. intros w0 Hw0.
  eapply asleep_suspended in Hw0 as (l & Hw0 & Hl & Hsu); [|done].
  rewrite Hs in Hl. apply Permutation_singleton_r in Hl as ->.
  pose proof (thread_inv_suspend _ _ _ _ _ _ _ _ _ _ _ Hrun Hk Hsu) as Hinv.
  rewrite <-Hw0 in Hinv. destruct Hrun as [_ Hself Hsch Hcur _ _ _ _ Hfr].
  assert (Hcur0 : w_ctx w0 !! cur = Some (set_c_prom None (set_c_resume_time tp k)))
    by (subst; apply lookup_insert_eq).
  eapply wp_mono, start_next_task_spec; try done; try (by subst); try (by eauto).
  - intros o w' (w1 & s1 & r1 & b1 & (_ & _ & _ & Hr & _) & Hj).
    change (sleep_pqueue _) with [cur] in Hr. rewrite filter_all in Hr.
    2:{ intros x ->%list_elem_of_singleton. unfold expired, resume_time_of.
        rewrite Hcur0. subst. simpl. lia. }
    destruct Hr as (pre & post & -> & Hperm & _). simpl in Hj. unfold jumped in Hj.
    apply Permutation_singleton_r in Hperm. rewrite Hperm in Hj. simpl in Hj.
    by rewrite decide_True in Hj.
  - set_solver +.
  - rewrite Hw0. simpl. rewrite lookup_insert_ne; [by apply Hfr|].
    intros Heq. pose proof (Hfr cur) as Hn. rewrite Hn in Hk; [done|lia].
Qed.
End blocking.
