(* ===== verification/Quit.v ===== *)
(** [thread::quit] on its own thread (thread.cpp): every ready and every
    sleeping context is canceled and made ready, so that it resumes with
    [task_canceled]; of the blocked contexts only the first is woken, and a
    ready context that waits for nothing makes the loop dereference null. *)
From S2P Require Import Prelude StdHeap World ReadyList TaskQueue Notify Scheduler.

Section ops.
Context {T : Type} `{!Clock} `{!HeapAlgo nat}.
Abbreviation C := (M (world T) exn).

(** The loops of [thread::quit] on its own thread. The first follows
    [cmt_context::next], as the code does. *)
Fixpoint quit_blocked (fuel : nat) (cur : ptr) : C unit :=
  match cur, fuel with
  | None, _ => mret tt
  | Some _, 0 => undef Diverges
  | Some c, S fuel =>
    k ← get_ctx c;
    p ← deref (c_prom k);
    set_exception p thread_quit;;
    k' ← get_ctx c;
    quit_blocked fuel (c_next k')
  end.

Fixpoint quit_ready (fuel : nat) (cur : ptr) : C unit :=
  match cur, fuel with
  | None, _ => mret tt
  | Some _, 0 => undef Diverges
  | Some c, S fuel =>
    mod_ctx c (set_c_canceled true);;
    k ← get_ctx c;
    quit_ready fuel (c_next k)
  end.

Fixpoint quit_sleep (this : nat) (l : list nat) : C unit :=
  match l with
  | [] => mret tt
  | c :: l =>
    mod_ctx c (set_c_canceled true);;
    ready_push_front this c;;
    quit_sleep this l
  end.

(** [thread::quit] called on the thread itself. *)
Definition quit (this : nat) : C unit :=
  s ← get_thr this;
  m ← gets w_ctx;
  quit_blocked (size m) (blocked s);;
  s ← get_thr this;
  quit_ready (size m) (ready_head s);;
  quit_sleep this (sleep_pqueue s);;
  mod_thr this (set_sleep_pqueue []);;
  mod_thr this (set_th_done true);;
  mod_thr this (λ s, set_task_ready (S (task_ready s)) s).
End ops.

Section quit.
Context {T : Type} `{!Clock} `{HeapSpec nat}.
Implicit Types (w : world T) (m : ctx_map).

(** [m'] is [m] with the contexts [xs] canceled. *)
Definition cancel_all m (xs : list nat) (m' : ctx_map) : Prop :=
  ∀ x, m' !! x = (if decide (x ∈ xs) then set_c_canceled true else id) <$> m !! x.

Lemma cancel_all_next m xs m' x : cancel_all m xs m' → next_of m' x = next_of m x.
Proof.
  intros Hm. unfold next_of. rewrite Hm. destruct (m !! x); simpl; [|done].
  by case_decide.
Qed.

Lemma cancel_all_next_blocked m xs m' x :
  cancel_all m xs m' → next_blocked_of m' x = next_blocked_of m x.
Proof.
  intros Hm. unfold next_blocked_of. rewrite Hm. destruct (m !! x); simpl; [|done].
  by case_decide.
Qed.

Lemma cancel_all_allocated m xs m' ys :
  cancel_all m xs m' → allocated m ys → allocated m' ys.
Proof. intros Hm Ha y Hy. rewrite Hm. by apply fmap_is_Some, Ha. Qed.

Lemma cancel_all_nil m : cancel_all m [] m.
Proof.
  intros x. rewrite decide_False by apply not_elem_of_nil. by destruct (m !! x).
Qed.

Lemma cancel_all_cons m x k xs m' :
  m !! x = Some k → cancel_all (<[x:=set_c_canceled true k]> m) xs m' →
  cancel_all m (x :: xs) m'.
Proof.
  intros Hx Hm y. rewrite Hm, lookup_insert. destruct (decide (x = y)) as [<-|Hne].
  - rewrite (decide_True (P := x ∈ x :: xs)) by by left. rewrite Hx. simpl.
    by case_decide.
  - destruct (decide (y ∈ xs)) as [Hy|Hy].
    + by rewrite decide_True by by right.
    + rewrite decide_False; [done|]. rewrite elem_of_cons. naive_solver.
Qed.

Lemma ready_rep_canceled m xs m' s r :
  cancel_all m xs m' → ready_rep m s r → ready_rep m' s r.
Proof.
  intros Hm (H1 & H2 & H3). split; [|split; [done|by eapply cancel_all_allocated]].
  eapply lseg_ext; [|done]. intros x _. symmetry. by eapply cancel_all_next.
Qed.

Lemma blocked_rep_canceled m xs m' s b :
  cancel_all m xs m' → blocked_rep m s b → blocked_rep m' s b.
Proof.
  intros Hm (H1 & H2). split; [|by eapply cancel_all_allocated].
  eapply lseg_ext; [|done]. intros x _. symmetry. by eapply cancel_all_next_blocked.
Qed.

(** The loop over the ready contexts cancels them all. *)
Lemma quit_ready_spec fuel w cur xs :
  chain (next_of (w_ctx w)) cur xs → allocated (w_ctx w) xs → length xs ≤ fuel →
  wp (quit_ready fuel cur) (returns (λ _ w', ∃ m',
    w' = set_w_ctx m' w ∧ cancel_all (w_ctx w) xs m')) w.
Proof.
  revert w cur xs. induction fuel as [|fuel IH]; intros w cur xs Hc Ha Hf;
    (destruct xs as [|x xs]; simpl in Hf; [|try lia]).
  1,2: simpl in Hc; subst; exists (w_ctx w); split; [by destruct w|apply cancel_all_nil].
  destruct Hc as [-> Hc]. destruct (Ha x ltac:(by left)) as [k Hk]. simpl.
  rewrite wp_bind, wp_mod_ctx, Hk, wp_bind, wp_get_ctx. simpl. rewrite lookup_insert_eq.
  simpl. unfold next_of at 2 in Hc. rewrite Hk in Hc. simpl in Hc.
  set (w1 := set_w_ctx _ w).
  assert (Hm1 : cancel_all (w_ctx w) [x] (w_ctx w1)).
  { eapply cancel_all_cons; [done|apply cancel_all_nil]. }
  eapply wp_mono, (IH w1 (c_next k) xs); [| | |lia].
  - intros [[]|?|?] w2; try done. intros (m2 & -> & Hm2). exists m2. split; [done|].
    by eapply cancel_all_cons.
  - eapply lseg_ext; [|exact Hc]. intros y _. symmetry. by eapply cancel_all_next.
  - eapply cancel_all_allocated; [done|]. intros y Hy. apply Ha. by right.
Qed.

(** Canceled, and otherwise changed in the ready link only. *)
Definition canceled_relinked m (xs : list nat) m' : Prop :=
  ∃ m1, cancel_all m xs m1 ∧ same_but_next m1 m'.

Lemma canceled_relinked_cons m x k xs m1 m' :
  m !! x = Some k → same_but_next (<[x:=set_c_canceled true k]> m) m1 →
  canceled_relinked m1 xs m' → canceled_relinked m (x :: xs) m'.
Proof.
  intros Hx Hm1 (m2 & Hc2 & Hm2).
  set (f := λ y, if decide (y ∈ xs) then set_c_canceled true else id).
  set (m0 := <[x:=set_c_canceled true k]> m) in *.
  exists (map_imap (λ y k, Some (f y k)) m0). split.
  - eapply cancel_all_cons; [done|]. intros y. rewrite map_lookup_imap.
    fold m0. destruct (m0 !! y); done.
  - transitivity m2; [|done]. apply map_eq. intros y.
    rewrite !lookup_fmap, map_lookup_imap, Hc2.
    apply (same_but_next_lookup _ _ y) in Hm1.
    destruct (m0 !! y) as [k0|], (m1 !! y) as [k1|]; simpl in *; try done.
    apply Some_inj in Hm1. fold (f y). f_equal. unfold f. case_decide; [|done].
    apply (f_equal (set_c_canceled true)) in Hm1. exact Hm1.
Qed.

(** The loop over the sleeping contexts cancels them and pushes each in front. *)
Lemma quit_sleep_spec w this s r l :
  w_thr w !! this = Some s → ready_rep (w_ctx w) s r → NoDup l →
  (∀ c, c ∈ l → c ∉ r) → allocated (w_ctx w) l →
  wp (quit_sleep this l) (returns (λ _ w', ∃ m' s', w' = ready_upd w this m' s' ∧
    ready_rep m' s' (reverse l ++ r) ∧ canceled_relinked (w_ctx w) l m' ∧
    same_but_ready s s')) w.
Proof.
  revert w s r. induction l as [|c l IH]; intros w s r Hs Hr Hnd Hlr Ha; simpl.
  { rewrite wp_ret. exists (w_ctx w), s. split; [|split_and!; [done| |done]].
    - unfold ready_upd. rewrite insert_id by done. by destruct w.
    - exists (w_ctx w). split; [apply cancel_all_nil|done]. }
  apply NoDup_cons in Hnd as [Hcl Hnd]. destruct (Ha c ltac:(by left)) as [k Hk].
  rewrite wp_bind, wp_mod_ctx, Hk, wp_bind.
  set (w1 := set_w_ctx (<[c:=set_c_canceled true k]> (w_ctx w)) w).
  assert (Hm1 : cancel_all (w_ctx w) [c] (w_ctx w1)).
  { eapply cancel_all_cons; [done|apply cancel_all_nil]. }
  eapply wp_mono, (ready_push_front_spec w1 _ s r);
    [|done|by eapply ready_rep_canceled|by apply Hlr; left|by simpl; rewrite lookup_insert_eq].
  intros [[]|?|?] w2; try done. intros (_ & m2 & s2 & -> & Hr2 & Hm2 & Hs2).
  eapply wp_mono, (IH _ s2 (c :: r)); [|apply ready_upd_lookup|done|done| |].
  - intros [[]|?|?] w3; try done. intros (m3 & s3 & -> & Hr3 & Hm3 & Hs3).
    rewrite ready_upd_twice. exists m3, s3. split; [done|]. split_and!.
    + rewrite reverse_cons, <-app_assoc. done.
    + by eapply canceled_relinked_cons.
    + by etransitivity.
  - intros y Hy [->|Hyr]%elem_of_cons; [done|]. by apply (Hlr y); [right|].
  - simpl. eapply same_but_next_allocated; [done|]. eapply cancel_all_allocated; [done|].
    intros y Hy. apply Ha. by right.
Qed.

(** The flag that makes a context resume with [task_canceled]. *)
Definition is_canceled w (c : nat) : Prop := c_canceled <$> w_ctx w !! c = Some true.

Lemma canceled_relinked_flag m xs m' c :
  canceled_relinked m xs m' →
  c_canceled <$> m' !! c = (if decide (c ∈ xs) then λ _, true else id) <$> (c_canceled <$> m !! c).
Proof.
  intros (m1 & Hm1 & Hm'). apply (same_but_next_lookup _ _ c) in Hm'. rewrite Hm1 in Hm'.
  destruct (m !! c) as [k|], (m' !! c) as [k'|]; simpl in *; try done.
  apply Some_inj, (f_equal c_canceled) in Hm'. simpl in Hm'. rewrite <-Hm'. by case_decide.
Qed.

Lemma ready_length m s r : ready_rep m s r → length r ≤ size m.
Proof. intros Hr. apply NoDup_keys_size; [by eapply ready_rep_NoDup|apply Hr]. Qed.

(** The part of [quit] after the blocked contexts. *)
Lemma quit_awake_spec w this s r n :
  w_thr w !! this = Some s → ready_rep (w_ctx w) s r → length r ≤ n →
  NoDup (sleep_pqueue s) → (∀ c, c ∈ r → c ∉ sleep_pqueue s) →
  allocated (w_ctx w) (sleep_pqueue s) →
  wp (s ← get_thr this;
      quit_ready n (ready_head s);;
      quit_sleep this (sleep_pqueue s);;
      mod_thr this (set_sleep_pqueue []);;
      mod_thr this (set_th_done true);;
      mod_thr this (λ s, set_task_ready (S (task_ready s)) s))
    (returns (λ _ w', ∃ s' m1, w_thr w' = <[this:=s']> (w_thr w) ∧
      th_done s' = true ∧ sleep_pqueue s' = [] ∧ blocked s' = blocked s ∧
      task_ready s' = S (task_ready s) ∧
      ready_rep (w_ctx w') s' (reverse (sleep_pqueue s) ++ r) ∧
      cancel_all (w_ctx w) r m1 ∧
      canceled_relinked m1 (sleep_pqueue s) (w_ctx w'))) w.
Proof.
  intros Hs Hr Hn Hnd Hrs Ha. rewrite wp_bind, wp_get_thr, Hs, wp_bind.
  eapply wp_mono, quit_ready_spec; [|apply Hr|apply Hr|done].
  intros [[]|?|?] w1; try done. intros (m1 & -> & Hm1). rewrite wp_bind.
  eapply wp_mono, (quit_sleep_spec _ _ s r); [|done|by eapply ready_rep_canceled|done| |].
  2:{ intros c Hc Hcr. by apply (Hrs c). }
  2:{ eapply cancel_all_allocated; [exact Hm1|exact Ha]. }
  intros [[]|?|?] w2; try done. intros (m2 & s2 & -> & Hr2 & Hm2 & Hs2).
  wp_steps. eexists _, m1. rewrite !insert_insert_eq. split; [done|].
  split_and!; try done; [by apply (f_equal blocked) in Hs2|].
  apply (f_equal task_ready) in Hs2. simpl in *. by rewrite Hs2.
Qed.

Lemma is_canceled_after w w' (r l : list nat) m1 c :
  cancel_all (w_ctx w) r m1 → canceled_relinked m1 l (w_ctx w') →
  is_Some (w_ctx w !! c) →
  c_canceled <$> w_ctx w' !! c =
    (if decide (c ∈ r ++ l) then Some true else c_canceled <$> w_ctx w !! c).
Proof.
  intros Hm1 Hm2 [k Hk]. rewrite (canceled_relinked_flag _ _ _ _ Hm2), Hm1, Hk. simpl.
  destruct (decide (c ∈ l)) as [Hl|Hl].
  - by rewrite decide_True by (apply elem_of_app; by right).
  - destruct (decide (c ∈ r)) as [Hr|Hr].
    + by rewrite decide_True by (apply elem_of_app; by left).
    + rewrite decide_False; [done|]. rewrite elem_of_app. tauto.
Qed.

(** [quit] wakes the first blocked context [c], then goes on to [c]'s ready link. *)
Lemma quit_blocked_first w this s r c b fuel Q :
  thread_inv w this s r (c :: b) → w_self w = this →
  (∀ w' s', thread_inv w' this s' (c :: r) b → w_self w' = this → framed w w' this s s' →
    sleep_pqueue s' ≡ₚ filter (λ x, x ≠ c) (sleep_pqueue s) →
    woken (w_ctx w) (w_ctx w') c → wp (quit_blocked fuel (head r)) Q w') →
  wp (quit_blocked (S fuel) (Some c)) Q w.
Proof.
  intros Hinv Hself HQ. pose proof Hinv as [Hthr Hrep Hprom Hsole Hsleep].
  destruct (Hprom c ltac:(by left)) as (p & kp & Hp & Hkp & Hbt).
  assert (is_Some (w_ctx w !! c)) as [k Hk] by (apply (sr_blocked _ _ _ _ Hrep); by left).
  cbn [quit_blocked]. rewrite wp_bind, wp_get_ctx, Hk, wp_bind, wp_deref.
  unfold prom_of in Hp. rewrite Hk in Hp. simpl in Hp. rewrite Hp, wp_bind.
  eapply wp_mono, (set_exception_wakes w this p thread_quit kp s r [] c b); try done.
  2:{ split; [by unfold prom_of; rewrite Hk|]. intros x Hx Hpx.
      eapply Hsole; [exact Hx|by apply elem_of_app; left; left|exact Hpx|].
      unfold prom_of. by rewrite Hk. }
  intros [[]|?|?] w'; try done. intros Hw'.
  destruct (thread_inv_woken w w' this s r [] c b p kp (set_m_error (Some thread_quit) kp)
    Hinv Hkp eq_refl Hw') as (s' & Hinv' & Hsl & Hpr & Hf & _).
  destruct Hw' as (m'' & s'' & Hw' & _ & _ & Hwk & _).
  assert (Hr' := sr_ready _ _ _ _ (ti_rep _ _ _ _ _ Hinv')).
  assert (is_Some (w_ctx w' !! c)) as [k' Hk'] by (apply Hr'; by left).
  rewrite wp_bind, wp_get_ctx, Hk'.
  assert (c_next k' = head r) as ->.
  { destruct Hr' as ((_ & Hc) & _). unfold next_of at 2 in Hc. rewrite Hk' in Hc.
    destruct r; simpl in *; by destruct Hc. }
  eapply (HQ w' s'); try done; [by rewrite (fr_self _ _ _ _ _ Hf)|by subst].
Qed.

(** ** Properties *)

(** C33: with no blocked context, [quit] cancels every ready and every sleeping
    context, makes the sleeping ones ready (the last of the queue first), and
    marks the thread done. *)
Theorem quit_cancels_everything w this s r :
  thread_inv w this s r [] →
  wp (quit this) (returns (λ _ w', ∃ s', w_thr w' !! this = Some s' ∧
    th_done s' = true ∧ sleep_pqueue s' = [] ∧ blocked s' = None ∧
    ready_rep (w_ctx w') s' (reverse (sleep_pqueue s) ++ r) ∧
    ∀ c, c ∈ r ++ sleep_pqueue s → is_canceled w' c)) w.
Proof.
  intros [Hthr [Hr Hb Hh Ha Hnd Hrb Hrs] _ _ _]. unfold quit.
  assert (blocked s = None) as Hbl by (by destruct Hb as [Hb _]).
  rewrite wp_bind, wp_get_thr, Hthr, wp_bind, wp_gets, wp_bind, Hbl.
  assert (quit_blocked (size (w_ctx w)) None = mret () :> M (world T) exn unit) as ->
    by by destruct (size (w_ctx w)).
  rewrite wp_ret. eapply wp_mono, quit_awake_spec; try done; [|by eapply ready_length].
  intros [[]|?|?] w'; try done. intros (s' & m1 & Hw' & Hd & Hsl & Hb' & _ & Hr' & Hm1 & Hm2).
  exists s'. rewrite Hw', lookup_insert_eq, Hb'. split_and!; try done.
  intros c Hc. unfold is_canceled. rewrite (is_canceled_after _ _ _ _ _ _ Hm1 Hm2).
  - by rewrite decide_True.
  - apply elem_of_app in Hc as [Hc|Hc]; [by apply Hr|by apply Ha].
Qed.

(** [quit] wakes only the first of the blocked contexts: with nobody ready or
    asleep, all the others are still blocked, and not canceled, when it is done. *)
Theorem quit_skips_blocked w this s c b :
  thread_inv w this s [] (c :: b) → w_self w = this → sleep_pqueue s = [] →
  wp (quit this) (returns (λ _ w', ∃ s', w_thr w' !! this = Some s' ∧
    th_done s' = true ∧ blocked_rep (w_ctx w') s' b ∧ ready_rep (w_ctx w') s' [c] ∧
    ∀ x, x ∈ b → c_canceled <$> w_ctx w' !! x = c_canceled <$> w_ctx w !! x)) w.
Proof.
  intros Hinv Hself Hs. unfold quit.
  rewrite wp_bind, wp_get_thr, (ti_thr _ _ _ _ _ Hinv), wp_bind, wp_gets, wp_bind.
  pose proof (ti_rep _ _ _ _ _ Hinv) as Hrep.
  assert (blocked s = Some c) as -> by (by destruct (sr_blocked _ _ _ _ Hrep) as [[? _] _]).
  assert (Hsz : length [c] ≤ size (w_ctx w)).
  { apply NoDup_keys_size; [apply NoDup_singleton|]. intros x ->%list_elem_of_singleton.
    apply (sr_blocked _ _ _ _ Hrep). by left. }
  destruct (size (w_ctx w)) as [|n] eqn:Hn; [simpl in Hsz; lia|].
  eapply quit_blocked_first; [done|done|]. intros w1 s1 Hinv1 Hself1 Hf1 Hsl1 Hwk.
  assert (quit_blocked n (head []) = mret () :> M (world T) exn unit) as ->
    by by destruct n.
  rewrite wp_ret. rewrite Hs in Hsl1. apply Permutation_nil_r in Hsl1.
  pose proof Hinv1 as [Hthr1 [Hr1 Hb1 _ Ha1 Hnd1 _ Hrs1] _ _ _].
  eapply wp_mono, quit_awake_spec; try done.
  intros [[]|?|?] w'; try done. rewrite Hsl1.
  intros (s' & m1 & Hw' & Hd & _ & Hb' & _ & Hr' & Hm1 & (m2 & Hm2 & Hm2')).
  exists s'. rewrite Hw', lookup_insert_eq. split_and!; try done.
  - eapply same_but_next_blocked; [done|exact (eq_sym Hb')|].
    eapply blocked_rep_canceled; [done|]. by eapply blocked_rep_canceled.
  - intros x Hx. assert (Hx1 : is_Some (w_ctx w1 !! x)) by by apply Hb1.
    rewrite (is_canceled_after w1 w' [c] [] m1); [|done|by exists m2|done].
    assert (x ≠ c) as Hne.
    { intros ->. apply (sr_ready_blocked _ _ _ _ (ti_rep _ _ _ _ _ Hinv1) c); [by left|done]. }
    rewrite decide_False by (simpl; rewrite list_elem_of_singleton; done).
    destruct (Hwk x) as [Hw|[? _]]; [|done].
    destruct (w_ctx w1 !! x), (w_ctx w !! x); simpl in *; try done.
    apply Some_inj, (f_equal c_canceled) in Hw. simpl in Hw. by rewrite Hw.
Qed.

(** [quit] dereferences a null pointer when a context is blocked and the
    first ready context waits for no promise: its loop goes from the blocked
    context it woke to the ready contexts behind it. *)
Theorem quit_null_promise w this s x r c b :
  thread_inv w this s (x :: r) (c :: b) → w_self w = this →
  prom_of (w_ctx w) x = None →
  wp (quit this) (λ o _, o = Undef BadPointer) w.
Proof.
  intros Hinv Hself Hx. unfold quit.
  rewrite wp_bind, wp_get_thr, (ti_thr _ _ _ _ _ Hinv), wp_bind, wp_gets, wp_bind.
  pose proof (ti_rep _ _ _ _ _ Hinv) as Hrep.
  assert (blocked s = Some c) as -> by (by destruct (sr_blocked _ _ _ _ Hrep) as [[? _] _]).
  assert (Hsz : length [x; c] ≤ size (w_ctx w)).
  { apply NoDup_keys_size.
    - apply NoDup_cons. split; [|apply NoDup_singleton]. intros ->%list_elem_of_singleton.
      apply (sr_ready_blocked _ _ _ _ Hrep c); by left.
    - intros y [->|Hy]%elem_of_cons; [apply (sr_ready _ _ _ _ Hrep); by left|].
      apply list_elem_of_singleton in Hy. subst y. apply (sr_blocked _ _ _ _ Hrep). by left. }
  destruct (size (w_ctx w)) as [|[|n]] eqn:Hn; [simpl in Hsz; lia..|].
  eapply quit_blocked_first; [done|done|]. intros w1 s1 Hinv1 _ Hf1 _ Hwk.
  assert (is_Some (w_ctx w1 !! x)) as [k1 Hk1]
    by (apply (fr_ctx _ _ _ _ _ Hf1), (sr_ready _ _ _ _ Hrep); by left).
  cbn [head quit_blocked]. rewrite wp_bind, wp_get_ctx, Hk1, wp_bind, wp_deref.
  assert (Hx1 : prom_of (w_ctx w1) x = None).
  { rewrite (woken_prom _ _ _ _ Hwk); [done|]. intros ->.
    apply (sr_ready_blocked _ _ _ _ Hrep c); by left. }
  unfold prom_of in Hx1. rewrite Hk1 in Hx1. simpl in Hx1. by rewrite Hx1.
Qed.
End quit.
