(* ===== verification/Future.v ===== *)
(** Promises and futures as their users see them (future.hpp, future.cpp):
    [promise<T>::wait] and [wait_until] around the thread's [wait], the shared
    handle [future<T>], and canceling the task behind a promise ([task::cancel]
    in thread.cpp). A wait that blocks is cut at its context switch, like the
    operations of [Blocking.v]. *)
From S2P Require Import Prelude StdHeap World ReadyList TaskQueue Notify Scheduler Blocking.

(** The first half of a wait: a value at once, or the switch it blocked with. *)
Inductive waited (T : Type) :=
  | Value (v : T)
  | Blocked (sw : switch).
Arguments Value {T} v.
Arguments Blocked {T} sw.

Section ops.
Context {T : Type} `{!Clock} `{!HeapAlgo nat}.
Abbreviation C := (M (world T) exn).

(** [promise_base::enqueue_thread] *)
Definition enqueue_thread (p : nat) : C unit :=
  me ← self;
  mod_prom p (set_m_blocked_thread (Some me)).

(** [promise_base::wait], [promise_base::wait_until] *)
Definition promise_base_wait (p : nat) (timeout_us : Z) : C (option switch) :=
  me ← self; wait_us me p timeout_us.
Definition promise_base_wait_until (p : nat) (timeout_time : Z) : C (option switch) :=
  me ← self; wait me p timeout_time.

(** [promise<T>::error] *)
Definition promise_error (p : nat) : C bool :=
  k ← get_prom p; mret (bool_decide (is_Some (m_error k))).

(** What follows the blocking call in both waits. *)
Definition promise_result (p : nat) : C T :=
  k ← get_prom p;
  match m_error k with
  | Some er => mod_prom p (set_m_error None);; throw er
  | None =>
    match m_value k with
    | Some v => mret v
    | None => throw future_value_not_ready
    end
  end.

(** The two waits differ in the call that blocks. *)
Definition promise_wait_with (block : C (option switch)) (p : nat) : C (waited T) :=
  k ← get_prom p;
  match m_error k with
  | Some e => throw e
  | None =>
    match m_value k with
    | Some v => mret (Value v)
    | None =>
      enqueue_thread p;;
      osw ← block;
      match osw with
      | Some sw => mret (Blocked sw)
      | None => v ← promise_result p; mret (Value v)
      end
    end
  end.

(** [promise<T>::wait], [promise<T>::wait_until], up to the switch *)
Definition promise_wait (p : nat) (timeout : Z) : C (waited T) :=
  promise_wait_with (promise_base_wait p timeout) p.
Definition promise_wait_until (p : nat) (timeout : Z) : C (waited T) :=
  promise_wait_with (promise_base_wait_until p timeout) p.

(** ... and once the context [prev] that blocked is jumped back to. *)
Definition promise_wait_resume (this prev p : nat) : C T :=
  wait_resume this prev;; promise_result p.

(** [task::cancel], and [vtask::cancel], which overrides it with nothing. *)
Definition task_cancel (t : nat) : C unit :=
  k ← get_task t;
  match t_prom k with
  | None => mret tt
  | Some _ =>
    mod_task t (set_t_canceled true);;
    match t_active_context k with
    | Some c => mod_ctx c (set_c_canceled true);; mod_task t (set_t_active_context None)
    | None => mret tt
    end
  end.

(** [promise_base::cancel] *)
Definition promise_cancel (p : nat) : C unit :=
  k ← get_prom p;
  match m_task k with
  | Some t => task_cancel t
  | None => mret tt
  end.

(** ** [future<T>]: a pointer to a promise, which may be null *)

Abbreviation future := ptr.

Definition future_cancel (f : future) : C unit :=
  match f with
  | None => mret tt
  | Some p => r ← promise_ready p; if (r : bool) then mret tt else promise_cancel p
  end.

Definition future_valid (f : future) : bool := bool_decide (f ≠ None).

Definition future_ready (f : future) : C bool := p ← deref f; promise_ready p.

Definition future_error (f : future) : C bool :=
  match f with
  | Some p => promise_error p
  | None => mret false
  end.

Definition future_wait (f : future) (timeout : Z) : C (waited T) :=
  match f with
  | None => throw null_future
  | Some p => promise_wait p timeout
  end.

Definition future_wait_until (f : future) (timeout : Z) : C (waited T) :=
  match f with
  | None => throw null_future
  | Some p => promise_wait_until p timeout
  end.

(** [operator const T&] *)
Definition future_value (f : future) : C (waited T) :=
  match f with
  | None => throw null_future
  | Some p => promise_wait p microseconds_max
  end.

Lemma keeps_promise_wait_resume this prev p : keeps (others this) (promise_wait_resume this prev p).
Proof. unfold promise_wait_resume, promise_result. solve_keeps. Qed.
Lemma keeps_task_wait_resume this prev p : keeps w_task (promise_wait_resume this prev p).
Proof.
  unfold promise_wait_resume, promise_result, wait_resume, start_next_task_resume. solve_keeps.
Qed.
End ops.

#[export] Hint Resolve keeps_promise_wait_resume keeps_task_wait_resume : keeps.


Section future.
Context {T : Type} `{!Clock} `{HeapSpec nat}.
Implicit Types (w : world T).

Lemma get_prom_run w p k : w_prom w !! p = Some k → get_prom p w = (Ret k, w).
Proof. intros Hk. unfold get_prom. by rewrite Hk. Qed.

(** [enqueue_thread] keeps the thread's contexts in order, as long as the
    promise does not change hands under a waiter. *)
Lemma running_enqueue_thread w this s r b cur p k :
  running w this s r b cur → w_prom w !! p = Some k →
  running (with_prom w p (set_m_blocked_thread (Some this) k)) this s r b cur.
Proof.
  intros [[Hthr Hrep Hprom Hsole Hsleep] ? ? ? ? ? ? ? ?] Hk.
  split; try done. split; simpl; try done.
  intros c Hc. destruct (Hprom c Hc) as (q & kq & Hq & Hkq & Hb). exists q.
  destruct (decide (p = q)) as [<-|Hne].
  - eexists. rewrite lookup_insert_eq. split_and!; [done|done|]. done.
  - exists kq. by rewrite lookup_insert_ne.
Qed.

Lemma wait_us_max w this p :
  wait_us this p microseconds_max w = wait this p time_point_max w.
Proof. unfold wait_us. by rewrite bool_decide_eq_true_2. Qed.

(** Waiting for a pending promise that nobody waits for. *)
Lemma promise_wait_blocks w this s r b cur p k :
  running w this s r b cur → w_prom w !! p = Some k →
  m_error k = None → m_value k = None →
  (∀ x, x ∈ b ++ sleep_pqueue s → prom_of (w_ctx w) x ≠ Some p) →
  (now_at (w_ticks w) ≤ time_point_max)%Z →
  wp (promise_wait p microseconds_max) (returns (λ wt w', ∃ sw r1 b1 s1,
    wt = Blocked sw ∧ running w' this s1 (tail r1) b1 (sw_next sw) ∧
    sw = Switch cur (default (w_fresh w) (head r1)) (bool_decide (r1 = [])) ∧
    cur ∈ b1 ∧ prom_of (w_ctx w') cur = Some p)) w.
Proof.
  intros Hrun Hk He Hv Hnone Hnow. pose proof (ru_self _ _ _ _ _ _ Hrun) as Hself.
  unfold promise_wait, promise_wait_with.
  rewrite wp_bind, wp_get_prom, Hk, He, Hv, wp_bind. unfold enqueue_thread.
  rewrite wp_bind, wp_self, wp_mod_prom, Hk, Hself, wp_bind. unfold promise_base_wait.
  rewrite wp_bind, wp_self. simpl. rewrite Hself.
  fold (with_prom w p (set_m_blocked_thread (Some this) k)).
  set (w1 := with_prom w p _).
  assert (Hrun1 : running w1 this s r b cur) by by apply running_enqueue_thread.
  unfold wp at 1. rewrite wait_us_max.
  change (wp (wait this p time_point_max) (λ o w', match o with
    | Ret a => wp (match a with
        | Some sw => mret (Blocked sw)
        | None => v ← promise_result p; mret (Value v)
        end) (returns (λ wt w', ∃ sw r1 b1 s1,
          wt = Blocked sw ∧ running w' this s1 (tail r1) b1 (sw_next sw) ∧
          sw = Switch cur (default (w_fresh w) (head r1)) (bool_decide (r1 = [])) ∧
          cur ∈ b1 ∧ prom_of (w_ctx w') cur = Some p)) w'
    | Exc e => False
    | Undef u => False
    end) w1).
  eapply wp_mono, (wait_suspends w1 this s r b cur p
    (set_m_blocked_thread (Some this) k) time_point_max Hrun1);
    [|apply lookup_insert_eq|done|done|done|done|done|by left].
  intros [o|?|?] w2; try done. intros (sw & r1 & b1 & s1 & -> & Hrun2 & Hsw & Hb1 & Hp & _).
  rewrite wp_ret. by exists sw, r1, b1, s1.
Qed.

(** A new promise does not disturb the running thread. *)
Lemma running_alloc_prom w this s r b cur :
  running w this s r b cur → w_prom w !! w_fresh w = None →
  running (set_w_fresh (S (w_fresh w)) (with_prom w (w_fresh w) new_promise)) this s r b cur ∧
  ∀ x, x ∈ b ++ sleep_pqueue s → prom_of (w_ctx w) x ≠ Some (w_fresh w).
Proof.
  intros [[Hthr Hrep Hprom Hsole Hsleep] ? ? ? ? ? ? ? Hfresh] Hnone.
  assert (Hb : ∀ x, x ∈ b → prom_of (w_ctx w) x ≠ Some (w_fresh w)).
  { intros x Hx Hp. destruct (Hprom x Hx) as (p & k & Hp' & Hk & _). congruence. }
  split.
  - split; try done; [split; try done|].
    + intros c Hc. destruct (Hprom c Hc) as (p & k & Hp & Hk & Hbt). exists p, k.
      split_and!; try done. simpl. rewrite lookup_insert_ne; [done|congruence].
    + intros a Ha. apply Hfresh. simpl in Ha. lia.
  - intros x Hx. apply elem_of_app in Hx as [Hx|Hx]; [by apply Hb|]. intros Hp.
    apply (Hb x); [|done]. apply Hsleep; [done|]. by exists (w_fresh w).
Qed.

(** ** Properties *)

(** Waiting for a completed promise never blocks and changes nothing: it
    rethrows the error, which the promise keeps, or returns the value, an error
    taking precedence over a value. *)
Theorem wait_for_completed_promise w p k tmo :
  w_prom w !! p = Some k → is_ready w p →
  promise_wait p tmo w = (match m_error k, m_value k with
    | Some e, _ => Exc e
    | None, Some v => Ret (Value v)
    | None, None => Undef BadPointer
    end, w) ∧ promise_wait_until p tmo w = promise_wait p tmo w.
Proof.
  intros Hk (k' & Hk' & Hr). simplify_eq.
  assert (Hw : ∀ block, promise_wait_with block p w = (match m_error k, m_value k with
    | Some e, _ => Exc e
    | None, Some v => Ret (Value v)
    | None, None => Undef BadPointer
    end, w)).
  { intros block. unfold promise_wait_with, mbind, M_bind. rewrite (get_prom_run _ _ _ Hk).
    destruct (m_error k) as [e|]; [done|]. destruct (m_value k); [done|].
    by destruct Hr as [[? ?]|?]. }
  unfold promise_wait, promise_wait_until. by rewrite !Hw.
Qed.

(** [future::wait] on the result of an operation that has not finished
    registers the calling thread with the promise and suspends the caller until
    the promise is completed. *)
Theorem future_wait_blocks w this s r b cur p k :
  running w this s r b cur → w_prom w !! p = Some k →
  m_error k = None → m_value k = None →
  (∀ x, x ∈ b ++ sleep_pqueue s → prom_of (w_ctx w) x ≠ Some p) →
  (now_at (w_ticks w) ≤ time_point_max)%Z →
  wp (future_wait (Some p) microseconds_max) (returns (λ wt w', ∃ sw r1 b1 s1,
    wt = Blocked sw ∧ running w' this s1 (tail r1) b1 (sw_next sw) ∧
    sw = Switch cur (default (w_fresh w) (head r1)) (bool_decide (r1 = [])) ∧
    cur ∈ b1 ∧ prom_of (w_ctx w') cur = Some p)) w.
Proof. by apply promise_wait_blocks. Qed.

(** A wait that blocked and then finds an error throws it and takes it out
    of the promise, unlike a wait that finds the error at once: without a value
    the promise is not ready any more. *)
Theorem blocked_wait_consumes_error w this s r b c p k e :
  running w this s r b c → c_canceled <$> w_ctx w !! c = Some false →
  w_prom w !! p = Some k → m_error k = Some e → m_value k = None →
  wp (promise_wait_resume this c p) (λ o w', o = Exc e ∧
    w_prom w' !! p = Some (set_m_error None k) ∧ ¬ is_ready w' p) w.
Proof.
  intros Hrun Hc Hk He Hv. apply fmap_Some in Hc as (kc & Hkc & Hcan).
  unfold promise_wait_resume. rewrite wp_bind.
  eapply wp_mono, wait_resume_returns; [|done..].
  intros [[]|?|?] w1; try done. intros (s1 & _ & Hpr & _). unfold promise_result.
  rewrite wp_bind, wp_get_prom, Hpr, Hk, He, wp_bind, wp_mod_prom, Hpr, Hk, wp_throw. simpl.
  split; [done|]. split; [apply lookup_insert_eq|].
  intros (k' & Hk' & Hr). simpl in Hk'. rewrite lookup_insert_eq in Hk'.
  simplify_eq. simpl in Hr. rewrite Hv in Hr. by destruct Hr as [[? ?]|?].
Qed.

(** A null future: waiting for it or converting it throws [null_future], it
    is not valid, has no error and canceling it does nothing, but asking whether
    it is ready dereferences null. *)
Theorem null_future_behaviour w tmo :
  future_wait None tmo w = (Exc null_future, w) ∧
  future_wait_until None tmo w = (Exc null_future, w) ∧
  future_value None w = (Exc null_future, w) ∧
  future_valid None = false ∧ future_error None w = (Ret false, w) ∧
  future_cancel None w = (Ret tt, w) ∧
  future_ready None w = (Undef BadPointer, w).
Proof. done. Qed.
End future.
