(* ===== verification/RunTask.v ===== *)
(** Starting and running tasks: [thread::async<T>], [schedule] and [sync]
    (thread.hpp) create a promise and a task bound to it and post the task;
    [rtask<R>::run] and [vtask::run] (task.hpp) run the task's functor and
    complete the promise. User functors are a parameter: any computation that
    runs to completion; the functors the library itself posts are its own
    operations. *)
From S2P Require Import Prelude StdHeap World ReadyList TaskQueue Notify Scheduler Blocking Quit Future.

Section ops.
Context {T : Type} `{!Clock} `{!HeapAlgo nat}.
Abbreviation C := (M (world T) exn).

(** The user's code, by its number, and the value [void_t()]. *)
Variable user : nat → C T.
Variable void_t : T.

(** The call of a [boost::function]. *)
Definition call (f : functor) : C T :=
  match f with
  | UserFn id => user id
  | BindNotify thr p => thread_notify thr p;; mret void_t
  | BindQuit thr => quit thr;; mret void_t
  end.

(** [rtask<R>::rtask], with and without a time *)
Definition new_rtask (f : functor) (p : nat) (tp prio : Z) : C nat :=
  t ← new_task prio tp f (Some p);
  mod_prom p (set_m_task (Some t));;
  mret t.

(** [rtask<R>::~rtask] *)
Definition delete_rtask (t : nat) : C unit :=
  k ← get_task t;
  p ← deref (t_prom k);
  mod_prom p (set_m_task None).

(** [rtask<R>::run] *)
Definition rtask_run (t : nat) : C unit :=
  k ← get_task t;
  p ← deref (t_prom k);
  catch
    (if t_canceled k then set_exception p task_canceled
     else v ← call (t_functor k); set_value p v)
    (λ e, set_exception p e).

(** [rtask<void>::run], whose functor, user code too, has no result *)
Definition call_void (user_void : nat → C unit) (f : functor) : C unit :=
  match f with
  | UserFn id => user_void id
  | BindNotify thr p => thread_notify thr p
  | BindQuit thr => quit thr
  end.

Definition rtask_void_run (user_void : nat → C unit) (t : nat) : C unit :=
  k ← get_task t;
  p ← deref (t_prom k);
  catch
    (if t_canceled k then set_exception p task_canceled
     else call_void user_void (t_functor k);; set_value p void_t)
    (λ e, set_exception p e).

(** [vtask::run]: boost and standard exceptions are logged. *)
Definition vtask_run (t : nat) : C unit :=
  k ← get_task t;
  catch
    (if t_canceled k then mret tt else call (t_functor k);; mret tt)
    (λ e, match e with foreign_error _ => undef AssertFailed | _ => mret tt end).

(** [task::run], by the task's class *)
Definition task_run (t : nat) : C unit :=
  k ← get_task t;
  match t_prom k with
  | Some _ => rtask_run t
  | None => vtask_run t
  end.

(** A promise, a task bound to it with the priority [prio], [retain] called on the task
    [n] times, and the task posted: [async], [schedule] and [sync] have this in common. *)
Definition post_rtask (this : nat) (f : functor) (tp : Z) (prio : C Z) (n : nat) : C (nat * nat) :=
  p ← alloc_prom;
  pr ← prio;
  t ← new_rtask f p tp pr;
  mod_task t (λ k, set_t_refs (t_refs k + Z.of_nat n) k);;
  async_task this t;;
  mret (p, t).

Definition at_least (this : nat) (prio : Z) : C Z :=
  cp ← current_priority this; mret (Z.max cp prio).

(** [thread::async<T>] and [thread::schedule<T>] *)
Definition async_at (this : nat) (f : functor) (tp prio : Z) : C nat :=
  pt ← post_rtask this f tp (at_least this prio) 0;
  mret pt.1.

Definition async (this : nat) (f : functor) (prio : Z) : C nat :=
  async_at this f time_point_min prio.

Definition schedule (this : nat) (f : functor) (when prio : Z) : C nat :=
  async_at this f when prio.

(** [thread::schedule] of a [void()] function, without a result *)
Definition schedule_void (this : nat) (f : functor) (when prio : Z) : C unit :=
  cp ← current_priority this;
  t ← new_task (Z.max cp prio) when f None;
  async_task this t.

(** [boost::cmt::async], on the current thread *)
Definition async_here (f : functor) (prio : Z) : C nat :=
  me ← self;
  cp ← current_priority me;
  async me f (Z.max cp prio).

(** [thread::quit], from any thread; joining the system thread is left out. *)
Definition thread_quit (this : nat) : C (waited T) :=
  me ← self;
  if bool_decide (me = this) then quit this;; mret (Value void_t)
  else
    p ← async this (BindQuit this) 0;
    future_wait (Some p) microseconds_max.
End ops.

(** ** Completing a promise never throws *)

Section nothrow.
Context {S E : Type}.

(** The computation ends without an exception, from every store. *)
Definition no_throw {A} (m : M S E A) : Prop :=
  ∀ s, match (m s).1 with Exc _ => False | _ => True end.

Lemma no_throw_bind {A B} (m : M S E A) (f : A → M S E B) :
  no_throw m → (∀ a, no_throw (f a)) → no_throw (a ← m; f a).
Proof.
  intros Hm Hf s. specialize (Hm s). unfold mbind, M_bind.
  destruct (m s) as [[a|e|u] s']; [apply Hf|done|done].
Qed.

Lemma no_throw_ret {A} (a : A) : no_throw (mret a : M S E A).
Proof. done. Qed.
Lemma no_throw_undef {A} u : no_throw (undef u : M S E A).
Proof. done. Qed.
Lemma no_throw_gets {A} (f : S → A) : no_throw (gets f : M S E A).
Proof. done. Qed.
Lemma no_throw_modify (f : S → S) : no_throw (modify f : M S E unit).
Proof. done. Qed.
Lemma no_throw_check b : no_throw (check b : M S E unit).
Proof. by destruct b. Qed.
Lemma no_throw_deref {A} (o : option A) : no_throw (deref o : M S E A).
Proof. by destruct o. Qed.
Lemma no_throw_when b (m : M S E unit) : no_throw m → no_throw (when b m).
Proof. by destruct b. Qed.

Lemma catch_no_throw {A} (m : M S E A) h s :
  (match (m s).1 with Exc _ => False | _ => True end) → catch m h s = m s.
Proof. unfold catch. by destruct (m s) as [[a|e|u] s']. Qed.
End nothrow.

Create HintDb nothrow.
#[export] Hint Resolve no_throw_bind no_throw_ret no_throw_undef no_throw_gets
  no_throw_modify no_throw_check no_throw_deref no_throw_when : nothrow.

Section world_nothrow.
Context {T : Type} `{!Clock} `{!HeapAlgo nat}.
Abbreviation C := (M (world T) exn).

Lemma no_throw_get_ctx c : no_throw (get_ctx c : C _).
Proof. intros w. unfold get_ctx. by destruct (w_ctx w !! c). Qed.
Lemma no_throw_get_prom p : no_throw (get_prom p : C _).
Proof. intros w. unfold get_prom. by destruct (w_prom w !! p). Qed.
Lemma no_throw_get_thr t : no_throw (get_thr t : C _).
Proof. intros w. unfold get_thr. by destruct (w_thr w !! t). Qed.
Lemma no_throw_mod_ctx c f : no_throw (mod_ctx c f : C _).
Proof. intros w. unfold mod_ctx. by destruct (w_ctx w !! c). Qed.
Lemma no_throw_mod_prom p f : no_throw (mod_prom p f : C _).
Proof. intros w. unfold mod_prom. by destruct (w_prom w !! p). Qed.
Lemma no_throw_mod_task t f : no_throw (mod_task t f : C _).
Proof. intros w. unfold mod_task. by destruct (w_task w !! t). Qed.
Lemma no_throw_mod_thr t f : no_throw (mod_thr t f : C _).
Proof. intros w. unfold mod_thr. by destruct (w_thr w !! t). Qed.
Lemma no_throw_self : no_throw (self : C _).
Proof. done. Qed.
Lemma no_throw_fresh : no_throw (fresh : C _).
Proof. done. Qed.

#[local] Hint Resolve no_throw_get_ctx no_throw_get_prom no_throw_get_thr no_throw_mod_ctx
  no_throw_mod_prom no_throw_mod_task no_throw_mod_thr no_throw_self no_throw_fresh : nothrow.

Lemma no_throw_ready_push_front this c : no_throw (ready_push_front this c : C _).
Proof. unfold ready_push_front. auto 10 with nothrow. Qed.

Lemma no_throw_blocked_unlink this pb c : no_throw (blocked_unlink this pb c : C _).
Proof. unfold blocked_unlink. destruct pb; auto 10 with nothrow. Qed.

#[local] Hint Resolve no_throw_ready_push_front no_throw_blocked_unlink : nothrow.

Lemma no_throw_notify_loop fuel this p pb c : no_throw (notify_loop fuel this p pb c : C _).
Proof.
  revert pb c. induction fuel as [|fuel IH]; intros pb [c|]; simpl; auto with nothrow.
  apply no_throw_bind; [auto with nothrow|]. intros k.
  destruct (try_unblock k p); auto 10 with nothrow.
Qed.

Lemma no_throw_thread_notify this p : no_throw (thread_notify this p : C _).
Proof.
  unfold thread_notify, promise_ready, async_fn, new_task, async_task, notify_sleep.
  repeat (apply no_throw_bind; [auto 10 with nothrow|intros ?]).
  case_bool_decide.
  - apply no_throw_bind; [|intros ?; auto 15 with nothrow].
    apply no_throw_bind; [auto with nothrow|]. intros n.
    destruct (in_int64 (n + 1)); auto 10 with nothrow.
  - repeat (apply no_throw_bind; [auto using no_throw_notify_loop with nothrow|intros ?]).
    destruct (list_find _ _) as [[i c]|]; auto 10 with nothrow.
Qed.

Lemma no_throw_promise_notify p : no_throw (promise_notify p : C _).
Proof.
  unfold promise_notify, promise_ready.
  repeat (apply no_throw_bind; [auto 10 with nothrow|intros ?]).
  destruct (m_blocked_thread _); auto using no_throw_thread_notify with nothrow.
Qed.

Lemma no_throw_set_value p v : no_throw (set_value p v : C _).
Proof.
  unfold set_value. apply no_throw_bind; [auto with nothrow|]. intros k.
  destruct (m_error k); auto using no_throw_promise_notify with nothrow.
Qed.

Lemma no_throw_set_exception p e : no_throw (set_exception p e : C _).
Proof. unfold set_exception. auto using no_throw_promise_notify with nothrow. Qed.
End world_nothrow.

Section run.
Context {T : Type} `{!Clock} `{HeapSpec nat}.
Implicit Types (w : world T).
Variable user : nat → M (world T) exn T.
Variable void_t : T.

Lemma bind_run {S E A B} (m : M S E A) (f : A → M S E B) s s' o :
  m s = (o, s') →
  mbind f m s = match o with
    | Ret a => f a s' | Exc e => (Exc e, s') | Undef u => (Undef u, s') end.
Proof. intros Hm. unfold mbind, M_bind. rewrite Hm. by destruct o. Qed.

(** What posting a task with a result does. *)
Record posted w w' this s xs p t (f : functor) (tp z : Z) (n : nat) s' : Prop := {
  po_thr : w_thr w' = <[this := s']> (w_thr w);
  po_posted : s' = if decide (w_self w = this) then set_task_in_queue (Some t) s else posted_to s t;
  po_prom : w_prom w' = <[p := set_m_task (Some t) new_promise]> (w_prom w);
  po_task : ∃ kt, w_task w' = <[t := kt]> (w_task w) ∧ t_functor kt = f ∧ t_prom kt = Some p ∧
    t_prio kt = z ∧ t_when kt = tp ∧ t_canceled kt = false ∧ t_refs kt = (1 + Z.of_nat n)%Z;
  po_queue : queue_rep (w_task w') s' (t :: xs);
  po_ctx : w_ctx w' = w_ctx w;
  po_self : w_self w' = w_self w;
  po_ticks : w_ticks w' = w_ticks w;
  po_fresh : w_fresh w' = S (S (w_fresh w));
  po_count : w_task_count w' = (w_task_count w + 1)%Z;
  po_number : posted_of (w_task w') t = to_uint64 (w_task_count w + 1);
}.

Lemma post_rtask_spec w this s xs f tp (prio : M (world T) exn Z) z n :
  w_thr w !! this = Some s → queue_rep (w_task w) s xs → in_int64 (w_task_count w + 1) = true →
  (∀ a, w_fresh w ≤ a → w_task w !! a = None) → (∀ w1, w_thr w1 = w_thr w → w_ctx w1 = w_ctx w → prio w1 = (Ret z, w1)) →
  wp (post_rtask this f tp prio n) (returns (λ pt w',
    pt = (w_fresh w, S (w_fresh w)) ∧ ∃ s', posted w w' this s xs pt.1 pt.2 f tp z n s')) w.
Proof.
  intros Hs Hq Hcnt Hfr Hprio. unfold post_rtask, alloc_prom, new_rtask, new_task.
  wp_steps. eapply wp_eq; [by apply Hprio|]. wp_steps. rewrite Hcnt. wp_steps. unfold async_task. wp_steps.
  set (t := S (w_fresh w)). set (kt := set_t_refs _ _). set (kp := set_m_task _ _).
  assert (Hn : w_task w !! t = None) by (apply Hfr; unfold t; lia).
  assert (Hout : t ∉ held s xs).
  { intros Hin. destruct (qr_alloc _ _ _ Hq t Hin) as [? ?]. congruence. }
  pose proof (queue_rep_fresh _ _ _ t kt Hout Hq) as Hq1.
  assert (Hxs : t ∉ xs) by (intros Hin; apply Hout; unfold held; apply elem_of_app; by left).
  pose proof (queue_rep_push _ _ t kt xs (lookup_insert_eq _ _ _) Hxs Hq1) as Hq2.
  rewrite insert_insert_eq in *.
  unfold when. case_bool_decide as Hself; simpl; wp_steps; (split; [done|]); eexists; split; simpl;
    rewrite ?insert_insert_eq, ?decide_True, ?decide_False by done; try done.
  all: try (by eexists).
  all: try (destruct Hq2; by split).
  all: unfold posted_of; by rewrite lookup_insert_eq.
Qed.

Lemma current_priority_run w this s c kc :
  w_thr w !! this = Some s → current s = Some c → w_ctx w !! c = Some kc →
  current_priority this w = (Ret (c_prio kc), w).
Proof. intros Hs Hc Hkc. apply wp_run. unfold current_priority. by wp_steps; rewrite Hc; wp_steps. Qed.

Lemma at_least_run w this s c kc prio :
  w_thr w !! this = Some s → current s = Some c → w_ctx w !! c = Some kc →
  at_least this prio w = (Ret (Z.max (c_prio kc) prio), w).
Proof. intros Hs Hc Hkc. apply wp_run. unfold at_least, current_priority. by wp_steps; rewrite Hc; wp_steps. Qed.

Lemma posted_held w w' this s xs p t f tp z n s' :
  posted w w' this s xs p t f tp z n s' → held s' (t :: xs) = t :: held s xs ∧ current s' = current s.
Proof. intros [_ -> _ _ _ _ _ _ _]. by case_decide. Qed.

Lemma async_posts w this s xs c kc f prio :
  w_thr w !! this = Some s → current s = Some c → w_ctx w !! c = Some kc →
  queue_rep (w_task w) s xs → in_int64 (w_task_count w + 1) = true →
  (∀ a, w_fresh w ≤ a → w_task w !! a = None) →
  wp (async this f prio) (returns (λ p w', ∃ s' t kt kp,
    p = w_fresh w ∧ w_thr w' = <[this:=s']> (w_thr w) ∧
    queue_rep (w_task w') s' (t :: xs) ∧
    w_task w' !! t = Some kt ∧ t_functor kt = f ∧ t_prom kt = Some p ∧
    t_prio kt = Z.max (c_prio kc) prio ∧ t_when kt = time_point_min ∧ t_canceled kt = false ∧
    w_prom w' !! p = Some kp ∧ m_task kp = Some t ∧ ¬ is_ready w' p ∧
    m_blocked_thread kp = None ∧ held s' (t :: xs) = t :: held s xs ∧ current s' = current s ∧
    t_refs kt = 1%Z)) w.
Proof.
  intros Hs Hc Hkc Hq Hcnt Hfr. unfold async, async_at. rewrite wp_bind.
  eapply wp_mono, (post_rtask_spec w this s xs f time_point_min _ (Z.max (c_prio kc) prio) 0); try done.
  2:{ intros w1 Ht Hx. apply (at_least_run w1 this s c); by rewrite ?Ht, ?Hx. }
  intros [pt|?|?] w'; try done. intros (-> & s' & Hpo). rewrite wp_ret. simpl in *.
  pose proof (posted_held _ _ _ _ _ _ _ _ _ _ _ _ Hpo) as [Hh Hcu].
  destruct Hpo as [Ht _ Hp (kt & Hk & ? & ? & ? & ? & ? & Hrf) Hq' _ _ _ _].
  exists s', (S (w_fresh w)), kt, (set_m_task (Some (S (w_fresh w))) new_promise).
  rewrite Hp, Hk, !lookup_insert_eq. split_and!; try done; [by rewrite <-Hk| ].
  intros (k & Hk' & Hr). rewrite Hp, lookup_insert_eq in Hk'. simplify_eq. by destruct Hr as [[? ?]|?].
Qed.

(** A task without a result runs like one whose result is [void_t()]. *)
Lemma rtask_void_run_eq user_void t w :
  rtask_void_run void_t user_void t w = rtask_run (λ id, user_void id;; mret void_t) void_t t w.
Proof.
  unfold rtask_void_run, rtask_run, catch, call_void, call, mbind, M_bind, mret, M_ret, deref.
  destruct (get_task t w) as [[k|e|u] w1]; [|done..].
  destruct (t_prom k) as [p|]; [|done]. simpl. unfold mret, M_ret.
  destruct (t_canceled k); [done|]. destruct (t_functor k) as [id|thr q|thr].
  - by destruct (user_void id w1) as [[[]|?|?] ?].
  - by destruct (thread_notify thr q w1) as [[[]|?|?] ?].
  - by destruct (quit thr w1) as [[[]|?|?] ?].
Qed.

(** ** Properties *)

(** Running a task that returns a result completes its promise exactly once
    and in the right way: a canceled task does not run its functor and fails
    with [task_canceled]; otherwise the value the functor returns, or the
    exception it throws, goes into the promise, in the store it left. *)
Theorem rtask_run_completes w t k p :
  w_task w !! t = Some k → t_prom k = Some p →
  rtask_run user void_t t w =
    if t_canceled k then set_exception p task_canceled w
    else match call user void_t (t_functor k) w with
      | (Ret v, w1) => set_value p v w1
      | (Exc e, w1) => set_exception p e w1
      | (Undef u, w1) => (Undef u, w1)
      end.
Proof.
  intros Hk Hp. unfold rtask_run.
  rewrite (bind_run _ _ w w (Ret k)) by (unfold get_task; by rewrite Hk).
  rewrite (bind_run _ _ w w (Ret p)) by (by rewrite Hp).
  destruct (t_canceled k).
  - apply catch_no_throw, no_throw_set_exception.
  - destruct (call user void_t (t_functor k) w) as [[v|e|u] w1] eqn:Hc.
    + unfold catch. rewrite (bind_run _ _ _ _ _ Hc). pose proof (no_throw_set_value p v w1) as Hv.
      by destruct (set_value p v w1) as [[?|?|?] ?].
    + unfold catch. by rewrite (bind_run _ _ _ _ _ Hc).
    + unfold catch. by rewrite (bind_run _ _ _ _ _ Hc).
Qed.

(** A task without a result lets no exception out: a canceled one does
    nothing, an exception of the standard or Boost kind is swallowed, and any
    other fails an assertion. *)
Theorem vtask_run_contains_errors w t k :
  w_task w !! t = Some k →
  vtask_run user void_t t w =
    if t_canceled k then (Ret tt, w)
    else match call user void_t (t_functor k) w with
      | (Ret _, w1) => (Ret tt, w1)
      | (Exc (foreign_error _), w1) => (Undef AssertFailed, w1)
      | (Exc _, w1) => (Ret tt, w1)
      | (Undef u, w1) => (Undef u, w1)
      end.
Proof.
  intros Hk. unfold vtask_run.
  rewrite (bind_run _ _ w w (Ret k)) by (unfold get_task; by rewrite Hk).
  destruct (t_canceled k); [done|]. unfold catch.
  destruct (call user void_t (t_functor k) w) as [o w1] eqn:Hc.
  rewrite (bind_run _ _ _ _ _ Hc). destruct o as [v|[]|u]; done.
Qed.

(** [async] returns a promise that is not ready yet and posts one task to
    the thread, bound to that promise and knowing the functor, with the greater
    of the requested and the current priority; the promise knows its task. *)
Theorem async_posts_task w this s xs c kc f prio :
  w_thr w !! this = Some s → current s = Some c → w_ctx w !! c = Some kc →
  queue_rep (w_task w) s xs → in_int64 (w_task_count w + 1) = true →
  (∀ a, w_fresh w ≤ a → w_task w !! a = None) →
  wp (async this f prio) (returns (λ p w', ∃ s' t kt kp,
    p = w_fresh w ∧ w_thr w' = <[this:=s']> (w_thr w) ∧
    queue_rep (w_task w') s' (t :: xs) ∧
    w_task w' !! t = Some kt ∧ t_functor kt = f ∧ t_prom kt = Some p ∧
    t_prio kt = Z.max (c_prio kc) prio ∧ t_when kt = time_point_min ∧ t_canceled kt = false ∧
    w_prom w' !! p = Some kp ∧ m_task kp = Some t ∧ ¬ is_ready w' p)) w.
Proof.
  intros Hs Hc Hkc Hq Hcnt Hfr. eapply wp_mono, async_posts; [|done..].
  intros [p|?|?] w'; try done.
  intros (s' & t & kt & kp & ? & ? & ? & ? & ? & ? & ? & ? & ? & ? & ? & ? & _).
  by exists s', t, kt, kp.
Qed.
End run.
