(* ===== verification/ProcessTasks.v ===== *)
(** The main loop of a thread: [thread_private::process_tasks], which
    [thread::exec] and every new context run (thread.cpp). The loop is a state
    machine whose states are its program points; a step runs to the next point,
    and ends in the events the loop cannot see past: a context switch, the wait
    on the condition variable, the return. *)
From S2P Require Import Prelude StdHeap World ReadyList TaskQueue Notify Scheduler Blocking Quit Future RunTask.

(** Where the loop is, with the variables [next] and [timeout_time] it still
    needs there. *)
Inductive pt_point :=
  | PtWhile (next : ptr)                          (* while( !done ) *)
  | PtTasks (next : ptr) (timeout_time : Z)       (* while( next ) *)
  | PtAfter (timeout_time : Z)                    (* after the inner loop *)
  | PtYielded (prev : nat) (timeout_time : Z)     (* back from start_next_task *)
  | PtBlock (timeout_time : Z).                   (* if( block_wait ) *)

Inductive pt_event :=
  | Goto (p : pt_point)
  | Exit
  | Jump (sw : switch) (p : pt_point)             (* and, jumped back to, go on at p *)
  | Sleep (until : option Z) (p : pt_point).      (* wait, or timed_wait, then p *)

Section ops.
Context {T : Type} `{!Clock} `{!HeapAlgo nat}.
Abbreviation C := (M (world T) exn).
Variable user : nat → C T.
Variable void_t : T.

(** [task::release], and the destructor of the task's class when nobody holds it *)
Definition task_release (t : nat) : C unit :=
  k ← get_task t;
  if bool_decide (t_refs k = 1%Z) then
    match t_prom k with
    | Some _ => delete_rtask t
    | None => mret tt
    end;;
    modify (λ w, set_w_task (delete t (w_task w)) w)
  else mod_task t (set_t_refs (t_refs k - 1)).

(** What follows the run of a task in the body of [while( next )]. *)
Definition pt_task_done (t : nat) : C unit :=
  mod_task t (set_t_active_context None);;
  task_release t.

Definition pt_run_task (this t : nat) : C unit :=
  s ← get_thr this;
  mod_task t (set_t_active_context (current s));;
  task_run user void_t t;;
  pt_task_done t.

Definition pt_enter (this : nat) : C pt_point :=
  next ← dequeue this;
  mret (PtWhile next).

Definition pt_step (this : nat) (p : pt_point) : C pt_event :=
  match p with
  | PtWhile next =>
    s ← get_thr this;
    if th_done s then mret Exit
    else timeout_time ← check_for_timeouts this; mret (Goto (PtTasks next timeout_time))
  | PtTasks (Some t) _ =>
    pt_run_task this t;;
    timeout_time ← check_for_timeouts this;
    next ← dequeue this;
    mret (Goto (PtTasks next timeout_time))
  | PtTasks None timeout_time => mret (Goto (PtAfter timeout_time))
  | PtAfter timeout_time =>
    s ← get_thr this;
    if bool_decide (blocked s = None) && th_done s then mret Exit
    else if bool_decide (timeout_time = time_point_min) then mret (Goto (PtWhile None))
    else if bool_decide (ready_head s ≠ None) then
      sw ← start_next_task this true;
      mret (Jump sw (PtYielded (sw_prev sw) timeout_time))
    else mret (Goto (PtBlock timeout_time))
  | PtYielded prev timeout_time =>
    start_next_task_resume this prev;;
    next ← dequeue this;
    match next with
    | Some _ => mret (Goto (PtWhile next))
    | None => mret (Goto (PtBlock timeout_time))
    end
  | PtBlock timeout_time =>
    next ← dequeue this;
    match next with
    | Some _ => mret (Goto (PtWhile next))
    | None =>
      mret (Sleep (if bool_decide (timeout_time = time_point_max) then None
                   else Some timeout_time) (PtWhile None))
    end
  end.

(** [n] steps, or fewer when an event ends them. *)
Fixpoint pt_steps (n this : nat) (p : pt_point) : C pt_event :=
  match n with
  | 0 => mret (Goto p)
  | S n =>
    e ← pt_step this p;
    match e with
    | Goto p' => pt_steps n this p'
    | _ => mret e
    end
  end.
End ops.

Section process.
Context {T : Type} `{!Clock} `{HeapSpec nat}.
Implicit Types (w : world T).
Variable user : nat → M (world T) exn T.
Variable void_t : T.

(** ** A scheduled task that falls due *)

(** The points the loop goes round between. *)
Definition spinning (p : pt_point) : Prop :=
  p = PtWhile None ∨ p = PtTasks None time_point_min ∨ p = PtAfter time_point_min.

(** Nothing asleep, and the front of the scheduled queue is due. *)
Definition scheduled_due w this s : Prop :=
  w_thr w !! this = Some s ∧ th_done s = false ∧ sleep_pqueue s = [] ∧
  ∃ t l k, task_sch_queue s = t :: l ∧ w_task w !! t = Some k ∧
    (t_when k ≤ now_at (w_ticks w))%Z.

Lemma scheduled_due_tick w this s `{!MonoClock} n :
  scheduled_due w this s → w_ticks w ≤ n → scheduled_due (set_w_ticks n w) this s.
Proof.
  intros (Hs & Hd & Hsl & t & l & k & Hq & Hk & Hw) Hn. split_and!; [done..|].
  exists t, l, k. split_and!; [done|done|]. simpl. etransitivity; [exact Hw|].
  by apply clock_mono.
Qed.

Lemma scheduled_due_check w this s :
  scheduled_due w this s →
  check_for_timeouts this w = (Ret time_point_min, set_w_ticks (S (w_ticks w)) w).
Proof.
  intros (Hs & Hd & Hsl & t & l & k & Hq & Hk & Hw). apply wp_run.
  unfold check_for_timeouts, next_timeout. rewrite wp_bind, wp_get_thr, Hs.
  rewrite bool_decide_eq_false_2 by (rewrite Hq; by intros [_ ?]).
  rewrite !wp_bind, wp_get_thr, Hs, wp_bind. rewrite Hq, wp_bind, wp_get_task, Hk, wp_ret.
  rewrite Hsl, wp_ret, wp_bind, wp_now, bool_decide_eq_false_2 by lia.
  rewrite wp_bind. cbn [length timeouts_loop]. rewrite wp_bind, wp_get_thr. simpl.
  rewrite Hs, wp_bind, wp_gets, Hsl. done.
Qed.

Lemma spinning_step w this s p `{!MonoClock} :
  scheduled_due w this s → spinning p →
  ∃ p' n, pt_step user void_t this p w = (Ret (Goto p'), set_w_ticks n w) ∧
    spinning p' ∧ w_ticks w ≤ n.
Proof.
  intros Hdue Hp. pose proof Hdue as (Hs & Hd & _).
  assert (Hthr : get_thr this w = (Ret s, w)) by (unfold get_thr; by rewrite Hs).
  destruct Hp as [->|[->| ->]].
  - exists (PtTasks None time_point_min), (S (w_ticks w)). simpl.
    rewrite (bind_run _ _ _ _ _ Hthr), Hd.
    rewrite (bind_run _ _ _ _ _ (scheduled_due_check _ _ _ Hdue)).
    split_and!; [done|right; by left|lia].
  - exists (PtAfter time_point_min), (w_ticks w). split_and!; [by destruct w|right; by right|done].
  - exists (PtWhile None), (w_ticks w). simpl. rewrite (bind_run _ _ _ _ _ Hthr), Hd.
    rewrite andb_false_r. split_and!; [by destruct w|by left|done].
Qed.

Lemma spinning_steps n w this s p `{!MonoClock} :
  scheduled_due w this s → spinning p →
  ∃ p' i, pt_steps user void_t n this p w = (Ret (Goto p'), set_w_ticks i w) ∧ spinning p'.
Proof.
  revert w p. induction n as [|n IH]; intros w p Hdue Hp; simpl.
  { exists p, (w_ticks w). split; [by destruct w|done]. }
  destruct (spinning_step w this s p Hdue Hp) as (p' & i & Hstep & Hp' & Hi).
  rewrite (bind_run _ _ _ _ _ Hstep).
  destruct (IH (set_w_ticks i w) p') as (p'' & j & Hsteps & Hp'');
    [by apply scheduled_due_tick|done|].
  exists p'', j. by rewrite Hsteps.
Qed.

(** ** A thread with nothing to do *)

(** Nothing posted, queued, scheduled or asleep *)
Definition idle (s : thread_private) : Prop :=
  task_in_queue s = None ∧ task_pqueue s = [] ∧ task_sch_queue s = [] ∧ sleep_pqueue s = [].

Lemma check_nothing w this s :
  w_thr w !! this = Some s → task_sch_queue s = [] → sleep_pqueue s = [] →
  check_for_timeouts this w = (Ret time_point_max, w).
Proof.
  intros Hs Hq Hsl. unfold check_for_timeouts.
  assert (Hthr : get_thr this w = (Ret s, w)) by (unfold get_thr; by rewrite Hs).
  rewrite (bind_run _ _ _ _ _ Hthr), Hsl, Hq. done.
Qed.

Lemma dequeue_empty w this s :
  w_thr w !! this = Some s → task_in_queue s = None → task_pqueue s = [] → task_sch_queue s = [] →
  dequeue this w = (Ret None, w).
Proof.
  intros Hs Hi Hp Hq. apply wp_run. unfold dequeue, dequeue_next, dequeue_ready.
  wp_steps. rewrite Hi. simpl. wp_steps. rewrite Hq. wp_steps. rewrite Hp. wp_steps.
  split; [done|]. replace (set_task_in_queue None s) with s by (rewrite <-Hi; by destruct s).
  rewrite insert_id by done. by destruct w.
Qed.

Lemma dequeue_nothing w this s :
  w_thr w !! this = Some s → idle s → dequeue this w = (Ret None, w).
Proof. intros Hs (? & ? & ? & _). by apply (dequeue_empty w this s). Qed.

(** The steps of the loop up to the wait, when there is nothing to run *)
Lemma loop_to_block w this s :
  w_thr w !! this = Some s → th_done s = false → task_sch_queue s = [] → sleep_pqueue s = [] →
  ready_head s = None →
  pt_steps user void_t 3 this (PtWhile None) w = (Ret (Goto (PtBlock time_point_max)), w).
Proof.
  intros Hs Hd Hq Hsl Hr.
  assert (Hthr : get_thr this w = (Ret s, w)) by (unfold get_thr; by rewrite Hs).
  cbn [pt_steps pt_step]. rewrite (bind_run _ _ w w (Ret (Goto (PtTasks None time_point_max)))).
  2:{ rewrite (bind_run _ _ _ _ _ Hthr), Hd. by rewrite (bind_run _ _ _ _ _ (check_nothing w this s Hs Hq Hsl)). }
  rewrite (bind_run _ _ w w (Ret (Goto (PtAfter time_point_max)))) by done.
  rewrite (bind_run _ _ w w (Ret (Goto (PtBlock time_point_max)))); [done|].
  cbn [pt_step]. rewrite (bind_run _ _ _ _ _ Hthr), Hd, andb_false_r, Hr. done.
Qed.

(** Runs of the loop one after the other *)
Lemma pt_steps_app n m this p p' w w' :
  pt_steps user void_t n this p w = (Ret (Goto p'), w') →
  pt_steps user void_t (n + m) this p w = pt_steps user void_t m this p' w'.
Proof.
  revert p w. induction n as [|n IH]; intros p w; cbn [pt_steps Nat.add].
  { intros Hw. by injection Hw as -> ->. }
  unfold mbind, M_bind. destruct (pt_step user void_t this p w) as [[[q| |sw q|u q]|e|u] w1]; try done.
  apply IH.
Qed.

(** ** One task through an idle thread *)

(** An idle thread with one task that is due takes that task. *)
Lemma dequeue_only w this s t kt :
  w_thr w !! this = Some s → queue_rep (w_task w) s [t] → held s [t] = [t] →
  w_task w !! t = Some kt → (∀ i, t_when kt ≤ now_at i)%Z →
  wp (dequeue this) (returns (λ p w', p = Some t ∧ ∃ n,
    w' = queue_upd w this n s None [] [])) w.
Proof.
  intros Hs Hq Hh Ht Hdue. unfold held in Hh. simpl in Hh.
  assert (Hpq : task_pqueue s = [] ∧ task_sch_queue s = []).
  { destruct (task_pqueue s); simplify_eq/=. by destruct (task_sch_queue s). }
  destruct Hpq as [Hpq Hsch]. eapply wp_mono, dequeue_spec; [|done..].
  intros [p|?|?] w'; try done.
  intros (n1 & n' & pq1 & sch1 & pq' & sch' & -> & _ & _ & (H1 & H2 & _) & Hd & _).
  assert (Hd1 : due (w_task w) (now_at (w_ticks w)) t).
  { unfold due, when_of. rewrite Ht. apply Hdue. }
  rewrite Hpq, filter_cons_True in H1 by done. rewrite Hsch, filter_cons_False in H2 by naive_solver.
  simpl in H1, H2. apply Permutation_nil_r in H2. subst sch1.
  apply Permutation_singleton_r in H1. subst pq1.
  destruct p as [x|]; [|by destruct Hd]. destruct Hd as [[Hx _]|(Hx & -> & _)].
  - by apply Permutation_nil_cons in Hx.
  - symmetry in Hx. apply Permutation_singleton_r in Hx. simplify_eq. simpl. eauto.
Qed.

(** A function that neither reads nor writes the store. *)
Definition pure_fn (id : nat) (r : exn + T) : Prop :=
  ∀ w, user id w = (match r with inr v => Ret v | inl e => Exc e end, w).

(** Completing a promise nobody waits for only stores the outcome. *)
Lemma complete_unwaited w p kp (r : exn + T) :
  w_prom w !! p = Some kp → m_error kp = None → m_value kp = None → m_blocked_thread kp = None →
  (match r with inr v => set_value p v | inl e => set_exception p e end) w =
  (Ret tt, with_prom w p
    (match r with inr v => set_m_value (Some v) kp | inl e => set_m_error (Some e) kp end)).
Proof.
  intros Hp He Hv Hb. apply wp_run. destruct r as [e|v].
  - unfold set_exception. wp_steps. unfold promise_notify, promise_ready. wp_steps. by rewrite Hb.
  - unfold set_value. wp_steps. rewrite He. wp_steps. unfold promise_notify, promise_ready.
    wp_steps. rewrite He. simpl. wp_steps. by rewrite Hb.
Qed.

(** Running a task completes its promise with the outcome of its function. *)
Lemma task_run_settles w t kt p id r :
  w_task w !! t = Some kt → t_functor kt = UserFn id → t_prom kt = Some p → t_canceled kt = false →
  pure_fn id r →
  task_run user void_t t w = (match r with inr v => set_value p v | inl e => set_exception p e end) w.
Proof.
  intros Ht Hf Hp Hc Hu. unfold task_run.
  rewrite (bind_run _ _ w w (Ret kt)) by (unfold get_task; by rewrite Ht). rewrite Hp.
  rewrite (rtask_run_completes _ _ _ _ kt p) by done. rewrite Hc, Hf. simpl. rewrite Hu. by destruct r.
Qed.

(** A task that nobody else holds runs, settles its promise and is gone. *)
Lemma run_pure_task w this s t kt p kp id r :
  w_thr w !! this = Some s → w_task w !! t = Some kt → t_functor kt = UserFn id →
  t_prom kt = Some p → t_canceled kt = false → t_refs kt = 1%Z → pure_fn id r →
  w_prom w !! p = Some kp → m_error kp = None → m_value kp = None → m_blocked_thread kp = None →
  pt_run_task user void_t this t w = (Ret tt, set_w_task (delete t (w_task w)) (with_prom w p
    (set_m_task None
      (match r with inr v => set_m_value (Some v) kp | inl e => set_m_error (Some e) kp end)))).
Proof.
  intros Hs Ht Hf Hpr Hc Hrf Hu Hp He Hv Hb. apply wp_run.
  unfold pt_run_task, pt_task_done. rewrite wp_bind, wp_get_thr, Hs.
  rewrite wp_bind, wp_mod_task, Ht. set (kt1 := set_t_active_context _ kt).
  set (w1 := set_w_task (<[t := kt1]> (w_task w)) w).
  assert (Ht1 : w_task w1 !! t = Some kt1) by apply lookup_insert_eq.
  assert (Hrun : task_run user void_t t w1 = (Ret tt, with_prom w1 p
    (match r with inr v => set_m_value (Some v) kp | inl e => set_m_error (Some e) kp end))).
  { rewrite (task_run_settles w1 t kt1 p id r) by done. by apply complete_unwaited. }
  rewrite wp_bind. unfold wp at 1. rewrite Hrun. simpl. fold w1.
  rewrite wp_bind, wp_mod_task. simpl. rewrite lookup_insert_eq.
  unfold task_release. rewrite wp_bind, wp_get_task. simpl. rewrite lookup_insert_eq. simpl.
  rewrite Hrf, Hpr. simpl. unfold delete_rtask. wp_steps. rewrite Hpr. wp_steps.
  split; [done|]. unfold with_prom, set_w_task, set_w_prom. simpl.
  by rewrite !insert_insert_eq, !delete_insert_eq.
Qed.

(** ** Where the loop sleeps *)

(** The queues after tasks were taken from them *)
Lemma queue_rep_dequeued (m : task_map) s xs p pq sch :
  queue_rep m s xs → option_list p ++ pq ++ sch ≡ₚ held s xs →
  is_heap (task_priority_less m) pq → is_heap (task_when_less m) sch →
  queue_rep m (set_task_in_queue None (set_task_pqueue pq (set_task_sch_queue sch s))) [].
Proof.
  intros Hq Hperm Hh1 Hh2. split; simpl; [done| |done|done]. intros x Hx. apply (qr_alloc _ _ _ Hq).
  change (x ∈ held s xs). rewrite <-Hperm. apply elem_of_app. by right.
Qed.

Lemma queue_rep_set_current (m : task_map) s xs c : queue_rep m s xs → queue_rep m (set_current c s) xs.
Proof. by intros []. Qed.

(** Nothing left to run, no task lost, and one of those scheduled not due *)
Definition without_tasks w this s xs w' : Prop := ∃ s',
  w_thr w' !! this = Some s' ∧ queue_rep (w_task w') s' [] ∧ task_in_queue s' = None ∧ task_pqueue s' = [] ∧
  held s' [] ≡ₚ held s xs ∧
  (task_sch_queue s' = [] ∨ ∃ y i, y ∈ task_sch_queue s' ∧ w_ticks w ≤ i ∧ ¬ due (w_task w') (now_at i) y).

Lemma dequeue_none w this s xs w' :
  w_thr w !! this = Some s → queue_rep (w_task w) s xs → dequeue this w = (Ret None, w') →
  without_tasks w this s xs w'.
Proof.
  intros Hs Hq Hd. pose proof (dequeue_spec w this s xs Hs Hq) as Hspec.
  apply wp_returns in Hspec as (p & w2 & Hd' & Hspec). rewrite Hd in Hd'. injection Hd' as <- <-.
  destruct Hspec as (n1 & n' & pq1 & sch1 & pq' & sch' & -> & Hn & _ & Henq & Hdeq & Hh1 & Hh2).
  pose proof (dequeued_perm _ _ _ _ _ _ _ Hdeq) as Hperm. rewrite (enqueued_perm _ _ _ _ _ _ _ Henq) in Hperm.
  pose proof (queue_rep_dequeued _ _ _ _ _ _ Hq Hperm Hh1 Hh2) as Hq'.
  destruct Hdeq as (_ & -> & -> & Hlate). eexists. split; [by simpl; rewrite lookup_insert_eq|]. simpl.
  split_and!; [exact Hq'|done|done|exact Hperm|].
  destruct Hlate as [?|(y & Hy & Hyd)]; [by left|right]. exists y, n1. split_and!; [done|lia|done].
Qed.

Lemma step_sleeps this pt w u q w' :
  pt_step user void_t this pt w = (Ret (Sleep u q), w') → ∃ tmo,
  pt = PtBlock tmo ∧ q = PtWhile None ∧ u = (if decide (tmo = time_point_max) then None else Some tmo) ∧
  dequeue this w = (Ret None, w').
Proof.
  destruct pt as [next|[t|] tt'|tt'|prev tt'|tt']; cbn [pt_step]; intros Hst; [ret_inv Hst..|]; try done.
  - destruct (th_done _); [done|]. by ret_inv Hst.
  - destruct (_ && _); [done|]. case_bool_decide; [done|]. case_bool_decide; [by ret_inv Hst|done].
  - by destruct x0.
  - apply ret_bind in Hst as ([t|] & w1 & Hd & Hst); [done|]. injection Hst as <- <- <-.
    exists tt'. split_and!; try done. by case_bool_decide; case_decide.
Qed.

Lemma step_blocks this pt w tmo w' :
  pt_step user void_t this pt w = (Ret (Goto (PtBlock tmo)), w') →
  (pt = PtAfter tmo ∧ ∃ s, w_thr w !! this = Some s ∧ ready_head s = None) ∨
  (∃ prev, pt = PtYielded prev tmo ∧ ∃ w1 b,
    start_next_task_resume this prev w = (Ret b, w1) ∧ dequeue this w1 = (Ret None, w')).
Proof.
  destruct pt as [next|[t|] tt'|tt'|prev tt'|tt']; cbn [pt_step]; intros Hst; [ret_inv Hst..|]; try done.
  - destruct (th_done _); [done|]. by ret_inv Hst.
  - left. unfold get_thr in Hx. destruct (w_thr w !! this) as [s|]; [|done]. injection Hx as -> ->.
    destruct (_ && _); [done|]. case_bool_decide; [done|]. case_bool_decide as Hr; [by ret_inv Hst|].
    injection Hst as -> ->. split; [done|]. exists x. split; [done|]. by destruct (ready_head x); [destruct Hr|].
  - right. destruct x0 as [t|]; [done|]. injection Hst as -> ->. exists prev. split; [done|]. eauto.
  - by apply ret_bind in Hst as ([t|] & w1 & Hd & Hst).
Qed.

Lemma resume_thr this prev w b w1 s :
  w_thr w !! this = Some s → start_next_task_resume this prev w = (Ret b, w1) →
  w_thr w1 !! this = Some (set_current (Some prev) s) ∧ w_task w1 = w_task w ∧ w_ticks w1 = w_ticks w.
Proof.
  intros Hs Hst. unfold start_next_task_resume in Hst. ret_inv Hst. unfold mod_thr in Hx. rewrite Hs in Hx.
  injection Hx as <- <-. unfold get_ctx in Hx0. simpl in Hx0. destruct (w_ctx w !! prev); [|done].
  injection Hx0 as <- <-. destruct (c_canceled _); [done|]. injection Hst as <- <-. simpl. by rewrite lookup_insert_eq.
Qed.

(** ** Properties *)

(** Calling a function through [async] amounts to calling it: on an idle thread,
    posting the function, taking the next task, running it and waiting for the future
    gives the function's value or throws its exception. *)
Theorem async_call_equals_call w this s c kc id r prio :
  w_thr w !! this = Some s → current s = Some c → w_ctx w !! c = Some kc →
  queue_rep (w_task w) s [] → held s [] = [] → in_int64 (w_task_count w + 1) = true →
  (∀ a, w_fresh w ≤ a → w_task w !! a = None) → (∀ i, time_point_min ≤ now_at i)%Z →
  pure_fn id r →
  wp (p ← async this (UserFn id) prio;
      next ← dequeue this;
      t ← deref next;
      pt_run_task user void_t this t;;
      promise_wait p microseconds_max)
    (λ o _, o = match (user id w).1 with
      | Ret v => Ret (Value v)
      | Exc e => Exc e
      | Undef u => Undef u
      end) w.
Proof.
  intros Hs Hc Hkc Hq Hh Hcnt Hfr Hclk Hu. rewrite wp_bind.
  eapply wp_mono, (async_posts w this s [] c kc (UserFn id) prio); [|done..].
  intros [p|?|?] w1; try done.
  intros (s1 & t & kt & kp & -> & Ht1 & Hq1 & Hkt & Hf & Hp & _ & Hw & Hcn & Hkp & _ & Hnr & Hb & Hh1 & _ & Hrf).
  rewrite wp_bind. rewrite Hh in Hh1.
  eapply wp_mono, (dequeue_only w1 this s1 t kt); try done; [|by rewrite Ht1, lookup_insert_eq|by rewrite Hw].
  intros [q|?|?] w2; try done. intros (-> & n & ->). set (w2 := queue_upd w1 this n s1 None [] []).
  assert (∃ s2, w_thr w2 !! this = Some s2) as [s2 Hs2] by (eexists; apply lookup_insert_eq).
  rewrite wp_bind, wp_deref, wp_bind.
  assert (Hpend : m_error kp = None ∧ m_value kp = None).
  { destruct (m_error kp) as [e|] eqn:He; [by destruct Hnr; exists kp; split; [|left; rewrite He]|].
    destruct (m_value kp) as [v|] eqn:Hv; [|done].
    by destruct Hnr; exists kp; split; [|right; rewrite Hv]. }
  destruct Hpend as [He Hv].
  eapply wp_eq; [by apply (run_pure_task w2 this s2 t kt (w_fresh w) kp id r)|].
  rewrite Hu. unfold promise_wait, promise_wait_with. rewrite wp_bind, wp_get_prom.
  cbn -[lookup]. rewrite lookup_insert_eq. destruct r as [e|v]; cbn; by rewrite ?He.
Qed.

(** C30: the task loop sleeps only at its wait, and only when no task is left that it could
    run: nothing is posted, no task is queued as ready, none it held is lost, and what it
    still holds is scheduled, with a task among it that was not due when the loop looked. It
    gets to the wait only when no context is ready, or coming back from another context
    without a task to run; at the wait it takes a task if it finds one. *)
Theorem sleeps_only_without_tasks w this s xs pt :
  w_thr w !! this = Some s → queue_rep (w_task w) s xs →
  (∀ u q w', pt_step user void_t this pt w = (Ret (Sleep u q), w') → ∃ tmo,
    pt = PtBlock tmo ∧ q = PtWhile None ∧ u = (if decide (tmo = time_point_max) then None else Some tmo) ∧
    without_tasks w this s xs w') ∧
  (∀ tmo w', pt_step user void_t this pt w = (Ret (Goto (PtBlock tmo)), w') →
    pt = PtAfter tmo ∧ ready_head s = None ∨ ∃ prev, pt = PtYielded prev tmo ∧ without_tasks w this s xs w') ∧
  (∀ tmo, pt = PtBlock tmo → wp (pt_step user void_t this pt) (returns (λ e w', ∃ s',
    w_thr w' !! this = Some s' ∧ queue_rep (w_task w') s' [] ∧
    match e with
    | Goto (PtWhile (Some t)) => t :: held s' [] ≡ₚ held s xs
    | Sleep _ _ => held s' [] ≡ₚ held s xs
    | _ => False
    end)) w).
Proof.
  intros Hs Hq. split_and!.
  - intros u q w' Hstep. destruct (step_sleeps _ _ _ _ _ _ Hstep) as (tmo & -> & -> & -> & Hd).
    exists tmo. split_and!; [done..|]. by apply (dequeue_none w this s xs).
  - intros tmo w' Hstep. destruct (step_blocks _ _ _ _ _ Hstep) as [(-> & s' & Hs' & Hr)|(prev & -> & w1 & b & Hres & Hd)].
    + left. split; [done|]. congruence.
    + right. exists prev. split; [done|]. destruct (resume_thr _ _ _ _ _ _ Hs Hres) as (Hs1 & Hw1 & Htk).
      rewrite <-Hw1 in Hq. eapply (queue_rep_set_current _ s xs (Some prev)) in Hq.
      destruct (dequeue_none _ _ _ _ _ Hs1 Hq Hd) as (s' & H1 & H2 & H3 & H4 & H5 & H6).
      rewrite Htk in H6. exists s'. by split_and!.
  - intros tmo ->. cbn [pt_step]. rewrite wp_bind. eapply wp_mono, dequeue_spec; [|done..].
    intros [p|?|?] w'; try done.
    intros (n1 & n' & pq1 & sch1 & pq' & sch' & -> & _ & _ & Henq & Hdeq & Hh1 & Hh2).
    pose proof (dequeued_perm _ _ _ _ _ _ _ Hdeq) as Hperm. rewrite (enqueued_perm _ _ _ _ _ _ _ Henq) in Hperm.
    pose proof (queue_rep_dequeued _ _ _ _ _ _ Hq Hperm Hh1 Hh2) as Hq'.
    destruct p as [t|]; rewrite wp_ret; eexists; (split; [by simpl; rewrite lookup_insert_eq|]; split; [exact Hq'|]); exact Hperm.
Qed.

(** A thread with nothing posted, scheduled, ready or asleep blocks without
    a timeout after going once through its loop, and changes nothing. *)
Theorem idle_thread_blocks w this s :
  w_thr w !! this = Some s → th_done s = false →
  task_in_queue s = None → task_pqueue s = [] → task_sch_queue s = [] →
  sleep_pqueue s = [] → ready_head s = None →
  pt_steps user void_t 4 this (PtWhile None) w = (Ret (Sleep None (PtWhile None)), w).
Proof.
  intros Hs Hd Hi Hp Hq Hsl Hr. change 4 with (3 + 1).
  rewrite (pt_steps_app _ _ _ _ _ _ _ (loop_to_block w this s Hs Hd Hq Hsl Hr)).
  cbn [pt_steps pt_step]. unfold mbind, M_bind. by rewrite (dequeue_nothing w this s).
Qed.

(** C36: when the front of the scheduled queue falls due while the thread waits,
    the thread spins for ever: [check_for_timeouts] reports the due task,
    the loop starts again without dequeuing it, and after any number of steps
    nothing but the clock has changed, whatever is posted or scheduled. *)
Theorem due_scheduled_task_spins n w this s `{!MonoClock} :
  scheduled_due w this s →
  ∃ p i, pt_steps user void_t n this (PtWhile None) w = (Ret (Goto p), set_w_ticks i w) ∧
    spinning p.
Proof. intros Hdue. apply (spinning_steps n w this s _ Hdue). by left. Qed.

(** A task scheduled for later on an idle thread is not waited for: the
    thread looked for timeouts before it dequeued the task, so it blocks without
    a timeout although the scheduled queue now holds the task. *)
Theorem scheduled_task_is_slept_over w this s xs :
  w_thr w !! this = Some s → queue_rep (w_task w) s xs →
  task_pqueue s = [] → task_sch_queue s = [] →
  (∀ x i, x ∈ xs → i ≤ S (w_ticks w) → ¬ due (w_task w) (now_at i) x) →
  wp (pt_step user void_t this (PtBlock time_point_max)) (returns (λ e w', ∃ s',
    e = Sleep None (PtWhile None) ∧ w_thr w' !! this = Some s' ∧
    task_sch_queue s' ≡ₚ xs)) w.
Proof.
  intros Hs Hq Hpq Hsq Hnd. cbn [pt_step]. rewrite wp_bind.
  eapply wp_mono, dequeue_spec; [|done..].
  intros [p|?|?] w'; try done.
  intros (n1 & n' & pq1 & sch1 & pq' & sch' & -> & _ & Hn1 & (Hp1 & Hs1 & _) & Hdeq & _).
  rewrite Hpq in Hp1. rewrite Hsq in Hs1. simpl in Hp1, Hs1.
  assert (pq1 = []) as ->.
  { apply elem_of_nil_inv. intros x. rewrite Hp1, list_elem_of_filter. intros [Hx Hin].
    by apply (Hnd x (w_ticks w) Hin); [lia|]. }
  rewrite filter_all in Hs1.
  2:{ intros x Hx. by apply Hnd; [|lia]. }
  destruct p as [t|]; simpl in Hdeq.
  - destruct Hdeq as [(Ht & _ & Hdue & _)|(Hbad & _)];
      [|by apply Permutation_nil_cons in Hbad].
    exfalso. apply (Hnd t n1); [|done|done]. rewrite <-Hs1, Ht. by left.
  - destruct Hdeq as (_ & -> & -> & _). rewrite wp_ret.
    eexists. simpl. rewrite lookup_insert_eq. split_and!; [done|done|exact Hs1].
Qed.
End process.
