(* ===== verification/Delivery.v ===== *)
(** From a completed operation back to its waiter: a promise is completed on one
    thread while a context of another waits for it. The completion posts a task to
    the waiting thread and wakes it; its loop (ProcessTasks.v) takes and runs the
    task, which makes the waiter ready (Notify.v), and then switches to it
    (Scheduler.v), whose wait returns (Future.v). The pieces are put together here. *)
From S2P Require Import Prelude StdHeap World ReadyList TaskQueue Notify Scheduler Blocking Quit Future RunTask ProcessTasks.

Section complete.
Context {T : Type} `{!Clock} `{!HeapAlgo nat}.

(** Completing a pending promise, whichever way: the outcome is stored, then the
    waiting thread is notified. *)
Definition complete (p : nat) (r : exn + T) : M (world T) exn unit :=
  match r with
  | inl e => set_exception p e
  | inr v => set_value p v
  end.

Definition settle (r : exn + T) (k : promise T) : promise T :=
  match r with
  | inl e => set_m_error (Some e) k
  | inr v => set_m_value (Some v) k
  end.
End complete.

Section delivery.
Context {T : Type} `{!Clock} `{HeapSpec nat}.
Implicit Types (w : world T).

(** ** The completing thread *)

(** The store once [p] holds [r] and the thread [this], which waits for it, has
    been sent the task that wakes the waiter. *)
Definition completed_for (p this : nat) (k : promise T) (s : thread_private)
    (xs : list nat) (r : exn + T) w w' : Prop :=
  w_prom w' = <[p := settle r k]> (w_prom w) ∧ w_ctx w' = w_ctx w ∧ w_fresh w' = S (w_fresh w) ∧
  w_thr w' = <[this := posted_to s (w_fresh w)]> (w_thr w) ∧
  ∃ kt, queue_rep (w_task w') (posted_to s (w_fresh w)) (w_fresh w :: xs) ∧
    w_task w' = <[w_fresh w := kt]> (w_task w) ∧ t_functor kt = BindNotify this p ∧
    t_when kt = time_point_min ∧ t_prom kt = None ∧ t_canceled kt = false ∧ t_refs kt = 1%Z.

Lemma complete_notifies w p k r Q :
  w_prom w !! p = Some k → m_error k = None →
  wp (promise_notify p) Q (with_prom w p (settle r k)) → wp (complete p r) Q w.
Proof.
  intros Hk He Hn. destruct r as [e|v]; simpl; [unfold set_exception|unfold set_value].
  - by rewrite wp_bind, wp_mod_prom, Hk.
  - by rewrite wp_bind, wp_get_prom, Hk, He, wp_bind, wp_mod_prom, Hk.
Qed.

Lemma settled_ready w p k (r : exn + T) : is_ready (with_prom w p (settle r k)) p.
Proof. exists (settle r k). split; [apply lookup_insert_eq|]. destruct r; [by left|by right]. Qed.

(** A promise for which no thread waits *)
Lemma complete_alone w p k r :
  w_prom w !! p = Some k → m_error k = None → m_blocked_thread k = None →
  complete p r w = (Ret tt, with_prom w p (settle r k)).
Proof.
  intros Hk He Hb. apply wp_run. eapply complete_notifies; [done..|]. unfold promise_notify. rewrite wp_bind.
  eapply wp_mono, promise_ready_spec, settled_ready. intros o w' [-> ->].
  rewrite wp_bind. simpl. rewrite wp_ret, wp_bind, wp_get_prom. simpl. rewrite lookup_insert_eq.
  by destruct r; simpl; rewrite Hb.
Qed.

Lemma complete_spec w p this k s xs r :
  w_prom w !! p = Some k → m_error k = None → m_blocked_thread k = Some this →
  w_thr w !! this = Some s → w_self w ≠ this →
  queue_rep (w_task w) s xs → w_task w !! w_fresh w = None →
  in_int64 (w_task_count w + 1) = true →
  wp (complete p r) (returns (λ _ w', completed_for p this k s xs r w w')) w.
Proof.
  intros Hk He Hb Hs Hself Hq Hfr Hc. eapply complete_notifies; [done..|].
  apply (promise_notify_here _ this p (settle r k));
    [apply lookup_insert_eq|destruct r; [by left|by right]|by destruct r|].
  eapply wp_mono, (notify_from_another_thread _ this p s xs); try done; [|apply settled_ready].
  intros [u|e|u] w'; try done. intros (kt & H1 & H2 & H3 & _ & H4 & H5). split_and!; [done..|]. by exists kt.
Qed.

(** ** The waiting thread's contexts do not notice *)

(** The fields of a thread that order its contexts *)
Definition same_lists (s s' : thread_private) : Prop :=
  ready_head s' = ready_head s ∧ ready_tail s' = ready_tail s ∧ blocked s' = blocked s ∧
  sleep_pqueue s' = sleep_pqueue s ∧ current s' = current s.

(** Tasks, queues and the contents of promises may change under a running context. *)
Lemma running_frame w w' this s s' r b cur :
  running w this s r b cur → w_ctx w' = w_ctx w → w_thr w' !! this = Some s' →
  same_lists s s' → w_self w' = this → sch_allocated w' s' → w_fresh w ≤ w_fresh w' →
  (∀ c p k, c ∈ b → prom_of (w_ctx w) c = Some p → w_prom w !! p = Some k →
    ∃ k', w_prom w' !! p = Some k' ∧ m_blocked_thread k' = m_blocked_thread k) →
  running w' this s' r b cur.
Proof.
  intros [[_ [[Hr1 [Hr2 Hr3]] [Hb1 Hb2] Hh Ha Hnd Hrb Hrs] Hprom Hsole Hsleep] _ _ Hcur Hx Hxr Hxb Hxs Hfr]
    Hc Hthr (H1 & H2 & H3 & H4 & H5) Hself Hsch Hf Hp.
  split; rewrite ?Hc, ?H4; try done; [|by rewrite H5|intros a ?; apply Hfr; lia].
  split; rewrite ?Hc, ?H4; try done.
  - split; rewrite ?H4; try done.
    + split_and!; [by rewrite H1|by rewrite H2|done].
    + split; [by rewrite H3|done].
  - intros c Hcb. destruct (Hprom c Hcb) as (p & k & Hpc & Hk & Hbt).
    destruct (Hp c p k Hcb Hpc Hk) as (k' & Hk' & Hbt'). exists p, k'. by rewrite Hbt'.
Qed.

Lemma running_with_prom w this s r b c p k k' :
  running w this s r b c → w_prom w !! p = Some k → m_blocked_thread k' = m_blocked_thread k →
  running (with_prom w p k') this s r b c.
Proof.
  intros Hrun Hk Hb. eapply running_frame; [exact Hrun|done|apply Hrun|done|apply Hrun|apply Hrun|done|].
  simpl. intros c' q kq _ _ Hq. destruct (decide (p = q)) as [<-|Hne].
  - rewrite lookup_insert_eq. eexists. split; [done|]. by simplify_eq.
  - rewrite lookup_insert_ne by done. by exists kq.
Qed.

Lemma running_set_task w this s r b cur m :
  running w this s r b cur → task_sch_queue s = [] → running (set_w_task m w) this s r b cur.
Proof.
  intros Hrun Hsq. eapply running_frame; [exact Hrun|done|apply Hrun|done|apply Hrun| |done|].
  - intros x. by rewrite Hsq, elem_of_nil.
  - intros c p k _ _ Hk. by exists k.
Qed.

(** ** The wait before *)

Definition same_queues (s s' : thread_private) : Prop :=
  task_in_queue s' = task_in_queue s ∧ task_pqueue s' = task_pqueue s ∧
  task_sch_queue s' = task_sch_queue s ∧ sleep_pqueue s' = sleep_pqueue s.

Lemma idle_queues s s' : same_queues s s' → idle s → idle s'.
Proof. intros (H1 & H2 & H3 & H4) (G1 & G2 & G3 & G4). split_and!; congruence. Qed.

(** What the operations of a context leave alone in it *)
Definition c_flags (k : cmt_context) : bool * Z := (c_canceled k, c_prio k).

Lemma erase_links_flags (m m' : ctx_map) c :
  erase_links <$> m' !! c = erase_links <$> m !! c → c_flags <$> m' !! c = c_flags <$> m !! c.
Proof.
  destruct (m' !! c) as [k'|], (m !! c) as [k|]; simpl; intros Hk; try done.
  apply Some_inj in Hk. f_equal. unfold c_flags.
  by pose proof (f_equal c_canceled Hk) as H1; pose proof (f_equal c_prio Hk) as H2; simpl in *; rewrite H1, H2.
Qed.

Lemma flags_canceled (m : ctx_map) c x z : c_flags <$> m !! c = Some (x, z) → c_canceled <$> m !! c = Some x.
Proof. destruct (m !! c); simpl; [|done]. by intros [= -> _]. Qed.

Lemma same_flags_canceled (m m' : ctx_map) c :
  c_flags <$> m' !! c = c_flags <$> m !! c → c_canceled <$> m' !! c = c_canceled <$> m !! c.
Proof.
  intros Hf. destruct (m' !! c) as [k'|], (m !! c) as [k|]; simpl in *; try done.
  injection Hf as Hc _. by rewrite Hc.
Qed.

(** [cur] waits for the promise [p], and thread [this] goes on in the first of its ready
    contexts [r], or in a new one. *)
Record waits_in w w' this s s' (r b' : list nat) (cur p : nat) : Prop := {
  wa_running : running w' this s' (tail r) b' (default (w_fresh w) (head r));
  wa_blocked : cur ∈ b';
  wa_prom_of : prom_of (w_ctx w') cur = Some p;
  wa_flags y : is_Some (w_ctx w !! y) → c_flags <$> w_ctx w' !! y = c_flags <$> w_ctx w !! y;
  wa_queues : same_queues s s';
  wa_done : th_done s' = th_done s;
  wa_prom : w_prom w' = w_prom w;
  wa_task : w_task w' = w_task w;
  wa_count : w_task_count w' = w_task_count w;
  wa_fresh : w_fresh w' = match r with [] => S (w_fresh w) | _ => w_fresh w end;
  wa_others : others this w' = others this w;
  wa_new : r = [] → c_flags <$> w_ctx w' !! w_fresh w = Some (false, 0%Z);
}.

Lemma wa_canceled w w' this s s' r b' cur p y :
  waits_in w w' this s s' r b' cur p → is_Some (w_ctx w !! y) →
  c_canceled <$> w_ctx w' !! y = c_canceled <$> w_ctx w !! y.
Proof. intros Hw Hy. by apply same_flags_canceled, (wa_flags _ _ _ _ _ _ _ _ _ Hw). Qed.

(** A switch on a thread where nothing is scheduled or asleep: from [cur] to the first of
    the ready contexts [r], or to a new one *)
Record idle_switched w w' this s s' (r b : list nat) (cur : nat) (back : list nat) (sw : switch) : Prop := {
  is_switch : sw = Switch cur (default (w_fresh w) (head r)) (bool_decide (r = []));
  is_running : running w' this s' (tail r ++ back) b (sw_next sw);
  is_queues : same_queues s s';
  is_done : th_done s' = th_done s;
  is_prom : w_prom w' = w_prom w;
  is_task : w_task w' = w_task w;
  is_count : w_task_count w' = w_task_count w;
  is_fresh : w_fresh w' = match r with [] => S (w_fresh w) | _ => w_fresh w end;
  is_others : others this w' = others this w;
  is_ctx y : is_Some (w_ctx w !! y) → erase_links <$> w_ctx w' !! y = erase_links <$> w_ctx w !! y;
  is_new : r = [] → c_flags <$> w_ctx w' !! w_fresh w = Some (false, 0%Z);
}.

Lemma same_but_ready_fields s s' :
  same_but_ready s s' → same_queues s s' ∧ th_done s' = th_done s.
Proof.
  intros Hs. assert (Hfld : ∀ A (f : thread_private → A), (∀ h t s, f (set_ready_head h (set_ready_tail t s)) = f s) →
    f s' = f s) by (intros A f Hf; apply (f_equal f) in Hs; by rewrite !Hf in Hs).
  split; [split_and!|]; by rewrite Hfld.
Qed.

Lemma idle_jump w this s r b cur (reschedule : bool) :
  thread_inv w this s r b → w_self w = this → task_sch_queue s = [] → sleep_pqueue s = [] →
  current s = Some cur → is_Some (w_ctx w !! cur) → cur ∉ r → (reschedule → cur ∉ b) →
  (∀ a, w_fresh w ≤ a → w_ctx w !! a = None) →
  wp (start_next_task this reschedule) (returns (λ sw w', ∃ s',
    idle_switched w w' this s s' r b cur (if reschedule then [cur] else []) sw)) w.
Proof.
  intros Hinv Hself Hsq Hsl Hcur Hc Hcr Hcb Hfr.
  unfold start_next_task. rewrite wp_bind. eapply wp_eq; [by apply (check_nothing w this s); [apply Hinv|..]|].
  unfold ensure_current. rewrite !wp_bind, wp_get_thr, (ti_thr _ _ _ _ _ Hinv). simpl. rewrite Hcur, wp_ret.
  eapply wp_mono, jump_from_spec; [|exact Hinv|done| |by apply Hfr].
  2:{ intros Hre. split_and!; [|by apply Hcb|rewrite Hsl; apply not_elem_of_nil]. intros Hin. apply Hcr. destruct r; [done|by right]. }
  intros o w' Hj. assert (∃ sw, o = Ret sw) as [sw ->].
  { unfold jumped in Hj. destruct r as [|x rs]; [by destruct Hj; eauto|].
    rewrite decide_False in Hj by set_solver. destruct Hj; eauto. }
  destruct (jumped_running _ _ _ _ _ _ _ _ _ Hj Hinv) as (s2 & Hrun' & Hsw & Hp' & Ht' & _ & _ & _ & Hctx);
    [done| |done|done|].
  { unfold sch_allocated. rewrite Hsq. by intros ? ?%elem_of_nil. }
  assert (∃ m' s' x, w_thr w' = <[this := s']> (w_thr w) ∧ same_but_ready (set_current (Some x) s) s' ∧
    w_task_count w' = w_task_count w ∧ w_fresh w' = (match r with [] => S (w_fresh w) | _ => w_fresh w end) ∧
    w_ctx w' = m' ∧ (r = [] → same_but_next (<[w_fresh w := new_cmt_context]> (w_ctx w)) m'))
    as (m' & s' & x & Hth & Hs & Hct & Hf & Hm & Hnew).
  { unfold jumped in Hj. destruct r as [|x rs].
    - destruct Hj as [_ (m' & s' & -> & _ & Hm & Hs)]. by exists m', s', (w_fresh w).
    - rewrite decide_False in Hj by set_solver. destruct Hj as [_ (m' & s' & -> & _ & Hm & Hs)].
      by exists m', s', x. }
  assert (s2 = s') as -> by (pose proof (ti_thr _ _ _ _ _ (ru_inv _ _ _ _ _ _ Hrun')) as Hthr';
    rewrite Hth, lookup_insert_eq in Hthr'; congruence).
  destruct (same_but_ready_fields _ _ Hs) as [Hq Hd]. exists s'. split; try done.
  - unfold others. by rewrite Hth, delete_insert_eq.
  - intros Hr. specialize (Hnew Hr). apply same_but_next_links in Hnew. rewrite Hm.
    rewrite <-(same_but_links_field c_flags _ _ (w_fresh w) (λ _, eq_refl) Hnew), lookup_insert_eq. done.
Qed.

Lemma jump_waits w w0 this s r b cur p k n :
  running w this s r b cur → task_sch_queue s = [] → sleep_pqueue s = [] → w_ctx w !! cur = Some k →
  (∃ kp, w_prom w !! p = Some kp ∧ m_blocked_thread kp = Some this) →
  (∀ x, x ∈ b → prom_of (w_ctx w) x ≠ Some p) →
  let k' := set_c_next_blocked (blocked s) (set_c_prom (Some p) k) in
  w0 = set_w_ticks n (ready_upd w this (<[cur := k']> (w_ctx w)) (set_blocked (Some cur) s)) →
  wp (start_next_task this false) (returns (λ sw w', sw = Switch cur (default (w_fresh w) (head r)) (bool_decide (r = [])) ∧
    ∃ s', waits_in w w' this s s' r (cur :: b) cur p ∧
      ∀ y, is_Some (w_ctx w !! y) → y ≠ cur → prom_of (w_ctx w') y = prom_of (w_ctx w) y)) w0.
Proof.
  intros Hrun Hsq Hsl Hk Hkp Hnone k' Hw0. set (s1 := set_blocked (Some cur) s) in *.
  pose proof (ru_inv _ _ _ _ _ _ Hrun) as [Hthr [Hr Hb Hh Ha _ _ _] _ _ _].
  pose proof Hrun as [_ Hself Hsch Hcur _ Hcr Hcb _ Hfr].
  assert (Hinv : thread_inv w0 this s1 r (cur :: b)).
  { rewrite Hw0. apply thread_inv_tick. eapply thread_inv_suspend; [exact Hrun|exact Hk|].
    split; try done; [|by left|simpl; rewrite Hsl; apply is_heap_nil].
    split_and!; try done. intros x. rewrite Hsl, app_nil_r. apply Hnone. }
  assert (Hc0 : w_ctx w0 !! cur = Some k') by (subst w0; apply lookup_insert_eq).
  assert (Hy0 : ∀ y, y ≠ cur → w_ctx w0 !! y = w_ctx w !! y) by (intros y Hy; subst w0; simpl; by rewrite lookup_insert_ne).
  eapply wp_mono, (idle_jump w0 this s1 r (cur :: b) cur false Hinv); try done; try (by subst w0); [|].
  2:{ intros a Ha'. subst w0. simpl in *. rewrite lookup_insert_ne; [by apply Hfr|].
      intros ->. by rewrite Hfr in Hk. }
  intros [sw|?|?] w'; try done. intros (s2 & [-> Hrun' Hq Hd Hp Ht Hct Hf Hot Hctx Hnew]). rewrite app_nil_r in Hrun'.
  split; [by subst w0|]. exists s2. split; [split|].
  - by subst w0.
  - by left.
  - apply (erase_links_fields (w_ctx w') cur k'). rewrite Hctx, Hc0; [done|eauto].
  - intros y Hy. assert (Hyc : c_flags <$> w_ctx w0 !! y = c_flags <$> w_ctx w !! y).
    { destruct (decide (y = cur)) as [->|]; [by rewrite Hc0, Hk|by rewrite Hy0]. }
    rewrite <-Hyc. apply erase_links_flags, Hctx. by rewrite <-(fmap_is_Some c_flags), Hyc, fmap_is_Some.
  - done.
  - done.
  - by rewrite Hp, Hw0.
  - by rewrite Ht, Hw0.
  - by rewrite Hct, Hw0.
  - by rewrite Hf, Hw0.
  - rewrite Hot, Hw0. unfold others. simpl. by rewrite delete_insert_eq.
  - rewrite Hw0 in Hnew. exact Hnew.
  - intros y [ky Hky] Hne. unfold prom_of at 2. rewrite Hky. rewrite <-Hy0 in Hky by done.
    destruct (erase_links_fields (w_ctx w') y ky) as [-> _]; [|done]. rewrite Hctx, Hky; [done|eauto].
Qed.

Lemma wait_in w this s r b cur p kp :
  running w this s r b cur → task_sch_queue s = [] → sleep_pqueue s = [] → w_prom w !! p = Some kp →
  m_error kp = None → m_value kp = None → m_blocked_thread kp = Some this →
  (∀ x, x ∈ b → prom_of (w_ctx w) x ≠ Some p) → (now_at (w_ticks w) ≤ time_point_max)%Z →
  wp (wait this p time_point_max) (returns (λ osw w',
    osw = Some (Switch cur (default (w_fresh w) (head r)) (bool_decide (r = []))) ∧
    ∃ s', waits_in w w' this s s' r (cur :: b) cur p ∧
      ∀ y, is_Some (w_ctx w !! y) → y ≠ cur → prom_of (w_ctx w') y = prom_of (w_ctx w) y)) w.
Proof.
  intros Hrun Hsq Hsl Hkp He Hv Hbt Hnone Hnow.
  pose proof (ti_thr _ _ _ _ _ (ru_inv _ _ _ _ _ _ Hrun)) as Hthr.
  pose proof Hrun as [_ Hself _ Hcur [k Hk] _ _ _ _].
  unfold wait. rewrite wp_bind, wp_self, wp_bind, wp_check.
  rewrite bool_decide_eq_true_2 by done. unfold promise_ready.
  rewrite !wp_bind, wp_get_prom, Hkp, He, Hv. simpl. rewrite wp_ret, wp_bind, wp_now.
  rewrite bool_decide_eq_false_2 by lia.
  unfold ensure_current. rewrite !wp_bind, wp_get_thr. simpl. rewrite Hthr, Hcur, wp_ret.
  rewrite wp_bind, wp_mod_ctx. simpl. rewrite Hk. unfold add_to_blocked. wp_steps.
  eapply wp_mono; [|eapply (jump_waits w _ this s r b cur p k (S (w_ticks w))); [done..|by exists kp|done|]].
  - intros [sw|?|?] w'; try done. intros [-> Hw']. by rewrite wp_ret.
  - unfold ready_upd, set_w_ticks, set_w_thr, set_w_ctx. simpl. by rewrite insert_insert_eq.
Qed.

(** The store in which thread [this] waits for the promise [p] *)
Definition with_waited (this p : nat) (k : promise T) w : world T :=
  set_w_prom (<[p := set_m_blocked_thread (Some this) k]> (w_prom w)) w.

Lemma promise_wait_in w this s r b cur p k :
  running w this s r b cur → task_sch_queue s = [] → sleep_pqueue s = [] →
  w_prom w !! p = Some k → m_error k = None → m_value k = None →
  (∀ x, x ∈ b → prom_of (w_ctx w) x ≠ Some p) → (now_at (w_ticks w) ≤ time_point_max)%Z →
  wp (promise_wait p microseconds_max) (returns (λ wt w',
    wt = Blocked (Switch cur (default (w_fresh w) (head r)) (bool_decide (r = []))) ∧
    ∃ s', waits_in (with_waited this p k w) w' this s s' r (cur :: b) cur p ∧
      ∀ y, is_Some (w_ctx w !! y) → y ≠ cur → prom_of (w_ctx w') y = prom_of (w_ctx w) y)) w.
Proof.
  intros Hrun Hsq Hsl Hk He Hv Hnone Hnow. pose proof (ru_self _ _ _ _ _ _ Hrun) as Hself.
  unfold promise_wait, promise_wait_with, enqueue_thread, promise_base_wait. wp_steps. rewrite He, Hv. wp_steps.
  rewrite Hself. unfold wait_us. rewrite bool_decide_eq_true_2 by done.
  eapply wp_mono, (wait_in (with_waited this p k w) this s r b cur p (set_m_blocked_thread (Some this) k)); try done.
  - intros [osw|?|?] w'; try done. intros (-> & s' & Hw'). rewrite !wp_ret. split; [done|]. by exists s'.
  - eapply running_frame; [exact Hrun|done|apply Hrun|done|done|apply Hrun|done|].
    intros c q kq Hc Hcq Hq. exists kq. split; [|done]. simpl. rewrite lookup_insert_ne; [done|].
    intros ->. by apply (Hnone c).
  - apply lookup_insert_eq.
Qed.

(** ... when none of the thread's other contexts could go on *)
Lemma promise_wait_alone w this s b cur p k :
  running w this s [] b cur → task_sch_queue s = [] → sleep_pqueue s = [] →
  w_prom w !! p = Some k → m_error k = None → m_value k = None →
  (∀ x, x ∈ b → prom_of (w_ctx w) x ≠ Some p) → (now_at (w_ticks w) ≤ time_point_max)%Z →
  wp (promise_wait p microseconds_max) (returns (λ wt w', wt = Blocked (Switch cur (w_fresh w) true) ∧
    ∃ s', waits_in (with_waited this p k w) w' this s s' [] (cur :: b) cur p)) w.
Proof.
  intros. eapply wp_mono, promise_wait_in; [|done..]. intros [wt|?|?] w'; try done.
  intros (-> & s' & Hw & _). split; [done|]. by exists s'.
Qed.

(** ** Running the posted task *)

Variable user : nat → M (world T) exn T.
Variable void_t : T.

(** The posted task wakes the waiter and is deleted. *)
Lemma run_notify_task w this s b1 c b2 cur p k t kt :
  running w this s [] (b1 ++ c :: b2) cur → prom_of (w_ctx w) c = Some p →
  w_prom w !! p = Some k → is_ready w p →
  w_task w !! t = Some kt → t_functor kt = BindNotify this p → t_prom kt = None → t_canceled kt = false → t_refs kt = 1%Z →
  task_sch_queue s = [] →
  wp (pt_run_task user void_t this t) (returns (λ _ w', ∃ s', running w' this s' [c] (b1 ++ b2) cur ∧
    sleep_pqueue s' ≡ₚ filter (λ x, x ≠ c) (sleep_pqueue s) ∧ same_but_sched s s' ∧
    w_prom w' = w_prom w ∧ w_task w' = delete t (w_task w) ∧ others this w' = others this w ∧
    ∀ x, c_canceled <$> w_ctx w' !! x = c_canceled <$> w_ctx w !! x)) w.
Proof.
  intros Hrun Hp Hk Hrd Ht Hf Hpr Hcan Hrf Hsch.
  pose proof (ru_inv _ _ _ _ _ _ Hrun) as [Hthr Hrep Hprom Hsole Hsleep].
  unfold pt_run_task, pt_task_done. rewrite wp_bind, wp_get_thr, Hthr.
  rewrite wp_bind, wp_mod_task, Ht. set (kt1 := set_t_active_context _ kt).
  set (w1 := set_w_task (<[t := kt1]> (w_task w)) w).
  assert (Hrun1 : running w1 this s [] (b1 ++ c :: b2) cur).
  { by apply running_set_task. }
  assert (Hsole1 : sole_waiter (w_ctx w1) s (b1 ++ c :: b2) p c).
  { split; [done|]. intros x Hx Hxp. eapply Hsole; [done| |done|done]. set_solver. }
  assert (Hn : wp (thread_notify this p) (returns (λ _ w', ∃ s',
    running w' this s' [c] (b1 ++ b2) cur ∧
    sleep_pqueue s' ≡ₚ filter (λ x, x ≠ c) (sleep_pqueue s) ∧ same_but_sched s s' ∧
    w_prom w' = w_prom w ∧ w_task w' = w_task w1 ∧
    ∀ x, c_canceled <$> w_ctx w' !! x = c_canceled <$> w_ctx w !! x)) w1).
  { eapply wp_mono, thread_notify_spec; try done; [|apply Hrun].
    intros [[]|?|?] w2; try done. intros Hw2.
    replace w1 with (with_prom w1 p k) in Hw2
      by (unfold with_prom; rewrite insert_id by done; by destruct w1).
    destruct (running_woken w1 w2 this s [] b1 c b2 p k k cur Hrun1 Hk eq_refl Hw2)
      as (s' & Hrun2 & Hsl & Hpw & Htw & Hst & _ & _ & Hcn).
    exists s'. rewrite insert_id in Hpw by done. by split_and!. }
  apply (returns_keeps (others this)) in Hn; [|auto with keeps].
  apply wp_returns in Hn as ([] & w2 & Hrun2 & (s2 & Hn & Hsl & Hst & Hpw & Htw & Hcn) & Hot).
  assert (Hv : task_run user void_t t w1 = (Ret tt, w2)).
  { assert (Hget : get_task t w1 = (Ret kt1, w1)) by (unfold get_task; simpl; by rewrite lookup_insert_eq).
    unfold task_run. rewrite (bind_run _ _ _ _ _ Hget).
    replace (t_prom kt1) with (t_prom kt) by done. rewrite Hpr.
    unfold vtask_run. rewrite (bind_run _ _ _ _ _ Hget).
    replace (t_canceled kt1) with (t_canceled kt) by done.
    replace (t_functor kt1) with (t_functor kt) by done. rewrite Hcan, Hf.
    unfold catch, call, mbind, M_bind. by rewrite Hrun2. }
  rewrite wp_bind. unfold wp at 1. fold w1. rewrite Hv. simpl.
  rewrite wp_bind, wp_mod_task, Htw. simpl. rewrite lookup_insert_eq.
  unfold task_release. rewrite wp_bind, wp_get_task. simpl. rewrite lookup_insert_eq.
  replace (t_prom (set_t_active_context None kt1)) with (t_prom kt) by done.
  replace (t_refs (set_t_active_context None kt1)) with (t_refs kt) by done. rewrite Hrf, Hpr. simpl.
  rewrite wp_bind, wp_ret, wp_modify. exists s2.
  split_and!; [|done..|simpl; by rewrite !delete_insert_eq|done|done].
  assert (Hsch2 : task_sch_queue s2 = []).
  { unfold same_but_sched in Hst. apply (f_equal task_sch_queue) in Hst. by simpl in Hst; rewrite <-Hst. }
  apply running_set_task; [by apply running_set_task|done].
Qed.

(** ** Properties *)

(** One step of the loop to a point from which the rest is known *)
Lemma pt_steps_step n this pt Q w :
  wp (pt_step user void_t this pt) (returns (λ e w', ∃ pt', e = Goto pt' ∧
    wp (pt_steps user void_t n this pt') Q w')) w →
  wp (pt_steps user void_t (S n) this pt) Q w.
Proof.
  intros Hstep. cbn [pt_steps]. rewrite wp_bind. eapply wp_mono, Hstep.
  by intros [e|?|?] w'; [intros (pt' & -> & HQ)|..].
Qed.

Lemma wp_after_steps n m this pt pt' w w' Q :
  pt_steps user void_t n this pt w = (Ret (Goto pt'), w') →
  wp (pt_steps user void_t m this pt') Q w' → wp (pt_steps user void_t (n + m) this pt) Q w.
Proof. intros Hn. unfold wp. by rewrite (pt_steps_app _ _ _ _ _ _ _ _ _ Hn). Qed.

(** A thread with nothing asleep or scheduled yields to the first of its ready contexts,
    or to a new one. *)
Lemma idle_yields w this s r b x :
  running w this s r b x → task_sch_queue s = [] → sleep_pqueue s = [] →
  wp (yield this) (returns (λ sw w', ∃ s', idle_switched w w' this s s' r b x [x] sw)) w.
Proof. intros [] Hsq Hsl. by apply (idle_jump w this s r b x true). Qed.

Lemma idle_yield w this s c r b x :
  running w this s (c :: r) b x → idle s →
  wp (yield this) (returns (λ sw w', ∃ s' b', sw = Switch x c false ∧
    running w' this s' (r ++ [x]) b' c ∧ (∀ p, w_prom w' !! p = w_prom w !! p) ∧
    w_task w' = w_task w ∧ others this w' = others this w ∧
    ∀ y, is_Some (w_ctx w !! y) → c_canceled <$> w_ctx w' !! y = c_canceled <$> w_ctx w !! y)) w.
Proof.
  intros Hrun (_ & _ & Hsq & Hsl). eapply wp_mono, (idle_yields w this s (c :: r) b x Hrun Hsq Hsl).
  intros [sw|?|?] w'; try done. intros (s' & [-> Hrun' _ _ Hp Ht _ _ Hot Hctx _]). exists s', b.
  split_and!; try done; [by rewrite Hp|]. intros y Hy. by apply erase_links_canceled, Hctx.
Qed.

(** The switch to [c], which was ready alone, with nothing else changed *)
Definition switched_to w1 this cur c w' : Prop := ∃ s' b',
  running w' this s' [cur] b' c ∧ (∀ q, w_prom w' !! q = w_prom w1 !! q) ∧ w_task w' = w_task w1 ∧
  others this w' = others this w1 ∧ c_canceled <$> w_ctx w' !! c = c_canceled <$> w_ctx w1 !! c.

Lemma idle_switched_to w w' this s s' b cur c sw :
  running w this s [c] b cur → idle_switched w w' this s s' [c] b cur [cur] sw → switched_to w this cur c w'.
Proof.
  intros Hrun [-> Hrun' _ _ Hp Ht _ _ Hot Hctx _]. exists s', b. split_and!; [done|by rewrite Hp|done..|].
  apply erase_links_canceled, Hctx. apply (sr_ready _ _ _ _ (ti_rep _ _ _ _ _ (ru_inv _ _ _ _ _ _ Hrun))). by left.
Qed.

(** The loop switches to a context that is ready. *)
Lemma loop_switches w this s c b cur :
  running w this s [c] b cur → idle s → th_done s = false →
  wp (pt_step user void_t this (PtAfter time_point_max)) (returns (λ e w',
    e = Jump (Switch cur c false) (PtYielded cur time_point_max) ∧
    ∃ s', idle_switched w w' this s s' [c] b cur [cur] (Switch cur c false))) w.
Proof.
  intros Hrun Hidle Hd. pose proof (ti_thr _ _ _ _ _ (ru_inv _ _ _ _ _ _ Hrun)) as Hthr.
  destruct (sr_ready _ _ _ _ (ti_rep _ _ _ _ _ (ru_inv _ _ _ _ _ _ Hrun))) as ([Hrh _] & _ & Ha).
  cbn [pt_step]. rewrite !wp_bind, wp_get_thr, Hthr, Hd, andb_false_r, Hrh. simpl. rewrite wp_bind.
  eapply wp_mono, (idle_yields w this s [c] b cur Hrun); [|apply Hidle..].
  intros [sw|?|?] w2; try done. intros (s2 & Hsw). pose proof (is_switch _ _ _ _ _ _ _ _ _ _ Hsw) as ->.
  rewrite wp_ret. split; [done|by exists s2].
Qed.

(** The loop with a task in hand that makes one context ready, and nothing else to do *)
Lemma loop_runs_and_switches w this s b cur c t (R : world T → Prop) :
  running w this s [] b cur → task_sch_queue s = [] → sleep_pqueue s = [] → th_done s = false →
  wp (pt_run_task user void_t this t) (returns (λ _ w1, R w1 ∧ ∃ s1 b1,
    running w1 this s1 [c] b1 cur ∧ idle s1 ∧ th_done s1 = false)) w →
  wp (pt_steps user void_t 4 this (PtWhile (Some t))) (returns (λ e w', ∃ pt w1,
    e = Jump (Switch cur c false) pt ∧ R w1 ∧ switched_to w1 this cur c w')) w.
Proof.
  intros Hrun Hsq Hsl Hd Htask.
  pose proof (ti_thr _ _ _ _ _ (ru_inv _ _ _ _ _ _ Hrun)) as Hthr.
  apply pt_steps_step. cbn [pt_step]. rewrite wp_bind, wp_get_thr, Hthr, Hd, wp_bind.
  eapply wp_eq; [by apply (check_nothing w this s)|]. rewrite wp_ret.
  eexists. split; [done|]. apply pt_steps_step. cbn [pt_step]. rewrite wp_bind.
  eapply wp_mono, Htask. intros [[]|?|?] w1; try done. intros (HR & s1 & b1 & Hrun1 & Hidle1 & Hd1).
  pose proof (ti_thr _ _ _ _ _ (ru_inv _ _ _ _ _ _ Hrun1)) as Hthr1.
  rewrite wp_bind. eapply wp_eq; [by apply (check_nothing w1 this s1); [|apply Hidle1..]|].
  rewrite wp_bind. eapply wp_eq; [by apply (dequeue_nothing w1 this s1)|]. rewrite wp_ret. eexists. split; [done|].
  apply pt_steps_step. cbn [pt_step]. rewrite wp_ret. eexists. split; [done|].
  cbn [pt_steps]. rewrite wp_bind. eapply wp_mono, (loop_switches w1 this s1 c _ cur Hrun1 Hidle1 Hd1).
  intros [e|?|?] w2; try done. intros (-> & s2 & Hsw). rewrite wp_ret. eexists _, w1.
  split; [done|]. split; [done|]. by eapply idle_switched_to.
Qed.

Lemma same_but_sched_queues s s' :
  same_but_sched s s' → task_in_queue s' = task_in_queue s ∧ task_pqueue s' = task_pqueue s ∧
    task_sch_queue s' = task_sch_queue s ∧ th_done s' = th_done s.
Proof.
  intros Hst. unfold same_but_sched in Hst.
  split_and!; [apply (f_equal task_in_queue) in Hst|apply (f_equal task_pqueue) in Hst|
    apply (f_equal task_sch_queue) in Hst|apply (f_equal th_done) in Hst]; by simpl in Hst.
Qed.

(** ... such as the task that completing a promise posts. *)
Lemma loop_switches_to_waiter w this s b1 c b2 cur p k t kt :
  running w this s [] (b1 ++ c :: b2) cur → idle s → th_done s = false →
  prom_of (w_ctx w) c = Some p → w_prom w !! p = Some k → is_ready w p →
  w_task w !! t = Some kt → t_functor kt = BindNotify this p → t_prom kt = None → t_canceled kt = false → t_refs kt = 1%Z →
  wp (pt_steps user void_t 4 this (PtWhile (Some t))) (returns (λ e w', ∃ pt w1,
    e = Jump (Switch cur c false) pt ∧ (w_prom w1 = w_prom w ∧ w_task w1 = delete t (w_task w) ∧
      others this w1 = others this w ∧ c_canceled <$> w_ctx w1 !! c = c_canceled <$> w_ctx w !! c) ∧
    switched_to w1 this cur c w')) w.
Proof.
  intros Hrun (Hi & Hpq & Hsq & Hsl) Hd Hp Hk Hrd Ht Hf Hpr Hct Hrf.
  eapply loop_runs_and_switches; [done..|]. eapply wp_mono, run_notify_task; [|done..].
  intros [[]|?|?] w1; try done.
  intros (s1 & Hrun1 & Hsl1 & (H1 & H2 & H3 & H4)%same_but_sched_queues & Hpr1 & Htk1 & Hot1 & Hcan1).
  rewrite Hsl in Hsl1. apply Permutation_nil_r in Hsl1. split; [by split_and!|].
  exists s1, (b1 ++ b2). split; [done|]. split; [split_and!; congruence|congruence].
Qed.

(** Thread [this] with the posted task [t] and nothing else to do, in the store [w2],
    which [p] was completed in since [w]: its loop ends in the switch to the waiter,
    whose wait ends. *)
Record delivered_to w w2 this s t p (k : promise T) (r : exn + T) : Prop := {
  dt_ctx : w_ctx w2 = w_ctx w;
  dt_self : w_self w2 = this;
  dt_fresh : w_fresh w ≤ w_fresh w2;
  dt_prom : w_prom w2 = <[p := settle r k]> (w_prom w);
  dt_thr : w_thr w2 !! this = Some (posted_to s t);
  dt_queue : queue_rep (w_task w2) (posted_to s t) [t];
  dt_task : ∃ kt, w_task w2 !! t = Some kt ∧ t_functor kt = BindNotify this p ∧
    t_when kt = time_point_min ∧ t_prom kt = None ∧ t_canceled kt = false ∧ t_refs kt = 1%Z;
}.

(** Where the delivery ends. *)
Definition delivery_ends w2 this c p cur t (r : exn + T) : outcome exn pt_event → world T → Prop :=
  returns (λ e w', others this w' = others this w2 ∧
    (∀ q, w_prom w' !! q = w_prom w2 !! q) ∧ w_task w' = delete t (w_task w2) ∧
    ∃ pt, e = Jump (Switch cur c false) pt ∧
    wp (promise_wait_resume this c p) (λ o w'', o = match r with
      | inr v => Ret v
      | inl ex => Exc ex
      end ∧ others this w'' = others this w' ∧ w_task w'' = w_task w' ∧
      is_Some (w_prom w'' !! p)) w').

Lemma resume_with_outcome w this s r' b c p k (r : exn + T) :
  running w this s r' b c → c_canceled <$> w_ctx w !! c = Some false →
  w_prom w !! p = Some (settle r k) → m_error k = None →
  wp (promise_wait_resume this c p) (λ o w', o = match r with
    | inr v => Ret v
    | inl ex => Exc ex
    end ∧ others this w' = others this w ∧ w_task w' = w_task w ∧ is_Some (w_prom w' !! p) ∧
    delete p (w_prom w') = delete p (w_prom w)) w.
Proof.
  intros Hrun (kc & Hkc & Hcc)%fmap_Some Hp He.
  assert (Hw : wp (promise_wait_resume this c p) (λ o w', ((o = match r with
      | inr v => Ret v
      | inl ex => Exc ex
      end ∧ is_Some (w_prom w' !! p) ∧ delete p (w_prom w') = delete p (w_prom w)) ∧
      w_task w' = w_task w) ∧ others this w' = others this w) w).
  2:{ eapply wp_mono, Hw. intros o w' (((-> & ? & ?) & ?) & ?). by split_and!. }
  apply wp_keeps; [auto with keeps|]. apply wp_keeps; [auto with keeps|]. unfold promise_wait_resume. rewrite wp_bind.
  eapply wp_mono, wait_resume_returns; [|done..].
  intros [[]|?|?] w5; try done. intros (_ & _ & Hpr5 & _).
  unfold promise_result. rewrite wp_bind, wp_get_prom, Hpr5, Hp.
  destruct r as [ex|v]; simpl.
  - rewrite wp_bind, wp_mod_prom, Hpr5, Hp, wp_throw. split; [done|]. simpl.
    rewrite lookup_insert_eq, delete_insert_eq. eauto.
  - rewrite He, wp_ret, Hpr5, Hp. eauto.
Qed.

Lemma loop_delivers w w2 this s b cur p k c (r : exn + T) t :
  running (set_w_self this w) this s [] b cur → idle s → th_done s = false →
  w_prom w !! p = Some k → m_error k = None → c ∈ b → prom_of (w_ctx w) c = Some p →
  c_canceled <$> w_ctx w !! c = Some false → (∀ i, time_point_min ≤ now_at i)%Z →
  delivered_to w w2 this s t p k r →
  wp (pt_steps user void_t 8 this (PtWhile None)) (delivery_ends w2 this c p cur t r) w2.
Proof.
  intros Hrun (Hi & Hpq & Hsq & Hsl) Hd Hk He Hcb Hp Hcan Hclk
    [Hcw Hself Hfw Hpw Hs1 Hq1 (kt & Hkt & Hf & Hwhen & Hpr & Hct & Hrf)].
  set (s1 := posted_to s t) in *.
  assert (Hprom1 : ∀ q kq, w_prom w !! q = Some kq →
    ∃ kq', w_prom w2 !! q = Some kq' ∧ m_blocked_thread kq' = m_blocked_thread kq).
  { intros q kq Hq'. rewrite Hpw. destruct (decide (p = q)) as [<-|Hne].
    - exists (settle r k). rewrite lookup_insert_eq. split; [done|]. simplify_eq. by destruct r.
    - exists kq. by rewrite lookup_insert_ne. }
  assert (Hrun2 : running w2 this s1 [] b cur).
  { eapply running_frame; [exact Hrun|exact Hcw|exact Hs1|done|done| |done|intros ? ? ? _ _; apply Hprom1].
    intros x. simpl. by rewrite Hsq, elem_of_nil. }
  assert (Hrh : ready_head s1 = None)
    by apply (sr_ready _ _ _ _ (ti_rep _ _ _ _ _ (ru_inv _ _ _ _ _ _ Hrun))).
  apply (wp_after_steps 3 5 _ _ _ _ _ _ (loop_to_block user void_t w2 this s1 Hs1 Hd Hsq Hsl Hrh)).
  apply pt_steps_step. cbn [pt_step]. rewrite wp_bind.
  eapply wp_mono, (dequeue_only w2 this s1 t kt); try done;
    [|unfold held; simpl; by rewrite Hpq, Hsq|intros i; rewrite Hwhen; apply Hclk].
  intros [q|?|?] w3'; try done. intros (-> & n & ->). set (w3 := queue_upd w2 this n s1 None [] []).
  rewrite wp_ret. eexists. split; [done|].
  set (s3 := set_task_in_queue None (set_task_pqueue [] (set_task_sch_queue [] s1))).
  assert (Hp3 : w_prom w3 !! p = Some (settle r k)) by (simpl; by rewrite Hpw, lookup_insert_eq).
  assert (Hot3 : others this w3 = others this w2) by (unfold others; simpl; by rewrite delete_insert_eq).
  apply list_elem_of_split in Hcb as (b1 & b2 & ->).
  eapply wp_mono, (loop_switches_to_waiter w3 this s3 b1 c b2 cur p (settle r k) t kt); try done.
  - intros [e|?|?] w4; try done.
    intros (pt & w5 & -> & (Hpr5 & Htk5 & Hot5 & Hcan5) & s4 & b4 & Hrun4 & Hpr4 & Htk4 & Hot4 & Hcan4).
    split; [by rewrite Hot4, Hot5|]. split; [intros q; by rewrite Hpr4, Hpr5|].
    split; [by rewrite Htk4, Htk5|]. exists pt. split; [done|].
    eapply wp_mono, resume_with_outcome; [|done| |by rewrite Hpr4, Hpr5|done]; [intros o w'' (-> & ? & ? & ? & _); by split_and!|].
    rewrite Hcan4, Hcan5. simpl. by rewrite Hcw.
  - eapply running_frame; [exact Hrun2|done|apply lookup_insert_eq|done|done| |done|].
    + by intros x ?%elem_of_nil.
    + intros c' q kq _ _ Hq'. by exists kq.
  - simpl. by rewrite Hcw.
  - exists (settle r k). split; [done|]. destruct r; [by left|by right].
Qed.

(** What [complete] sends to the thread that waits, once that thread is back on the
    processor *)
Lemma completed_delivered w w' this s p k (r : exn + T) :
  completed_for p this k s [] r w w' →
  delivered_to w (set_w_self this w') this s (w_fresh w) p k r.
Proof.
  intros (Hp & Hc & Hf & Ht & kt & Hq & Hkt & Hfn & Hwhen & Hpr & Hct).
  split; simpl; try done; [rewrite Hf; lia|by rewrite Ht, lookup_insert_eq|].
  exists kt. by rewrite Hkt, lookup_insert_eq.
Qed.

Lemma idle_queue_rep (m : task_map) s : idle s → queue_rep m s [].
Proof.
  intros (Hi & Hpq & Hsq & _).
  split; rewrite ?Hi, ?Hpq, ?Hsq; try done; [by intros ? ?%elem_of_nil|apply is_heap_nil..].
Qed.

(** C4: what is completed on one thread gets back to the context that waits for it on
    another: the completion posts a task; the waiting thread, which had nothing else
    to do, takes it, runs it and switches to the waiter; and the waiter's [wait]
    returns the value or throws the error. *)
Theorem completion_reaches_waiter w this s b cur p k c (r : exn + T) :
  w_self w ≠ this → running (set_w_self this w) this s [] b cur → idle s → th_done s = false →
  w_prom w !! p = Some k → m_error k = None → c ∈ b → prom_of (w_ctx w) c = Some p →
  c_canceled <$> w_ctx w !! c = Some false →
  in_int64 (w_task_count w + 1) = true → w_task w !! w_fresh w = None →
  (∀ i, time_point_min ≤ now_at i)%Z →
  wp (complete p r;;
      modify (set_w_self this);;
      pt_steps user void_t 8 this (PtWhile None))
    (returns (λ e w', ∃ pt, e = Jump (Switch cur c false) pt ∧
      wp (promise_wait_resume this c p) (λ o _, o = match r with
        | inr v => Ret v
        | inl ex => Exc ex
        end) w')) w.
Proof.
  intros Hself Hrun Hidle Hd Hk He Hcb Hp Hcan Hcnt Hfr Hclk.
  pose proof (ru_inv _ _ _ _ _ _ Hrun) as [Hthr _ Hprom _ _]. simpl in Hthr, Hprom.
  destruct (Hprom c Hcb) as (q & kq & Hq & Hkq & Hbt). simplify_eq.
  rewrite wp_bind. eapply wp_mono, (complete_spec w p this k s []); try done; [|by apply idle_queue_rep].
  intros [[]|?|?] w1; try done. intros Hcompl%completed_delivered.
  rewrite wp_bind, wp_modify. eapply wp_mono, loop_delivers; try done.
  intros [e|?|?] w'; try done. intros (_ & _ & _ & pt & -> & Hres). exists pt. split; [done|].
  eapply wp_mono, Hres. by intros o w'' [? _].
Qed.
End delivery.
