(* ===== verification/LoopRun.v ===== *)
(** Whole runs of the task loop (thread.cpp, [process_tasks]): the loop of a thread with
    posted tasks takes and runs all of them, each once, by priority and then in the order
    they were posted, and only then goes to sleep. The pieces are the queues
    (TaskQueue.v), the run of one task (ProcessTasks.v) and the loop's steps. *)
From Stdlib Require Import Sorting.Sorted.
From S2P Require Import Prelude StdHeap World ReadyList TaskQueue Notify Scheduler Blocking Quit Future RunTask ProcessTasks Delivery.

Section ops.
Context {T : Type} `{!Clock} `{!HeapAlgo nat}.
Abbreviation C := (M (world T) exn).
Variable user : nat → C T.
Variable void_t : T.

(** The task a point of the loop is about to run *)
Definition task_at (p : pt_point) : list nat :=
  match p with
  | PtTasks (Some t) _ => [t]
  | _ => []
  end.

(** [n] steps of the loop, or fewer when an event ends them, with the tasks run *)
Fixpoint pt_ran (n this : nat) (p : pt_point) : C (list nat * pt_event) :=
  match n with
  | 0 => mret ([], Goto p)
  | S n =>
    e ← pt_step user void_t this p;
    match e with
    | Goto p' => r ← pt_ran n this p'; mret (task_at p ++ r.1, r.2)
    | _ => mret (task_at p, e)
    end
  end.
End ops.

Section loop.
Context {T : Type} `{!Clock} `{HeapSpec nat}.
Implicit Types (w : world T).
Variable user : nat → M (world T) exn T.
Variable void_t : T.

(** ** One task *)

(** A task made by [async] for a function whose result nobody waits for yet *)
Record job w (x : nat) (kt : task) (p : nat) (kp : promise T) (id : nat) (r : exn + T) : Prop := {
  job_task : w_task w !! x = Some kt;
  job_functor : t_functor kt = UserFn id;
  job_pure : pure_fn user id r;
  job_prom : t_prom kt = Some p;
  job_active : t_canceled kt = false;
  job_refs : t_refs kt = 1%Z;
  job_when : t_when kt = time_point_min;
  job_pending : w_prom w !! p = Some kp;
  job_error : m_error kp = None;
  job_value : m_value kp = None;
  job_unwaited : m_blocked_thread kp = None;
}.

(** The store once it has run *)
Definition job_done w (x p : nat) (kp : promise T) (r : exn + T) : world T :=
  set_w_task (delete x (w_task w)) (with_prom w p (set_m_task None (settle r kp))).

Lemma run_job w this s x kt p kp id r :
  w_thr w !! this = Some s → job w x kt p kp id r →
  pt_run_task user void_t this x w = (Ret tt, job_done w x p kp r).
Proof.
  intros Hs [Ht Hf Hu Hpr Hc Hrf _ Hp He Hv Hb].
  rewrite (run_pure_task _ _ w this s x kt p kp id r) by done. unfold job_done. by destruct r.
Qed.

(** What the queues represent does not change with a task that is in none of them. *)
Lemma queue_rep_delete (m : task_map) s xs x :
  x ∉ held s xs → queue_rep m s xs → queue_rep (delete x m) s xs.
Proof.
  unfold held. intros Hin [Hc Ha Hp Hw].
  assert (Hlk : ∀ y, y ∈ xs ++ task_pqueue s ++ task_sch_queue s → delete x m !! y = m !! y)
    by (intros y Hy; rewrite lookup_delete_ne; [done|set_solver]).
  split.
  - eapply lseg_ext; [|done]. intros y Hy. unfold t_next_of. rewrite Hlk; [done|set_solver].
  - intros y Hy. rewrite Hlk by done. by apply Ha.
  - eapply is_heap_ext; [|done]. intros y z Hy Hz.
    unfold task_priority_less, prio_of, posted_of. rewrite !Hlk; [done|set_solver..].
  - eapply is_heap_ext; [|done]. intros y z Hy Hz.
    unfold task_when_less, when_of. rewrite !Hlk; [done|set_solver..].
Qed.

(** ** Several tasks *)

Record jobs w (ts : list nat) : Prop := {
  js_nodup : NoDup ts;
  js_job x : x ∈ ts → ∃ kt p kp id r, job w x kt p kp id r;
  js_inj x y kx ky : x ∈ ts → y ∈ ts → w_task w !! x = Some kx → w_task w !! y = Some ky →
    t_prom kx = t_prom ky → x = y;
}.

(** They are gone, each promise holds its function's outcome, and nothing else happened to
    tasks or promises. *)
Record all_run w w' (ts : list nat) : Prop := {
  ar_task y : w_task w' !! y = if decide (y ∈ ts) then None else w_task w !! y;
  ar_prom x kt p kp id r : x ∈ ts → job w x kt p kp id r →
    w_prom w' !! p = Some (set_m_task None (settle r kp));
  ar_others p : (∀ x kt, x ∈ ts → w_task w !! x = Some kt → t_prom kt ≠ Some p) →
    w_prom w' !! p = w_prom w !! p;
}.

Lemma jobs_perm w ts ts' : ts ≡ₚ ts' → jobs w ts → jobs w ts'.
Proof.
  intros Hp [H1 H2 H3]. split; [by rewrite <-Hp|intros x; rewrite <-Hp; apply H2|].
  intros x y kx ky. rewrite <-Hp. apply H3.
Qed.

Lemma all_run_perm w w' ts ts' : ts ≡ₚ ts' → all_run w w' ts → all_run w w' ts'.
Proof.
  intros Hp [H1 H2 H3]. split.
  - intros y. rewrite H1. assert (Hy : y ∈ ts ↔ y ∈ ts') by by rewrite Hp.
    repeat case_decide; tauto.
  - intros x kt p kp id r. rewrite <-Hp. apply H2.
  - intros p Hn. apply H3. intros x kt. rewrite Hp. apply Hn.
Qed.

(** The other jobs do not see that one has run. *)
Lemma job_after w x p kp r y kt p' kp' id' r' :
  y ≠ x → p' ≠ p → job w y kt p' kp' id' r' ↔ job (job_done w x p kp r) y kt p' kp' id' r'.
Proof.
  intros Hy Hp. split; intros [Ht ? ? ? ? ? ? Hk ? ? ?]; split; try done; simpl in *.
  - by rewrite lookup_delete_ne.
  - by rewrite lookup_insert_ne.
  - by rewrite lookup_delete_ne in Ht.
  - by rewrite lookup_insert_ne in Hk.
Qed.

Lemma jobs_other w x kt p kp id r ts y ky :
  jobs w (x :: ts) → job w x kt p kp id r → y ∈ ts → w_task w !! y = Some ky →
  y ≠ x ∧ t_prom ky ≠ Some p.
Proof.
  intros [Hnd _ Hinj] Hx Hy Hky. apply NoDup_cons in Hnd as [Hx' _].
  assert (Hne : y ≠ x) by (by intros ->). split; [done|]. intros Hp. apply Hne.
  eapply Hinj; [by right|by left|done|by apply Hx|]. rewrite Hp. symmetry. apply Hx.
Qed.

Lemma jobs_after w x kt p kp id r ts :
  jobs w (x :: ts) → job w x kt p kp id r → jobs (job_done w x p kp r) ts.
Proof.
  intros Hjs Hx. pose proof Hjs as [Hnd Hjob Hinj]. apply NoDup_cons in Hnd as [Hx' Hnd].
  split; [done| |].
  - intros y Hy. destruct (Hjob y ltac:(by right)) as (ky & p' & kp' & id' & r' & Hj).
    destruct (jobs_other _ _ _ _ _ _ _ _ y ky Hjs Hx Hy) as [Hne Hpe]; [apply Hj|].
    exists ky, p', kp', id', r'. apply job_after; [done| |done]. intros ->. apply Hpe, Hj.
  - intros y z ky kz Hy Hz Hky Hkz. simpl in *.
    rewrite lookup_delete_ne in Hky by (by intros ->). rewrite lookup_delete_ne in Hkz by (by intros ->).
    eapply Hinj; [by right|by right|done..].
Qed.

Lemma all_run_cons w w' x kt p kp id r ts :
  jobs w (x :: ts) → job w x kt p kp id r → all_run (job_done w x p kp r) w' ts →
  all_run w w' (x :: ts).
Proof.
  intros Hjs Hx [H1 H2 H3].
  assert (Hp : w_prom w' !! p = Some (set_m_task None (settle r kp))).
  { rewrite H3; [apply lookup_insert_eq|]. intros y ky Hy Hky. simpl in Hky.
    apply lookup_delete_Some in Hky as [_ Hky]. by eapply jobs_other. }
  split.
  - intros y. rewrite H1. simpl. destruct (decide (y = x)) as [->|Hne].
    + rewrite lookup_delete_eq, (decide_True (P := x ∈ x :: ts)) by (by left). by case_decide.
    + rewrite lookup_delete_ne by done. assert (Hin : y ∈ x :: ts ↔ y ∈ ts) by (rewrite elem_of_cons; tauto).
      repeat case_decide; tauto.
  - intros y ky p' kp' id' r' Hy Hj. destruct (decide (y = x)) as [->|Hne].
    + pose proof (job_task _ _ _ _ _ _ _ Hj) as E1. pose proof (job_task _ _ _ _ _ _ _ Hx) as E2.
      assert (ky = kt) as -> by congruence.
      assert (p' = p) as -> by (pose proof (job_prom _ _ _ _ _ _ _ Hj); pose proof (job_prom _ _ _ _ _ _ _ Hx); congruence).
      assert (kp' = kp) as -> by (pose proof (job_pending _ _ _ _ _ _ _ Hj); pose proof (job_pending _ _ _ _ _ _ _ Hx); congruence).
      rewrite Hp. assert (r' = r) as ->; [|done].
      assert (id' = id) as -> by (pose proof (job_functor _ _ _ _ _ _ _ Hj); pose proof (job_functor _ _ _ _ _ _ _ Hx); congruence).
      pose proof (job_pure _ _ _ _ _ _ _ Hj w) as E3. rewrite (job_pure _ _ _ _ _ _ _ Hx w) in E3.
      by destruct r, r'; simplify_eq.
    + assert (Hy' : y ∈ ts) by set_solver.
      destruct (jobs_other _ _ _ _ _ _ _ _ y ky Hjs Hx Hy') as [_ Hpe]; [apply Hj|].
      eapply H2; [done|]. apply job_after; [done| |done]. intros ->. apply Hpe, Hj.
  - intros q Hq. rewrite H3.
    + simpl. rewrite lookup_insert_ne; [done|]. intros ->.
      eapply (Hq x kt); [by left|apply Hx|apply Hx].
    + intros y ky Hy Hky. simpl in Hky. apply lookup_delete_Some in Hky as [_ Hky].
      eapply Hq; [by right|done].
Qed.

(** ** The loop *)

(** Nothing scheduled, asleep or ready: only tasks to run *)
Definition only_tasks (s : thread_private) : Prop :=
  th_done s = false ∧ task_sch_queue s = [] ∧ sleep_pqueue s = [] ∧ ready_head s = None.

Definition with_pqueue (pq : list nat) (s : thread_private) : thread_private :=
  set_task_in_queue None (set_task_pqueue pq (set_task_sch_queue [] s)).

(** [dequeue] hands out a first one of the tasks that are due. *)
Lemma dequeue_first w this s xs :
  w_thr w !! this = Some s → queue_rep (w_task w) s xs → task_sch_queue s = [] →
  (∀ x, x ∈ xs → due (w_task w) (now_at (w_ticks w)) x) →
  wp (dequeue this) (returns (λ o w', ∃ n pq', w' = queue_upd w this n s None pq' [] ∧
    queue_rep (w_task w) (with_pqueue pq' s) [] ∧ held s xs ≡ₚ option_list o ++ pq' ∧
    (o = None → pq' = []) ∧ ∀ x, o = Some x → ∀ y, y ∈ pq' → runs_before (w_task w) x y)) w.
Proof.
  intros Hs Hr Hsch Hdue. eapply wp_mono, dequeue_spec; [|done..].
  intros [o|?|?] w'; try done. simpl.
  intros (n1 & n' & pq1 & sch1 & pq' & sch' & -> & _ & _ & Henq & Hdeq & Hh1 & Hh2).
  pose proof (enqueued_perm _ _ _ _ _ _ _ Henq) as Hperm.
  destruct Henq as (_ & Hs1 & _). rewrite Hsch in Hs1. simpl in Hs1.
  assert (sch1 = []) as ->.
  { apply elem_of_nil_inv. intros x. rewrite Hs1, list_elem_of_filter. intros [Hnd Hx]. by apply Hnd, Hdue. }
  rewrite app_nil_r in Hperm. change (xs ++ _ ++ _) with (held s xs) in Hperm.
  pose proof (dequeued_perm _ _ _ _ _ _ _ Hdeq) as Hperm2. rewrite app_nil_r in Hperm2.
  assert (Hsch' : sch' = [] ∧ (o = None → pq' = []) ∧
    ∀ x, o = Some x → ∀ y, y ∈ pq' → runs_before (w_task w) x y).
  { destruct o as [x|]; [|by destruct Hdeq as (_ & -> & -> & _)].
    destruct Hdeq as [(Hbad & _)|(_ & -> & _ & Hmax)]; [by apply Permutation_nil_cons in Hbad|].
    split_and!; [done..|]. intros ? [= <-] y Hy. by apply not_less_runs_before, Hmax. }
  destruct Hsch' as [-> Hfirst]. rewrite app_nil_r in Hperm2.
  exists n', pq'. split; [done|]. split; [|split; [by rewrite <-Hperm, <-Hperm2|done]].
  split; simpl; [done| |done|done]. intros y Hy. rewrite app_nil_r in Hy.
  apply (qr_alloc _ _ _ Hr). change (y ∈ held s xs). rewrite <-Hperm, <-Hperm2. apply elem_of_app. by right.
Qed.

Lemma runs_before_delete (m : task_map) x l :
  x ∉ l → StronglySorted (runs_before (delete x m)) l → StronglySorted (runs_before m) l.
Proof.
  induction l as [|y l IH]; intros Hx Hl; [constructor|]. inversion Hl as [|? ? Hsort Hall]; subst.
  apply not_elem_of_cons in Hx as [Hxy Hx]. constructor; [by apply IH|].
  rewrite Forall_forall in *. intros z Hz. specialize (Hall z Hz).
  unfold runs_before, prio_of, posted_of in *.
  by rewrite !lookup_delete_ne in Hall by (done || by intros ->).
Qed.

Lemma pt_ran_goto n this p p' w w' Q :
  pt_step user void_t this p w = (Ret (Goto p'), w') →
  wp (pt_ran user void_t n this p') (λ o w2, match o with
    | Ret r => Q (Ret (task_at p ++ r.1, r.2)) w2
    | Exc e => Q (Exc e) w2
    | Undef u => Q (Undef u) w2
    end) w' →
  wp (pt_ran user void_t (S n) this p) Q w.
Proof.
  intros Hs Hw. cbn [pt_ran]. rewrite wp_bind. eapply wp_eq; [exact Hs|]. simpl. rewrite wp_bind.
  eapply wp_mono, Hw. intros [r|?|?] w2; [|done..]. by rewrite wp_ret.
Qed.

(** Nothing left to run: the loop goes to sleep. *)
Lemma loop_falls_asleep w this s tt' :
  w_thr w !! this = Some s → only_tasks s → idle s → tt' = time_point_max →
  wp (pt_ran user void_t 3 this (PtTasks None tt')) (returns (λ r w',
    r = ([], Sleep None (PtWhile None)) ∧ w' = w)) w.
Proof.
  intros Hs (Hd & Hsq & Hsl & Hrh) Hidle ->.
  apply (pt_ran_goto 2 _ _ (PtAfter time_point_max) w w); [done|].
  apply (pt_ran_goto 1 _ _ (PtBlock time_point_max) w w).
  { cbn [pt_step]. rewrite (bind_run _ _ w w (Ret s)) by (unfold get_thr; by rewrite Hs).
    by rewrite Hd, andb_false_r, Hrh. }
  cbn [pt_ran pt_step]. rewrite !wp_bind. eapply wp_eq; [by apply (dequeue_nothing w this s)|]. done.
Qed.

Lemma job_same w w' x kt p kp id r :
  w_task w' = w_task w → w_prom w' = w_prom w → job w x kt p kp id r → job w' x kt p kp id r.
Proof. intros Ht Hp [? ? ? ? ? ? ? ? ? ? ?]. split; congruence. Qed.

Lemma jobs_same w w' ts : w_task w' = w_task w → w_prom w' = w_prom w → jobs w ts → jobs w' ts.
Proof.
  intros Ht Hp [H1 H2 H3]. split; [done| |by rewrite Ht].
  intros x Hx. destruct (H2 x Hx) as (kt & p & kp & id & r & Hj).
  exists kt, p, kp, id, r. by apply (job_same w).
Qed.

Lemma all_run_same w w2 w' ts :
  w_task w2 = w_task w → w_prom w2 = w_prom w → all_run w2 w' ts → all_run w w' ts.
Proof.
  intros Ht Hp [H1 H2 H3]. rewrite Ht in H1, H3. rewrite Hp in H3. split; [done| |done].
  intros x kt p kp id r Hx Hj. eapply H2; [done|]. by apply (job_same w).
Qed.

Lemma all_run_nil w w' : w_task w' = w_task w → w_prom w' = w_prom w → all_run w w' [].
Proof.
  intros Ht Hp. split; [intros y|by intros ? ? ? ? ? ? ?%elem_of_nil|by rewrite Hp].
  rewrite decide_False by apply not_elem_of_nil. by rewrite Ht.
Qed.

(** One round of [while( next )]: the task is run and the next one taken. *)
Lemma loop_round w this s x tt' :
  w_thr w !! this = Some s → only_tasks s → task_in_queue s = None →
  queue_rep (w_task w) s [] → jobs w (x :: task_pqueue s) →
  ∃ kt p kp id r o pq' w2, job w x kt p kp id r ∧
    pt_step user void_t this (PtTasks (Some x) tt') w = (Ret (Goto (PtTasks o time_point_max)), w2) ∧
    w_task w2 = delete x (w_task w) ∧ w_prom w2 = w_prom (job_done w x p kp r) ∧
    w_thr w2 = <[this := with_pqueue pq' s]> (w_thr w) ∧
    queue_rep (w_task w2) (with_pqueue pq' s) [] ∧ task_pqueue s ≡ₚ option_list o ++ pq' ∧
    (o = None → pq' = []) ∧ ∀ y, o = Some y → ∀ z, z ∈ pq' → runs_before (w_task w2) y z.
Proof.
  intros Hs (Hd & Hsq & Hsl & Hrh) Hiq Hq Hjs.
  destruct (js_job _ _ Hjs x ltac:(by left)) as (kt & p & kp & id & r & Hx).
  assert (Hxn : x ∉ held s []).
  { unfold held. simpl. rewrite Hsq, app_nil_r. by apply NoDup_cons, (js_nodup _ _ Hjs). }
  pose proof (queue_rep_delete _ _ _ _ Hxn Hq) as Hq1. set (w1 := job_done w x p kp r).
  assert (Hs1 : w_thr w1 !! this = Some s) by done.
  pose proof (dequeue_first w1 this s [] Hs1 Hq1 Hsq ltac:(by intros ? ?%elem_of_nil)) as Hdq.
  apply wp_returns in Hdq as (o & w2 & Hdq & n2 & pq' & -> & Hq2 & Hperm & Hnone & Hfirst).
  unfold held in Hperm. simpl in Hperm. rewrite Hsq, app_nil_r in Hperm.
  exists kt, p, kp, id, r, o, pq', (queue_upd w1 this n2 s None pq' []). split; [done|]. split; [|by split_and!].
  cbn [pt_step]. rewrite (bind_run _ _ _ _ _ (run_job w this s x kt p kp id r Hs Hx)).
  rewrite (bind_run _ _ _ _ _ (check_nothing w1 this s Hs1 Hsq Hsl)).
  by rewrite (bind_run _ _ _ _ _ Hdq).
Qed.

Lemma jobs_next w w2 x kt p kp id r o pq pq' :
  jobs w (x :: pq) → job w x kt p kp id r → w_task w2 = delete x (w_task w) →
  w_prom w2 = w_prom (job_done w x p kp r) → pq ≡ₚ option_list o ++ pq' →
  jobs w2 (option_list o ++ pq').
Proof.
  intros Hjs Hx Ht Hp Hperm. eapply jobs_perm; [exact Hperm|].
  apply (jobs_same (job_done w x p kp r)); [done..|]. by eapply jobs_after.
Qed.

Lemma all_run_next w w2 w' x kt p kp id r pq ts :
  jobs w (x :: pq) → job w x kt p kp id r → w_task w2 = delete x (w_task w) →
  w_prom w2 = w_prom (job_done w x p kp r) → pq ≡ₚ ts → all_run w2 w' ts → all_run w w' (x :: pq).
Proof.
  intros Hjs Hx Ht Hp Hperm Hall. eapply all_run_cons; [done|done|].
  apply (all_run_same _ w2); [done..|]. by eapply all_run_perm.
Qed.

(** From a task in hand to the end *)
Lemma loop_runs_jobs n : ∀ w this s x tt',
  length (task_pqueue s) = n → w_thr w !! this = Some s → only_tasks s → task_in_queue s = None →
  queue_rep (w_task w) s [] → jobs w (x :: task_pqueue s) →
  wp (pt_ran user void_t (n + 4) this (PtTasks (Some x) tt')) (returns (λ r w', ∃ l,
    r = (x :: l, Sleep None (PtWhile None)) ∧ l ≡ₚ task_pqueue s ∧
    StronglySorted (runs_before (w_task w)) l ∧ all_run w w' (x :: task_pqueue s) ∧
    w_thr w' = <[this := with_pqueue [] s]> (w_thr w))) w.
Proof.
  induction n as [|n IH]; intros w this s x tt' Hn Hs Hot Hiq Hq Hjs;
    destruct (loop_round w this s x tt' Hs Hot Hiq Hq Hjs) as
      (kt & p & kp & id & r & o & pq' & w2 & Hx & Hstep & Ht & Hp & Hth & Hq2 & Hperm & Hnone & Hfirst);
    pose proof (jobs_next _ _ _ _ _ _ _ _ _ _ _ Hjs Hx Ht Hp Hperm) as Hjs2;
    (eapply (pt_ran_goto _ this _ _ w w2); [exact Hstep|]);
    assert (Hs2 : w_thr w2 !! this = Some (with_pqueue pq' s)) by (by rewrite Hth, lookup_insert_eq).
  - apply nil_length_inv in Hn. rewrite Hn in Hperm. symmetry in Hperm. apply Permutation_nil_r in Hperm.
    destruct o as [y|]; [done|]. simpl in Hperm. subst pq'.
    eapply wp_mono, (loop_falls_asleep w2 this (with_pqueue [] s)); try done;
      [|destruct Hot as (? & _ & ? & ?); by split_and!|by destruct Hot as (_ & _ & Hsl & _)].
    intros [r'|?|?] w3; [|done..]. intros [-> ->]. exists []. rewrite Hn. simpl.
    split_and!; [done|done|constructor| |done]. rewrite Hn in Hjs.
    eapply (all_run_next w w2 w2 x kt p kp id r [] []); [done..|]. by apply all_run_nil.
  - destruct o as [y|]; [|by rewrite (Hnone eq_refl) in Hperm; apply Permutation_length in Hperm; rewrite Hn in Hperm].
    simpl in Hperm, Hjs2. specialize (Hfirst y eq_refl).
    assert (Hn' : length pq' = n) by (apply Permutation_length in Hperm; simpl in Hperm; lia).
    eapply wp_mono, (IH w2 this (with_pqueue pq' s) y time_point_max); try done;
      [|destruct Hot as (? & _ & ? & ?); by split_and!].
    intros [r'|?|?] w3; [|done..]. intros (l & -> & Hl & Hsort & Hall & Hth'). exists (y :: l).
    assert (Hyl : y :: l ≡ₚ task_pqueue s) by by rewrite Hperm, Hl.
    split; [done|]. split; [done|]. split; [|split].
    + apply (runs_before_delete _ x); [rewrite Hyl; by apply NoDup_cons, (js_nodup _ _ Hjs)|].
      rewrite <-Ht. constructor; [done|]. apply Forall_forall. intros z Hz. apply Hfirst. by rewrite <-Hl.
    + by apply (all_run_next w w2 w3 x kt p kp id r _ (y :: pq')).
    + rewrite Hth', Hth. by rewrite insert_insert_eq.
Qed.

Lemma step_check w this s next :
  w_thr w !! this = Some s → only_tasks s →
  pt_step user void_t this (PtWhile next) w = (Ret (Goto (PtTasks next time_point_max)), w).
Proof.
  intros Hs (Hd & Hsq & Hsl & _). cbn [pt_step].
  rewrite (bind_run _ _ w w (Ret s)) by (unfold get_thr; by rewrite Hs).
  by rewrite Hd, (bind_run _ _ _ _ _ (check_nothing w this s Hs Hsq Hsl)).
Qed.

Lemma step_block w this s tt' :
  w_thr w !! this = Some s → only_tasks s → tt' = time_point_max →
  pt_step user void_t this (PtAfter tt') w = (Ret (Goto (PtBlock time_point_max)), w).
Proof.
  intros Hs (Hd & _ & _ & Hrh) ->. cbn [pt_step].
  rewrite (bind_run _ _ w w (Ret s)) by (unfold get_thr; by rewrite Hs). by rewrite Hd, andb_false_r, Hrh.
Qed.

(** ** Properties *)

(** C7: the loop of a thread on which tasks have been posted runs all of them, each once, by
    priority and, among equals, in the order of posting; every promise gets what its
    function gives, the tasks are gone, and then the loop sleeps until it is notified. *)
Theorem loop_runs_everything_posted w this s xs :
  w_thr w !! this = Some s → only_tasks s → queue_rep (w_task w) s xs → jobs w (held s xs) →
  (∀ i, time_point_min ≤ now_at i)%Z →
  wp (pt_ran user void_t (length (held s xs) + 8) this (PtWhile None)) (returns (λ r w',
    r.2 = Sleep None (PtWhile None) ∧ r.1 ≡ₚ held s xs ∧
    StronglySorted (runs_before (w_task w)) r.1 ∧ all_run w w' (held s xs) ∧
    w_thr w' = <[this := with_pqueue [] s]> (w_thr w))) w.
Proof.
  intros Hs Hot Hq Hjs Hclk. pose proof Hot as (Hd & Hsq & Hsl & Hrh).
  replace (length (held s xs) + 8) with (S (S (S (S (length (held s xs) + 4))))) by lia.
  eapply pt_ran_goto; [by apply (step_check w this s)|]. eapply pt_ran_goto; [done|].
  eapply pt_ran_goto; [by apply (step_block w this s)|].
  assert (Hdue : ∀ x, x ∈ xs → due (w_task w) (now_at (w_ticks w)) x).
  { intros x Hx. destruct (js_job _ _ Hjs x ltac:(apply elem_of_app; by left)) as (kt & p & kp & id & r & Hj).
    unfold due, when_of. rewrite (job_task _ _ _ _ _ _ _ Hj). simpl. rewrite (job_when _ _ _ _ _ _ _ Hj). apply Hclk. }
  pose proof (dequeue_first w this s xs Hs Hq Hsq Hdue) as Hdq.
  apply wp_returns in Hdq as (o & w2 & Hdq & n2 & pq' & -> & Hq2 & Hperm & Hnone & Hfirst).
  set (w2 := queue_upd w this n2 s None pq' []) in *.
  assert (Hs2 : w_thr w2 !! this = Some (with_pqueue pq' s)) by apply lookup_insert_eq.
  assert (Hot2 : only_tasks (with_pqueue pq' s)) by by split_and!.
  destruct o as [x|]; simpl in Hperm.
  - eapply pt_ran_goto; [cbn [pt_step]; by rewrite (bind_run _ _ _ _ _ Hdq)|].
    replace (length (held s xs) + 4) with (S (length pq' + 4)) by (rewrite Hperm; simpl; lia).
    eapply pt_ran_goto; [by apply (step_check w2 this (with_pqueue pq' s))|].
    eapply wp_mono, (loop_runs_jobs (length pq') w2 this (with_pqueue pq' s) x); try done;
      [|by apply (jobs_same w), (jobs_perm w (held s xs))].
    intros [r|?|?] w3; [|done..]. intros (l & -> & Hl & Hsort & Hall & Hth). simpl.
    split; [done|]. split; [by rewrite Hperm, Hl|]. split; [|split].
    + constructor; [done|]. apply Forall_forall. intros y Hy. apply (Hfirst x eq_refl). by rewrite <-Hl.
    + apply (all_run_same w w2); [done..|]. by apply (all_run_perm w2 w3 (x :: pq')).
    + rewrite Hth. simpl. by rewrite insert_insert_eq.
  - specialize (Hnone eq_refl) as ->. apply Permutation_nil_r in Hperm.
    cbn [pt_ran pt_step]. rewrite !wp_bind. eapply wp_eq; [exact Hdq|]. rewrite Hperm, wp_ret. cbn.
    split_and!; [done..|constructor|by apply all_run_nil|done].
Qed.
End loop.
