(* ===== verification/LoopYield.v ===== *)
(** What becomes of a context that yields when its thread has nothing else to do
    (thread.cpp, [yield] and [process_tasks]): the first time the thread's new context
    runs the loop, which gives the processor back; the second time the loop, jumped back
    to, goes to sleep although a context is ready. *)
From S2P Require Import Prelude StdHeap World ReadyList TaskQueue Notify Scheduler Blocking Quit Future RunTask ProcessTasks Delivery.

Section ops.
Context {T : Type} `{!Clock} `{!HeapAlgo nat}.
Abbreviation C := (M (world T) exn).
Variable user : nat → C T.
Variable void_t : T.

(** A context yields twice: the switches of its two calls, and how the run of the loop that
    follows each ends *)
Definition two_yields (this : nat) : C (switch * pt_event * (switch * pt_event)) :=
  sw1 ← yield this;
  e1 ← (pt ← pt_enter this; pt_steps user void_t 3 this pt);
  start_next_task_resume this (sw_prev sw1);;
  sw2 ← yield this;
  e2 ← match e1 with
    | Jump _ back => pt_steps user void_t 2 this back
    | _ => undef Diverges
    end;
  mret (sw1, e1, (sw2, e2)).
End ops.

Section yields.
Context {T : Type} `{!Clock} `{HeapSpec nat}.
Implicit Types (w : world T).
Variable user : nat → M (world T) exn T.
Variable void_t : T.

(** The loop of a new context, on a thread with another context ready *)
Lemma enter_switches w this s c b cur :
  running w this s [c] b cur → idle s → th_done s = false →
  wp (pt ← pt_enter this; pt_steps user void_t 3 this pt) (returns (λ e w',
    e = Jump (Switch cur c false) (PtYielded cur time_point_max) ∧
    ∃ s', idle_switched w w' this s s' [c] b cur [cur] (Switch cur c false))) w.
Proof.
  intros Hrun Hidle Hd. pose proof (ti_thr _ _ _ _ _ (ru_inv _ _ _ _ _ _ Hrun)) as Hthr.
  unfold pt_enter. rewrite !wp_bind. eapply wp_eq; [by apply (dequeue_nothing w this s)|]. rewrite wp_ret.
  apply pt_steps_step. cbn [pt_step]. rewrite wp_bind, wp_get_thr, Hthr, Hd, wp_bind.
  eapply wp_eq; [apply (check_nothing w this s Hthr); by destruct Hidle as (_ & _ & ? & ?)|]. rewrite wp_ret. eexists. split; [done|].
  apply pt_steps_step. cbn [pt_step]. rewrite wp_ret. eexists. split; [done|].
  cbn [pt_steps]. rewrite wp_bind. eapply wp_mono, (loop_switches user void_t w this s c b cur); [|done..].
  intros [e|?|?] w'; try done. intros (-> & Hsw). by rewrite wp_ret.
Qed.

(** The loop jumped back to when no task has been posted: it sleeps until the time it had
    looked up before it switched, whoever is ready or asleep by now. *)
Lemma back_sleeps w this s r b cur k tt' :
  running w this s r b cur → task_in_queue s = None → task_pqueue s = [] → task_sch_queue s = [] →
  w_ctx w !! cur = Some k → c_canceled k = false →
  pt_steps user void_t 2 this (PtYielded cur tt') w =
    (Ret (Sleep (if bool_decide (tt' = time_point_max) then None else Some tt') (PtWhile None)), w).
Proof.
  intros Hrun Hi Hp Hq Hk Hc. pose proof (ti_thr _ _ _ _ _ (ru_inv _ _ _ _ _ _ Hrun)) as Hthr.
  pose proof (dequeue_empty w this s Hthr Hi Hp Hq) as Hdq. cbn [pt_steps pt_step].
  rewrite (bind_run _ _ w w (Ret (Goto (PtBlock tt')))).
  2:{ rewrite (bind_run _ _ w w (Ret true)) by exact (resume_running _ _ _ _ _ _ _ Hrun Hk Hc).
      by rewrite (bind_run _ _ w w (Ret None)) by exact Hdq. }
  cbn [pt_steps pt_step]. erewrite (bind_run _ _ w w (Ret (Sleep _ (PtWhile None)))); [done|].
  by rewrite (bind_run _ _ _ _ _ Hdq).
Qed.

Lemma canceled_lookup w c : c_canceled <$> w_ctx w !! c = Some false → ∃ k, w_ctx w !! c = Some k ∧ c_canceled k = false.
Proof. intros (k & ? & ?)%fmap_Some. eauto. Qed.

(** ** Properties *)

(** C38: a context that yields twice on a thread with nothing else to do is not run again:
    its second call switches back to the loop, which goes to sleep without a time limit
    while that context is in the ready list; only a task posted by another thread ends
    the sleep. *)
Theorem second_yield_sleeps w this s b x k :
  running w this s [] b x → idle s → th_done s = false → w_ctx w !! x = Some k → c_canceled k = false →
  wp (two_yields user void_t this) (returns (λ r w',
    r = (Switch x (w_fresh w) true, Jump (Switch (w_fresh w) x false) (PtYielded (w_fresh w) time_point_max),
      (Switch x (w_fresh w) false, Sleep None (PtWhile None))) ∧
    ∃ s', running w' this s' [x] b (w_fresh w) ∧ idle s' ∧ w_task w' = w_task w ∧ w_prom w' = w_prom w)) w.
Proof.
  intros Hrun Hidle Hd Hk Hc. unfold two_yields. rewrite wp_bind.
  eapply wp_mono, (idle_yields w this s [] b x Hrun); [|apply Hidle..].
  intros [sw1|?|?] w1; try done. intros (s1 & [-> Hrun1 Hq1 Hd1 Hp1 Ht1 _ _ _ Hctx1 Hnew1]). simpl in *.
  pose proof (idle_queues _ _ Hq1 Hidle) as Hidle1. specialize (Hnew1 eq_refl). apply flags_canceled in Hnew1.
  assert (Hx1 : c_canceled <$> w_ctx w1 !! x = Some false)
    by (rewrite (erase_links_canceled _ _ _ (Hctx1 x ltac:(eauto))), Hk; simpl; by rewrite Hc).
  rewrite wp_bind. eapply wp_mono, (enter_switches w1 this s1 x b (w_fresh w)); [|done|done|congruence].
  intros [e1|?|?] w2; try done. intros (-> & s2 & [_ Hrun2 Hq2 Hd2 Hp2 Ht2 _ _ _ Hctx2 _]). simpl in *.
  pose proof (idle_queues _ _ Hq2 Hidle1) as Hidle2.
  assert (Hx2 : c_canceled <$> w_ctx w2 !! x = Some false)
    by (rewrite (erase_links_canceled _ _ _ (Hctx2 x ltac:(by eapply fmap_is_Some; rewrite Hx1))); done).
  assert (Hc2 : c_canceled <$> w_ctx w2 !! w_fresh w = Some false)
    by (rewrite (erase_links_canceled _ _ _ (Hctx2 _ ltac:(by eapply fmap_is_Some; rewrite Hnew1))); done).
  destruct (canceled_lookup _ _ Hx2) as (k2 & Hk2 & Hcan2).
  rewrite wp_bind. eapply wp_eq; [by apply (resume_running w2 this s2 [w_fresh w] b x k2)|].
  cbv beta iota. rewrite wp_bind. eapply wp_mono, (idle_yields w2 this s2 [w_fresh w] b x Hrun2); [|apply Hidle2..].
  intros [sw2|?|?] w3; try done. intros (s3 & [-> Hrun3 Hq3 _ Hp3 Ht3 _ _ _ Hctx3 _]). simpl in *.
  assert (Hc3 : c_canceled <$> w_ctx w3 !! w_fresh w = Some false)
    by (rewrite (erase_links_canceled _ _ _ (Hctx3 _ ltac:(by eapply fmap_is_Some; rewrite Hc2))); done).
  destruct (canceled_lookup _ _ Hc3) as (k3 & Hk3 & Hcan3).
  pose proof (idle_queues _ _ Hq3 Hidle2) as Hidle3.
  rewrite wp_bind. eapply wp_eq; [by apply (back_sleeps w3 this s3 [x] b _ k3 _ Hrun3); try done; apply Hidle3|]. rewrite wp_ret.
  split; [done|]. exists s3. split_and!; [done..|congruence|congruence].
Qed.
End yields.
