(* ===== verification/Calls.v ===== *)
(** Calls on the caller's own thread, from posting the function to the return of the
    wait: the caller's context is suspended, a new context takes and runs the task
    (ProcessTasks.v), which completes the promise and makes the caller ready, and
    switches back (Delivery.v). A thread that has not entered [exec] has no context
    yet; waiting makes one. *)
From S2P Require Import Prelude StdHeap World ReadyList TaskQueue Notify Scheduler Blocking Quit Future RunTask ProcessTasks Delivery.

Section calls.
Context {T : Type} `{!Clock} `{HeapSpec nat}.
Implicit Types (w : world T).
Variable user : nat → M (world T) exn T.
Variable void_t : T.

(** ** Running the task *)

Lemma complete_wakes w this p r k s rd b1 c b2 :
  w_prom w !! p = Some k → m_error k = None → m_blocked_thread k = Some this →
  w_thr w !! this = Some s → w_self w = this → sched_rep (w_ctx w) s rd (b1 ++ c :: b2) →
  sole_waiter (w_ctx w) s (b1 ++ c :: b2) p c →
  wp (complete p r) (returns (λ _ w',
    waiter_woken (with_prom w p (settle r k)) this s c rd (b1 ++ b2) w')) w.
Proof. destruct r as [e|v]; intros; [by apply set_exception_wakes|by apply set_value_wakes]. Qed.

(** What running the call's task leaves of it: the last reference deletes it. *)
Definition after_call w w' (p t : nat) (kt : task) (k : promise T) (r : exn + T) : Prop :=
  if decide (t_refs kt = 1%Z) then
    w_task w' = delete t (w_task w) ∧ w_prom w' = <[p := set_m_task None (settle r k)]> (w_prom w)
  else
    w_prom w' = <[p := settle r k]> (w_prom w) ∧
    ∃ kt', w_task w' = <[t := kt']> (w_task w) ∧ t_prom kt' = Some p.

Lemma task_done_after w this s rd b cur p t kt k :
  running w this s rd b cur → task_sch_queue s = [] →
  w_task w !! t = Some kt → t_prom kt = Some p → w_prom w !! p = Some k →
  wp (pt_task_done t) (returns (λ _ w', running w' this s rd b cur ∧ w_ctx w' = w_ctx w ∧
    if decide (t_refs kt = 1%Z) then
      w_task w' = delete t (w_task w) ∧ w_prom w' = <[p := set_m_task None k]> (w_prom w)
    else w_prom w' = w_prom w ∧ ∃ kt', w_task w' = <[t := kt']> (w_task w) ∧ t_prom kt' = Some p)) w.
Proof.
  intros Hrun Hsq Ht Hp Hk. unfold pt_task_done, task_release. wp_steps. destruct (decide _) as [Hrf|Hrf].
  - rewrite bool_decide_eq_true_2 by done. unfold delete_rtask. wp_steps. rewrite Hp. wp_steps. rewrite Hp. wp_steps.
    split; [|split; [done|by rewrite delete_insert_eq]].
    eapply running_frame; [exact Hrun|done|apply Hrun|done|apply Hrun| |done|].
    + by intros x; rewrite Hsq, elem_of_nil.
    + simpl. intros c q kq _ _ Hq. destruct (decide (p = q)) as [<-|Hne].
      * rewrite lookup_insert_eq. eexists. split; [done|]. by simplify_eq.
      * rewrite lookup_insert_ne by done. by exists kq.
  - rewrite bool_decide_eq_false_2 by done. wp_steps. split; [|split; [done|split; [done|]]].
    + apply running_set_task; [by apply running_set_task|done].
    + rewrite insert_insert_eq. by eexists.
Qed.

(** It completes the promise, which makes the caller ready. *)
Lemma run_task_wakes_caller w this s b1 c b2 cur p k t kt id r :
  running w this s [] (b1 ++ c :: b2) cur → task_sch_queue s = [] →
  prom_of (w_ctx w) c = Some p → w_prom w !! p = Some k → m_error k = None →
  w_task w !! t = Some kt → t_functor kt = UserFn id → t_prom kt = Some p → t_canceled kt = false →
  pure_fn user id r →
  wp (pt_run_task user void_t this t) (returns (λ _ w', ∃ s',
    running w' this s' [c] (b1 ++ b2) cur ∧
    sleep_pqueue s' ≡ₚ filter (λ x, x ≠ c) (sleep_pqueue s) ∧ same_but_sched s s' ∧
    after_call w w' p t kt k r ∧
    ∀ x, c_canceled <$> w_ctx w' !! x = c_canceled <$> w_ctx w !! x)) w.
Proof.
  intros Hrun Hsch Hp Hk He Ht Hf Hpr Hcan Hu.
  pose proof (ru_inv _ _ _ _ _ _ Hrun) as [Hthr Hrep Hprom Hsole Hsleep].
  destruct (Hprom c ltac:(set_solver)) as (q & kq & Hq & Hkq & Hbt). simplify_eq.
  unfold pt_run_task. rewrite wp_bind, wp_get_thr, Hthr, wp_bind, wp_mod_task, Ht.
  set (kt1 := set_t_active_context _ kt). set (w1 := set_w_task (<[t := kt1]> (w_task w)) w).
  assert (Hrun1 : running w1 this s [] (b1 ++ c :: b2) cur) by by apply running_set_task.
  assert (Hsole1 : sole_waiter (w_ctx w1) s (b1 ++ c :: b2) p c).
  { split; [done|]. intros x Hx Hxp. eapply Hsole; [done| |done|done]. set_solver. }
  assert (Hrt : task_run user void_t t w1 = complete p r w1).
  { rewrite (task_run_settles user void_t w1 t kt1 p id r) by (done || apply lookup_insert_eq). by destruct r. }
  rewrite wp_bind. unfold wp at 1. rewrite Hrt. fold (wp (complete p r)). fold w1.
  eapply wp_mono, (complete_wakes w1 this p r k s []); try done; [|apply Hrun].
  intros [[]|?|?] w2; try done. intros Hw2. assert (Hbt' : m_blocked_thread (settle r k) = m_blocked_thread k) by by destruct r.
  destruct (running_woken w1 w2 this s [] b1 c b2 p k _ cur Hrun1 Hk Hbt' Hw2)
    as (s2 & Hrun2 & Hsl & Hpw & Htw & Hst & _ & _ & Hcn).
  assert (Hsch2 : task_sch_queue s2 = []) by (apply same_but_sched_queues in Hst as (_ & _ & -> & _); done).
  eapply wp_mono, (task_done_after w2 this s2 _ _ _ p t kt1); [|done..| |done|]; rewrite ?Htw, ?Hpw; simpl;
    try apply lookup_insert_eq.
  intros [[]|?|?] w3; try done. intros (Hrun3 & Hc3 & Hafter). exists s2. split_and!; [done..| |by rewrite Hc3].
  unfold after_call. replace (t_refs kt1) with (t_refs kt) in Hafter by done.
  simpl in Hafter. case_decide.
  - by rewrite delete_insert_eq, insert_insert_eq in Hafter.
  - destruct Hafter as (-> & kt' & -> & Hkt'). split; [done|]. exists kt'. by rewrite insert_insert_eq.
Qed.
(** ** The loop that serves the call *)

(** The call once its context is blocked, on a thread that has nothing else to do: the
    context that takes over runs the loop, which switches back. *)
Definition blocked_until (this : nat) (sw : switch) (resume : M (world T) exn T) : M (world T) exn T :=
  pt ← pt_enter this;
  e ← pt_steps user void_t 4 this pt;
  match e with
  | Jump sw' _ => check (bool_decide (sw_next sw' = sw_prev sw));; resume
  | _ => undef Diverges
  end.

Lemma queue_rep_queues (m : task_map) s s' xs :
  same_queues s s' → queue_rep m s xs → queue_rep m s' xs.
Proof. intros (H1 & H2 & H3 & _) [? ? ? ?]. split; by rewrite ?H1, ?H2, ?H3. Qed.

(** The new context takes the call's task. *)
Lemma enter_takes_task w this s b cur t kt :
  running w this s [] b cur → queue_rep (w_task w) s [t] → held s [t] = [t] →
  w_task w !! t = Some kt → (∀ i, t_when kt ≤ now_at i)%Z →
  wp (pt_enter this) (returns (λ pt w', pt = PtWhile (Some t) ∧ ∃ n s',
    w' = queue_upd w this n s None [] [] ∧
    s' = set_task_in_queue None (set_task_pqueue [] (set_task_sch_queue [] s)) ∧
    running w' this s' [] b cur)) w.
Proof.
  intros Hrun Hq Hh Hkt Hdue. unfold pt_enter. rewrite wp_bind.
  eapply wp_mono, (dequeue_only w this s t kt); [|by apply (ti_thr _ _ _ _ _ (ru_inv _ _ _ _ _ _ Hrun))|done..].
  intros [o|?|?] w'; try done. intros (-> & n & ->). rewrite wp_ret. split; [done|].
  eexists n, _. split; [done|]. split; [done|].
  eapply running_frame; [exact Hrun|done|apply lookup_insert_eq|done|apply Hrun| |done|].
  - by intros x ?%elem_of_nil.
  - intros c q k _ _ Hk. by exists k.
Qed.

(** A posted call, of which nothing has run yet *)
Record call_posted w s p t (kt : task) (k : promise T) (id : nat) : Prop := {
  cp_queue : queue_rep (w_task w) s [t];
  cp_held : held s [t] = [t];
  cp_prom : w_prom w !! p = Some k;
  cp_error : m_error k = None;
  cp_value : m_value k = None;
  cp_task : w_task w !! t = Some kt;
  cp_functor : t_functor kt = UserFn id;
  cp_task_prom : t_prom kt = Some p;
  cp_when : t_when kt = time_point_min;
  cp_active : t_canceled kt = false;
}.

(** The caller's context has been switched to, with the call's outcome in its promise. *)
Definition call_served w w' (this cur p t : nat) (kt : task) (k : promise T) (r : exn + T) : Prop :=
  c_canceled <$> w_ctx w' !! cur = Some false ∧ after_call w w' p t kt k r ∧
  ∃ s' r' b', running w' this s' r' b' cur.

Lemma blocked_until_resumes w this s b x y cur p k t kt id (r : exn + T) resume Q :
  running w this s [] (cur :: b) x → th_done s = false → sleep_pqueue s = [] →
  call_posted w s p t kt k id → prom_of (w_ctx w) cur = Some p →
  c_canceled <$> w_ctx w !! cur = Some false → (∀ i, time_point_min ≤ now_at i)%Z → pure_fn user id r →
  (∀ w', call_served w w' this cur p t kt k r → wp resume Q w') →
  wp (blocked_until this (Switch cur y true) resume) Q w.
Proof.
  intros Hrun Hd Hsl [Hq Hh Hk He _ Ht Hf Hpr Hwhen Hcn] Hp Hcan Hclk Hu HQ.
  unfold blocked_until. rewrite wp_bind. eapply wp_mono, (enter_takes_task w this s (cur :: b) x t kt); try done;
    [|by rewrite Hwhen].
  intros [pt|?|?] w1; try done. intros (-> & n & s1 & Hw1 & Hs1 & Hrun1). rewrite wp_bind.
  eapply wp_mono, (loop_runs_and_switches user void_t w1 this s1 (cur :: b) x cur t (λ w2,
    after_call w w2 p t kt k r ∧ c_canceled <$> w_ctx w2 !! cur = Some false)); [|done|by subst s1..|].
  - intros [e|?|?] w3; try done.
    intros (pt & w2 & -> & (Hac & Hcan2) & s3 & b3 & Hrun3 & Hp3 & Ht3 & _ & Hcan3). simpl.
    rewrite wp_bind, wp_check, bool_decide_eq_true_2 by done.
    apply HQ. split; [by rewrite Hcan3|]. split; [|by eauto].
    unfold after_call in *. by rewrite (map_eq (w_prom w3) (w_prom w2) Hp3), Ht3.
  - eapply wp_mono, (run_task_wakes_caller w1 this s1 [] cur b x p k t kt id r); try done; try (by subst).
    intros [[]|?|?] w2; try done.
    intros (s2 & Hrun2 & Hsl2 & (E1 & E2 & E3 & E4)%same_but_sched_queues & Hac & Hcan2).
    split; [subst w1; split; [done|by rewrite Hcan2]|].
    exists s2, b. split; [done|]. subst s1. simpl in *. rewrite Hsl in Hsl2. apply Permutation_nil_r in Hsl2.
    by rewrite E4; split_and!.
Qed.

(** Waiting for a posted call, on a thread that has nothing else to do *)
Lemma wait_for_call w this s b cur p t kt k id (r : exn + T) :
  running w this s [] b cur → th_done s = false → task_sch_queue s = [] → sleep_pqueue s = [] →
  call_posted w s p t kt k id → (∀ x, x ∈ b → prom_of (w_ctx w) x ≠ Some p) →
  c_canceled <$> w_ctx w !! cur = Some false → (∀ i, time_point_min ≤ now_at i)%Z →
  (now_at (w_ticks w) ≤ time_point_max)%Z → pure_fn user id r →
  wp (promise_wait p microseconds_max) (returns (λ wt w2, ∃ sw, wt = Blocked sw ∧ sw_prev sw = cur ∧
    ∀ resume Q,
      (∀ w', call_served w w' this cur p t kt (set_m_blocked_thread (Some this) k) r → wp resume Q w') →
      wp (blocked_until this sw resume) Q w2)) w.
Proof.
  intros Hrun Hd Hsq Hsl [Hq Hh Hk He Hv Ht Hf Hpr Hwhen Hcn] Hnone Hcan Hclk Hnow Hu.
  eapply wp_mono, (promise_wait_alone w this s b cur p k); try done.
  intros [wt|?|?] w2; try done. intros (-> & s2 & Hwt).
  pose proof (λ y, wa_canceled _ _ _ _ _ _ _ _ _ y Hwt) as Hcan2. destruct Hwt as [Hrun2 _ Hpo2 _ Hqs Hd2 Hpr2 Htk2 _ _ _].
  eexists. split; [done|]. split; [done|]. intros resume Q HQ. simpl in *.
  pose proof (ru_alloc _ _ _ _ _ _ Hrun) as Hcur.
  eapply (blocked_until_resumes w2 this s2 b _ _ cur p (set_m_blocked_thread (Some this) k) t kt id r);
    [done|congruence|by destruct Hqs as (_ & _ & _ & ->)| |done|by rewrite Hcan2|done|done|].
  - split; try done; [rewrite Htk2; by eapply queue_rep_queues| |by rewrite Hpr2; apply lookup_insert_eq|by rewrite Htk2].
    unfold held. by destruct Hqs as (_ & -> & -> & _).
  - intros w' (Hcan' & Hac & Hrun'). apply HQ. split; [done|]. split; [|done].
    unfold after_call in *. simpl in *. rewrite Htk2, Hpr2 in Hac. simpl in Hac.
    by rewrite !insert_insert_eq in Hac.
Qed.

(** What [post_rtask] leaves is a posted call. *)
Lemma posted_call w w1 this s s1 p t id z n :
  idle s → posted w w1 this s [] p t (UserFn id) time_point_min z n s1 →
  (∃ kt, call_posted w1 s1 p t kt (set_m_task (Some t) new_promise) id ∧
    w_task w1 = <[t := kt]> (w_task w) ∧ t_refs kt = (1 + Z.of_nat n)%Z) ∧
  w_prom w1 = <[p := set_m_task (Some t) new_promise]> (w_prom w) ∧
  task_sch_queue s1 = [] ∧ sleep_pqueue s1 = [] ∧ th_done s1 = th_done s.
Proof.
  intros (Hi & Hpq & Hsq & Hsl) [_ Hs1 Hpr (kt & Htk & Hf & Htp & _ & Hw & Hc & Hr) Hq _ _ _ _].
  assert (Hsame : task_pqueue s1 = [] ∧ task_sch_queue s1 = [] ∧ sleep_pqueue s1 = [] ∧ th_done s1 = th_done s)
    by (rewrite Hs1; by case_decide).
  destruct Hsame as (G1 & G2 & G3 & G4). split; [|done]. exists kt. split; [|done]. split; try done.
  - unfold held. by rewrite G1, G2.
  - by rewrite Hpr, lookup_insert_eq.
  - by rewrite Htk, lookup_insert_eq.
Qed.

Lemma posted_running w w1 this s s1 b cur p t f tp z n :
  running w this s [] b cur → idle s → posted w w1 this s [] p t f tp z n s1 →
  w_prom w !! p = None →
  running w1 this s1 [] b cur ∧ ∀ x, x ∈ b → prom_of (w_ctx w1) x ≠ Some p.
Proof.
  intros Hrun (Hi & Hpq & Hsq & Hsl) [Ht Hs1 Hpr _ _ Hc Hself _ Hf] Hp. split.
  - assert (Hf1 : same_lists s s1 ∧ task_sch_queue s1 = []) by (rewrite Hs1; case_decide; by split_and!).
    destruct Hf1 as (Hl & Hsq1).
    eapply running_frame; [exact Hrun|done|by rewrite Ht, lookup_insert_eq|done|rewrite Hself; apply Hrun| |lia|].
    + intros x. by rewrite Hsq1, elem_of_nil.
    + intros c q k _ _ Hk. exists k. split; [|done]. rewrite Hpr, lookup_insert_ne; [done|]. congruence.
  - intros x Hx Hxp. destruct (ti_prom _ _ _ _ _ (ru_inv _ _ _ _ _ _ Hrun) x Hx) as (q & kq & Hq & Hkq & _).
    rewrite Hc in Hxp. congruence.
Qed.

(** ** A thread without a context *)

(** The context that waiting makes for it *)
Definition entered w (this : nat) (s : thread_private) : world T :=
  set_w_thr (<[this := set_current (Some (w_fresh w)) s]> (w_thr w))
    (set_w_ctx (<[w_fresh w := new_cmt_context]> (w_ctx w)) (set_w_fresh (S (w_fresh w)) w)).

Lemma promise_wait_enters w this s p k Q :
  w_thr w !! this = Some s → current s = None → w_self w = this →
  w_prom w !! p = Some k → m_error k = None → m_value k = None →
  (now_at (w_ticks w) ≤ time_point_max)%Z →
  wp (promise_wait p microseconds_max) Q (entered w this s) → wp (promise_wait p microseconds_max) Q w.
Proof.
  intros Hs Hc Hself Hk He Hv Hnow. unfold promise_wait, promise_wait_with.
  rewrite !wp_bind, !wp_get_prom. simpl. rewrite Hk, He, Hv. unfold enqueue_thread.
  rewrite !wp_bind, !wp_self, !wp_mod_prom. simpl. rewrite Hk, Hself. unfold promise_base_wait.
  rewrite !wp_bind, !wp_self. simpl. rewrite Hself. unfold wait_us. rewrite bool_decide_eq_true_2 by done.
  unfold wait at 1 2. rewrite !wp_bind, !wp_self. simpl. rewrite !wp_bind, !wp_check. simpl. rewrite Hself, bool_decide_eq_true_2 by done.
  unfold promise_ready. rewrite !wp_bind, !wp_get_prom. simpl. rewrite lookup_insert_eq. simpl. rewrite He, Hv.
  rewrite !wp_ret. simpl. rewrite !wp_bind, !wp_now. simpl. rewrite bool_decide_eq_false_2 by lia.
  unfold ensure_current. rewrite !wp_bind, !wp_get_thr. simpl. rewrite lookup_insert_eq, Hs. simpl. rewrite Hc, wp_ret.
  unfold alloc_ctx, fresh. wp_steps. exact (λ Hw, Hw).
Qed.

Definition no_context (s : thread_private) : Prop :=
  current s = None ∧ ready_head s = None ∧ ready_tail s = None ∧ blocked s = None.

Lemma entered_running w this s :
  w_thr w !! this = Some s → w_self w = this → no_context s →
  task_sch_queue s = [] → sleep_pqueue s = [] → (∀ a, w_fresh w ≤ a → w_ctx w !! a = None) →
  running (entered w this s) this (set_current (Some (w_fresh w)) s) [] [] (w_fresh w).
Proof.
  intros Hs Hself (_ & Hrh & Hrt & Hb) Hsq Hsl Hfr.
  split; simpl; try done; [|by intros ?; simpl; rewrite Hsq, elem_of_nil| |apply not_elem_of_nil..| |].
  - split; simpl; [by rewrite lookup_insert_eq| |by intros ? ?%elem_of_nil|..].
    + split; unfold ready_rep, blocked_rep; simpl; rewrite ?Hsl, ?Hrh, ?Hrt, ?Hb;
        first [by intros ? ?%elem_of_nil|apply is_heap_nil|by apply NoDup_nil|
          split_and!; try done; by intros ? ?%elem_of_nil].
    + rewrite Hsl. by intros ? ? ? ?%elem_of_nil.
    + rewrite Hsl. by intros ? ?%elem_of_nil.
  - rewrite lookup_insert_eq. eauto.
  - rewrite Hsl. apply not_elem_of_nil.
  - intros a Ha. rewrite lookup_insert_ne by lia. apply Hfr. lia.
Qed.

(** [async<T>( f ).wait()], from posting the function to the return of the wait *)
Definition async_and_wait (this : nat) (f : functor) (prio : Z) : M (world T) exn T :=
  p ← async this f prio;
  wt ← promise_wait p microseconds_max;
  match wt with
  | Value v => mret v
  | Blocked sw => blocked_until this sw (promise_wait_resume this (sw_prev sw) p)
  end.

(** The wait returns the call's outcome. *)
Lemma served_wait_returns w w' this cur p t kt k (r : exn + T) :
  call_served w w' this cur p t kt k r → m_error k = None → t_refs kt = 1%Z →
  wp (promise_wait_resume this cur p) (λ o w'', o = match r with inr v => Ret v | inl ex => Exc ex end ∧
    w_task w'' = delete t (w_task w) ∧ delete p (w_prom w'') = delete p (w_prom w)) w'.
Proof.
  intros (Hcan & Hac & s' & r' & b' & Hrun) He Hrf. unfold after_call in Hac. rewrite decide_True in Hac by done.
  destruct Hac as [Ht Hp]. eapply wp_mono, (resume_with_outcome w' this s' r' b' cur p (set_m_task None k) r); try done.
  - intros o w'' (-> & _ & -> & _ & ->). by rewrite Ht, Hp, delete_insert_eq.
  - rewrite Hp, lookup_insert_eq. by destruct r.
Qed.

(** The waiting part of a call, once its task is posted *)
Lemma wait_returns w w1 this s1 b cur p t kt id (r : exn + T) :
  running w1 this s1 [] b cur → th_done s1 = false → task_sch_queue s1 = [] → sleep_pqueue s1 = [] →
  call_posted w1 s1 p t kt (set_m_task (Some t) new_promise) id →
  (∀ x, x ∈ b → prom_of (w_ctx w1) x ≠ Some p) →
  c_canceled <$> w_ctx w1 !! cur = Some false → (∀ i, time_point_min ≤ now_at i)%Z →
  (now_at (w_ticks w1) ≤ time_point_max)%Z → pure_fn user id r → t_refs kt = 1%Z →
  w_task w1 = <[t := kt]> (w_task w) → w_task w !! t = None →
  w_prom w1 = <[p := set_m_task (Some t) new_promise]> (w_prom w) → w_prom w !! p = None →
  wp (wt ← promise_wait p microseconds_max;
      match wt with
      | Value v => mret v
      | Blocked sw => blocked_until this sw (promise_wait_resume this (sw_prev sw) p)
      end) (λ o w', o = (user id w).1 ∧ w_task w' = w_task w ∧ delete p (w_prom w') = w_prom w) w1.
Proof.
  intros Hrun Hd Hsq Hsl Hcp Hnone Hcan Hclk Hnow Hu Hrf Htk Htn Hpr Hpn. rewrite wp_bind.
  eapply wp_mono, (wait_for_call w1 this s1 b cur p t kt _ id r); try done.
  intros [wt|?|?] w2; try done. intros (sw & -> & Hsw & Hgo). rewrite Hsw. apply Hgo. intros w' Hs.
  eapply wp_mono, (served_wait_returns _ _ _ _ _ _ _ _ _ Hs); [|done..].
  intros o w'' (-> & -> & ->). rewrite Hu, Htk, Hpr, !delete_insert_id by done. by destruct r.
Qed.

(** ** Properties *)

(** C27: calling a function with [async] and waiting for its result amounts to calling it:
    on a thread with nothing else to do, the task is posted, the caller suspended, the
    task taken and run by a new context, which switches back, and the wait returns the
    function's value or throws its exception; the task is gone. *)
Theorem async_and_wait_equals_call w this s b cur kc id r prio :
  running w this s [] b cur → idle s → th_done s = false →
  w_ctx w !! cur = Some kc → c_canceled kc = false → in_int64 (w_task_count w + 1) = true →
  (∀ a, w_fresh w ≤ a → w_task w !! a = None) → w_prom w !! w_fresh w = None →
  (∀ i, time_point_min ≤ now_at i)%Z → (now_at (w_ticks w) ≤ time_point_max)%Z →
  pure_fn user id r →
  wp (async_and_wait this (UserFn id) prio) (λ o w', o = (user id w).1 ∧ w_task w' = w_task w ∧
    delete (w_fresh w) (w_prom w') = w_prom w) w.
Proof.
  intros Hrun Hidle Hd Hkc Hcan Hcnt Hfr Hp Hclk Hnow Hu.
  pose proof (ti_thr _ _ _ _ _ (ru_inv _ _ _ _ _ _ Hrun)) as Hthr.
  pose proof (ru_cur _ _ _ _ _ _ Hrun) as Hcur.
  unfold async_and_wait, async, async_at. rewrite !wp_bind.
  eapply wp_mono, (post_rtask_spec w this s [] (UserFn id) time_point_min (at_least this prio) _ 0); try done;
    [|by apply idle_queue_rep|intros w1 Ht Hc; apply (at_least_run w1 this s cur kc); congruence].
  intros [[p t]|?|?] w1; try done. intros ([= -> ->] & s1 & Hpo). simpl in *. rewrite wp_ret.
  destruct (posted_call _ _ _ _ _ _ _ _ _ _ Hidle Hpo) as ((kt & Hcp & Htk & Hrf) & Hpr & Hsq & Hsl & Hd1).
  destruct (posted_running _ _ _ _ _ _ _ _ _ _ _ _ _ Hrun Hidle Hpo Hp) as [Hrun1 Hnone].
  eapply (wait_returns w w1 this s1 b cur); try done; [congruence| | |by apply Hfr; lia].
  - by rewrite (po_ctx _ _ _ _ _ _ _ _ _ _ _ _ Hpo), Hkc; simpl; rewrite Hcan.
  - by rewrite (po_ticks _ _ _ _ _ _ _ _ _ _ _ _ Hpo).
Qed.

(** C28: so it does on a thread that has not entered [exec]: waiting gives the thread a
    context, and another one serves the call. *)
Theorem async_and_wait_before_exec w this s id r prio :
  w_thr w !! this = Some s → w_self w = this → no_context s → idle s → th_done s = false →
  in_int64 (w_task_count w + 1) = true →
  (∀ a, w_fresh w ≤ a → w_task w !! a = None ∧ w_ctx w !! a = None) → w_prom w !! w_fresh w = None →
  (∀ i, time_point_min ≤ now_at i)%Z → (now_at (w_ticks w) ≤ time_point_max)%Z →
  pure_fn user id r →
  wp (async_and_wait this (UserFn id) prio) (λ o w', o = (user id w).1 ∧ w_task w' = w_task w ∧
    delete (w_fresh w) (w_prom w') = w_prom w) w.
Proof.
  intros Hthr Hself (Hc & Hrh & Hrt & Hb) Hidle Hd Hcnt Hfr Hp Hclk Hnow Hu.
  unfold async_and_wait, async, async_at. rewrite !wp_bind.
  eapply wp_mono, (post_rtask_spec w this s [] (UserFn id) time_point_min (at_least this prio) (Z.max 0 prio) 0);
    try done; [|by apply idle_queue_rep|by intros a Ha; apply Hfr|].
  2:{ intros w1 Ht _. apply wp_run. unfold at_least, current_priority.
      rewrite wp_bind, wp_bind, wp_get_thr, Ht, Hthr, Hc. done. }
  intros [[p t]|?|?] w1; try done. intros ([= -> ->] & s1 & Hpo). simpl in *. rewrite wp_ret.
  destruct (posted_call _ _ _ _ _ _ _ _ _ _ Hidle Hpo) as ((kt & Hcp & Htk & Hrf) & Hpr & Hsq & Hsl & Hd1).
  destruct Hpo as [Ht1 Hs1 _ _ _ Hc1 Hself1 Htk1 Hf1]. rewrite Hself, decide_True in Hs1 by done.
  rewrite wp_bind. eapply (promise_wait_enters w1 this s1);
    [by rewrite Ht1, lookup_insert_eq|by subst s1|congruence|apply Hcp|done|done|by rewrite Htk1|].
  rewrite <-wp_bind.
  set (w2 := entered w1 this s1).
  eapply (wait_returns w w2 this (set_current (Some (w_fresh w1)) s1) [] (w_fresh w1)); try done.
  - apply entered_running; try done; [by rewrite Ht1, lookup_insert_eq|congruence|by subst s1|].
    intros a Ha. rewrite Hc1. apply Hfr. lia.
  - simpl. congruence.
  - by destruct Hcp as [[] ? ? ? ? ? ? ? ? ?].
  - by intros ? ?%elem_of_nil.
  - simpl. by rewrite lookup_insert_eq.
  - simpl. by rewrite Htk1.
  - apply Hfr. lia.
Qed.
End calls.
