(* ===== verification/TwoThreads.v ===== *)
(** Two threads at once: one calls a function on the other with [async] and waits for the
    result, the other runs its task loop. Each thread is a sequence of steps between
    program points: an operation of Future.v, RunTask.v or Scheduler.v, or a step of
    [process_tasks] (ProcessTasks.v). The steps of the two interleave in any order; a
    thread asleep in its loop goes on only when a task has been posted to it (that a
    posted task does wake it is shown in PostQueue.v). *)
From S2P Require Import Prelude StdHeap World ReadyList TaskQueue Notify Scheduler Blocking Quit Future RunTask ProcessTasks Delivery LoopRun Calls.

(** Where the context of a thread that runs [process_tasks] is *)
Inductive in_loop :=
  | LoopEnter
  | LoopAt (pt : pt_point)
  | LoopAsleep (until : option Z) (pt : pt_point).

(** Where the calling thread is *)
Inductive caller (T : Type) :=
  | CallPost                                  (* before async *)
  | CallWait (p : nat)                        (* before wait on the future *)
  | CallLoop (c p : nat) (l : in_loop)        (* c waits; another context is in the loop *)
  | CallBack (c p : nat)                      (* c has been switched to, inside its wait *)
  | CallDone (r : exn + T).
Arguments CallPost {T}.
Arguments CallWait {T} p.
Arguments CallLoop {T} c p l.
Arguments CallBack {T} c p.
Arguments CallDone {T} r.

Inductive who := Caller | Callee.

Record config (T : Type) := Config {
  cf_world : world T;
  cf_caller : caller T;
  cf_callee : in_loop;
}.
Arguments Config {T} _ _ _.
Arguments cf_world {T} _.
Arguments cf_caller {T} _.
Arguments cf_callee {T} _.

Section ops.
Context {T : Type} `{!Clock} `{!HeapAlgo nat}.
Abbreviation C := (M (world T) exn).
Variable user : nat → C T.
Variable void_t : T.

(** The loop to its next point, or to the switch that leaves it *)
Definition loop_step (th : nat) (l : in_loop) : C (in_loop + switch) :=
  match l with
  | LoopEnter => pt ← pt_enter th; mret (inl (LoopAt pt))
  | LoopAsleep _ pt => mret (inl (LoopAt pt))
  | LoopAt pt =>
    e ← pt_step user void_t th pt;
    match e with
    | Goto pt' => mret (inl (LoopAt pt'))
    | Sleep until pt' => mret (inl (LoopAsleep until pt'))
    | Jump sw _ => mret (inr sw)
    | Exit => undef Diverges
    end
  end.

(** A statement whose exception is the result *)
Definition outcome_of (m : C T) : C (exn + T) :=
  catch (v ← m; mret (inr v)) (λ e, mret (inl e)).

(** [callee.async<T>( f ).wait()] on thread [this] *)
Definition caller_step (this callee : nat) (f : functor) (prio : Z) (cl : caller T) : C (caller T) :=
  match cl with
  | CallPost => p ← async callee f prio; mret (CallWait p)
  | CallWait p =>
    r ← catch (wt ← promise_wait p microseconds_max; mret (inr wt)) (λ e, mret (inl e));
    match r with
    | inl e => mret (CallDone (inl e))
    | inr (Value v) => mret (CallDone (inr v))
    | inr (Blocked sw) => mret (CallLoop (sw_prev sw) p LoopEnter)
    end
  | CallLoop c p l =>
    r ← loop_step this l;
    match r with
    | inl l' => mret (CallLoop c p l')
    | inr sw => check (bool_decide (sw_next sw = c));; mret (CallBack c p)
    end
  | CallBack c p => r ← outcome_of (promise_wait_resume this c p); mret (CallDone r)
  | CallDone r => mret (CallDone r)
  end.

(** The callee has no context to switch to. *)
Definition callee_step (callee : nat) (l : in_loop) : C in_loop :=
  r ← loop_step callee l;
  match r with inl l' => mret l' | inr _ => undef Diverges end.

(** A thread asleep until it is notified waits for a posted task. *)
Definition loop_enabled (th : nat) (l : in_loop) (w : world T) : bool :=
  match l with
  | LoopAsleep None _ => bool_decide (task_in_queue <$> w_thr w !! th ≠ Some None)
  | _ => true
  end.

Definition enabled (this callee : nat) (i : who) (cf : config T) : bool :=
  match i, cf_caller cf with
  | Caller, CallLoop _ _ l => loop_enabled this l (cf_world cf)
  | Caller, CallDone _ => false
  | Caller, _ => true
  | Callee, _ => loop_enabled callee (cf_callee cf) (cf_world cf)
  end.

(** One step of one of the threads; none if it is not enabled, or fails *)
Definition joint_step (this callee : nat) (f : functor) (prio : Z) (i : who) (cf : config T) : option (config T) :=
  if enabled this callee i cf then
    match i with
    | Caller =>
      match caller_step this callee f prio (cf_caller cf) (set_w_self this (cf_world cf)) with
      | (Ret cl, w) => Some (Config w cl (cf_callee cf))
      | _ => None
      end
    | Callee =>
      match callee_step callee (cf_callee cf) (set_w_self callee (cf_world cf)) with
      | (Ret l, w) => Some (Config w (cf_caller cf) l)
      | _ => None
      end
    end
  else None.

(** The steps of the two threads in the order of a schedule *)
Fixpoint interleave (this callee : nat) (f : functor) (prio : Z) (sched : list who) (cf : config T) : option (config T) :=
  match sched with
  | [] => Some cf
  | i :: sched => cf' ← joint_step this callee f prio i cf; interleave this callee f prio sched cf'
  end.
End ops.

Section loop.
Context {T : Type} `{!Clock} `{HeapSpec nat}.
Implicit Types (w : world T).
Variable user : nat → M (world T) exn T.
Variable void_t : T.

(** The points of the loop at which it holds no task, by the steps left to the wait *)
Inductive idle_at : nat → in_loop → Prop :=
  | idle_asleep : idle_at 0 (LoopAsleep None (PtWhile None))
  | idle_block : idle_at 1 (LoopAt (PtBlock time_point_max))
  | idle_after : idle_at 2 (LoopAt (PtAfter time_point_max))
  | idle_tasks : idle_at 3 (LoopAt (PtTasks None time_point_max))
  | idle_while : idle_at 4 (LoopAt (PtWhile None))
  | idle_enter : idle_at 5 LoopEnter.

(** Thread [th] has nothing to do but the posted task [o]. *)
Record waits w th (s : thread_private) (o : ptr) : Prop := {
  wt_thr : w_thr w !! th = Some s;
  wt_only : only_tasks s;
  wt_pqueue : task_pqueue s = [];
  wt_posted : task_in_queue s = o;
}.

Lemma waits_idle w th s : waits w th s None → idle s.
Proof. intros [_ (_ & ? & ? & _) ? ?]. by split_and!. Qed.

Lemma idle_step w th s k l :
  waits w th s None → idle_at (S k) l →
  ∃ k' l', loop_step user void_t th l w = (Ret (inl l'), w) ∧ idle_at k' l' ∧ k' ≤ k.
Proof.
  intros Hw Hl. pose proof (waits_idle _ _ _ Hw) as Hidle. destruct Hw as [Hs Hot _ _]. inversion Hl; subst.
  - exists 0, (LoopAsleep None (PtWhile None)). split; [|by repeat constructor].
    unfold loop_step. rewrite (bind_run _ _ w w (Ret (Sleep None (PtWhile None)))); [done|].
    cbn [pt_step]. by rewrite (bind_run _ _ _ _ _ (dequeue_nothing w th s Hs Hidle)).
  - eexists 1, _. split; [|by repeat constructor].
    unfold loop_step. by rewrite (bind_run _ _ _ _ _ (step_block user void_t w th s _ Hs Hot eq_refl)).
  - eexists 2, _. split; [done|by repeat constructor].
  - eexists 3, _. split; [|by repeat constructor].
    unfold loop_step. by rewrite (bind_run _ _ _ _ _ (step_check user void_t w th s None Hs Hot)).
  - eexists 4, _. split; [|by repeat constructor].
    unfold loop_step, pt_enter. rewrite (bind_run _ _ w w (Ret (PtWhile None))); [done|].
    by rewrite (bind_run _ _ _ _ _ (dequeue_nothing w th s Hs Hidle)).
Qed.

(** A task posted to an idle thread *)
Definition posted_alone (m : task_map) (t : nat) : Prop := ∃ kt,
  m !! t = Some kt ∧ t_next kt = None ∧ t_when kt = time_point_min.

Lemma dequeue_posted w th s t :
  waits w th s (Some t) → posted_alone (w_task w) t → (∀ i, time_point_min ≤ now_at i)%Z →
  ∃ n, dequeue th w = (Ret (Some t), queue_upd w th n s None [] []).
Proof.
  intros [Hs (_ & Hsq & _) Hpq Hiq] (kt & Hkt & Hn & Hwh) Hclk.
  pose proof (dequeue_only w th s t kt Hs) as Hd. apply wp_returns in Hd as (o & w' & Hd & -> & n & ->); [by eauto|..].
  - split; rewrite ?Hpq, ?Hsq, ?Hiq; [simpl; unfold t_next_of; by rewrite Hkt| |apply is_heap_nil..].
    intros x ->%list_elem_of_singleton. eauto.
  - unfold held. by rewrite Hpq, Hsq.
  - done.
  - intros i. rewrite Hwh. apply Hclk.
Qed.

(** Steps to the wait of a thread that will not wait *)
Definition to_take (k : nat) : nat := match k with 0 => 5 | _ => k end.

Lemma posted_step w th s k l t :
  waits w th s (Some t) → posted_alone (w_task w) t → (∀ i, time_point_min ≤ now_at i)%Z → idle_at k l →
  ∃ l' w', loop_step user void_t th l w = (Ret (inl l'), w') ∧
    ((w' = w ∧ ∃ k', idle_at k' l' ∧ to_take k' < to_take k) ∨
     (l' = LoopAt (PtWhile (Some t)) ∧ ∃ n, w' = queue_upd w th n s None [] [])).
Proof.
  intros Hw Ht Hclk Hl. destruct (dequeue_posted w th s t Hw Ht Hclk) as [n Hd].
  destruct Hw as [Hs Hot _ _]. inversion Hl; subst.
  - eexists _, w. split; [done|]. left. split; [done|]. exists 4. split; [constructor|simpl; lia].
  - eexists _, _. split; [|right; split; [done|by exists n]].
    unfold loop_step. cbn [pt_step]. rewrite (bind_run _ _ _ _ (Ret (Goto (PtWhile (Some t))))
      (bind_run _ _ _ _ _ Hd)). done.
  - eexists _, w. split; [|left; split; [done|]; exists 1; split; [constructor|simpl; lia]].
    unfold loop_step. by rewrite (bind_run _ _ _ _ _ (step_block user void_t w th s _ Hs Hot eq_refl)).
  - eexists _, w. split; [done|]. left. split; [done|]. exists 2. split; [constructor|simpl; lia].
  - eexists _, w. split; [|left; split; [done|]; exists 3; split; [constructor|simpl; lia]].
    unfold loop_step. by rewrite (bind_run _ _ _ _ _ (step_check user void_t w th s None Hs Hot)).
  - eexists _, _. split; [|right; split; [done|by exists n]].
    unfold loop_step, pt_enter. rewrite (bind_run _ _ _ _ (Ret (PtWhile (Some t)))
      (bind_run _ _ _ _ _ Hd)). done.
Qed.

(** The task in hand *)
Lemma taken_step w th s t :
  waits w th s None →
  loop_step user void_t th (LoopAt (PtWhile (Some t))) w = (Ret (inl (LoopAt (PtTasks (Some t) time_point_max))), w).
Proof.
  intros [Hs Hot _ _]. unfold loop_step.
  by rewrite (bind_run _ _ _ _ _ (step_check user void_t w th s (Some t) Hs Hot)).
Qed.

Lemma run_step w w1 th s1 t tt' :
  pt_run_task user void_t th t w = (Ret tt, w1) → w_thr w1 !! th = Some s1 → idle s1 →
  loop_step user void_t th (LoopAt (PtTasks (Some t) tt')) w = (Ret (inl (LoopAt (PtTasks None time_point_max))), w1).
Proof.
  intros Hrun Hs1 Hidle. unfold loop_step. cbn [pt_step].
  rewrite (bind_run _ _ w w1 (Ret (Goto (PtTasks None time_point_max)))); [done|].
  rewrite (bind_run _ _ _ _ _ Hrun).
  rewrite (bind_run _ _ _ _ _ (check_nothing w1 th s1 Hs1 ltac:(apply Hidle) ltac:(apply Hidle))).
  by rewrite (bind_run _ _ _ _ _ (dequeue_nothing w1 th s1 Hs1 Hidle)).
Qed.

(** A context made ready is switched to. *)
Lemma switch_step w th s c b cur :
  running w th s [c] b cur → idle s → th_done s = false →
  wp (loop_step user void_t th (LoopAt (PtAfter time_point_max))) (returns (λ r w',
    r = inr (Switch cur c false) ∧ switched_to w th cur c w')) w.
Proof.
  intros Hrun Hidle Hd. unfold loop_step. rewrite wp_bind.
  eapply wp_mono, (loop_switches user void_t w th s c b cur Hrun Hidle Hd).
  intros [e|?|?] w'; try done. intros (-> & s' & Hsw). split; [done|]. by eapply idle_switched_to.
Qed.
End loop.

(** ** Where the two threads can be *)

Section joint.
Context {T : Type} `{!Clock} `{HeapSpec nat}.
Implicit Types (w : world T).
Variable user : nat → M (world T) exn T.
Variable void_t : T.

(** The threads, the caller's context, the called function and its outcome, and the store
    before the call *)
Variables (this callee cur id : nat) (r : exn + T) (w0 : world T).

(** What the call allocates: its promise and its task *)
Definition call_prom : nat := w_fresh w0.
Definition call_task : nat := S (w_fresh w0).

(** How far the callee is with the task *)
Inductive phase := Posted | Taken | Ran.

Definition callee_in w (ph : phase) (l : in_loop) (n : nat) : Prop := ∃ s,
  match ph with
  | Posted => waits w callee s (Some call_task) ∧ ∃ k, idle_at k l ∧ n = 8 + to_take k
  | Taken => waits w callee s None ∧
      ((l = LoopAt (PtWhile (Some call_task)) ∧ n = 7) ∨
       (∃ tt', l = LoopAt (PtTasks (Some call_task) tt') ∧ n = 6))
  | Ran => waits w callee s None ∧ idle_at n l
  end.

Definition call_promise (waiter : ptr) : promise T :=
  Promise (Some call_task) waiter microseconds_max None None.

Definition prom_in w (ph : phase) (waiter : ptr) : Prop :=
  w_prom w = <[call_prom := match ph with
    | Ran => set_m_task None (settle r (call_promise waiter))
    | _ => call_promise waiter
    end]> (w_prom w0).

Record is_call_task (kt : task) : Prop := {
  ct_functor : t_functor kt = UserFn id;
  ct_prom : t_prom kt = Some call_prom;
  ct_next : t_next kt = None;
  ct_when : t_when kt = time_point_min;
  ct_active : t_canceled kt = false;
  ct_refs : t_refs kt = 1%Z;
}.

Definition tasks_in w (ph : phase) : Prop :=
  match ph with
  | Ran => w_task w = w_task w0
  | _ => ∃ kt, is_call_task kt ∧ w_task w = <[call_task := kt]> (w_task w0)
  end.

(** The task by which the callee tells the caller *)
Definition notified_by w (n : nat) : Prop := ∃ kn,
  w_task w = <[n := kn]> (w_task w0) ∧ w_task w0 !! n = None ∧ t_next kn = None ∧
  t_functor kn = BindNotify this call_prom ∧ t_when kn = time_point_min ∧ t_prom kn = None ∧
  t_canceled kn = false ∧ t_refs kn = 1%Z.

(** The caller's contexts: [ready] in order, [b] blocked, [x] current *)
Definition caller_runs w s (ready b : list nat) (x : nat) : Prop :=
  running (set_w_self this w) this s ready b x ∧ c_canceled <$> w_ctx w !! cur = Some false.

(** ... while [cur] waits for the call *)
Definition caller_blocked w s (b : list nat) (x : nat) : Prop :=
  caller_runs w s [] b x ∧ cur ∈ b ∧ prom_of (w_ctx w) cur = Some call_prom.

(** Where the caller is; the number bounds its steps to the end of the call. *)
Inductive caller_in w : phase → caller T → nat → Prop :=
  | in_wait ph s b :
      caller_runs w s [] b cur → idle s → th_done s = false →
      (∀ x, x ∈ b → prom_of (w_ctx w) x ≠ Some call_prom) →
      prom_in w ph None → tasks_in w ph → caller_in w ph (CallWait call_prom) 20
  | in_blocked ph s b x k l :
      ph ≠ Ran → caller_blocked w s b x → waits w this s None →
      prom_in w ph (Some this) → tasks_in w ph → idle_at k l →
      caller_in w ph (CallLoop cur call_prom l) (13 + k)
  | in_notified s b x k l n :
      caller_blocked w s b x → waits w this s (Some n) →
      prom_in w Ran (Some this) → notified_by w n → idle_at k l →
      caller_in w Ran (CallLoop cur call_prom l) (8 + to_take k)
  | in_taken s b x n :
      caller_blocked w s b x → waits w this s None → prom_in w Ran (Some this) → notified_by w n →
      caller_in w Ran (CallLoop cur call_prom (LoopAt (PtWhile (Some n)))) 7
  | in_running s b x n tt' :
      caller_blocked w s b x → waits w this s None → prom_in w Ran (Some this) → notified_by w n →
      caller_in w Ran (CallLoop cur call_prom (LoopAt (PtTasks (Some n) tt'))) 6
  | in_woken s b x k l :
      caller_runs w s [cur] b x → idle s → th_done s = false →
      prom_in w Ran (Some this) → tasks_in w Ran → idle_at (2 + k) l → k < 2 →
      caller_in w Ran (CallLoop cur call_prom l) (4 + k)
  | in_back s ready b :
      caller_runs w s ready b cur → prom_in w Ran (Some this) → tasks_in w Ran →
      caller_in w Ran (CallBack cur call_prom) 3
  | in_done :
      delete call_prom (w_prom w) = w_prom w0 → tasks_in w Ran → caller_in w Ran (CallDone r) 0.

Record base w (ph : phase) : Prop := {
  ba_count : ph ≠ Ran → in_int64 (w_task_count w + 1) = true;
  ba_fresh : ph ≠ Ran → S call_task ≤ w_fresh w;
}.

Inductive joint_in : config T → nat → Prop :=
  | joint_start i k l : idle_at k l → joint_in (Config (set_w_self i w0) CallPost l) (40 + k)
  | joint_mid w ph cl l n m :
      base w ph → callee_in w ph l m → caller_in w ph cl n → joint_in (Config w cl l) (n + m).

(** Before the call: the caller runs [cur] and has nothing else to do; the callee is in
    its loop, in some context, and has nothing to do. *)
Record can_call (s sc : thread_private) (b : list nat) : Prop := {
  cc_ne : callee ≠ this;
  cc_caller : caller_runs w0 s [] b cur;
  cc_idle : idle s;
  cc_live : th_done s = false;
  cc_callee : waits w0 callee sc None;
  cc_context : ∃ c kc, current sc = Some c ∧ w_ctx w0 !! c = Some kc;
  cc_count : in_int64 (w_task_count w0 + 1) = true ∧ in_int64 (w_task_count w0 + 2) = true;
  cc_fresh a : w_fresh w0 ≤ a → w_task w0 !! a = None;
  cc_prom : w_prom w0 !! w_fresh w0 = None;
  cc_clock i : (time_point_min ≤ now_at i ≤ time_point_max)%Z;
  cc_pure : pure_fn user id r;
}.
End joint.

#[export] Instance phase_eq_dec : EqDecision phase.
Proof. solve_decision. Defined.

Section steps.
Context {T : Type} `{!Clock} `{HeapSpec nat}.
Implicit Types (w : world T).
Variable user : nat → M (world T) exn T.
Variable void_t : T.
Variables (this callee cur id : nat) (r : exn + T) (w0 : world T).

(** ** What the steps of one thread leave of the other *)

Definition same_phase (ph ph' : phase) : Prop := ph = Ran ↔ ph' = Ran.

Record same_for_caller w w' : Prop := {
  sf_ctx : w_ctx w' = w_ctx w;
  sf_prom : w_prom w' = w_prom w;
  sf_task : w_task w' = w_task w;
  sf_thr : w_thr w' !! this = w_thr w !! this;
  sf_fresh : w_fresh w ≤ w_fresh w';
}.

Lemma waits_frame w w' th s o : w_thr w' !! th = w_thr w !! th → waits w th s o → waits w' th s o.
Proof. intros Ht [? ? ? ?]. split; congruence. Qed.

Lemma callee_in_frame w w' ph l n :
  w_thr w' !! callee = w_thr w !! callee → callee_in callee w0 w ph l n → callee_in callee w0 w' ph l n.
Proof.
  intros Ht (s & Hs). exists s. destruct ph; destruct Hs as [Hw ?]; (split; [by eapply waits_frame|done]).
Qed.

Lemma caller_runs_frame w w' s ready b x :
  same_for_caller w w' → caller_runs this cur w s ready b x → caller_runs this cur w' s ready b x.
Proof.
  intros [Hc Hp Ht Hth Hf] [Hrun Hcan]. split; [|by rewrite Hc].
  eapply running_frame; [exact Hrun|done| |done|done| |done|].
  - simpl. rewrite Hth. apply (ti_thr _ _ _ _ _ (ru_inv _ _ _ _ _ _ Hrun)).
  - intros a Ha. simpl. rewrite Ht. by apply (ru_sch _ _ _ _ _ _ Hrun).
  - intros c q k _ _ Hk. exists k. simpl. by rewrite Hp.
Qed.

Lemma tasks_in_frame w w' ph ph' :
  w_task w' = w_task w → same_phase ph ph' → tasks_in id w0 w ph → tasks_in id w0 w' ph'.
Proof. unfold same_phase. intros Ht Hph. destruct ph, ph'; simpl; rewrite Ht; naive_solver. Qed.

Lemma prom_in_frame w w' ph ph' o :
  w_prom w' = w_prom w → same_phase ph ph' → prom_in r w0 w ph o → prom_in r w0 w' ph' o.
Proof. unfold same_phase, prom_in. intros ->. destruct ph, ph'; naive_solver. Qed.

Lemma caller_in_frame w w' ph ph' cl n :
  same_for_caller w w' → same_phase ph ph' →
  caller_in this cur id r w0 w ph cl n → caller_in this cur id r w0 w' ph' cl n.
Proof.
  intros Hsame Hph Hin. pose proof Hsame as [Hc Hp Ht Hth _].
  assert (Hbl : ∀ s b x, caller_blocked this cur w0 w s b x → caller_blocked this cur w0 w' s b x).
  { intros s b x (Hrun & ? & Hpo). split; [by apply (caller_runs_frame w)|]. by rewrite Hc. }
  assert (Hwt : ∀ s o, waits w this s o → waits w' this s o) by (intros s o; by apply waits_frame).
  assert (Hno : ∀ k, notified_by this w0 w k → notified_by this w0 w' k)
    by (intros k; unfold notified_by; by rewrite Ht).
  assert (Hran : ∀ P : Prop, ph = Ran → (ph' = Ran → P) → P) by (intros P; unfold same_phase in Hph; tauto).
  destruct Hin; try (apply (Hran _ eq_refl); intros ->).
  all: try (econstructor; eauto using caller_runs_frame, tasks_in_frame, prom_in_frame; fail).
  - eapply in_wait; eauto using caller_runs_frame, tasks_in_frame, prom_in_frame. by rewrite Hc.
  - eapply in_blocked; eauto using caller_runs_frame, tasks_in_frame, prom_in_frame. unfold same_phase in Hph. tauto.
  - apply in_done; [by rewrite Hp|by eapply tasks_in_frame].
Qed.

Lemma base_frame w w' ph ph' :
  w_task_count w' = w_task_count w → w_fresh w ≤ w_fresh w' → (ph' ≠ Ran → ph ≠ Ran) →
  base w0 w ph → base w0 w' ph'.
Proof. intros Hc Hf Hph [Hcnt Hfr]. split; [rewrite Hc; auto|]. intros Hr. etransitivity; [by apply Hfr, Hph|done]. Qed.

Lemma same_for_caller_self w i : same_for_caller w (set_w_self i w).
Proof. by split. Qed.

(** What the callee's step has to lead to *)
Definition callee_advances w (ph : phase) (cl : caller T) (l : in_loop) (n : nat) : Prop :=
  ∃ l' w' ph' n' m', callee_step user void_t callee l (set_w_self callee w) = (Ret l', w') ∧
    base w0 w' ph' ∧ callee_in callee w0 w' ph' l' m' ∧ caller_in this cur id r w0 w' ph' cl n' ∧
    n' + m' < n.

Lemma callee_step_loop w w' l l' :
  loop_step user void_t callee l w = (Ret (inl l'), w') → callee_step user void_t callee l w = (Ret l', w').
Proof. intros Hl. unfold callee_step. by rewrite (bind_run _ _ _ _ _ Hl). Qed.

(** ** The callee, short of running the task *)

Lemma caller_tasks w ph cl n : caller_in this cur id r w0 w ph cl n → ph ≠ Ran → tasks_in id w0 w ph.
Proof. by destruct 1. Qed.

Lemma call_task_posted w ph : ph ≠ Ran → tasks_in id w0 w ph → posted_alone (w_task w) (call_task w0).
Proof.
  intros Hph Ht. assert (∃ kt, is_call_task id w0 kt ∧ w_task w = <[call_task w0 := kt]> (w_task w0))
    as (kt & Hk & ->) by by destruct ph.
  exists kt. rewrite lookup_insert_eq. split_and!; [done|apply Hk..].
Qed.

(** A step that changes nothing of the store *)
Lemma callee_advances_same w ph cl l l' n m m' :
  callee_step user void_t callee l (set_w_self callee w) = (Ret l', set_w_self callee w) →
  base w0 w ph → callee_in callee w0 w ph l' m' → caller_in this cur id r w0 w ph cl n →
  m' < m → callee_advances w ph cl l (n + m).
Proof.
  intros Hl Hb Hce Hcr Hm. exists l', (set_w_self callee w), ph, n, m'. split_and!; [done| |..|lia].
  - by apply (base_frame w _ ph).
  - by apply (callee_in_frame w).
  - by apply (caller_in_frame w _ ph); [apply same_for_caller_self| |].
Qed.

Lemma callee_before w cl l n m :
  callee ≠ this → (∀ i, time_point_min ≤ now_at i)%Z →
  base w0 w Posted → callee_in callee w0 w Posted l m → caller_in this cur id r w0 w Posted cl n →
  callee_advances w Posted cl l (n + m).
Proof.
  intros Hne Hclk Hb (s & Hw & k & Hl & ->) Hcr.
  pose proof (call_task_posted w Posted ltac:(done) (caller_tasks _ _ _ _ Hcr ltac:(done))) as Hpo.
  destruct (posted_step user void_t (set_w_self callee w) callee s k l (call_task w0)) as (l' & w' & Hstep & Hw'); try done.
  { by apply (waits_frame w). }
  apply callee_step_loop in Hstep. destruct Hw' as [[-> (k' & Hk' & Hlt)]|[-> (i & ->)]].
  - eapply callee_advances_same; [done|done| |done|]; [by exists s; eauto|lia].
  - exists (LoopAt (PtWhile (Some (call_task w0)))), (queue_upd (set_w_self callee w) callee i s None [] []), Taken, n, 7.
    split; [done|]. split; [by apply (base_frame w _ Posted)|]. split; [|split].
    + exists (set_task_in_queue None (set_task_pqueue [] (set_task_sch_queue [] s))). split; [|by left].
      destruct Hw as [_ (Hd & _ & Hsl & Hrh) _ _]. split; [apply lookup_insert_eq|by split_and!|done..].
    + apply (caller_in_frame w _ Posted); [|done..]. split; simpl; try done. by apply lookup_insert_ne.
    + unfold to_take. destruct k; lia.
Qed.

Lemma callee_takes w cl n m :
  base w0 w Taken → callee_in callee w0 w Taken (LoopAt (PtWhile (Some (call_task w0)))) m →
  caller_in this cur id r w0 w Taken cl n →
  callee_advances w Taken cl (LoopAt (PtWhile (Some (call_task w0)))) (n + m).
Proof.
  intros Hb (s & Hw & Hl) Hcr. assert (m = 7) as -> by (by destruct Hl as [[_ ->]|(? & ? & _)]).
  eapply callee_advances_same; [|done| |done|].
  - apply callee_step_loop, (taken_step _ _ _ _ s). by apply (waits_frame w).
  - exists s. split; [done|]. right. eauto.
  - lia.
Qed.

Lemma callee_after w cl l n m :
  base w0 w Ran → callee_in callee w0 w Ran l m → caller_in this cur id r w0 w Ran cl n →
  loop_enabled callee l w = true → callee_advances w Ran cl l (n + m).
Proof.
  intros Hb (s & Hw & Hl) Hcr Hen. destruct m as [|m].
  { exfalso. inversion Hl; subst. simpl in Hen. destruct Hw as [Hs _ _ Hp]. rewrite Hs in Hen. simpl in Hen.
    rewrite Hp in Hen. by rewrite bool_decide_eq_false_2 in Hen by naive_solver. }
  destruct (idle_step user void_t (set_w_self callee w) callee s m l) as (k' & l' & Hstep & Hl' & Hk'); [by apply (waits_frame w)|done|].
  eapply callee_advances_same; [by apply callee_step_loop|done|by exists s|done|lia].
Qed.

(** ** The callee runs the task *)

(** Nobody waits yet. *)
Lemma run_unwaited w s kt :
  w_thr w !! callee = Some s → is_call_task id w0 kt → w_task w !! call_task w0 = Some kt →
  w_prom w !! call_prom w0 = Some (call_promise w0 None) → pure_fn user id r →
  pt_run_task user void_t callee (call_task w0) w =
    (Ret tt, set_w_task (delete (call_task w0) (w_task w)) (with_prom w (call_prom w0)
      (set_m_task None (settle r (call_promise w0 None))))).
Proof.
  intros Hs [] Ht Hp Hu. rewrite (run_pure_task user void_t w callee s _ kt (call_prom w0) (call_promise w0 None) id r) by done.
  by destruct r.
Qed.

(** The caller waits: its promise is completed and a task posted to tell it. *)
Lemma run_waited w s sc kt :
  w_self w ≠ this → w_thr w !! this = Some s → idle s → w_thr w !! callee = Some sc →
  is_call_task id w0 kt → w_task w !! call_task w0 = Some kt → call_task w0 < w_fresh w →
  w_task w !! w_fresh w = None → in_int64 (w_task_count w + 1) = true →
  w_prom w !! call_prom w0 = Some (call_promise w0 (Some this)) → pure_fn user id r →
  wp (pt_run_task user void_t callee (call_task w0)) (returns (λ _ w', w_ctx w' = w_ctx w ∧
    w_fresh w' = S (w_fresh w) ∧ w_thr w' = <[this := posted_to s (w_fresh w)]> (w_thr w) ∧
    w_prom w' = <[call_prom w0 := set_m_task None (settle r (call_promise w0 (Some this)))]> (w_prom w) ∧
    ∃ kn, w_task w' = <[w_fresh w := kn]> (delete (call_task w0) (w_task w)) ∧ t_next kn = None ∧
      t_functor kn = BindNotify this (call_prom w0) ∧ t_when kn = time_point_min ∧ t_prom kn = None ∧
      t_canceled kn = false ∧ t_refs kn = 1%Z)) w.
Proof.
  intros Hself Hs Hidle Hsc [Hf Hpr _ _ Hca Hrf] Ht Hlt Hfr Hcnt Hp Hu.
  unfold pt_run_task, pt_task_done. rewrite wp_bind, wp_get_thr, Hsc, wp_bind, wp_mod_task, Ht.
  set (kt1 := set_t_active_context _ kt). set (w1 := set_w_task (<[call_task w0 := kt1]> (w_task w)) w).
  assert (Hrt : task_run user void_t (call_task w0) w1 = complete (call_prom w0) r w1).
  { rewrite (task_run_settles user void_t w1 _ kt1 (call_prom w0) id r) by (done || apply lookup_insert_eq). by destruct r. }
  rewrite wp_bind. unfold wp at 1. rewrite Hrt. fold (wp (complete (call_prom w0) r)). fold w1.
  eapply wp_mono, (complete_spec w1 (call_prom w0) this (call_promise w0 (Some this)) s [] r); try done;
    [|by apply idle_queue_rep|simpl; rewrite lookup_insert_ne by lia; done].
  intros [[]|?|?] w2; try done. intros (Hp2 & Hc2 & Hf2 & Hth2 & kn & [Hch _ _ _] & Ht2 & Hfn & Hw & Hpn & Hcn & Hrn).
  simpl in *. rewrite wp_bind, wp_mod_task, Ht2, lookup_insert_ne, lookup_insert_eq by lia. unfold task_release.
  rewrite wp_bind, wp_get_task. simpl. rewrite lookup_insert_eq. simpl. rewrite Hrf, Hpr. unfold delete_rtask.
  rewrite bool_decide_eq_true_2 by done. rewrite !wp_bind, wp_get_task. simpl. rewrite lookup_insert_eq. simpl.
  rewrite Hpr, wp_bind, wp_deref, wp_mod_prom. simpl. rewrite Hp2, lookup_insert_eq, wp_modify. simpl.
  split_and!; [done..|by rewrite insert_insert_eq|]. exists kn. split_and!; [|  |done..].
  - rewrite delete_insert_eq, delete_insert_ne, delete_insert_eq by lia. done.
  - destruct Hch as [_ Hn]. unfold t_next_of in Hn. rewrite Ht2, lookup_insert_eq in Hn. by simpl in Hn.
Qed.

(** What the completed promise and a posted task leave of the caller's contexts *)
Lemma caller_runs_settled w w' s s' b x o ph :
  caller_runs this cur w s [] b x → prom_in r w0 w ph o → ph ≠ Ran → prom_in r w0 w' Ran o →
  w_ctx w' = w_ctx w → w_fresh w ≤ w_fresh w' → w_thr w' !! this = Some s' → same_lists s s' →
  task_sch_queue s' = [] → caller_runs this cur w' s' [] b x.
Proof.
  unfold prom_in. intros [Hrun Hcan] Hp Hph Hp' Hc Hf Hth Hl Hsq. split; [|by rewrite Hc].
  eapply running_frame; [exact Hrun|done|done|done|done| |done|].
  - intros a. by rewrite Hsq, elem_of_nil.
  - intros c q k _ _ Hk. simpl in *. rewrite Hp in Hk. rewrite Hp'. destruct (decide (call_prom w0 = q)) as [<-|Hne].
    + rewrite lookup_insert_eq in *. eexists. split; [done|]. destruct ph, r; simplify_eq; done.
    + rewrite lookup_insert_ne in * by done. by exists k.
Qed.

Lemma callee_loop_runs w w1 sc tt' :
  pt_run_task user void_t callee (call_task w0) (set_w_self callee w) = (Ret tt, w1) →
  w_thr w1 !! callee = w_thr w !! callee → waits w callee sc None →
  callee_step user void_t callee (LoopAt (PtTasks (Some (call_task w0)) tt')) (set_w_self callee w) =
    (Ret (LoopAt (PtTasks None time_point_max)), w1) ∧ callee_in callee w0 w1 Ran (LoopAt (PtTasks None time_point_max)) 3.
Proof.
  intros Hrun Hth Hw. split.
  - eapply callee_step_loop, (run_step _ _ _ _ _ sc); [done|rewrite Hth; apply Hw|by eapply waits_idle].
  - exists sc. split; [by apply (waits_frame w)|constructor].
Qed.

Hypothesis Hne : callee ≠ this.
Hypothesis Hfresh : ∀ a, w_fresh w0 ≤ a → w_task w0 !! a = None.
Hypothesis Hpure : pure_fn user id r.

Lemma callee_runs_unwaited w s b sc tt' :
  base w0 w Taken → waits w callee sc None →
  caller_runs this cur w s [] b cur → idle s → th_done s = false →
  (∀ x, x ∈ b → prom_of (w_ctx w) x ≠ Some (call_prom w0)) →
  prom_in r w0 w Taken None → tasks_in id w0 w Taken →
  callee_advances w Taken (CallWait (call_prom w0)) (LoopAt (PtTasks (Some (call_task w0)) tt')) 26.
Proof.
  intros Hb Hwt Hrun Hidle Hd Hno Hp (kt & Hkt & Ht).
  pose proof (run_unwaited (set_w_self callee w) sc kt ltac:(apply Hwt) Hkt) as Hrt. simpl in Hrt.
  unfold prom_in in Hp. rewrite Ht, Hp, !lookup_insert_eq in Hrt. specialize (Hrt eq_refl eq_refl Hpure).
  destruct (callee_loop_runs _ _ sc tt' Hrt eq_refl Hwt) as [Hstep Hce].
  eexists _, _, Ran, 20, 3. split; [exact Hstep|]. split; [|split; [exact Hce|split; [|lia]]].
  - by apply (base_frame w _ Taken).
  - assert (Hp' : prom_in r w0 (set_w_task (delete (call_task w0) (<[call_task w0 := kt]> (w_task w0)))
      (with_prom (set_w_self callee w) (call_prom w0) (set_m_task None (settle r (call_promise w0 None))))) Ran None)
      by (unfold prom_in; simpl; by rewrite Hp, insert_insert_eq).
    eapply (in_wait _ _ _ _ _ _ _ s b); try done.
    + eapply (caller_runs_settled w _ s s _ _ None Taken); try done; [|apply Hidle].
      apply (ti_thr _ _ _ _ _ (ru_inv _ _ _ _ _ _ (proj1 Hrun))).
    + simpl. rewrite delete_insert_id; [done|]. apply Hfresh. unfold call_task. lia.
Qed.

Lemma callee_runs_waited w s b x k l sc tt' :
  base w0 w Taken → waits w callee sc None → caller_blocked this cur w0 w s b x → waits w this s None →
  prom_in r w0 w Taken (Some this) → tasks_in id w0 w Taken → idle_at k l →
  callee_advances w Taken (CallLoop cur (call_prom w0) l) (LoopAt (PtTasks (Some (call_task w0)) tt')) (13 + k + 6).
Proof.
  intros [Hcnt Hfr] Hwt (Hrun & Hcb & Hpo) Hws Hp (kt & Hkt & Ht) Hl.
  pose proof (waits_idle _ _ _ Hws) as Hidle. pose proof Hws as [Hth (Hd & Hsq & Hsl & Hrh) Hpq _].
  specialize (Hfr ltac:(done)). assert (Hout : w_task w0 !! w_fresh w = None) by (apply Hfresh; unfold call_task in Hfr; lia).
  pose proof (run_waited (set_w_self callee w) s sc kt) as Hrt. simpl in Hrt.
  rewrite Ht, lookup_insert_eq in Hrt. unfold prom_in in Hp. rewrite Hp, lookup_insert_eq in Hrt.
  specialize (Hrt Hne Hth Hidle (wt_thr _ _ _ _ Hwt) Hkt eq_refl ltac:(lia)).
  rewrite lookup_insert_ne in Hrt by lia. specialize (Hrt Hout (Hcnt ltac:(done)) eq_refl Hpure).
  apply wp_returns in Hrt as ([] & w1 & Hrt & Hc1 & Hf1 & Hth1 & Hp1 & kn & Ht1 & Hn).
  rewrite insert_insert_eq in Hp1. rewrite delete_insert_id in Ht1 by (apply Hfresh; unfold call_task; lia).
  destruct (callee_loop_runs _ _ sc tt' Hrt ltac:(by rewrite Hth1, lookup_insert_ne by done) Hwt) as [Hstep Hce].
  eexists _, _, Ran, (8 + to_take k), 3. split; [exact Hstep|].
  split; [by split|]. split; [exact Hce|]. split; [|unfold to_take; destruct k; lia].
  assert (Hth1' : w_thr w1 !! this = Some (posted_to s (w_fresh w))) by by rewrite Hth1, lookup_insert_eq.
  apply (in_notified _ _ _ _ _ _ (posted_to s (w_fresh w)) b x k l (w_fresh w)); [|by split|done| |done].
  - split; [|by rewrite Hc1]. eapply (caller_runs_settled w _ s _ _ _ (Some this) Taken); try done. lia.
  - by exists kn.
Qed.

Lemma callee_runs w cl n m tt' :
  base w0 w Taken → callee_in callee w0 w Taken (LoopAt (PtTasks (Some (call_task w0)) tt')) m →
  caller_in this cur id r w0 w Taken cl n →
  callee_advances w Taken cl (LoopAt (PtTasks (Some (call_task w0)) tt')) (n + m).
Proof.
  intros Hb (sc & Hwt & Hl) Hcr. assert (m = 6) as -> by (by destruct Hl as [[? _]|(? & _ & ->)]).
  inversion Hcr; subst.
  - by eapply callee_runs_unwaited.
  - by eapply callee_runs_waited.
Qed.

Lemma callee_moves w ph cl l n m :
  (∀ i, time_point_min ≤ now_at i)%Z → base w0 w ph → callee_in callee w0 w ph l m →
  caller_in this cur id r w0 w ph cl n → loop_enabled callee l w = true →
  callee_advances w ph cl l (n + m).
Proof.
  intros Hclk Hb Hce Hcr Hen. destruct ph.
  - by apply callee_before.
  - pose proof Hce as (s & _ & [[-> _]|(tt' & -> & _)]); [by apply callee_takes|by apply callee_runs].
  - by apply callee_after.
Qed.

(** ** The caller *)

Variable prio : Z.

Definition caller_advances w (ph : phase) (cl : caller T) (l : in_loop) (n m : nat) : Prop :=
  ∃ cl' w' n', caller_step user void_t this callee (UserFn id) prio cl (set_w_self this w) = (Ret cl', w') ∧
    base w0 w' ph ∧ callee_in callee w0 w' ph l m ∧ caller_in this cur id r w0 w' ph cl' n' ∧ n' < n.

Lemma caller_step_loop w w' c p l l' :
  loop_step user void_t this l w = (Ret (inl l'), w') →
  caller_step user void_t this callee (UserFn id) prio (CallLoop c p l) w = (Ret (CallLoop c p l'), w').
Proof. intros Hl. unfold caller_step. by rewrite (bind_run _ _ _ _ _ Hl). Qed.

Lemma set_self_id w : w_self w = this → set_w_self this w = w.
Proof. intros <-. by destruct w. Qed.

Lemma caller_advances_same w ph cl cl' l n n' m :
  caller_step user void_t this callee (UserFn id) prio cl (set_w_self this w) = (Ret cl', set_w_self this w) →
  base w0 w ph → callee_in callee w0 w ph l m → caller_in this cur id r w0 w ph cl' n' → n' < n →
  caller_advances w ph cl l n m.
Proof.
  intros Hs Hb Hce Hcr Hn. exists cl', (set_w_self this w), n'. split_and!; [done|..|done].
  - by apply (base_frame w _ ph).
  - by apply (callee_in_frame w).
  - by apply (caller_in_frame w _ ph); [apply same_for_caller_self| |].
Qed.

Lemma prom_lookup w ph o :
  prom_in r w0 w ph o → w_prom w !! call_prom w0 = Some (match ph with
    | Ran => set_m_task None (settle r (call_promise w0 o))
    | _ => call_promise w0 o
    end).
Proof. unfold prom_in. intros ->. by rewrite lookup_insert_eq. Qed.

(** The wait for a call that has been made already *)
Lemma caller_finds_result w l s b m :
  base w0 w Ran → callee_in callee w0 w Ran l m → caller_runs this cur w s [] b cur →
  prom_in r w0 w Ran None → tasks_in id w0 w Ran → w_prom w0 !! call_prom w0 = None →
  caller_advances w Ran (CallWait (call_prom w0)) l 20 m.
Proof.
  intros Hb Hce Hrun Hp Ht Hn. pose proof (prom_lookup _ _ _ Hp) as Hk.
  eapply (caller_advances_same w Ran _ (CallDone r) _ _ 0); [|done|done| |lia].
  - apply wp_run. unfold caller_step. rewrite wp_bind, wp_catch, wp_bind.
    unfold promise_wait, promise_wait_with. rewrite wp_bind, wp_get_prom. cbn [w_prom set_w_self].
    rewrite Hk. destruct r as [e|v]; simpl; by rewrite ?wp_bind, ?wp_throw, ?wp_ret.
  - apply in_done; [|done]. unfold prom_in in Hp. by rewrite Hp, delete_insert_id.
Qed.

(** The wait suspends the caller's context. *)
Lemma caller_suspends w ph l s b m :
  ph ≠ Ran → base w0 w ph → callee_in callee w0 w ph l m → caller_runs this cur w s [] b cur →
  idle s → th_done s = false → (∀ x, x ∈ b → prom_of (w_ctx w) x ≠ Some (call_prom w0)) →
  prom_in r w0 w ph None → tasks_in id w0 w ph → (∀ i, now_at i ≤ time_point_max)%Z →
  caller_advances w ph (CallWait (call_prom w0)) l 20 m.
Proof.
  intros Hph Hb Hce [Hrun Hcan] Hidle Hd Hno Hp Ht Hclk. pose proof (prom_lookup _ _ _ Hp) as Hk.
  replace (match ph with Ran => _ | _ => _ end) with (call_promise w0 None) in Hk by by destruct ph.
  pose proof (promise_wait_alone (set_w_self this w) this s b cur (call_prom w0) _ Hrun
    ltac:(apply Hidle) ltac:(apply Hidle) Hk eq_refl eq_refl Hno (Hclk _)) as Hw.
  apply wp_returns in Hw as (wt & w' & Hw & -> & s' & [Hrun' Hcb Hpo Hfl' Hqs Hd' Hp' Ht' Hct Hf Hot]).
  exists (CallLoop cur (call_prom w0) LoopEnter), w', 18. split; [|split; [|split; [|split; [|lia]]]].
  - unfold caller_step. rewrite (bind_run _ _ _ w' (Ret (inr (Blocked (Switch cur (w_fresh w) true))))); [done|].
    unfold catch. by rewrite (bind_run _ _ _ _ _ Hw).
  - apply (base_frame w _ ph); [done|simpl in Hf; lia|done|done].
  - apply (callee_in_frame w); [|done]. by apply (others_lookup this (with_waited this (call_prom w0) (call_promise w0 None) (set_w_self this w))).
  - pose proof (ru_self _ _ _ _ _ _ Hrun') as Hself.
    apply (in_blocked _ _ _ _ _ _ ph s' (cur :: b) (w_fresh w) 5).
    + done.
    + split; [|done]. split; [by rewrite set_self_id|].
      rewrite (same_flags_canceled _ _ _ (Hfl' _ (ru_alloc _ _ _ _ _ _ Hrun))). done.
    + destruct (idle_queues _ _ Hqs Hidle) as (? & ? & ? & ?).
      split; [apply (ti_thr _ _ _ _ _ (ru_inv _ _ _ _ _ _ Hrun'))| |done..]. split_and!; [congruence|done..|].
      apply (sr_ready _ _ _ _ (ti_rep _ _ _ _ _ (ru_inv _ _ _ _ _ _ Hrun'))).
    + unfold prom_in in *. rewrite Hp'. simpl. rewrite Hp, insert_insert_eq. by destruct ph.
    + by apply (tasks_in_frame w _ ph).
    + constructor.
Qed.

(** The loop while the call is not done *)
Lemma caller_idles w ph s b x k l lc m :
  ph ≠ Ran → base w0 w ph → callee_in callee w0 w ph lc m → caller_blocked this cur w0 w s b x →
  waits w this s None → prom_in r w0 w ph (Some this) → tasks_in id w0 w ph → idle_at k l →
  loop_enabled this l w = true → caller_advances w ph (CallLoop cur (call_prom w0) l) lc (13 + k) m.
Proof.
  intros Hph Hb Hce Hbl Hw Hp Ht Hl Hen. destruct k as [|k].
  { exfalso. inversion Hl; subst. simpl in Hen. destruct Hw as [Hs _ _ Hq]. rewrite Hs in Hen. simpl in Hen.
    rewrite Hq in Hen. by rewrite bool_decide_eq_false_2 in Hen by naive_solver. }
  destruct (idle_step user void_t (set_w_self this w) this s k l) as (k' & l' & Hstep & Hl' & Hk'); [by apply (waits_frame w)|done|].
  eapply caller_advances_same; [by apply caller_step_loop|done|done|by eapply in_blocked|lia].
Qed.

(** ... once it is done *)
Lemma caller_wakes w s b x k l n lc m :
  (∀ i, time_point_min ≤ now_at i)%Z → base w0 w Ran → callee_in callee w0 w Ran lc m →
  caller_blocked this cur w0 w s b x → waits w this s (Some n) → prom_in r w0 w Ran (Some this) →
  notified_by this w0 w n → idle_at k l →
  caller_advances w Ran (CallLoop cur (call_prom w0) l) lc (8 + to_take k) m.
Proof.
  intros Hclk Hb Hce [[Hrun Hcan] Hbl] Hw Hp Hno Hl. assert (Hpo : posted_alone (w_task w) n).
  { destruct Hno as (kn & -> & _ & Hnx & _ & Hwh & _). exists kn. by rewrite lookup_insert_eq. }
  destruct (posted_step user void_t (set_w_self this w) this s k l n) as (l' & w' & Hstep & Hw'); try done;
    [by apply (waits_frame w)|]. apply (caller_step_loop _ _ cur (call_prom w0)) in Hstep.
  destruct Hw' as [[-> (k' & Hk' & Hlt)]|[-> (i & ->)]].
  - eapply caller_advances_same; [done..|by eapply (in_notified _ _ _ _ _ _ s b x k' l' n)|lia].
  - set (s' := set_task_in_queue None (set_task_pqueue [] (set_task_sch_queue [] s))).
    eexists _, _, 7. split; [exact Hstep|]. split; [by apply (base_frame w _ Ran)|].
    split; [by apply (callee_in_frame w); [simpl; rewrite lookup_insert_ne by done|]|].
    split; [|unfold to_take; destruct k; lia].
    apply (in_taken _ _ _ _ _ _ s' b x n); [|split; [apply lookup_insert_eq| |done..]|done|done].
    + split; [|done]. split; [|done]. eapply running_frame; [exact Hrun|done|apply lookup_insert_eq|done|done| |done|].
      * by intros a ?%elem_of_nil.
      * intros c q kq _ _ Hq. by exists kq.
    + destruct Hw as [_ (? & _ & ? & ?) _ _]. by split_and!.
Qed.

(** It runs the posted task, which makes the waiting context ready. *)
Lemma caller_told w s b x n tt' lc m :
  base w0 w Ran → callee_in callee w0 w Ran lc m → caller_blocked this cur w0 w s b x → waits w this s None →
  prom_in r w0 w Ran (Some this) → notified_by this w0 w n →
  caller_advances w Ran (CallLoop cur (call_prom w0) (LoopAt (PtTasks (Some n) tt'))) lc 6 m.
Proof.
  intros Hb Hce ([Hrun Hcan] & Hcb & Hpo) Hw Hp (kn & Ht & Hn & _ & Hf & _ & Hpr & Hca & Hrf).
  pose proof (waits_idle _ _ _ Hw) as Hidle. pose proof (prom_lookup _ _ _ Hp) as Hk.
  apply list_elem_of_split in Hcb as (b1 & b2 & ->).
  pose proof (run_notify_task user void_t (set_w_self this w) this s b1 cur b2 x (call_prom w0) _ n kn Hrun Hpo Hk) as Hr.
  assert (Hrd : is_ready (set_w_self this w) (call_prom w0)).
  { eexists. split; [exact Hk|]. destruct r; [by left|by right]. }
  specialize (Hr Hrd ltac:(simpl; by rewrite Ht, lookup_insert_eq) Hf Hpr Hca Hrf ltac:(apply Hidle)).
  apply wp_returns in Hr as ([] & w1 & Hr & s1 & Hrun1 & Hsl1 & (Hq1 & Hq2 & Hq3 & Hd1)%same_but_sched_queues & Hp1 & Ht1 & Hot1 & Hcan1).
  assert (Hidle1 : idle s1).
  { destruct Hidle as (? & ? & ? & Hsl). rewrite Hsl in Hsl1. apply Permutation_nil_r in Hsl1. split_and!; congruence. }
  pose proof (ti_thr _ _ _ _ _ (ru_inv _ _ _ _ _ _ Hrun1)) as Hth1.
  eexists _, w1, 5. split; [by eapply caller_step_loop, (run_step _ _ _ _ _ s1)|]. split; [|split; [|split; [|lia]]].
  - by split.
  - apply (callee_in_frame w); [|done]. by apply (others_lookup this (set_w_self this w)).
  - apply (in_woken _ _ _ _ _ _ s1 (b1 ++ b2) x 1).
    + split; [by rewrite set_self_id by apply Hrun1|]. by rewrite Hcan1.
    + done.
    + rewrite Hd1. apply Hw.
    + by apply (prom_in_frame w _ Ran).
    + simpl. rewrite Ht1. simpl. by rewrite Ht, delete_insert_id.
    + constructor.
    + lia.
Qed.

(** The loop switches to it. *)
Lemma caller_switches w s b x k l lc m :
  base w0 w Ran → callee_in callee w0 w Ran lc m → caller_runs this cur w s [cur] b x → idle s →
  th_done s = false → prom_in r w0 w Ran (Some this) → tasks_in id w0 w Ran → idle_at (2 + k) l → k < 2 →
  caller_advances w Ran (CallLoop cur (call_prom w0) l) lc (4 + k) m.
Proof.
  intros Hb Hce [Hrun Hcan] Hidle Hd Hp Ht Hl Hk. destruct k as [|[|k]]; [| |lia]; inversion Hl; subst.
  - pose proof (switch_step user void_t (set_w_self this w) this s cur b x Hrun Hidle Hd) as Hs.
    apply wp_returns in Hs as (? & w1 & Hs & -> & s1 & b1 & Hrun1 & Hp1 & Ht1 & Hot1 & Hcan1).
    exists (CallBack cur (call_prom w0)), w1, 3. split; [|split; [by split|split; [|split; [|lia]]]].
    + unfold caller_step. rewrite (bind_run _ _ _ _ _ Hs). simpl. by rewrite bool_decide_eq_true_2.
    + apply (callee_in_frame w); [|done]. by apply (others_lookup this (set_w_self this w)).
    + apply (in_back _ _ _ _ _ _ s1 [x] b1); [|by apply (prom_in_frame w _ Ran); [apply map_eq|..]|by apply (tasks_in_frame w _ Ran)].
      split; [by rewrite set_self_id by apply Hrun1|by rewrite Hcan1].
  - eapply (caller_advances_same w Ran _ _ _ _ 4); [by apply caller_step_loop|done|done| |lia].
    apply (in_woken _ _ _ _ _ _ s b x 0); (done || lia || constructor).
Qed.

(** Its wait returns. *)
Lemma caller_returns w s ready b lc m :
  base w0 w Ran → callee_in callee w0 w Ran lc m → caller_runs this cur w s ready b cur →
  prom_in r w0 w Ran (Some this) → tasks_in id w0 w Ran → w_prom w0 !! call_prom w0 = None →
  caller_advances w Ran (CallBack cur (call_prom w0)) lc 3 m.
Proof.
  intros Hb Hce [Hrun Hcan] Hp Ht Hn. pose proof (prom_lookup _ _ _ Hp) as Hk.
  replace (set_m_task None (settle r (call_promise w0 (Some this))))
    with (settle r (set_m_task None (call_promise w0 (Some this)))) in Hk by by destruct r.
  pose proof (resume_with_outcome (set_w_self this w) this s ready b cur (call_prom w0) _ r Hrun Hcan Hk eq_refl) as Hw.
  unfold wp in Hw. destruct (promise_wait_resume this cur (call_prom w0) (set_w_self this w)) as [o w1] eqn:Hr.
  simpl in Hw. destruct Hw as (Ho & Hot & Ht1 & _ & Hp1).
  exists (CallDone r), w1, 0. split; [|split; [by split|split; [|split; [|lia]]]].
  - unfold caller_step. rewrite (bind_run _ _ _ w1 (Ret r)); [done|].
    unfold outcome_of, catch. rewrite (bind_run _ _ _ _ _ Hr). by destruct r; subst o.
  - apply (callee_in_frame w); [|done]. by apply (others_lookup this (set_w_self this w)).
  - apply in_done; [|by apply (tasks_in_frame w _ Ran)].
    unfold prom_in in Hp. by rewrite Hp1, Hp, delete_insert_id.
Qed.

Lemma caller_moves w ph cl l n m :
  (∀ i, time_point_min ≤ now_at i ≤ time_point_max)%Z → w_prom w0 !! call_prom w0 = None →
  base w0 w ph → callee_in callee w0 w ph l m → caller_in this cur id r w0 w ph cl n →
  enabled this callee Caller (Config w cl l) = true → caller_advances w ph cl l n m.
Proof.
  intros Hclk Hn Hb Hce Hcr Hen. assert (Hmin : ∀ i, (time_point_min ≤ now_at i)%Z) by apply Hclk.
  assert (Hmax : ∀ i, (now_at i ≤ time_point_max)%Z) by apply Hclk.
  destruct Hcr as [ph s b Hrun|ph s b x k lk|s b x k lk n|s b x n Hbl Hw|s b x n tt'|s b x k lk|s ready b|]; [|..|done].
  - destruct (decide (ph = Ran)) as [->|Hph]; [by eapply caller_finds_result|by eapply caller_suspends].
  - by eapply caller_idles.
  - by eapply caller_wakes.
  - eapply (caller_advances_same w Ran _ _ _ _ 6); [|done|done|by eapply in_running|lia].
    eapply caller_step_loop, (taken_step _ _ _ _ s). by apply (waits_frame w).
  - by eapply caller_told.
  - by eapply caller_switches.
  - by eapply caller_returns.
Qed.
End steps.

(** ** Both together *)

Section calls.
Context {T : Type} `{!Clock} `{HeapSpec nat}.
Implicit Types (w : world T).
Variable user : nat → M (world T) exn T.
Variable void_t : T.
Variables (this callee cur id : nat) (r : exn + T) (w0 : world T) (prio : Z).
Variables (s0 sc : thread_private) (b : list nat).
Hypothesis Hcc : can_call user this callee cur id r w0 s0 sc b.

Abbreviation joint_in' := (joint_in this callee cur id r w0).
Abbreviation enabled' := (enabled this callee).
Abbreviation joint_step' := (joint_step user void_t this callee (UserFn id) prio).

(** The call is posted. *)
Lemma call_starts i k l :
  idle_at k l → ∃ cl' w', caller_step user void_t this callee (UserFn id) prio CallPost
      (set_w_self this (set_w_self i w0)) = (Ret cl', w') ∧
    ∃ n', joint_in' (Config w' cl' l) n' ∧ n' < 40 + k.
Proof.
  intros Hl. destruct Hcc as [Hne [Hrun Hcan] Hidle Hd Hwc (c & kc & Hc & Hkc) [Hcnt1 Hcnt2] Hfr Hp Hclk Hu].
  pose proof (post_rtask_spec (set_w_self this w0) callee sc [] (UserFn id) time_point_min (at_least callee prio)
    (Z.max (c_prio kc) prio) 0) as Hpo. simpl in Hpo.
  specialize (Hpo (wt_thr _ _ _ _ Hwc) (idle_queue_rep _ _ (waits_idle _ _ _ Hwc)) Hcnt1 Hfr).
  apply wp_returns in Hpo as ([p t] & w1 & Hpo & [= -> ->] & s1 & [Hth Hs1 Hpr (kt & Ht & Hf & Htp & _ & Hwh & Hca & Hrf) Hq Hctx Hself _ Hf1 Hct]).
  2:{ intros w1 Ht Hx. apply (at_least_run w1 callee sc c kc); [rewrite Ht; apply Hwc|done|by rewrite Hx]. }
  simpl in *. rewrite decide_False in Hs1 by done. subst s1.
  exists (CallWait (call_prom w0)), w1. split.
  { unfold caller_step, async, async_at. by rewrite (bind_run _ _ _ _ _ (bind_run _ _ _ _ _ Hpo)). }
  exists (20 + (8 + to_take k)). split; [|unfold to_take; destruct k; lia].
  assert (Hout : call_task w0 ≠ call_prom w0) by (unfold call_task, call_prom; lia).
  apply (joint_mid _ _ _ _ _ _ _ Posted).
  - split; intros _; [by rewrite Hct, <-Z.add_assoc|by rewrite Hf1].
  - exists (posted_to sc (call_task w0)). split; [|by exists k].
    destruct Hwc as [_ (? & ? & ? & ?) ? _]. split; [by rewrite Hth, lookup_insert_eq|by split_and!|done..].
  - pose proof (running_frame _ (set_w_self this w1) this s0 s0 [] b cur Hrun Hctx) as Hrun1.
    assert (Hrun1' : caller_runs this cur w1 s0 [] b cur).
    { split; [apply Hrun1|by rewrite Hctx]; simpl; try done.
      - rewrite Hth, lookup_insert_ne by done. apply (ti_thr _ _ _ _ _ (ru_inv _ _ _ _ _ _ Hrun)).
      - intros a. destruct Hidle as (_ & _ & -> & _). by rewrite elem_of_nil.
      - lia.
      - intros x q kq _ _ Hq'. exists kq. split; [|done]. rewrite Hpr, lookup_insert_ne; [done|]. intros <-. congruence. }
    eapply (in_wait _ _ _ _ _ _ _ s0 b); try done.
    + intros x Hx Hxp. destruct (ti_prom _ _ _ _ _ (ru_inv _ _ _ _ _ _ Hrun) x Hx) as (q & kq & Hq' & Hkq & _).
      rewrite Hctx in Hxp. simpl in *. rewrite Hxp in Hq'. injection Hq' as <-. unfold call_prom in Hkq. congruence.
    + exists kt. split; [|done]. destruct Hq as [[_ Hn] _ _ _]. unfold t_next_of in Hn. rewrite Ht, lookup_insert_eq in Hn.
      by split.
Qed.

(** A step of an enabled thread succeeds and gets the call nearer to its end. *)
Lemma joint_moves cf n i :
  joint_in' cf n → enabled' i cf = true → ∃ cf' n', joint_step' i cf = Some cf' ∧ joint_in' cf' n' ∧ n' < n.
Proof.
  intros Hin Hen. pose proof Hcc as [Hne _ _ _ Hwc _ _ Hfr Hp Hclk Hu]. unfold joint_step. rewrite Hen.
  destruct Hin as [j k l Hl|w ph cl l n m Hb Hce Hcr]; destruct i; simpl.
  - destruct (call_starts j k l Hl) as (cl' & w' & Hs & n' & Hin' & Hn'). simpl in Hs. rewrite Hs. eauto.
  - destruct k as [|k].
    { exfalso. inversion Hl; subst. simpl in Hen. rewrite (wt_thr _ _ _ _ Hwc) in Hen. simpl in Hen.
      rewrite (wt_posted _ _ _ _ Hwc) in Hen. by rewrite bool_decide_eq_false_2 in Hen by naive_solver. }
    destruct (idle_step user void_t (set_w_self callee w0) callee sc k l) as (k' & l' & Hs & Hl' & Hk'); [by apply (waits_frame w0)|done|].
    apply callee_step_loop in Hs. simpl in Hs. change (set_w_self callee (set_w_self j w0)) with (set_w_self callee w0).
    rewrite Hs. eexists _, _. split; [done|]. split; [by apply (joint_start _ _ _ _ _ _ callee k')|lia].
  - destruct (caller_moves user void_t this callee cur id r w0 Hne Hu prio w ph cl l n m)
      as (cl' & w' & n' & Hs & Hb' & Hce' & Hcr' & Hn'); try done.
    rewrite Hs. eexists _, _. split; [done|]. split; [by apply (joint_mid _ _ _ _ _ _ w' ph)|lia].
  - destruct (callee_moves user void_t this callee cur id r w0 Hne Hfr Hu w ph cl l n m)
      as (l' & w' & ph' & n' & m' & Hs & Hb' & Hce' & Hcr' & Hn'); try done; [apply Hclk|].
    rewrite Hs. eexists _, _. split; [done|]. split; [by apply (joint_mid _ _ _ _ _ _ w' ph')|lia].
Qed.

(** The call has ended: the caller has its outcome, the callee sleeps, and the call's task
    is gone. *)
Definition call_ended (cf : config T) : Prop :=
  cf_caller cf = CallDone r ∧ (∃ pt, cf_callee cf = LoopAsleep None pt) ∧
  w_task (cf_world cf) = w_task w0 ∧ delete (w_fresh w0) (w_prom (cf_world cf)) = w_prom w0.

Lemma stuck_callee w ph l m :
  callee_in callee w0 w ph l m → loop_enabled callee l w = false → ph = Ran ∧ ∃ pt, l = LoopAsleep None pt.
Proof.
  intros (s & Hs) Hen. destruct ph.
  - destruct Hs as [[Hth _ _ Hq] (k & Hl & _)]. exfalso. destruct Hl; try done. simpl in Hen.
    rewrite Hth in Hen. simpl in Hen. rewrite Hq in Hen. by rewrite bool_decide_eq_true_2 in Hen by done.
  - by destruct Hs as [_ [[-> _]|(? & -> & _)]].
  - destruct Hs as [_ Hl]. split; [done|]. destruct Hl; try done. eauto.
Qed.

Lemma joint_stuck cf n :
  joint_in' cf n → (∀ i, enabled' i cf = false) → call_ended cf.
Proof.
  intros Hin Hst. destruct Hin as [j k l Hl|w ph cl l n m Hb Hce Hcr]; [by specialize (Hst Caller)|].
  assert (Hcl : loop_enabled callee l w = false) by (specialize (Hst Callee); by destruct cl).
  destruct (stuck_callee _ _ _ _ Hce Hcl) as [-> Hal]. specialize (Hst Caller).
  assert (Hnot : ∀ pt, cl = CallLoop cur (call_prom w0) (LoopAt pt) → call_ended (Config w cl l)) by by intros pt ->.
  inversion Hcr; subst; try done; try (by eapply Hnot).
  - exfalso. simpl in Hst. match goal with Hi : idle_at _ _ |- _ => destruct Hi; try done end.
    match goal with Hw : waits _ _ _ (Some _) |- _ => destruct Hw as [Hth _ _ Hq] end.
    simpl in Hst. rewrite Hth in Hst. simpl in Hst. rewrite Hq in Hst. by rewrite bool_decide_eq_true_2 in Hst by done.
  - exfalso. match goal with Hi : idle_at (2 + _) _ |- _ => inversion Hi; subst; done end.
Qed.

Lemma interleave_in sched : ∀ cf cf' n,
  joint_in' cf n → interleave user void_t this callee (UserFn id) prio sched cf = Some cf' →
  ∃ n', joint_in' cf' n' ∧ length sched + n' ≤ n.
Proof.
  induction sched as [|i sched IH]; intros cf cf' n Hin Hs; simpl in Hs; [injection Hs as <-; by exists n|].
  destruct (enabled' i cf) eqn:Hen; [|unfold joint_step in Hs; by rewrite Hen in Hs].
  destruct (joint_moves cf n i Hin Hen) as (cf1 & n1 & Hstep & Hin1 & Hn1). rewrite Hstep in Hs. simpl in Hs.
  destruct (IH cf1 cf' n1 Hin1 Hs) as (n' & Hin' & Hn'). exists n'. split; [done|]. simpl. lia.
Qed.
End calls.

(** ** Properties *)

Section remote.
Context {T : Type} `{!Clock} `{HeapSpec nat}.
Variable user : nat → M (world T) exn T.
Variable void_t : T.

(** C1: a call of a function on another thread and the wait for its result amount to a call
    of the function, however the steps of the two threads interleave: no step fails, there
    are at most 45 of them, and when no thread can go on the caller has the function's
    value or exception, the callee sleeps, and nothing is left of the task. *)
Theorem remote_call_equals_call this callee cur id (r : exn + T) w s sc b prio k l sched cf :
  can_call user this callee cur id r w s sc b → idle_at k l →
  interleave user void_t this callee (UserFn id) prio sched (Config w CallPost l) = Some cf →
  length sched ≤ 45 ∧
  (∀ i, enabled this callee i cf = true →
    is_Some (joint_step user void_t this callee (UserFn id) prio i cf)) ∧
  ((∀ i, enabled this callee i cf = false) → call_ended r w cf).
Proof.
  intros Hcc Hl Hs. assert (Hin : joint_in this callee cur id r w (Config w CallPost l) (40 + k)).
  { replace w with (set_w_self (w_self w) w) at 2 by by destruct w. by apply joint_start. }
  destruct (interleave_in user void_t this callee cur id r w prio s sc b Hcc sched _ _ _ Hin Hs) as (n & Hin' & Hn).
  assert (Hk : k ≤ 5) by (destruct Hl; lia). split; [lia|]. split.
  - intros i Hen. destruct (joint_moves user void_t this callee cur id r w prio s sc b Hcc cf n i Hin' Hen)
      as (cf' & ? & -> & _). eauto.
  - by eapply joint_stuck.
Qed.
End remote.
