(* ===== verification/Fibres.v ===== *)
(** The fibres of a thread that do not run, at the level of queues: those that can go on,
    in order, the fibre that waits for each promise, and the state of each promise. The
    relation [fibres_rep] ties them to the thread's contexts, links and promises; here is
    how each operation of the scheduler changes it. *)
From S2P Require Import Prelude StdHeap World ReadyList TaskQueue Notify Scheduler Blocking Quit Future RunTask ProcessTasks Delivery Calls.

(** A blocked wait that throws takes the error out of the promise. *)
Inductive promise_state (T : Type) :=
  | Pending
  | Settled (r : exn + T)
  | Taken.
Arguments Pending {T}.
Arguments Settled {T} r.
Arguments Taken {T}.

(** Where the stack of a context that does not run stands: inside [yield()], or inside a
    wait for [p]; [q] and [k] are what follows, of any type [Q]. *)
Inductive stack (T Q : Type) :=
  | AtYield (q : Q)
  | AtWait (p : nat) (k : exn + T → Q).
Arguments AtYield {T Q} q.
Arguments AtWait {T Q} p k.

(** The promise state that completing it for a waiter leaves *)
Definition after_wake {T} (r : exn + T) : promise_state T :=
  match r with inl _ => Taken | inr _ => Settled r end.

(** [try { m } catch( e )], with the exception as a result *)
Definition attempt {T A} (m : M (world T) exn A) : M (world T) exn (exn + A) :=
  catch (x ← m; mret (inr x)) (λ e, mret (inl e)).

Section fibres.
Context {T Q : Type} `{!Clock} `{HeapSpec nat}.
Implicit Types (w : world T) (code : gmap nat (stack T Q)) (l : list (nat * Q)).
Implicit Types (wt : gmap nat (nat * (exn + T → Q))) (pr : gmap nat (promise_state T)).

(** The promise holds the result. *)
Definition holds (k : promise T) (r : exn + T) : Prop :=
  match r with
  | inl e => m_error k = Some e
  | inr v => m_error k = None ∧ m_value k = Some v
  end.

(** The promise is in the state [st]; [alone] when nobody waits for it. *)
Definition promise_is (k : promise T) (alone : Prop) (st : promise_state T) : Prop :=
  match st with
  | Pending => m_error k = None ∧ m_value k = None ∧ (alone → m_blocked_thread k = None)
  | Settled r => holds k r
  | Taken => True
  end.

(** [c] goes on with [q] when it is switched to. *)
Definition goes_on pr w code (c : nat) (q : Q) : Prop :=
  code !! c = Some (AtYield q) ∨
  ∃ p k r kp, code !! c = Some (AtWait p k) ∧ q = k r ∧ w_prom w !! p = Some kp ∧ holds kp r ∧
    pr !! p = Some (after_wake r).

(** Not canceled, and of the default priority *)
Definition plain w (xs : list nat) : Prop := ∀ c, c ∈ xs → c_flags <$> w_ctx w !! c = Some (false, 0%Z).

(** The fibres that do not run: those that wait, in the blocked contexts [b], and those
    that can go on, [l]. *)
Record fibres_rep wt pr w code (b : list nat) l : Prop := {
  rp_blocked c : c ∈ b ↔ ∃ p k, wt !! p = Some (c, k);
  rp_wait p c k : wt !! p = Some (c, k) →
    code !! c = Some (AtWait p k) ∧ prom_of (w_ctx w) c = Some p ∧ pr !! p = Some Pending;
  rp_ready c q : (c, q) ∈ l → goes_on pr w code c q;
  rp_code c p k : code !! c = Some (AtWait p k) →
    wt !! p = Some (c, k) ∨ ∃ st, pr !! p = Some st ∧ st ≠ Pending;
  rp_sole c c' p k k' : code !! c = Some (AtWait p k) → code !! c' = Some (AtWait p k') → c = c';
  rp_prom p st : pr !! p = Some st → ∃ kp, w_prom w !! p = Some kp ∧ promise_is kp (wt !! p = None) st;
  rp_old p : is_Some (pr !! p) → p < w_fresh w;
  rp_alloc c : is_Some (code !! c) → is_Some (w_ctx w !! c);
  rp_plain : plain w (l.*1 ++ b);
}.

(** ** The operations *)

Lemma wp_attempt {A} (m : M (world T) exn A) P w :
  wp (attempt m) P w ↔ wp m (λ o w', match o with
    | Ret x => P (Ret (inr x)) w'
    | Exc e => P (Ret (inl e)) w'
    | Undef u => P (Undef u) w'
    end) w.
Proof. unfold wp, attempt, catch, mbind, M_bind. by destruct (m w) as [[x|e|u] w']. Qed.

(** A context that waited goes on with the result in its promise. *)
Lemma resumes_with w this s r b c p kc kp o :
  running w this s r b c → w_ctx w !! c = Some kc → c_canceled kc = false →
  w_prom w !! p = Some kp → holds kp o →
  wp (attempt (promise_wait_resume this c p)) (returns (λ o' w', o' = o ∧ running w' this s r b c ∧
    w_ctx w' = <[c := set_c_prom None kc]> (w_ctx w) ∧ w_fresh w' = w_fresh w ∧
    w_prom w' = <[p := match o with inl _ => set_m_error None kp | inr _ => kp end]> (w_prom w) ∧
    w_task w' = w_task w ∧ w_task_count w' = w_task_count w)) w.
Proof.
  intros Hrun Hkc Hcan Hkp Ho. rewrite wp_attempt. unfold promise_wait_resume. rewrite wp_bind.
  eapply wp_mono, wait_resume_runs; [|done..]. intros [[]|?|?] w1; try done. intros [-> Hrun1].
  unfold promise_result. rewrite wp_bind, wp_get_prom. simpl. rewrite Hkp.
  destruct o as [e|v]; simpl in Ho.
  - rewrite Ho, wp_bind, wp_mod_prom. simpl. rewrite Hkp, wp_throw. split_and!; try done.
    by apply (running_with_prom (set_w_ctx (<[c:=set_c_prom None kc]> (w_ctx w)) w) this s r b c p kp).
  - destruct Ho as [-> ->]. rewrite wp_ret. split_and!; [done|done|done|done| |done|done]. simpl. by rewrite insert_id.
Qed.

(** A wait that does not block *)
Lemma wait_settled w p kp r :
  w_prom w !! p = Some kp → holds kp r →
  attempt (promise_wait p microseconds_max) w = (Ret match r with inl e => inl e | inr v => inr (Value v) end, w).
Proof.
  intros Hkp Hr. apply wp_run. rewrite wp_attempt. unfold promise_wait, promise_wait_with. rewrite wp_bind, wp_get_prom, Hkp.
  destruct r as [e|v]; simpl in Hr; [by rewrite Hr|]. by destruct Hr as [-> ->].
Qed.

(** The promises of the contexts that were not woken *)
Lemma woken_prom_of (m m' : ctx_map) c x : woken m m' c → x ≠ c → prom_of m' x = prom_of m x.
Proof.
  intros Hw Hx. destruct (Hw x) as [He|[-> _]]; [|done]. unfold prom_of.
  destruct (m' !! x) as [k'|], (m !! x) as [k|]; simpl in *; try done.
  apply Some_inj, (f_equal c_prom) in He. done.
Qed.
Lemma woken_flags (m m' : ctx_map) c x : woken m m' c → c_flags <$> m' !! x = c_flags <$> m !! x.
Proof.
  intros Hw. destruct (Hw x) as [He|[-> He]]; [by apply erase_links_flags|].
  destruct (m' !! c) as [k'|], (m !! c) as [k|]; simpl in *; try done.
  apply Some_inj in He. unfold c_flags. f_equal.
  by pose proof (f_equal c_canceled He) as H1'; pose proof (f_equal c_prio He) as H2'; simpl in *; rewrite H1', H2'.
Qed.

(** ** What the steps do to the fibres that do not run *)

Lemma rep_code_alive wt pr w code b l c p k :
  fibres_rep wt pr w code b l → code !! c = Some (AtWait p k) → is_Some (pr !! p).
Proof.
  intros Hrep Hc. destruct (rp_code _ _ _ _ _ _ Hrep c p k Hc) as [Hw|(st & -> & _)]; [|eauto].
  destruct (rp_wait _ _ _ _ _ _ Hrep p c k Hw) as (_ & _ & ->). eauto.
Qed.

Definition same_outcome (k k' : promise T) : Prop :=
  m_error k' = m_error k ∧ m_value k' = m_value k ∧ m_blocked_thread k' = m_blocked_thread k.

Lemma holds_same k k' r : same_outcome k k' → holds k r → holds k' r.
Proof. intros (He & Hv & _). destruct r; simpl; congruence. Qed.

Lemma promise_is_same k k' alone st : same_outcome k k' → promise_is k alone st → promise_is k' alone st.
Proof.
  intros Hs. destruct st as [|r|]; simpl; [|by apply holds_same|done]. destruct Hs as (-> & -> & ->). done.
Qed.

(** Links, tasks and the clock do not matter to them. *)
Lemma rep_frame wt pr w w' code b l :
  fibres_rep wt pr w code b l →
  (∀ y, is_Some (w_ctx w !! y) → erase_links <$> w_ctx w' !! y = erase_links <$> w_ctx w !! y) →
  (∀ p k, w_prom w !! p = Some k → ∃ k', w_prom w' !! p = Some k' ∧ same_outcome k k') →
  w_fresh w ≤ w_fresh w' → fibres_rep wt pr w' code b l.
Proof.
  intros [H1 H2 H3 H4 H5 H6 H7 H8 H9] Hctx Hp Hf. split; try done.
  - intros p c k Hw. destruct (H2 p c k Hw) as (Hc & Hpc & ?). split_and!; [done| |done].
    destruct (H8 c) as [kc Hkc]; [by rewrite Hc|]. unfold prom_of in Hpc. rewrite Hkc in Hpc.
    destruct (erase_links_fields (w_ctx w') c kc) as [-> _]; [|done]. rewrite Hctx, Hkc; [done|eauto].
  - intros c q Hc. destruct (H3 c q Hc) as [?|(p & k & r & kp & ? & ? & Hkp & Ho & ?)]; [by left|right].
    destruct (Hp p kp Hkp) as (kp' & Hkp' & Hs). exists p, k, r, kp'. split_and!; try done. by eapply holds_same.
  - intros p st Hst. destruct (H6 p st Hst) as (kp & Hkp & His). destruct (Hp p kp Hkp) as (kp' & Hkp' & Hs).
    exists kp'. split; [done|]. by eapply promise_is_same.
  - intros p Hpp. specialize (H7 p Hpp). lia.
  - intros c Hc%H8. by rewrite <-(fmap_is_Some erase_links), Hctx, fmap_is_Some.
  - intros c Hc. specialize (H9 c Hc). rewrite <-H9. apply erase_links_flags, Hctx.
    apply (fmap_is_Some c_flags). rewrite H9. eauto.
Qed.

Lemma rep_switched wt pr w w' code b l :
  fibres_rep wt pr w code b l →
  (∀ y, is_Some (w_ctx w !! y) → erase_links <$> w_ctx w' !! y = erase_links <$> w_ctx w !! y) →
  w_prom w' = w_prom w → w_fresh w ≤ w_fresh w' → fibres_rep wt pr w' code b l.
Proof. intros Hrep Hctx Hp Hf. eapply rep_frame; [done..| |done]. intros p k Hk. exists k. by rewrite Hp. Qed.

(** The running fibre yields. *)
Lemma rep_yielded wt pr w code b l x k :
  fibres_rep wt pr w code b l → x ∉ l.*1 → x ∉ b → c_flags <$> w_ctx w !! x = Some (false, 0%Z) →
  fibres_rep wt pr w (<[x := AtYield k]> code) b (l ++ [(x, k)]).
Proof.
  intros [H1 H2 H3 H4 H5 H6 H7 H8 H9] Hl Hb Hx. split; try done.
  - intros p c q Hw. rewrite lookup_insert_ne; [by apply H2|]. intros ->. apply Hb, H1. eauto.
  - intros c q [Hc|[= -> ->]%list_elem_of_singleton]%elem_of_app; [|left; apply lookup_insert_eq].
    assert (c ≠ x) by (intros ->; by apply Hl, (list_elem_of_fmap_2 fst _ (x, q))).
    unfold goes_on. rewrite lookup_insert_ne by done. by apply H3.
  - intros c p q [[_ [=]]|[_ Hc]]%lookup_insert_Some. by apply H4.
  - intros c c' p q q' [[_ [=]]|[_ Hc]]%lookup_insert_Some [[_ [=]]|[_ Hc']]%lookup_insert_Some.
    by eapply H5.
  - intros c Hc. destruct (decide (x = c)) as [<-|Hne]; [apply (fmap_is_Some c_flags); rewrite Hx; eauto|].
    rewrite lookup_insert_ne in Hc by done. by apply H8.
  - intros c. rewrite fmap_app. simpl. intros Hc. destruct (decide (c = x)) as [->|Hne]; [done|].
    apply H9. set_solver.
Qed.

(** The running fibre [x] waits for [p]. *)
Lemma rep_waits wt pr w w' code b l x p k :
  fibres_rep wt pr w code b l → x ∉ l.*1 → x ∉ b → pr !! p = Some Pending → wt !! p = None →
  prom_of (w_ctx w') x = Some p →
  (∀ y, is_Some (w_ctx w !! y) → y ≠ x → prom_of (w_ctx w') y = prom_of (w_ctx w) y) →
  (∀ y, is_Some (w_ctx w !! y) → c_flags <$> w_ctx w' !! y = c_flags <$> w_ctx w !! y) →
  c_flags <$> w_ctx w !! x = Some (false, 0%Z) →
  (∃ kp this, w_prom w !! p = Some kp ∧ w_prom w' = <[p := set_m_blocked_thread (Some this) kp]> (w_prom w)) →
  w_fresh w ≤ w_fresh w' →
  fibres_rep (<[p := (x, k)]> wt) pr w' (<[x := AtWait p k]> code) (x :: b) l.
Proof.
  intros Hrep Hl Hb Hp Hwt Hx Hprom Hcan Hxc (kp & this & Hkp & Hpr) Hf.
  pose proof Hrep as [H1 H2 H3 H4 H5 H6 H7 H8 H9].
  assert (Hno : ∀ c q, code !! c ≠ Some (AtWait p q)).
  { intros c q Hc. destruct (H4 c p q Hc) as [?|(st & ? & ?)]; congruence. }
  assert (Hdead : ∀ c q, code !! c = Some (AtWait p q) → False) by naive_solver.
  split.
  - intros c. rewrite elem_of_cons, H1. split.
    + intros [->|(p' & q & Hc)]; [exists p, k; apply lookup_insert_eq|].
      exists p', q. rewrite lookup_insert_ne; [done|]. by intros <-; rewrite Hwt in Hc.
    + intros (p' & q & [[_ [= <- <-]]|[_ Hc]]%lookup_insert_Some); [by left|right; eauto].
  - intros p' c q [[<- [= <- <-]]|[Hne Hc]]%lookup_insert_Some; [by rewrite lookup_insert_eq|].
    destruct (H2 p' c q Hc) as (Hcc & Hcp & ?).
    assert (c ≠ x) by (intros ->; apply Hb, H1; eauto).
    rewrite lookup_insert_ne, Hprom by (try done; apply H8; rewrite Hcc; eauto). done.
  - intros c q Hc. assert (c ≠ x) by (intros ->; by apply Hl, (list_elem_of_fmap_2 fst _ (x, q))).
    unfold goes_on. rewrite lookup_insert_ne by done.
    destruct (H3 c q Hc) as [?|(p' & k' & r & kq & Hcc & Hq & Hkq & Ho & ?)]; [by left|right].
    exists p', k', r, kq. rewrite Hpr, lookup_insert_ne; [done|]. intros <-. by apply (Hdead c k').
  - intros c p' q [[<- [= <- <-]]|[Hne Hc]]%lookup_insert_Some; [left; apply lookup_insert_eq|].
    rewrite lookup_insert_ne; [by apply H4|]. intros <-. by apply (Hdead c q).
  - intros c c' p' q q' [[<- [= <- <-]]|[Hne Hc]]%lookup_insert_Some [[<- Hc']|[Hne' Hc']]%lookup_insert_Some;
      [done|by destruct (Hdead c' q')|injection Hc' as <- <-; by destruct (Hdead c q)|by eapply H5].
  - intros p' st Hst. rewrite Hpr. destruct (decide (p = p')) as [<-|Hne].
    + rewrite !lookup_insert_eq. eexists. split; [done|].
      destruct (H6 p st Hst) as (kq & Hkq & Hq). simplify_eq. destruct Hq as (? & ? & _). by split_and!.
    + rewrite !lookup_insert_ne by done. by apply H6.
  - intros p' Hp'. specialize (H7 p' Hp'). lia.
  - assert (Hal : ∀ y, is_Some (w_ctx w !! y) → is_Some (w_ctx w' !! y)).
    { intros y Hy. by rewrite <-(fmap_is_Some c_flags), Hcan, fmap_is_Some. }
    intros c Hc. apply Hal. destruct (decide (x = c)) as [<-|Hne].
    + apply (fmap_is_Some c_flags). rewrite Hxc. eauto.
    + rewrite lookup_insert_ne in Hc by done. by apply H8.
  - intros c Hc. assert (Hcc : c_flags <$> w_ctx w !! c = Some (false, 0%Z)).
    { destruct (decide (c = x)) as [->|Hne]; [done|]. apply H9. set_solver. }
    rewrite Hcan; [done|]. apply (fmap_is_Some c_flags). rewrite Hcc. eauto.
Qed.

(** The promise [p] is completed, while nobody waits for it. *)
Lemma rep_settled wt pr w code b l p kp r :
  fibres_rep wt pr w code b l → pr !! p = Some Pending → wt !! p = None → w_prom w !! p = Some kp → m_error kp = None →
  fibres_rep wt (<[p := Settled r]> pr) (with_prom w p (settle r kp)) code b l.
Proof.
  intros [H1 H2 H3 H4 H5 H6 H7 H8 H9] Hp Hwt Hkp He. split; try done.
  - intros p' c k Hc. rewrite lookup_insert_ne; [by apply H2|]. intros <-. by rewrite Hwt in Hc.
  - intros c q Hc. destruct (H3 c q Hc) as [?|(p' & k & r' & kq & ? & ? & ? & ? & Hp')]; [by left|right].
    assert (p ≠ p') by (intros <-; rewrite Hp in Hp'; by destruct r').
    exists p', k, r', kq. simpl. by rewrite !lookup_insert_ne.
  - intros c p' k Hc. destruct (decide (p = p')) as [<-|Hne]; [right; exists (Settled r); by rewrite lookup_insert_eq|].
    rewrite lookup_insert_ne by done. by apply H4.
  - intros p' st [[<- <-]|[Hne Hst]]%lookup_insert_Some; simpl.
    + exists (settle r kp). rewrite lookup_insert_eq. split; [done|]. by destruct r.
    + rewrite lookup_insert_ne by done. by apply H6.
  - intros p' Hp'. simpl. apply H7. destruct (decide (p = p')) as [<-|Hne]; [by rewrite Hp; eauto|].
    by rewrite lookup_insert_ne in Hp'.
Qed.

(** ... and while [c] waits for it: [c] is next. *)
Lemma rep_woken wt pr w w' code b b' l p kp r c q :
  fibres_rep wt pr w code b l → wt !! p = Some (c, q) → w_prom w !! p = Some kp → m_error kp = None →
  (∀ y, y ∈ b' ↔ y ∈ b ∧ y ≠ c) → w_prom w' = <[p := settle r kp]> (w_prom w) →
  (∀ y, y ≠ c → prom_of (w_ctx w') y = prom_of (w_ctx w) y) →
  (∀ y, c_flags <$> w_ctx w' !! y = c_flags <$> w_ctx w !! y) → w_fresh w' = w_fresh w →
  fibres_rep (delete p wt) (<[p := after_wake r]> pr) w' code b' ((c, q r) :: l).
Proof.
  intros Hrep Hwt Hkp He Hb' Hpr Hprom Hcan Hf. pose proof Hrep as [H1 H2 H3 H4 H5 H6 H7 H8 H9].
  destruct (H2 p c q Hwt) as (Hc & _ & Hp).
  assert (Hst : after_wake r ≠ Pending) by by destruct r.
  split.
  - intros y. rewrite Hb', H1. split.
    + intros ((p' & k & Hy) & Hne). exists p', k. rewrite lookup_delete_ne; [done|]. intros <-. simplify_eq.
    + intros (p' & k & [Hne Hy]%lookup_delete_Some). split; [eauto|]. intros ->.
      destruct (H2 p' c k Hy) as (Hc' & _). rewrite Hc in Hc'. by simplify_eq.
  - intros p' y k [Hne Hy]%lookup_delete_Some. destruct (H2 p' y k Hy) as (Hcy & Hpy & ?).
    rewrite lookup_insert_ne, Hprom; [done| |done]. intros ->. rewrite Hc in Hcy. by simplify_eq.
  - intros y q' [[= -> ->]|Hy]%elem_of_cons.
    + right. exists p, q, r, (settle r kp). rewrite Hpr, !lookup_insert_eq. split_and!; try done. by destruct r.
    + destruct (H3 y q' Hy) as [?|(p' & k & r' & kq & ? & ? & ? & ? & Hp')]; [by left|right].
      assert (p ≠ p') by (intros <-; rewrite Hp in Hp'; by destruct r').
      exists p', k, r', kq. rewrite Hpr, !lookup_insert_ne by done. done.
  - intros y p' k Hy. destruct (decide (p = p')) as [<-|Hne].
    + right. exists (after_wake r). by rewrite lookup_insert_eq.
    + rewrite lookup_delete_ne, lookup_insert_ne by done. by apply H4.
  - done.
  - intros p' st [[<- <-]|[Hne Hst']]%lookup_insert_Some; rewrite Hpr.
    + exists (settle r kp). rewrite lookup_insert_eq. split; [done|]. by destruct r.
    + rewrite lookup_insert_ne, lookup_delete_ne by done. by apply H6.
  - intros p' Hp'. rewrite Hf. apply H7. destruct (decide (p = p')) as [<-|Hne]; [by rewrite Hp; eauto|].
    by rewrite lookup_insert_ne in Hp'.
  - intros y Hy%H8. by rewrite <-(fmap_is_Some c_flags), Hcan, fmap_is_Some.
  - intros y Hy. rewrite Hcan. apply H9. rewrite elem_of_app. simpl in Hy.
    rewrite elem_of_cons, elem_of_app, Hb' in Hy.
    destruct Hy as [->|[?|[? _]]]; [right; rewrite H1; eauto|by left|by right].
Qed.

(** A new promise *)
Lemma rep_new wt pr w w' code b l kp :
  fibres_rep wt pr w code b l → w_ctx w' = w_ctx w → w_prom w' = <[w_fresh w := kp]> (w_prom w) →
  same_outcome new_promise kp → w_fresh w < w_fresh w' → fibres_rep wt (<[w_fresh w := Pending]> pr) w' code b l.
Proof.
  intros Hrep Hctx Hpr (He & Hv & Hb) Hf. pose proof Hrep as [H1 H2 H3 H4 H5 H6 H7 H8 H9].
  assert (Hne : ∀ p, is_Some (pr !! p) → w_fresh w ≠ p) by (intros p Hp%H7; lia).
  split; rewrite ?Hctx; try done.
  - intros p c k Hc. destruct (H2 p c k Hc) as (? & ? & Hp). rewrite lookup_insert_ne by (apply Hne; rewrite Hp; eauto). done.
  - intros c q Hc. destruct (H3 c q Hc) as [?|(p & k & r & kq & ? & ? & ? & ? & Hp)]; [by left|right].
    exists p, k, r, kq. rewrite Hpr, !lookup_insert_ne by (apply Hne; rewrite Hp; eauto). done.
  - intros c p k Hc. rewrite lookup_insert_ne by (by eapply Hne, rep_code_alive). by apply H4.
  - intros p st [[<- <-]|[Hn Hst]]%lookup_insert_Some; rewrite Hpr.
    + exists kp. by rewrite lookup_insert_eq.
    + rewrite lookup_insert_ne by done. by apply H6.
  - intros p Hp. destruct (decide (w_fresh w = p)) as [<-|Hn]; [lia|].
    rewrite lookup_insert_ne in Hp by done. specialize (H7 p Hp). lia.
  - intros c Hc. rewrite Hctx. by apply H9.
Qed.

(** The context [c] was switched to and goes on. *)
Lemma rep_resumed wt pr w w' code b l c q :
  fibres_rep wt pr w code b ((c, q) :: l) → c ∉ l.*1 → c ∉ b →
  (∀ y, y ≠ c → w_ctx w' !! y = w_ctx w !! y) → c_flags <$> w_ctx w' !! c = Some (false, 0%Z) → w_fresh w' = w_fresh w →
  (∀ p, (∀ k, code !! c ≠ Some (AtWait p k)) → w_prom w' !! p = w_prom w !! p) →
  (∀ p k st, code !! c = Some (AtWait p k) → pr !! p = Some st →
    ∃ kp, w_prom w' !! p = Some kp ∧ promise_is kp (wt !! p = None) st) →
  fibres_rep wt pr w' (delete c code) b l.
Proof.
  intros Hrep Hl Hb Hctx Hc Hf Hpr Hpc. pose proof Hrep as [H1 H2 H3 H4 H5 H6 H7 H8 H9].
  split; rewrite ?Hf; try done.
  - intros p y k Hy. assert (y ≠ c) by (intros ->; apply Hb, H1; eauto).
    unfold prom_of. rewrite lookup_delete_ne, Hctx by done. by apply H2.
  - intros y q' Hy. assert (y ≠ c) by (intros ->; by apply Hl, (list_elem_of_fmap_2 fst _ (c, q'))).
    unfold goes_on. rewrite lookup_delete_ne by done.
    destruct (H3 y q') as [?|(p & k & r & kq & Hyc & ? & ? & ? & ?)]; [by right|by left|right].
    exists p, k, r, kq. rewrite Hpr; [done|]. intros k' Hck. by destruct (H5 y c p k k').
  - intros y p k [_ Hy]%lookup_delete_Some. by apply H4.
  - intros y y' p k k' [_ Hy]%lookup_delete_Some [_ Hy']%lookup_delete_Some. by eapply H5.
  - intros p st Hst. destruct (code !! c) as [[k|p' k]|] eqn:Hcc; [|destruct (decide (p' = p)) as [->|Hne]|].
    + rewrite Hpr by done. by apply H6.
    + by eapply Hpc.
    + rewrite Hpr; [by apply H6|]. intros k' [= ? _]. done.
    + rewrite Hpr by done. by apply H6.
  - intros y [z [Hne Hy]%lookup_delete_Some]. rewrite Hctx by done. apply H8. rewrite Hy. eauto.
  - intros y Hy. rewrite Hctx; [apply H9; by right|]. intros ->.
    apply elem_of_app in Hy as [?|?]; done.
Qed.
End fibres.
