(* ===== verification/ThreadMachine.v ===== *)
(** What a thread does with the tasks posted to it, as an abstract machine over queues: the
    tasks to run, the contexts that are ready, the context that waits for each promise, and
    the states of the promises; no contexts, links, heaps or task objects. The functions of
    the tasks are programs that may yield, make, complete and wait for promises, and post
    further tasks. A thread that runs them on the library, its loop included, is shown to
    be where the machine is, at every step. *)
From Stdlib Require Import Sorting.Sorted.
From S2P Require Import Prelude StdHeap World ReadyList TaskQueue Notify Scheduler Blocking Quit Future RunTask ProcessTasks Delivery LoopRun Calls Fibres.

(** What a function does next: return or throw, [yield()], make a promise, complete one,
    wait for one and go on with what it got, or post the function [id] to its own thread and
    go on with the promise of its result. *)
Inductive prog (T : Type) :=
  | PReturn (r : exn + T)
  | PYield (k : prog T)
  | PNew (k : nat → prog T)
  | PSet (p : nat) (r : exn + T) (k : prog T)
  | PWait (p : nat) (k : exn + T → prog T)
  | PAsync (id : nat) (prio : Z) (k : nat → prog T).
Arguments PReturn {T} r.
Arguments PYield {T} k.
Arguments PNew {T} k.
Arguments PSet {T} p r k.
Arguments PWait {T} p k.
Arguments PAsync {T} id prio k.

(** What a context is doing: the function of the task [t], whose result goes to [p], what
    follows it in the loop, or the loop itself, from its start or from a point of it. *)
Inductive activity (T : Type) :=
  | InTask (t p : nat) (pg : prog T)
  | Finishing (t : nat)
  | Entering
  | InLoop (pt : pt_point).
Arguments InTask {T} t p pg.
Arguments Finishing {T} t.
Arguments Entering {T}.
Arguments InLoop {T} pt.

(** * The machine *)

(** Nobody runs ([f_run]) when the thread sleeps. [f_task] has the promise and the function
    of every task, [f_tasks] those to run, in order and with their priorities. *)
Record machine (T : Type) := Machine {
  f_run : option (nat * activity T);
  f_ready : list (nat * activity T);
  f_wait : gmap nat (nat * (exn + T → activity T));
  f_prom : gmap nat (promise_state T);
  f_task : gmap nat (nat * nat);
  f_tasks : list (nat * Z);
  f_count : Z;
  f_fresh : nat;
}.
Arguments Machine {T} _ _ _ _ _ _ _ _.
Arguments f_run {T} _.
Arguments f_ready {T} _.
Arguments f_wait {T} _.
Arguments f_prom {T} _.
Arguments f_task {T} _.
Arguments f_tasks {T} _.
Arguments f_count {T} _.
Arguments f_fresh {T} _.

Section machine.
Context {T : Type}.
Variable body : nat → prog T.
Implicit Types (m : machine T).

Definition set_f_run x m := Machine x (f_ready m) (f_wait m) (f_prom m) (f_task m) (f_tasks m) (f_count m) (f_fresh m).
Definition set_f_ready x m := Machine (f_run m) x (f_wait m) (f_prom m) (f_task m) (f_tasks m) (f_count m) (f_fresh m).
Definition set_f_wait x m := Machine (f_run m) (f_ready m) x (f_prom m) (f_task m) (f_tasks m) (f_count m) (f_fresh m).
Definition set_f_prom x m := Machine (f_run m) (f_ready m) (f_wait m) x (f_task m) (f_tasks m) (f_count m) (f_fresh m).
Definition set_f_task x m := Machine (f_run m) (f_ready m) (f_wait m) (f_prom m) x (f_tasks m) (f_count m) (f_fresh m).
Definition set_f_tasks x m := Machine (f_run m) (f_ready m) (f_wait m) (f_prom m) (f_task m) x (f_count m) (f_fresh m).
Definition set_f_count x m := Machine (f_run m) (f_ready m) (f_wait m) (f_prom m) (f_task m) (f_tasks m) x (f_fresh m).
Definition set_f_fresh x m := Machine (f_run m) (f_ready m) (f_wait m) (f_prom m) (f_task m) (f_tasks m) (f_count m) x.

Definition goto (c : nat) (a : activity T) m : machine T := set_f_run (Some (c, a)) m.

(** The running context gives way to the first that is ready, or to a new one, which starts
    the loop; [back] goes to the end of the queue. *)
Definition give_way m (back : list (nat * activity T)) : machine T :=
  match f_ready m with
  | [] => goto (f_fresh m) Entering (set_f_ready back (set_f_fresh (S (f_fresh m)) m))
  | y :: l => set_f_run (Some y) (set_f_ready (l ++ back) m)
  end.

(** The context [c] completes [p] and goes on with [a]; a context that waits for [p] is the
    next to run. *)
Definition complete_to (c : nat) (a : activity T) (p : nat) (r : exn + T) m : option (machine T) :=
  match f_prom m !! p, f_wait m !! p with
  | Some Pending, None => Some (goto c a (set_f_prom (<[p := Settled r]> (f_prom m)) m))
  | Some Pending, Some (c', k) =>
      Some (goto c a (set_f_ready ((c', k r) :: f_ready m)
        (set_f_wait (delete p (f_wait m)) (set_f_prom (<[p := after_wake r]> (f_prom m)) m))))
  | _, _ => None
  end.

(** A task is queued behind those of at least its priority. *)
Fixpoint put_task (x : nat * Z) (l : list (nat * Z)) : list (nat * Z) :=
  match l with
  | [] => [x]
  | y :: l => if decide (y.2 < x.2)%Z then x :: y :: l else y :: put_task x l
  end.

Definition post_task (id : nat) (prio : Z) m : machine T :=
  let p := f_fresh m in
  let t := S p in
  set_f_prom (<[p := Pending]> (f_prom m)) (set_f_fresh (S t) (set_f_task (<[t := (p, id)]> (f_task m))
    (set_f_tasks (put_task (t, Z.max 0 prio) (f_tasks m)) (set_f_count (f_count m + 1)%Z m)))).

Definition next_task m : ptr := head (f_tasks m).*1.
Definition drop_task m : machine T := set_f_tasks (tail (f_tasks m)) m.

Definition prog_step (c t p : nat) (pg : prog T) m : option (machine T) :=
  match pg with
  | PReturn r => complete_to c (Finishing t) p r m
  | PYield k => Some (give_way m [(c, InTask t p k)])
  | PNew k =>
      let q := f_fresh m in
      Some (goto c (InTask t p (k q)) (set_f_prom (<[q := Pending]> (f_prom m)) (set_f_fresh (S q) m)))
  | PSet q r k => complete_to c (InTask t p k) q r m
  | PWait q k =>
      match f_prom m !! q, f_wait m !! q with
      | Some (Settled r), _ => Some (goto c (InTask t p (k r)) m)
      | Some Pending, None => Some (give_way (set_f_wait (<[q := (c, λ r, InTask t p (k r))]> (f_wait m)) m) [])
      | _, _ => None
      end
  | PAsync id prio k =>
      if in_int64 (f_count m + 1) then Some (goto c (InTask t p (k (f_fresh m))) (post_task id prio m)) else None
  end.

(** The loop ([process_tasks]): a task is taken and run, or else another context runs, or
    else the thread sleeps; back from another context it looks for tasks only. *)
Definition loop_step (c : nat) (pt : pt_point) m : option (machine T) :=
  match pt with
  | PtWhile next => Some (goto c (InLoop (PtTasks next time_point_max)) m)
  | PtTasks (Some t) _ =>
      match f_task m !! t with
      | Some (p, id) => Some (goto c (InTask t p (body id)) m)
      | None => None
      end
  | PtTasks None tt' => Some (goto c (InLoop (PtAfter tt')) m)
  | PtAfter tt' =>
      if decide (tt' = time_point_min) then Some (goto c (InLoop (PtWhile None)) m)
      else match f_ready m with
      | [] => Some (goto c (InLoop (PtBlock tt')) m)
      | _ => Some (give_way m [(c, InLoop (PtYielded c tt'))])
      end
  | PtYielded prev tt' =>
      if decide (prev = c) then
        match next_task m with
        | Some t => Some (goto c (InLoop (PtWhile (Some t))) (drop_task m))
        | None => Some (goto c (InLoop (PtBlock tt')) m)
        end
      else None
  | PtBlock tt' =>
      match next_task m with
      | Some t => Some (goto c (InLoop (PtWhile (Some t))) (drop_task m))
      | None => Some (set_f_run None m)
      end
  end.

(** One step; [None] where the machine promises nothing: a promise completed twice, waited
    for by two contexts, or waited for after its error was taken; a task run twice; task
    numbers used up. *)
Definition machine_step m : option (machine T) :=
  match f_run m with
  | None => Some m
  | Some (c, InTask t p pg) => prog_step c t p pg m
  | Some (c, Finishing t) =>
      if decide (is_Some (f_task m !! t) ∧ t ∉ (f_tasks m).*1) then
        Some (goto c (InLoop (PtTasks (next_task m) time_point_max)) (drop_task (set_f_task (delete t (f_task m)) m)))
      else None
  | Some (c, Entering) => Some (goto c (InLoop (PtWhile (next_task m))) (drop_task m))
  | Some (c, InLoop pt) => loop_step c pt m
  end.

Fixpoint machine_steps (n : nat) m : option (machine T) :=
  match n with
  | 0 => Some m
  | S n => m' ← machine_step m; machine_steps n m'
  end.
End machine.

(** * A thread that runs programs *)

Section run.
Context {T : Type} `{!Clock} `{!HeapAlgo nat}.
Abbreviation C := (M (world T) exn).
Variable body : nat → prog T.

(** Other functions than programs do not occur in the tasks below. *)
Variable user : nat → C T.
Variable void_t : T.

(** The context that runs, with what it does, and the stacks of the others. *)
Definition run_state : Type := option (nat * activity T) * gmap nat (stack T (activity T)).

(** The other side of a switch. A loop takes up at its point itself. *)
Definition switch_to (this : nat) (sw : switch) (code : gmap nat (stack T (activity T))) : C run_state :=
  let c := sw_next sw in
  if sw_new sw then mret (Some (c, Entering), code)
  else
    match code !! c with
    | Some (AtYield (InLoop pt)) => mret (Some (c, InLoop pt), delete c code)
    | Some (AtYield a) => start_next_task_resume this c;; mret (Some (c, a), delete c code)
    | Some (AtWait p k) => r ← attempt (promise_wait_resume this c p); mret (Some (c, k r), delete c code)
    | None => undef BadPointer
    end.

(** The run of a task ([pt_run_task], [rtask::run]) up to its function *)
Definition begin_task (this t : nat) : C unit :=
  s ← get_thr this;
  mod_task t (set_t_active_context (current s)).

(** ... and, the function's result in its promise, to the next point of the loop *)
Definition finish_task (this t : nat) : C pt_point :=
  pt_task_done t;;
  timeout_time ← check_for_timeouts this;
  next ← dequeue this;
  mret (PtTasks next timeout_time).

Definition run_prog (this c t p : nat) (pg : prog T) (code : gmap nat (stack T (activity T))) : C run_state :=
  match pg with
  | PReturn r => complete p r;; mret (Some (c, Finishing t), code)
  | PYield k => sw ← yield this; switch_to this sw (<[c := AtYield (InTask t p k)]> code)
  | PNew k => q ← alloc_prom; mret (Some (c, InTask t p (k q)), code)
  | PSet q r k => complete q r;; mret (Some (c, InTask t p k), code)
  | PWait q k =>
      r ← attempt (promise_wait q microseconds_max);
      match r with
      | inl e => mret (Some (c, InTask t p (k (inl e))), code)
      | inr (Value v) => mret (Some (c, InTask t p (k (inr v))), code)
      | inr (Blocked sw) => switch_to this sw (<[c := AtWait q (λ r, InTask t p (k r))]> code)
      end
  | PAsync id prio k => q ← async this (UserFn id) prio; mret (Some (c, InTask t p (k q)), code)
  end.

Definition run_loop (this c : nat) (pt : pt_point) (code : gmap nat (stack T (activity T))) : C run_state :=
  e ← pt_step user void_t this pt;
  match e with
  | Goto pt' => mret (Some (c, InLoop pt'), code)
  | Jump sw pt' => switch_to this sw (<[c := AtYield (InLoop pt')]> code)
  | Sleep _ _ | Exit => mret (None, code)
  end.

Definition run_step (this : nat) (f : run_state) : C run_state :=
  match f.1 with
  | None => mret f
  | Some (c, InTask t p pg) => run_prog this c t p pg f.2
  | Some (c, Finishing t) => pt ← finish_task this t; mret (Some (c, InLoop pt), f.2)
  | Some (c, Entering) => pt ← pt_enter this; mret (Some (c, InLoop pt), f.2)
  | Some (c, InLoop pt) =>
      match pt with
      | PtTasks (Some t) _ =>
          k ← get_task t;
          match t_prom k, t_functor k with
          | Some p, UserFn id =>
              begin_task this t;;
              mret (Some (c, InTask t p (if t_canceled k then PReturn (inl task_canceled) else body id)), f.2)
          | _, _ => run_loop this c pt f.2
          end
      | _ => run_loop this c pt f.2
      end
  end.

Fixpoint run_steps (n this : nat) (f : run_state) : C run_state :=
  match n with
  | 0 => mret f
  | S n => f' ← run_step this f; run_steps n this f'
  end.
End run.

(** * Simulation *)

Section tasks.
Context {T : Type} `{!Clock} `{HeapSpec nat}.
Implicit Types (w : world T) (l : list (nat * Z)) (pr : gmap nat (promise_state T)) (tk : gmap nat (nat * nat)).

(** [a] is run before [b]. *)
Definition hurries (tm : task_map) (a b : nat) : Prop :=
  (prio_of tm b < prio_of tm a)%Z ∨ (prio_of tm a = prio_of tm b ∧ (posted_of tm a < posted_of tm b)%Z).

(** The tasks of a thread in the state [s]: those of [tk], of which the ones in [l] are in its
    queues; [n] have been made so far. *)
Record tasks_rep pr tk l (n : Z) w s : Prop := {
  tk_queue : ∃ xs, queue_rep (w_task w) s xs ∧ held s xs ≡ₚ l.*1;
  tk_sorted : StronglySorted (hurries (w_task w)) l.*1;
  tk_listed t z : (t, z) ∈ l → prio_of (w_task w) t = z ∧ (posted_of (w_task w) t ≤ n)%Z ∧ is_Some (tk !! t);
  tk_task t p id : tk !! t = Some (p, id) → is_Some (pr !! p) ∧ ∃ k, w_task w !! t = Some k ∧
    t_functor k = UserFn id ∧ t_prom k = Some p ∧ t_canceled k = false ∧ t_refs k = 1%Z ∧ t_when k = time_point_min;
  tk_count : w_task_count w = n ∧ (0 ≤ n)%Z;
  tk_unused a : w_fresh w ≤ a → w_task w !! a = None;
}.

Definition same_posted (k k' : task) : Prop :=
  t_next k' = t_next k ∧ t_prio k' = t_prio k ∧ t_posted_num k' = t_posted_num k ∧ t_when k' = t_when k.

Definition agree_on (xs : list nat) (tm tm' : task_map) : Prop :=
  ∀ x, x ∈ xs → ∃ k k', tm !! x = Some k ∧ tm' !! x = Some k' ∧ same_posted k k'.

Lemma agree_fields xs tm tm' x : agree_on xs tm tm' → x ∈ xs →
  t_next_of tm' x = t_next_of tm x ∧ prio_of tm' x = prio_of tm x ∧
  posted_of tm' x = posted_of tm x ∧ when_of tm' x = when_of tm x.
Proof.
  intros Ha Hx. destruct (Ha x Hx) as (k & k' & Hk & Hk' & H1 & H2 & H3 & H4).
  unfold t_next_of, prio_of, posted_of, when_of. rewrite Hk, Hk'. simpl. by split_and!.
Qed.

Lemma queue_rep_agree tm tm' s xs : agree_on (held s xs) tm tm' → queue_rep tm s xs → queue_rep tm' s xs.
Proof.
  unfold held. intros Ha [Hc Hal Hp Hw]. pose proof (λ y Hy, agree_fields _ _ _ y Ha Hy) as Hfl.
  split.
  - eapply lseg_ext; [|exact Hc]. intros y Hy. symmetry. apply Hfl. set_solver.
  - intros y Hy. destruct (Ha y Hy) as (k & k' & _ & Hk' & _). eauto.
  - eapply is_heap_ext; [|exact Hp]. intros y z Hy Hz.
    destruct (Hfl y) as (_ & H1 & H2 & _); [set_solver|]. destruct (Hfl z) as (_ & H3 & H4 & _); [set_solver|].
    unfold task_priority_less. by rewrite H1, H2, H3, H4.
  - eapply is_heap_ext; [|exact Hw]. intros y z Hy Hz.
    destruct (Hfl y) as (_ & _ & _ & H1); [set_solver|]. destruct (Hfl z) as (_ & _ & _ & H2); [set_solver|].
    unfold task_when_less. by rewrite H1, H2.
Qed.

Lemma queue_rep_fields tm s s' xs : task_in_queue s' = task_in_queue s → task_pqueue s' = task_pqueue s →
  task_sch_queue s' = task_sch_queue s → queue_rep tm s xs → queue_rep tm s' xs.
Proof. intros H1 H2 H3 [? ? ? ?]. by split; rewrite ?H1, ?H2, ?H3. Qed.

Lemma hurries_agree xs tm tm' a b : agree_on xs tm tm' → a ∈ xs → b ∈ xs → hurries tm a b → hurries tm' a b.
Proof.
  intros Hag Ha Hb. unfold hurries. destruct (agree_fields _ _ _ a Hag Ha) as (_ & H1 & H2 & _), (agree_fields _ _ _ b Hag Hb) as (_ & H3 & H4 & _).
  by rewrite H1, H2, H3, H4.
Qed.

Lemma sorted_agree xs tm tm' (ts : list nat) :
  agree_on xs tm tm' → (∀ x, x ∈ ts → x ∈ xs) → StronglySorted (hurries tm) ts → StronglySorted (hurries tm') ts.
Proof.
  intros Hag Hsub Hs. induction Hs as [|x ts Hs IH Hall]; [constructor|].
  constructor; [apply IH; intros y Hy; apply Hsub; by right|].
  rewrite Forall_forall in *. intros y Hy. eapply hurries_agree; [done|apply Hsub; by left|apply Hsub; by right|by apply Hall].
Qed.

Definition same_task (k k' : task) : Prop :=
  t_functor k' = t_functor k ∧ t_prom k' = t_prom k ∧ t_canceled k' = t_canceled k ∧
  t_refs k' = t_refs k ∧ t_when k' = t_when k.

(** What does not concern the tasks *)
Lemma tasks_frame pr pr' tk tk' l n w w' s s' :
  tasks_rep pr tk l n w s → agree_on l.*1 (w_task w) (w_task w') →
  (∀ t p id, tk' !! t = Some (p, id) → tk !! t = Some (p, id) ∧
    ∀ k, w_task w !! t = Some k → ∃ k', w_task w' !! t = Some k' ∧ same_task k k') →
  (∀ t, t ∈ l.*1 → tk' !! t = tk !! t) → (∀ p, is_Some (pr !! p) → is_Some (pr' !! p)) →
  task_in_queue s' = task_in_queue s → task_pqueue s' = task_pqueue s → task_sch_queue s' = task_sch_queue s →
  w_task_count w' = w_task_count w → (∀ a, w_fresh w' ≤ a → w_task w' !! a = None) →
  tasks_rep pr' tk' l n w' s'.
Proof.
  intros [(xs & Hq & Hh) Hs Hl Ht [Hn Hn0] Hu] Hag Htk Hll Hpr H1 H2 H3 Hct Hu'. split; [| | | |by rewrite Hct|done].
  - exists xs. unfold held in *. rewrite H2, H3. split; [|done]. apply (queue_rep_fields _ s); [done..|].
    eapply queue_rep_agree; [|done]. intros x Hx. apply Hag. by rewrite <-Hh.
  - by eapply sorted_agree.
  - intros t z Hin. assert (Hin' : t ∈ l.*1) by by apply (list_elem_of_fmap_2 fst _ (t, z)).
    destruct (agree_fields _ _ _ t Hag Hin') as (_ & -> & -> & _). rewrite Hll by done. by apply Hl.
  - intros t p id Htt. destruct (Htk t p id Htt) as [Htt' Hk]. destruct (Ht t p id Htt') as (Hp & k & Hkt & Hr).
    split; [auto|]. destruct (Hk k Hkt) as (k' & Hk' & E1 & E2 & E3 & E4 & E5). exists k'.
    rewrite E1, E2, E3, E4, E5. by split.
Qed.

Lemma agree_refl l w tm pr tk n s : tasks_rep pr tk l n w s → w_task w = tm → agree_on l.*1 tm tm.
Proof.
  intros Hr <- x Hx. apply list_elem_of_fmap in Hx as ([t z] & -> & Hin). simpl.
  destruct (tk_listed _ _ _ _ _ _ Hr t z Hin) as (_ & _ & [[p id] Hp]).
  destruct (tk_task _ _ _ _ _ _ Hr t p id Hp) as (_ & k & Hk & _). by exists k, k.
Qed.

Lemma tasks_same pr pr' tk l n w w' s s' :
  tasks_rep pr tk l n w s → w_task w' = w_task w → (∀ p, is_Some (pr !! p) → is_Some (pr' !! p)) →
  task_in_queue s' = task_in_queue s → task_pqueue s' = task_pqueue s → task_sch_queue s' = task_sch_queue s →
  w_task_count w' = w_task_count w → w_fresh w ≤ w_fresh w' → tasks_rep pr' tk l n w' s'.
Proof.
  intros Hr Ht Hpr H1 H2 H3 Hct Hf. eapply tasks_frame; [exact Hr|rewrite Ht; by eapply agree_refl| |done..|].
  - intros t p id Htt. split; [done|]. rewrite Ht. intros k Hk. by exists k.
  - rewrite Ht. intros a Ha. apply (tk_unused _ _ _ _ _ _ Hr). lia.
Qed.

(** ** Posting a task *)

Lemma put_task_perm x l : put_task x l ≡ₚ x :: l.
Proof. induction l as [|y l IH]; simpl; [done|]. case_decide; [done|]. rewrite IH. apply Permutation_swap. Qed.

Lemma put_task_sorted tm t z l :
  StronglySorted (hurries tm) l.*1 → prio_of tm t = z →
  (∀ t' z', (t', z') ∈ l → prio_of tm t' = z' ∧ (posted_of tm t' < posted_of tm t)%Z) →
  StronglySorted (hurries tm) (put_task (t, z) l).*1.
Proof.
  intros Hs Hz Hl. induction l as [|[y zy] l IH]; simpl in *; [by repeat constructor|].
  inversion Hs as [|? ? Hs' Hall]; subst. destruct (Hl y zy) as [Hy Hpy]; [by left|].
  case_decide as Hlt; simpl in *.
  - constructor; [done|]. constructor; [left; lia|].
    rewrite Forall_forall in *. intros x Hx. left. destruct (Hall x Hx) as [?|[? _]]; lia.
  - constructor; [apply IH; [done|]; intros t' z' Hin; apply Hl; by right|].
    rewrite Forall_forall in *. intros x Hx.
    change (x ∈ fst <$> put_task (t, prio_of tm t) l) in Hx. rewrite put_task_perm in Hx. simpl in Hx.
    apply elem_of_cons in Hx as [->|Hx]; [|by apply Hall].
    destruct (decide (prio_of tm t = prio_of tm y)); [right; lia|left; lia].
Qed.

(** ** Taking a task *)

(** The first task to run is the first of the list. *)
Lemma take_head tm (ts : list nat) o pq :
  StronglySorted (hurries tm) ts → ts ≡ₚ option_list o ++ pq → (o = None → pq = []) →
  (∀ x, o = Some x → ∀ y, y ∈ pq → runs_before tm x y) → o = head ts ∧ pq ≡ₚ tail ts.
Proof.
  intros Hs Hperm Hnone Hfirst. destruct o as [x|]; simpl in Hperm.
  2:{ rewrite (Hnone eq_refl) in *. by apply Permutation_nil_r in Hperm as ->. }
  destruct ts as [|y ts]; [by apply Permutation_nil_cons in Hperm|].
  inversion Hs as [|? ? _ Hall]; subst. rewrite Forall_forall in Hall.
  assert (x = y) as ->; [|simpl; split; [done|by apply Permutation_cons_inv in Hperm]].
  destruct (decide (x = y)) as [|Hne]; [done|exfalso].
  assert (Hy : y ∈ pq) by (assert (y ∈ x :: pq) by (rewrite <-Hperm; by left); set_solver).
  assert (Hx : x ∈ ts) by (assert (x ∈ y :: ts) by (rewrite Hperm; by left); set_solver).
  destruct (Hfirst x eq_refl y Hy) as [?|[? ?]], (Hall x Hx) as [?|[? ?]]; lia.
Qed.
End tasks.

Section simulation.
Context {T : Type} `{!Clock} `{HeapSpec nat}.
Implicit Types (w : world T) (m : machine T) (code : gmap nat (stack T (activity T))).

(** Thread [this] in the state [s], where the context [cur] runs, is where [m] is, but for
    the contexts of [arr], which were switched to and have not gone on yet. *)
Record thread_rep this m w code s b cur (arr : list (nat * activity T)) : Prop := {
  tr_running : running w this s (f_ready m).*1 b cur;
  tr_sch : task_sch_queue s = [];
  tr_sleep : sleep_pqueue s = [];
  tr_done : th_done s = false;
  tr_fresh : f_fresh m = w_fresh w;
  tr_rep : fibres_rep (f_wait m) (f_prom m) w code b (arr ++ f_ready m);
  tr_tasks : tasks_rep (f_prom m) (f_task m) (f_tasks m) (f_count m) w s;
}.

Lemma tr_thr this m w code s b cur arr : thread_rep this m w code s b cur arr → w_thr w !! this = Some s.
Proof. intros Hr. apply (ti_thr _ _ _ _ _ (ru_inv _ _ _ _ _ _ (tr_running _ _ _ _ _ _ _ _ Hr))). Qed.

(** Who runs does not matter to the rest. *)
Lemma thread_rep_run this m w code s b cur arr x :
  thread_rep this m w code s b cur arr → thread_rep this (set_f_run x m) w code s b cur arr.
Proof. by intros []. Qed.

Lemma waiter_promise_old this m w code s b cur arr c p :
  thread_rep this m w code s b cur arr → c ∈ b → prom_of (w_ctx w) c = Some p → p < w_fresh w.
Proof.
  intros Hr Hc Hcp. pose proof (tr_rep _ _ _ _ _ _ _ _ Hr) as Hrep.
  apply (rp_blocked _ _ _ _ _ _ Hrep) in Hc as (p' & k & Hw).
  destruct (rp_wait _ _ _ _ _ _ Hrep p' c k Hw) as (_ & Hcp' & Hp). simplify_eq.
  apply (rp_old _ _ _ _ _ _ Hrep). by rewrite Hp.
Qed.

(** ** Tasks *)

Hypothesis Hclock : ∀ i, (time_point_min ≤ now_at i ≤ time_point_max)%Z.

Lemma step_dequeue this m w code s b cur arr :
  thread_rep this m w code s b cur arr →
  wp (dequeue this) (returns (λ o w', o = next_task m ∧ w_ctx w' = w_ctx w ∧
    ∃ s', thread_rep this (drop_task m) w' code s' b cur arr)) w.
Proof.
  intros Ht. pose proof (tr_thr _ _ _ _ _ _ _ _ Ht) as Hthr. destruct Ht as [Hrun Hsch Hsl Hd Hf Hrep Htk].
  pose proof Htk as [(xs & Hq & Hh) Hs Hl Htt Hn Hu].
  eapply wp_mono, (dequeue_first w this s xs); try done.
  2:{ intros x Hx. assert (Hin : x ∈ (f_tasks m).*1) by (rewrite <-Hh; apply elem_of_app; by left).
      apply list_elem_of_fmap in Hin as ([t z] & -> & Hin). destruct (Hl t z Hin) as (_ & _ & [[p id] Hp]).
      destruct (Htt t p id Hp) as (_ & k & Hk & _ & _ & _ & _ & Hwhen). unfold due, when_of. simpl. rewrite Hk. simpl.
      rewrite Hwhen. apply Hclock. }
  intros [o|?|?] w'; try done. intros (n & pq & -> & Hq' & Hperm & Hnone & Hfirst).
  rewrite Hh in Hperm. destruct (take_head _ _ _ _ Hs Hperm Hnone Hfirst) as [-> Hpq].
  split; [done|]. split; [done|]. exists (with_pqueue pq s). split; try done.
  - eapply running_frame; [exact Hrun|done|apply lookup_insert_eq|done|apply Hrun|by intros ? ?%elem_of_nil|done|].
    intros c p k _ _ Hk. by exists k.
  - by eapply rep_switched.
  - split; simpl; try done.
    + exists []. split; [done|]. unfold held. simpl. rewrite app_nil_r, Hpq. by destruct (f_tasks m).
    + destruct (f_tasks m) as [|y l]; simpl in *; [constructor|]. by inversion Hs.
    + intros t z Hin. apply Hl. destruct (f_tasks m); [done|]. by right.
Qed.

Lemma step_async this m w code s b cur arr id prio :
  thread_rep this m w code s b cur arr → c_flags <$> w_ctx w !! cur = Some (false, 0%Z) →
  in_int64 (f_count m + 1) = true →
  wp (async this (UserFn id) prio) (returns (λ p w', p = f_fresh m ∧ w_ctx w' = w_ctx w ∧
    ∃ s', thread_rep this (post_task id prio m) w' code s' b cur arr)) w.
Proof.
  intros Ht Hfl Hcnt. pose proof (tr_thr _ _ _ _ _ _ _ _ Ht) as Hthr.
  pose proof (λ c p Hc Hp, waiter_promise_old _ _ _ _ _ _ _ _ c p Ht Hc Hp) as Hold.
  destruct Ht as [Hrun Hsch Hsl Hd Hf Hrep Htk]. pose proof Htk as [(xs & Hq & Hh) Hs Hl Htt [Hn Hn0] Hu].
  apply fmap_Some in Hfl as (kc & Hkc & Hfl). injection Hfl as Hcan Hprio.
  unfold async, async_at. rewrite wp_bind.
  eapply wp_mono, (post_rtask_spec w this s xs (UserFn id) time_point_min _ (Z.max 0 prio) 0); try done; [|by rewrite Hn|].
  2:{ intros w1 Ht1 Hx1. rewrite Hprio. apply (at_least_run w1 this s cur); [by rewrite Ht1|apply Hrun|by rewrite Hx1]. }
  intros [pt|?|?] w'; try done. intros (-> & s' & [Hth Hs' Hp (kt & Hk & Hfn & Hkp & Hpr & Hwh & Hcn & Hrf) Hq' Hcx Hsf Htc Hfr Hct Hnum]).
  rewrite wp_ret. cbn [fst snd] in *. rewrite decide_True in Hs' by apply Hrun. split; [by rewrite Hf|]. split; [done|].
  exists s'. set (p := w_fresh w) in *. set (t := S p) in *.
  assert (Hag : agree_on (f_tasks m).*1 (w_task w) (w_task w')).
  { intros x Hx. destruct (agree_refl _ _ _ _ _ _ _ Htk eq_refl x Hx) as (k & k' & Hk1 & Hk2 & Hsp).
    exists k, k'. split; [done|]. split; [|done]. rewrite Hk, lookup_insert_ne; [done|].
    intros <-. rewrite Hu in Hk1 by (unfold t; lia). done. }
  assert (Hnt : t ∉ (f_tasks m).*1).
  { intros Hin. destruct (Hag t Hin) as (k & _ & Hk1 & _). rewrite Hu in Hk1 by (unfold t; lia). done. }
  assert (Hcnt' : to_uint64 (w_task_count w + 1) = (f_count m + 1)%Z).
  { rewrite Hn. unfold to_uint64. apply Z.mod_small.
    apply bool_decide_eq_true in Hcnt. unfold time_point_max in Hcnt. lia. }
  split; rewrite ?Hs'; try done.
  - eapply running_frame; [exact Hrun|done|by rewrite Hth, Hs', lookup_insert_eq|done|by rewrite Hsf; apply Hrun| |rewrite Hfr; lia|].
    + intros x. simpl. rewrite Hsch. by intros ?%elem_of_nil.
    + intros c q k Hc Hcq Hkq. exists k. rewrite Hp, lookup_insert_ne; [done|]. intros <-.
      specialize (Hold c p Hc Hcq). unfold p in Hold. lia.
  - simpl. by rewrite Hf, Hfr.
  - simpl. rewrite Hf. eapply rep_new; [done..|by repeat split|]. rewrite Hfr. lia.
  - rewrite <-Hs'. assert (Hpt : posted_of (w_task w') t = (f_count m + 1)%Z) by by rewrite Hnum.
    assert (Hzt : prio_of (w_task w') t = Z.max 0 prio) by (unfold prio_of; rewrite Hk, lookup_insert_eq; done).
    split; simpl; rewrite ?Hf; fold p t.
    + exists (t :: xs). split; [done|]. rewrite put_task_perm. simpl. rewrite <-Hh, Hs'. done.
    + apply put_task_sorted; [by eapply sorted_agree|done|]. intros t' z' Hin.
      assert (Hin' : t' ∈ (f_tasks m).*1) by by apply (list_elem_of_fmap_2 fst _ (t', z')).
      destruct (agree_fields _ _ _ t' Hag Hin') as (_ & -> & -> & _). destruct (Hl t' z' Hin) as (-> & ? & _). split; [done|lia].
    + intros t' z'. rewrite put_task_perm. intros [[= -> ->]|Hin]%elem_of_cons.
      * rewrite lookup_insert_eq. split_and!; [done|lia|eauto].
      * assert (Hin' : t' ∈ (f_tasks m).*1) by by apply (list_elem_of_fmap_2 fst _ (t', z')).
        destruct (agree_fields _ _ _ t' Hag Hin') as (_ & -> & -> & _). destruct (Hl t' z' Hin) as (-> & ? & ?).
        rewrite lookup_insert_ne by (by intros <-). split_and!; [done|lia|done].
    + intros t' p' id' [[<- [= <- <-]]|[Hne Ht']]%lookup_insert_Some.
      * rewrite lookup_insert_eq. split; [eauto|]. exists kt. rewrite Hk, lookup_insert_eq. by split_and!.
      * destruct (Htt t' p' id' Ht') as (Hp' & k & Hkt & Hr). split; [|exists k; by rewrite Hk, lookup_insert_ne].
        destruct (decide (p = p')) as [<-|Hnp]; [rewrite lookup_insert_eq; eauto|by rewrite lookup_insert_ne].
    + rewrite Hct, Hn. split; [done|lia].
    + intros a. rewrite Hfr, Hk. intros Ha. rewrite lookup_insert_ne by (unfold t, p; lia). apply Hu. unfold p in Ha. lia.
Qed.

(** A thread whose tasks have changed, where contexts and promises have not *)
Lemma rep_set_tasks this m w w' code s b cur arr tk :
  thread_rep this m w code s b cur arr → w_ctx w' = w_ctx w → w_thr w' = w_thr w → w_self w' = w_self w → w_fresh w' = w_fresh w →
  (∀ p k, w_prom w !! p = Some k → ∃ k', w_prom w' !! p = Some k' ∧ same_outcome k k') →
  tasks_rep (f_prom m) tk (f_tasks m) (f_count m) w' s → thread_rep this (set_f_task tk m) w' code s b cur arr.
Proof.
  intros [Hrun Hsch Hsl Hd Hf Hrep Htk] Hc Ht Hs Hfr Hp Htk'. split; try done; simpl.
  - eapply running_frame; [exact Hrun|done|rewrite Ht; apply Hrun|done|rewrite Hs; apply Hrun| |by rewrite Hfr|].
    + intros x. rewrite Hsch. by intros ?%elem_of_nil.
    + intros c p k _ _ Hk. destruct (Hp p k Hk) as (k' & Hk' & _ & _ & Hb). by exists k'.
  - by rewrite Hfr.
  - eapply rep_frame; [exact Hrep|by rewrite Hc|done|by rewrite Hfr].
Qed.

Lemma agree_insert pr tk l n w s t k k' :
  tasks_rep pr tk l n w s → w_task w !! t = Some k → same_posted k k' → agree_on l.*1 (w_task w) (<[t := k']> (w_task w)).
Proof.
  intros Hr Hk Hs x Hx. destruct (agree_refl _ _ _ _ _ _ _ Hr eq_refl x Hx) as (kx & _ & Hkx & _).
  destruct (decide (t = x)) as [<-|Hne].
  - exists k, k'. by rewrite lookup_insert_eq.
  - exists kx, kx. by rewrite lookup_insert_ne.
Qed.

Lemma step_begin this m w code s b cur arr t p id :
  thread_rep this m w code s b cur arr → f_task m !! t = Some (p, id) →
  ∃ k, w_task w !! t = Some k ∧ t_prom k = Some p ∧ t_functor k = UserFn id ∧ t_canceled k = false ∧
  wp (begin_task this t) (returns (λ _ w', w_ctx w' = w_ctx w ∧ thread_rep this m w' code s b cur arr)) w.
Proof.
  intros Ht Hp. pose proof (tr_tasks _ _ _ _ _ _ _ _ Ht) as Htk.
  destruct (tk_task _ _ _ _ _ _ Htk t p id Hp) as (_ & k & Hk & Hfn & Hkp & Hcn & Hrf & Hwh).
  exists k. split_and!; try done. unfold begin_task. rewrite wp_bind, wp_get_thr, (tr_thr _ _ _ _ _ _ _ _ Ht).
  rewrite wp_mod_task, Hk. split; [done|]. replace m with (set_f_task (f_task m) m) by by destruct m.
  eapply rep_set_tasks; try done; [intros q kq Hq; by exists kq|].
  eapply tasks_frame; [exact Htk|by eapply agree_insert| |done..|].
  - intros t' p' id' Ht'. split; [done|]. simpl. intros k' Hk'. destruct (decide (t = t')) as [<-|Hne].
    + rewrite lookup_insert_eq. eexists. split; [done|]. by simplify_eq.
    + rewrite lookup_insert_ne by done. by exists k'.
  - simpl. intros a Ha. rewrite lookup_insert_ne; [by apply (tk_unused _ _ _ _ _ _ Htk)|].
    intros <-. by rewrite (tk_unused _ _ _ _ _ _ Htk) in Hk.
Qed.

Lemma step_task_done this m w code s b cur arr t :
  thread_rep this m w code s b cur arr → is_Some (f_task m !! t) → t ∉ (f_tasks m).*1 →
  wp (pt_task_done t) (returns (λ _ w', w_ctx w' = w_ctx w ∧
    thread_rep this (set_f_task (delete t (f_task m)) m) w' code s b cur arr)) w.
Proof.
  intros Ht [[p id] Hp] Hnt. pose proof (tr_tasks _ _ _ _ _ _ _ _ Ht) as Htk.
  destruct (tk_task _ _ _ _ _ _ Htk t p id Hp) as ([st Hst] & k & Hk & Hfn & Hkp & Hcn & Hrf & Hwh).
  destruct (rp_prom _ _ _ _ _ _ (tr_rep _ _ _ _ _ _ _ _ Ht) p st Hst) as (kp & Hkpr & _).
  assert (He : pt_task_done t w = (Ret tt, set_w_task (delete t (w_task w))
    (set_w_prom (<[p := set_m_task None kp]> (w_prom w)) w))).
  { apply wp_run. unfold pt_task_done, task_release, delete_rtask. wp_steps.
    rewrite bool_decide_eq_true_2 by done. wp_steps. rewrite Hkp. wp_steps. rewrite Hkp. wp_steps.
    split; [done|]. by rewrite delete_insert_eq. }
  eapply wp_eq; [exact He|]. split; [done|]. eapply rep_set_tasks; try done.
  - simpl. intros q kq Hq. destruct (decide (p = q)) as [<-|Hne].
    + rewrite lookup_insert_eq. eexists. split; [done|]. by simplify_eq.
    + rewrite lookup_insert_ne by done. by exists kq.
  - eapply tasks_frame; [exact Htk| | | |done..|]; simpl.
    + intros x Hx. destruct (agree_refl _ _ _ _ _ _ _ Htk eq_refl x Hx) as (kx & kx' & ? & ? & ?).
      exists kx, kx'. rewrite lookup_delete_ne; [done|]. by intros <-.
    + intros t' p' id' [Hne Ht']%lookup_delete_Some. split; [done|]. intros k' Hk'. exists k'. by rewrite lookup_delete_ne.
    + intros x Hx. rewrite lookup_delete_ne; [done|]. by intros <-.
    + intros a Ha. rewrite lookup_delete_None. right. by apply (tk_unused _ _ _ _ _ _ Htk).
Qed.

Lemma step_finish this m w code s b cur arr t :
  thread_rep this m w code s b cur arr → is_Some (f_task m !! t) → t ∉ (f_tasks m).*1 →
  wp (finish_task this t) (returns (λ pt w', w_ctx w' = w_ctx w ∧ pt = PtTasks (next_task m) time_point_max ∧
    ∃ s', thread_rep this (drop_task (set_f_task (delete t (f_task m)) m)) w' code s' b cur arr)) w.
Proof.
  intros Ht Hp Hnt. unfold finish_task. rewrite wp_bind. eapply wp_mono, step_task_done; [|done..].
  intros [[]|?|?] w1; try done. intros [Hc1 Ht1]. rewrite wp_bind.
  eapply wp_eq; [apply (check_nothing w1 this s); [by eapply tr_thr|apply Ht1|apply Ht1]|].
  rewrite wp_bind. eapply wp_mono, step_dequeue; [|done]. intros [o|?|?] w2; try done.
  intros (-> & Hc2 & s2 & Ht2). rewrite wp_ret. split; [congruence|]. split; [done|]. by exists s2.
Qed.

(** ** Switches *)

(** The store is where the machine is. *)
Definition represents this m w (f : run_state) : Prop := ∃ s b cur,
  thread_rep this m w f.2 s b cur [] ∧ f.1 = f_run m ∧
  ∀ x a, f_run m = Some (x, a) → x = cur ∧ c_flags <$> w_ctx w !! x = Some (false, 0%Z).

Lemma represents_at this m w code s b c a :
  f_run m = Some (c, a) → thread_rep this m w code s b c [] → c_flags <$> w_ctx w !! c = Some (false, 0%Z) →
  represents this m w (Some (c, a), code).
Proof. intros Ha Ht Hc. exists s, b, c. rewrite Ha. split_and!; [done|done|]. by intros x a' [= <- <-]. Qed.

(** The switch [sw] led to where the machine goes on. *)
Definition arrived this m (sw : switch) w code s b : Prop := ∃ c a,
  f_run m = Some (c, a) ∧ sw_next sw = c ∧
  if sw_new sw then a = Entering ∧ c_flags <$> w_ctx w !! c = Some (false, 0%Z) ∧ thread_rep this m w code s b c []
  else thread_rep this m w code s b c [(c, a)].

Lemma switch_arrives this m sw w code s b :
  arrived this m sw w code s b →
  wp (switch_to this sw code) (returns (λ f w', represents this m w' f)) w.
Proof.
  intros (c & a & Ha & Hc & Hsw). unfold switch_to. rewrite Hc. destruct (sw_new sw).
  { destruct Hsw as (-> & Hfl & Ht). rewrite wp_ret. by eapply represents_at. }
  destruct Hsw as [Hrun Hsch Hsl Hd Hf Hrep Htk].
  assert (Hfl : c_flags <$> w_ctx w !! c = Some (false, 0%Z)) by (apply (rp_plain _ _ _ _ _ _ Hrep); by left).
  pose proof Hfl as (kc & Hkc & Hcan)%fmap_Some. injection Hcan as Hcan Hprio. symmetry in Hcan.
  assert (Hsame : ∀ q, code !! c = Some (AtYield q) → represents this m w (Some (c, a), delete c code)).
  { intros q Hq. eapply represents_at; [done| |done]. split; try done.
    eapply rep_resumed; [exact Hrep|by eapply ru_ready|by eapply ru_blocked|done..|].
    intros p k st Hck. by rewrite Hq in Hck. }
  destruct (rp_ready _ _ _ _ _ _ Hrep c a ltac:(left)) as [Hq|(p & k & r & kp & Hq & -> & Hkp & Ho & Hp)]; rewrite Hq.
  - assert (Hres : wp (start_next_task_resume this c;; mret (Some (c, a), delete c code))
      (returns (λ f w', represents this m w' f)) w).
    { rewrite wp_bind. eapply wp_eq; [by eapply resume_running|]. exact (Hsame a Hq). }
    destruct a; try exact Hres. exact (Hsame _ Hq).
  - rewrite wp_bind. eapply wp_mono, resumes_with; [|done..].
    intros [o|?|?] w'; try done. intros (-> & Hrun' & Hctx & Hf' & Hpr & Ht' & Hct').
    assert (Hcw : c_flags <$> w_ctx w' !! c = Some (false, 0%Z)).
    { rewrite Hctx, lookup_insert_eq. unfold c_flags. simpl. by rewrite Hcan, <-Hprio. }
    rewrite wp_ret. eapply represents_at; [done| |done]. split; try done; [by rewrite Hf'| |].
    + eapply rep_resumed; [exact Hrep|by eapply ru_ready|by eapply ru_blocked| |done|done| |].
      * intros y Hy. by rewrite Hctx, lookup_insert_ne.
      * intros p' Hp'. rewrite Hpr, lookup_insert_ne; [done|]. intros <-. by apply (Hp' k).
      * intros p' k' st Hck Hst. rewrite Hq in Hck. injection Hck as <- <-. rewrite Hpr, lookup_insert_eq.
        eexists. split; [done|]. rewrite Hp in Hst. injection Hst as <-. by destruct r.
    + eapply tasks_same; try done; by rewrite ?Hf'.
Qed.

(** The thread gives way to the first of its ready contexts, or to a new one. *)
Lemma give_way_arrives this m w w' code s s' b x back :
  running w' this s' (tail (f_ready m).*1 ++ back.*1) b (default (w_fresh w) (head (f_ready m).*1)) →
  same_queues s s' → th_done s' = th_done s → task_sch_queue s = [] → sleep_pqueue s = [] → th_done s = false →
  f_fresh m = w_fresh w → w_fresh w' = match (f_ready m).*1 with [] => S (w_fresh w) | _ => w_fresh w end →
  ((f_ready m).*1 = [] → c_flags <$> w_ctx w' !! w_fresh w = Some (false, 0%Z)) →
  fibres_rep (f_wait m) (f_prom m) w' code b (f_ready m ++ back) →
  tasks_rep (f_prom m) (f_task m) (f_tasks m) (f_count m) w s → w_task w' = w_task w → w_task_count w' = w_task_count w →
  arrived this (give_way m back) (Switch x (default (w_fresh w) (head (f_ready m).*1)) (bool_decide ((f_ready m).*1 = []))) w' code s' b.
Proof.
  intros Hrun (Hq1 & Hq2 & Hq3 & Hq4) Hd Hsch Hsl Hdn Hf Hf' Hnew Hrep Htk Ht Hct.
  assert (Hle : w_fresh w ≤ w_fresh w') by (rewrite Hf'; destruct (f_ready m).*1; lia).
  assert (Htk' : tasks_rep (f_prom m) (f_task m) (f_tasks m) (f_count m) w' s') by by eapply tasks_same.
  unfold arrived, give_way. destruct (f_ready m) as [|[c q] l] eqn:Hrd; simpl in *.
  - exists (f_fresh m), Entering. split; [done|]. split; [done|]. split; [done|]. rewrite Hf. split; [auto|].
    split; simpl; try done; try congruence; by rewrite Hf, Hf'.
  - exists c, q. split; [done|]. split; [done|]. split; simpl; try done; try congruence. by rewrite fmap_app.
Qed.

(** A stack belongs to a context that was made before. *)
Lemma step_yields this m w code s b x a :
  thread_rep this m w code s b x [] → c_flags <$> w_ctx w !! x = Some (false, 0%Z) →
  wp (yield this) (returns (λ sw w', sw_prev sw = x ∧ ∃ s', arrived this (give_way m [(x, a)]) sw w' (<[x := AtYield a]> code) s' b)) w.
Proof.
  intros [Hrun Hsch Hsl Hd Hf Hrep Htk] Hx.
  eapply wp_mono, idle_yields; [|done..]. intros [sw|?|?] w'; try done.
  intros (s' & [-> Hrun' Hqs Hdn Hpr Ht Hct Hf' _ Hctx Hnew]). split; [done|]. exists s'.
  apply (give_way_arrives this m w w' _ s); try done.
  apply (rep_yielded _ _ w'); [|by eapply ru_ready|by eapply ru_blocked|].
  - apply (rep_switched _ _ w); [done..|]. rewrite Hf'. destruct (f_ready m).*1; lia.
  - rewrite <-Hx. apply erase_links_flags, Hctx. apply (fmap_is_Some c_flags). rewrite Hx. eauto.
Qed.

Lemma step_waits this m w code s b x p k :
  thread_rep this m w code s b x [] → c_flags <$> w_ctx w !! x = Some (false, 0%Z) →
  f_prom m !! p = Some Pending → f_wait m !! p = None →
  wp (promise_wait p microseconds_max) (returns (λ o w', ∃ sw s' b', o = Blocked sw ∧
    arrived this (give_way (set_f_wait (<[p := (x, k)]> (f_wait m)) m) []) sw w' (<[x := AtWait p k]> code) s' b')) w.
Proof.
  intros [Hrun Hsch Hsl Hd Hf Hrep Htk] Hx Hp Hw.
  destruct (rp_prom _ _ _ _ _ _ Hrep p Pending Hp) as (kp & Hkp & He & Hv & _).
  eapply wp_mono, (promise_wait_in w this s (f_ready m).*1 b x p kp); try done; [| |by apply Hclock].
  2:{ intros y Hy%(rp_blocked _ _ _ _ _ _ Hrep) Hyp. destruct Hy as (p' & q & Hy).
      destruct (rp_wait _ _ _ _ _ _ Hrep p' y q Hy) as (_ & Hpy & _). rewrite Hyp in Hpy. simplify_eq. }
  intros [o|?|?] w'; try done. intros (-> & s' & [Hrun' Hxb Hpx Hfl Hqs Hdn Hpr Ht Hct Hf' _ Hnew] & Hprom).
  eexists _, s', (x :: b). split; [done|].
  apply (give_way_arrives this (set_f_wait _ m) w w' _ s); simpl in *; try done; rewrite ?app_nil_r; try done.
  apply (rep_waits _ _ w); try done; [by eapply ru_ready|by eapply ru_blocked|by exists kp, this|].
  rewrite Hf'. destruct (f_ready m).*1; lia.
Qed.

(** ** Promises *)

Lemma complete_alone_rep this m w code s b x p r :
  thread_rep this m w code s b x [] → f_prom m !! p = Some Pending → f_wait m !! p = None →
  wp (complete p r) (returns (λ _ w', w_ctx w' = w_ctx w ∧
    thread_rep this (set_f_prom (<[p := Settled r]> (f_prom m)) m) w' code s b x [])) w.
Proof.
  intros [Hrun Hsch Hsl Hd Hf Hrep Htk] Hp Hw.
  destruct (rp_prom _ _ _ _ _ _ Hrep p Pending Hp) as (kp & Hkp & He & _ & Hb).
  eapply wp_eq; [apply (complete_alone w p kp r); auto|]. split; [done|]. split; try done; [|by apply rep_settled|].
  - eapply running_with_prom; [done..|]. by destruct r.
  - eapply tasks_same; try done. simpl. intros q Hq.
    destruct (decide (p = q)) as [<-|Hne]; [rewrite lookup_insert_eq; eauto|by rewrite lookup_insert_ne].
Qed.

Lemma complete_wakes_rep this m w code s b x p r c k :
  thread_rep this m w code s b x [] → f_wait m !! p = Some (c, k) →
  wp (complete p r) (returns (λ _ w', ∃ s' b',
    (∀ y, c_flags <$> w_ctx w' !! y = c_flags <$> w_ctx w !! y) ∧
    thread_rep this (set_f_ready ((c, k r) :: f_ready m)
      (set_f_wait (delete p (f_wait m)) (set_f_prom (<[p := after_wake r]> (f_prom m)) m))) w' code s' b' x [])) w.
Proof.
  intros [Hrun Hsch Hsl Hd Hf Hrep Htk] Hw. destruct (rp_wait _ _ _ _ _ _ Hrep p c k Hw) as (Hc & Hcp & Hp).
  destruct (rp_prom _ _ _ _ _ _ Hrep p Pending Hp) as (kp & Hkp & He & _ & _).
  pose proof (ru_inv _ _ _ _ _ _ Hrun) as [Hthr Hsr Hpr Hsole _].
  assert (Hcb : c ∈ b) by (apply (rp_blocked _ _ _ _ _ _ Hrep); eauto).
  destruct (Hpr c Hcb) as (p' & kp' & Hcp' & Hkp' & Hbt). simplify_eq.
  pose proof Hcb as (b1 & b2 & Hb)%list_elem_of_split. subst b.
  eapply wp_mono, (complete_wakes w this p r kp s (f_ready m).*1 b1 c b2); try done; [|apply Hrun|].
  2:{ split; [done|]. intros y Hy Hyp. symmetry. eapply Hsole; [|exact Hy|done|done]. by apply elem_of_app; left. }
  intros [[]|?|?] w'; try done. intros Hwk. pose proof Hwk as (m' & s'' & Hw' & _ & _ & Hwoken & _).
  destruct (running_woken w w' this s (f_ready m).*1 b1 c b2 p kp (settle r kp) x Hrun Hkp) as
    (s' & Hrun' & Hsl' & Hprw & Htw & Hst & _); [by destruct r|done|].
  assert (Hfl : ∀ y, c_flags <$> w_ctx w' !! y = c_flags <$> w_ctx w !! y).
  { intros y. rewrite Hw'. by apply (woken_flags _ _ c). }
  pose proof (same_but_sched_queues _ _ Hst) as (Hq1 & Hq2 & Hq3 & Hq4).
  exists s', (b1 ++ b2). split; [done|]. split; simpl; try done; try congruence.
  - rewrite Hsl in Hsl'. by apply Permutation_nil_r in Hsl'.
  - by rewrite Hw'.
  - eapply rep_woken; [exact Hrep|done|done|done| |done| |done|by rewrite Hw'].
    + intros y. pose proof (blocked_rep_NoDup _ _ _ (sr_blocked _ _ _ _ Hsr)) as (_ & Hdj & [Hc2 _]%NoDup_cons)%NoDup_app.
      specialize (Hdj c). set_solver.
    + intros y Hy. rewrite Hw'. simpl. eapply (woken_prom_of _ _ c); [|done]. exact Hwoken.
  - eapply tasks_same; try done; [|by rewrite Hw'|by rewrite Hw'].
    intros q Hq. destruct (decide (p = q)) as [<-|Hne]; [rewrite lookup_insert_eq; eauto|by rewrite lookup_insert_ne].
Qed.

(** Completing a promise is what the machine does. *)
Lemma complete_steps this m m' w code s b x a p r :
  thread_rep this m w code s b x [] → c_flags <$> w_ctx w !! x = Some (false, 0%Z) →
  complete_to x a p r m = Some m' →
  wp (complete p r;; mret (Some (x, a), code)) (returns (λ f w', represents this m' w' f)) w.
Proof.
  intros Ht Hx. unfold complete_to. rewrite wp_bind.
  destruct (f_prom m !! p) as [[| |]|] eqn:Hp; try done. destruct (f_wait m !! p) as [[c k]|] eqn:Hw; intros [= <-].
  - eapply wp_mono, complete_wakes_rep; [|done..]. intros [[]|?|?] w'; try done. intros (s' & b' & Hfl & Ht').
    rewrite wp_ret. eapply represents_at; [done|by apply thread_rep_run|by rewrite Hfl].
  - eapply wp_mono, complete_alone_rep; [|done..]. intros [[]|?|?] w'; try done. intros [Hc Ht'].
    rewrite wp_ret. eapply represents_at; [done|by apply thread_rep_run|by rewrite Hc].
Qed.

(** A new promise *)
Lemma step_new this m w code s b x :
  thread_rep this m w code s b x [] →
  wp alloc_prom (returns (λ q w', q = f_fresh m ∧ w_ctx w' = w_ctx w ∧
    thread_rep this (set_f_prom (<[f_fresh m := Pending]> (f_prom m)) (set_f_fresh (S (f_fresh m)) m)) w' code s b x [])) w.
Proof.
  intros Ht. pose proof (λ c p Hc Hp, waiter_promise_old _ _ _ _ _ _ _ _ c p Ht Hc Hp) as Hold.
  destruct Ht as [Hrun Hsch Hsl Hd Hf Hrep Htk]. unfold alloc_prom. wp_steps. rewrite Hf. split; [done|]. split; [done|].
  split; simpl; try done; [| |].
  - eapply running_frame; [exact Hrun|done|apply Hrun|done|apply Hrun|apply Hrun|simpl; lia|].
    simpl. intros c p kp Hc Hcp Hkp. exists kp. rewrite lookup_insert_ne; [done|]. intros <-.
    specialize (Hold c _ Hc Hcp). lia.
  - eapply rep_new; [done|done|done|by repeat split|simpl; lia].
  - eapply tasks_same; try done; [|simpl; lia]. intros q Hq.
    destruct (decide (w_fresh w = q)) as [<-|Hne]; [rewrite lookup_insert_eq; eauto|by rewrite lookup_insert_ne].
Qed.

(** ** The loop and the programs *)

Variable body : nat → prog T.
Variable user : nat → M (world T) exn T.
Variable void_t : T.

Lemma drop_no_task m : next_task m = None → drop_task m = m.
Proof. unfold next_task, drop_task. destruct m as [? ? ? ? ? [|? ?] ? ?]; done. Qed.

Lemma loop_steps this m m' w code s b c pt :
  thread_rep this m w code s b c [] → c_flags <$> w_ctx w !! c = Some (false, 0%Z) →
  (∀ t tt', pt ≠ PtTasks (Some t) tt') → loop_step body c pt m = Some m' →
  wp (run_loop user void_t this c pt code) (returns (λ f w', represents this m' w' f)) w.
Proof.
  intros Ht Hc Hpt Hstep. pose proof (tr_thr _ _ _ _ _ _ _ _ Ht) as Hthr. pose proof Ht as [Hrun Hsch Hsl Hd _ _ _].
  assert (Hgo : ∀ m2 w2 s2 pt2, thread_rep this m2 w2 code s2 b c [] → c_flags <$> w_ctx w2 !! c = Some (false, 0%Z) →
    represents this (goto c (InLoop pt2) m2) w2 (Some (c, InLoop pt2), code)).
  { intros m2 w2 s2 pt2 Ht2 Hc2. eapply represents_at; [done|by apply thread_rep_run|done]. }
  unfold run_loop. destruct pt as [next|[t|] tt'|tt'|prev tt'|tt']; simpl in Hstep; cbn [pt_step].
  - injection Hstep as <-. rewrite !wp_bind, wp_get_thr, Hthr, Hd, wp_bind.
    eapply wp_eq; [by apply (check_nothing w this s)|]. by eapply Hgo.
  - by destruct (Hpt t tt').
  - injection Hstep as <-. rewrite wp_bind, wp_ret. by eapply Hgo.
  - rewrite !wp_bind, wp_get_thr, Hthr, Hd, andb_false_r.
    rewrite (ready_rep_head _ _ _ (sr_ready _ _ _ _ (ti_rep _ _ _ _ _ (ru_inv _ _ _ _ _ _ Hrun)))).
    case_decide as Hmin; [rewrite bool_decide_eq_true_2 by done|rewrite bool_decide_eq_false_2 by done].
    { injection Hstep as <-. rewrite wp_ret. by eapply Hgo. }
    destruct (f_ready m) as [|y l] eqn:Hrd; injection Hstep as <-; simpl.
    + rewrite wp_ret. by eapply Hgo.
    + rewrite wp_bind. eapply wp_mono, step_yields; [|done..].
      intros [sw|?|?] w'; try done. intros (-> & s' & Hsw). rewrite wp_ret. by eapply switch_arrives.
  - case_decide as Hprev; [|done]. subst prev. apply fmap_Some in Hc as (kc & Hkc & Hfl). injection Hfl as Hcan Hpr.
    assert (Hc : c_flags <$> w_ctx w !! c = Some (false, 0%Z)) by (rewrite Hkc; unfold c_flags; simpl; by rewrite <-Hcan, <-Hpr).
    rewrite !wp_bind. eapply wp_eq; [by eapply resume_running|]. cbv beta iota. rewrite wp_bind. eapply wp_mono, step_dequeue; [|done].
    intros [o|?|?] w'; try done. intros (-> & Hctx & s' & Ht'). rewrite <-Hctx in Hc.
    destruct (next_task m) as [t|] eqn:Hn; injection Hstep as <-; rewrite wp_ret; [by eapply Hgo|].
    rewrite drop_no_task in Ht' by done. by eapply Hgo.
  - rewrite !wp_bind. eapply wp_mono, step_dequeue; [|done].
    intros [o|?|?] w'; try done. intros (-> & Hctx & s' & Ht'). rewrite <-Hctx in Hc.
    destruct (next_task m) as [t|] eqn:Hn; injection Hstep as <-; rewrite wp_ret; [by eapply Hgo|].
    rewrite drop_no_task in Ht' by done. exists s', b, c. split_and!; [by apply thread_rep_run|done|done].
Qed.

Lemma prog_steps this m m' w code s b c t p pg :
  thread_rep this m w code s b c [] → c_flags <$> w_ctx w !! c = Some (false, 0%Z) →
  prog_step c t p pg m = Some m' →
  wp (run_prog this c t p pg code) (returns (λ f w', represents this m' w' f)) w.
Proof.
  intros Ht Hc Hstep.
  destruct pg as [r|k|k|q r k|q k|id prio k]; simpl in *.
  - by eapply complete_steps.
  - injection Hstep as <-. rewrite wp_bind. eapply wp_mono, step_yields; [|done..].
    intros [sw|?|?] w'; try done. intros (_ & s' & Hsw). by eapply switch_arrives.
  - injection Hstep as <-. rewrite wp_bind. eapply wp_mono, step_new; [|done].
    intros [q|?|?] w'; try done. intros (-> & Hctx & Ht'). rewrite wp_ret.
    eapply represents_at; [done|by apply thread_rep_run|by rewrite Hctx].
  - by eapply complete_steps.
  - rewrite wp_bind. destruct (f_prom m !! q) as [[|r|]|] eqn:Hp; try done.
    + destruct (f_wait m !! q) as [?|] eqn:Hw; [done|]. injection Hstep as <-. rewrite wp_attempt.
      eapply wp_mono, step_waits; [|done..]. intros [o|?|?] w'; try done.
      intros (sw & s' & b' & -> & Hsw). by eapply switch_arrives.
    + assert (goto c (InTask t p (k r)) m = m') as <- by (destruct (f_wait m !! q); congruence).
      destruct (rp_prom _ _ _ _ _ _ (tr_rep _ _ _ _ _ _ _ _ Ht) q (Settled r) Hp) as (kp & Hkp & Hr).
      eapply wp_eq; [by eapply wait_settled|].
      destruct r; rewrite wp_ret; (eapply represents_at; [done|by apply thread_rep_run|done]).
  - destruct (in_int64 (f_count m + 1)) eqn:Hcnt; [|done]. injection Hstep as <-. rewrite wp_bind.
    eapply wp_mono, step_async; [|done..]. intros [q|?|?] w'; try done. intros (-> & Hctx & s' & Ht').
    rewrite wp_ret. eapply represents_at; [done|by apply thread_rep_run|by rewrite Hctx].
Qed.

(** The run of a task is cut where its function starts and ends: with a function that runs to
    completion in between, the parts are the step of [process_tasks]. *)
Lemma task_cut w this s t k p id tt' :
  w_thr w !! this = Some s → w_task w !! t = Some k → t_prom k = Some p → t_functor k = UserFn id →
  pt_step user void_t this (PtTasks (Some t) tt') w =
  (begin_task this t;;
   r ← (if t_canceled k then mret (inl task_canceled) else attempt (user id));
   complete p r;;
   pt ← finish_task this t;
   mret (Goto pt)) w.
Proof.
  intros Hs Hk Hp Hf. set (w1 := set_w_task (<[t := set_t_active_context (current s) k]> (w_task w)) w).
  assert (Hb : begin_task this t w = (Ret tt, w1)).
  { apply wp_run. unfold begin_task. by rewrite wp_bind, wp_get_thr, Hs, wp_mod_task, Hk. }
  assert (Hk1 : w_task w1 !! t = Some (set_t_active_context (current s) k)) by apply lookup_insert_eq.
  assert (Hrun : task_run user void_t t w1 =
    (r ← (if t_canceled k then mret (inl task_canceled) else attempt (user id)); complete p r) w1).
  { unfold task_run. rewrite (bind_run _ _ w1 w1 (Ret (set_t_active_context (current s) k))) by (unfold get_task; by rewrite Hk1).
    simpl. rewrite Hp, (rtask_run_completes _ _ _ _ _ p Hk1) by done. simpl. rewrite Hf.
    destruct (t_canceled k); [done|]. simpl. unfold attempt, catch, mbind, M_bind.
    by destruct (user id w1) as [[v|e|u] w2]. }
  rewrite (bind_run _ _ _ _ _ Hb). cbn [pt_step]. unfold pt_run_task, begin_task in *.
  unfold mbind, M_bind in *. destruct (get_thr this w) as [[s'|?|?] w0] eqn:Hthr; try done.
  rewrite Hb, Hrun. unfold finish_task, mbind, M_bind.
  set (res := if t_canceled k then _ else _). destruct (res w1) as [[r|?|?] w2]; [|done..].
  destruct (complete p r w2) as [[?|?|?] w3]; [|done..].
  destruct (pt_task_done t w3) as [[?|?|?] w4]; [|done..].
  destruct (check_for_timeouts this w4) as [[?|?|?] w5]; [|done..].
  by destruct (dequeue this w5) as [[?|?|?] w6].
Qed.

(** A step of the machine is a step of the thread. *)
Lemma step_simulates this m m' w f :
  machine_step body m = Some m' → represents this m w f →
  wp (run_step body user void_t this f) (returns (λ f' w', represents this m' w' f')) w.
Proof.
  intros Hstep (s & b & cur & Ht & Hrun & Hcur). destruct f as [run code]. simpl in *. subst run.
  unfold run_step, machine_step in *. simpl. destruct (f_run m) as [[x a]|] eqn:Ha.
  2:{ injection Hstep as <-. rewrite wp_ret. exists s, b, cur. by rewrite Ha. }
  destruct (Hcur x a eq_refl) as [-> Hfl]. destruct a as [t p pg|t| |pt].
  - by eapply prog_steps.
  - case_decide as Hdec; [|done]. destruct Hdec as [Htk Hnt]. injection Hstep as <-. rewrite wp_bind.
    eapply wp_mono, step_finish; [|done..]. intros [pt|?|?] w'; try done. intros (Hctx & -> & s' & Ht').
    rewrite wp_ret. eapply represents_at; [done|by apply thread_rep_run|by rewrite Hctx].
  - injection Hstep as <-. unfold pt_enter. rewrite !wp_bind. eapply wp_mono, step_dequeue; [|done].
    intros [o|?|?] w'; try done. intros (-> & Hctx & s' & Ht'). rewrite !wp_ret.
    eapply represents_at; [done|by apply thread_rep_run|by rewrite Hctx].
  - assert (Hloop : (∀ t tt', pt ≠ PtTasks (Some t) tt') →
      wp (run_loop user void_t this cur pt code) (returns (λ f w', represents this m' w' f)) w)
      by (intros Hpt; by eapply loop_steps).
    destruct pt as [next|[t|] tt'|tt'|prev tt'|tt']; try by apply Hloop.
    simpl in Hstep. destruct (f_task m !! t) as [[p id]|] eqn:Htp; [|done]. injection Hstep as <-.
    destruct (step_begin this m w code s b cur [] t p id Ht Htp) as (k & Hk & Hkp & Hfn & Hcn & Hb).
    rewrite wp_bind, wp_get_task, Hk, Hkp, Hfn, Hcn, wp_bind. eapply wp_mono, Hb.
    intros [[]|?|?] w'; try done. intros [Hctx Ht']. rewrite wp_ret.
    eapply represents_at; [done|by apply thread_rep_run|by rewrite Hctx].
Qed.

(** Where a machine starts: a thread enters its loop, with nothing to do yet. *)
Lemma new_thread_rep this w s c :
  running w this s [] [] c → idle s → th_done s = false → c_flags <$> w_ctx w !! c = Some (false, 0%Z) →
  (0 ≤ w_task_count w)%Z → (∀ a, w_fresh w ≤ a → w_task w !! a = None) →
  thread_rep this (Machine (Some (c, Entering)) [] ∅ ∅ ∅ [] (w_task_count w) (w_fresh w)) w ∅ s [] c [].
Proof.
  intros Hrun Hidle Hd Hc Hn Hu. pose proof Hidle as (_ & _ & ? & ?). split; try done; simpl.
  - split; try done.
    + intros c'. rewrite elem_of_nil. split; [done|]. by intros (p & k & ?).
    + by intros c' q ?%elem_of_nil.
    + by intros p [? ?].
    + by intros c' [? ?].
    + by intros c' ?%elem_of_nil.
  - split; try done.
    + exists []. split; [by apply idle_queue_rep|]. unfold held. destruct Hidle as (_ & -> & -> & _). done.
    + constructor.
    + by intros t z ?%elem_of_nil.
Qed.

(** ** Properties *)

(** C2: a thread implements the machine: as long as the machine promises something, the
    thread's loop and the functions it runs are where the machine is after every step. No
    step fails, tasks are run in the machine's order, contexts in the order of its queue, and
    every wait returns or throws what the machine gives it. *)
Theorem thread_implements_machine n this m m' w f :
  machine_steps body n m = Some m' → represents this m w f →
  wp (run_steps body user void_t n this f) (returns (λ f' w', represents this m' w' f')) w.
Proof.
  revert m w f. induction n as [|n IH]; intros m w f; simpl; [by intros [= <-]|].
  intros (m1 & Hstep & Hsteps)%bind_Some Hrep. rewrite wp_bind.
  eapply wp_mono, step_simulates; [|done..]. intros [f1|?|?] w1; try done. intros Hrep1. by eapply IH.
Qed.
End simulation.
