(* ===== verification/SchedInvariant.v ===== *)
(** Histories of the operations of a thread's contexts: as long as each operation is used
    within its precondition ([op_ok]), the thread stays well formed and no operation goes
    wrong. An operation is run from its call to the return of the context that is switched
    to, whose own suspended operation then ends. *)
From S2P Require Import Prelude StdHeap World ReadyList TaskQueue Notify Scheduler Blocking Quit Future RunTask ProcessTasks Delivery Calls.

(** What the context that is switched to was suspended in *)
Inductive suspended_in := InYield | InSleep | InWait.

Inductive sched_op (T : Type) :=
  | OpYield
  | OpSleepUntil (tp : Z)
  | OpWait (p : nat) (timeout : Z)
  | OpNewPromise
  | OpComplete (p : nat) (r : exn + T)
  | OpPost (t : nat) (f : functor) (prio : Z)
  | OpCancel (p : nat).
Arguments OpYield {T}.
Arguments OpSleepUntil {T} tp.
Arguments OpWait {T} p timeout.
Arguments OpNewPromise {T}.
Arguments OpComplete {T} p r.
Arguments OpPost {T} t f prio.
Arguments OpCancel {T} p.

Section ops.
Context {T : Type} `{!Clock} `{!HeapAlgo nat}.
Abbreviation C := (M (world T) exn).

(** The other side of a switch; a new context starts the thread's loop instead. *)
Definition resumed (this : nat) (i : suspended_in) (sw : switch) : C unit :=
  if sw_new sw then mret tt
  else match i with
       | InYield => start_next_task_resume this (sw_next sw);; mret tt
       | InSleep => sleep_until_resume this (sw_next sw)
       | InWait => wait_resume this (sw_next sw)
       end.

(** An operation up to its switch, if it makes one, and as a whole *)
Definition start_op (this : nat) (op : sched_op T) : C (option switch) :=
  match op with
  | OpYield => sw ← yield this; mret (Some sw)
  | OpSleepUntil tp => sw ← sleep_until this tp; mret (Some sw)
  | OpWait p tmo => enqueue_thread p;; wait this p tmo
  | OpNewPromise => alloc_prom;; mret None
  | OpComplete p r => complete p r;; mret None
  | OpPost t f prio => async_fn t f prio;; mret None
  | OpCancel p => future_cancel (Some p);; mret None
  end.

Definition run_op (this : nat) (i : suspended_in) (op : sched_op T) : C unit :=
  osw ← start_op this op;
  match osw with Some sw => resumed this i sw | None => mret tt end.
End ops.

Section invariant.
Context {T : Type} `{!Clock} `{HeapSpec nat}.
Implicit Types (w : world T).

Definition well_formed (this : nat) w : Prop := ∃ s r b cur, running w this s r b cur.

(** The task of a future is there, and so is the context it runs on. *)
Definition task_there w (k : promise T) : Prop := ∀ t, m_task k = Some t → ∃ kt, w_task w !! t = Some kt ∧
  ∀ c, t_active_context kt = Some c → is_Some (w_ctx w !! c).

(** When an operation is used as it is meant to be: a sleep ends in the future (one in the
    past may fail an assertion, [sleep_until_past_asserts]); a wait is for a promise that
    nobody else waits for, and its timeout is over already or does not fall between the two
    times the clock is read; a promise has no error yet when it is completed, and its waiter
    is on a thread that exists; a task is posted to a thread that exists, and task numbers do
    not run out; a new object gets an address of its own. *)
Definition op_ok (this : nat) (op : sched_op T) w : Prop :=
  match op with
  | OpYield => True
  | OpNewPromise => w_prom w !! w_fresh w = None
  | OpSleepUntil tp => (now_at (w_ticks w) < tp)%Z
  | OpWait p tmo =>
      is_Some (w_prom w !! p) ∧ (∀ c, prom_of (w_ctx w) c ≠ Some p) ∧
      (tmo = time_point_max ∧ (now_at (w_ticks w) ≤ tmo)%Z ∨
       (now_at (w_ticks w) ≤ tmo ∧ now_at (S (w_ticks w)) < tmo)%Z ∨ (tmo < now_at (w_ticks w))%Z)
  | OpComplete p r => ∃ k, w_prom w !! p = Some k ∧ m_error k = None ∧
      ∀ t, m_blocked_thread k = Some t →
        t = this ∨ is_Some (w_thr w !! t) ∧ in_int64 (w_task_count w + 1) = true
  | OpPost t f prio => is_Some (w_thr w !! t) ∧ in_int64 (w_task_count w + 1) = true
  | OpCancel p => ∃ k, w_prom w !! p = Some k ∧ task_there w k
  end.

(** An operation may throw, but nothing undefined happens, and some context runs afterwards. *)
Definition safely (this : nat) : outcome exn unit → world T → Prop := λ o w',
  (∀ u, o ≠ Undef u) ∧ well_formed this w'.

Lemma safely_at this s r b c o w' : (∀ u, o ≠ Undef u) → running w' this s r b c → safely this o w'.
Proof. intros Ho Hrun. split; [done|]. by exists s, r, b, c. Qed.

Lemma resume_any w this s r b c k :
  running w this s r b c → w_ctx w !! c = Some k →
  start_next_task_resume this c w = (if c_canceled k then Exc task_canceled else Ret true, w).
Proof.
  intros Hrun Hk. destruct (c_canceled k) eqn:Hc; [|by eapply resume_running].
  pose proof (ti_thr _ _ _ _ _ (ru_inv _ _ _ _ _ _ Hrun)) as Hthr.
  unfold start_next_task_resume, mbind, M_bind, mod_thr. rewrite Hthr.
  replace (set_current (Some c) s) with s by (rewrite <-(ru_cur _ _ _ _ _ _ Hrun); by destruct s).
  rewrite insert_id by done. unfold get_ctx. destruct w; simpl in *. by rewrite Hk, Hc.
Qed.

Lemma resumes_safely this i sw s r b w :
  running w this s r b (sw_next sw) → wp (resumed this i sw) (safely this) w.
Proof.
  intros Hrun. unfold resumed. destruct (sw_new sw); [rewrite wp_ret; by eapply safely_at|].
  destruct (ru_alloc _ _ _ _ _ _ Hrun) as [k Hk]. pose proof (resume_any _ _ _ _ _ _ _ Hrun Hk) as Hres.
  pose proof (ti_thr _ _ _ _ _ (ru_inv _ _ _ _ _ _ Hrun)) as Hthr. pose proof (ru_cur _ _ _ _ _ _ Hrun) as Hcur.
  destruct i; [|unfold sleep_until_resume|unfold wait_resume];
    (rewrite wp_bind; eapply wp_eq; [exact Hres|]; destruct (c_canceled k) eqn:Hc; [by eapply safely_at|]).
  - rewrite wp_ret. by eapply safely_at.
  - rewrite wp_bind, wp_get_thr, Hthr, Hcur. wp_steps. rewrite Hc, wp_ret. by eapply safely_at, running_set_ctx.
  - rewrite wp_bind, wp_get_thr, Hthr, Hcur. wp_steps. rewrite Hc, wp_ret. by eapply safely_at, running_set_ctx.
Qed.

(** ** The operations, one by one *)

Lemma running_tick w this s r b c n : running w this s r b c → running (set_w_ticks n w) this s r b c.
Proof. intros []. split; try done. by apply thread_inv_tick. Qed.

Lemma sleep_safely this i tp w : well_formed this w → (now_at (w_ticks w) < tp)%Z →
  wp (run_op this i (OpSleepUntil tp)) (safely this) w.
Proof.
  intros (s & r & b & c & Hrun) Htp. unfold run_op. simpl. rewrite !wp_bind.
  pose proof (ti_thr _ _ _ _ _ (ru_inv _ _ _ _ _ _ Hrun)) as Hthr.
  destruct (th_done s) eqn:Hd.
  - unfold sleep_until. rewrite wp_bind, wp_get_thr, Hthr, Hd, wp_throw. by eapply safely_at.
  - eapply wp_mono, sleep_until_switches; [|done..]. intros [sw|?|?] w'; try done.
    intros (r1 & b1 & s1 & Hrun' & _). rewrite wp_ret. by eapply resumes_safely.
Qed.

Lemma wait_safely this i p tmo w : well_formed this w → op_ok this (OpWait p tmo) w →
  wp (run_op this i (OpWait p tmo)) (safely this) w.
Proof.
  intros (s & r & b & c & Hrun) ([k Hk] & Hnone & Htmo). unfold run_op. simpl. rewrite wp_bind.
  pose proof (ru_self _ _ _ _ _ _ Hrun) as Hself.
  rewrite wp_bind. unfold enqueue_thread. wp_steps. rewrite Hself.
  set (w1 := set_w_prom _ w). set (k1 := set_m_blocked_thread (Some this) k).
  assert (Hrun1 : running w1 this s r b c) by by apply running_enqueue_thread.
  assert (Hk1 : w_prom w1 !! p = Some k1) by apply lookup_insert_eq.
  destruct (wait_returns_at_once w1 this p k1 tmo Hself Hk1) as [Hready Hlate].
  destruct (decide (is_Some (m_error k1) ∨ m_value k1 ≠ None)) as [Hr|Hr].
  { eapply wp_eq; [apply Hready; by exists k1|]. rewrite wp_ret. by eapply safely_at. }
  assert (Hnr : ¬ is_ready w1 p) by (intros (k' & Hk' & ?); by simplify_eq).
  destruct (decide (tmo < now_at (w_ticks w))%Z) as [Hl|Hl].
  { eapply wp_eq; [by apply Hlate|]. by eapply safely_at, running_tick. }
  assert (He : m_error k1 = None) by (destruct (m_error k1); [destruct Hr; left; eauto|done]).
  assert (Hv : m_value k1 = None) by (destruct (m_value k1); [by destruct Hr; right|done]).
  eapply wp_mono, (wait_suspends w1 this s r b c p k1 tmo); try done.
  - intros [osw|?|?] w'; try done. intros (sw & r1 & b1 & s1 & -> & Hrun' & _). by eapply resumes_safely.
  - simpl. lia.
  - simpl. destruct Htmo as [[? ?]|[[? ?]|?]]; [by left|by right|lia].
Qed.

(** The promise of a waiter that is not there any more: nobody is woken. *)
Lemma notify_nobody w this p s r b :
  thread_inv w this s r b → w_self w = this → is_ready w p → (∀ c, c ∈ b ++ sleep_pqueue s → prom_of (w_ctx w) c ≠ Some p) →
  thread_notify this p w = (Ret tt, w).
Proof.
  intros [Hs Hsr _ _ _] Hself Hr Hnone. apply wp_run. apply thread_notify_here; [done..|].
  rewrite wp_bind, wp_get_thr, Hs, wp_bind, wp_gets, wp_bind. pose proof (sr_blocked _ _ _ _ Hsr) as Hb.
  eapply wp_mono, (notify_loop_none _ w this p None (blocked s) s [] b); [|exact Hb|apply Hb| |].
  - intros [[]|?|?] w1; try done. intros ->. eapply wp_mono, notify_sleep_spec; [|done|apply Hsr].
    intros [[]|?|?] w2; try done. intros [[-> _]|(c & k & l & Hc & Hk & Hp & _)]; [done|].
    destruct (Hnone c); [apply elem_of_app; by right|]. unfold prom_of. by rewrite Hk.
  - apply NoDup_keys_size; [by eapply blocked_rep_NoDup|apply Hb].
  - intros c Hc. apply Hnone, elem_of_app. by left.
Qed.

(** Posting a task, to this thread or another, does not disturb the running context. *)
Lemma post_running w this s r b c t f prio :
  running w this s r b c → is_Some (w_thr w !! t) → in_int64 (w_task_count w + 1) = true →
  wp (async_fn t f prio) (λ o w', safely this o w' ∧ o = Ret tt) w.
Proof.
  intros Hrun [st Ht] Hcnt. pose proof (ti_thr _ _ _ _ _ (ru_inv _ _ _ _ _ _ Hrun)) as Hthr.
  unfold async_fn, new_task, async_task. wp_steps. rewrite Hcnt. wp_steps.
  rewrite (ru_self _ _ _ _ _ _ Hrun). set (w1 := set_w_thr _ _).
  assert (Hgo : ∀ w' s', w_ctx w' = w_ctx w → w_prom w' = w_prom w → w_self w' = w_self w →
    w_fresh w' = S (w_fresh w) → w_task w' = w_task w1 → w_thr w' !! this = Some s' → same_lists s s' →
    task_sch_queue s' = task_sch_queue s → safely this (Ret tt) w' ∧ Ret (E := exn) tt = Ret tt).
  { intros w' s' H1 H2 H3 H4 H5 Hth Hl Hq. split; [|done]. eapply safely_at; [done|].
    eapply running_frame; [exact Hrun|exact H1|exact Hth|exact Hl|rewrite H3; apply Hrun| |lia|].
    - intros x Hx. rewrite Hq in Hx. apply (ru_sch _ _ _ _ _ _ Hrun) in Hx. rewrite H5. simpl.
      rewrite insert_insert_eq, lookup_insert. by case_decide.
    - intros c' p k _ _ Hk. exists k. by rewrite H2. }
  unfold when. case_bool_decide as Heq; simpl.
  - rewrite wp_ret. subst t. assert (st = s) as -> by congruence.
    eapply (Hgo _ (set_task_in_queue (Some (w_fresh w)) s)); [done..|simpl; apply lookup_insert_eq|done|done].
  - rewrite wp_mod_thr. simpl. rewrite lookup_insert_eq.
    eapply (Hgo _ s); [done..| |done|done]. simpl. by rewrite !lookup_insert_ne by done.
Qed.

(** A promise whose waiter is on another thread: a task is posted there. *)
Lemma notify_elsewhere w this s r b c t p k :
  running w this s r b c → w_prom w !! p = Some k → is_ready w p → m_blocked_thread k = Some t → t ≠ this →
  is_Some (w_thr w !! t) → in_int64 (w_task_count w + 1) = true →
  wp (promise_notify p) (safely this) w.
Proof.
  intros Hrun Hk (k' & Hk' & Hr) Hb Hne Ht Hcnt. simplify_eq.
  assert (Hpr : promise_ready p w = (Ret true, w)).
  { apply wp_run. unfold promise_ready. rewrite wp_bind, wp_get_prom, Hk, wp_ret. split; [|done].
    f_equal. apply orb_true_iff. destruct Hr as [Hr|Hr]; [left|right]; by apply bool_decide_eq_true. }
  unfold promise_notify. rewrite wp_bind. eapply wp_eq; [exact Hpr|]. cbv beta iota.
  rewrite wp_bind, wp_check. simpl. rewrite wp_bind, wp_get_prom, Hk, Hb.
  unfold thread_notify. rewrite wp_bind. eapply wp_eq; [exact Hpr|]. cbv beta iota.
  rewrite wp_bind, wp_check. simpl. rewrite wp_bind, wp_self, (ru_self _ _ _ _ _ _ Hrun).
  rewrite bool_decide_eq_true_2 by done. eapply wp_mono, post_running; [|done..]. by intros o w' [? _].
Qed.

Lemma complete_safely this i p r w : well_formed this w → op_ok this (OpComplete p r) w →
  wp (run_op this i (OpComplete p r)) (safely this) w.
Proof.
  intros (s & rd & b & c & Hrun) (k & Hk & He & Hb). unfold run_op. cbn [start_op].
  rewrite !wp_bind. apply (wp_mono _ (safely this)).
  { intros [[]|e|u] w' Hs; [by rewrite !wp_ret|exact Hs|exact Hs]. }
  assert (Hrun1 : running (with_prom w p (settle r k)) this s rd b c)
    by (eapply running_with_prom; [done..|]; by destruct r).
  destruct (m_blocked_thread k) as [t|] eqn:Hbt.
  2:{ eapply wp_eq; [by apply complete_alone|]. by eapply safely_at. }
  destruct (decide (t = this)) as [->|Hne].
  2:{ destruct (Hb t eq_refl) as [?|[Ht Hcnt]]; [done|]. eapply complete_notifies; [done..|].
      eapply notify_elsewhere; [exact Hrun1|apply lookup_insert_eq|apply settled_ready| |exact Hne|exact Ht|exact Hcnt].
      by destruct r. }
  pose proof (ru_inv _ _ _ _ _ _ Hrun) as [Hthr Hsr Hpr Hsole Hslp].
  destruct (decide (Exists (λ x, prom_of (w_ctx w) x = Some p) b)) as [(x & Hx & Hxp)%Exists_exists|Hnone].
  - pose proof Hx as (b1 & b2 & ->)%list_elem_of_split.
    eapply wp_mono, (complete_wakes w this p r k s rd b1 x b2); try done; [|apply Hrun|].
    + intros [[]|?|?] w'; try done. intros Hwk.
      destruct (running_woken w w' this s rd b1 x b2 p k (settle r k) c Hrun Hk) as (s' & Hrun' & _);
        [by destruct r|done|]. by eapply safely_at.
    + split; [done|]. intros y Hy Hyp. symmetry. eapply Hsole; [|exact Hy|done|done]. by apply elem_of_app; left.
  - eapply complete_notifies; [done..|].
    apply (promise_notify_here _ this p (settle r k)); [apply lookup_insert_eq| |by destruct r|].
    { destruct r; [by left|by right]. }
    eapply wp_eq; [eapply notify_nobody; [apply Hrun1|apply Hrun|apply settled_ready|]|by eapply safely_at].
    simpl. rewrite <-Forall_Exists_neg, Forall_forall in Hnone.
    intros x [Hx|Hx]%elem_of_app Hxp; [by apply (Hnone x)|].
    apply (Hnone x); [|done]. apply Hslp; [done|]. rewrite Hxp. eauto.
Qed.

(** Marking a context as canceled changes no list. *)
Lemma running_cancel_ctx w this s r b cur x kx :
  running w this s r b cur → w_ctx w !! x = Some kx →
  running (set_w_ctx (<[x := set_c_canceled true kx]> (w_ctx w)) w) this s r b cur.
Proof.
  intros [[Hthr [(R1 & R2 & R3) (B1 & B2) Hh Ha Hnd Hrb Hrs] Hprom Hsole Hslp] Hself Hsch Hcur Hc ? ? ? Hfr] Hx.
  set (m := <[x := set_c_canceled true kx]> (w_ctx w)).
  assert (Hf : ∀ {A} (f : cmt_context → A), (∀ k, f (set_c_canceled true k) = f k) → ∀ y, f <$> m !! y = f <$> w_ctx w !! y).
  { intros A f Hf y. unfold m. destruct (decide (x = y)) as [<-|]; [|by rewrite lookup_insert_ne].
    rewrite lookup_insert_eq, Hx. simpl. by rewrite Hf. }
  assert (Hb : ∀ (f : cmt_context → ptr), (∀ k, f (set_c_canceled true k) = f k) → ∀ y, m !! y ≫= f = w_ctx w !! y ≫= f).
  { intros f Hf' y. specialize (Hf _ f Hf' y). by destruct (m !! y), (w_ctx w !! y); simplify_eq/=. }
  assert (Hal : ∀ y, is_Some (m !! y) ↔ is_Some (w_ctx w !! y)).
  { intros y. specialize (Hf _ (λ _, tt) (λ _, eq_refl) y).
    destruct (m !! y), (w_ctx w !! y); simplify_eq/=; split; intros [? ?]; by eauto. }
  assert (Hall : ∀ xs, allocated (w_ctx w) xs → allocated m xs) by (intros xs Hxs y Hy; by apply Hal, Hxs).
  split; simpl; fold m; try done; [split; simpl; fold m; try done|by apply Hal|].
  - split; try done; [split_and!; [|done|by apply Hall]|split; [|by apply Hall]| |by apply Hall].
    + eapply lseg_ext; [|exact R1]. intros y _. symmetry. by apply Hb.
    + eapply lseg_ext; [|exact B1]. intros y _. symmetry. by apply Hb.
    + eapply is_heap_ext; [|exact Hh]. intros y z _ _. unfold sleep_priority_less, resume_time_of.
      by rewrite !Hf.
  - intros y Hy. destruct (Hprom y Hy) as (p & k & Hp & Hk). exists p, k. split; [|done].
    unfold prom_of. by rewrite Hb.
  - unfold prom_of in *. intros y z p Hy Hz. rewrite !Hb by done. by apply Hsole.
  - intros y Hy. unfold prom_of in *. rewrite Hb by done. by apply Hslp.
  - intros a Ha'. destruct (m !! a) eqn:Hma; [|done].
    destruct (proj1 (Hal a) ltac:(eauto)) as [? Hw]. by rewrite Hfr in Hw.
Qed.

Lemma running_mod_task w this s r b cur t kt kt' :
  running w this s r b cur → w_task w !! t = Some kt →
  running (set_w_task (<[t := kt']> (w_task w)) w) this s r b cur.
Proof.
  intros [Hinv ? Hsch ? ? ? ? ? ?] Ht. split; try done; [by destruct Hinv; split|].
  intros x Hx%Hsch. simpl. rewrite lookup_insert. by case_decide.
Qed.

Lemma cancel_safely this i p w : well_formed this w → op_ok this (OpCancel p) w →
  wp (run_op this i (OpCancel p)) (safely this) w.
Proof.
  intros (s & r & b & c & Hrun) (k & Hk & Hth). unfold run_op. cbn [start_op]. rewrite !wp_bind.
  assert (Hdone : ∀ w', running w' this s r b c →
    wp (mret None) (λ o w', match o with
      | Ret osw => wp (match osw with Some sw => resumed this i sw | None => mret tt end) (safely this) w'
      | Exc e => safely this (Exc e) w' | Undef u => safely this (Undef u) w' end) w')
    by (intros w' Hw'; rewrite !wp_ret; by eapply safely_at).
  unfold future_cancel, promise_ready. rewrite !wp_bind, wp_get_prom, Hk, wp_ret.
  destruct (_ || _); [rewrite wp_ret; by apply Hdone|].
  unfold promise_cancel. rewrite wp_bind, wp_get_prom, Hk.
  destruct (m_task k) as [t|] eqn:Ht; [|rewrite wp_ret; by apply Hdone].
  destruct (Hth t Ht) as (kt & Hkt & Hact). unfold task_cancel. rewrite wp_bind, wp_get_task, Hkt.
  destruct (t_prom kt); [|rewrite wp_ret; by apply Hdone]. rewrite wp_bind, wp_mod_task, Hkt.
  pose proof (running_mod_task _ _ _ _ _ _ _ _ (set_t_canceled true kt) Hrun Hkt) as Hrun1.
  destruct (t_active_context kt) as [x|]; [|rewrite wp_ret; by apply Hdone].
  destruct (Hact x eq_refl) as [kx Hkx]. rewrite wp_bind, wp_mod_ctx. simpl. rewrite Hkx, wp_mod_task. simpl.
  rewrite lookup_insert_eq. apply Hdone. eapply running_mod_task; [exact (running_cancel_ctx _ _ _ _ _ _ x kx Hrun1 Hkx)|].
  simpl. by rewrite lookup_insert_eq.
Qed.

Lemma run_op_safely this i op w : well_formed this w → op_ok this op w → wp (run_op this i op) (safely this) w.
Proof.
  intros Hwf Hop. destruct op as [|tp|p tmo| |p r|t f prio|p].
  - destruct Hwf as (s & r & b & c & Hrun). unfold run_op. simpl. rewrite !wp_bind. eapply wp_mono, yield_switches; [|done].
    intros [sw|?|?] w'; try done. intros (r1 & b1 & s1 & w1 & s2 & _ & Hrun' & _). rewrite wp_ret. by eapply resumes_safely.
  - by apply sleep_safely.
  - by apply wait_safely.
  - destruct Hwf as (s & r & b & c & Hrun). unfold run_op. simpl. unfold alloc_prom. wp_steps.
    destruct (running_alloc_prom w this s r b c Hrun) as [Hrun' _]; [apply Hop|]. by eapply safely_at.
  - by apply complete_safely.
  - destruct Hwf as (s & r & b & c & Hrun), Hop as [Ht Hcnt]. unfold run_op. cbn [start_op]. rewrite !wp_bind.
    eapply wp_mono, post_running; [|done..]. intros o w' [Hs ->]. by rewrite !wp_ret.
  - by apply cancel_safely.
Qed.

(** What contexts of the thread do, one operation after the other *)
Inductive sched_step (this : nat) : world T → world T → Prop :=
  | sched_op_step i op w o w' : op_ok this op w → run_op this i op w = (o, w') → sched_step this w w'.

(** ** Properties *)

(** C3: as long as the contexts of a thread use each operation within its precondition
    ([op_ok]: sleeps end in the future, a promise has one waiter and no error when it is
    completed, timeouts do not fall between two looks at the clock, the threads, tasks and
    contexts referred to exist, task numbers do not run out), in whichever order, the thread
    is well formed: its ready and blocked lists, its sleep queue and the promises of its
    waiters fit together. And no operation so used does anything undefined then, whether it
    returns, switches or throws. *)
Theorem thread_stays_well_formed this w w' :
  well_formed this w → rtc (sched_step this) w w' →
  well_formed this w' ∧ ∀ i op, op_ok this op w' → ∀ u, (run_op this i op w').1 ≠ Undef u.
Proof.
  intros Hwf Hsteps. assert (Hwf' : well_formed this w').
  { induction Hsteps as [w|? ? w' [i op w0 o w1 Hok Hrun] _ IH]; [done|]. apply IH.
    pose proof (run_op_safely this i op w0 Hwf Hok) as Hsafe. unfold wp in Hsafe. rewrite Hrun in Hsafe. apply Hsafe. }
  split; [done|]. intros i op Hok. apply (run_op_safely this i op w' Hwf' Hok).
Qed.
End invariant.
