(* ===== verification/Cancel.v ===== *)
(** A context that is canceled stays so, whatever its thread does, and the operation it is
    suspended in throws [task_canceled] once it is switched to (future.cpp, thread.cpp).
    Every operation of the library, the task loop included, keeps the mark. *)
From S2P Require Import Prelude StdHeap World ReadyList TaskQueue Notify Scheduler Blocking Quit Future RunTask ProcessTasks Delivery SchedInvariant.

Section stays.
Context {T : Type} `{!Clock} `{!HeapAlgo nat}.
Abbreviation C := (M (world T) exn).
Implicit Types (w : world T).

(** The context [c] exists and is canceled. *)
Definition marked (c : nat) w : Prop := c < w_fresh w ∧ is_canceled w c.

Definition stays {A} (c : nat) (m : C A) : Prop := ∀ w, marked c w → marked c (m w).2.

Variable c : nat.

Lemma stays_bind {A B} (m : C A) (k : A → C B) : stays c m → (∀ a, stays c (k a)) → stays c (a ← m; k a).
Proof.
  intros Hm Hk w Hw. specialize (Hm w Hw). unfold mbind, M_bind.
  destruct (m w) as [[a|e|u] w']; [by apply Hk|done..].
Qed.

Lemma stays_read {A} (m : C A) : (∀ w, (m w).2 = w) → stays c m.
Proof. intros Hm w Hw. by rewrite Hm. Qed.

(** An operation that touches neither the contexts nor the allocator's place *)
Lemma stays_frame {A} (m : C A) : (∀ w, w_ctx (m w).2 = w_ctx w ∧ w_fresh w ≤ w_fresh (m w).2) → stays c m.
Proof.
  intros Hm w [Hlt Hc]. destruct (Hm w) as [Hctx Hf]. unfold marked, is_canceled. rewrite Hctx.
  split; [lia|done].
Qed.

Lemma stays_ret {A} (a : A) : stays c (mret a).
Proof. by apply stays_read. Qed.
Lemma stays_throw {A} (e : exn) : stays (A := A) c (throw e).
Proof. by apply stays_read. Qed.
Lemma stays_undef {A} u : stays (A := A) c (undef u).
Proof. by apply stays_read. Qed.
Lemma stays_gets {A} (f : world T → A) : stays c (gets f).
Proof. by apply stays_read. Qed.
Lemma stays_self : stays c (self : C _).
Proof. by apply stays_read. Qed.
Lemma stays_get_ctx x : stays c (get_ctx x : C _).
Proof. apply stays_read. intros w. unfold get_ctx. by case_match. Qed.
Lemma stays_get_prom x : stays c (get_prom x : C _).
Proof. apply stays_read. intros w. unfold get_prom. by case_match. Qed.
Lemma stays_get_task x : stays c (get_task x : C _).
Proof. apply stays_read. intros w. unfold get_task. by case_match. Qed.
Lemma stays_get_thr x : stays c (get_thr x : C _).
Proof. apply stays_read. intros w. unfold get_thr. by case_match. Qed.
Lemma stays_deref (p : ptr) : stays c (deref p : C nat).
Proof. destruct p; by apply stays_read. Qed.
Lemma stays_check b : stays c (check b : C _).
Proof. destruct b; by apply stays_read. Qed.
Lemma stays_mod_prom x f : stays c (mod_prom x f : C _).
Proof. apply stays_frame. intros w. unfold mod_prom. by case_match. Qed.
Lemma stays_mod_task x f : stays c (mod_task x f : C _).
Proof. apply stays_frame. intros w. unfold mod_task. by case_match. Qed.
Lemma stays_mod_thr x f : stays c (mod_thr x f : C _).
Proof. apply stays_frame. intros w. unfold mod_thr. by case_match. Qed.
Lemma stays_now : stays c (now : C _).
Proof. by apply stays_frame. Qed.
Lemma stays_fresh : stays c (fresh : C _).
Proof. apply stays_frame. intros w. simpl. split; [done|lia]. Qed.
Lemma stays_modify f : (∀ w, w_ctx (f w) = w_ctx w ∧ w_fresh w ≤ w_fresh (f w)) → stays c (modify f).
Proof. intros Hf. apply stays_frame. intros w. apply Hf. Qed.
Lemma stays_when b (m : C unit) : stays c m → stays c (when b m).
Proof. intros Hm. by destruct b; [|apply stays_ret]. Qed.
Lemma stays_catch {A} (m : C A) h : stays c m → (∀ e, stays c (h e)) → stays c (catch m h).
Proof.
  intros Hm Hh w Hw. specialize (Hm w Hw). unfold catch. destruct (m w) as [[a|e|u] w']; [done|by apply Hh|done].
Qed.

(** Contexts are changed in every field but the mark, ... *)
Lemma stays_mod_ctx x f : (∀ k, c_canceled k = true → c_canceled (f k) = true) → stays c (mod_ctx x f : C _).
Proof.
  intros Hf w [Hlt Hc]. unfold mod_ctx. destruct (w_ctx w !! x) as [k|] eqn:Hk; [|done].
  split; [done|]. unfold is_canceled in *. simpl. destruct (decide (x = c)) as [->|].
  - rewrite Hk in Hc. rewrite lookup_insert_eq. simpl in *. injection Hc as Hc. by rewrite Hf.
  - by rewrite lookup_insert_ne.
Qed.

(** ... and new ones get addresses of their own. *)
Lemma stays_alloc_ctx : stays c (alloc_ctx : C _).
Proof.
  intros w [Hlt Hc]. split; simpl; [lia|]. unfold is_canceled. simpl. by rewrite lookup_insert_ne by lia.
Qed.
End stays.

Create HintDb stays.
#[export] Hint Resolve stays_ret stays_throw stays_undef stays_gets stays_self stays_get_ctx stays_get_prom
  stays_get_task stays_get_thr stays_deref stays_check stays_mod_prom stays_mod_task stays_mod_thr stays_now
  stays_fresh stays_alloc_ctx : stays.

Ltac solve_stays :=
  repeat first
    [ progress intros
    | solve [eauto with stays]
    | apply stays_bind
    | apply stays_when
    | apply stays_catch
    | solve [apply stays_mod_ctx; simpl; done]
    | solve [apply stays_modify; intros ?; simpl; split; [done|lia]]
    | case_match ].

(** ** The operations keep the mark. *)

Section library.
Context {T : Type} `{!Clock} `{!HeapAlgo nat}.
Abbreviation C := (M (world T) exn).
Variable c : nat.

Lemma stays_ready_push_front t x : stays (T := T) c (ready_push_front t x).
Proof. unfold ready_push_front. solve_stays. Qed.
Lemma stays_ready_push_back t x : stays (T := T) c (ready_push_back t x).
Proof. unfold ready_push_back. solve_stays. Qed.
Lemma stays_ready_pop_front t : stays (T := T) c (ready_pop_front t).
Proof. unfold ready_pop_front. solve_stays. Qed.
Lemma stays_add_to_blocked t x : stays (T := T) c (add_to_blocked t x).
Proof. unfold add_to_blocked. solve_stays. Qed.
#[local] Hint Resolve stays_ready_push_front stays_ready_push_back stays_ready_pop_front stays_add_to_blocked : stays.

Lemma stays_async_fn t f prio : stays (T := T) c (async_fn t f prio).
Proof. unfold async_fn, new_task, async_task. solve_stays. Qed.
Lemma stays_promise_ready p : stays (T := T) c (promise_ready p).
Proof. unfold promise_ready. solve_stays. Qed.
#[local] Hint Resolve stays_async_fn stays_promise_ready : stays.

Lemma stays_notify_loop fuel this p pb cb : stays (T := T) c (notify_loop fuel this p pb cb).
Proof.
  revert pb cb. induction fuel as [|fuel IH]; intros pb [x|]; cbn [notify_loop]; unfold blocked_unlink; solve_stays.
Qed.
#[local] Hint Resolve stays_notify_loop : stays.
Lemma stays_thread_notify this p : stays (T := T) c (thread_notify this p).
Proof. unfold thread_notify, notify_sleep. solve_stays. Qed.
#[local] Hint Resolve stays_thread_notify : stays.
Lemma stays_set_exception p e : stays (T := T) c (set_exception p e).
Proof. unfold set_exception, promise_notify. solve_stays. Qed.
Lemma stays_set_value p (v : T) : stays c (set_value p v).
Proof. unfold set_value, promise_notify. solve_stays. Qed.
#[local] Hint Resolve stays_set_exception stays_set_value : stays.

Lemma stays_timeouts_loop fuel this n : stays (T := T) c (timeouts_loop fuel this n).
Proof. induction fuel as [|fuel IH]; cbn [timeouts_loop]; solve_stays. Qed.
#[local] Hint Resolve stays_timeouts_loop : stays.
Lemma stays_check_for_timeouts this : stays (T := T) c (check_for_timeouts this).
Proof. unfold check_for_timeouts, next_timeout. solve_stays. Qed.
Lemma stays_ensure_current this : stays (T := T) c (ensure_current this).
Proof. unfold ensure_current. solve_stays. Qed.
#[local] Hint Resolve stays_check_for_timeouts stays_ensure_current : stays.
Lemma stays_start_next_task this b : stays (T := T) c (start_next_task this b).
Proof. unfold start_next_task, jump_from. solve_stays. Qed.
Lemma stays_start_next_task_resume this prev : stays (T := T) c (start_next_task_resume this prev).
Proof. unfold start_next_task_resume. solve_stays. Qed.
#[local] Hint Resolve stays_start_next_task stays_start_next_task_resume : stays.

Lemma stays_future_cancel f : stays (T := T) c (future_cancel f).
Proof. unfold future_cancel, promise_cancel, task_cancel. solve_stays. Qed.
#[local] Hint Resolve stays_future_cancel : stays.

Lemma stays_start_op this op : stays (T := T) c (start_op this op).
Proof.
  destruct op; unfold start_op, yield, sleep_until, wait, sleep_push, enqueue_thread, alloc_prom, complete; solve_stays.
Qed.
Lemma stays_run_op this i op : stays (T := T) c (run_op this i op).
Proof.
  unfold run_op. apply stays_bind; [apply stays_start_op|]. intros [sw|]; [|solve_stays].
  unfold resumed, sleep_until_resume, wait_resume. solve_stays.
Qed.

(** *** The task loop, if the functions it runs do *)

Lemma stays_enqueue_loop fuel this n x : stays (T := T) c (enqueue_loop fuel this n x).
Proof. revert x. induction fuel as [|fuel IH]; intros [x|]; cbn [enqueue_loop]; solve_stays. Qed.
#[local] Hint Resolve stays_enqueue_loop : stays.
Lemma stays_dequeue this : stays (T := T) c (dequeue this).
Proof. unfold dequeue, dequeue_next, dequeue_ready, enqueue. solve_stays. Qed.
#[local] Hint Resolve stays_dequeue : stays.

Lemma stays_quit this : stays (T := T) c (quit this).
Proof.
  assert (Hb : ∀ fuel x, stays (T := T) c (quit_blocked fuel x))
    by (induction fuel as [|fuel IH]; intros [x|]; cbn [quit_blocked]; solve_stays).
  assert (Hr : ∀ fuel x, stays (T := T) c (quit_ready fuel x))
    by (induction fuel as [|fuel IH]; intros [x|]; cbn [quit_ready]; solve_stays).
  assert (Hs : ∀ l, stays (T := T) c (quit_sleep this l))
    by (induction l as [|x l IH]; cbn [quit_sleep]; solve_stays).
  unfold quit. solve_stays.
Qed.
#[local] Hint Resolve stays_quit : stays.

Lemma stays_pt_step user (void_t : T) this pt : (∀ id, stays c (user id)) → stays c (pt_step user void_t this pt).
Proof.
  intros Hu. destruct pt as [next|[t|] tt'|tt'|prev tt'|tt']; cbn [pt_step];
    unfold pt_run_task, pt_task_done, task_run, rtask_run, vtask_run, call, task_release, delete_rtask; solve_stays.
Qed.
End library.

(** * Canceling a future whose task is running *)

Section cancel.
Context {T : Type} `{!Clock} `{!HeapAlgo nat}.
Abbreviation C := (M (world T) exn).
Implicit Types (w : world T).

(** The functions that tasks run; like the library, they do not clear the mark. *)
Variable user : nat → C T.
Variable void_t : T.
Hypothesis (Huser : ∀ id c, stays c (user id)).

(** What may happen on the thread: an operation of a context, used in whichever way, or a
    step of the task loop *)
Inductive happens (this : nat) : world T → world T → Prop :=
  | happens_op i op w : happens this w (run_op this i op w).2
  | happens_loop pt w : happens this w (pt_step user void_t this pt w).2.

Lemma happens_stays this c w w' : rtc (happens this) w w' → marked c w → marked c w'.
Proof.
  induction 1 as [|w0 w1 w2 Hstep _ IH]; [done|]. intros Hm. apply IH.
  destruct Hstep; [by apply stays_run_op|by apply stays_pt_step].
Qed.

(** The thread of a switch is there. *)
Lemma mod_thr_ret t f w w' : mod_thr t f w = (Ret tt, w') → is_Some (w_thr w' !! t).
Proof.
  unfold mod_thr. destruct (w_thr w !! t); [|done]. intros [= <-]. simpl. rewrite lookup_insert_eq. eauto.
Qed.

Lemma jump_from_thr this cur b w sw w' : jump_from this cur b w = (Ret sw, w') → is_Some (w_thr w' !! this).
Proof.
  unfold jump_from. intros Hj. apply ret_bind in Hj as (s & w1 & _ & Hj).
  destruct (ready_head s); ret_inv Hj; injection Hj as <- <-; repeat match goal with u : () |- _ => destruct u end;
    eapply mod_thr_ret; eassumption.
Qed.

Lemma start_next_task_thr this b w sw w' : start_next_task this b w = (Ret sw, w') → is_Some (w_thr w' !! this).
Proof.
  unfold start_next_task. intros Hs. do 2 apply ret_bind in Hs as (? & ? & _ & Hs). by eapply jump_from_thr.
Qed.

Lemma start_op_thr this (op : sched_op T) w sw w' :
  start_op this op w = (Ret (Some sw), w') → is_Some (w_thr w' !! this).
Proof.
  destruct op; cbn [start_op]; intros Hs;
    [| |apply ret_bind in Hs as (u & w1 & _ & Hs)|by apply ret_bind in Hs as (? & ? & _ & Hs)..].
  - apply ret_bind in Hs as (x & w1 & Hy & [= -> ->]). by eapply start_next_task_thr.
  - apply ret_bind in Hs as (x & w1 & Hy & [= -> ->]). unfold sleep_until in Hy.
    apply ret_bind in Hy as (s & w2 & _ & Hy). destruct (th_done s); [done|].
    do 6 apply ret_bind in Hy as (? & ? & _ & Hy). by eapply start_next_task_thr.
  - unfold wait in Hs. do 2 apply ret_bind in Hs as (? & ? & _ & Hs).
    apply ret_bind in Hs as ([|] & w2 & _ & Hs); [done|].
    apply ret_bind in Hs as (n & w3 & _ & Hs). case_bool_decide; [done|].
    do 4 apply ret_bind in Hs as (? & ? & _ & Hs). apply ret_bind in Hs as (sw0 & w4 & Hy & [= -> ->]).
    by eapply start_next_task_thr.
Qed.

(** A canceled context that is switched to throws, whatever it was suspended in. *)
Lemma resumed_throws this i sw w :
  marked (sw_next sw) w → sw_new sw = false → is_Some (w_thr w !! this) →
  (resumed this i sw w).1 = Exc task_canceled.
Proof.
  intros [_ Hc] Hnew [s Hs]. unfold is_canceled in Hc.
  destruct (w_ctx w !! sw_next sw) as [k|] eqn:Hk; [|done]. simpl in Hc. injection Hc as Hc.
  assert (Hr : ∃ w', start_next_task_resume this (sw_next sw) w = (Exc task_canceled, w')).
  { eexists. unfold start_next_task_resume, mbind, M_bind, mod_thr. rewrite Hs. unfold get_ctx. simpl. by rewrite Hk, Hc. }
  destruct Hr as [w' Hr]. unfold resumed. rewrite Hnew.
  destruct i; unfold sleep_until_resume, wait_resume, mbind, M_bind; by rewrite Hr.
Qed.

(** The future's task is marked, forgets its context, and that context is marked. *)
Lemma cancel_marks w p k t kt c kc :
  w_prom w !! p = Some k → ¬ is_ready w p → m_task k = Some t → w_task w !! t = Some kt → t_prom kt = Some p →
  t_active_context kt = Some c → w_ctx w !! c = Some kc → c < w_fresh w →
  wp (future_cancel (Some p)) (returns (λ _ w', marked c w' ∧ ∃ kt', w_task w' !! t = Some kt' ∧
    t_canceled kt' = true ∧ t_active_context kt' = None)) w.
Proof.
  intros Hk Hnr Hkt Ht Hp Hact Hkc Hlt. unfold future_cancel, promise_ready.
  rewrite !wp_bind, wp_get_prom, Hk, wp_ret.
  assert (bool_decide (is_Some (m_error k)) || bool_decide (m_value k ≠ None) = false) as ->.
  { apply orb_false_iff. split; apply bool_decide_eq_false; intros Hr; apply Hnr; exists k; eauto. }
  unfold promise_cancel, task_cancel. rewrite wp_bind, wp_get_prom, Hk, Hkt. wp_steps. rewrite Hp. wp_steps.
  rewrite Hact. wp_steps. split.
  - split; [done|]. unfold is_canceled. simpl. by rewrite lookup_insert_eq.
  - eexists. split; [done|]. done.
Qed.

(** ** Properties *)

(** C34: canceling a future that is not ready yet, whose task runs on the context [c], from
    that context or from another while the task is suspended, marks [c] for good: whatever
    the contexts of the thread and its loop do afterwards, the operation that switches back
    to [c] ends there with [task_canceled], whether [c] was suspended in a yield, a sleep or
    a wait. The task is canceled too, and forgets the context. *)
Theorem canceled_context_throws this w p k t kt c kc :
  w_prom w !! p = Some k → ¬ is_ready w p → m_task k = Some t → w_task w !! t = Some kt → t_prom kt = Some p →
  t_active_context kt = Some c → w_ctx w !! c = Some kc → c < w_fresh w →
  wp (future_cancel (Some p)) (returns (λ _ w1,
    (∃ kt', w_task w1 !! t = Some kt' ∧ t_canceled kt' = true ∧ t_active_context kt' = None) ∧
    ∀ w2 i op sw w3, rtc (happens this) w1 w2 →
      start_op this op w2 = (Ret (Some sw), w3) → sw_next sw = c → sw_new sw = false →
      (run_op this i op w2).1 = Exc task_canceled)) w.
Proof.
  intros Hk Hnr Hkt Ht Hp Hact Hkc Hlt. eapply wp_mono, cancel_marks; [|done..].
  intros [[]|?|?] w1; try done. intros [Hm Htask]. split; [done|].
  intros w2 i op sw w3 Hsteps Hstart <- Hnew. pose proof (happens_stays _ _ _ _ Hsteps Hm) as Hm2.
  pose proof (stays_start_op (sw_next sw) this op w2 Hm2) as Hm3. rewrite Hstart in Hm3.
  unfold run_op, mbind, M_bind. rewrite Hstart. apply resumed_throws; [done..|]. by eapply start_op_thr.
Qed.
End cancel.
