(* ===== verification/Sync.v ===== *)
(** Synchronous calls: [thread::sync<T>] and the free functions [sync] (thread.hpp).
    The promise and the task of such a call are [stack_retainable] objects of the
    caller's frame. They end with the frame, whatever the counts say. The call is cut,
    like every wait, at the context switch. Shown: on its own thread it amounts to the
    call of the function; from another thread the frame may end while the task that
    lives in it still runs, or, after a timeout, is still posted. *)
From S2P Require Import Prelude StdHeap World ReadyList TaskQueue Notify Scheduler Blocking Quit Future RunTask ProcessTasks Delivery Calls.

Section ops.
Context {T : Type} `{!Clock} `{!HeapAlgo nat}.
Abbreviation C := (M (world T) exn).

(** The destructors of [tsk] and [prom] *)
Definition frame_ends (p t : nat) : C unit :=
  delete_rtask t;;
  modify (λ w, set_w_task (delete t (w_task w)) w);;
  modify (λ w, set_w_prom (delete p (w_prom w)) w).

(** The frame stays for as long as its context is blocked in [m]. *)
Definition in_frame (p t : nat) (m : C (waited T)) : C (waited T) := λ w,
  match m w with
  | (Ret (Blocked sw), w') => (Ret (Blocked sw), w')
  | (Ret (Value v), w') => (frame_ends p t;; mret (Value v)) w'
  | (Exc e, w') => (frame_ends p t;; throw e) w'
  | r => r
  end.

(** What the overloads of [sync] share: promise and task, [n] calls of [retain] on the
    task, and the wait up to the switch *)
Definition sync_with (this : nat) (f : functor) (prio : C Z) (n : nat) (timeout_us : Z) :
    C (nat * nat * waited T) :=
  pt ← post_rtask this f time_point_min prio n;
  wt ← in_frame pt.1 pt.2 (promise_wait pt.1 timeout_us);
  mret (pt, wt).

(** [thread::sync<T>( t, prio, timeout_us, n )], [thread::sync<T>( t, timeout_us, n )] and
    [thread::sync] of a function without a result *)
Definition sync_prio (this : nat) (f : functor) (prio timeout_us : Z) : C (nat * nat * waited T) :=
  sync_with this f (at_least this prio) 1 timeout_us.
Definition sync (this : nat) (f : functor) (timeout_us : Z) : C (nat * nat * waited T) :=
  sync_with this f (current_priority this) 2 timeout_us.
Definition sync_void (this : nat) (f : functor) (timeout_us : Z) : C (nat * nat * waited T) :=
  sync_with this f (current_priority this) 1 timeout_us.

(** ... once the context [prev] that called it is jumped back to. *)
Definition sync_resume (this prev p t : nat) : C T :=
  finally (promise_wait_resume this prev p) (frame_ends p t).

(** The free functions, on the current thread *)
Definition cmt_sync_named (f : functor) (prio timeout_us : Z) : C (nat * nat * waited T) :=
  me ← self; sync_prio me f prio timeout_us.
Definition cmt_sync_prio (f : functor) (prio timeout_us : Z) : C (nat * nat * waited T) :=
  me ← self; pr ← at_least me prio; sync_prio me f pr timeout_us.
Definition cmt_sync (f : functor) (timeout_us : Z) : C (nat * nat * waited T) :=
  me ← self; pr ← current_priority me; sync_prio me f pr timeout_us.
End ops.

Section dead.
Context {T : Type} `{!Clock} `{HeapSpec nat}.
Implicit Types (w : world T).

(** ** A task whose frame is gone *)

Lemma enqueue_loop_hole fuel w this s n cur m t xs1 xs2 :
  w_thr w !! this = Some s → w_task w = delete t m → chain (t_next_of m) cur (xs1 ++ t :: xs2) →
  t ∉ xs1 → (∀ x, x ∈ xs1 → is_Some (m !! x)) → length xs1 < fuel →
  (enqueue_loop fuel this n cur w).1 = Undef BadPointer.
Proof.
  revert w s cur xs1. induction fuel as [|fuel IH]; intros w s cur xs1 Hs Hm Hc Ht Ha Hf; [lia|].
  destruct xs1 as [|x xs1]; simpl in Hc.
  { destruct Hc as [-> _]. simpl. unfold mbind at 1, M_bind at 1, get_task. by rewrite Hm, lookup_delete_eq. }
  destruct Hc as [-> Hc]. destruct (Ha x ltac:(by left)) as [k Hk].
  assert (Hx : w_task w !! x = Some k) by (rewrite Hm, lookup_delete_ne; [done|]; set_solver).
  replace (t_next_of m x) with (t_next k) in Hc by (unfold t_next_of; by rewrite Hk).
  change ((enqueue_loop (S fuel) this n (Some x) w).1 = Undef BadPointer).
  assert (Hloop : ∀ s' w', w_thr w' !! this = Some s' → w_task w' = w_task w →
    (enqueue_loop fuel this n (t_next k) w').1 = Undef BadPointer).
  { intros s' w' Hs' Hw'. eapply (IH w' s' _ xs1); try done; [by rewrite Hw'|set_solver| |simpl in Hf; lia].
    intros y Hy. apply Ha. by right. }
  cbn [enqueue_loop]. rewrite (bind_run _ _ w w (Ret k)) by (unfold get_task; by rewrite Hx).
  rewrite (bind_run _ _ w w (Ret (w_task w))) by done.
  case_bool_decide; unfold mbind at 1, M_bind at 1, mod_thr; rewrite Hs;
    (eapply Hloop; [apply lookup_insert_eq|done]).
Qed.

Lemma dequeue_hole w this s m xs t :
  w_thr w !! this = Some s → queue_rep m s xs → t ∈ xs → w_task w = delete t m →
  (dequeue this w).1 = Undef BadPointer.
Proof.
  intros Hs Hq Ht Hm. pose proof (chain_NoDup _ _ _ (qr_chain _ _ _ Hq)) as Hnd.
  apply list_elem_of_split in Ht as (xs1 & xs2 & ->).
  apply NoDup_app in Hnd as (Hnd & Hd & _).
  assert (Ht : t ∉ xs1) by (intros Hin; apply (Hd _ Hin); by left).
  assert (Hne : bool_decide (task_in_queue s ≠ None) = true).
  { apply bool_decide_eq_true_2. intros Hn. pose proof (qr_chain _ _ _ Hq) as Hc. rewrite Hn in Hc.
    by destruct xs1; destruct Hc. }
  assert (Ha : ∀ x, x ∈ xs1 → is_Some (m !! x)).
  { intros x Hx. apply (qr_alloc _ _ _ Hq). set_solver. }
  unfold dequeue. rewrite (bind_run _ _ w w (Ret s)) by (unfold get_thr; by rewrite Hs).
  unfold mbind at 1, M_bind at 1, mod_thr. rewrite Hs, Hne. unfold when, enqueue.
  unfold mbind at 1, M_bind at 1. unfold mbind at 1, M_bind at 1, now.
  unfold mbind at 1, M_bind at 1, gets.
  match goal with |- context [enqueue_loop ?f this ?n ?c ?w1] =>
    assert (He : (enqueue_loop f this n c w1).1 = Undef BadPointer) end.
  { eapply (enqueue_loop_hole _ _ _ _ _ _ m t xs1 xs2);
      [apply lookup_insert_eq|done|apply Hq|done|done|].
    apply le_n_S. simpl. rewrite Hm. apply NoDup_keys_size; [done|].
    intros x Hx. rewrite lookup_delete_ne; [by apply Ha|]. set_solver. }
  by destruct (enqueue_loop _ _ _ _ _) as [[?|?|?] ?]; simplify_eq/=.
Qed.

End dead.

Section sync.
Context {T : Type} `{!Clock} `{HeapSpec nat}.
Implicit Types (w : world T).
Variable user : nat → M (world T) exn T.
Variable void_t : T.

(** ** The end of the frame *)

(** The objects of the frame, and that they know each other *)
Definition in_store w p t : Prop :=
  (∃ kt, w_task w !! t = Some kt ∧ t_prom kt = Some p) ∧ is_Some (w_prom w !! p).

Lemma frame_ends_run w p t :
  in_store w p t →
  frame_ends p t w = (Ret tt, set_w_prom (delete p (w_prom w)) (set_w_task (delete t (w_task w)) w)).
Proof.
  intros [(kt & Ht & Hp) [k Hk]]. apply wp_run. unfold frame_ends, delete_rtask. wp_steps.
  rewrite Hp. wp_steps. by rewrite delete_insert_eq.
Qed.

Lemma sync_resume_spec w this c p t (Q : outcome exn T → world T → Prop) :
  wp (promise_wait_resume this c p) (λ o w', in_store w' p t ∧
    match o with
    | Undef u => False
    | _ => Q o (set_w_prom (delete p (w_prom w')) (set_w_task (delete t (w_task w')) w'))
    end) w →
  wp (sync_resume this c p t) Q w.
Proof.
  intros Hw. unfold sync_resume. rewrite wp_finally. eapply wp_mono, Hw.
  intros [v|e|u] w' [Hin HQ]; [..|done]; by eapply wp_eq; [apply frame_ends_run|].
Qed.

(** ** A synchronous call from another thread *)

(** The waiter's frame ends in the store its wait ends in. *)
Lemma delivered_frame_ends w w2 this s b cur p k c (r : exn + T) t t' kt :
  running (set_w_self this w) this s [] b cur → idle s → th_done s = false →
  w_prom w !! p = Some k → m_error k = None → c ∈ b → prom_of (w_ctx w) c = Some p →
  c_canceled <$> w_ctx w !! c = Some false → (∀ i, time_point_min ≤ now_at i)%Z →
  delivered_to w w2 this s t p k r →
  w_task w2 !! t' = Some kt → t_prom kt = Some p →
  wp (pt_steps user void_t 8 this (PtWhile None)) (returns (λ e w', ∃ pt,
    e = Jump (Switch cur c false) pt ∧
    wp (sync_resume this c p t') (λ o w'', o = match r with
      | inr v => Ret v
      | inl ex => Exc ex
      end ∧ w_task w'' !! t' = None ∧ w_prom w'' !! p = None) w')) w2.
Proof.
  intros Hrun Hidle Hd Hk He Hcb Hp Hcan Hclk Hdel Ht' Hp'.
  pose proof (dt_task _ _ _ _ _ _ _ _ Hdel) as (kn & Hkn & _ & _ & Hpn & _).
  assert (Hne : t' ≠ t) by congruence.
  eapply wp_mono, loop_delivers; [|done..].
  intros [e|?|?] w'; try done. intros (_ & Hpr & Htk & pt & -> & Hres).
  exists pt. split; [done|]. apply sync_resume_spec. eapply wp_mono, Hres.
  intros o w'' (-> & _ & Htk'' & Hpp). split.
  - split; [|done]. exists kt. by rewrite Htk'', Htk, lookup_delete_ne.
  - destruct r; simpl; by rewrite !lookup_delete_eq.
Qed.

(** ** A synchronous call on the caller's own thread, from its start to its return *)

Definition to_return (this : nat) (m : M (world T) exn (nat * nat * waited T)) : M (world T) exn T :=
  ptw ← m;
  match ptw.2 with
  | Value v => mret v
  | Blocked sw => blocked_until user void_t this sw (sync_resume this (sw_prev sw) ptw.1.1 ptw.1.2)
  end.

Lemma wp_in_frame_blocked (m : M (world T) exn (waited T)) p t Q w :
  wp m (returns (λ wt w', ∃ sw, wt = Blocked sw ∧ Q (Ret wt) w')) w → wp (in_frame p t m) Q w.
Proof.
  unfold wp, in_frame, returns. destruct (m w) as [[[v|sw']|?|?] w']; simpl; naive_solver.
Qed.

(** The caller's frame ends when its context is back. *)
Lemma resume_ends_frame w this s r' b c p t k kt (r : exn + T) :
  running w this s r' b c → c_canceled <$> w_ctx w !! c = Some false →
  w_prom w !! p = Some (settle r k) → m_error k = None → w_task w !! t = Some kt → t_prom kt = Some p →
  wp (sync_resume this c p t) (λ o w', o = match r with inr v => Ret v | inl ex => Exc ex end ∧
    w_prom w' = delete p (w_prom w) ∧ w_task w' = delete t (w_task w)) w.
Proof.
  intros Hrun Hcan Hp He Ht Hpr. apply sync_resume_spec. eapply wp_mono, resume_with_outcome; [|done..].
  intros o w' (-> & _ & Htk & Hin & Hdel). split.
  - split; [|done]. exists kt. by rewrite Htk.
  - destruct r; simpl; by rewrite Hdel, Htk.
Qed.

Lemma sync_with_returns w this s b cur id r prio z n :
  running w this s [] b cur → idle s → th_done s = false → c_canceled <$> w_ctx w !! cur = Some false →
  in_int64 (w_task_count w + 1) = true →
  (∀ a, w_fresh w ≤ a → w_task w !! a = None) → w_prom w !! w_fresh w = None →
  (∀ i, time_point_min ≤ now_at i)%Z → (now_at (w_ticks w) ≤ time_point_max)%Z →
  (∀ w1, w_thr w1 = w_thr w → w_ctx w1 = w_ctx w → prio w1 = (Ret z, w1)) → n ≠ 0 →
  pure_fn user id r →
  wp (to_return this (sync_with this (UserFn id) prio n microseconds_max)) (λ o w',
    o = (user id w).1 ∧ w_prom w' = w_prom w ∧ w_task w' = w_task w) w.
Proof.
  intros Hrun Hidle Hd Hcan Hcnt Hfr Hp Hclk Hnow Hprio Hn Hu.
  pose proof (ti_thr _ _ _ _ _ (ru_inv _ _ _ _ _ _ Hrun)) as Hthr.
  unfold to_return, sync_with. rewrite !wp_bind.
  eapply wp_mono, (post_rtask_spec w this s [] (UserFn id) time_point_min prio z n); try done; [|by apply idle_queue_rep].
  intros [[p t]|?|?] w1; try done. intros ([= -> ->] & s1 & Hpo). simpl in *. rewrite wp_bind.
  destruct (posted_call _ _ _ _ _ _ _ _ _ _ Hidle Hpo) as ((kt & Hcp & Htk & Hrf) & Hpr & Hsq & Hsl & Hd1).
  destruct (posted_running _ _ _ _ _ _ _ _ _ _ _ _ _ Hrun Hidle Hpo Hp) as [Hrun1 Hnone].
  destruct Hpo as [_ _ _ _ _ Hc1 _ Htk1 _].
  apply wp_in_frame_blocked.
  eapply wp_mono, (wait_for_call user void_t w1 this s1 b cur _ _ kt _ id r);
    try done; [|congruence|by rewrite Hc1|by rewrite Htk1].
  intros [wt|?|?] w2; try done. intros (sw & -> & Hsw & Hgo). exists sw. split; [done|]. rewrite wp_ret. simpl.
  rewrite Hsw. apply Hgo. intros w' (Hcan' & Hac & s' & r' & b' & Hrun'). unfold after_call in Hac.
  rewrite decide_False in Hac by (rewrite Hrf; lia). destruct Hac as (Hp' & kt' & Ht' & Hkt').
  eapply wp_mono, (resume_ends_frame w' this s' r' b' cur _ _ _ kt' r); try done;
    [|by rewrite Hp', lookup_insert_eq|done|by rewrite Ht', lookup_insert_eq].
  intros o w'' (-> & -> & ->). rewrite Hp', Ht', Hpr, Htk, !delete_insert_eq, !delete_id by (done || apply Hfr; lia).
  rewrite Hu. by destruct r.
Qed.

(** ** Properties *)

(** C6: a synchronous call on the caller's own thread amounts to the call of the
    function: its task is posted, the caller is suspended, the new context takes and
    runs the task and switches back, and the call returns the function's value or throws
    its exception, with its promise and its task gone. *)
Theorem sync_on_own_thread_equals_call w this s b cur kc id r prio call :
  call = sync_prio this (UserFn id) prio microseconds_max ∨ call = sync this (UserFn id) microseconds_max ∨
    call = sync_void this (UserFn id) microseconds_max →
  running w this s [] b cur → idle s → th_done s = false →
  w_ctx w !! cur = Some kc → c_canceled kc = false → in_int64 (w_task_count w + 1) = true →
  (∀ a, w_fresh w ≤ a → w_task w !! a = None) → w_prom w !! w_fresh w = None →
  (∀ i, time_point_min ≤ now_at i)%Z → (now_at (w_ticks w) ≤ time_point_max)%Z →
  pure_fn user id r →
  wp (to_return this call) (λ o w',
    o = (user id w).1 ∧ w_prom w' = w_prom w ∧ w_task w' = w_task w) w.
Proof.
  intros Hcall Hrun Hidle Hd Hkc Hcan Hcnt Hfr Hp Hclk Hnow Hu.
  pose proof (ti_thr _ _ _ _ _ (ru_inv _ _ _ _ _ _ Hrun)) as Hthr.
  pose proof (ru_cur _ _ _ _ _ _ Hrun) as Hcur.
  assert (Hprio : ∃ z m n, call = sync_with this (UserFn id) m n microseconds_max ∧ n ≠ 0 ∧
    ∀ w1, w_thr w1 = w_thr w → w_ctx w1 = w_ctx w → m w1 = (Ret z, w1)).
  { destruct Hcall as [->|[->| ->]]; eexists _, _, _; (split; [done|]); (split; [done|]);
      intros w1 Ht Hc.
    - apply (at_least_run w1 this s cur kc); congruence.
    - by apply (current_priority_run w1 this s cur kc); congruence.
    - by apply (current_priority_run w1 this s cur kc); congruence. }
  destruct Hprio as (z & m & n & -> & Hn & Hm).
  eapply sync_with_returns; try done. by rewrite Hkc; simpl; rewrite Hcan.
Qed.

(** When the wait of a synchronous call ends in an exception, as after a timeout,
    while its task is still among the tasks posted to the called thread, the call throws
    and its frame ends; that thread's next look at its tasks goes through the dead task. *)
Theorem failed_sync_leaves_task_posted w this s r' b c p t k kt e target st xs :
  running w this s r' b c → c_canceled <$> w_ctx w !! c = Some false →
  w_prom w !! p = Some k → m_error k = Some e → w_task w !! t = Some kt → t_prom kt = Some p →
  target ≠ this → w_thr w !! target = Some st → queue_rep (w_task w) st xs → t ∈ xs →
  wp (sync_resume this c p t) (λ o w', o = Exc e ∧ (dequeue target w').1 = Undef BadPointer) w.
Proof.
  intros Hrun Hcan Hp He Ht Hpr Hne Hst Hq Hin.
  apply sync_resume_spec. eapply wp_mono, (resume_with_outcome w this s r' b c p (set_m_error None k) (inl e)); try done.
  - intros o w' (-> & Hot & Htk & Hpp & _). split; [|split; [done|]].
    + split; [|done]. exists kt. by rewrite Htk.
    + eapply (dequeue_hole _ target st (w_task w) xs t); [|done|done|by simpl; rewrite Htk].
      simpl. by rewrite (others_lookup _ _ _ target Hot).
  - rewrite Hp. f_equal. unfold settle. rewrite <-He. by destruct k.
Qed.

(** C39: a synchronous call to another thread may return, and its frame end, before the
    called thread is done with the task in that frame: the completion of the promise
    sends the caller the news, the caller's loop takes it and switches to the call,
    which returns with the value or the exception; when the called thread goes on, the
    next thing it does is write to the task. *)
Theorem frame_ends_before_task w this s b cur p k c (r : exn + T) t kt :
  w_self w ≠ this → running (set_w_self this w) this s [] b cur → idle s → th_done s = false →
  w_prom w !! p = Some k → m_error k = None → c ∈ b → prom_of (w_ctx w) c = Some p →
  c_canceled <$> w_ctx w !! c = Some false →
  in_int64 (w_task_count w + 1) = true → w_task w !! w_fresh w = None →
  (∀ i, time_point_min ≤ now_at i)%Z →
  w_task w !! t = Some kt → t_prom kt = Some p →
  wp (complete p r;;
      modify (set_w_self this);;
      pt_steps user void_t 8 this (PtWhile None))
    (returns (λ e w', ∃ pt, e = Jump (Switch cur c false) pt ∧
      wp (sync_resume this c p t) (λ o w'', o = match r with
        | inr v => Ret v
        | inl ex => Exc ex
        end ∧ (pt_task_done t w'').1 = Undef BadPointer) w')) w.
Proof.
  intros Hself Hrun Hidle Hd Hk He Hcb Hp Hcan Hcnt Hfr Hclk Ht Hpr.
  pose proof (ru_inv _ _ _ _ _ _ Hrun) as [Hthr _ Hprom _ _]. simpl in Hthr, Hprom.
  destruct (Hprom c Hcb) as (q & kq & Hq & Hkq & Hbt). simplify_eq.
  rewrite wp_bind. eapply wp_mono, (complete_spec w p this k s []); try done; [|by apply idle_queue_rep].
  intros [[]|?|?] w1; try done. intros Hc.
  assert (Ht1 : w_task w1 !! t = Some kt).
  { destruct Hc as (_ & _ & _ & _ & kn & _ & -> & _). by rewrite lookup_insert_ne by congruence. }
  apply completed_delivered in Hc. rewrite wp_bind, wp_modify.
  eapply wp_mono, (delivered_frame_ends w _ this s b cur p k c r); try done.
  intros [e|?|?] w'; try done. intros (pt & -> & Hres). exists pt. split; [done|].
  eapply wp_mono, Hres. intros o w'' (-> & Hn & _). split; [done|].
  unfold pt_task_done, mbind, M_bind, mod_task. by rewrite Hn.
Qed.
End sync.
