(* ===== verification/Thread.v ===== *)
(** Threads as users get them (thread.cpp): [thread::current], which makes a
    [cmt::thread] for a system thread the first time it is asked, [thread::create],
    which starts a system thread and waits until that has one, names, the free
    functions that act on the current thread, and the conversion of time points
    for timed waits. System threads, their start and the conversion of an address to
    text are Boost's: starting one is recorded. *)
From S2P Require Import Prelude StdHeap World ReadyList TaskQueue Notify Scheduler Blocking Quit Future RunTask ProcessTasks Delivery.

(** A [cmt::thread] and its [thread_private] share one address. *)
Record threads (T : Type) := Threads {
  th_world : world T;
  th_local : gmap nat nat;                   (* static __thread thread* t *)
  th_os : nat;                               (* the system thread that runs *)
  th_started : gmap nat (nat * nat);         (* boost::thread( bind( start_thread, p, n ) ) *)
  th_cstr : gmap nat string;                 (* the strings const char* points to *)
}.
Arguments Threads {T} _ _ _ _ _.
Arguments th_world {T} _.
Arguments th_local {T} _.
Arguments th_os {T} _.
Arguments th_started {T} _.
Arguments th_cstr {T} _.

#[export] Instance threads_world {T} : HasWorld (threads T) T := {
  the_world := th_world;
  put_world w s := Threads w (th_local s) (th_os s) (th_started s) (th_cstr s);
}.

Section ops.
Context {T : Type} `{!Clock} `{!HeapAlgo nat}.
Abbreviation C := (M (threads T) exn).

(** [boost::lexical_cast<std::string>( uint64_t )], and the [thread*] a promise holds *)
Variable lexical_cast : nat → string.
Variable thread_val : nat → T.
Variable val_thread : T → nat.

(** [thread::thread] with [thread_private::thread_private] *)
Definition new_thread : C nat := on_world (
  t ← fresh;
  modify (λ w, set_w_thr (<[t := new_thread_private (lexical_cast t)]> (w_thr w)) w);;
  mret t).

(** [thread::current] *)
Definition thread_current : C nat :=
  s ← gets id;
  match th_local s !! th_os s with
  | Some t => mret t
  | None =>
    t ← new_thread;
    modify (λ s, Threads (set_w_self t (th_world s)) (<[th_os s := t]> (th_local s)) (th_os s)
      (th_started s) (th_cstr s));;
    mret t
  end.

(** [thread::set_name] copies the string; [thread::name], [thread_name]. *)
Definition set_name (t n : nat) : C unit :=
  s ← gets id;
  str ← deref (th_cstr s !! n);
  on_world (mod_thr t (set_th_name str)).

Definition name (t : nat) : C string := k ← on_world (get_thr t); mret (th_name k).
Definition thread_name : C string := t ← thread_current; name t.

(** [thread::set_boost_thread], [thread::is_running] *)
Definition thread_set_boost_thread (t b : nat) : C unit :=
  on_world (mod_thr t (set_boost_thread (Some b))).
Definition is_running (t : nat) : C bool :=
  k ← on_world (get_thr t); mret (bool_decide (current k ≠ None)).

(** [exec], up to the loop's first point *)
Definition exec : C pt_point := t ← thread_current; on_world (pt_enter t).

(** [start_thread], statement by statement *)
Definition start_announce (p : nat) : C unit :=
  t ← thread_current; on_world (set_value p (thread_val t)).
Definition start_name (n : nat) : C unit := t ← thread_current; set_name t n.
Definition start_thread (p n : nat) : C pt_point :=
  start_announce p;; start_name n;; exec.

(** [thread::create], up to its wait, and from the value of the wait on *)
Definition create (n : nat) : C (nat * nat * waited T) :=
  p ← on_world alloc_prom;
  b ← on_world fresh;
  modify (λ s, Threads (th_world s) (th_local s) (th_os s) (<[b := (p, n)]> (th_started s))
    (th_cstr s));;
  thread_current;;
  wt ← on_world (promise_wait p microseconds_max);
  mret (p, b, wt).

Definition create_finish (b ct : nat) : C nat :=
  thread_set_boost_thread ct b;; mret ct.

(** ... once the context [prev] that called it is jumped back to. *)
Definition create_resume (this prev p b : nat) : C nat :=
  v ← on_world (promise_wait_resume this prev p);
  create_finish b (val_thread v).

(** System thread [o] on the processor, and its thread-local [t] the current thread *)
Definition on_processor (o : nat) : C unit :=
  modify (λ s, Threads (match th_local s !! o with
      | Some t => set_w_self t (th_world s)
      | None => th_world s
      end) (th_local s) o (th_started s) (th_cstr s)).

(** The system thread [o] that Boost made for [b] runs the function it was given. *)
Definition boost_thread_runs (o b : nat) : C pt_point :=
  on_processor o;;
  st ← gets th_started;
  pn ← deref (st !! b);
  start_thread pn.1 pn.2.

(** The free functions [async], [yield], [usleep], [sleep_until] and
    [current_priority] *)
Definition cmt_async (f : functor) (prio : Z) : C unit :=
  t ← thread_current; on_world (async_fn t f prio).
Definition cmt_yield : C switch := t ← thread_current; on_world (yield t).
Definition cmt_usleep (us : Z) : C switch := t ← thread_current; on_world (usleep t us).
Definition cmt_sleep_until (tp : Z) : C switch := t ← thread_current; on_world (sleep_until t tp).
Definition cmt_current_priority : C Z := t ← thread_current; on_world (current_priority t).
End ops.

(** ** [to_system_time]

    [boost::posix_time] counts microseconds; only its additions are used. *)

Class Ptime (P : Type) := {
  epoch : P;                                   (* ptime( date( 1970, Jan, 1 ) ) *)
  add_seconds : Z → P → P;
  add_micros : Z → P → P;
}.

Class PtimeSpec (P : Type) `{!Ptime P} := {
  micros : P → Z;                              (* since the epoch *)
  micros_epoch : micros epoch = 0%Z;
  micros_seconds n p : micros (add_seconds n p) = (micros p + 1000000 * n)%Z;
  micros_micros n p : micros (add_micros n p) = (micros p + n)%Z;
}.

(** C++ division and remainder truncate towards zero. *)
Definition to_system_time {P} `{!Ptime P} (t : Z) : P :=
  let d := Z.quot t 1000 in
  add_micros (Z.rem d 1000000) (add_seconds (Z.quot d 1000000) epoch).

(** * Correctness *)

Section thread.
Context {T : Type} `{!Clock} `{HeapSpec nat}.
Implicit Types (s : threads T).
Variable lexical_cast : nat → string.
Variable thread_val : nat → T.
Variable val_thread : T → nat.
Variable user : nat → M (world T) exn T.
Variable void_t : T.

(** Nothing was allocated at the addresses still to come. *)
Definition fresh_above (w : world T) : Prop :=
  ∀ a, w_fresh w ≤ a → w_thr w !! a = None ∧ w_task w !! a = None ∧ w_prom w !! a = None.

(** The store in which the running system thread was given its [cmt::thread]. *)
Definition with_thread s : threads T :=
  let t := w_fresh (th_world s) in
  Threads (set_w_self t (set_w_fresh (S t)
      (set_w_thr (<[t := new_thread_private (lexical_cast t)]> (w_thr (th_world s))) (th_world s))))
    (<[th_os s := t]> (th_local s)) (th_os s) (th_started s) (th_cstr s).

Lemma thread_current_new s :
  th_local s !! th_os s = None →
  thread_current lexical_cast s = (Ret (w_fresh (th_world s)), with_thread s).
Proof. intros Hn. unfold thread_current, mbind, M_bind, gets, id. by rewrite Hn. Qed.

Lemma thread_current_known s t :
  th_local s !! th_os s = Some t → thread_current lexical_cast s = (Ret t, s).
Proof. intros Ht. unfold thread_current, mbind, M_bind, gets, id. by rewrite Ht. Qed.

(** Each system thread has a [cmt::thread] of its own. *)
Definition local_inj s : Prop :=
  (∀ o o' t, th_local s !! o = Some t → th_local s !! o' = Some t → o = o') ∧
  ∀ o t, th_local s !! o = Some t → t < w_fresh (th_world s).

Lemma local_inj_grows s s' :
  th_local s' = th_local s → w_fresh (th_world s) ≤ w_fresh (th_world s') →
  local_inj s → local_inj s'.
Proof.
  intros Hl Hf [H1 H2]. split; rewrite Hl; [done|]. intros o t Ho%H2. lia.
Qed.

(** What the starting thread's first statement does. *)
Lemma start_announce_spec s this p k st xs :
  let t := w_fresh (th_world s) in
  th_local s !! th_os s = None → fresh_above (th_world s) →
  w_prom (th_world s) !! p = Some k → m_error k = None → m_blocked_thread k = Some this →
  w_thr (th_world s) !! this = Some st → queue_rep (w_task (th_world s)) st xs →
  in_int64 (w_task_count (th_world s) + 1) = true →
  wp (start_announce lexical_cast thread_val p) (returns (λ _ s', th_os s' = th_os s ∧
    th_local s' = <[th_os s := t]> (th_local s) ∧ th_cstr s' = th_cstr s ∧
    th_started s' = th_started s ∧
    completed_for p this k st xs (inr (thread_val t)) (th_world (with_thread s)) (th_world s'))) s.
Proof.
  intros t Hn Hfr Hk He Hb Hst Hq Hc.
  assert (Hne : t ≠ this) by (intros Heq; destruct (Hfr t) as [? _]; [done|congruence]).
  unfold start_announce. rewrite wp_bind. eapply wp_eq; [by apply thread_current_new|].
  fold t. rewrite wp_on_world.
  eapply wp_mono, (complete_spec _ p this k st xs (inr (thread_val t))); try done.
  - by intros [[]|?|?] w' Hw'.
  - simpl. fold t. by rewrite lookup_insert_ne.
  - simpl. fold t. by apply Hfr; lia.
Qed.

(** The function [create] starts on a new system thread makes it a [cmt::thread] of
    its own with the given name and its loop about to run, and completes the promise. *)
Lemma start_thread_spec s this p n str k st xs :
  let w := th_world s in let t := w_fresh w in
  th_local s !! th_os s = None → local_inj s → fresh_above w →
  w_prom w !! p = Some k → m_error k = None → m_blocked_thread k = Some this →
  w_thr w !! this = Some st → queue_rep (w_task w) st xs →
  in_int64 (w_task_count w + 1) = true → th_cstr s !! n = Some str →
  wp (start_thread lexical_cast thread_val p n) (returns (λ pt s', pt = PtWhile None ∧
    th_os s' = th_os s ∧ th_local s' = <[th_os s := t]> (th_local s) ∧ local_inj s' ∧
    ∃ w', completed_for p this k st xs (inr (thread_val t)) (th_world (with_thread s)) w' ∧
      th_world s' = set_w_thr (<[t := new_thread_private str]> (w_thr w')) w')) s.
Proof.
  intros w t Hn [Hinj Hlt] Hfr Hk He Hb Hst Hq Hc Hstr. unfold start_thread. rewrite wp_bind.
  eapply wp_mono, (start_announce_spec s this p k st xs); try done.
  intros [[]|?|?] s1; try done. fold w t.
  intros (Hos & Hloc & Hstr1 & _ & Hcompl). pose proof Hcompl as (_ & _ & Hf1 & Ht1 & _).
  simpl in Hf1, Ht1. fold w t in Hf1, Ht1.
  assert (Hne : t ≠ this) by (intros Heq; destruct (Hfr t) as [? _]; [done|congruence]).
  assert (Hcur : th_local s1 !! th_os s1 = Some t) by (by rewrite Hloc, Hos, lookup_insert_eq).
  rewrite wp_bind. unfold start_name. rewrite wp_bind.
  eapply wp_eq; [by apply thread_current_known|].
  unfold set_name. rewrite wp_bind, wp_gets. simpl. rewrite wp_bind, wp_deref, Hstr1, Hstr.
  assert (Hthr1 : w_thr (th_world s1) !! t = Some (new_thread_private (lexical_cast t))).
  { by rewrite Ht1, lookup_insert_ne, lookup_insert_eq. }
  rewrite wp_on_world, wp_mod_thr. simpl. rewrite Hthr1. simpl.
  set (s2 := Threads _ _ _ _ _).
  unfold exec. rewrite wp_bind. eapply wp_eq; [by apply thread_current_known|].
  rewrite wp_on_world. unfold pt_enter. rewrite wp_bind.
  eapply wp_eq; [apply (dequeue_nothing _ t (new_thread_private str)); [apply lookup_insert_eq|done]|].
  rewrite wp_ret. split_and!; [done..| |by exists (th_world s1)].
  split; simpl; rewrite Hloc, ?Hf1.
  - intros o o' t'. rewrite !lookup_insert_Some.
    intros [[<- <-]|[_ Ho]] [[<- Ht']|[_ Ho']]; try done.
    + apply Hlt in Ho'. unfold t, w in Ho'. lia.
    + apply Hlt in Ho. rewrite <-Ht' in Ho. unfold t, w in Ho. lia.
    + by eapply Hinj.
  - intros o t'. rewrite lookup_insert_Some. intros [[_ <-]|[_ Ho]]; [lia|].
    apply Hlt in Ho. fold w t in Ho. lia.
Qed.

(** The store in which the creator's new promise [p] is waited for, before the wait *)
Definition with_create_prom (this : nat) (w : world T) : world T :=
  set_w_fresh (S (S (w_fresh w))) (set_w_prom
    (<[w_fresh w := set_m_blocked_thread (Some this) new_promise]> (w_prom w)) w).

(** [create] in a thread with nothing else to do ends in the wait for its promise. *)
Lemma create_waits s this n st b cur :
  let w := th_world s in let p := w_fresh w in
  th_local s !! th_os s = Some this → fresh_above w →
  running w this st [] b cur → idle st → (now_at (w_ticks w) ≤ time_point_max)%Z →
  wp (create lexical_cast n) (returns (λ r s', r = (p, S p, Blocked (Switch cur (S (S p)) true)) ∧
    th_os s' = th_os s ∧ th_local s' = th_local s ∧ th_cstr s' = th_cstr s ∧
    th_started s' = <[S p := (p, n)]> (th_started s) ∧
    ∃ st', waits_in (with_create_prom this w) (th_world s') this st st' [] (cur :: b) cur p)) s.
Proof.
  intros w p Hthis Hfr Hrun (_ & _ & Hsq & Hsl) Hclk. pose proof Hrun as [[Hthr _ Hprom _ _] Hself _ _ _ _ _ _ _].
  assert (Hp : w_prom w !! p = None) by by apply Hfr.
  unfold create, alloc_prom. wp_steps. rewrite wp_on_world. wp_steps.
  rewrite wp_on_world, wp_fresh. simpl. rewrite wp_bind, wp_modify, wp_bind. simpl.
  eapply wp_eq; [by apply thread_current_known|]. simpl. rewrite wp_bind, wp_on_world. simpl. fold w p.
  set (w1 := set_w_fresh _ _).
  eapply wp_mono, (promise_wait_alone w1 this st b cur p new_promise); try done.
  - intros [wt|?|?] w'; try done. intros (-> & st' & Hw'). rewrite wp_ret.
    split_and!; try done. exists st'. unfold with_waited, with_create_prom in *. simpl in Hw'.
    by rewrite insert_insert_eq in Hw'.
  - eapply running_frame; [exact Hrun|done|exact Hthr|done|exact Hself|apply Hrun|simpl; lia|].
    intros c q kq _ _ Hq. exists kq. split; [|done]. simpl. rewrite lookup_insert_ne; [done|]. congruence.
  - apply lookup_insert_eq.
  - intros x Hx Hxp. destruct (Hprom x Hx) as (q & kq & Hq & Hkq & _). simpl in Hxp. congruence.
Qed.

Lemma fresh_above_waits w w' this st st' b' cur p :
  fresh_above w → w_thr w !! this = Some st →
  waits_in (with_create_prom this w) w' this st st' [] b' cur p → fresh_above w'.
Proof.
  intros Hfr Hthr [_ _ _ _ _ _ Hp Ht _ Hf Hot] a. rewrite Hf, Hp, Ht. simpl. intros Ha.
  destruct (Hfr a) as (H1 & H2 & H3); [lia|]. split_and!; [|done|by rewrite lookup_insert_ne by lia].
  rewrite (others_lookup _ _ _ a Hot); [done|]. intros ->. congruence.
Qed.

(** What Boost's new system thread does is [start_thread] on what [create] gave it. *)
Lemma wp_boost_thread_runs s o b p n Q :
  th_local s !! o = None → th_started s !! b = Some (p, n) →
  wp (boost_thread_runs lexical_cast thread_val o b) Q s ↔
  wp (start_thread lexical_cast thread_val p n) Q
    (Threads (th_world s) (th_local s) o (th_started s) (th_cstr s)).
Proof.
  intros Ho Hb. unfold boost_thread_runs, on_processor.
  by rewrite wp_bind, wp_modify, Ho, wp_bind, wp_gets, wp_bind, wp_deref; simpl; rewrite Hb.
Qed.

(** The creator's thread, back on the processor, has the new thread as the value of [p]. *)
Lemma delivered_new_thread s w' this p k st str :
  let w := th_world s in let t := w_fresh w in
  t ≠ this →
  completed_for p this k st [] (inr (thread_val t)) (th_world (with_thread s)) w' →
  delivered_to w (set_w_self this (set_w_thr (<[t := new_thread_private str]> (w_thr w')) w'))
    this st (S t) p k (inr (thread_val t)).
Proof.
  intros w t Hne (Hp & Hc & Hf & Ht & kt & Hq & Hkt & Hfn & Hwhen & Hpr & Hct). subst t w. simpl in *.
  split; simpl; try done; [lia| |exists kt; by rewrite Hkt, lookup_insert_eq].
  by rewrite lookup_insert_ne, Ht, lookup_insert_eq.
Qed.

(** The creator's system thread [o] back on the processor: the loop of its
    [cmt::thread], then the context that waits in [create] *)
Definition creator_resumes (o this prev p b : nat) : M (threads T) exn (pt_event * nat) :=
  on_processor o;;
  e ← on_world (pt_steps user void_t 8 this (PtWhile None));
  ct ← create_resume val_thread this prev p b;
  mret (e, ct).

Lemma creator_resumes_spec s w1 o this st b c cur p k t kt bt :
  running w1 this st [] b c → idle st → th_done st = false →
  w_prom w1 !! p = Some k → m_error k = None → cur ∈ b → prom_of (w_ctx w1) cur = Some p →
  c_canceled <$> w_ctx w1 !! cur = Some false → (∀ i, time_point_min ≤ now_at i)%Z →
  (∀ t, val_thread (thread_val t) = t) → t ≠ this →
  th_local s !! o = Some this → w_thr (th_world s) !! t = Some kt →
  delivered_to w1 (set_w_self this (th_world s)) this st (S t) p k (inr (thread_val t)) →
  wp (creator_resumes o this cur p bt) (returns (λ r s', ∃ pt,
    r = (Jump (Switch c cur false) pt, t) ∧ th_local s' = th_local s ∧
    w_thr (th_world s') !! t = Some (set_boost_thread (Some bt) kt))) s.
Proof.
  intros Hrun Hid Hd Hk He Hb Hpo Hcan Hclk Hval Hne Ho Hkt Hdel.
  set (loop := pt_steps user void_t 8 this (PtWhile None)).
  unfold creator_resumes, on_processor. rewrite wp_bind, wp_modify, Ho, wp_bind, wp_on_world. simpl. fold loop.
  assert (Hself : set_w_self this w1 = w1) by (rewrite <-(ru_self _ _ _ _ _ _ Hrun); by destruct w1).
  eapply wp_mono, (loop_delivers user void_t w1 _ this st b c p k cur (inr (thread_val t)) (S t));
    try done; [|by rewrite Hself].
  intros [e|?|?] w3; try done. intros (Hot3 & _ & _ & pt & -> & Hres).
  rewrite wp_bind. unfold create_resume. rewrite wp_bind, wp_on_world. eapply wp_mono, Hres.
  intros ov w4 (-> & Hot4 & _). rewrite Hval.
  assert (Hthr4 : w_thr w4 !! t = Some kt)
    by by rewrite (others_lookup _ _ _ t Hot4), (others_lookup _ _ _ t Hot3).
  unfold create_finish, thread_set_boost_thread. rewrite wp_bind, wp_on_world, wp_mod_thr. simpl.
  rewrite Hthr4, !wp_ret. exists pt. split_and!; [done..|]. simpl. apply lookup_insert_eq.
Qed.

(** ** Properties *)

(** C20: [thread::create], from the call to its return, in a thread with nothing else to
    do: its context waits; the new system thread makes itself a [cmt::thread] of its
    own, with the name that was passed, and completes the promise; the creator's loop
    switches back to the caller, and [create] returns that thread, which by then knows
    its system thread. *)
Theorem create_returns_new_thread s this n str st b cur o :
  let w := th_world s in
  th_local s !! th_os s = Some this → th_local s !! o = None → local_inj s → fresh_above w →
  running w this st [] b cur → idle st → th_done st = false →
  c_canceled <$> w_ctx w !! cur = Some false → th_cstr s !! n = Some str →
  in_int64 (w_task_count w + 1) = true → (∀ i, time_point_min ≤ now_at i)%Z →
  (now_at (w_ticks w) ≤ time_point_max)%Z → (∀ t, val_thread (thread_val t) = t) →
  wp ('(p, bt, wt) ← create lexical_cast n;
      on_world (pt_enter this);;
      boost_thread_runs lexical_cast thread_val o bt;;
      r ← creator_resumes (th_os s) this cur p bt;
      mret (bt, wt, r))
    (returns (λ r s', ∃ bt c ct pt, r = (bt, Blocked (Switch cur c true), (Jump (Switch c cur false) pt, ct)) ∧
      w_thr w !! ct = None ∧ th_local s' = <[o := ct]> (th_local s) ∧
      (∀ o', th_local s !! o' ≠ Some ct) ∧
      w_thr (th_world s') !! ct = Some (set_boost_thread (Some bt) (new_thread_private str)))) s.
Proof.
  intros w Hthis Ho Hinj Hfr Hrun Hidle Hd Hcan Hstr Hcnt Hclk Hnow Hval. set (p := w_fresh w).
  rewrite wp_bind. eapply wp_mono, create_waits; try done.
  intros [[[p' bt] wt]|?|?] s1; try done. fold w p.
  intros ([= -> -> ->] & Hos & Hloc & Hcs & Hst & st' & Hwa). pose proof (λ y, wa_canceled _ _ _ _ _ _ _ _ _ y Hwa) as Hcn.
  pose proof Hwa as [Hrun1 Hb Hpo _ Hqs Hd1 Hp1 _ Hc1 Hf1 _].
  pose proof (idle_queues _ _ Hqs Hidle) as Hid1.
  simpl in Hrun1, Hcn, Hp1, Hc1, Hf1. set (w1 := th_world s1) in *.
  pose proof (ti_thr _ _ _ _ _ (ru_inv _ _ _ _ _ _ Hrun)) as Hthr.
  rewrite wp_bind, wp_on_world. unfold pt_enter. rewrite wp_bind. fold w1.
  eapply wp_eq; [by apply (dequeue_nothing w1 this st'); [apply Hrun1|]|]. rewrite wp_ret. simpl.
  assert (Hfr1 : fresh_above w1) by (by eapply fresh_above_waits; [..|exact Hwa]).
  assert (Hnone : w_thr w !! w_fresh w1 = None) by (apply Hfr; lia).
  rewrite wp_bind, (wp_boost_thread_runs _ o (S p) p n) by (simpl; by rewrite ?Hloc, ?Hst, ?lookup_insert_eq).
  simpl. assert (Hkp : w_prom w1 !! p = Some (set_m_blocked_thread (Some this) new_promise))
    by by rewrite Hp1, lookup_insert_eq.
  eapply wp_mono, (start_thread_spec _ this p n str (set_m_blocked_thread (Some this) new_promise) st' []);
    simpl; fold w1; try done;
    [|by rewrite Hloc|eapply (local_inj_grows s); [done|simpl; fold w w1; lia|done]|apply Hrun1|
      by apply idle_queue_rep|by rewrite Hc1|by rewrite Hcs].
  intros [pt'|?|?] s2; try done. fold w1. set (t := w_fresh w1).
  intros (_ & _ & Hloc2 & _ & w2 & Hcompl & Hw2). rewrite Hloc in Hloc2.
  assert (Hto : t ≠ this) by (intros Heq; unfold t in Heq; rewrite Heq in Hnone; congruence).
  apply (delivered_new_thread (Threads w1 (th_local s1) o (th_started s1) (th_cstr s1)) w2 this p _ st' str Hto) in Hcompl.
  simpl in Hcompl. fold t in Hcompl. rewrite <-Hw2 in Hcompl.
  rewrite wp_bind. eapply wp_mono, (creator_resumes_spec s2 w1 (th_os s) this st' (cur :: b) (S (S p)) cur p
    _ t (new_thread_private str) (S p)); try done; [|by rewrite Hd1| | |].
  - intros [r|?|?] s3; try done. intros (pt & -> & Hl3 & Ht3). rewrite wp_ret.
    exists (S p), (S (S p)), t, pt. split_and!; [done..|by rewrite Hl3| |done].
    intros o' Ho'%Hinj. unfold t in Ho'. fold w in Ho'. lia.
  - rewrite Hcn, Hcan; [done|apply (ru_alloc _ _ _ _ _ _ Hrun)].
  - rewrite Hloc2, lookup_insert_ne; congruence.
  - rewrite Hw2. apply lookup_insert_eq.
Qed.

(** [create] may return before the new thread has its name: between the two
    statements of [start_thread] the value is there for the creator, who gets a
    thread still named after its address; and once the creator has freed the string
    it passed, the new thread reads freed memory. *)
Theorem name_is_read_after_create_returns s this p n b k st xs :
  let w := th_world s in let t := w_fresh w in
  th_local s !! th_os s = None → fresh_above w →
  w_prom w !! p = Some k → m_error k = None → m_blocked_thread k = Some this →
  w_thr w !! this = Some st → queue_rep (w_task w) st xs →
  in_int64 (w_task_count w + 1) = true →
  wp (start_announce lexical_cast thread_val p;; ct ← create_finish b t; name ct)
    (returns (λ str s', str = lexical_cast t ∧
      m_value <$> w_prom (th_world s') !! p = Some (Some (thread_val t)) ∧
      ∀ l, th_cstr s' !! n = Some l →
        (modify (λ s, Threads (th_world s) (th_local s) (th_os s) (th_started s) (delete n (th_cstr s)));;
         start_name lexical_cast n) s' =
        (Undef BadPointer, Threads (th_world s') (th_local s') (th_os s') (th_started s')
          (delete n (th_cstr s'))))) s.
Proof.
  intros w t Hn Hfr Hk He Hb Hst Hq Hc. rewrite wp_bind.
  assert (Hne : t ≠ this) by (intros Heq; destruct (Hfr t) as [? _]; [done|congruence]).
  eapply wp_mono, (start_announce_spec s this p k st xs); try done.
  intros [[]|?|?] s1; try done.
  intros (Hos & Hloc & Hstr1 & _ & Hp1 & _ & Hf1 & Ht1 & _).
  simpl in Hp1, Ht1. fold w t in Hloc, Hp1, Ht1.
  assert (Hthr1 : w_thr (th_world s1) !! t = Some (new_thread_private (lexical_cast t))).
  { by rewrite Ht1, lookup_insert_ne, lookup_insert_eq. }
  rewrite wp_bind. unfold create_finish, thread_set_boost_thread.
  rewrite wp_bind, wp_on_world, wp_mod_thr. simpl. rewrite Hthr1, wp_ret.
  unfold name. rewrite wp_bind, wp_on_world, wp_get_thr. simpl. rewrite lookup_insert_eq, wp_ret.
  split_and!; [done|simpl; by rewrite Hp1, lookup_insert_eq|].
  intros l _. match goal with |- _ = (_, ?s3) =>
    change (start_name lexical_cast n s3 = (Undef BadPointer, s3));
    assert (Hcur : thread_current lexical_cast s3 = (Ret t, s3))
      by (apply thread_current_known; simpl; by rewrite Hloc, Hos, lookup_insert_eq)
  end.
  unfold start_name. rewrite (bind_run _ _ _ _ _ Hcur).
  unfold set_name, mbind, M_bind, gets, id. simpl. by rewrite lookup_delete_eq.
Qed.

(** The converted time is the time point in whole microseconds, and so not later
    than it and by less than a microsecond earlier, from the epoch on. *)
Theorem to_system_time_truncates {P} `{PtimeSpec P} t :
  micros (to_system_time (P := P) t) = Z.quot t 1000 ∧
  ((0 ≤ t)%Z → (1000 * micros (to_system_time (P := P) t) ≤ t < 1000 * micros (to_system_time (P := P) t) + 1000)%Z).
Proof.
  assert (Hm : micros (to_system_time (P := P) t) = Z.quot t 1000).
  { unfold to_system_time. rewrite micros_micros, micros_seconds, micros_epoch.
    pose proof (Z.quot_rem (Z.quot t 1000) 1000000). lia. }
  split; [done|]. intros Ht. rewrite Hm. pose proof (Z.quot_rem t 1000).
  pose proof (Z.rem_bound_pos t 1000). lia.
Qed.
End thread.
