(* ===== verification/Log.v ===== *)
(** Logging (log/log.hpp, log/console_defines.h): the seven [log] functions, which
    write one line to a stream under a mutex, the macros [dlog], [slog], [elog] and
    [wlog] around them, which contain whatever goes wrong in a log statement, and the
    console codes. Boost.Format is the interface [Format]. Shown: a log statement always
    returns, with the mutex free, and leaves one line; the line of a build without
    colours is that of a build with colours less the codes. *)
From Stdlib Require Import Ascii.
From stdpp Require Import pretty.
From S2P Require Import Prelude World Thread.

#[local] Open Scope string_scope.

(** * Console codes *)

Inductive console_style :=
  | DEFAULT | BOLD | HALF_BRIGHT | ITALIC | UNDERLINE
  | BLINK | RAPID_BLINK | REVERSED | CONCEALED | STRIKETHROUGH.

Inductive console_color :=
  | BLACK | RED | GREEN | BROWN | BLUE | MAGENTA | CYAN | WHITE.

(** [CONSOLE_<style>], [CONSOLE_<color>] and [CONSOLE_<color>_BG] *)
Inductive console :=
  | Style (s : console_style)
  | Foreground (c : console_color)
  | Background (c : console_color).

Definition ESC : ascii := "027"%char.
Definition escape (s : string) : string := String ESC ("[" +:+ s +:+ "m").

Definition style_code (s : console_style) : string :=
  escape match s with
  | DEFAULT => "0" | BOLD => "1" | HALF_BRIGHT => "2" | ITALIC => "3" | UNDERLINE => "4"
  | BLINK => "5" | RAPID_BLINK => "6" | REVERSED => "7" | CONCEALED => "8"
  | STRIKETHROUGH => "9"
  end.

Definition foreground_code (c : console_color) : string :=
  escape match c with
  | BLACK => "30" | RED => "31" | GREEN => "32" | BROWN => "33"
  | BLUE => "34" | MAGENTA => "35" | CYAN => "36" | WHITE => "37"
  end.

Definition background_code (c : console_color) : string :=
  escape match c with
  | BLACK => "40" | RED => "41" | GREEN => "42" | BROWN => "43"
  | BLUE => "44" | MAGENTA => "45" | CYAN => "46" | WHITE => "47"
  end.

(** The definitions without [COLOR_CONSOLE] *)
Definition no_code (c : console) : string := EmptyString.

(** ... chosen by [COLOR_CONSOLE], on a system other than Windows *)
Definition console_code (COLOR_CONSOLE : bool) (c : console) : string :=
  if COLOR_CONSOLE then
    match c with
    | Style s => style_code s
    | Foreground c => foreground_code c
    | Background c => background_code c
    end
  else no_code c.

(** * File names *)

(** [std::string::rfind], with [npos], and [substr] up to the end: as [size_t] *)
Definition size_t_max : Z := (2 ^ 64 - 1)%Z.
Definition npos : Z := size_t_max.

Fixpoint rfind_from (c : ascii) (s : string) (i : Z) : Z :=
  match s with
  | EmptyString => npos
  | String a s =>
      let r := rfind_from c s (i + 1) in
      if bool_decide (r = npos) then if bool_decide (a = c) then i else npos else r
  end.
Definition rfind (c : ascii) (s : string) : Z := rfind_from c s 0.

Fixpoint string_drop (n : nat) (s : string) : string :=
  match n, s with
  | S n, String _ s => string_drop n s
  | _, _ => s
  end.

(** [npos + 1] wraps around to 0; a position behind the end throws. *)
Definition short_name (file_name : string) : option string :=
  let pos := ((rfind "/"%char file_name + 1) mod 2 ^ 64)%Z in
  if bool_decide (pos ≤ Z.of_nat (String.length file_name))%Z then
    Some (string_drop (Z.to_nat pos) file_name)
  else None.

(** * Streams

    What [operator<<] does with a string, [std::left] and [std::setw]: pad to the
    width, which it then resets. *)
Record ostream := Ostream { os_text : string; os_width : nat; os_left : bool }.

Fixpoint spaces (n : nat) : string :=
  match n with O => EmptyString | S n => String " " (spaces n) end.

Definition padded (left : bool) (width : nat) (str : string) : string :=
  let fill := spaces (width - String.length str) in
  if left then str +:+ fill else fill +:+ str.

Definition put_str (str : string) (os : ostream) : ostream :=
  Ostream (os_text os +:+ padded (os_left os) (os_width os) str) 0 (os_left os).
Definition set_left (os : ostream) : ostream := Ostream (os_text os) (os_width os) true.
Definition set_w (n : nat) (os : ostream) : ostream := Ostream (os_text os) n (os_left os).

(** [std::endl] writes the character itself, without the width. *)
Definition newline : string := String "010"%char EmptyString.
Definition put_endl (os : ostream) : ostream :=
  Ostream (os_text os +:+ newline) (os_width os) (os_left os).

(** * Boost.Format

    [F] is [boost::format], [P] what a log statement can be given as an argument: its
    output operator is the argument's own, and may do anything. *)
Class Format (S P F : Type) := {
  format : string → M S exn F;
  feed : F → P → M S exn F;                 (* operator% *)
  print : F → M S exn string;               (* what operator<< writes *)
  str_arg : string → P;                     (* a std::string *)
}.
#[export] Hint Mode Format ! - - : typeclass_instances.

(** * [log] *)

Record logging (T : Type) := Logging {
  lg_threads : threads T;
  cerr : ostream;
  log_mutex : bool;                         (* held *)
}.
Arguments Logging {T} _ _ _.
Arguments lg_threads {T} _.
Arguments cerr {T} _.
Arguments log_mutex {T} _.

(** What a log statement is given: a text, or a format with arguments *)
Inductive log_args (P : Type) :=
  | LogText (text : string)
  | LogFormat (fmt : string) (ps : list P).
Arguments LogText {P} _.
Arguments LogFormat {P} _ _.

Section ops.
Context {T P F : Type} `{!Format (logging T) P F}.
Abbreviation C := (M (logging T) exn).

Variable lexical_cast : nat → string.
(** [boost::diagnostic_information] *)
Variable diagnostic_information : exn → string.
Variable COLOR_CONSOLE : bool.
(** Operands are evaluated from left to right, each before it is written, as since
    C++17; or all of them before anything is written. *)
Variable sequenced : bool.

Definition on_threads {A} (m : M (threads T) exn A) : C A := λ s,
  let '(r, th) := m (lg_threads s) in (r, Logging th (cerr s) (log_mutex s)).

Definition put (f : ostream → ostream) : C unit :=
  modify (λ s, Logging (lg_threads s) (f (cerr s)) (log_mutex s)).

(** [boost::unique_lock<mutex> lock( log_mutex() )]: [boost::mutex] is not recursive;
    its holder waits for ever. *)
Definition lock_log : C unit :=
  held ← gets log_mutex;
  if held : bool then undef Diverges
  else modify (λ s, Logging (lg_threads s) (cerr s) true).
Definition unlock_log : C unit := modify (λ s, Logging (lg_threads s) (cerr s) false).
Definition in_log_lock {A} (m : C A) : C A := lock_log;; finally m unlock_log.

(** [os << color << ... << std::endl], where [name] and [msg] compute operands
    and [show] is what the last of them writes *)
Definition write_line {X} (color file : string) (line : N) (method : string)
    (name : C string) (msg : C X) (show : X → C string) : C unit :=
  put (put_str color);; put set_left;; put (set_w 10);;
  n ← name; put (put_str n);; put (put_str " ");;
  f ← match short_name file with Some f => mret f | None => throw (std_error 0) end;
  put (put_str f);; put (put_str ":");; put (put_str (pretty line));; put (put_str " ");;
  put (put_str method);; put (put_str "] ");;
  x ← msg; str ← show x; put (put_str str);;
  put (put_str (console_code COLOR_CONSOLE (Style DEFAULT)));; put put_endl.

Definition log_line {X} (color file : string) (line : N) (method : string)
    (msg : C X) (show : X → C string) : C unit :=
  in_log_lock (
    if sequenced then
      write_line color file line method (on_threads (thread_name lexical_cast)) msg show
    else
      x ← msg;
      n ← on_threads (thread_name lexical_cast);
      write_line color file line method (mret n) (mret x) show).

(** [log] of a text, and of a format and one to six arguments *)
Definition log_text (color file : string) (line : N) (method text : string) : C unit :=
  log_line color file line method (mret tt) (λ _, mret text).

Fixpoint feed_all (f : F) (ps : list P) : C F :=
  match ps with
  | [] => mret f
  | p :: ps => f' ← feed f p; feed_all f' ps
  end.
Definition formatted (fmt : string) (ps : list P) : C F := f ← format fmt; feed_all f ps.

Definition log_format (color file : string) (line : N) (method fmt : string) (ps : list P) :
    C unit :=
  log_line color file line method (formatted fmt ps) print.

Definition log (color file : string) (line : N) (method : string) (a : log_args P) : C unit :=
  match a with
  | LogText text => log_text color file line method text
  | LogFormat fmt ps => log_format color file line method fmt ps
  end.

(** * The macros

    The handlers for [boost::exception], [std::exception] and anything else; the
    arguments of the statement, [__VA_ARGS__], are evaluated inside the [try]. *)
Definition invalid_log (file : string) (line : N) (func : string) (e : exn) : C unit :=
  let red := console_code COLOR_CONSOLE (Foreground RED) in
  match e with
  | foreign_error _ =>
      log_text red file line func "Invalid logs - exception while formating args"
  | _ =>
      log_format red file line func "Invalid logs: %1%"
        [str_arg (S:=logging T) (F:=F) (diagnostic_information e)]
  end.

Definition log_macro (c : console) (file : string) (line : N) (func : string)
    (va_args : C (log_args P)) : C unit :=
  catch (a ← va_args; log (console_code COLOR_CONSOLE c) file line func a)
    (invalid_log file line func).

Definition dlog := log_macro (Style DEFAULT).
Definition slog := log_macro (Style DEFAULT).
Definition elog := log_macro (Foreground RED).
Definition wlog := log_macro (Foreground BROWN).
End ops.

(** * Strings *)

#[local] Arguments String.append !_ _ /.

Fixpoint has_char (c : ascii) (s : string) : bool :=
  match s with
  | EmptyString => false
  | String a s => bool_decide (a = c) || has_char c s
  end.

Lemma has_char_app c a b : has_char c (a +:+ b) = has_char c a || has_char c b.
Proof. induction a as [|x a IH]; simpl; [done|]. by rewrite IH, orb_assoc. Qed.

Lemma string_app_assoc (a b c : string) : (a +:+ b) +:+ c = a +:+ b +:+ c.
Proof. induction a as [|x a IH]; simpl; [done|]. by rewrite IH. Qed.

Lemma string_app_nil_r s : s +:+ EmptyString = s.
Proof. induction s as [|a s IH]; simpl; [done|]. by rewrite IH. Qed.

Lemma string_drop_app a b : string_drop (String.length a) (a +:+ b) = b.
Proof. by induction a. Qed.

Lemma length_string_app a b : String.length (a +:+ b) = String.length a + String.length b.
Proof. induction a as [|x a IH]; simpl; [done|]. by rewrite IH. Qed.

(** [rfind] finds the last occurrence. *)
Lemma rfind_from_spec c s i :
  (0 ≤ i)%Z → (i + Z.of_nat (String.length s) ≤ npos)%Z →
  (rfind_from c s i = npos ∧ has_char c s = false) ∨
  ∃ s1 s2, s = s1 +:+ String c s2 ∧ has_char c s2 = false ∧
    rfind_from c s i = (i + Z.of_nat (String.length s1))%Z.
Proof.
  revert i. induction s as [|a s IH]; intros i Hi Hn; simpl in *; [by left|].
  destruct (IH (i + 1)%Z) as [[Hr Hc]|(s1 & s2 & Hs & Hc & Hr)]; [lia..| |].
  - rewrite Hr, bool_decide_true by done. destruct (decide (a = c)) as [->|Hac].
    + right. exists EmptyString, s. rewrite bool_decide_true by done. repeat split; [done|simpl; lia].
    + left. by rewrite !bool_decide_false, Hc.
  - right. exists (String a s1), s2. rewrite bool_decide_false; simpl.
    + rewrite <-Hs, Hr. repeat split; [done|lia].
    + rewrite Hr. apply (f_equal String.length) in Hs. rewrite length_string_app in Hs. simpl in Hs. lia.
Qed.

(** What [short_name] returns *)
Lemma short_name_base s :
  (Z.of_nat (String.length s) < size_t_max)%Z →
  ∃ dir base, s = dir +:+ base ∧ short_name s = Some base ∧ has_char "/" base = false ∧
    (dir = EmptyString ∨ ∃ d, dir = d +:+ "/").
Proof.
  intros Hl. unfold short_name, rfind, size_t_max in *.
  destruct (rfind_from_spec "/" s 0) as [[Hr Hc]|(d & base & -> & Hc & Hr)];
    [done|unfold npos, size_t_max; lia|..].
  - exists EmptyString, s. rewrite Hr. change ((npos + 1) `mod` 2 ^ 64)%Z with 0%Z. rewrite bool_decide_true by lia. auto.
  - exists (d +:+ "/"), base. rewrite Hr.
    assert (Hs : d +:+ String "/" base = (d +:+ "/") +:+ base) by (by rewrite string_app_assoc).
    rewrite length_string_app in Hl. simpl in Hl.
    rewrite Z.mod_small by lia. rewrite bool_decide_true
      by (rewrite length_string_app; simpl; lia).
    split; [done|]. rewrite Hs. split; [|eauto].
    replace (Z.to_nat _) with (String.length (d +:+ "/"))
      by (rewrite length_string_app; simpl; lia).
    by rewrite string_drop_app.
Qed.

(** ** Codes in a text

    What is left of a text without the codes in it: from [ESC] up to the [m] *)
Fixpoint strip (in_code : bool) (s : string) : string :=
  match s with
  | EmptyString => EmptyString
  | String c s =>
      if in_code then strip (negb (bool_decide (c = "m"%char))) s
      else if bool_decide (c = ESC) then strip true s
      else String c (strip false s)
  end.

Lemma strip_app a b : has_char ESC a = false → strip false (a +:+ b) = a +:+ strip false b.
Proof.
  induction a as [|x a IH]; simpl; [done|]. intros [Hx Ha]%orb_false_iff.
  by rewrite Hx, IH.
Qed.

Lemma strip_code c b : strip false (console_code true c +:+ b) = strip false b.
Proof. by destruct c as [[]|[]|[]]. Qed.

Lemma pretty_no_escape (x : N) : has_char ESC (pretty x) = false.
Proof.
  assert (Hgo : ∀ y s, has_char ESC s = false → has_char ESC (pretty_N_go y s) = false).
  { intros y. induction (N.lt_wf_0 y) as [y _ IH]. intros s Hs.
    destruct (decide (y = 0)%N) as [->|Hy]; [by rewrite pretty_N_go_0|].
    rewrite pretty_N_go_step by lia. apply IH; [by apply N.div_lt; lia|].
    simpl. rewrite Hs. unfold pretty_N_char. by repeat case_match. }
  unfold pretty, pretty_N. case_decide; [done|by apply Hgo].
Qed.

Lemma padded_no_escape left w s : has_char ESC s = false → has_char ESC (padded left w s) = false.
Proof.
  intros Hs. assert (Hsp : ∀ n, has_char ESC (spaces n) = false) by (intros m; by induction m).
  unfold padded. destruct left; by rewrite has_char_app, Hs, Hsp.
Qed.

(** * Runs *)

(** The name of the current thread, when it has a [cmt::thread] *)
Definition current_name {T} (s : logging T) : option string :=
  let th := lg_threads s in
  t ← th_local th !! th_os th; th_name <$> w_thr (th_world th) !! t.

(** What operands leave alone: the stream, the mutex, and who is running *)
Definition log_view {T} (s : logging T) : ostream * bool * option string :=
  (cerr s, log_mutex s, current_name s).

Definition settled {A} (r : outcome exn A) : Prop :=
  match r with Undef _ => False | _ => True end.

(** A computation that ends, and writes to another stream if to any *)
Definition quiet {T A} (m : M (logging T) exn A) : Prop :=
  (∀ s, settled (m s).1) ∧ keeps log_view m.

Lemma quiet_ret {T A} (a : A) : quiet (T:=T) (mret a).
Proof. by split. Qed.

Lemma quiet_bind {T A B} (m : M (logging T) exn A) (k : A → M (logging T) exn B) :
  quiet m → (∀ a, quiet (k a)) → quiet (a ← m; k a).
Proof.
  intros [Hm Hkm] Hk. split; [|apply keeps_bind; [done|apply Hk]].
  intros s. specialize (Hm s). unfold mbind, M_bind.
  destruct (m s) as [[a|e|u] s']; [apply Hk|done..].
Qed.

(** What Boost.Format documents: making and printing a format does nothing but that, or
    throw; [%1%] stands for the first argument. *)
Class FormatSpec (T P F : Type) `{!Format (logging T) P F} := {
  format_quiet str : quiet (format (P:=P) (F:=F) str);
  print_quiet (f : F) : quiet (print (P:=P) f);
  format_string d txt : has_char "%" txt = false → ∃ f0 f : F, ∀ s : logging T,
    format (P:=P) (txt +:+ "%1%") s = (Ret f0, s) ∧
    feed f0 (str_arg (S:=logging T) (F:=F) d : P) s = (Ret f, s) ∧
    print (P:=P) f s = (Ret (txt +:+ d), s);
}.

(** A line as it appears in the stream: up to the message, and the whole *)
Definition header_text (os : ostream) (color n base : string) (line : N) (method : string) :
    string :=
  padded (os_left os) (os_width os) color +:+ padded true 10 n +:+ " " +:+ base +:+ ":" +:+
  pretty line +:+ " " +:+ method +:+ "] ".

Definition line_text (colors : bool) (os : ostream) (color n base : string) (line : N)
    (method msg : string) : string :=
  header_text os color n base line method +:+ msg +:+ console_code colors (Style DEFAULT) +:+
  newline.

Definition appended (os : ostream) (txt : string) : ostream :=
  Ostream (os_text os +:+ txt) 0 true.

Lemma padded_0 left str : padded left 0 str = str.
Proof. unfold padded. destruct left; simpl; [by apply string_app_nil_r|done]. Qed.

#[local] Arguments padded : simpl never.

Lemma put_str_0 os str : os_width os = 0 → os_left os = true → put_str str os = appended os str.
Proof. destruct os. simpl. intros -> ->. unfold put_str. simpl. by rewrite padded_0. Qed.

Lemma appended_twice os a b : appended (appended os a) b = appended os (a +:+ b).
Proof. unfold appended. simpl. by rewrite string_app_assoc. Qed.

Section run.
Context {T P F : Type} `{!Format (logging T) P F}.
Abbreviation C := (M (logging T) exn).
Variable lexical_cast : nat → string.
Variable COLOR_CONSOLE sequenced : bool.
Implicit Types (s : logging T).

Definition with_cerr (os : ostream) (s : logging T) : logging T :=
  Logging (lg_threads s) os (log_mutex s).

(** [m] computes the name [n] of the current thread. *)
Definition names (m : C string) (n : string) : Prop :=
  ∀ s, current_name s = Some n → m s = (Ret n, s).

Lemma thread_name_names n : names (on_threads (thread_name lexical_cast)) n.
Proof.
  intros [th os b] Hn. unfold current_name in Hn. simpl in Hn.
  destruct (th_local th !! th_os th) as [t|] eqn:Ht; [|done]. simpl in Hn.
  destruct (w_thr (th_world th) !! t) as [k|] eqn:Hk; [|done]. simpl in Hn. simplify_eq.
  unfold on_threads, thread_name, mbind, M_bind. simpl.
  rewrite (thread_current_known _ _ t) by done.
  unfold name, mbind, M_bind, on_world, get_thr, mbind, M_bind, gets, deref. simpl.
  rewrite Hk. simpl. by destruct th.
Qed.

Lemma mret_names n : names (mret n) n.
Proof. done. Qed.

(** The line up to the message *)
Lemma write_line_spec {X} (color file : string) line method (nm : C string) n base
    (msg : C X) show s Q :
  names nm n → current_name s = Some n → short_name file = Some base →
  wp (x ← msg; str ← show x; put (put_str str);;
      put (put_str (console_code COLOR_CONSOLE (Style DEFAULT)));; put put_endl) Q
    (with_cerr (appended (cerr s) (header_text (cerr s) color n base line method)) s) →
  wp (write_line COLOR_CONSOLE color file line method nm msg show) Q s.
Proof.
  intros Hnm Hn Hb Hw. unfold write_line, put in *. do 3 rewrite wp_bind, wp_modify. simpl.
  rewrite wp_bind. eapply wp_eq; [by apply Hnm|]. simpl. rewrite Hb.
  do 2 rewrite wp_bind, wp_modify. simpl. rewrite wp_bind, wp_ret.
  do 6 rewrite wp_bind, wp_modify. simpl.
  match goal with |- wp _ _ ?s' => replace s' with
    (with_cerr (appended (cerr s) (header_text (cerr s) color n base line method)) s); [done|] end.
  unfold with_cerr, appended, header_text, put_str, set_w, set_left. simpl. rewrite !padded_0.
  by rewrite !string_app_assoc.
Qed.

(** The message as computed, at whatever moments *)
Definition made {X} (msg : C X) (show : X → C string) (m : string) : Prop :=
  ∃ x s1 s2 s3 s4, msg s1 = (Ret x, s2) ∧ show x s3 = (Ret m, s4).

(** ... or an exception instead *)
Definition failed {X} (msg : C X) (show : X → C string) (e : exn) : Prop :=
  (∃ s1 s2, msg s1 = (Exc e, s2)) ∨
  ∃ x s1 s2 s3 s4, msg s1 = (Ret x, s2) ∧ show x s3 = (Exc e, s4).

(** How a line may end: written in full; or given up, before anything or before the
    message. *)
Definition line_outcome (color n base : string) (line : N) (method : string)
    (full : string → Prop) (fails : exn → Prop) (os : ostream) (r : outcome exn unit) (os' : ostream) : Prop :=
  match r with
  | Ret _ => ∃ m, full m ∧ os' = appended os (line_text COLOR_CONSOLE os color n base line method m)
  | Exc e => fails e ∧ (os' = os ∨ os' = appended os (header_text os color n base line method))
  | Undef _ => False
  end.

Lemma quiet_wp {A} (m : C A) s Q :
  quiet m →
  (∀ a s', m s = (Ret a, s') → log_view s' = log_view s → Q (Ret a) s') →
  (∀ e s', m s = (Exc e, s') → log_view s' = log_view s → Q (Exc e) s') → wp m Q s.
Proof.
  intros [Hs Hk] Hr He. unfold wp. specialize (Hs s). specialize (Hk s).
  destruct (m s) as [[a|e|u] s'] eqn:Hm; simpl in *; [by apply Hr|by apply He|done].
Qed.

Lemma write_line_quiet {X} (color file : string) line method (nm : C string) n base
    (msg : C X) show s :
  names nm n → current_name s = Some n → short_name file = Some base →
  quiet msg → (∀ x, quiet (show x)) →
  wp (write_line COLOR_CONSOLE color file line method nm msg show) (λ r s',
    log_mutex s' = log_mutex s ∧ current_name s' = Some n ∧
    line_outcome color n base line method (made msg show) (failed msg show) (cerr s) r (cerr s')) s.
Proof.
  intros Hnm Hn Hb Hm Hsh. apply (write_line_spec _ _ _ _ _ n base); [done..|].
  rewrite wp_bind. apply quiet_wp; [done| |].
  2: { intros e s1 He [= H1 H2 H3]. simpl. rewrite H1, H2, H3. unfold failed. eauto 10. }
  intros x s1 Hx [= H1 H2 H3]. rewrite wp_bind. apply quiet_wp; [done| |].
  2: { intros e s2 He [= H1' H2' H3']. simpl. rewrite H1', H2', H3', H1, H2, H3.
    unfold failed. eauto 12. }
  intros str s2 Hstr [= H1' H2' H3']. unfold put. rewrite wp_bind, wp_modify, wp_bind, wp_modify, wp_modify.
  simpl. rewrite H1', H2', H1, H2. split; [done|]. split; [change (current_name s2 = Some n); by rewrite H3', H3|].
  exists str. split; [by exists x, (with_cerr (appended (cerr s) (header_text (cerr s) color n base line method)) s), s1, s1, s2|].
  unfold put_endl, put_str, with_cerr, appended, line_text. simpl. by rewrite !padded_0, !string_app_assoc.
Qed.

Lemma wp_in_log_lock {A} (m : C A) Q s :
  log_mutex s = false →
  wp m (λ r s', match r with
    | Undef _ => Q r s'
    | _ => Q r (Logging (lg_threads s') (cerr s') false)
    end) (Logging (lg_threads s) (cerr s) true) →
  wp (in_log_lock m) Q s.
Proof.
  intros Hf Hw. unfold in_log_lock, lock_log. rewrite !wp_bind, wp_gets, Hf, wp_modify, wp_finally.
  eapply wp_mono, Hw. by intros [] s' HQ.
Qed.

Lemma log_line_spec {X} (color file : string) line method n base (msg : C X) show s :
  log_mutex s = false → current_name s = Some n → short_name file = Some base →
  quiet msg → (∀ x, quiet (show x)) →
  wp (log_line lexical_cast COLOR_CONSOLE sequenced color file line method msg show) (λ r s',
    log_mutex s' = false ∧ current_name s' = Some n ∧
    line_outcome color n base line method (made msg show) (failed msg show) (cerr s) r (cerr s')) s.
Proof.
  intros Hf Hn Hb Hm Hsh. apply wp_in_log_lock; [done|]. destruct sequenced.
  - eapply wp_mono, (write_line_quiet _ _ _ _ _ n base); [|by eauto using thread_name_names..].
    by intros [] s' (_ & Hn' & Ho).
  - rewrite wp_bind. apply quiet_wp; [done| |].
    2: { intros e s1 He [= H1 H2 H3]. split; [done|]. split; [by rewrite <-Hn|]. simpl. rewrite H1.
      unfold failed. eauto 10. }
    intros x s1 Hx [= H1 H2 H3]. assert (Hn1 : current_name s1 = Some n) by (by rewrite H3).
    rewrite wp_bind. eapply wp_eq; [by apply thread_name_names|].
    eapply wp_mono, (write_line_quiet _ _ _ _ _ n base); [|done..].
    intros [a|e|u] s' (_ & Hn' & Ho); simpl in *; [| |done]; rewrite H1 in Ho.
    + destruct Ho as (m & (x' & sa & sb & sc & sd & [= <- <-] & Hsh') & Ho). unfold made. eauto 12.
    + destruct Ho as [[(sa & sb & Hbad)|(x' & sa & sb & sc & sd & [= <- <-] & Hsh')] Ho];
        [done|]. unfold failed. eauto 12.
Qed.

Lemma log_text_spec color file line method text n base s :
  log_mutex s = false → current_name s = Some n → short_name file = Some base →
  wp (log_text lexical_cast COLOR_CONSOLE sequenced color file line method text)
    (returns (λ _ s', log_mutex s' = false ∧ current_name s' = Some n ∧
      cerr s' = appended (cerr s)
        (line_text COLOR_CONSOLE (cerr s) color n base line method text))) s.
Proof.
  intros Hf Hn Hb.
  eapply wp_mono, (log_line_spec _ _ _ _ n base); [|done..|apply quiet_ret|intros; apply quiet_ret].
  intros [[]|e|u] s' (? & ? & Ho); simpl in *; [| |done].
  - by destruct Ho as (m & (x & s1 & s2 & s3 & s4 & _ & [= -> _]) & Ho).
  - by destruct Ho as [[(s1 & s2 & [=])|(x & s1 & s2 & s3 & s4 & _ & [=])] _].
Qed.
End run.

(** * Log statements *)

Section statements.
Context {T P F : Type} `{FormatSpec T P F}.
Abbreviation C := (M (logging T) exn).
Variable lexical_cast : nat → string.
Variable diagnostic_information : exn → string.
Variable COLOR_CONSOLE sequenced : bool.
Implicit Types (s : logging T) (a : log_args P).

(** Arguments whose output operators write to the stream they are given *)
Definition quiet_args (a : log_args P) : Prop :=
  match a with
  | LogText _ => True
  | LogFormat _ ps => Forall (λ p, ∀ f : F, quiet (feed (S:=logging T) f p)) ps
  end.

(** The message of a statement, and what may go wrong in making it *)
Definition says (a : log_args P) : string → Prop :=
  match a with
  | LogText text => eq text
  | LogFormat fmt ps => made (T:=T) (formatted (F:=F) fmt ps) (print (P:=P))
  end.
Definition fails (a : log_args P) : exn → Prop :=
  match a with
  | LogText _ => λ _, False
  | LogFormat fmt ps => failed (T:=T) (formatted (F:=F) fmt ps) (print (P:=P))
  end.

(** The message of the line that stands for a statement that failed *)
Definition complaint (e : exn) : string :=
  match e with
  | foreign_error _ => "Invalid logs - exception while formating args"
  | _ => "Invalid logs: " +:+ diagnostic_information e
  end.

Lemma quiet_formatted fmt ps :
  quiet_args (LogFormat fmt ps) → quiet (T:=T) (formatted (F:=F) fmt ps).
Proof.
  simpl. intros Hps. apply quiet_bind; [apply format_quiet|].
  induction Hps as [|p ps Hp Hps IH]; intros f; simpl; [apply quiet_ret|by apply quiet_bind].
Qed.

Lemma log_spec color file line method n base a s :
  log_mutex s = false → current_name s = Some n → short_name file = Some base →
  quiet_args a →
  wp (log (F:=F) lexical_cast COLOR_CONSOLE sequenced color file line method a) (λ r s',
    log_mutex s' = false ∧ current_name s' = Some n ∧
    line_outcome COLOR_CONSOLE color n base line method (says a) (fails a) (cerr s) r (cerr s')) s.
Proof.
  intros Hf Hn Hb Ha. destruct a as [text|fmt ps]; simpl.
  - eapply wp_mono, (log_text_spec _ _ _ color file line method text n base); [|done..].
    intros [[]|e|u] s'; [|done..]. intros (? & ? & Ho). simpl. eauto.
  - apply (log_line_spec _ _ _ _ _ _ _ n base); [done..|by apply quiet_formatted|apply print_quiet].
Qed.

Lemma formatted_string d txt :
  has_char "%" txt = false → ∃ f : F, ∀ s,
    formatted (txt +:+ "%1%") [str_arg (S:=logging T) (F:=F) d] s = (Ret f, s) ∧
    print (P:=P) f s = (Ret (txt +:+ d), s).
Proof.
  intros Ht. destruct (format_string (T:=T) (P:=P) (F:=F) d txt Ht) as (f0 & f & Hf).
  exists f. intros s. destruct (Hf s) as (H1 & H2 & H3). split; [|done].
  unfold formatted, mbind, M_bind. rewrite H1. simpl. unfold mbind, M_bind. by rewrite H2.
Qed.

(** The handlers' lines do not fail. *)
Lemma invalid_log_spec file line func n base e s :
  log_mutex s = false → current_name s = Some n → short_name file = Some base →
  wp (invalid_log (F:=F) (P:=P) lexical_cast diagnostic_information COLOR_CONSOLE sequenced file line func e)
    (returns (λ _ s', log_mutex s' = false ∧ current_name s' = Some n ∧
      cerr s' = appended (cerr s) (line_text COLOR_CONSOLE (cerr s)
        (console_code COLOR_CONSOLE (Foreground RED)) n base line func (complaint e)))) s.
Proof.
  intros Hf Hn Hb. set (red := console_code _ _).
  assert (Hformat : ∀ d, wp (log_format (F:=F) lexical_cast COLOR_CONSOLE sequenced red file line func
      "Invalid logs: %1%" [str_arg (S:=logging T) (F:=F) d])
    (returns (λ _ s', log_mutex s' = false ∧ current_name s' = Some n ∧
      cerr s' = appended (cerr s) (line_text COLOR_CONSOLE (cerr s) red n base line func
        ("Invalid logs: " +:+ d)))) s).
  { intros d. destruct (formatted_string d "Invalid logs: ") as (f & Hfs); [done|].
    assert (Hmsg : ∀ s0, formatted (F:=F) "Invalid logs: %1%" [str_arg (S:=logging T) (F:=F) d] s0
      = (Ret f, s0)) by (intros s0; apply Hfs).
    eapply wp_mono, (log_line_spec _ _ _ red file line func n base); [|done..| |apply print_quiet].
    2: { split; [intros s0; by rewrite Hmsg|intros s0; by rewrite Hmsg]. }
    intros [[]|e'|u] s' (? & ? & Ho); simpl in *; [| |done].
    - destruct Ho as (m & (x & s1 & s2 & s3 & s4 & Hx & Hm) & Ho).
      rewrite Hmsg in Hx. injection Hx as <- <-. rewrite (proj2 (Hfs s3)) in Hm. naive_solver.
    - destruct Ho as [[(s1 & s2 & Hx)|(x & s1 & s2 & s3 & s4 & Hx & Hm)] _];
        rewrite Hmsg in Hx; [done|]. injection Hx as <- <-. by rewrite (proj2 (Hfs s3)) in Hm. }
  destruct e; [apply Hformat..|by apply log_text_spec].
Qed.

(** What a statement with the outcome [r] of its arguments adds to the stream *)
Definition logged (c : console) (n base : string) (line : N) (func : string) (os : ostream)
    (r : outcome exn (log_args P)) (txt : string) : Prop :=
  let header color := header_text os color n base line func in
  let full color := line_text COLOR_CONSOLE os color n base line func in
  (∃ a m, r = Ret a ∧ says a m ∧ txt = full (console_code COLOR_CONSOLE c) m) ∨
  (∃ e part,
    (r = Exc e ∧ part = EmptyString ∨
     ∃ a, r = Ret a ∧ fails a e ∧
       (part = EmptyString ∨ part = header (console_code COLOR_CONSOLE c))) ∧
    txt = part +:+ full (console_code COLOR_CONSOLE (Foreground RED)) (complaint e)).

Lemma header_text_0 os os' color n base line method :
  os_width os = 0 → os_width os' = 0 →
  header_text os color n base line method = header_text os' color n base line method.
Proof. intros Hw Hw'. unfold header_text. by rewrite Hw, Hw', !padded_0. Qed.

(** A handler's line, after what the statement itself has written *)
Lemma handled_spec file line func n base e part os s :
  log_mutex s = false → current_name s = Some n → short_name file = Some base →
  os_width os = 0 → (part = EmptyString ∧ cerr s = os ∨ cerr s = appended os part) →
  wp (invalid_log (F:=F) (P:=P) lexical_cast diagnostic_information COLOR_CONSOLE sequenced file line func e)
    (returns (λ _ s', log_mutex s' = false ∧ current_name s' = Some n ∧
      cerr s' = appended os (part +:+ line_text COLOR_CONSOLE os
        (console_code COLOR_CONSOLE (Foreground RED)) n base line func (complaint e)))) s.
Proof.
  intros Hf Hn Hb Hw Hos. eapply wp_mono, (invalid_log_spec file line func n base); [|done..].
  intros [[]|e'|u] s'; [|done..]. intros (? & ? & Ho). split; [done|]. split; [done|]. rewrite Ho.
  destruct Hos as [[-> ->]| ->]; [done|]. rewrite appended_twice. unfold line_text.
  by rewrite (header_text_0 (appended os part) os).
Qed.

(** C37: Whatever goes wrong in evaluating, formatting or printing what a log statement is
    given, the statement returns, with the mutex free; the stream has one more line, with
    the message, or, after at most the header of the line that was given up, one in red
    that says what went wrong. *)
Theorem log_statement_leaves_line c file line func n s (va_args : C (log_args P)) :
  (Z.of_nat (String.length file) < size_t_max)%Z →
  wp va_args (λ r s1, settled r ∧ (∀ a, r = Ret a → quiet_args a) ∧
    log_mutex s1 = false ∧ current_name s1 = Some n ∧ os_width (cerr s1) = 0) s →
  wp (log_macro (F:=F) lexical_cast diagnostic_information COLOR_CONSOLE sequenced c file line func va_args)
    (returns (λ _ s', log_mutex s' = false ∧ current_name s' = Some n ∧
      ∃ base r s1 txt, short_name file = Some base ∧ va_args s = (r, s1) ∧
        cerr s' = appended (cerr s1) txt ∧ logged c n base line func (cerr s1) r txt)) s.
Proof.
  intros Hl Hargs. destruct (short_name_base file Hl) as (dir & base & _ & Hb & _).
  unfold log_macro. rewrite wp_catch, wp_bind. unfold wp in Hargs.
  destruct (va_args s) as [r s1] eqn:Hr. simpl in Hargs.
  destruct Hargs as (Hset & Hq & Hf & Hn & Hw). eapply wp_eq; [done|].
  destruct r as [a|e|u]; [| |done].
  - eapply wp_mono, (log_spec _ file line func n base a); [|by auto..].
    intros [[]|e|u] s' (Hf' & Hn' & Ho); simpl in *; [| |done].
    + destruct Ho as (m & Hm & Ho). split; [done|]. split; [done|].
      exists base, (Ret a), s1. eexists. repeat split; [done..|]. left. by exists a, m.
    + destruct Ho as [Hfail Ho].
      assert (∃ part, (part = EmptyString ∧ cerr s' = cerr s1 ∨ cerr s' = appended (cerr s1) part) ∧
        (part = EmptyString ∨
         part = header_text (cerr s1) (console_code COLOR_CONSOLE c) n base line func))
        as (part & Hpart & Hp) by naive_solver.
      eapply wp_mono, (handled_spec file line func n base e part (cerr s1)); [|done..].
      intros [[]|e'|u] s2; [|done..]. intros (? & ? & Ho2). split; [done|]. split; [done|].
      exists base, (Ret a), s1. eexists. repeat split; [done..|]. right. exists e, part. eauto 10.
  - eapply wp_mono, (handled_spec file line func n base e EmptyString (cerr s1)); [|by auto..].
    intros [[]|e'|u] s2; [|done..]. intros (? & ? & Ho2). split; [done|]. split; [done|].
    exists base, (Exc e), s1. eexists. repeat split; [done..|]. right. exists e, EmptyString. eauto 10.
Qed.
End statements.

Lemma strip_line os c n base line method msg :
  os_width os = 0 → has_char ESC n = false → has_char ESC base = false →
  has_char ESC method = false → has_char ESC msg = false →
  strip false (line_text true os (console_code true c) n base line method msg) =
  line_text false os (console_code false c) n base line method msg.
Proof.
  intros Hw Hn Hb Hm Ht. unfold line_text, header_text. rewrite Hw, !padded_0, !string_app_assoc.
  rewrite strip_code. rewrite strip_app by (by apply padded_no_escape).
  rewrite strip_app, strip_app, strip_app by done.
  rewrite strip_app by apply pretty_no_escape. rewrite !strip_app by done. rewrite strip_code.
  by destruct c.
Qed.

(** The line of a build without colours is the line of a build with colours less the
    codes in it. *)
Theorem plain_line_is_coloured_line_stripped {T} lexical_cast sequenced c file line method text n
    (s : logging T) :
  (Z.of_nat (String.length file) < size_t_max)%Z →
  log_mutex s = false → current_name s = Some n → os_width (cerr s) = 0 →
  has_char ESC (os_text (cerr s) +:+ n +:+ file +:+ method +:+ text) = false →
  let written colors :=
    wp (log_text lexical_cast colors sequenced (console_code colors c) file line method text) in
  written true (returns (λ _ s1, written false (returns (λ _ s2,
    os_text (cerr s2) = strip false (os_text (cerr s1)))) s)) s.
Proof.
  intros Hl Hf Hn Hw. rewrite !has_char_app, !orb_false_iff. intros (Hos & Hcn & Hfile & Hm & Ht) written.
  destruct (short_name_base file Hl) as (dir & base & Hd & Hb & _).
  rewrite Hd, has_char_app, orb_false_iff in Hfile. destruct Hfile as [_ Hbase].
  eapply wp_mono, (log_text_spec _ true _ _ file line method text n base); [|done..].
  intros [[]|e|u] s1; [|done..]. intros (_ & _ & H1).
  eapply wp_mono, (log_text_spec _ false _ _ file line method text n base); [|done..].
  intros [[]|e|u] s2; [|done..]. intros (_ & _ & H2). simpl.
  rewrite H1, H2. simpl. rewrite strip_app by done. f_equal. symmetry. by apply strip_line.
Qed.

(** The name a line shows is the part of the file name behind the last slash, all of it
    when there is none; the position behind [npos] is the first. *)
Theorem short_name_is_last_component file :
  (Z.of_nat (String.length file) < size_t_max)%Z →
  ∃ dir base, file = dir +:+ base ∧ short_name file = Some base ∧ has_char "/" base = false ∧
    (dir = EmptyString ∨ ∃ d, dir = d +:+ "/").
Proof. apply short_name_base. Qed.

(** An argument whose output operator logs waits for ever for the mutex that the statement
    it is printed for holds. *)
Theorem nested_log_deadlocks {T P F} `{!Format (logging T) P F} lexical_cast
    diagnostic_information colors sequenced c file line func fmt p ps a color' file' line' method' f n
    (k : F → M (logging T) exn F) s :
  (Z.of_nat (String.length file) < size_t_max)%Z →
  log_mutex s = false → current_name s = Some n →
  (∀ s, format (S:=logging T) (P:=P) (F:=F) fmt s = (Ret f, s)) →
  feed f p = (log (F:=F) lexical_cast colors sequenced color' file' line' method' a;; k f) →
  wp (log_macro (F:=F) lexical_cast diagnostic_information colors sequenced c file line func
    (mret (LogFormat fmt (p :: ps)))) (λ r _, r = Undef Diverges) s.
Proof.
  intros Hl Hf Hn Hfmt Hfeed.
  assert (Hnest : ∀ s0, log_mutex s0 = true →
    formatted (F:=F) fmt (p :: ps) s0 = (Undef Diverges, s0)).
  { intros s0 Hs0. unfold formatted, mbind, M_bind. rewrite Hfmt. simpl. unfold mbind, M_bind.
    rewrite Hfeed. unfold mbind, M_bind. destruct a; simpl;
    unfold log_text, log_format, log_line, in_log_lock, lock_log, mbind, M_bind, gets; by rewrite Hs0. }
  destruct (short_name_base file Hl) as (dir & base & _ & Hb & _).
  unfold log_macro. rewrite wp_catch, wp_bind, wp_ret. apply wp_in_log_lock; [done|].
  destruct sequenced.
  - apply (write_line_spec _ _ _ _ _ _ n base); [apply thread_name_names|done..|].
    rewrite wp_bind. by eapply wp_eq; [apply Hnest|].
  - rewrite wp_bind. by eapply wp_eq; [apply Hnest|].
Qed.
