(* ===== verification/TcpRead.v ===== *)
(** The read side of [asio::tcp::socket] (asio/tcp/socket.cpp): a read buffer
    that takes whatever the kernel has when it is empty. [read] hands out the
    bytes of the stream in order; [read_some] does not advance its position.
    The kernel's socket is a parameter: what it has received and not yet handed
    out is a stream of bytes. *)
From Stdlib Require Import Strings.Byte.
From S2P Require Import Prelude World.

(** * Widths *)

(** [size_t] arithmetic, and the conversion of a [size_t] to [int]. *)
Definition size_t (z : Z) : Z := (z mod 2 ^ 64)%Z.
Definition to_int (z : Z) : Z := ((z + 2 ^ 31) mod 2 ^ 32 - 2 ^ 31)%Z.
Definition uint32 (z : Z) : Z := (z mod 2 ^ 32)%Z.

Lemma size_t_id z : (0 ≤ z < 2 ^ 64)%Z → size_t z = z.
Proof. apply Z.mod_small. Qed.
Lemma to_int_id z : (0 ≤ z < 2 ^ 31)%Z → to_int z = z.
Proof. intros Hz. unfold to_int. rewrite Z.mod_small; lia. Qed.
Lemma uint32_id z : (0 ≤ z < 2 ^ 32)%Z → uint32 z = z.
Proof. apply Z.mod_small. Qed.

(** * The kernel's socket *)

(** What [boost::asio] offers on a socket: [available], a blocking [read] of
    exactly so many bytes, the asynchronous [read] and [read_some] waited for. *)
Class Kernel (K : Type) := {
  available : K → Z;
  read_now : Z → K → list byte * K;
  read_all : Z → K → (exn + list byte) * K;
  read_any : Z → K → (exn + list byte) * K;
  stream : K → list byte;          (* all the bytes still to come *)
}.

(** What it promises: bytes come in order; what is available can be read at
    once; [read_all] succeeds when the stream goes on long enough. *)
Class KernelSpec (K : Type) `{!Kernel K} : Prop := {
  available_bound k : (0 ≤ available k ≤ Z.of_nat (length (stream k)))%Z;
  read_now_spec n k : (0 ≤ n ≤ available k)%Z →
    read_now n k = (take (Z.to_nat n) (stream k), (read_now n k).2) ∧
    stream (read_now n k).2 = drop (Z.to_nat n) (stream k);
  read_all_spec n k : (0 ≤ n ≤ Z.of_nat (length (stream k)))%Z →
    (read_all n k).1 = inr (take (Z.to_nat n) (stream k)) ∧
    stream (read_all n k).2 = drop (Z.to_nat n) (stream k);
}.

Record rsock (K : Type) := RSock {
  read_buf : list byte;
  read_pos : Z;
  last_avail : Z;
  kernel : K;
}.
Arguments RSock {K} _ _ _ _.
Arguments read_buf {K} _.
Arguments read_pos {K} _.
Arguments last_avail {K} _.
Arguments kernel {K} _.

(** [detail::socket::socket] *)
Definition new_rsock {K} (k : K) : rsock K := RSock [] 0 0 k.

Definition buf_size {K} (s : rsock K) : Z := Z.of_nat (length (read_buf s)).

(** [std::vector<char>::resize] *)
Definition resize (n : Z) (l : list byte) : list byte :=
  take (Z.to_nat n) l ++ replicate (Z.to_nat n - length l) x00.

Section ops.
Context {K : Type} `{!Kernel K}.
Abbreviation R := (M (rsock K) exn).

Definition set_read_buf (b : list byte) : R unit :=
  modify (λ s, RSock b (read_pos s) (last_avail s) (kernel s)).
Definition set_read_pos (p : Z) : R unit :=
  modify (λ s, RSock (read_buf s) p (last_avail s) (kernel s)).
Definition set_last_avail (n : Z) : R unit :=
  modify (λ s, RSock (read_buf s) (read_pos s) n (kernel s)).
Definition set_kernel (k : K) : R unit :=
  modify (λ s, RSock (read_buf s) (read_pos s) (last_avail s) k).

(** [memcpy( buf, &read_buf[read_pos], s )]: the bytes copied. *)
Definition copy_out (s : Z) : R (list byte) :=
  b ← gets read_buf;
  p ← gets read_pos;
  if bool_decide (0 ≤ s ∧ p + s ≤ Z.of_nat (length b))%Z
  then mret (take (Z.to_nat s) (drop (Z.to_nat p) b))
  else undef OutOfRange.

(** [boost::asio::read] of all that is available into the caller's buffer of
    [size] bytes and the read buffer behind it: what the caller's buffer gets,
    and the number of bytes read. *)
Definition fill (size avail : Z) : R (list byte * Z) :=
  b ← gets read_buf;
  set_read_buf (resize (avail - size) b);;
  k ← gets (A:=K) kernel;
  let '(bs, k') := read_now avail k in
  set_kernel k';;
  set_read_buf (drop (Z.to_nat size) bs);;
  mret (take (Z.to_nat size) bs, Z.of_nat (length bs)).

(** An asynchronous read that was waited for. *)
Definition await (op : K → (exn + list byte) * K) : R (list byte) :=
  k ← gets (A:=K) kernel;
  let '(r, k') := op k in
  set_kernel k';;
  match r with
  | inr bs => mret bs
  | inl e => throw e
  end.

(** [detail::socket::read], once the read buffer is empty: [r] bytes were
    delivered, [size] are wanted. *)
Definition read_rest (r size : Z) : R (Z * list byte) :=
  k ← gets (A:=K) kernel;
  set_last_avail (available k);;
  if bool_decide (size ≤ available k)%Z then
    x ← fill size (available k);
    mret (r + size, x.1)%Z
  else
    bs ← await (read_all size);
    mret (r + Z.of_nat (length bs), bs)%Z.

(** [read_pos += s], and emptying a buffer that was read to its end. *)
Definition consume (s : Z) : R unit :=
  st ← gets id;
  set_read_pos (read_pos st + s);;
  when (bool_decide (read_pos st + s = buf_size st)%Z) (set_read_buf [];; set_read_pos 0).

(** [detail::socket::read]: the returned count and the bytes in the caller's
    buffer. *)
Definition sock_read (size : Z) : R (Z * list byte) :=
  st ← gets id;
  let left := size_t (buf_size st - read_pos st) in
  if bool_decide (left ≠ 0)%Z then
    let s := to_int (Z.min left size) in
    bs ← copy_out s;
    let size := size_t (size - s) in
    consume s;;
    if bool_decide (size = 0)%Z then mret (s, bs)
    else
      x ← read_rest s size;
      mret (x.1, bs ++ x.2)
  else read_rest 0 size.

(** [detail::socket::read_some], once past the read buffer. *)
Definition read_some_rest (size : Z) : R (Z * list byte) :=
  k ← gets (A:=K) kernel;
  set_last_avail (available k);;
  if bool_decide (size ≤ available k)%Z then
    x ← fill size (available k);
    let r := to_int x.2 in
    set_last_avail (size_t (available k - r));;
    mret (r, x.1)
  else
    bs ← await (read_any size);
    mret (Z.of_nat (length bs), bs).

(** [detail::socket::read_some] *)
Definition sock_read_some (size : Z) : R (Z * list byte) :=
  st ← gets id;
  let left := size_t (buf_size st - read_pos st) in
  if bool_decide (buf_size st ≠ 0)%Z && bool_decide (left ≠ 0)%Z then
    let s := to_int (Z.min left size) in
    bs ← copy_out s;
    let size := size_t (size - s) in
    let new_rbs := uint32 (buf_size st - s) in
    (if bool_decide (new_rbs ≠ 0)%Z then set_read_pos s else set_read_buf []);;
    if bool_decide (size = 0)%Z then mret (s, bs)
    else
      x ← read_some_rest size;
      mret (x.1, bs ++ x.2)
  else read_some_rest size.
End ops.

Section read.
Context {K : Type} `{HK : KernelSpec K}.
Implicit Types (st : rsock K).

(** The read position lies within the buffer, and an exhausted buffer was
    emptied; everything fits the widths the code computes in. *)
Record sock_inv st : Prop := {
  si_pos : (0 ≤ read_pos st ≤ buf_size st)%Z;
  si_empty : read_pos st = buf_size st → read_pos st = 0%Z;
  si_size : (buf_size st < 2 ^ 31)%Z;
}.

(** What the socket will still deliver. *)
Definition unread st : list byte := drop (Z.to_nat (read_pos st)) (read_buf st) ++ stream (kernel st).

Lemma unread_length st : sock_inv st →
  Z.of_nat (length (unread st)) =
  (buf_size st - read_pos st + Z.of_nat (length (stream (kernel st))))%Z.
Proof.
  intros [H1 _ _]. unfold unread, buf_size in *. rewrite length_app, length_drop. lia.
Qed.

(** [fill] empties the kernel's buffer in order. *)
Lemma fill_spec st (size : Z) :
  (0 ≤ size ≤ available (kernel st))%Z →
  wp (fill size (available (kernel st))) (returns (λ x st',
    x.1 = take (Z.to_nat size) (stream (kernel st)) ∧ x.2 = available (kernel st) ∧
    read_pos st' = read_pos st ∧
    buf_size st' = (available (kernel st) - size)%Z ∧
    read_buf st' ++ stream (kernel st') = drop (Z.to_nat size) (stream (kernel st)))) st.
Proof.
  intros Hsize. unfold fill. pose proof (available_bound (kernel st)) as Hb.
  destruct (read_now_spec (available (kernel st)) (kernel st)) as [Heq Hstr]; [lia|].
  rewrite wp_bind, wp_gets, wp_bind. unfold set_read_buf at 1. rewrite wp_modify.
  rewrite wp_bind, wp_gets. simpl. rewrite Heq. simpl.
  unfold set_kernel, set_read_buf. rewrite wp_bind, wp_modify, wp_bind, wp_modify, wp_ret. simpl.
  unfold buf_size. simpl. rewrite length_drop, length_take.
  split_and!; [|lia|done|lia|].
  - rewrite take_take. f_equal. lia.
  - rewrite Hstr, skipn_firstn_comm.
    rewrite <-(take_drop (Z.to_nat (available (kernel st)) - Z.to_nat size)
      (drop (Z.to_nat size) (stream (kernel st)))) at 2.
    rewrite drop_drop. do 2 f_equal. lia.
Qed.

(** The rest of [read], with the buffer empty. *)
Lemma read_rest_spec st (r size : Z) :
  read_pos st = 0%Z → read_buf st = [] → (0 < size)%Z →
  (size ≤ Z.of_nat (length (stream (kernel st))))%Z →
  (available (kernel st) < 2 ^ 31)%Z →
  wp (read_rest r size) (returns (λ x st',
    x = (r + size, take (Z.to_nat size) (stream (kernel st)))%Z ∧ sock_inv st' ∧
    unread st' = drop (Z.to_nat size) (stream (kernel st)))) st.
Proof.
  intros Hp Hb Hsize Hlen Hav. unfold read_rest, set_last_avail.
  pose proof (available_bound (kernel st)) as Hbound.
  rewrite wp_bind, wp_gets, wp_bind, wp_modify. case_bool_decide as Hge.
  - rewrite wp_bind. eapply wp_mono, (fill_spec (RSock _ _ _ (kernel st))); [|simpl; lia].
    intros [[bs n]|?|?] st'; try done. simpl. intros (-> & -> & Hp' & Hbs & Hstr).
    rewrite wp_ret. split; [done|]. rewrite Hp in Hp'.
    split; [|unfold unread; by rewrite Hp'].
    split; rewrite ?Hp'; lia.
  - destruct (read_all_spec size (kernel st)) as [Heq Hstr]; [lia|].
    unfold await, set_kernel. rewrite wp_bind, wp_bind, wp_gets. simpl.
    destruct (read_all size (kernel st)) as [res k'] eqn:Hra. simpl in *. subst res.
    rewrite wp_bind, wp_modify, wp_ret, wp_ret. simpl. split; [|split].
    + rewrite length_take. do 2 f_equal; lia.
    + split; simpl; rewrite ?Hp; unfold buf_size; simpl; rewrite ?Hb; simpl; lia.
    + unfold unread. simpl. by rewrite Hb, drop_nil, Hstr.
Qed.

(** The bytes still in the read buffer. *)
Lemma buffered_left st : sock_inv st →
  size_t (buf_size st - read_pos st) = (buf_size st - read_pos st)%Z.
Proof. intros [H1 _ H3]. apply size_t_id. lia. Qed.

Lemma copy_out_spec st (s : Z) :
  (0 ≤ s ≤ buf_size st - read_pos st)%Z →
  copy_out s st = (Ret (take (Z.to_nat s) (drop (Z.to_nat (read_pos st)) (read_buf st))), st).
Proof.
  intros Hs. apply wp_run. unfold copy_out. rewrite wp_bind, wp_gets, wp_bind, wp_gets.
  rewrite bool_decide_eq_true_2 by (unfold buf_size in Hs; lia). done.
Qed.

(** The part of [read] that empties the read buffer. *)
Lemma consume_spec st (s : Z) :
  sock_inv st → (0 ≤ s ≤ buf_size st - read_pos st)%Z → (0 < buf_size st - read_pos st)%Z →
  wp (consume s) (returns (λ _ st', sock_inv st' ∧ kernel st' = kernel st ∧
      unread st' = drop (Z.to_nat s) (unread st) ∧
      (s = buf_size st - read_pos st → read_buf st' = [] ∧ read_pos st' = 0)%Z)) st.
Proof.
  intros [Hpos Hemp Hsz] Hs Hleft. unfold consume, set_read_pos, set_read_buf, when, id.
  rewrite wp_bind, wp_gets, wp_bind, wp_modify. unfold buf_size in *.
  assert (Hdrop : ∀ xs : list byte, drop (Z.to_nat s)
    (drop (Z.to_nat (read_pos st)) (read_buf st) ++ xs) =
    drop (Z.to_nat (read_pos st + s)) (read_buf st) ++ xs).
  { intros xs. rewrite drop_app_le by (rewrite length_drop; lia). rewrite drop_drop.
    do 2 f_equal. lia. }
  case_bool_decide as Hall.
  - rewrite wp_bind, wp_modify, wp_modify. simpl.
    split_and!; [split; unfold buf_size; simpl; lia|done| |done].
    unfold unread. simpl. rewrite Hdrop. rewrite (drop_ge (read_buf st)) by lia. done.
  - rewrite wp_ret. simpl. split_and!; [split; unfold buf_size; simpl; lia|done| |lia].
    unfold unread. simpl. by rewrite Hdrop.
Qed.

(** The guards under which [read] neither blocks for ever nor overflows. *)
Definition can_read st (size : Z) : Prop :=
  sock_inv st ∧ (0 < size < 2 ^ 31)%Z ∧ (size ≤ Z.of_nat (length (unread st)))%Z ∧
  (available (kernel st) < 2 ^ 31)%Z.

Lemma sock_read_spec st (size : Z) :
  can_read st size →
  wp (sock_read size) (returns (λ x st',
    x = (size, take (Z.to_nat size) (unread st)) ∧ sock_inv st' ∧
    unread st' = drop (Z.to_nat size) (unread st))) st.
Proof.
  intros (Hinv & Hsize & Hlen & Hav). pose proof Hinv as [Hpos Hemp Hsz].
  rewrite (unread_length st Hinv) in Hlen. unfold sock_read. rewrite wp_bind, wp_gets.
  unfold id. rewrite (buffered_left st Hinv).
  set (left := (buf_size st - read_pos st)%Z) in *. case_bool_decide as Hl.
  - rewrite to_int_id by lia. set (s := Z.min left size).
    rewrite wp_bind. unfold wp at 1. rewrite copy_out_spec by lia. simpl.
    rewrite size_t_id by lia. rewrite wp_bind. eapply wp_mono, consume_spec; [|done|lia|lia].
    intros [[]|?|?] st1; try done. intros (Hinv1 & Hk1 & Hun1 & Hall).
    assert (Hchunk : take (Z.to_nat s) (drop (Z.to_nat (read_pos st)) (read_buf st)) =
      take (Z.to_nat s) (unread st)).
    { unfold unread. rewrite take_app_le; [done|]. rewrite length_drop.
      unfold buf_size in *. lia. }
    rewrite Hchunk. case_bool_decide as Hz.
    + rewrite wp_ret. assert (s = size) as -> by lia. done.
    + assert (s = left) as Hs by lia. destruct (Hall Hs) as [Hb1 Hp1].
      assert (Hstr : stream (kernel st) = drop (Z.to_nat s) (unread st)).
      { rewrite <-Hun1. unfold unread. by rewrite Hb1, drop_nil, Hk1. }
      rewrite wp_bind. eapply wp_mono, (read_rest_spec st1 s (size - s));
        [|done|done|lia|rewrite Hk1; lia|by rewrite Hk1].
      intros [x|?|?] st2; try done. intros (-> & Hinv2 & Hun2). rewrite wp_ret. simpl.
      rewrite Hk1, Hstr in *. split; [|split; [done|]].
      * f_equal; [lia|]. rewrite <-(take_drop (Z.to_nat s) (take (Z.to_nat size) (unread st))).
        rewrite take_take, Nat.min_l by lia. rewrite skipn_firstn_comm. do 2 f_equal. lia.
      * rewrite Hun2, drop_drop. f_equal. lia.
  - assert (Hp : read_pos st = 0%Z) by (apply Hemp; lia).
    assert (Hb : read_buf st = []) by (apply length_zero_iff_nil; unfold left, buf_size in *; lia).
    assert (Hun : unread st = stream (kernel st)) by (unfold unread; by rewrite Hb, drop_nil).
    rewrite Hun. eapply wp_mono, read_rest_spec; [|done|done|lia|lia|done].
    intros o st2 Ho. exact Ho.
Qed.

(** ** Properties *)

(** C13: [read] is exact and in order: it returns the number of bytes asked for,
    and the next so many bytes of the stream, whether they come from the read
    buffer, from the kernel or from both, and leaves the rest to be read. *)
Theorem read_in_order st (size : Z) :
  can_read st size →
  wp (sock_read size) (returns (λ x st',
    x = (size, take (Z.to_nat size) (unread st)) ∧ sock_inv st' ∧
    unread st' = drop (Z.to_nat size) (unread st))) st.
Proof. apply sock_read_spec. Qed.

(** [read_some] does not move on: after a read that left the position at
    [n], a read of [n] more bytes from the buffer delivers the same bytes again
    and changes nothing, for as long as it is repeated. *)
Theorem read_some_repeats st :
  (0 < read_pos st)%Z → (2 * read_pos st ≤ buf_size st < 2 ^ 31)%Z →
  sock_read_some (read_pos st) st =
    (Ret (read_pos st, take (Z.to_nat (read_pos st)) (drop (Z.to_nat (read_pos st)) (read_buf st))), st).
Proof.
  intros Hp Hb. apply wp_run. unfold sock_read_some. rewrite wp_bind, wp_gets. unfold id.
  rewrite size_t_id by lia. rewrite !bool_decide_eq_true_2 by lia. simpl.
  rewrite Z.min_r by lia. rewrite to_int_id by lia. rewrite wp_bind. unfold wp at 1.
  rewrite copy_out_spec by lia. cbn [fst snd].
  rewrite uint32_id, size_t_id by lia. rewrite !bool_decide_eq_true_2 by lia.
  unfold set_read_pos. rewrite wp_bind, wp_modify, wp_ret. by destruct st.
Qed.

(** [read_some] reports bytes it did not deliver: with an empty buffer and
    more bytes available than asked for, it returns the number it took from the
    kernel, which includes those it kept in the read buffer. *)
Theorem read_some_overreports st (size : Z) :
  read_buf st = [] → (0 ≤ size < available (kernel st))%Z →
  (available (kernel st) < 2 ^ 31)%Z →
  wp (sock_read_some size) (returns (λ x st',
    x = (available (kernel st), take (Z.to_nat size) (stream (kernel st))) ∧
    (Z.of_nat (length x.2) < x.1)%Z)) st.
Proof.
  intros Hb Hsize Hav. unfold sock_read_some. rewrite wp_bind, wp_gets. unfold id.
  assert (Hbs : buf_size st = 0%Z) by (unfold buf_size; by rewrite Hb).
  rewrite bool_decide_eq_false_2 by (rewrite Hbs; lia). simpl.
  unfold read_some_rest, set_last_avail. rewrite wp_bind, wp_gets, wp_bind, wp_modify.
  rewrite bool_decide_eq_true_2 by lia. rewrite wp_bind.
  eapply wp_mono, (fill_spec (RSock _ _ _ (kernel st))); [|simpl; lia].
  intros [[bs n]|?|?] st'; try done. simpl. intros (-> & -> & _).
  rewrite wp_bind, wp_modify, wp_ret, to_int_id by lia. split; [done|]. simpl.
  rewrite length_take. lia.
Qed.
End read.
