(* ===== verification/TcpIterator.v ===== *)
(** The input iterator of [asio::tcp::socket] (asio/tcp/socket.hpp, asio/tcp/socket.cpp):
    each increment reads one byte of the stream. An iterator without a socket stands for
    the end. *)
From Stdlib Require Import Strings.Byte.
From S2P Require Import Prelude World TcpRead.

(** [it_socket] tells whether [s] points to the socket or is null. *)
Record sock_iterator := SockIterator {
  it_value : byte;
  it_socket : bool;
}.

Section ops.
Context {K : Type} `{!Kernel K}.
Abbreviation R := (M (rsock K) exn).

(** [operator++] *)
Definition iterator_inc (it : sock_iterator) : R sock_iterator :=
  if it_socket it then
    x ← sock_read 1;
    mret (SockIterator (default (it_value it) (head x.2)) (bool_decide (x.1 = 1%Z)))
  else undef BadPointer.

(** [operator++(int)]: what it returns, and the iterator afterwards *)
Definition iterator_post_inc (it : sock_iterator) : R (sock_iterator * sock_iterator) :=
  let tmp := it in
  it ← iterator_inc it;
  mret (tmp, it).

(** [iterator( s )]; [garbage] is the value the constructor leaves as it is. *)
Definition new_iterator (garbage : byte) (s : bool) : R sock_iterator :=
  if s then iterator_inc (SockIterator garbage true) else mret (SockIterator garbage false).

(** [operator==] of iterators of one socket, and [operator!=] *)
Definition iterator_eq (i j : sock_iterator) : bool := Bool.eqb (it_socket i) (it_socket j).
Definition iterator_ne (i j : sock_iterator) : bool := negb (iterator_eq i j).

(** [*i++], so many times *)
Fixpoint iterator_take (n : nat) (it : sock_iterator) : R (list byte * sock_iterator) :=
  match n with
  | 0 => mret ([], it)
  | S n =>
    x ← iterator_post_inc it;
    y ← iterator_take n x.2;
    mret (it_value x.1 :: y.1, y.2)
  end.
End ops.

(** A read of so many bytes that succeeds has read so many, as [boost::asio::async_read]
    documents. *)
Class ReadsAll (K : Type) `{!Kernel K} : Prop :=
  reads_all n k bs : (0 ≤ n)%Z → (read_all n k).1 = inr bs → Z.of_nat (length bs) = n.

Section iterators.
Context {K : Type} `{HK : KernelSpec K}.
Implicit Types (st : rsock K).

(** The byte the next increment gets *)
Lemma iterator_inc_spec st it v rest :
  sock_inv st → it_socket it = true → unread st = v :: rest → (available (kernel st) < 2 ^ 31)%Z →
  wp (iterator_inc it) (returns (λ it' st', it' = SockIterator v true ∧ sock_inv st' ∧ unread st' = rest)) st.
Proof.
  intros Hinv Hit Hun Hav. unfold iterator_inc. rewrite Hit, wp_bind.
  eapply wp_mono, (sock_read_spec st 1); [|by split_and!; [done..| |]; rewrite ?Hun; simpl; lia].
  intros [x|?|?] st'; try done. intros (-> & Hinv' & Hun'). rewrite wp_ret. rewrite Hun in *.
  split; [done|]. by split.
Qed.

(** The bytes left are never more than the available ones the widths allow. *)
Lemma available_unread st : (Z.of_nat (length (unread st)) < 2 ^ 31)%Z → (available (kernel st) < 2 ^ 31)%Z.
Proof.
  intros Hl. pose proof (available_bound (kernel st)). unfold unread in Hl. rewrite length_app in Hl. lia.
Qed.

Lemma last_cons_default {A} (l : list A) a b : List.last (b :: l) a = List.last l b.
Proof. revert b. induction l as [|c l IH]; intros b; [done|]. simpl in *. by destruct l. Qed.

(** A step whose outcome does not matter *)
Lemma wp_any {A B} (m : M (rsock K) exn A) (f : A → M (rsock K) exn B) (P : B → Prop) st :
  (∀ a st', wp (f a) (λ o _, ∀ b, o = Ret b → P b) st') → wp (a ← m; f a) (λ o _, ∀ b, o = Ret b → P b) st.
Proof.
  intros Hf. rewrite wp_bind. eapply (wp_mono _ (λ _ _, True)); [|done].
  intros [a|e|u] st' _; [apply Hf|done|done].
Qed.

Lemma await_all `{!ReadsAll K} st (n : Z) :
  (0 ≤ n)%Z → wp (await (read_all n)) (λ o _, ∀ bs, o = Ret bs → Z.of_nat (length bs) = n) st.
Proof.
  intros Hn. unfold await, set_kernel. rewrite wp_bind, wp_gets.
  destruct (read_all n (kernel st)) as [[e|bs] k'] eqn:Hr; rewrite wp_bind, wp_modify; [by rewrite wp_throw|].
  rewrite wp_ret. intros bs' [= <-]. apply (reads_all n (kernel st)); [done|by rewrite Hr].
Qed.

(** A read of one byte reports one byte, or fails. *)
Lemma read_rest_one `{!ReadsAll K} st :
  wp (read_rest 0 1) (λ o _, ∀ x, o = Ret x → x.1 = 1%Z) st.
Proof.
  unfold read_rest. apply wp_any. intros k st1. apply wp_any. intros _ st2. case_bool_decide.
  - apply wp_any. intros y st3. rewrite wp_ret. by intros x [= <-].
  - rewrite wp_bind. eapply wp_mono, await_all; [|lia]. intros [bs|?|?] st3 Hbs; [|done..].
    rewrite wp_ret. intros x [= <-]. simpl. by apply Hbs.
Qed.

Lemma read_one `{!ReadsAll K} st : wp (sock_read 1) (λ o _, ∀ x, o = Ret x → x.1 = 1%Z) st.
Proof.
  unfold sock_read. apply wp_any. intros s st1. case_bool_decide as Hl; [|apply read_rest_one].
  assert (Hs : to_int (Z.min (size_t (buf_size s - read_pos s)) 1) = 1%Z).
  { rewrite Z.min_r; [done|]. unfold size_t in *. pose proof (Z.mod_pos_bound (buf_size s - read_pos s) (2 ^ 64)). lia. }
  rewrite Hs. apply wp_any. intros bs st2. apply wp_any. intros _ st3.
  rewrite bool_decide_eq_true_2 by done. rewrite wp_ret. by intros x [= <-].
Qed.

(** ** Properties *)

(** C18: an iterator visits the bytes of the stream in order: with [v] in the iterator,
    [n] times [*i++] give [v] and the next bytes, and leave the iterator on the byte that
    follows. *)
Theorem iterator_visits_stream n st v w rest :
  sock_inv st → length v = n → unread st = v ++ rest → (Z.of_nat (length (unread st)) < 2 ^ 31)%Z →
  wp (iterator_take n (SockIterator w true)) (returns (λ x st',
    x = (removelast (w :: v), SockIterator (List.last v w) true) ∧ sock_inv st' ∧ unread st' = rest)) st.
Proof.
  revert st v w. induction n as [|n IH]; intros st v w Hinv Hn Hun Hl; cbn [iterator_take].
  { apply nil_length_inv in Hn as ->. by rewrite wp_ret. }
  destruct v as [|x v]; [done|]. injection Hn as Hn. rewrite wp_bind. unfold iterator_post_inc. rewrite wp_bind.
  eapply wp_mono, (iterator_inc_spec st _ x (v ++ rest)); [|done|done|done|by apply available_unread].
  intros [it|?|?] st1; try done. intros (-> & Hinv1 & Hun1). rewrite wp_ret. cbn [fst snd]. rewrite wp_bind.
  eapply wp_mono, (IH st1 v x Hinv1 Hn Hun1); [|rewrite Hun1; rewrite Hun in Hl; simpl in Hl; lia].
  intros [y|?|?] st2; try done. intros (-> & Hinv2 & Hun2). rewrite wp_ret. split; [|by split].
  by rewrite <-(last_cons_default v w x).
Qed.

(** The end is never reached: an increment that returns leaves an iterator that differs from
    the end, since reading one byte gives one byte or throws. *)
Theorem iterator_end_is_not_reached `{!ReadsAll K} st it garbage :
  wp (iterator_inc it) (λ o _, ∀ it', o = Ret it' → iterator_ne it' (SockIterator garbage false) = true) st.
Proof.
  unfold iterator_inc. destruct (it_socket it); [|by rewrite wp_undef].
  rewrite wp_bind. eapply wp_mono, read_one. intros [x|?|?] st' Hx; [|done..].
  rewrite wp_ret. intros it' [= <-]. unfold iterator_ne, iterator_eq. simpl.
  by rewrite bool_decide_eq_true_2 by auto.
Qed.
End iterators.
