(* ===== verification/TcpWrite.v ===== *)
(** The write side of [asio::tcp::socket] (asio/tcp/socket.cpp): [write] fills
    one of two buffers while a task, [write_loop], hands the other to the
    network. The two run in different fibres of a thread, so the model is a step
    relation: a call of [write], the completion of one asynchronous write of the
    loop, its failure, and a [flush] that had to wait. *)
From Stdlib Require Import Strings.Byte.
From S2P Require Import Prelude World.

(** The promise of the write loop: not completed (or with its error taken out), or with a
    value or an error *)
Inductive completion := Pending | Written | Failed (e : exn).

(** The context in [flush], if any: waiting for the loop's promise, or to be resumed, with
    the error that promise got, if it got one *)
Inductive flush_state := NoFlush | Flushing | Flushed (r : option exn).

(** Buffers are numbered by a bit, so that [(i+1)&0x01] is [negb]. *)
Record wsock := WSock {
  write_buf : bool → list byte;
  cur_write_buf : option bool;             (* which buffer, or NULL *)
  cur_wbuf_idx : bool;
  loop : option (bool * nat);              (* write_loop: buffer, total_wrote *)
  write_complete : option completion;      (* null, or its promise *)
  sent : list byte;                        (* what the network was given *)
  flusher : flush_state;
}.

Definition new_wsock : wsock := WSock (λ _, []) None false None None [] NoFlush.

Definition set_write_buf (i : bool) (l : list byte) (s : wsock) : wsock :=
  WSock (λ j, if decide (j = i) then l else write_buf s j) (cur_write_buf s) (cur_wbuf_idx s)
    (loop s) (write_complete s) (sent s) (flusher s).
Definition set_cur_write_buf x (s : wsock) : wsock :=
  WSock (write_buf s) x (cur_wbuf_idx s) (loop s) (write_complete s) (sent s) (flusher s).
Definition set_cur_wbuf_idx x (s : wsock) : wsock :=
  WSock (write_buf s) (cur_write_buf s) x (loop s) (write_complete s) (sent s) (flusher s).
Definition set_loop x (s : wsock) : wsock :=
  WSock (write_buf s) (cur_write_buf s) (cur_wbuf_idx s) x (write_complete s) (sent s) (flusher s).
Definition set_write_complete x (s : wsock) : wsock :=
  WSock (write_buf s) (cur_write_buf s) (cur_wbuf_idx s) (loop s) x (sent s) (flusher s).
Definition set_sent x (s : wsock) : wsock :=
  WSock (write_buf s) (cur_write_buf s) (cur_wbuf_idx s) (loop s) (write_complete s) x (flusher s).
Definition set_flusher x (s : wsock) : wsock :=
  WSock (write_buf s) (cur_write_buf s) (cur_wbuf_idx s) (loop s) (write_complete s) (sent s) x.

Abbreviation W := (M wsock exn).

(** [future<void>::error] *)
Definition write_failure (s : wsock) : option exn :=
  match write_complete s with Some (Failed e) => Some e | _ => None end.
Definition write_error : W (option exn) := gets write_failure.

(** [boost::cmt::async<void>( bind( &socket::write_loop, this, idx ) )] *)
Definition start_write_loop (idx : bool) : W unit :=
  modify (λ s, set_write_complete (Some Pending) (set_loop (Some (idx, 0)) s)).

(** The end of the task of [write_loop]: its promise is completed, which wakes a context
    in [flush]. *)
Definition end_write_loop (e : option exn) : W unit :=
  modify (λ s, set_loop None (set_write_complete
    (Some (match e with Some e => Failed e | None => Written end))
    (set_flusher (match flusher s with Flushing => Flushed e | f => f end) s))).

(** [detail::socket::write] *)
Definition sock_write (buffer : list byte) : W nat :=
  e ← write_error;
  match e with
  | Some e => throw e
  | None =>
    if bool_decide (buffer = []) then mret 0
    else
      s ← gets id;
      let first := bool_decide (cur_write_buf s = None) in
      when first
        (modify (set_cur_wbuf_idx false);; modify (set_cur_write_buf (Some false)));;
      s ← gets id;
      cur ← deref (cur_write_buf s);
      modify (set_write_buf cur (write_buf s cur ++ buffer));;
      when first
        (start_write_loop (cur_wbuf_idx s);;
         modify (set_cur_wbuf_idx (negb (cur_wbuf_idx s)));;
         modify (set_cur_write_buf (Some (negb (cur_wbuf_idx s)))));;
      mret (length buffer)
  end.

(** The end of one round of [write_loop], once its buffer [idx] was written. *)
Definition switch_buffers (idx : bool) : W unit :=
  modify (set_write_buf idx []);;
  s ← gets id;
  cur ← deref (cur_write_buf s);
  if bool_decide (write_buf s cur ≠ []) then
    modify (set_cur_wbuf_idx (negb (cur_wbuf_idx s)));;
    modify (set_cur_write_buf (Some (negb (cur_wbuf_idx s))));;
    modify (set_loop (Some (negb idx, 0)))
  else
    modify (set_cur_wbuf_idx false);;
    modify (set_cur_write_buf None);;
    end_write_loop None.

(** [write_loop] from one completed asynchronous write, of [wrote] bytes, to the
    next one it starts, or to its return. *)
Definition write_loop_wrote (wrote : nat) : W unit :=
  s ← gets id;
  l ← deref (loop s);
  let '(idx, total) := l in
  let size := length (write_buf s idx) in
  modify (set_sent (sent s ++ take wrote (drop total (write_buf s idx))));;
  modify (set_loop (Some (idx, total + wrote)));;
  if bool_decide (total + wrote < size) then mret tt else switch_buffers idx.

(** [write_loop] when an asynchronous write throws [e], with [wrote] bytes of it sent: the
    task ends and the error goes into its promise. *)
Definition write_loop_failed (wrote : nat) (e : exn) : W unit :=
  s ← gets id;
  l ← deref (loop s);
  let '(idx, total) := l in
  modify (set_sent (sent s ++ take wrote (drop total (write_buf s idx))));;
  end_write_loop (Some e).

(** [socket::flush], up to the wait if it has to wait *)
Definition flush : W unit :=
  s ← gets id;
  match write_complete s with
  | None | Some Written => mret tt
  | Some (Failed e) => throw e
  | Some Pending => modify (set_flusher Flushing)
  end.

(** [flush] once its wait is over: it takes an error out of the promise ([Future.v]). *)
Definition flush_resume : W unit :=
  s ← gets id;
  match flusher s with
  | Flushed None => modify (set_flusher NoFlush)
  | Flushed (Some e) =>
    modify (set_flusher NoFlush);; modify (set_write_complete (Some Pending));; throw e
  | _ => undef BadPointer
  end.

(** * Steps *)

(** What happens to a socket, with the bytes a [write] accepted. One context at a time is in
    [flush], since a promise has one waiter. *)
Inductive wstep : wsock → list byte → wsock → Prop :=
  | step_write bs s s' n :
      sock_write bs s = (Ret n, s') → wstep s bs s'
  | step_write_throws bs s s' e :
      sock_write bs s = (Exc e, s') → wstep s [] s'
  | step_wrote n s s' idx total :
      loop s = Some (idx, total) → 0 < n ≤ length (write_buf s idx) - total →
      write_loop_wrote n s = (Ret tt, s') → wstep s [] s'
  | step_wrote_failed n e s s' :
      write_loop_failed n e s = (Ret tt, s') → wstep s [] s'
  | step_flush s o s' :
      flusher s = NoFlush → flush s = (o, s') → wstep s [] s'
  | step_flush_resume s o s' r :
      flusher s = Flushed r → flush_resume s = (o, s') → wstep s [] s'.

(** From [s0], while the bytes [acc] were accepted; from a new socket. *)
Inductive runs_from (s0 : wsock) : wsock → list byte → Prop :=
  | run_start : runs_from s0 s0 []
  | run_step s acc bs s' : runs_from s0 s acc → wstep s bs s' → runs_from s0 s' (acc ++ bs).

Definition reachable (s : wsock) (acc : list byte) : Prop := runs_from new_wsock s acc.

(** An asynchronous write has failed, at any time before. *)
Definition has_failed (s : wsock) : Prop :=
  ∃ s0 acc n e s1 more, reachable s0 acc ∧ write_loop_failed n e s0 = (Ret tt, s1) ∧ runs_from s1 s more.

(** No loop runs and none is ever started again: a buffer is still being filled. *)
Definition stuck (s : wsock) : Prop := loop s = None ∧ cur_write_buf s ≠ None.

(** While the loop works on one buffer, [write] fills the other; unless a write has failed,
    nothing is accepted without a loop. *)
Definition wsock_inv (s : wsock) (acc : list byte) : Prop :=
  (∀ e, flusher s = Flushed (Some e) → stuck s) ∧
  match loop s, cur_write_buf s with
  | Some (i, total), cur =>
      write_complete s = Some Pending ∧
      cur = Some (negb i) ∧ cur_wbuf_idx s = negb i ∧
      total < length (write_buf s i) ∧
      acc = sent s ++ drop total (write_buf s i) ++ write_buf s (negb i)
  | None, None =>
      write_failure s = None ∧ cur_wbuf_idx s = false ∧
      (∀ i, write_buf s i = []) ∧ acc = sent s
  | None, Some _ => ∃ lost, acc = sent s ++ lost
  end.

(** The part the invariant of a running loop says about [s]. *)
Lemma wsock_inv_running s acc i total :
  (∀ e, flusher s ≠ Flushed (Some e)) → write_complete s = Some Pending →
  loop s = Some (i, total) → cur_write_buf s = Some (negb i) → cur_wbuf_idx s = negb i →
  total < length (write_buf s i) →
  acc = sent s ++ drop total (write_buf s i) ++ write_buf s (negb i) → wsock_inv s acc.
Proof. intros Hf ? Hl ? ? ? ?. split; [by intros e ?%Hf|]. by rewrite Hl. Qed.

Lemma wsock_inv_not_flushed s acc e : wsock_inv s acc → loop s ≠ None → flusher s ≠ Flushed (Some e).
Proof. intros [Hf _] Hl He. by destruct (Hf e He). Qed.

Lemma decide_self {A} (i : bool) (x y : A) : (if decide (i = i) then x else y) = x.
Proof. by rewrite decide_True. Qed.
Lemma decide_negb {A} (i : bool) (x y : A) : (if decide (negb i = i) then x else y) = y.
Proof. by destruct i. Qed.
Lemma decide_negb' {A} (i : bool) (x y : A) : (if decide (i = negb i) then x else y) = y.
Proof. by destruct i. Qed.

Create Rewrite HintDb wbuf.
#[export] Hint Rewrite @decide_self @decide_negb @decide_negb' negb_involutive : wbuf.

Lemma sock_write_inv bs s acc :
  wsock_inv s acc →
  match sock_write bs s with
  | (Ret n, s') => wsock_inv s' (acc ++ bs) ∧ n = length bs
  | (Exc e, s') => s' = s ∧ write_failure s = Some e
  | (Undef _, _) => False
  end.
Proof.
  intros Hinv. unfold sock_write, write_error, mbind, M_bind, gets.
  destruct (write_failure s) as [e|] eqn:He; [done|].
  case_bool_decide as Hbs; [subst; by rewrite app_nil_r|].
  assert (Hlen : 0 < length bs) by (destruct bs; simpl; [done|lia]).
  destruct (loop s) as [[i total]|] eqn:Hl.
  - pose proof (λ e, wsock_inv_not_flushed s acc e Hinv ltac:(by rewrite Hl)) as Hf.
    destruct Hinv as [_ Hinv]. rewrite Hl in Hinv. destruct Hinv as (Hw & Hc & Hx & Ht & ->).
    simpl. unfold id. rewrite Hc. simpl. rewrite Hc. simpl.
    split; [|done]. eapply (wsock_inv_running _ _ i total); simpl;
      autorewrite with wbuf; try done. by rewrite <-!app_assoc.
  - destruct Hinv as [Hf Hinv]. rewrite Hl in Hinv. destruct (cur_write_buf s) as [cur|] eqn:Hc.
    + destruct Hinv as [lost ->]. simpl. unfold id. rewrite Hc. simpl. rewrite Hc. simpl.
      split; [|done]. split; [by intros e _; split; simpl; [|rewrite Hc]|]. simpl. rewrite Hl, Hc.
      exists (lost ++ bs). by rewrite app_assoc.
    + destruct Hinv as (_ & Hx & Hb & ->). simpl. unfold id. rewrite Hc. simpl.
      split; [|done]. apply (wsock_inv_running _ _ false 0); simpl;
        try done; rewrite ?Hb; simpl; try done; [|by rewrite app_nil_r].
      intros e [_ Hbad]%Hf. by rewrite Hc in Hbad.
Qed.

(** What an asynchronous write of the loop has sent moves from the buffer to the network. *)
Lemma sent_split n total (l sent rest : list byte) :
  sent ++ drop total l ++ rest = (sent ++ take n (drop total l)) ++ drop (total + n) l ++ rest.
Proof. rewrite <-(take_drop n (drop total l)) at 1. by rewrite drop_drop, <-!app_assoc. Qed.

Lemma write_loop_wrote_inv n s acc idx total s' :
  wsock_inv s acc → loop s = Some (idx, total) →
  0 < n ≤ length (write_buf s idx) - total →
  write_loop_wrote n s = (Ret tt, s') → wsock_inv s' acc.
Proof.
  intros Hinv Hl Hn Hw. pose proof (λ e, wsock_inv_not_flushed s acc e Hinv ltac:(by rewrite Hl)) as Hf.
  destruct Hinv as [_ Hinv]. rewrite Hl in Hinv. destruct Hinv as (Hp & Hc & Hx & Ht & ->).
  revert Hw. unfold write_loop_wrote, mbind, M_bind, gets, id. rewrite Hl. simpl.
  rewrite (sent_split n). case_bool_decide as Hlt.
  - intros [= <-]. by eapply (wsock_inv_running _ _ idx (total + n)).
  - rewrite (drop_ge _ (total + n)) by lia. simpl.
    unfold switch_buffers, mbind, M_bind, gets, id, modify. simpl. rewrite Hc. simpl.
    autorewrite with wbuf. rewrite Hx. case_bool_decide as Hne.
    + intros [= <-]. apply (wsock_inv_running _ _ (negb idx) 0); simpl;
        autorewrite with wbuf; try done.
      * destruct (write_buf s (negb idx)); simpl; [done|lia].
      * by rewrite app_nil_r.
    + intros [= <-]. split; simpl; [by destruct (flusher s); naive_solver|].
      split_and!; try done; [|by rewrite Hne, app_nil_r].
      intros j. case_decide; [done|]. destruct j, idx; done.
Qed.

Lemma write_loop_failed_inv n e s acc s' :
  wsock_inv s acc → write_loop_failed n e s = (Ret tt, s') → wsock_inv s' acc ∧ stuck s'.
Proof.
  intros [_ Hinv]. unfold write_loop_failed, mbind, M_bind, gets, id.
  destruct (loop s) as [[i total]|]; [|done]. destruct Hinv as (_ & Hc & _ & _ & ->). simpl.
  intros [= <-]. rewrite (sent_split n).
  unfold wsock_inv, stuck. simpl. rewrite Hc. split; [|done]. split; [done|by eexists].
Qed.

Lemma flush_inv s acc o s' : wsock_inv s acc → flush s = (o, s') → wsock_inv s' acc.
Proof.
  intros Hinv Hw.
  assert (s' = s ∨ s' = set_flusher Flushing s) as [-> | ->]; [|done|by destruct Hinv as [_ Hinv]; split].
  revert Hw. unfold flush, mbind, M_bind, gets, id.
  destruct (write_complete s) as [[| |e]|]; intros [= _ <-]; eauto.
Qed.

Lemma flush_resume_inv s acc o s' r :
  wsock_inv s acc → flusher s = Flushed r → flush_resume s = (o, s') → wsock_inv s' acc.
Proof.
  intros [Hf Hinv] Hr. unfold flush_resume, mbind, M_bind, gets, id. rewrite Hr.
  destruct r as [e|]; intros [= _ <-]; split; simpl; try done.
  destruct (Hf e Hr) as [Hl Hc]. rewrite Hl in *. by destruct (cur_write_buf s).
Qed.

Lemma wstep_inv s acc bs s' : wsock_inv s acc → wstep s bs s' → wsock_inv s' (acc ++ bs).
Proof.
  intros Hinv Hstep.
  destruct Hstep as [bs s s' n Hw|bs s s' e Hw|n s s' i t Hl Hn Hw|n e s s' Hw|s o s' Hf Hw|s o s' r Hf Hw];
    rewrite ?app_nil_r.
  - pose proof (sock_write_inv bs s acc Hinv) as Hs. rewrite Hw in Hs. apply Hs.
  - pose proof (sock_write_inv bs s acc Hinv) as Hs. rewrite Hw in Hs. by destruct Hs as [-> _].
  - by eapply write_loop_wrote_inv.
  - by eapply write_loop_failed_inv.
  - by eapply flush_inv.
  - by eapply flush_resume_inv.
Qed.

Lemma reachable_inv s acc : reachable s acc → wsock_inv s acc.
Proof. induction 1 as [|s acc bs s' _ IH Hstep]; [done|by eapply wstep_inv]. Qed.

Lemma stuck_write bs s cur :
  loop s = None → cur_write_buf s = Some cur →
  (∃ e, sock_write bs s = (Exc e, s)) ∨ (∃ n, sock_write bs s = (Ret n, s)) ∨
  ∃ n, sock_write bs s = (Ret n, set_write_buf cur (write_buf s cur ++ bs) s).
Proof.
  intros Hl Hc. unfold sock_write, write_error, mbind, M_bind, gets.
  destruct (write_failure s) as [e|]; [left; by eexists|]. right.
  case_bool_decide; [left; by eexists|]. right. unfold id. rewrite Hc. simpl. rewrite Hc. simpl.
  by eexists.
Qed.

(** After a failure nothing is sent any more. *)
Lemma stuck_step s bs s' : stuck s → wstep s bs s' → stuck s' ∧ sent s' = sent s.
Proof.
  intros [Hl Hc] Hstep. destruct (cur_write_buf s) as [cur|] eqn:Hcur; [|done].
  destruct Hstep as [bs s s' n Hw|bs s s' e Hw|n s s' i t Hl' Hn Hw|n e s s' Hw|s o s' Hf Hw|s o s' r Hf Hw].
  - destruct (stuck_write bs s cur Hl Hcur) as [(e & He)|[(m & Hm)|(m & Hm)]]; rewrite Hw in *; simplify_eq;
      unfold stuck; simpl; by rewrite Hl, Hcur.
  - destruct (stuck_write bs s cur Hl Hcur) as [(e' & He)|[(m & Hm)|(m & Hm)]]; rewrite Hw in *; simplify_eq;
      unfold stuck; simpl; by rewrite Hl, Hcur.
  - congruence.
  - revert Hw. unfold write_loop_failed, mbind, M_bind, gets, id. by rewrite Hl.
  - revert Hw. unfold flush, mbind, M_bind, gets, id.
    destruct (write_complete s) as [[]|]; intros [= _ <-]; unfold stuck; simpl; by rewrite Hl, Hcur.
  - revert Hw. unfold flush_resume, mbind, M_bind, gets, id. rewrite Hf.
    destruct r; intros [= _ <-]; unfold stuck; simpl; by rewrite Hl, Hcur.
Qed.

Lemma stuck_runs s s' acc : stuck s → runs_from s s' acc → stuck s' ∧ sent s' = sent s.
Proof.
  intros Hs. induction 1 as [|s1 acc bs s' _ [Hs1 <-] Hstep]; [done|]. by eapply stuck_step.
Qed.

(** Only a failed write gets there. *)
Lemma stuck_by_failure s bs s' :
  wstep s bs s' → stuck s' → stuck s ∨ ∃ n e, write_loop_failed n e s = (Ret tt, s').
Proof.
  intros Hstep [Hl' Hc'].
  destruct Hstep as [bs s s' n Hw|bs s s' e Hw|n s s' i t Hl Hn Hw|n e s s' Hw|s o s' Hf Hw|s o s' r Hf Hw];
    [| | |right; by do 2 eexists|..]; left; revert Hw;
    unfold sock_write, write_error, write_loop_wrote, switch_buffers, flush, flush_resume, mbind, M_bind, gets, id.
  - destruct (write_failure s); [done|]. simpl. case_bool_decide; [by intros [= _ ->]|].
    destruct (cur_write_buf s) as [cur|] eqn:Hc; simpl; rewrite ?Hc; simpl;
      intros [= _ <-]; [by split; [|rewrite Hc]|done].
  - destruct (write_failure s); simpl; [by intros [= _ <-]|]. case_bool_decide; [done|].
    destruct (cur_write_buf s) as [cur|] eqn:Hc; simpl; by rewrite ?Hc.
  - rewrite Hl. simpl. case_bool_decide; [by intros [= <-]|]. simpl.
    destruct (cur_write_buf s); [|done]. simpl. by case_bool_decide; intros [= <-].
  - destruct (write_complete s) as [[]|]; by intros [= _ <-].
  - rewrite Hf. destruct r; by intros [= _ <-].
Qed.

Lemma stuck_has_failed s acc : reachable s acc → stuck s → has_failed s.
Proof.
  induction 1 as [|s acc bs s' Hr IH Hstep]; [by intros [_ []]|].
  intros [Hs|(n & e & Hw)]%(stuck_by_failure _ _ _ Hstep).
  - destruct (IH Hs) as (s0 & acc0 & n & e & s1 & more & H1 & H2 & H3).
    exists s0, acc0, n, e, s1, (more ++ bs). split_and!; [done..|by eapply run_step].
  - exists s, acc, n, e, s', []. split_and!; [done..|apply run_start].
Qed.

Lemma has_failed_stuck s : has_failed s → stuck s.
Proof.
  intros (s0 & acc & n & e & s1 & more & Hr & Hw & Hs). eapply stuck_runs, Hs.
  eapply write_loop_failed_inv, Hw. by apply reachable_inv.
Qed.

(** The loop left to itself: each asynchronous write takes all it is given. *)
Fixpoint write_loop (fuel : nat) : W unit :=
  s ← gets id;
  match loop s, fuel with
  | None, _ => mret tt
  | Some _, 0 => undef Diverges
  | Some (idx, total), S fuel =>
    write_loop_wrote (length (write_buf s idx) - total);; write_loop fuel
  end.

Lemma wsock_inv_loop s acc i total :
  wsock_inv s acc → loop s = Some (i, total) →
  cur_write_buf s = Some (negb i) ∧ total < length (write_buf s i).
Proof. intros [_ Hinv] Hl. rewrite Hl in Hinv. naive_solver. Qed.

(** One round of the loop: it is over, or goes on with the other buffer, after which it is. *)
Lemma write_loop_wrote_all s acc i total :
  wsock_inv s acc → loop s = Some (i, total) → ∃ s',
  write_loop_wrote (length (write_buf s i) - total) s = (Ret tt, s') ∧ wsock_inv s' acc ∧
  (loop s' = None ∧ cur_write_buf s' = None ∨
   (∃ t, loop s' = Some (negb i, t) ∧ write_buf s' i = []) ∧ write_buf s (negb i) ≠ []).
Proof.
  intros Hinv Hl. destruct (wsock_inv_loop _ _ _ _ Hinv Hl) as [Hc Ht].
  assert (∃ s', write_loop_wrote (length (write_buf s i) - total) s = (Ret tt, s') ∧
    (loop s' = None ∧ cur_write_buf s' = None ∨
     (∃ t, loop s' = Some (negb i, t) ∧ write_buf s' i = []) ∧ write_buf s (negb i) ≠ []))
    as (s' & Hw & Hs').
  { unfold write_loop_wrote, mbind, M_bind, gets, id. rewrite Hl. simpl.
    rewrite bool_decide_eq_false_2 by lia.
    unfold switch_buffers, mbind, M_bind, gets, id, modify. simpl. rewrite Hc. simpl.
    autorewrite with wbuf. case_bool_decide as Hne; (eexists; split; [reflexivity|]); simpl; [|by left].
    right. split; [|done]. exists 0. by autorewrite with wbuf. }
  exists s'. split_and!; [done| |done]. eapply write_loop_wrote_inv; [done|done| |done]. lia.
Qed.

(** ** Properties *)

(** C14: the bytes written to a socket are given to the network in the order they
    were written, and none twice, whatever writes, failures and flushes there are: as long
    as no asynchronous write has failed, what was accepted is at any moment what was sent,
    then what the loop is still writing, then what waits in the other buffer, and all of it
    was sent when the loop is done; once one has failed, what was sent is a first part of
    what was accepted, and stays so: the rest, and whatever is accepted later, is lost. *)
Theorem writes_are_sent_in_order s acc :
  reachable s acc →
  (¬ has_failed s →
    match loop s with
    | Some (i, total) => acc = sent s ++ drop total (write_buf s i) ++ write_buf s (negb i)
    | None => acc = sent s ∧ ∀ i, write_buf s i = []
    end) ∧
  (has_failed s → (∃ lost, acc = sent s ++ lost) ∧
    ∀ s' more, runs_from s s' more → sent s' = sent s).
Proof.
  intros Hr. pose proof (reachable_inv _ _ Hr) as [_ Hinv]. split.
  - intros Hnf. destruct (loop s) as [[i total]|] eqn:Hl; [by destruct Hinv as (_ & _ & _ & _ & ?)|].
    destruct (cur_write_buf s) eqn:Hc; [|by destruct Hinv as (_ & _ & ? & ?)].
    destruct Hnf. eapply stuck_has_failed; [done|]. split; [done|by rewrite Hc].
  - intros Hs%has_failed_stuck. split; [|intros s' more Hruns; by eapply stuck_runs].
    destruct Hs as [Hl Hc]. rewrite Hl in Hinv. by destruct (cur_write_buf s).
Qed.

(** C32: the write loop ends: from any state in which no write has failed, left to itself
    it writes at most two buffers, after which both are empty and all that was accepted has
    been sent. *)
Theorem write_loop_terminates s acc :
  reachable s acc → ¬ has_failed s →
  wp (write_loop 2) (returns (λ _ s', loop s' = None ∧ sent s' = acc ∧
    cur_write_buf s' = None ∧ ∀ i, write_buf s' i = [])) s.
Proof.
  intros Hr Hnf. pose proof (stuck_has_failed s acc Hr) as Hns. apply reachable_inv in Hr.
  assert (Hdone : ∀ s, wsock_inv s acc → loop s = None → cur_write_buf s = None →
    loop s = None ∧ sent s = acc ∧ cur_write_buf s = None ∧ ∀ i, write_buf s i = []).
  { intros s0 [_ Hi] Hl0 Hc0. rewrite Hl0, Hc0 in Hi. by destruct Hi as (_ & ? & ? & ->). }
  destruct (loop s) as [[i t]|] eqn:Hl; cbn [write_loop]; rewrite wp_bind, wp_gets; unfold id; rewrite Hl.
  2:{ rewrite wp_ret. apply Hdone; [done..|]. destruct (cur_write_buf s) eqn:Hc; [|done].
      destruct Hnf. apply Hns. split; [done|by rewrite Hc]. }
  destruct (write_loop_wrote_all s acc i t Hr Hl) as (s1 & Hw1 & Hi1 & Hs1).
  rewrite wp_bind. eapply wp_eq; [exact Hw1|]. cbv beta iota. rewrite wp_bind, wp_gets. unfold id.
  destruct Hs1 as [[Hl1 Hc1]|[(t1 & Hl1 & Hb1) _]]; rewrite Hl1; [by rewrite wp_ret; apply Hdone|].
  destruct (write_loop_wrote_all s1 acc (negb i) t1 Hi1 Hl1) as (s2 & Hw2 & Hi2 & Hs2).
  rewrite wp_bind. eapply wp_eq; [exact Hw2|]. cbv beta iota. rewrite wp_bind, wp_gets. unfold id.
  destruct Hs2 as [[Hl2 Hc2]|[_ Hne]]; [|by rewrite negb_involutive in Hne].
  rewrite Hl2, wp_ret. by apply Hdone.
Qed.

(** After the write loop failed, [write] rethrows its error and accepts
    nothing; but once a [flush] that had to wait has taken the error out of the
    promise, [write] accepts bytes again although no loop will ever send them. *)
Theorem write_after_failure bs e n s acc :
  reachable s acc → loop s ≠ None → flusher s = Flushing → bs ≠ [] →
  let failed := (write_loop_failed n e s).2 in
  sock_write bs failed = (Exc e, failed) ∧
  let flushed := (flush_resume failed).2 in
  wp (sock_write bs) (returns (λ n s', n = length bs ∧ loop s' = None ∧
    sent s' = sent failed ∧ cur_write_buf s' ≠ None)) flushed.
Proof.
  intros Hr Hloop Hfl Hbs. apply reachable_inv in Hr as [_ Hinv].
  destruct (loop s) as [[i t]|] eqn:Hl; [|done]. destruct Hinv as (_ & Hc & Hx & _).
  unfold write_loop_failed, flush_resume, mbind, M_bind, gets, id. rewrite Hl. simpl. rewrite Hfl.
  split; [done|]. simpl. unfold sock_write, write_error, wp, mbind, M_bind, gets. simpl.
  rewrite bool_decide_eq_false_2 by done. unfold id. simpl. rewrite Hc. simpl. rewrite Hc. simpl.
  by rewrite Hc.
Qed.
