(* ===== verification/Streambuf.v ===== *)
(** [basic_socket_streambuf] (asio/basic_socket_streambuf.hpp): the stream
    buffer over a socket, with its get area (behind eight bytes of put-back) and
    its put area. The network under it is a parameter; [sputc], [sbumpc] and the
    like, which call the overridden members, are the standard library's. *)
From Stdlib Require Import Strings.Byte.
From S2P Require Import Prelude World.

(** * Characters *)

Definition eof : Z := (-1)%Z.
Definition to_int_type (b : byte) : Z := Z.of_N (Byte.to_N b).
Definition to_char_type (c : Z) : byte :=
  default x00 (Byte.of_N (Z.to_N (c mod 256)%Z)).
Definition not_eof (c : Z) : Z := if bool_decide (c = eof) then 0%Z else c.

Lemma to_char_int b : to_char_type (to_int_type b) = b.
Proof.
  unfold to_char_type, to_int_type.
  pose proof (Byte.to_N_bounded b) as Hb.
  rewrite Z.mod_small by lia. rewrite N2Z.id. by rewrite Byte.of_to_N.
Qed.

Lemma to_int_not_eof b : to_int_type b ≠ eof.
Proof. unfold to_int_type, eof. lia. Qed.

(** * The network *)

(** How one asynchronous send or receive ended: its error code, and how many bytes were
    sent, or the bytes that were received. The handler ([read_write_handler_ec]) first
    completes the promise the caller waits for and then stores the error code in the
    caller's frame ([error_code_arrives_late] in [Asio.v]); it is late when the caller goes
    on in between. *)
Record transfer (A : Type) := Transfer {
  xf_ec : Z;
  xf_done : A;
  xf_late : bool;
}.
Arguments Transfer {A} _ _ _.
Arguments xf_ec {A} _.
Arguments xf_done {A} _.
Arguments xf_late {A} _.

Class Net (N : Type) := {
  net_send : list byte → N → transfer nat * N;
  net_receive : nat → N → transfer (list byte) * N;
  net_connect : nat → N → Z * N;      (* connecting to an endpoint: 0, or an error *)
  net_close : N → Z * N;
  delivered : N → list byte;          (* everything sent so far *)
  incoming : N → list byte;           (* everything still to be received *)
  net_patience : N → nat;             (* sends that take nothing and are repeated, at most *)
}.

(** A connection without faults: every send takes something and appends it, every
    receive takes something while there is something. *)
Class Healthy (N : Type) `{!Net N} : Prop := {
  send_some bs n : bs ≠ [] → ∃ k late, (net_send bs n).1 = Transfer 0 k late ∧ 0 < k ≤ length bs ∧
    delivered (net_send bs n).2 = delivered n ++ take k bs ∧
    incoming (net_send bs n).2 = incoming n;
  receive_some max n : 0 < max → incoming n ≠ [] → ∃ k late, 0 < k ≤ max ∧ k ≤ length (incoming n) ∧
    (net_receive max n).1 = Transfer 0 (take k (incoming n)) late ∧
    incoming (net_receive max n).2 = drop k (incoming n) ∧
    delivered (net_receive max n).2 = delivered n;
}.

(** Any other one, that may fail in every way: what Boost.Asio promises of a send or a
    receive with room for something. It ends with an error code or with some bytes, not more
    than there is room for. *)
Class Bounded (N : Type) `{!Net N} : Prop := {
  send_bounded bs n : bs ≠ [] → xf_ec (net_send bs n).1 = 0%Z → 0 < xf_done (net_send bs n).1 ≤ length bs;
  receive_bounded max n : 0 < max → length (xf_done (net_receive max n).1) ≤ max ∧
    (xf_ec (net_receive max n).1 = 0%Z → xf_done (net_receive max n).1 ≠ []);
}.

(** Every error code is stored before the wait is over. *)
Definition timely (N : Type) `{!Net N} : Prop :=
  (∀ bs n, xf_late (net_send bs n).1 = false) ∧ ∀ max n, xf_late (net_receive max n).1 = false.

(** * The buffer *)

Definition putback_max : nat := 8.
Definition buffer_size : nat := 512.

Record sbuf (N : Type) := SBuf {
  get_buffer : list byte;
  gptr : nat;                         (* eback is always at 0 *)
  egptr : nat;
  put_buffer : list byte;
  pptr : option nat;                  (* pbase is at 0, or there is no put area *)
  unbuffered : bool;
  net : N;
  strays : nat;                       (* handlers that store in a frame that is gone *)
}.
Arguments SBuf {N} _ _ _ _ _ _ _ _.
Arguments get_buffer {N} _.
Arguments gptr {N} _.
Arguments egptr {N} _.
Arguments put_buffer {N} _.
Arguments pptr {N} _.
Arguments unbuffered {N} _.
Arguments net {N} _.
Arguments strays {N} _.

Section ops.
Context {N : Type} `{!Net N}.
Abbreviation B := (M (sbuf N) exn).

(** Overwriting part of a [boost::array]. *)
Definition array_write (i : nat) (bs l : list byte) : list byte :=
  take i l ++ bs ++ drop (i + length bs) l.

Definition setg (g e : nat) : B unit :=
  modify (λ s, SBuf (get_buffer s) g e (put_buffer s) (pptr s) (unbuffered s) (net s) (strays s)).
Definition setp (p : option nat) : B unit :=
  modify (λ s, SBuf (get_buffer s) (gptr s) (egptr s) (put_buffer s) p (unbuffered s) (net s) (strays s)).
Definition set_unbuffered (b : bool) : B unit :=
  modify (λ s, SBuf (get_buffer s) (gptr s) (egptr s) (put_buffer s) (pptr s) b (net s) (strays s)).
Definition set_get_buffer (l : list byte) : B unit :=
  modify (λ s, SBuf l (gptr s) (egptr s) (put_buffer s) (pptr s) (unbuffered s) (net s) (strays s)).
Definition set_put_buffer (l : list byte) : B unit :=
  modify (λ s, SBuf (get_buffer s) (gptr s) (egptr s) l (pptr s) (unbuffered s) (net s) (strays s)).

(** An operation on the network. *)
Definition on_net {A} (f : N → A * N) : B A := λ s,
  let '(a, n) := f (net s) in
  (Ret a, SBuf (get_buffer s) (gptr s) (egptr s) (put_buffer s) (pptr s) (unbuffered s) n (strays s)).

(** [async_send] or [async_receive], [p.wait()], and what [ec] is then seen to be *)
Definition await {A} (f : N → transfer A * N) : B (Z * A) :=
  r ← on_net f;
  when (xf_late r) (modify (λ s, SBuf (get_buffer s) (gptr s) (egptr s) (put_buffer s) (pptr s)
    (unbuffered s) (net s) (S (strays s))));;
  mret (if xf_late r then 0%Z else xf_ec r, xf_done r).

(** [init_buffers] *)
Definition init_buffers : B unit :=
  setg putback_max putback_max;;
  s ← gets id;
  if unbuffered s then setp None else setp (Some 0).

(** [*gptr()] and [pbase()[0 .. pptr())] *)
Definition get_char : B byte :=
  s ← gets id;
  match get_buffer s !! gptr s with Some b => mret b | None => undef OutOfRange end.
Definition pending (s : sbuf N) : list byte :=
  match pptr s with Some p => take p (put_buffer s) | None => [] end.

(** [underflow] *)
Definition underflow : B Z :=
  s ← gets id;
  if bool_decide (gptr s = egptr s) then
    '(ec, bs) ← await (net_receive (buffer_size - putback_max));
    set_get_buffer (array_write putback_max bs (get_buffer s));;
    if bool_decide (ec ≠ 0%Z) then mret eof
    else
      setg putback_max (putback_max + length bs);;
      c ← get_char;
      mret (to_int_type c)
  else mret eof.

(** The loop of [overflow] over the output buffer; false when a send failed. *)
Fixpoint send_all (fuel : nat) (buffer : list byte) : B bool :=
  match buffer, fuel with
  | [], _ => mret true
  | _, 0 => undef Diverges
  | _, S fuel =>
    '(ec, n) ← await (net_send buffer);
    if bool_decide (ec ≠ 0%Z) then mret false else send_all fuel (drop n buffer)
  end.

(** [*pptr() = c; pbump( 1 )] *)
Definition put_char (c : Z) : B unit :=
  s ← gets id;
  p ← deref (pptr s);
  set_put_buffer (<[p := to_char_type c]> (put_buffer s));;
  setp (Some (S p)).

(** [overflow] *)
Definition overflow (c : Z) : B Z :=
  s ← gets id;
  if unbuffered s then
    if bool_decide (c = eof) then mret (not_eof c)
    else
      '(ec, _) ← await (net_send [to_char_type c]);
      mret (if bool_decide (ec ≠ 0%Z) then eof else c)
  else
    ok ← send_all (length (pending s) + net_patience (net s)) (pending s);
    if (ok : bool) then
      setp (Some 0);;
      if bool_decide (c = eof) then mret (not_eof c)
      else put_char c;; mret c
    else mret eof.

(** [sync], [setbuf] (of a pointer and a length that are both zero, or not) *)
Definition sync : B Z := overflow eof.

Definition setbuf (null : bool) : B bool :=
  s ← gets id;
  if bool_decide (default 0 (pptr s) = 0) && null then
    set_unbuffered true;; setp None;; mret true
  else mret false.

(** [connect] to an endpoint, [close], and the destructor *)
Definition connect (endpoint : nat) : B bool :=
  init_buffers;;
  on_net net_close;;
  ec ← on_net (net_connect endpoint);
  mret (bool_decide (ec = 0%Z)).

Definition close : B bool :=
  sync;;
  ec ← on_net net_close;
  when (bool_decide (ec = 0%Z)) init_buffers;;
  mret (bool_decide (ec = 0%Z)).

Definition destroy : B unit :=
  s ← gets id;
  when (bool_decide (default 0 (pptr s) ≠ 0)) (overflow eof;; mret tt).

(** [resolve_and_connect], given what the resolver answered; an error code is a
    number, and [host_not_found] one of them that is not zero. *)
Definition host_not_found : Z := 1%Z.

Fixpoint connect_loop (eps : list nat) (ec : Z) : B Z :=
  match eps with
  | [] => mret ec
  | ep :: eps =>
    if bool_decide (ec = 0%Z) then mret ec
    else
      r ← on_net net_close;
      when (bool_decide (r ≠ 0%Z)) (throw (system_error r));;
      ec' ← on_net (net_connect ep);
      connect_loop eps ec'
  end.

Definition resolve_and_connect (answer : Z + list nat) : B Z :=
  match answer with
  | inl ec => mret ec
  | inr eps => connect_loop eps host_not_found
  end.

(** [connect] to a host and a service *)
Definition connect_query (answer : Z + list nat) : B bool :=
  init_buffers;;
  on_net net_close;;
  ec ← resolve_and_connect answer;
  mret (bool_decide (ec = 0%Z)).

(** ** The standard library's side *)

Definition sputc (b : byte) : B Z :=
  s ← gets id;
  match pptr s with
  | Some p =>
    if bool_decide (p < buffer_size) then put_char (to_int_type b);; mret (to_int_type b)
    else overflow (to_int_type b)
  | None => overflow (to_int_type b)
  end.

Fixpoint sputn (bs : list byte) : B nat :=
  match bs with
  | [] => mret 0
  | b :: bs =>
    r ← sputc b;
    if bool_decide (r = eof) then mret 0 else n ← sputn bs; mret (S n)
  end.

Definition sbumpc : B Z :=
  s ← gets id;
  if bool_decide (gptr s < egptr s) then
    c ← get_char; setg (S (gptr s)) (egptr s);; mret (to_int_type c)
  else
    r ← underflow;
    if bool_decide (r = eof) then mret eof
    else
      s ← gets id;
      c ← get_char; setg (S (gptr s)) (egptr s);; mret (to_int_type c).

Fixpoint sgetn (n : nat) : B (list byte) :=
  match n with
  | 0 => mret []
  | S n =>
    c ← sbumpc;
    if bool_decide (c = eof) then mret []
    else bs ← sgetn n; mret (to_char_type c :: bs)
  end.
End ops.

(** [basic_socket_streambuf()] *)
Definition new_sbuf {N} (n : N) : sbuf N :=
  SBuf (replicate buffer_size x00) putback_max putback_max (replicate buffer_size x00)
    (Some 0) false n 0.

(** * Correctness *)

Section streambuf.
Context {N : Type} `{!Net N}.
Implicit Types (s : sbuf N) (bs l : list byte).

(** The pointers stay within their arrays. *)
Record sbuf_inv s : Prop := {
  sb_get : length (get_buffer s) = buffer_size;
  sb_put : length (put_buffer s) = buffer_size;
  sb_gptr : gptr s ≤ egptr s ≤ buffer_size;
  sb_pptr : match pptr s with Some p => p ≤ buffer_size | None => unbuffered s = true end;
  sb_unbuffered : unbuffered s = true → pptr s = None;
}.

(** All the bytes written so far, and all the bytes that can still be read. *)
Definition output s : list byte := delivered (net s) ++ pending s.
Definition available_input s : list byte := drop (gptr s) (take (egptr s) (get_buffer s)).
Definition input s : list byte := available_input s ++ incoming (net s).

(** Reading does not touch the put area, nor what was sent. *)
Definition same_output s s' : Prop :=
  unbuffered s' = unbuffered s ∧ pending s' = pending s ∧ delivered (net s') = delivered (net s).

Lemma same_output_trans s1 s2 s3 : same_output s1 s2 → same_output s2 s3 → same_output s1 s3.
Proof. unfold same_output. intuition congruence. Qed.

Lemma new_sbuf_inv (n : N) : sbuf_inv (new_sbuf n).
Proof. split; simpl; try done; unfold putback_max, buffer_size; lia. Qed.

Definition with_net s (n : N) (k : nat) : sbuf N :=
  SBuf (get_buffer s) (gptr s) (egptr s) (put_buffer s) (pptr s) (unbuffered s) n k.

Lemma wp_on_net {A} (f : N → A * N) Q s :
  wp (on_net f) Q s ↔ Q (Ret (f (net s)).1) (with_net s (f (net s)).2 (strays s)).
Proof. unfold wp, on_net. by destruct (f (net s)). Qed.

(** A late error code is not seen. *)
Lemma wp_await {A} (f : N → transfer A * N) Q s :
  wp (await f) Q s ↔
  let r := (f (net s)).1 in
  Q (Ret (if xf_late r then 0%Z else xf_ec r, xf_done r))
    (with_net s (f (net s)).2 (if xf_late r then S (strays s) else strays s)).
Proof.
  unfold await. rewrite wp_bind, wp_on_net, wp_bind. unfold when.
  by destruct (xf_late (f (net s)).1); rewrite ?wp_modify, wp_ret.
Qed.

Lemma seen_ok (late : bool) : bool_decide ((if late then 0 else 0)%Z ≠ 0%Z) = false.
Proof. by destruct late. Qed.

Lemma array_write_length i bs l : i + length bs ≤ length l → length (array_write i bs l) = length l.
Proof. intros Hi. unfold array_write. rewrite !length_app, length_take, length_drop. lia. Qed.

Lemma array_write_read i bs l :
  i + length bs ≤ length l → drop i (take (i + length bs) (array_write i bs l)) = bs.
Proof.
  intros Hi. unfold array_write. rewrite app_assoc.
  rewrite take_app_length' by (rewrite length_app, length_take; lia).
  rewrite drop_app_length' by (rewrite length_take; lia). done.
Qed.

Lemma get_char_spec s b rest :
  sbuf_inv s → available_input s = b :: rest → get_char s = (Ret b, s).
Proof.
  intros [Hg _ Hp _ _] Ha. apply wp_run. unfold get_char. rewrite wp_bind, wp_gets. unfold id.
  assert (get_buffer s !! gptr s = Some b) as ->; [|done].
  unfold available_input in Ha.
  assert (Hl : drop (gptr s) (take (egptr s) (get_buffer s)) !! 0 = Some b) by by rewrite Ha.
  rewrite lookup_drop, Nat.add_0_r in Hl. apply lookup_take_Some in Hl. by destruct Hl.
Qed.

(** Handing out one character of the get area. *)
Lemma take_char_spec s b rest :
  sbuf_inv s → available_input s = b :: rest →
  wp (c ← get_char; setg (S (gptr s)) (egptr s);; mret (to_int_type c))
    (returns (λ r s', r = to_int_type b ∧ sbuf_inv s' ∧
      input s' = rest ++ incoming (net s) ∧ same_output s s')) s.
Proof.
  intros Hinv Ha. rewrite wp_bind. unfold wp at 1. rewrite (get_char_spec _ _ _ Hinv Ha).
  simpl. unfold setg. rewrite wp_bind, wp_modify, wp_ret.
  assert (Hlt : gptr s < egptr s).
  { assert (Hl : length (available_input s) = S (length rest)) by by rewrite Ha.
    unfold available_input in Hl. rewrite length_drop, length_take in Hl. lia. }
  destruct Hinv as [H1 H2 H3 H4 H5]. split; [done|]. split; [split; simpl; try done; lia|].
  split; [|done]. unfold input, available_input in *. simpl. f_equal.
  replace (S (gptr s)) with (gptr s + 1) by lia. rewrite <-drop_drop, Ha. done.
Qed.

Lemma bytes_room bs : length bs ≤ buffer_size - putback_max → putback_max + length bs ≤ buffer_size.
Proof. unfold putback_max, buffer_size. lia. Qed.

Section healthy.
Context `{!Healthy N}.

Lemma underflow_spec s :
  sbuf_inv s → gptr s = egptr s → incoming (net s) ≠ [] →
  wp underflow (returns (λ r s', r ≠ eof ∧ sbuf_inv s' ∧
    available_input s' ≠ [] ∧ input s' = input s ∧ same_output s s')) s.
Proof.
  intros Hinv Hge Hin. pose proof Hinv as [H1 H2 H3 H4 H5]. unfold underflow.
  rewrite wp_bind, wp_gets. unfold id. rewrite bool_decide_eq_true_2 by done.
  rewrite wp_bind, wp_await.
  destruct (receive_some (buffer_size - putback_max) (net s)) as (k & late & Hk & Hki & Hr & Hi & Hdl);
    [unfold buffer_size, putback_max; lia|done|]. rewrite Hr. cbn [xf_ec xf_done xf_late].
  rewrite seen_ok.
  set (bs := take k (incoming (net s))).
  assert (Hbs : length bs = k) by (unfold bs; rewrite length_take; lia).
  assert (Hroom : putback_max + length bs ≤ buffer_size) by (apply bytes_room; lia).
  unfold set_get_buffer, setg. rewrite wp_bind, wp_modify, wp_bind, wp_modify.
  cbn [get_buffer gptr egptr put_buffer pptr unbuffered net strays].
  set (s1 := SBuf _ _ _ _ _ _ _ _).
  assert (Hinv1 : sbuf_inv s1).
  { split; simpl; try done; [by rewrite array_write_length; lia|unfold putback_max in *; lia]. }
  assert (Ha1 : available_input s1 = bs).
  { unfold available_input. apply (array_write_read putback_max bs). by rewrite H1. }
  destruct bs as [|b rest] eqn:Hb; [simpl in Hbs; lia|].
  rewrite wp_bind. unfold wp at 1. rewrite (get_char_spec _ _ _ Hinv1 Ha1). simpl. rewrite wp_ret.
  split_and!; [apply to_int_not_eof|done|by rewrite Ha1| |by split_and!].
  unfold input. rewrite Ha1. unfold s1. cbn [net with_net]. rewrite Hi. unfold available_input. rewrite Hge.
  rewrite (drop_ge (take _ _)) by (rewrite length_take; lia). simpl.
  change (b :: rest ++ drop k (incoming (net s))) with ((b :: rest) ++ drop k (incoming (net s))).
  rewrite <-Hb. unfold bs. by rewrite take_drop.
Qed.

Lemma sbumpc_spec s b rest :
  sbuf_inv s → input s = b :: rest →
  wp sbumpc (returns (λ r s', r = to_int_type b ∧ sbuf_inv s' ∧ input s' = rest ∧ same_output s s')) s.
Proof.
  intros Hinv Hin. unfold sbumpc. rewrite wp_bind, wp_gets. unfold id.
  assert (Hchar : ∀ s1, sbuf_inv s1 → input s1 = b :: rest → available_input s1 ≠ [] →
    wp (c ← get_char; setg (S (gptr s1)) (egptr s1);; mret (to_int_type c))
      (returns (λ r s', r = to_int_type b ∧ sbuf_inv s' ∧ input s' = rest ∧ same_output s1 s')) s1).
  { intros s1 Hi1 Hin1 Hne. destruct (available_input s1) as [|b' rest'] eqn:Ha; [done|].
    unfold input in Hin1. rewrite Ha in Hin1. simplify_eq/=.
    by eapply take_char_spec. }
  case_bool_decide as Hlt.
  - apply Hchar; [done|done|]. intros Hnil. apply (f_equal length) in Hnil.
    unfold available_input in Hnil. rewrite length_drop, length_take in Hnil.
    destruct Hinv as [H1 _ H3 _ _]. simpl in Hnil. lia.
  - assert (Hge : gptr s = egptr s) by (destruct Hinv as [_ _ ? _ _]; lia).
    assert (Ha : available_input s = []).
    { unfold available_input. rewrite Hge. apply drop_ge. rewrite length_take. lia. }
    unfold input in Hin. rewrite Ha in Hin. simpl in Hin.
    rewrite wp_bind. eapply wp_mono, underflow_spec; [|done|done|by rewrite Hin].
    intros [r|?|?] s1; try done. intros (Hr & Hi1 & Hne & Hin1 & Hs1).
    rewrite bool_decide_eq_false_2 by done. rewrite wp_bind, wp_gets.
    eapply wp_mono, (Hchar s1); [|done| |done].
    + intros [r'|?|?] s2; try done. intros (-> & ? & ? & Hs2). split_and!; [done..|by eapply same_output_trans].
    + rewrite Hin1. unfold input. by rewrite Ha, Hin.
Qed.

Lemma sgetn_spec n s :
  sbuf_inv s → n ≤ length (input s) →
  wp (sgetn n) (returns (λ r s', r = take n (input s) ∧ sbuf_inv s' ∧
    input s' = drop n (input s) ∧ same_output s s')) s.
Proof.
  revert s. induction n as [|n IH]; intros s Hinv Hn; simpl.
  { rewrite wp_ret. by rewrite drop_0. }
  destruct (input s) as [|b rest] eqn:Hin; simpl in Hn; [lia|].
  rewrite wp_bind. eapply wp_mono, sbumpc_spec; [|done|exact Hin].
  intros [r|?|?] s1; try done. intros (-> & Hi1 & Hin1 & Hs1).
  rewrite bool_decide_eq_false_2 by apply to_int_not_eof.
  rewrite wp_bind. eapply wp_mono, (IH s1); [|done|rewrite Hin1; lia].
  intros [r|?|?] s2; try done. intros (-> & Hi2 & Hin2 & Hs2). rewrite wp_ret, Hin1 in *.
  split_and!; [by rewrite to_char_int|done|done|by eapply same_output_trans].
Qed.

Lemma send_all_spec fuel bs s :
  length bs ≤ fuel →
  wp (send_all fuel bs) (returns (λ ok s', ok = true ∧ ∃ n,
    s' = with_net s n (strays s') ∧ delivered n = delivered (net s) ++ bs ∧ incoming n = incoming (net s))) s.
Proof.
  revert bs s. induction fuel as [|fuel IH]; intros bs s Hf;
    (destruct bs as [|b bs]; simpl in Hf; [|try lia]).
  1,2: simpl; rewrite wp_ret; split; [done|]; exists (net s);
    (split_and!; [by destruct s|by rewrite app_nil_r|done]).
  cbn [send_all]. rewrite wp_bind, wp_await.
  destruct (send_some (b :: bs) (net s)) as (k & late & -> & Hk & Hd & Hin); [done|].
  cbn [xf_ec xf_done xf_late]. rewrite seen_ok.
  eapply wp_mono, IH; [|rewrite length_drop; simpl in *; lia].
  intros [ok|?|?] s'; try done. simpl. intros (-> & n & Hs' & Hn & Hn').
  split; [done|]. exists n. split; [exact Hs'|]. rewrite Hn', Hn, Hd, <-app_assoc. by rewrite take_drop.
Qed.

(** [overflow] sends what is pending, and takes the character in. *)
Lemma overflow_spec s (c : option byte) :
  sbuf_inv s → unbuffered s = false →
  wp (overflow (default eof (to_int_type <$> c))) (returns (λ r s',
    r ≠ eof ∧ sbuf_inv s' ∧ unbuffered s' = false ∧ output s' = output s ++ option_list c ∧
    pptr s' = Some (length (option_list c)) ∧ input s' = input s)) s.
Proof.
  intros [H1 H2 H3 H4 H5] Hu. unfold overflow. rewrite wp_bind, wp_gets. unfold id. rewrite Hu.
  rewrite wp_bind. eapply wp_mono, send_all_spec; [|lia].
  intros [ok|?|?] s1; try done. intros (-> & n & -> & Hd & Hin). unfold setp. rewrite wp_bind, wp_modify.
  simpl. destruct c as [b|]; simpl.
  - rewrite bool_decide_eq_false_2 by apply to_int_not_eof.
    unfold put_char, set_put_buffer, setp. rewrite !wp_bind, wp_gets. unfold id. simpl.
    rewrite wp_bind, wp_ret, wp_bind, wp_modify, wp_modify, wp_ret, to_char_int. simpl.
    split_and!; [apply to_int_not_eof| |done| |done|unfold input; simpl; by rewrite Hin].
    + split; simpl; try done; [by rewrite length_insert|unfold buffer_size; lia|by rewrite Hu].
    + unfold output, pending at 1. simpl. rewrite Hd.
      destruct (put_buffer s) as [|b0 l]; [by unfold buffer_size in H2; simpl in H2|].
      by simpl; rewrite take_0.
  - rewrite wp_ret. split_and!; [done| |done| |done|unfold input; simpl; by rewrite Hin].
    + split; simpl; try done; [unfold buffer_size; lia|by rewrite Hu].
    + unfold output, pending at 1. simpl. by rewrite Hd, !app_nil_r.
Qed.

Lemma sputc_spec s b :
  sbuf_inv s → unbuffered s = false →
  wp (sputc b) (returns (λ r s', r ≠ eof ∧ sbuf_inv s' ∧ unbuffered s' = false ∧
    output s' = output s ++ [b] ∧ input s' = input s)) s.
Proof.
  intros Hinv Hu. pose proof Hinv as [H1 H2 H3 H4 H5]. unfold sputc. rewrite wp_bind, wp_gets.
  unfold id. destruct (pptr s) as [p|] eqn:Hp; [|congruence].
  case_bool_decide as Hlt.
  - rewrite wp_bind. unfold put_char, set_put_buffer, setp. rewrite !wp_bind, wp_gets. unfold id.
    rewrite Hp. simpl.
    rewrite wp_bind, wp_ret, wp_bind, wp_modify, wp_modify, wp_ret, to_char_int. simpl.
    split_and!; [apply to_int_not_eof| |done| |done].
    + split; simpl; try done; [by rewrite length_insert|by rewrite Hu].
    + unfold output, pending. simpl. rewrite Hp, <-app_assoc. f_equal.
      rewrite (take_S_r _ _ b) by (rewrite list_lookup_insert_eq; [done|lia]).
      by rewrite take_insert_ge by lia.
  - eapply wp_mono, (overflow_spec s (Some b)); [|done|done].
    intros [r|?|?] s'; try done. intros (? & ? & ? & ? & _ & ?). done.
Qed.

Lemma sputn_spec bs s :
  sbuf_inv s → unbuffered s = false →
  wp (sputn bs) (returns (λ n s', n = length bs ∧ sbuf_inv s' ∧ unbuffered s' = false ∧
    output s' = output s ++ bs ∧ input s' = input s)) s.
Proof.
  revert s. induction bs as [|b bs IH]; intros s Hinv Hu; simpl.
  { rewrite wp_ret. by rewrite app_nil_r. }
  rewrite wp_bind. eapply wp_mono, sputc_spec; [|done|done].
  intros [r|?|?] s1; try done. intros (Hr & Hi1 & Hu1 & Ho1 & Hn1).
  rewrite bool_decide_eq_false_2 by done. rewrite wp_bind. eapply wp_mono, IH; [|done|done].
  intros [n|?|?] s2; try done. intros (-> & Hi2 & Hu2 & Ho2 & Hn2). rewrite wp_ret.
  split_and!; [done|done|done|by rewrite Ho2, Ho1, <-app_assoc|by rewrite Hn2].
Qed.

Lemma sputn_sync_spec bs s :
  sbuf_inv s → unbuffered s = false →
  wp (n ← sputn bs; r ← sync; mret (n, r)) (returns (λ x s', x.1 = length bs ∧ x.2 ≠ eof ∧
    sbuf_inv s' ∧ pending s' = [] ∧ delivered (net s') = output s ++ bs)) s.
Proof.
  intros Hinv Hu. rewrite wp_bind. eapply wp_mono, sputn_spec; [|done|done].
  intros [n|?|?] s1; try done. intros (-> & Hi1 & Hu1 & Ho1 & _). rewrite wp_bind. unfold sync.
  eapply wp_mono, (overflow_spec s1 None); [|done|done].
  intros [r|?|?] s2; try done. intros (Hr & Hi2 & Hu2 & Ho2 & Hp2 & _). rewrite wp_ret.
  assert (Hpend : pending s2 = []) by (unfold pending; by rewrite Hp2).
  split_and!; try done. unfold output in Ho2. rewrite Hpend, !app_nil_r in Ho2.
  unfold output in *. congruence.
Qed.

(** ** Properties *)

(** C16: what is put into one buffer and flushed is what the buffer at the other
    end of a healthy connection gets: all characters are taken, [sync] succeeds,
    nothing stays pending, and reading at the other end gives the same bytes in
    the same order. *)
Theorem put_sync_get_roundtrip s r bs :
  sbuf_inv s → unbuffered s = false → output s = [] → sbuf_inv r →
  wp (n ← sputn bs; c ← sync; mret (n, c)) (returns (λ x s', x.1 = length bs ∧ x.2 ≠ eof ∧
    pending s' = [] ∧ (input r = delivered (net s') →
      ∃ r', sgetn (length bs) r = (Ret bs, r') ∧ sbuf_inv r' ∧ input r' = []))) s.
Proof.
  intros Hs Hu Ho Hr. eapply wp_mono, sputn_sync_spec; [|done|done].
  intros [[n c]|?|?] s1; try done. simpl. intros (-> & Hc & _ & Hp & Hd).
  rewrite Ho in Hd. simpl in Hd. split_and!; try done. rewrite Hd. intros Hin.
  assert (Hn : length bs ≤ length (input r)) by by rewrite Hin.
  apply (sgetn_spec _ _ Hr), wp_returns in Hn as (out & r' & Hg & -> & Hr' & Hi & _).
  exists r'. rewrite Hin, firstn_all in Hg. by rewrite Hi, Hin, drop_all.
Qed.
End healthy.

(** What a user of the stream does with the buffer. *)
Inductive sbuf_op :=
  | Puts (bs : list byte)
  | Gets (n : nat)
  | Sync
  | Setbuf (null : bool)
  | Connect (endpoint : nat)
  | ConnectQuery (answer : Z + list nat)
  | Close
  | Destroy.

Definition sbuf_do (o : sbuf_op) : M (sbuf N) exn unit :=
  match o with
  | Puts bs => sputn bs;; mret tt
  | Gets n => sgetn n;; mret tt
  | Sync => sync;; mret tt
  | Setbuf null => setbuf null;; mret tt
  | Connect ep => connect ep;; mret tt
  | ConnectQuery a => connect_query a;; mret tt
  | Close => close;; mret tt
  | Destroy => destroy
  end.

Section bounds.
Context `{!Bounded N}.
Hypothesis (Htimely : timely N).

(** Outcomes that leave the buffer usable: it may throw, but nothing undefined has happened,
    and no handler stores in a frame that is gone other than the [k] that did before. *)
Definition in_bounds {A} (k : nat) (r : outcome exn A) (s : sbuf N) : Prop :=
  sbuf_inv s ∧ strays s = k ∧ ∀ u, r ≠ Undef u.

Lemma in_bounds_bind {A B} k (m : M (sbuf N) exn A) (f : A → M (sbuf N) exn B) s :
  wp m (in_bounds k) s → (∀ a s', sbuf_inv s' → strays s' = k → wp (f a) (in_bounds k) s') →
  wp (a ← m; f a) (in_bounds k) s.
Proof.
  intros Hm Hf. rewrite wp_bind. eapply wp_mono, Hm.
  intros [a|e|u] s' (Hi & Hk & Hu); [by apply Hf|done|by destruct (Hu u)].
Qed.

Lemma in_bounds_ret {A} k (a : A) s : sbuf_inv s → strays s = k → wp (mret a) (in_bounds k) s.
Proof. by intros. Qed.

Lemma with_net_inv s n k : sbuf_inv s → sbuf_inv (with_net s n k).
Proof. by intros []. Qed.

Lemma in_bounds_net {A} k (f : N → A * N) s : sbuf_inv s → strays s = k → wp (on_net f) (in_bounds k) s.
Proof. intros Hs Hk. rewrite wp_on_net. split; [by apply with_net_inv|done]. Qed.

Lemma in_bounds_init k s : sbuf_inv s → strays s = k → wp init_buffers (in_bounds k) s.
Proof.
  intros [H1 H2 H3 H4 H5] Hk. unfold init_buffers, setg, setp. wp_steps. unfold id. simpl.
  destruct (unbuffered s) eqn:Hu; wp_steps; (split; [|done]); split; simpl; try done;
    unfold putback_max, buffer_size; lia.
Qed.

(** Sending changes nothing but the network. *)
Lemma send_all_bounded fuel bs s :
  length bs ≤ fuel → wp (send_all fuel bs) (λ r s', ∃ n, s' = with_net s n (strays s) ∧ ∀ u, r ≠ Undef u) s.
Proof.
  revert bs s. induction fuel as [|fuel IH]; intros [|b bs] s Hf; try (simpl in Hf; lia).
  1,2: exists (net s); by destruct s.
  cbn [send_all]. rewrite wp_bind, wp_await. cbv zeta.
  rewrite (proj1 Htimely). case_bool_decide as Hec; [by rewrite wp_ret; eexists|].
  pose proof (send_bounded (b :: bs) (net s) ltac:(done) ltac:(by destruct (decide (xf_ec (net_send (b :: bs) (net s)).1 = 0%Z)))) as Hn.
  eapply wp_mono, IH; [|rewrite length_drop; simpl in *; lia].
  intros r s' (n & -> & Hr). by exists n.
Qed.

Lemma in_bounds_put_char k c s p :
  sbuf_inv s → strays s = k → pptr s = Some p → p < buffer_size → unbuffered s = false →
  wp (put_char c;; mret c) (in_bounds k) s.
Proof.
  intros [H1 H2 H3 H4 H5] Hk Hp Hlt Hu. unfold put_char, set_put_buffer, setp. wp_steps.
  unfold id. rewrite Hp. simpl. split; [|done].
  split; simpl; try done; [by rewrite length_insert|congruence].
Qed.

Lemma in_bounds_overflow k c s : sbuf_inv s → strays s = k → wp (overflow c) (in_bounds k) s.
Proof.
  intros Hs Hk. unfold overflow. rewrite wp_bind, wp_gets. unfold id.
  destruct (unbuffered s) eqn:Hu.
  { case_bool_decide; [by apply in_bounds_ret|]. rewrite wp_bind, wp_await. cbv zeta.
    rewrite (proj1 Htimely), wp_ret. split; [by apply with_net_inv|done]. }
  rewrite wp_bind. eapply wp_mono, send_all_bounded; [|lia].
  intros [ok|e|u] s1 (n & -> & Hr); [|by split; [apply with_net_inv|]|by destruct (Hr u)].
  destruct ok; [|by split; [apply with_net_inv|]].
  destruct Hs as [H1 H2 H3 H4 H5]. unfold setp. rewrite wp_bind, wp_modify. set (s2 := SBuf _ _ _ _ _ _ _ _).
  assert (Hs2 : sbuf_inv s2) by (split; simpl; try done; [lia|congruence]).
  case_bool_decide; [by apply in_bounds_ret|].
  by apply (in_bounds_put_char k c s2 0); [..|unfold buffer_size; lia|].
Qed.

Lemma in_bounds_sputn k bs s : sbuf_inv s → strays s = k → wp (sputn bs) (in_bounds k) s.
Proof.
  revert s. induction bs as [|b bs IH]; intros s Hs Hk; [by apply in_bounds_ret|].
  apply in_bounds_bind.
  - unfold sputc. rewrite wp_bind, wp_gets. unfold id.
    destruct (pptr s) as [p|] eqn:Hp; [|by apply in_bounds_overflow].
    case_bool_decide as Hlt; [|by apply in_bounds_overflow].
    eapply in_bounds_put_char; [done..|]. destruct (unbuffered s) eqn:Hu; [|done].
    destruct Hs as [_ _ _ _ H5]. rewrite (H5 Hu) in Hp. done.
  - intros r s' Hs' Hk'. case_bool_decide; [by apply in_bounds_ret|].
    apply in_bounds_bind; [by apply IH|]. intros n s2 Hs2 Hk2. by apply in_bounds_ret.
Qed.

Lemma get_char_inv s Q :
  sbuf_inv s → gptr s < buffer_size → (∀ b, Q (Ret b) s) → wp get_char Q s.
Proof.
  intros [H1 _ _ _ _] Hlt HQ. unfold get_char. rewrite wp_bind, wp_gets. unfold id.
  destruct (lookup_lt_is_Some_2 (get_buffer s) (gptr s)) as [b ->]; [by rewrite H1|]. apply HQ.
Qed.

Lemma in_bounds_take_char k s :
  sbuf_inv s → strays s = k → gptr s < egptr s →
  wp (c ← get_char; setg (S (gptr s)) (egptr s);; mret (to_int_type c)) (in_bounds k) s.
Proof.
  intros Hs Hk Hlt. rewrite wp_bind. pose proof Hs as [H1 H2 H3 H4 H5].
  apply get_char_inv; [done|lia|]. intros b. unfold setg. rewrite wp_bind, wp_modify, wp_ret.
  split; [|done]. by split; simpl; try done; lia.
Qed.

Lemma in_bounds_underflow k s :
  sbuf_inv s → strays s = k →
  wp underflow (λ r s', in_bounds k r s' ∧
    match r with Ret c => c ≠ eof → gptr s' < egptr s' | _ => True end) s.
Proof.
  intros Hs Hk. unfold underflow. rewrite wp_bind, wp_gets. unfold id.
  case_bool_decide as Hge; [|by rewrite wp_ret]. rewrite wp_bind, wp_await. cbv zeta.
  rewrite (proj2 Htimely). destruct Hs as [H1 H2 H3 H4 H5].
  destruct (receive_bounded (buffer_size - putback_max) (net s)) as [Hroom%bytes_room Hpos];
    [unfold buffer_size, putback_max; lia|]. revert Hroom Hpos.
  destruct (net_receive _ _).1 as [ec bs late]. cbn [xf_ec xf_done]. intros Hroom Hpos.
  unfold set_get_buffer, setg. rewrite wp_bind, wp_modify.
  cbn [get_buffer gptr egptr put_buffer pptr unbuffered net strays with_net].
  assert (Hl : length (array_write putback_max bs (get_buffer s)) = buffer_size)
    by (rewrite array_write_length; lia).
  case_bool_decide as Hec; [by rewrite wp_ret; split; [split; [split|]|]|].
  assert (0 < length bs) by (destruct bs; [by destruct Hpos; [destruct (decide (ec = 0%Z))|]|simpl; lia]).
  rewrite wp_bind, wp_modify.
  cbn [get_buffer gptr egptr put_buffer pptr unbuffered net strays].
  set (s1 := SBuf _ _ _ _ _ _ _ _).
  assert (Hs1 : sbuf_inv s1) by (split; simpl; try done; unfold putback_max in *; lia).
  rewrite wp_bind. apply get_char_inv; [done|simpl; unfold putback_max, buffer_size; lia|].
  intros b. rewrite wp_ret. split; [done|]. intros _. simpl. unfold putback_max. lia.
Qed.

Lemma in_bounds_sbumpc k s : sbuf_inv s → strays s = k → wp sbumpc (in_bounds k) s.
Proof.
  intros Hs Hk. unfold sbumpc. rewrite wp_bind, wp_gets. unfold id.
  case_bool_decide as Hlt; [by apply in_bounds_take_char|].
  rewrite wp_bind. eapply wp_mono, (in_bounds_underflow k s Hs Hk).
  intros [r|e|u] s1 [(Hs1 & Hk1 & Hu) Hr]; [|done|by destruct (Hu u)].
  case_bool_decide as Heof; [by apply in_bounds_ret|].
  rewrite wp_bind, wp_gets. unfold id. by apply in_bounds_take_char; [..|apply Hr].
Qed.

Lemma in_bounds_sgetn k n s : sbuf_inv s → strays s = k → wp (sgetn n) (in_bounds k) s.
Proof.
  revert s. induction n as [|n IH]; intros s Hs Hk; [by apply in_bounds_ret|].
  apply in_bounds_bind; [by apply in_bounds_sbumpc|]. intros c s1 Hs1 Hk1.
  case_bool_decide; [by apply in_bounds_ret|].
  apply in_bounds_bind; [by apply IH|]. intros bs s2 Hs2 Hk2. by apply in_bounds_ret.
Qed.

Lemma in_bounds_connect_loop k eps ec s :
  sbuf_inv s → strays s = k → wp (connect_loop eps ec) (in_bounds k) s.
Proof.
  revert ec s. induction eps as [|ep eps IH]; intros ec s Hs Hk; [by apply in_bounds_ret|].
  cbn [connect_loop]. case_bool_decide; [by apply in_bounds_ret|].
  apply in_bounds_bind; [by apply in_bounds_net|]. intros r s1 Hs1 Hk1.
  apply in_bounds_bind; [by unfold when; case_bool_decide|]. intros _ s2 Hs2 Hk2.
  apply in_bounds_bind; [by apply in_bounds_net|]. intros ec' s3 Hs3 Hk3. by apply IH.
Qed.

(** C29: as long as every error code is stored before the wait for its operation is over,
    putting, getting, flushing, switching buffering off, connecting (to an endpoint, or to
    the answer of the resolver), closing and destroying leave the get and the put pointers
    within their arrays and do nothing undefined: nothing outside the arrays or in a frame
    that is gone is read or written, and the loop that sends the put area ends, however the
    operations of the network fail and however little they take and give. *)
Theorem streambuf_stays_in_bounds s (o : sbuf_op) :
  sbuf_inv s → wp (sbuf_do o) (in_bounds (strays s)) s.
Proof.
  intros Hs. pose proof (eq_refl (strays s)) as Hk. revert Hk. generalize (strays s) at 2 3. intros k Hk.
  destruct o as [bs|n| |null|ep|a| |]; simpl.
  - apply in_bounds_bind; [by apply in_bounds_sputn|]. intros. by apply in_bounds_ret.
  - apply in_bounds_bind; [by apply in_bounds_sgetn|]. intros. by apply in_bounds_ret.
  - apply in_bounds_bind; [by apply in_bounds_overflow|]. intros. by apply in_bounds_ret.
  - apply in_bounds_bind; [|intros; by apply in_bounds_ret].
    unfold setbuf, set_unbuffered, setp. rewrite wp_bind, wp_gets. unfold id.
    destruct (_ && _); [|by apply in_bounds_ret]. destruct Hs as [H1 H2 H3 H4 H5].
    wp_steps. by split; [split|].
  - apply in_bounds_bind; [|intros; by apply in_bounds_ret]. unfold connect.
    apply in_bounds_bind; [by apply in_bounds_init|]. intros _ s1 Hs1 Hk1.
    apply in_bounds_bind; [by apply in_bounds_net|]. intros _ s2 Hs2 Hk2.
    apply in_bounds_bind; [by apply in_bounds_net|]. intros. by apply in_bounds_ret.
  - apply in_bounds_bind; [|intros; by apply in_bounds_ret]. unfold connect_query.
    apply in_bounds_bind; [by apply in_bounds_init|]. intros _ s1 Hs1 Hk1.
    apply in_bounds_bind; [by apply in_bounds_net|]. intros _ s2 Hs2 Hk2.
    apply in_bounds_bind; [|intros; by apply in_bounds_ret].
    destruct a; [by apply in_bounds_ret|by apply in_bounds_connect_loop].
  - apply in_bounds_bind; [|intros; by apply in_bounds_ret]. unfold close.
    apply in_bounds_bind; [by apply in_bounds_overflow|]. intros _ s1 Hs1 Hk1.
    apply in_bounds_bind; [by apply in_bounds_net|]. intros ec s2 Hs2 Hk2.
    apply in_bounds_bind; [|intros; by apply in_bounds_ret].
    unfold when. case_bool_decide; [by apply in_bounds_init|by apply in_bounds_ret].
  - unfold destroy. rewrite wp_bind, wp_gets. unfold id, when. case_bool_decide; [|by apply in_bounds_ret].
    apply in_bounds_bind; [by apply in_bounds_overflow|]. intros. by apply in_bounds_ret.
Qed.
End bounds.

(** When a receive fails and its error code is late, the failure is not seen: an old byte
    is handed out as if it had been received, the get pointer moves past the end of the get
    area, and the handler stores the code in the frame of a call that has returned. *)
Theorem late_failure_leaves_get_area s ec n :
  sbuf_inv s → gptr s = egptr s →
  net_receive (buffer_size - putback_max) (net s) = (Transfer ec [] true, n) →
  wp sbumpc (returns (λ r s', r ≠ eof ∧ gptr s' = S (egptr s') ∧ strays s' = S (strays s))) s.
Proof.
  intros Hs Hge Hr. pose proof Hs as [H1 H2 H3 H4 H5]. unfold sbumpc, underflow.
  rewrite wp_bind, wp_gets. unfold id. rewrite bool_decide_eq_false_2 by lia.
  rewrite wp_bind, wp_bind, wp_gets, bool_decide_eq_true_2 by done. rewrite wp_bind, wp_await, Hr.
  cbn [fst snd xf_ec xf_done xf_late]. unfold set_get_buffer, setg. rewrite wp_bind, wp_modify.
  rewrite bool_decide_eq_false_2 by (intros Hn; by apply Hn). rewrite wp_bind, wp_modify, wp_bind.
  cbn [get_buffer gptr egptr put_buffer pptr unbuffered net strays with_net length].
  set (s1 := SBuf _ _ _ _ _ _ _ _).
  assert (Hs1 : sbuf_inv s1).
  { split; simpl; try done; [rewrite array_write_length; simpl; [done|]|]; unfold putback_max, buffer_size in *; lia. }
  assert (Hlt : gptr s1 < buffer_size) by (simpl; unfold putback_max, buffer_size; lia).
  apply get_char_inv; [done..|]. intros b. rewrite wp_ret, bool_decide_eq_false_2 by apply to_int_not_eof.
  rewrite wp_bind, wp_gets, wp_bind. apply get_char_inv; [done..|]. intros b'.
  rewrite wp_bind, wp_modify, wp_ret. split; [apply to_int_not_eof|done].
Qed.

Lemma send_all_two bs k e s n1 n2 fuel m :
  0 < k < length bs → length bs ≤ fuel → e ≠ 0%Z →
  net_send bs (net s) = (Transfer 0 k false, n1) → net_send (drop k bs) n1 = (Transfer e m false, n2) →
  send_all fuel bs s = (Ret false, with_net s n2 (strays s)).
Proof.
  intros Hk Hf He H1 H2. destruct fuel as [|[|fuel]]; [lia..|].
  destruct bs as [|b bs]; [simpl in Hk; lia|].
  apply wp_run. cbn [send_all]. rewrite wp_bind, wp_await, H1. cbn [fst snd xf_ec xf_done xf_late].
  rewrite bool_decide_eq_false_2 by (intros Hn; by apply Hn).
  destruct (drop k (b :: bs)) as [|b' l] eqn:Hd.
  { apply (f_equal length) in Hd. rewrite length_drop in Hd. simpl in Hd, Hk. lia. }
  rewrite wp_bind, wp_await. cbn [net with_net]. rewrite H2. cbn [fst snd xf_ec xf_done xf_late].
  by rewrite bool_decide_eq_true_2.
Qed.

Lemma send_all_one bs s n fuel :
  0 < length bs ≤ fuel → net_send bs (net s) = (Transfer 0 (length bs) false, n) →
  send_all fuel bs s = (Ret true, with_net s n (strays s)).
Proof.
  intros Hf H1. destruct fuel as [|fuel]; [lia|]. destruct bs as [|b bs]; [simpl in Hf; lia|].
  apply wp_run. cbn [send_all]. rewrite wp_bind, wp_await, H1. cbn [fst snd xf_ec xf_done xf_late].
  rewrite bool_decide_eq_false_2 by (intros Hn; by apply Hn). rewrite drop_all. by destruct fuel.
Qed.

(** When a flush sends a first part and then fails, [sync] answers end of
    file and everything stays pending, the part that was sent too: the next
    successful flush sends it a second time. *)
Theorem failed_flush_sends_twice s k e n1 n2 n3 m :
  sbuf_inv s → unbuffered s = false → 0 < k < length (pending s) → e ≠ 0%Z →
  net_send (pending s) (net s) = (Transfer 0 k false, n1) →
  net_send (drop k (pending s)) n1 = (Transfer e m false, n2) →
  net_send (pending s) n2 = (Transfer 0 (length (pending s)) false, n3) →
  delivered n3 = delivered (net s) ++ take k (pending s) ++ pending s →
  ∃ s1 s2, sync s = (Ret eof, s1) ∧ pending s1 = pending s ∧ net s1 = n2 ∧
    sync s1 = (Ret 0%Z, s2) ∧ pending s2 = [] ∧
    delivered (net s2) = delivered (net s) ++ take k (pending s) ++ pending s.
Proof.
  intros Hs Hu Hk He H1 H2 H3 Hd. set (s1 := with_net s n2 (strays s)).
  exists s1, (SBuf (get_buffer s) (gptr s) (egptr s) (put_buffer s) (Some 0) false n3 (strays s)).
  unfold sync, overflow, mbind, M_bind, gets, id. rewrite Hu.
  rewrite (send_all_two _ k e s n1 n2 _ m) by (done || lia).
  split_and!; [done|done|done| |done|done].
  change (unbuffered s1) with (unbuffered s). rewrite Hu. change (pending s1) with (pending s).
  rewrite (send_all_one _ s1 n3); [|lia|done]. simpl. by rewrite Hu.
Qed.
End streambuf.
