(* ===== verification/Iostream.v ===== *)
(** [basic_socket_iostream] (asio/basic_socket_iostream.hpp): the standard stream
    around the socket's buffer, tied to itself. The formatted and unformatted I/O is
    the standard library's; what the source relies on is here: its state, its
    sentries, which flush the tied stream, [write], [read] and [flush]. *)
From Stdlib Require Import Strings.Byte.
From S2P Require Import Prelude World Streambuf.

Record iostream (N : Type) := Iostream {
  rdbuf : sbuf N;
  badbit : bool;
  eofbit : bool;
  failbit : bool;
  tied : bool;                       (* tie() is this very stream, or null *)
}.
Arguments Iostream {N} _ _ _ _ _.
Arguments rdbuf {N} _.
Arguments badbit {N} _.
Arguments eofbit {N} _.
Arguments failbit {N} _.
Arguments tied {N} _.

Section ops.
Context {N : Type} `{!Net N}.
Abbreviation S := (M (iostream N) exn).

Definition on_buf {A} (m : M (sbuf N) exn A) : S A := λ s,
  let '(r, b) := m (rdbuf s) in
  (r, Iostream b (badbit s) (eofbit s) (failbit s) (tied s)).

Definition good (s : iostream N) : bool := negb (badbit s || eofbit s || failbit s).

(** [setstate] with each of the bits *)
Definition set_failbit : S unit :=
  modify (λ s, Iostream (rdbuf s) (badbit s) (eofbit s) true (tied s)).
Definition set_badbit : S unit :=
  modify (λ s, Iostream (rdbuf s) true (eofbit s) (failbit s) (tied s)).
Definition set_eofbit : S unit :=
  modify (λ s, Iostream (rdbuf s) (badbit s) true (failbit s) (tied s)).

(** [basic_socket_iostream()] *)
Definition new_iostream (n : N) : iostream N := Iostream (new_sbuf n) false false false true.

(** [connect( x1, ..., xn )] and [close()]; a constructor with arguments is
    [new_iostream] followed by the same [connect]. *)
Definition ios_connect (answer : Z + list nat) : S unit :=
  ok ← on_buf (connect_query answer);
  when (negb ok) set_failbit.

Definition ios_close : S unit :=
  ok ← on_buf close;
  when (negb ok) set_failbit.

Definition ios_connected (answer : Z + list nat) (n : N) : outcome exn unit * iostream N :=
  ios_connect answer (new_iostream n).

(** [ostream::flush], the sentries of input and output, [ostream::write] and
    [istream::read] *)
Definition ios_flush : S unit :=
  r ← on_buf sync;
  when (bool_decide (r = eof)) set_badbit.

Definition sentry : S bool :=
  s ← gets id;
  when (good s && tied s) ios_flush;;
  s ← gets id;
  mret (good s).

Definition ios_write (bs : list byte) : S unit :=
  ok ← sentry;
  when ok (n ← on_buf (sputn bs); when (bool_decide (n ≠ length bs)) set_badbit).

Definition ios_read (n : nat) : S (list byte) :=
  ok ← sentry;
  if (ok : bool) then
    bs ← on_buf (sgetn n);
    when (bool_decide (length bs < n)) (set_eofbit;; set_failbit);;
    mret bs
  else set_failbit;; mret [].
End ops.

(** * Correctness *)

Section iostream.
Context {N : Type} `{!Net N} `{!Healthy N}.
Implicit Types (s : iostream N) (bs : list byte).

Lemma wp_on_buf {A} (m : M (sbuf N) exn A) Q s :
  wp (on_buf m) Q s ↔
  wp m (λ r b, Q r (Iostream b (badbit s) (eofbit s) (failbit s) (tied s))) (rdbuf s).
Proof. unfold wp, on_buf. by destruct (m (rdbuf s)). Qed.

(** A stream that is connected, in order and buffered *)
Record usable s : Prop := {
  us_good : good s = true;
  us_tied : tied s = true;
  us_inv : sbuf_inv (rdbuf s);
  us_buffered : unbuffered (rdbuf s) = false;
}.

(** Every operation of a usable stream first sends what is pending. *)
Lemma sentry_flushes s :
  usable s →
  wp sentry (returns (λ ok s', ok = true ∧ usable s' ∧ pending (rdbuf s') = [] ∧
    delivered (net (rdbuf s')) = output (rdbuf s) ∧ input (rdbuf s') = input (rdbuf s))) s.
Proof.
  intros [Hg Ht Hi Hu]. unfold sentry. rewrite wp_bind, wp_gets, wp_bind. unfold id.
  rewrite Hg, Ht. simpl. unfold ios_flush. rewrite wp_bind, wp_on_buf. unfold sync.
  eapply wp_mono, (overflow_spec (rdbuf s) None); [|done|done].
  intros [r|?|?] b; try done. intros (Hr & Hi1 & Hu1 & Ho1 & Hp1 & Hn1).
  rewrite bool_decide_eq_false_2 by done. simpl. rewrite wp_ret, wp_bind, wp_gets, wp_ret.
  assert (Hpend : pending b = []) by (unfold pending; by rewrite Hp1).
  split; [done|]. split; [by split|]. split; [done|]. split; [|done].
  unfold output at 1 in Ho1. rewrite Hpend, !app_nil_r in Ho1. done.
Qed.

Lemma ios_write_spec bs s :
  usable s →
  wp (ios_write bs) (returns (λ _ s', usable s' ∧ output (rdbuf s') = output (rdbuf s) ++ bs ∧
    input (rdbuf s') = input (rdbuf s))) s.
Proof.
  intros Hs. unfold ios_write. rewrite wp_bind. eapply wp_mono, sentry_flushes; [|done].
  intros [ok|?|?] s1; try done. intros (-> & [Hg Ht Hi Hu] & Hp & Hd & Hn). simpl.
  rewrite wp_bind, wp_on_buf. eapply wp_mono, sputn_spec; [|done|done].
  intros [n|?|?] b; try done. intros (-> & Hi1 & Hu1 & Ho1 & Hn1).
  rewrite bool_decide_eq_false_2 by (intros Hbad; by apply Hbad).
  split; [by split|]. simpl. split; [|congruence]. rewrite Ho1. unfold output at 1.
  by rewrite Hp, app_nil_r, Hd.
Qed.

Lemma ios_read_spec n s :
  usable s → n ≤ length (input (rdbuf s)) →
  wp (ios_read n) (returns (λ answer s', answer = take n (input (rdbuf s)) ∧ usable s' ∧
    pending (rdbuf s') = [] ∧ delivered (net (rdbuf s')) = output (rdbuf s) ∧
    input (rdbuf s') = drop n (input (rdbuf s)))) s.
Proof.
  intros Hs Hn. unfold ios_read. rewrite wp_bind. eapply wp_mono, sentry_flushes; [|done].
  intros [ok|?|?] s1; try done. intros (-> & [Hg Ht Hi Hu] & Hp & Hd & Hin).
  rewrite wp_bind, wp_on_buf. eapply wp_mono, sgetn_spec; [|done|by rewrite Hin].
  intros [r|?|?] b; try done. intros (-> & Hi' & Hr & Hu' & Hp' & Hd').
  rewrite Hin, length_take, bool_decide_eq_false_2 by lia. simpl.
  rewrite wp_bind, !wp_ret. split; [done|]. split; [split; [exact Hg|exact Ht|done|simpl; congruence]|]. simpl.
  split_and!; congruence.
Qed.

(** ** Connecting *)

(** Connecting a new buffer changes nothing but the network. *)
Lemma connect_loop_net eps ec (b : sbuf N) :
  wp (connect_loop eps ec) (λ _ b', ∃ n, b' = with_net b n (strays b)) b.
Proof.
  revert ec b. induction eps as [|ep eps IH]; intros ec b; cbn [connect_loop].
  { exists (net b). by destruct b. }
  case_bool_decide; [exists (net b); by destruct b|].
  rewrite wp_bind, wp_on_net, wp_bind. unfold when. case_bool_decide; [by eexists|].
  rewrite wp_ret, wp_bind, wp_on_net. eapply wp_mono, IH. intros r b' (n & ->). by exists n.
Qed.

Lemma connect_new answer (n : N) :
  wp (connect_query answer) (λ _ b', ∃ n', b' = with_net (new_sbuf n) n' 0) (new_sbuf n).
Proof.
  unfold connect_query, init_buffers, setg, setp. rewrite !wp_bind, wp_modify, wp_bind, wp_gets.
  cbn [unbuffered new_sbuf id]. rewrite wp_modify, wp_bind, wp_on_net, wp_bind.
  unfold resolve_and_connect. destruct answer as [ec|eps]; [by eexists|].
  eapply wp_mono, connect_loop_net. intros [r|?|?] b' (n' & ->); by eexists.
Qed.

Lemma constructor_usable answer n s :
  ios_connected answer n = (Ret tt, s) → failbit s = false →
  usable s ∧ output (rdbuf s) = delivered (net (rdbuf s)) ∧ input (rdbuf s) = incoming (net (rdbuf s)) ∧
  pending (rdbuf s) = [].
Proof.
  unfold ios_connected, ios_connect, mbind, M_bind, on_buf. cbn [rdbuf new_iostream].
  pose proof (connect_new answer n) as Hc. unfold wp in Hc.
  destruct (connect_query answer (new_sbuf n)) as [[ok|?|?] b]; try done. cbn [snd] in Hc.
  destruct Hc as [n' ->]. destruct ok; intros [= <-]; [intros _|done].
  split; [split; try done; apply with_net_inv, new_sbuf_inv|].
  unfold output, input, pending, available_input. simpl. by rewrite app_nil_r.
Qed.

(** Requests, each followed by reading an answer of so many bytes *)
Fixpoint exchange (l : list (list byte * nat)) : M (iostream N) exn (list (list byte)) :=
  match l with
  | [] => mret []
  | (bs, n) :: l => ios_write bs;; a ← ios_read n; r ← exchange l; mret (a :: r)
  end.

Lemma exchange_spec l s :
  usable s → pending (rdbuf s) = [] → sum_list l.*2 ≤ length (input (rdbuf s)) →
  wp (exchange l) (returns (λ answers s', usable s' ∧ pending (rdbuf s') = [] ∧
    length <$> answers = l.*2 ∧ concat answers = take (sum_list l.*2) (input (rdbuf s)) ∧
    input (rdbuf s') = drop (sum_list l.*2) (input (rdbuf s)) ∧
    delivered (net (rdbuf s')) = delivered (net (rdbuf s)) ++ concat l.*1)) s.
Proof.
  revert s. induction l as [|[bs n] l IH]; intros s Hs Hp Hn; csimpl in *.
  { rewrite wp_ret, app_nil_r. by split_and!. }
  rewrite wp_bind. eapply wp_mono, ios_write_spec; [|done].
  intros [[]|?|?] s1; try done. intros (Hs1 & Ho1 & Hn1).
  rewrite wp_bind. eapply wp_mono, ios_read_spec; [|done|rewrite Hn1; lia].
  intros [a|?|?] s2; try done. intros (-> & Hs2 & Hp2 & Hd2 & Hn2). rewrite Hn1 in *.
  rewrite wp_bind. eapply wp_mono, IH; [|done..|rewrite Hn2, length_drop; lia].
  intros [r|?|?] s3; try done. intros (Hs3 & Hp3 & Hl & Hc & Hn3 & Hd3). rewrite wp_ret.
  split_and!; [done|done| | | |].
  - rewrite fmap_cons, Hl, length_take. f_equal. lia.
  - simpl. by rewrite Hc, Hn2, take_take_drop.
  - by rewrite Hn3, Hn2, drop_drop.
  - rewrite Hd3, Hd2, Ho1. unfold output. by rewrite Hp, app_nil_r, <-app_assoc.
Qed.

(** ** Properties *)

(** C19: on a stream whose constructor has connected it, after any exchange of requests
    and answers a request is sent in full, after everything written before it, by the time
    its answer is read, and the answers are the bytes that arrive, in order: the constructor
    ties the stream to itself, so that reading flushes it. *)
Theorem request_is_sent_before_reading answer n s l bs k :
  ios_connected answer n = (Ret tt, s) → failbit s = false →
  let n1 := net (rdbuf s) in
  sum_list l.*2 + k ≤ length (incoming n1) →
  wp (answers ← exchange l; ios_write bs;; a ← ios_read k; mret (answers, a))
    (returns (λ r s', length <$> r.1 = l.*2 ∧ concat r.1 = take (sum_list l.*2) (incoming n1) ∧
      r.2 = take k (drop (sum_list l.*2) (incoming n1)) ∧ good s' = true)) s ∧
  wp (exchange l;; ios_write bs;; sentry) (returns (λ ok s', ok = true ∧ pending (rdbuf s') = [] ∧
    delivered (net (rdbuf s')) = delivered n1 ++ concat l.*1 ++ bs)) s.
Proof.
  intros Hcon Hf n1 Hn. destruct (constructor_usable _ _ _ Hcon Hf) as (Hs & Ho & Hin & Hp).
  fold n1 in Ho, Hin. rewrite <-Hin in *.
  split; rewrite wp_bind; (eapply wp_mono, exchange_spec; [|done..|lia]);
    intros [r|?|?] s1; try done; intros (Hs1 & Hp1 & Hl1 & Hc1 & Hn1 & Hd1); rewrite wp_bind;
    (eapply wp_mono, ios_write_spec; [|done]); intros [[]|?|?] s2; try done; intros (Hs2 & Ho2 & Hn2).
  - rewrite wp_bind. eapply wp_mono, ios_read_spec; [|done|rewrite Hn2, Hn1, length_drop; lia].
    intros [a|?|?] s3; try done. intros (-> & [Hg _ _ _] & _). rewrite wp_ret. simpl.
    by rewrite Hn2, Hn1.
  - eapply wp_mono, sentry_flushes; [|done].
    intros [ok|?|?] s3; try done. intros (-> & _ & Hp3 & Hd3 & _). simpl. split_and!; [done..|].
    rewrite Hd3, Ho2. unfold output. by rewrite Hp1, app_nil_r, Hd1, <-app_assoc.
Qed.

(** A stream that failed once stays failed: connecting and closing only ever set the
    bit, so that a stream reconnected with success reads and writes nothing. *)
Lemma failbit_is_kept answer s :
  failbit s = true →
  wp (ios_connect answer) (λ o s', failbit s' = true) s ∧
  wp ios_close (λ o s', failbit s' = true) s.
Proof.
  intros Hf. unfold ios_connect, ios_close. rewrite !wp_bind, !wp_on_buf. unfold wp.
  split; [destruct (connect_query answer (rdbuf s)) as [[ok|?|?] b]|
    destruct (close (rdbuf s)) as [[ok|?|?] b]]; simpl; try done; by destruct ok.
Qed.
End iostream.
