(* ===== verification/Asio.v ===== *)
(** Asynchronous operations as blocking calls (asio.hpp, asio.cpp,
    udp/socket.cpp): each wrapper creates a promise, starts an operation of the
    io_service with a handler bound to that promise, and waits for the promise.
    The io_service is not the library's code: starting an operation is recorded,
    and its handler may be invoked later, once, with any result. *)
From S2P Require Import Prelude StdHeap World ReadyList TaskQueue Notify Scheduler Blocking Quit Future RunTask ProcessTasks Delivery.

(** * Data *)

(** What the promises hold: [size_t], [error_code] (0 when there was no error),
    [std::vector<endpoint>]. *)
Inductive io_value :=
  | Bytes (n : nat)
  | Ec (ec : Z)
  | Endpoints (eps : list nat).

(** The operations started on the io_service, with the object they are started
    on. *)
Inductive aop :=
  | AsyncRead (s len : nat)
  | AsyncReadSome (s len : nat)
  | AsyncWrite (s len : nat)
  | AsyncWriteSome (s len : nat)
  | AsyncAccept (acc sock : nat)
  | AsyncConnect (sock ep : nat)
  | AsyncResolve (host port : string)         (* tcp::resolver *)
  | AsyncResolveUdp (host port : string)      (* udp::resolver *)
  | AsyncReceiveFrom (s len : nat).

(** The handlers, bound to their promise and, for the last one, to the variable
    that is to receive the error code. *)
Inductive handler :=
  | ReadWriteHandler (p : nat)
  | RwHandler (p : nat)                (* udp *)
  | ErrorHandler (p : nat)
  | ErrorHandlerEc (p : nat)
  | ResolveHandler (p : nat)
  | ReadWriteHandlerEc (p oec : nat).

(** What the io_service invokes a handler with; each one takes its part. *)
Record completion := Completion {
  c_ec : Z;
  c_bytes : nat;
  c_itr : list nat;                    (* the endpoints from [itr] to the end *)
}.

Record io := Io {
  io_world : world io_value;
  io_ec : gmap nat Z;                  (* the error_code variables *)
  io_started : list (aop * handler);
}.

#[export] Instance io_has_world : HasWorld io io_value := {
  the_world := io_world;
  put_world w s := Io w (io_ec s) (io_started s);
}.

Section ops.
Context `{!Clock} `{!HeapAlgo nat}.
Abbreviation I := (M io exn).

Definition initiate (o : aop) (h : handler) : I unit :=
  modify (λ s, Io (io_world s) (io_ec s) (io_started s ++ [(o, h)])).

Definition store_ec (oec : nat) (ec : Z) : I unit :=
  modify (λ s, Io (io_world s) (<[oec := ec]> (io_ec s)) (io_started s)).

(** ** The handlers *)

(** [read_write_handler], and [rw_handler] of udp/socket.cpp *)
Definition read_write_handler (p : nat) (ec : Z) (bytes_transferred : nat) : I unit :=
  if bool_decide (ec = 0%Z) then on_world (set_value p (Bytes bytes_transferred))
  else on_world (set_exception p (system_error ec)).

Definition rw_handler (p : nat) (ec : Z) (s : nat) : I unit :=
  if bool_decide (ec = 0%Z) then on_world (set_value p (Bytes s))
  else on_world (set_exception p (system_error ec)).

(** [read_write_handler_ec] *)
Definition read_write_handler_ec (p oec : nat) (ec : Z) (bytes_transferred : nat) : I unit :=
  on_world (set_value p (Bytes bytes_transferred));;
  store_ec oec ec.

(** [error_handler], [error_handler_ec] *)
Definition error_handler (p : nat) (ec : Z) : I unit := on_world (set_value p (Ec ec)).
Definition error_handler_ec (p : nat) (ec : Z) : I unit := on_world (set_value p (Ec ec)).

(** [resolve_handler], and its loop over the iterator *)
Fixpoint push_endpoints (eps itr : list nat) : list nat :=
  match itr with
  | [] => eps
  | ep :: itr => push_endpoints (eps ++ [ep]) itr
  end.

Definition resolve_handler (p : nat) (ec : Z) (itr : list nat) : I unit :=
  if bool_decide (ec = 0%Z) then on_world (set_value p (Endpoints (push_endpoints [] itr)))
  else on_world (set_exception p (system_error ec)).

Definition run_handler (h : handler) (c : completion) : I unit :=
  match h with
  | ReadWriteHandler p => read_write_handler p (c_ec c) (c_bytes c)
  | RwHandler p => rw_handler p (c_ec c) (c_bytes c)
  | ErrorHandler p => error_handler p (c_ec c)
  | ErrorHandlerEc p => error_handler_ec p (c_ec c)
  | ResolveHandler p => resolve_handler p (c_ec c) (c_itr c)
  | ReadWriteHandlerEc p oec => read_write_handler_ec p oec (c_ec c) (c_bytes c)
  end.

(** ** The wrappers, up to the switch of their wait *)

Definition await_op (o : aop) (h : nat → handler) (timeout_us : Z) : I (waited io_value) :=
  p ← on_world alloc_prom;
  initiate o (h p);;
  on_world (promise_wait p timeout_us).

Definition read (s len : nat) (timeout_us : Z) : I (waited io_value) :=
  await_op (AsyncRead s len) ReadWriteHandler timeout_us.
Definition read_some (s len : nat) (timeout_us : Z) : I (waited io_value) :=
  await_op (AsyncReadSome s len) ReadWriteHandler timeout_us.
Definition write (s len : nat) (timeout_us : Z) : I (waited io_value) :=
  await_op (AsyncWrite s len) ReadWriteHandler timeout_us.
Definition write_some (s len : nat) (timeout_us : Z) : I (waited io_value) :=
  await_op (AsyncWriteSome s len) ReadWriteHandler timeout_us.
Definition accept (acc sock : nat) (timeout_us : Z) : I (waited io_value) :=
  await_op (AsyncAccept acc sock) ErrorHandler timeout_us.
Definition connect (sock ep : nat) (timeout_us : Z) : I (waited io_value) :=
  await_op (AsyncConnect sock ep) ErrorHandler timeout_us.
Definition resolve (host port : string) (timeout_us : Z) : I (waited io_value) :=
  await_op (AsyncResolve host port) ResolveHandler timeout_us.

(** [udp::resolve], which makes a resolver of its own and leaves the one it is given *)
Definition udp_resolve (r : nat) (host port : string) (timeout_us : Z) : I (waited io_value) :=
  await_op (AsyncResolveUdp host port) ResolveHandler timeout_us.

(** [tcp::socket::connect] *)
Definition socket_connect (sock ep : nat) : I (waited io_value) :=
  connect sock ep microseconds_max.

(** ** Datagrams: udp/socket.cpp *)

(** The socket's own calls, which do not wait. *)
Class UdpSocket := {
  available : nat → I nat;
  receive_now : nat → nat → I nat;     (* socket and length: bytes received *)
  send_now : nat → nat → nat → I nat;  (* socket, length and endpoint *)
}.

Context `{!UdpSocket}.

(** [udp::receive_from] and [udp::send_to] *)
Definition receive_from (s data_len : nat) : I (waited io_value) :=
  n ← available s;
  if bool_decide (n ≠ 0) then r ← receive_now s data_len; mret (Value (Bytes r))
  else await_op (AsyncReceiveFrom s data_len) RwHandler microseconds_max.

Definition send_to (s data_len ep : nat) : I nat := send_now s data_len ep.
End ops.

(** * Correctness *)

Section asio.
Context `{!Clock} `{HeapSpec nat}.
Implicit Types (w : world io_value).

(** The promise a handler completes. *)
Definition handler_promise (h : handler) : nat :=
  match h with
  | ReadWriteHandler p | RwHandler p | ErrorHandler p | ErrorHandlerEc p
  | ResolveHandler p | ReadWriteHandlerEc p _ => p
  end.

(** What the caller of the operation is to get for what the io_service said. *)
Definition io_result (h : handler) (c : completion) : exn + io_value :=
  match h with
  | ReadWriteHandler _ | RwHandler _ =>
      if bool_decide (c_ec c = 0%Z) then inr (Bytes (c_bytes c)) else inl (system_error (c_ec c))
  | ErrorHandler _ | ErrorHandlerEc _ => inr (Ec (c_ec c))
  | ResolveHandler _ =>
      if bool_decide (c_ec c = 0%Z) then inr (Endpoints (c_itr c)) else inl (system_error (c_ec c))
  | ReadWriteHandlerEc _ _ => inr (Bytes (c_bytes c))
  end.

Lemma push_endpoints_app eps itr : push_endpoints eps itr = eps ++ itr.
Proof.
  revert eps. induction itr as [|ep itr IH]; intros eps; simpl; [by rewrite app_nil_r|].
  by rewrite IH, <-app_assoc.
Qed.

Lemma run_handler_complete h c s :
  (∀ p oec, h ≠ ReadWriteHandlerEc p oec) →
  run_handler h c s = on_world (complete (handler_promise h) (io_result h c)) s.
Proof.
  intros Hec. destruct h as [p|p|p|p|p|p oec]; simpl;
    unfold read_write_handler, rw_handler, resolve_handler; try done;
    try (by case_bool_decide).
  - case_bool_decide; [by rewrite push_endpoints_app|done].
  - by destruct (Hec p oec).
Qed.

(** ** Properties *)

(** A blocking wrapper called by a running context starts exactly the
    operation it is named for, with a handler bound to a new promise, and
    suspends its caller, and nobody else, on that promise; another context of
    the thread runs meanwhile. *)
Theorem operation_blocks_its_caller (o : aop) (h : nat → handler) s this st r b cur :
  running (io_world s) this st r b cur → w_prom (io_world s) !! w_fresh (io_world s) = None →
  (now_at (w_ticks (io_world s)) ≤ time_point_max)%Z →
  wp (await_op o h microseconds_max) (returns (λ wt s', ∃ sw r1 b1 st1,
    io_started s' = io_started s ++ [(o, h (w_fresh (io_world s)))] ∧ wt = Blocked sw ∧
    running (io_world s') this st1 (tail r1) b1 (sw_next sw) ∧ sw_prev sw = cur ∧
    cur ∈ b1 ∧ prom_of (w_ctx (io_world s')) cur = Some (w_fresh (io_world s)))) s.
Proof.
  intros Hrun Hnone Hnow. destruct (running_alloc_prom _ _ _ _ _ _ Hrun Hnone) as [Hrun1 Hb].
  unfold await_op. rewrite wp_bind, wp_on_world. unfold alloc_prom.
  rewrite wp_bind, wp_fresh, wp_bind, wp_modify, wp_ret. simpl.
  unfold initiate. rewrite wp_bind, wp_modify, wp_on_world. simpl.
  eapply wp_mono, (promise_wait_blocks _ this st r b cur _ new_promise Hrun1);
    [|apply lookup_insert_eq|done|done|exact Hb|done].
  intros [wt|?|?] w'; try done. intros (sw & r1 & b1 & st1 & -> & Hrun2 & -> & Hcur & Hp).
  by eexists _, r1, b1, st1.
Qed.

(** C26: when the io_service later invokes the handler on a thread of its own,
    the promise gets what the caller is to see (the bytes, the error code or the
    endpoints in order, or the error as a [system_error]), and the waiting thread
    is sent exactly one task that will wake the caller, and is woken itself. *)
Theorem handler_completes_operation (h : handler) (c : completion) s this k st xs :
  let w := io_world s in let p := handler_promise h in
  (∀ p oec, h ≠ ReadWriteHandlerEc p oec) →
  w_prom w !! p = Some k → m_error k = None → m_blocked_thread k = Some this →
  w_thr w !! this = Some st → w_self w ≠ this →
  queue_rep (w_task w) st xs → w_task w !! w_fresh w = None →
  in_int64 (w_task_count w + 1) = true →
  wp (run_handler h c) (returns (λ _ s', io_started s' = io_started s ∧
    completed_for p this k st xs (io_result h c) w (io_world s'))) s.
Proof.
  intros w p Hec Hk He Hb Hs Hself Hq Hfr Hc. unfold wp. rewrite run_handler_complete by done.
  fold (wp (on_world (complete (handler_promise h) (io_result h c)))
    (returns (λ _ s', io_started s' = io_started s ∧
      completed_for p this k st xs (io_result h c) w (io_world s'))) s).
  rewrite wp_on_world. eapply wp_mono, complete_spec; [|done..].
  intros [[]|?|?] w'; try done.
Qed.

(** [read_write_handler_ec] completes the promise before it stores the error
    code: with the value in place and the waiter already allowed to go on, the
    caller's error code is still the one it had before, and its wait returns the
    number of bytes as if the operation had succeeded. *)
Theorem error_code_arrives_late s p oec ec n k :
  w_prom (io_world s) !! p = Some k → m_error k = None → m_blocked_thread k = None →
  ∃ s1, on_world (set_value p (Bytes n)) s = (Ret tt, s1) ∧
    read_write_handler_ec p oec ec n s = store_ec oec ec s1 ∧
    on_world (promise_wait p microseconds_max) s1 = (Ret (Value (Bytes n)), s1) ∧
    io_ec s1 !! oec = io_ec s !! oec.
Proof.
  intros Hk He Hb.
  set (s1 := Io (with_prom (io_world s) p (set_m_value (Some (Bytes n)) k)) (io_ec s) (io_started s)).
  assert (Hset : on_world (set_value p (Bytes n)) s = (Ret tt, s1)).
  { apply wp_run. rewrite wp_on_world. unfold set_value. wp_steps. rewrite He. wp_steps.
    unfold promise_notify, promise_ready. wp_steps. rewrite He. simpl. wp_steps. by rewrite Hb. }
  exists s1. split_and!; [done| | |done].
  - unfold read_write_handler_ec, mbind, M_bind. by rewrite Hset.
  - apply wp_run. rewrite wp_on_world. unfold promise_wait, promise_wait_with.
    rewrite wp_bind, wp_get_prom. simpl. rewrite lookup_insert_eq. simpl. by rewrite He.
Qed.
End asio.
