(* ===== verification/DefaultService.v ===== *)
(** [default_io_service] (asio.cpp): the io_service the resolvers run on, made the first
    time it is asked for together with the work that keeps it going and the thread that
    runs it. Each of the three is a static variable of the function: it is initialised
    when the control first gets to it, and again later when that threw. Making the
    library's objects is a parameter. *)
From S2P Require Import Prelude World.

(** The static variables, null until they are initialised *)
Record service_statics := ServiceStatics {
  st_io : ptr;
  st_work : ptr;
  st_thread : ptr;
}.

(** What Boost makes: an io_service, work on it, a thread that runs it *)
Class AsioObjects (L : Type) := {
  new_io_service : M L exn nat;
  new_work : nat → M L exn nat;
  new_run_thread : nat → M L exn nat;
}.

Section ops.
Context {L : Type} `{!AsioObjects L}.
Abbreviation C := (M (service_statics * L) exn).

Definition on_library {A} (m : M L exn A) : C A := λ '(v, l), let '(r, l') := m l in (r, (v, l')).

(** A static variable read with [get] and set with [set], and its initialiser *)
Definition static_init (get : service_statics → ptr) (set : nat → service_statics → service_statics)
    (m : M L exn nat) : C nat :=
  s ← gets fst;
  match get s with
  | Some a => mret a
  | None => a ← on_library m; modify (λ '(v, l), (set a v, l));; mret a
  end.

Definition default_io_service : C nat :=
  io ← static_init st_io (λ a v, ServiceStatics (Some a) (st_work v) (st_thread v)) new_io_service;
  static_init st_work (λ a v, ServiceStatics (st_io v) (Some a) (st_thread v)) (new_work io);;
  static_init st_thread (λ a v, ServiceStatics (st_io v) (st_work v) (Some a)) (new_run_thread io);;
  mret io.
End ops.

Section service.
Context {L : Type} `{!AsioObjects L}.
Implicit Types (v : service_statics) (l : L).

(** Once all three are there, asking again makes nothing. *)
Lemma service_ready a b c l :
  default_io_service (ServiceStatics (Some a) (Some b) (Some c), l) = (Ret a, (ServiceStatics (Some a) (Some b) (Some c), l)).
Proof. done. Qed.

(** The objects made in one call, in order *)
Lemma service_first l a l1 b l2 c l3 :
  new_io_service l = (Ret a, l1) → new_work a l1 = (Ret b, l2) → new_run_thread a l2 = (Ret c, l3) →
  default_io_service (ServiceStatics None None None, l) = (Ret a, (ServiceStatics (Some a) (Some b) (Some c), l3)).
Proof.
  intros H1 H2 H3. unfold default_io_service, static_init, mbind, M_bind, gets, on_library, modify. simpl.
  rewrite H1. simpl. rewrite H2. simpl. by rewrite H3.
Qed.

(** A call that fails leaves what it made: the io_service it made is the one every later
    call returns, whatever fails in those. *)
Lemma service_kept v l a v' l' o :
  st_io v = Some a → default_io_service (v, l) = (o, (v', l')) → st_io v' = Some a ∧ ∀ io, o = Ret io → io = a.
Proof.
  intros Ha. unfold default_io_service, static_init, mbind, M_bind, gets, on_library, modify. simpl. rewrite Ha. simpl.
  destruct (st_work v) as [b|] eqn:Hb; simpl.
  - destruct (st_thread v) as [c|] eqn:Hc; simpl.
    + intros [= <- <- <-]. split; [done|]. by intros io [= <-].
    + destruct (new_run_thread a l) as [[c|e|u] l1]; simpl; intros [= <- <- <-];
        (split; [done|]); intros io Hio; by simplify_eq.
  - destruct (new_work a l) as [[b|e|u] l1]; simpl;
      [|intros [= <- <- <-]; (split; [done|]); intros io Hio; by simplify_eq..].
    destruct (st_thread v) as [c|] eqn:Hc; simpl.
    + intros [= <- <- <-]. split; [done|]. by intros io [= <-].
    + destruct (new_run_thread a l1) as [[c|e|u] l2]; simpl; intros [= <- <- <-];
        (split; [done|]); intros io Hio; by simplify_eq.
Qed.
End service.
