(* ===== verification/Acceptor.v ===== *)
(** The acceptor (asio/acceptor.cpp): a task that accepts connections in a loop
    and posts the user's handler for each. The loop is cut at its waits: it is at
    one of two calls of [accept()], and goes on when that call ends. *)
From S2P Require Import Prelude StdHeap World ReadyList TaskQueue Notify Scheduler Blocking Future Asio.

(** * One accept *)

Section accept.
Context `{!Clock} `{!HeapAlgo nat}.

(** [acceptor_private::accept], up to the switch of its wait, and after it *)
Definition accept_begin (acc sock : nat) (timeout_us : Z) : M io exn (waited io_value) :=
  await_op (AsyncAccept acc sock) ErrorHandler timeout_us.

Definition accept_end (sock : nat) (v : io_value) : M io exn nat :=
  match v with
  | Ec ec => if bool_decide (ec = 0%Z) then mret sock else throw (system_error ec)
  | _ => undef BadPointer                (* a promise<error_code> holds no other value *)
  end.
End accept.

(** * The loop *)

(** The member [acc]: never allocated, listening, or deleted. *)
Inductive acc_state := AccNull | AccOpen | AccDeleted.

Record acceptor := Acceptor {
  acc : acc_state;
  handled : list (nat * Z);        (* the calls of new_connection posted so far *)
}.

Definition new_acceptor : acceptor := Acceptor AccNull [].

(** Where the task is: at the [accept()] in the [try] block, at the one in the
    handler of the error [ec], or over, by the exception that [listen_done] gets. *)
Inductive listen_point :=
  | Accepting
  | AcceptingAfter (ec : Z)
  | Over (e : exn).

Section ops.
Abbreviation A := (M acceptor exn).

(** The start of an [accept()]: [acc->async_accept]. *)
Definition start_accept : A unit := λ s,
  (match acc s with AccOpen => Ret tt | _ => Undef BadPointer end, s).

Definition post_connection (sock : nat) (ec : Z) : A unit :=
  modify (λ s, Acceptor (acc s) (handled s ++ [(sock, ec)])).

(** [listen], up to its first wait; opening the port succeeds or throws. *)
Definition listen (open : option exn) : A listen_point :=
  s ← gets id;
  match acc s, open with
  | AccNull, Some e => mret (Over e)
  | AccNull, None =>
      modify (λ s, Acceptor AccOpen (handled s));; start_accept;; mret Accepting
  | _, _ => start_accept;; mret Accepting
  end.

(** ... and from the end of one [accept()] to the next wait. *)
Definition listen_step (p : listen_point) (r : exn + nat) : A listen_point :=
  match p, r with
  | Accepting, inr sock => post_connection sock 0;; start_accept;; mret Accepting
  | Accepting, inl (system_error ec) => start_accept;; mret (AcceptingAfter ec)
  | Accepting, inl e => mret (Over e)
  | AcceptingAfter ec, inr sock => post_connection sock ec;; start_accept;; mret Accepting
  | AcceptingAfter _, inl e => mret (Over e)
  | Over e, _ => mret (Over e)
  end.

Fixpoint listen_run (p : listen_point) (rs : list (exn + nat)) : A listen_point :=
  match rs with
  | [] => mret p
  | r :: rs => p' ← listen_step p r; listen_run p' rs
  end.

(** [~acceptor_private], up to its wait for [listen_done] *)
Definition destroy : A unit := modify (λ s, Acceptor AccDeleted (handled s)).
End ops.

(** * Correctness *)

(** The connections among the ends of the calls. *)
Definition connections (rs : list (exn + nat)) : list nat :=
  omap (λ r, match r with inr sock => Some sock | inl _ => None end) rs.

(** The last call failed ([b] when there was none). *)
Definition ends_failed (b : bool) (rs : list (exn + nat)) : bool :=
  match last rs with Some (inl _) => true | Some (inr _) => false | None => b end.

(** Only errors of the system, and never two in a row. *)
Fixpoint failures_isolated (failed : bool) (rs : list (exn + nat)) : bool :=
  match rs with
  | [] => true
  | inr _ :: rs => failures_isolated false rs
  | inl (system_error _) :: rs => negb failed && failures_isolated true rs
  | inl _ :: _ => false
  end.

Definition after_failure (p : listen_point) : bool :=
  match p with AcceptingAfter _ => true | _ => false end.

Lemma listen_run_isolated p rs hs :
  (∀ e, p ≠ Over e) → failures_isolated (after_failure p) rs = true →
  ∃ p' hs', listen_run p rs (Acceptor AccOpen hs) = (Ret p', Acceptor AccOpen (hs ++ hs')) ∧
    (∀ e, p' ≠ Over e) ∧ after_failure p' = ends_failed (after_failure p) rs ∧
    hs'.*1 = connections rs.
Proof.
  revert p hs. induction rs as [|r rs IH]; intros p hs Hp Hi.
  { exists p, []. by rewrite app_nil_r. }
  assert (Hgo : ∀ p1 h1, (∀ e, p1 ≠ Over e) → failures_isolated (after_failure p1) rs = true →
    after_failure p1 = (if r is inl _ then true else false) →
    listen_step p r (Acceptor AccOpen hs) = (Ret p1, Acceptor AccOpen (hs ++ h1)) →
    h1.*1 ++ connections rs = connections (r :: rs) →
    ∃ p' hs', listen_run p (r :: rs) (Acceptor AccOpen hs) = (Ret p', Acceptor AccOpen (hs ++ hs')) ∧
      (∀ e, p' ≠ Over e) ∧ after_failure p' = ends_failed (after_failure p) (r :: rs) ∧
      hs'.*1 = connections (r :: rs)).
  { intros p1 h1 Hp1 Hi1 Hf Hs Hc.
    destruct (IH p1 (hs ++ h1) Hp1 Hi1) as (p' & hs' & Hr & Hp' & Hf' & Hc').
    exists p', (h1 ++ hs'). cbn [listen_run]. unfold mbind, M_bind. rewrite Hs, Hr, <-app_assoc.
    split_and!; [done|done| |by rewrite fmap_app, Hc'].
    rewrite Hf', Hf. unfold ends_failed. rewrite last_cons. by destruct (last rs), r. }
  destruct p as [|ec|e]; [| |by destruct (Hp e)]; destruct r as [e|sock]; simpl in Hi.
  - destruct e; try done. apply (Hgo (AcceptingAfter ec) []); try done. by rewrite app_nil_r.
  - by apply (Hgo Accepting [(sock, 0%Z)]).
  - by destruct e.
  - by apply (Hgo Accepting [(sock, ec)]).
Qed.

Lemma listen_run_app p rs1 rs2 s :
  listen_run p (rs1 ++ rs2) s = (p' ← listen_run p rs1; listen_run p' rs2) s.
Proof.
  revert p s. induction rs1 as [|r rs1 IH]; intros p s; [done|]. simpl.
  unfold mbind, M_bind in *. destruct (listen_step p r s) as [[p1|e|u] s1]; [apply IH|done..].
Qed.

(** ** Properties *)

(** C31: while the acceptor is open and failures come one at a time, no connection
    is lost: the handler is posted for exactly the accepted connections, in
    order, and the loop goes on accepting. *)
Theorem accepted_connections_are_handled rs hs :
  failures_isolated false rs = true →
  ∃ p hs', listen_run Accepting rs (Acceptor AccOpen hs) = (Ret p, Acceptor AccOpen (hs ++ hs')) ∧
    hs'.*1 = connections rs ∧ (∀ e, p ≠ Over e).
Proof.
  intros Hi. destruct (listen_run_isolated Accepting rs hs) as (p & hs' & ? & ? & _ & ?); try done.
  by exists p, hs'.
Qed.

(** Two errors in a row, however long after the start, end the loop: the
    handler hears of neither, and no connection that comes later is accepted. *)
Theorem two_failures_end_listening rs1 ec1 ec2 rs2 hs :
  failures_isolated false rs1 = true →
  ∃ hs' e, listen_run Accepting (rs1 ++ inl (system_error ec1) :: inl (system_error ec2) :: rs2)
      (Acceptor AccOpen hs) = (Ret (Over e), Acceptor AccOpen (hs ++ hs')) ∧
    (e = system_error ec1 ∨ e = system_error ec2) ∧ hs'.*1 = connections rs1.
Proof.
  intros Hi. destruct (listen_run_isolated Accepting rs1 hs) as (p & hs' & Hr & Hp & _ & Hc); try done.
  assert (Hover : ∀ rs e s, listen_run (Over e) rs s = (Ret (Over e), s)) by
    (intros rs e s; induction rs; done).
  destruct p as [|ec|e]; [| |by destruct (Hp e)].
  - exists hs', (system_error ec2). split; [|by split; [right|]].
    rewrite listen_run_app. unfold mbind, M_bind. rewrite Hr. simpl. apply Hover.
  - exists hs', (system_error ec1). split; [|by split; [left|]].
    rewrite listen_run_app. unfold mbind, M_bind. rewrite Hr. simpl. apply Hover.
Qed.

(** Destroying an acceptor that is listening, and whose last accept did not
    fail, deletes the socket and waits for the loop; the loop's pending accept then
    fails, and the handler of that error starts another accept on the deleted
    socket. *)
Theorem destroyed_while_listening rs ec :
  failures_isolated false rs = true → ends_failed false rs = false →
  (p ← listen None; p' ← listen_run p rs; destroy;; listen_step p' (inl (system_error ec)))
    new_acceptor = (Undef BadPointer, Acceptor AccDeleted
      (handled (listen_run Accepting rs (Acceptor AccOpen [])).2)).
Proof.
  intros Hi Hl. destruct (listen_run_isolated Accepting rs []) as (p & hs' & Hr & Hp & Hf & _); try done.
  unfold mbind, M_bind. simpl. rewrite Hr. simpl. change (after_failure p = ends_failed false rs) in Hf. rewrite Hl in Hf.
  destruct p as [|ec'|e]; [done|done|by destruct (Hp e)].
Qed.
