(* ===== verification/Retainable.v ===== *)
(** Intrusive reference counting (retainable.hpp): [retainable] objects carry
    their count, [retainable_ptr] variables hold an object or null. The store
    keeps the live objects with their counts and the live pointer variables, which
    lie outside the objects. *)
From S2P Require Import Prelude World.

(** * Data *)

Record rstore := RStore {
  counts : gmap nat Z;             (* m_ref_count of the live objects *)
  ptrs : gmap nat ptr;             (* cnt of the live retainable_ptr variables *)
}.

(** [atomic<int32_t>] arithmetic wraps. *)
Definition int32 (z : Z) : Z := ((z + 2 ^ 31) mod 2 ^ 32 - 2 ^ 31)%Z.

Section ops.
Abbreviation R := (M rstore exn).

(** The primitive reads and writes *)
Definition get_count (o : nat) : R Z := λ s,
  (match counts s !! o with Some n => Ret n | None => Undef BadPointer end, s).
Definition set_count (o : nat) (n : Z) : R unit :=
  modify (λ s, RStore (<[o := n]> (counts s)) (ptrs s)).
Definition delete_object (o : nat) : R unit :=
  modify (λ s, RStore (delete o (counts s)) (ptrs s)).
Definition get_cnt (v : nat) : R ptr := λ s,
  (match ptrs s !! v with Some c => Ret c | None => Undef BadPointer end, s).
Definition set_cnt (v : nat) (c : ptr) : R unit :=
  modify (λ s, RStore (counts s) (<[v := c]> (ptrs s))).
Definition end_ptr (v : nat) : R unit :=
  modify (λ s, RStore (counts s) (delete v (ptrs s))).

(** ** [retainable] *)

(** [new T]: the constructor starts the count at one. *)
Definition new_retainable (o : nat) : R unit := set_count o 1.

Definition retain (o : nat) : R unit :=
  n ← get_count o; set_count o (int32 (n + 1)).

Definition release (o : nat) : R unit :=
  n ← get_count o;
  set_count o (int32 (n - 1));;
  when (bool_decide (n = 1%Z)) (delete_object o).

Definition on_ptr (f : nat → R unit) (c : ptr) : R unit :=
  match c with Some o => f o | None => mret tt end.

(** ** [retainable_ptr] *)

(** [retainable_ptr( T* t, bool inc )] *)
Definition ptr_from (v : nat) (t : ptr) (inc : bool) : R unit :=
  set_cnt v t;; when inc (on_ptr retain t).

Definition ptr_copy (v u : nat) : R unit :=
  c ← get_cnt u; set_cnt v c;; on_ptr retain c.

Definition ptr_move (v mv : nat) : R unit :=
  c ← get_cnt mv; set_cnt v c;; set_cnt mv None.

Definition ptr_move_assign (v mv : nat) : R unit :=
  c ← get_cnt mv; set_cnt v c;; set_cnt mv None.

Definition ptr_destroy (v : nat) : R unit :=
  c ← get_cnt v; on_ptr release c;; end_ptr v.

(** The conversion and the casts: [is_a o] tells whether the object [o] is of the
    target's type, which the static cast takes for granted. *)
Definition ptr_convert (is_a : nat → bool) (v u : nat) : R unit :=
  set_cnt v None;;
  c ← get_cnt u;
  set_cnt v (o ← c; if is_a o then Some o else None);;
  c' ← get_cnt v;
  on_ptr retain c'.

Definition dynamic_retainable_cast (is_a : nat → bool) (v u : nat) : R unit :=
  c ← get_cnt u;
  let t := (o ← c; if is_a o then Some o else None) : ptr in
  on_ptr retain t;;
  ptr_from v t false.

Definition static_retainable_cast (v u : nat) : R unit :=
  c ← get_cnt u; on_ptr retain c;; ptr_from v c false.

Definition ptr_reset (v : nat) : R unit :=
  c ← get_cnt v;
  match c with
  | None => mret tt
  | Some o => release o;; set_cnt v None
  end.

(** The copied pointer is read again after the release. *)
Definition ptr_assign (v u : nat) : R unit :=
  c ← get_cnt v;
  c' ← get_cnt u;
  if bool_decide (c = c') then mret tt
  else
    on_ptr release c;;
    t ← get_cnt u;
    set_cnt v t;;
    on_ptr retain t.

(** [operator!], [operator bool], [get], [operator==] *)
Definition ptr_null (v : nat) : R bool := c ← get_cnt v; mret (bool_decide (c = None)).
Definition ptr_eq (v u : nat) : R bool :=
  c ← get_cnt v; c' ← get_cnt u; mret (bool_decide (c = c')).
End ops.

(** * Correctness *)

(** What a program does with objects and pointers; the arguments are as for the
    operations above, and [Raw] operations act on references without a pointer. *)
Inductive rop :=
  | New (o : nat)
  | RawRetain (o : nat)
  | RawRelease (o : nat)
  | Adopt (v o : nat)
  | Share (v o : nat)
  | Null (v : nat)
  | Copy (v u : nat)
  | Move (v u : nat)
  | Destroy (v : nat)
  | Convert (is_a : nat → bool) (v u : nat)
  | DynamicCast (is_a : nat → bool) (v u : nat)
  | StaticCast (v u : nat)
  | Reset (v : nat)
  | Assign (v u : nat).

Definition do_rop (r : rop) : M rstore exn unit :=
  match r with
  | New o => new_retainable o
  | RawRetain o => retain o
  | RawRelease o => release o
  | Adopt v o => ptr_from v (Some o) false
  | Share v o => ptr_from v (Some o) true
  | Null v => ptr_from v None false
  | Copy v u => ptr_copy v u
  | Move v u => ptr_move v u
  | Destroy v => ptr_destroy v
  | Convert f v u => ptr_convert f v u
  | DynamicCast f v u => dynamic_retainable_cast f v u
  | StaticCast v u => static_retainable_cast v u
  | Reset v => ptr_reset v
  | Assign v u => ptr_assign v u
  end.

Implicit Types (s : rstore) (ext : nat → nat).

(** The pointers to [o]. *)
Definition refs (m : gmap nat ptr) (o : nat) : nat :=
  size (filter (λ kv, kv.2 = Some o) m).

(** [upd f o g]: [f] with [g] applied to its value at [o]. *)
Definition upd (f : nat → nat) (o : nat) (g : nat → nat) : nat → nat :=
  λ x, if decide (x = o) then g (f x) else f x.

(** References without a pointer that the operation needs, and those it leaves:
    a new object comes with one, which a pointer may adopt. *)
Definition ext_after ext (r : rop) : nat → nat :=
  match r with
  | New o => upd ext o (λ _, 1)
  | RawRetain o => upd ext o S
  | RawRelease o => upd ext o pred
  | Adopt v o => upd ext o pred
  | _ => ext
  end.

Definition total s ext (o : nat) : nat := refs (ptrs s) o + ext o.

(** New pointers and objects are new, the ones used are there. *)
Definition rop_ok s ext (r : rop) : Prop :=
  match r with
  | New o => total s ext o = 0
  | RawRetain o => 0 < total s ext o
  | RawRelease o => 0 < ext o
  | Adopt v o => ptrs s !! v = None ∧ 0 < ext o
  | Share v o => ptrs s !! v = None ∧ 0 < total s ext o
  | Null v => ptrs s !! v = None
  | Copy v u | Move v u | Convert _ v u | DynamicCast _ v u | StaticCast v u =>
      ptrs s !! v = None ∧ is_Some (ptrs s !! u)
  | Destroy v | Reset v => is_Some (ptrs s !! v)
  | Assign v u => is_Some (ptrs s !! v) ∧ is_Some (ptrs s !! u)
  end.

(** An object lives exactly as long as it is referenced, and its count is the
    number of its references. *)
Definition counted (cs : gmap nat Z) (f : nat → nat) : Prop :=
  ∀ o, cs !! o = match f o with 0 => None | n => Some (Z.of_nat n) end.

Definition refs_inv s ext : Prop := counted (counts s) (total s ext).

Definition ref_max : nat := Z.to_nat (2 ^ 31 - 1).

Definition ind (P : Prop) `{!Decision P} : nat := if decide P then 1 else 0.

Lemma refs_delete m v o : refs m o = refs (delete v m) o + ind (m !! v = Some (Some o)).
Proof.
  unfold refs, ind. rewrite map_filter_delete.
  destruct (decide (m !! v = Some (Some o))) as [Hv|Hv].
  - assert (Hf : is_Some (filter (λ kv : nat * ptr, kv.2 = Some o) m !! v))
      by (eexists; by apply map_lookup_filter_Some).
    rewrite map_size_delete_Some by done. destruct Hf as [c Hc].
    assert (size (filter (λ kv : nat * ptr, kv.2 = Some o) m) ≠ 0); [|lia].
    apply map_size_ne_0_lookup. by exists v, c.
  - rewrite delete_id; [lia|]. apply map_lookup_filter_None. right. intros x Hx. simpl. congruence.
Qed.

Lemma refs_insert m v c o :
  refs (<[v := c]> m) o + ind (m !! v = Some (Some o)) = refs m o + ind (c = Some o).
Proof.
  rewrite (refs_delete m v o), <-insert_delete_eq.
  assert (Hn : refs (<[v := c]> (delete v m)) o = refs (delete v m) o + ind (c = Some o)); [|lia].
  unfold refs, ind. rewrite map_filter_insert. simpl. case_decide.
  - rewrite map_size_insert_None; [lia|]. rewrite map_filter_delete. apply lookup_delete_eq.
  - rewrite delete_delete_eq. lia.
Qed.

Lemma int32_small z : (- 2 ^ 31 ≤ z < 2 ^ 31)%Z → int32 z = z.
Proof. intros Hz. unfold int32. rewrite Z.mod_small; lia. Qed.

Lemma counted_ext cs f g : (∀ x, f x = g x) → counted cs f → counted cs g.
Proof. intros Hfg Hc x. by rewrite <-Hfg. Qed.

Lemma counted_lookup cs f o :
  counted cs f → 0 < f o → cs !! o = Some (Z.of_nat (f o)).
Proof. intros Hc Ho. rewrite Hc. destruct (f o); [lia|done]. Qed.

Lemma retain_spec s f o :
  counted (counts s) f → 0 < f o < ref_max →
  wp (retain o) (returns (λ _ s', ptrs s' = ptrs s ∧ counted (counts s') (upd f o S))) s.
Proof.
  intros Hc Ho. unfold retain, set_count. rewrite wp_bind. unfold wp at 1, get_count.
  rewrite (counted_lookup _ _ _ Hc) by lia. simpl. rewrite wp_modify. split; [done|].
  intros x. simpl. unfold upd. destruct (decide (x = o)) as [->|Hne].
  - rewrite lookup_insert_eq, int32_small by (unfold ref_max in *; lia). f_equal. lia.
  - by rewrite lookup_insert_ne, Hc.
Qed.

Lemma release_spec s f o :
  counted (counts s) f → 0 < f o ≤ ref_max →
  wp (release o) (returns (λ _ s', ptrs s' = ptrs s ∧ counted (counts s') (upd f o pred))) s.
Proof.
  intros Hc Ho. unfold release, set_count, delete_object. rewrite wp_bind.
  unfold wp at 1, get_count. rewrite (counted_lookup _ _ _ Hc) by lia. simpl.
  rewrite wp_bind, wp_modify. simpl. unfold when. case_bool_decide as H1.
  - rewrite wp_modify. split; [done|]. intros x. simpl. unfold upd.
    destruct (decide (x = o)) as [->|Hne]; [rewrite lookup_delete_eq|].
    + by replace (f o) with 1 by lia.
    + by rewrite lookup_delete_ne, lookup_insert_ne, Hc.
  - rewrite wp_ret. split; [done|]. intros x. simpl. unfold upd.
    destruct (decide (x = o)) as [->|Hne].
    + rewrite lookup_insert_eq, int32_small by (unfold ref_max in *; lia).
      destruct (f o) as [|[|n]]; simpl in *; [lia|done|f_equal; lia].
    + by rewrite lookup_insert_ne, Hc.
Qed.

Definition upd_ptr (f : nat → nat) (c : ptr) (g : nat → nat) : nat → nat :=
  match c with Some o => upd f o g | None => f end.

Lemma on_retain_spec s f c :
  counted (counts s) f → (∀ o, c = Some o → 0 < f o < ref_max) →
  wp (on_ptr retain c) (returns (λ _ s', ptrs s' = ptrs s ∧ counted (counts s') (upd_ptr f c S))) s.
Proof. intros Hc Ho. destruct c; simpl; [by apply retain_spec; auto|done]. Qed.

Lemma on_release_spec s f c :
  counted (counts s) f → (∀ o, c = Some o → 0 < f o ≤ ref_max) →
  wp (on_ptr release c) (returns (λ _ s', ptrs s' = ptrs s ∧ counted (counts s') (upd_ptr f c pred))) s.
Proof. intros Hc Ho. destruct c; simpl; [by apply release_spec; auto|done]. Qed.

Lemma wp_get_cnt v c Q s : ptrs s !! v = Some c → wp (get_cnt v) Q s ↔ Q (Ret c) s.
Proof. intros Hv. unfold wp, get_cnt. by rewrite Hv. Qed.

(** A pointer that is there refers to something that is counted. *)
Lemma refs_pos s ext v o : ptrs s !! v = Some (Some o) → 0 < total s ext o.
Proof.
  intros Hv. unfold total. rewrite (refs_delete _ v o), Hv. unfold ind.
  rewrite decide_True by done. lia.
Qed.

(** What is known about the counts of pointers in an updated map. *)
Ltac pose_new lem :=
  let T := type of lem in
  lazymatch goal with
  | _ : T |- _ => fail
  | _ => pose proof lem
  end.

Ltac refs_facts :=
  repeat match goal with
  | |- context [refs (<[?v := ?c]> ?m) ?x] => pose_new (refs_insert m v c x)
  | _ : context [refs (<[?v := ?c]> ?m) ?x] |- _ => pose_new (refs_insert m v c x)
  | |- context [refs (delete ?v ?m) ?x] => pose_new (refs_delete m v x)
  end.

(** The reference arithmetic of one operation: what the count function became, on
    each object. *)
Ltac refs_arith :=
  eapply counted_ext; [|eassumption]; intros x; unfold total, upd_ptr, upd; simpl;
  refs_facts;
  repeat match goal with
  | H : ?m !! ?v = _, H' : context [?m !! ?v] |- _ =>
      lazymatch H' with H => fail | _ => rewrite H in H' end
  end;
  unfold ind in *; repeat case_decide; simplify_eq/=; try done; try lia.

Lemma inv_copy s ext v u :
  refs_inv s ext → (∀ o, total s ext o < ref_max) →
  ptrs s !! v = None → is_Some (ptrs s !! u) →
  wp (ptr_copy v u) (returns (λ _ s', refs_inv s' ext)) s.
Proof.
  intros Hi Hmax Hv [c Hu]. unfold ptr_copy, set_cnt.
  rewrite wp_bind, (wp_get_cnt _ c) by done. rewrite wp_bind, wp_modify.
  eapply wp_mono, (on_retain_spec _ (total s ext) c); [|done|].
  - intros [[]|?|?] s'; try done. simpl. intros [Hp Hc]. unfold refs_inv.
    destruct s' as [cs ps]; simpl in *; subst ps. destruct c; refs_arith.
  - intros o ->. split; [by eapply refs_pos|done].
Qed.

Lemma inv_move s ext v u :
  refs_inv s ext → ptrs s !! v = None → is_Some (ptrs s !! u) →
  wp (ptr_move v u) (returns (λ _ s', refs_inv s' ext)) s.
Proof.
  intros Hi Hv [c Hu]. unfold ptr_move, set_cnt.
  rewrite wp_bind, (wp_get_cnt _ c) by done. rewrite wp_bind, wp_modify, wp_modify. simpl.
  assert (Huv : <[v := c]> (ptrs s) !! u = Some c) by by rewrite lookup_insert_ne by congruence.
  unfold refs_inv in *. simpl. destruct c; refs_arith.
Qed.

Lemma inv_destroy s ext v :
  refs_inv s ext → (∀ o, total s ext o < ref_max) → is_Some (ptrs s !! v) →
  wp (ptr_destroy v) (returns (λ _ s', refs_inv s' ext)) s.
Proof.
  intros Hi Hmax [c Hv]. unfold ptr_destroy, end_ptr.
  rewrite wp_bind, (wp_get_cnt _ c), wp_bind by done.
  eapply wp_mono, (on_release_spec _ (total s ext) c); [|done|].
  - intros [[]|?|?] [cs ps]; try done. simpl. intros [-> Hc]. rewrite wp_modify. simpl.
    unfold refs_inv. simpl. destruct c; refs_arith.
  - intros o ->. split; [by eapply refs_pos|by apply Nat.lt_le_incl].
Qed.

Lemma inv_reset s ext v :
  refs_inv s ext → (∀ o, total s ext o < ref_max) → is_Some (ptrs s !! v) →
  wp (ptr_reset v) (returns (λ _ s', refs_inv s' ext)) s.
Proof.
  intros Hi Hmax [[o|] Hv]; unfold ptr_reset, set_cnt; rewrite wp_bind, (wp_get_cnt _ _ _ _ Hv);
    [|by rewrite wp_ret].
  rewrite wp_bind. eapply wp_mono, (release_spec _ (total s ext) o); [|done|].
  - intros [[]|?|?] [cs ps]; try done. simpl. intros [-> Hc]. rewrite wp_modify. simpl.
    unfold refs_inv. simpl. refs_arith.
  - split; [by eapply refs_pos|by apply Nat.lt_le_incl].
Qed.

(** What the pointer converted or cast from [c] holds. *)
Definition cast_ptr (is_a : nat → bool) (c : ptr) : ptr :=
  o ← c; if is_a o then Some o else None.

Lemma cast_ptr_Some is_a c o : cast_ptr is_a c = Some o → c = Some o.
Proof. destruct c as [x|]; simpl; [|done]. by destruct (is_a x). Qed.

Lemma inv_convert s ext f v u :
  refs_inv s ext → (∀ o, total s ext o < ref_max) →
  ptrs s !! v = None → is_Some (ptrs s !! u) →
  wp (ptr_convert f v u) (returns (λ _ s', refs_inv s' ext)) s.
Proof.
  intros Hi Hmax Hv [c Hu]. unfold ptr_convert, set_cnt. rewrite wp_bind, wp_modify. simpl.
  rewrite wp_bind, (wp_get_cnt _ c) by (simpl; by rewrite lookup_insert_ne by congruence).
  rewrite wp_bind, wp_modify. simpl. fold (cast_ptr f c). rewrite insert_insert_eq.
  rewrite wp_bind, (wp_get_cnt _ (cast_ptr f c)) by apply lookup_insert_eq.
  eapply wp_mono, (on_retain_spec _ (total s ext)); [|done|].
  - intros [[]|?|?] [cs ps]; try done. simpl. intros [-> Hc]. unfold refs_inv. simpl.
    destruct (cast_ptr f c); refs_arith.
  - intros o ->%cast_ptr_Some. split; [by eapply refs_pos|done].
Qed.

Lemma inv_cast s ext c v u :
  refs_inv s ext → (∀ o, total s ext o < ref_max) →
  ptrs s !! v = None → (∀ o, c = Some o → ptrs s !! u = Some c) →
  wp (on_ptr retain c;; ptr_from v c false) (returns (λ _ s', refs_inv s' ext)) s.
Proof.
  intros Hi Hmax Hv Hu. rewrite wp_bind.
  eapply wp_mono, (on_retain_spec _ (total s ext) c); [|done|].
  - intros [[]|?|?] [cs ps]; try done. simpl. intros [-> Hc].
    unfold ptr_from, set_cnt. rewrite wp_bind, wp_modify. simpl. rewrite wp_ret.
    unfold refs_inv. simpl. destruct c; refs_arith.
  - intros o Ho. split; [|done]. eapply refs_pos. rewrite <-Ho. by eapply Hu.
Qed.

Lemma inv_assign s ext v u :
  refs_inv s ext → (∀ o, total s ext o < ref_max) →
  is_Some (ptrs s !! v) → is_Some (ptrs s !! u) →
  wp (ptr_assign v u) (returns (λ _ s', refs_inv s' ext)) s.
Proof.
  intros Hi Hmax [c Hv] [c' Hu]. unfold ptr_assign, set_cnt.
  rewrite wp_bind, (wp_get_cnt _ c), wp_bind, (wp_get_cnt _ c') by done.
  case_bool_decide as Hcc; [by rewrite wp_ret|]. rewrite wp_bind.
  eapply wp_mono, (on_release_spec _ (total s ext) c); [|done|].
  2: { intros o ->. split; [by eapply refs_pos|by apply Nat.lt_le_incl]. }
  intros [[]|?|?] [cs ps]; try done. simpl. intros [-> Hc].
  rewrite wp_bind, (wp_get_cnt _ c') by done. rewrite wp_bind, wp_modify. simpl.
  eapply wp_mono, (on_retain_spec _ (upd_ptr (total s ext) c pred) c'); [|done|].
  - intros [[]|?|?] [cs' ps]; try done. simpl. intros [-> Hc']. clear Hc. unfold refs_inv. simpl.
    destruct c, c'; refs_arith.
  - intros o ->. assert (0 < total s ext o) by (by eapply refs_pos).
    assert (upd_ptr (total s ext) c pred o = total s ext o) as ->; [|done].
    destruct c; simpl; unfold upd; [|done]. rewrite decide_False; [done|congruence].
Qed.

(** ** Properties *)

(** C15: reference counting is exact: creating, copying, moving, converting,
    casting, assigning, resetting and destroying pointers, and retaining and
    releasing by hand, never use a freed object, and leave every object alive
    exactly as long as something refers to it, with the number of its references
    as its count. Fewer than 2^31 references per object are assumed. *)
Theorem objects_live_while_referenced s ext (r : rop) :
  refs_inv s ext → (∀ o, total s ext o < ref_max) → rop_ok s ext r →
  wp (do_rop r) (returns (λ _ s', refs_inv s' (ext_after ext r))) s.
Proof.
  intros Hi Hmax Hok. assert (Hle : ∀ o, total s ext o ≤ ref_max) by (intros; by apply Nat.lt_le_incl).
  destruct r as [o|o|o|v o|v o|v|v u|v u|v|f v u|f v u|v u|v|v u]; simpl in *.
  - unfold new_retainable, set_count. rewrite wp_modify. intros x. simpl. unfold total in *.
    simpl in *. unfold upd. destruct (decide (x = o)) as [->|Hne].
    + rewrite lookup_insert_eq. by replace (refs (ptrs s) o + 1) with 1 by lia.
    + rewrite lookup_insert_ne by done. apply Hi.
  - eapply wp_mono, (retain_spec _ (total s ext) o); [|done|done].
    intros [[]|?|?] [cs ps]; try done. simpl. intros [-> Hc]. unfold refs_inv. simpl. refs_arith.
  - eapply wp_mono, (release_spec _ (total s ext) o); [|done|]; [|unfold total in *; split; [lia|done]].
    intros [[]|?|?] [cs ps]; try done. simpl. intros [-> Hc]. unfold refs_inv. simpl. refs_arith.
  - destruct Hok as [Hv Ho]. unfold ptr_from, set_cnt. rewrite wp_bind, wp_modify. simpl.
    rewrite wp_ret. unfold refs_inv in *. simpl. refs_arith.
  - destruct Hok as [Hv Ho]. unfold ptr_from, set_cnt. rewrite wp_bind, wp_modify. simpl.
    eapply wp_mono, (retain_spec _ (total s ext) o); [|done|done].
    intros [[]|?|?] [cs ps]; try done. simpl. intros [-> Hc]. unfold refs_inv. simpl. refs_arith.
  - unfold ptr_from, set_cnt. rewrite wp_bind, wp_modify. simpl. rewrite wp_ret.
    unfold refs_inv in *. simpl. refs_arith.
  - by apply inv_copy; destruct Hok.
  - by apply inv_move; destruct Hok.
  - by apply inv_destroy.
  - by apply inv_convert; destruct Hok.
  - destruct Hok as [Hv [c Hu]]. unfold dynamic_retainable_cast. rewrite wp_bind, (wp_get_cnt _ c) by done.
    apply (inv_cast s ext (cast_ptr f c) v u); try done.
    intros o Ho. by rewrite Ho, <-(cast_ptr_Some _ _ _ Ho).
  - destruct Hok as [Hv [c Hu]]. unfold static_retainable_cast. rewrite wp_bind, (wp_get_cnt _ c) by done.
    by apply (inv_cast s ext c v u).
  - by apply inv_reset.
  - by apply inv_assign; destruct Hok.
Qed.

(** Move assignment does not release what its target referred to: once the
    target and the source are destroyed, an object that only the target referred
    to stays allocated although nothing refers to it any more. *)
Theorem move_assignment_leaks s ext v u o c :
  refs_inv s ext → (∀ x, total s ext x < ref_max) → v ≠ u →
  ptrs s !! v = Some (Some o) → ptrs s !! u = Some c → c ≠ Some o →
  total s ext o = 1 →
  wp (ptr_move_assign v u;; ptr_destroy u;; ptr_destroy v) (returns (λ _ s',
    counts s' !! o = Some 1%Z ∧ total s' ext o = 0)) s.
Proof.
  intros Hi Hmax Hvu Hv Hu Hc Ho. unfold ptr_move_assign, set_cnt.
  rewrite !wp_bind, (wp_get_cnt _ c), wp_bind, wp_modify, wp_modify by done. simpl.
  unfold ptr_destroy. rewrite !wp_bind, (wp_get_cnt _ None) by apply lookup_insert_eq.
  rewrite wp_bind. simpl. rewrite wp_ret. unfold end_ptr. rewrite wp_modify. simpl.
  rewrite wp_bind, (wp_get_cnt _ c)
    by (simpl; rewrite lookup_delete_ne, lookup_insert_ne, lookup_insert_eq by done; done).
  rewrite delete_insert_eq, delete_insert_ne by done. rewrite wp_bind.
  eapply wp_mono, (on_release_spec _ (total s ext) c); [|done|].
  2: { intros x ->. split; [by eapply refs_pos|by apply Nat.lt_le_incl]. }
  intros [[]|?|?] [cs ps]; try done. simpl. intros [-> Hc']. rewrite wp_modify. simpl. split.
  - rewrite Hc'. assert (upd_ptr (total s ext) c pred o = total s ext o) as ->; [|by rewrite Ho].
    destruct c; simpl; unfold upd; [|done]. rewrite decide_False; [done|congruence].
  - unfold total in *. simpl. rewrite delete_insert_eq.
    pose proof (refs_delete (ptrs s) u o) as H1. pose proof (refs_delete (delete u (ptrs s)) v o) as H2.
    rewrite lookup_delete_ne, Hv in H2 by done. rewrite delete_delete in H2.
    unfold ind in *. rewrite (decide_True (P:=Some (Some o) = Some (Some o))) in H2 by done.
    rewrite delete_delete. lia.
Qed.
