(* ===== verification/Lock.v ===== *)
(** The two locks (spin_lock.hpp, mutex.hpp): an atomic word taken by exchange.
    They differ in what a failed attempt does before the next one: [mutex] yields
    to another fibre of its thread, [spin_lock] does not. The fibres of several
    system threads compete for one lock, in steps of one atomic operation. *)
From S2P Require Import Prelude World.

(** * The lock word *)

Inductive lock_state := locked | unlocked.

#[export] Instance lock_state_eq_dec : EqDecision lock_state.
Proof. solve_decision. Defined.

(** Which of the two classes *)
Inductive lock_class := SpinLock | Mutex.

(** A fibre's place in the members of the lock. *)
Inductive lock_pc :=
  | Outside                        (* in no member, not holding the lock *)
  | Locking                        (* in the loop of lock() *)
  | TimedLocking (abs_time : Z)    (* in the loop of timed_lock( abs_time ) *)
  | Holding.                       (* a member has returned with the lock taken *)

#[export] Instance lock_pc_eq_dec : EqDecision lock_pc.
Proof. solve_decision. Defined.

Record locksys := LockSys {
  m_state : lock_state;
  pcs : gmap nat lock_pc;          (* of every fibre *)
  running_fiber : gmap nat nat;    (* of every system thread *)
}.

(** What the running fibre of a thread does next. [TryAgain] is one round of a
    loop: the clock reads [now], and when the attempt fails and the class yields,
    the thread goes on with the fibre [next]. *)
Inductive lock_act :=
  | DoTryLock
  | DoLock
  | DoTimedLock (abs_time : Z)
  | TryAgain (now : Z) (next : nat)
  | Unlock
  | SwitchFiber (next : nat).           (* the fibre yields or waits for something else *)

Section lock.
Variable home : nat → nat.         (* the system thread of a fibre *)

(** [try_lock]: [m_state.exchange( locked ) != locked] *)
Definition try_lock (s : lock_state) : bool * lock_state := (bool_decide (s ≠ locked), locked).

Definition with_pc (f : nat) (p : lock_pc) (s : locksys) : locksys :=
  LockSys (m_state s) (<[f := p]> (pcs s)) (running_fiber s).
Definition with_state (b : lock_state) (s : locksys) : locksys :=
  LockSys b (pcs s) (running_fiber s).
Definition run_fiber (t f : nat) (s : locksys) : locksys :=
  LockSys (m_state s) (pcs s) (<[t := f]> (running_fiber s)).

(** One attempt of the fibre [f]: it holds the lock, or has to wait as [p]. *)
Definition attempt (f : nat) (p : lock_pc) (s : locksys) : bool * locksys :=
  let '(ok, b) := try_lock (m_state s) in
  (ok, with_pc f (if ok then Holding else p) (with_state b s)).

(** [yield()] between two attempts, in [mutex] only. *)
Definition after_failure (k : lock_class) (t next : nat) (s : locksys) : locksys :=
  match k with
  | SpinLock => s
  | Mutex => run_fiber t next s
  end.

(** One round of the loop of [lock] or [timed_lock]. *)
Definition try_again (k : lock_class) (t f : nat) (p : lock_pc) (next : nat) (s : locksys) : locksys :=
  let '(ok, s') := attempt f p s in
  if ok then s' else after_failure k t next s'.

(** A step of the fibre [f], which runs on the thread [t]; [None] when the action
    does not fit where the fibre is. *)
Definition fiber_step (k : lock_class) (t f : nat) (p : lock_pc) (a : lock_act) (s : locksys) :
    option locksys :=
  match a, p with
  | DoTryLock, Outside => Some (attempt f Outside s).2
  | DoLock, Outside => Some (with_pc f Locking s)
  | DoTimedLock d, Outside => Some (with_pc f (TimedLocking d) s)
  | TryAgain _ next, Locking =>
      if bool_decide (home next = t) then Some (try_again k t f p next s) else None
  | TryAgain now next, TimedLocking d =>
      if bool_decide (home next = t) then
        if bool_decide (d > now)%Z then Some (try_again k t f p next s)
        else Some (with_pc f Outside s)
      else None
  | Unlock, Holding => Some (with_pc f Outside (with_state unlocked s))
  | SwitchFiber next, (Outside | Holding) =>
      if bool_decide (home next = t) then Some (run_fiber t next s) else None
  | _, _ => None
  end.

Definition lock_step (k : lock_class) (t : nat) (a : lock_act) (s : locksys) : option locksys :=
  f ← running_fiber s !! t;
  p ← pcs s !! f;
  fiber_step k t f p a s.

(** A run: which thread acts, and how. *)
Fixpoint lock_run (k : lock_class) (as_ : list (nat * lock_act)) (s : locksys) : option locksys :=
  match as_ with
  | [] => Some s
  | (t, a) :: as_ => s' ← lock_step k t a s; lock_run k as_ s'
  end.

(** * Correctness *)

(** The word is [locked] exactly while some fibre holds the lock, and no two do;
    a thread runs fibres of its own. *)
Record lock_inv (s : locksys) : Prop := {
  li_word : m_state s = locked ↔ ∃ f, pcs s !! f = Some Holding;
  li_excl f g : pcs s !! f = Some Holding → pcs s !! g = Some Holding → f = g;
  li_home t f : running_fiber s !! t = Some f → home f = t;
}.

Lemma holding_insert s f p g :
  p ≠ Holding → <[f := p]> (pcs s) !! g = Some Holding → g ≠ f ∧ pcs s !! g = Some Holding.
Proof.
  intros Hp. destruct (decide (g = f)) as [->|Hne].
  - rewrite lookup_insert_eq. congruence.
  - by rewrite lookup_insert_ne.
Qed.

(** A fibre that does not hold the lock moves to a place outside. *)
Lemma inv_outside s f p p0 :
  lock_inv s → pcs s !! f = Some p0 → p0 ≠ Holding → p ≠ Holding → lock_inv (with_pc f p s).
Proof.
  intros [H1 H2 H3] Hf Hp0 Hp. split; simpl; [|intros f1 f2 Hf1 Hf2|done].
  - rewrite H1. split; intros (g & Hg); exists g.
    + rewrite lookup_insert_ne; [done|congruence].
    + by apply (holding_insert s f p).
  - apply H2; by eapply holding_insert.
Qed.

Lemma inv_take s f :
  lock_inv s → m_state s = unlocked → lock_inv (with_pc f Holding (with_state locked s)).
Proof.
  intros [H1 H2 H3] Hs.
  assert (Hno : ∀ g, g ≠ f → <[f := Holding]> (pcs s) !! g ≠ Some Holding).
  { intros g Hne Hg. rewrite lookup_insert_ne in Hg by done.
    assert (m_state s = locked) by (apply H1; by exists g). congruence. }
  split; simpl; [|intros f1 f2 Hf1 Hf2|done].
  - split; [|done]. intros _. exists f. apply lookup_insert_eq.
  - destruct (decide (f1 = f)) as [->|Hn1]; [|by exfalso; eapply Hno].
    destruct (decide (f2 = f)) as [->|Hn2]; [done|by exfalso; eapply Hno].
Qed.

Lemma inv_unlock s f :
  lock_inv s → pcs s !! f = Some Holding → lock_inv (with_pc f Outside (with_state unlocked s)).
Proof.
  intros [H1 H2 H3] Hf. split; simpl; [|intros f1 f2 Hf1 Hf2|done].
  - split; [done|]. intros (g & [Hne Hg]%holding_insert); [|done]. by destruct Hne; apply H2.
  - apply holding_insert in Hf1 as [? Hf1]; [|done]. by apply holding_insert in Hf2 as [? Hf2]; [apply H2|].
Qed.

Lemma inv_run_fiber s t f : lock_inv s → home f = t → lock_inv (run_fiber t f s).
Proof.
  intros [H1 H2 H3] Hf. split; simpl; [done|done|]. intros t' f'.
  destruct (decide (t' = t)) as [->|]; [rewrite lookup_insert_eq; congruence|].
  rewrite lookup_insert_ne by done. apply H3.
Qed.

(** The outcome of an attempt, by the word. *)
Lemma attempt_cases s f p :
  (m_state s = unlocked ∧ attempt f p s = (true, with_pc f Holding (with_state locked s))) ∨
  (m_state s = locked ∧ attempt f p s = (false, with_pc f p s)).
Proof.
  destruct s as [[] ps rs]; [right|left]; done.
Qed.

Lemma attempt_inv s f p p0 :
  lock_inv s → pcs s !! f = Some p0 → p0 ≠ Holding → p ≠ Holding → lock_inv (attempt f p s).2.
Proof.
  intros Hs Hf Hp0 Hp. destruct (attempt_cases s f p) as [[Hb ->]|[Hb ->]]; simpl;
    [by apply inv_take|by eapply inv_outside].
Qed.

Lemma try_again_inv k t s f p next :
  lock_inv s → pcs s !! f = Some p → p ≠ Holding → home next = t →
  lock_inv (try_again k t f p next s).
Proof.
  intros Hs Hf Hp Hn. unfold try_again.
  pose proof (attempt_inv s f p p Hs Hf Hp Hp) as Ha.
  destruct (attempt f p s) as [[] s']; [done|]. destruct k; [done|]. by apply inv_run_fiber.
Qed.

Lemma lock_step_inv k t a s s' : lock_inv s → lock_step k t a s = Some s' → lock_inv s'.
Proof.
  intros Hs Hstep. unfold lock_step in Hstep.
  apply bind_Some in Hstep as (f & Hf & (p & Hp & Hstep)%bind_Some).
  unfold fiber_step in Hstep.
  destruct a, p; cbn beta iota in Hstep; repeat case_bool_decide; simplify_eq;
    first [by eapply inv_outside|by apply inv_unlock|by apply inv_run_fiber
          |by apply try_again_inv|by eapply attempt_inv].
Qed.

Lemma lock_run_inv k as_ s s' : lock_inv s → lock_run k as_ s = Some s' → lock_inv s'.
Proof.
  revert s. induction as_ as [|[t a] as_ IH]; intros s Hs Hr; simplify_eq/=; [done|].
  apply bind_Some in Hr as (s1 & Hs1 & Hr). eapply IH; [|done]. by eapply lock_step_inv.
Qed.

(** ** Properties *)

(** C24: mutual exclusion: from a free lock with every fibre outside, however the
    threads interleave their atomic operations, at most one fibre holds the lock,
    and the word says [locked] exactly while one does. *)
Theorem mutual_exclusion k as_ s s' :
  m_state s = unlocked → (∀ f, pcs s !! f ≠ Some Holding) →
  (∀ t f, running_fiber s !! t = Some f → home f = t) →
  lock_run k as_ s = Some s' →
  (∀ f g, pcs s' !! f = Some Holding → pcs s' !! g = Some Holding → f = g) ∧
  (m_state s' = locked ↔ ∃ f, pcs s' !! f = Some Holding).
Proof.
  intros Hu Hno Hh Hr. assert (Hs : lock_inv s).
  { split; [|by intros f g []%Hno|done]. rewrite Hu. split; [done|]. by intros (f & []%Hno). }
  apply lock_run_inv in Hr as [? ? ?]; done.
Qed.

(** A fibre [f] in the loop of [lock] while another fibre of its own thread, which
    therefore does not run, holds the lock. *)
Record waits_for_own (f g : nat) (s : locksys) : Prop := {
  wo_pc : pcs s !! f = Some Locking;
  wo_holds : pcs s !! g = Some Holding;
  wo_word : m_state s = locked;
  wo_run : running_fiber s !! home f = Some f;
  wo_inv : lock_inv s;
}.

Lemma spin_step f g t a s s' :
  home g = home f → waits_for_own f g s → lock_step SpinLock t a s = Some s' →
  waits_for_own f g s'.
Proof.
  intros Hg [H1 H2 H3 H4 H5] Hstep. pose proof (lock_step_inv _ _ _ _ _ H5 Hstep) as H5'.
  unfold lock_step in Hstep.
  apply bind_Some in Hstep as (h & Hh & (p & Hp & Hstep)%bind_Some).
  assert (Hgh : g ≠ h).
  { intros ->. pose proof (li_home _ H5 _ _ Hh) as Ht. rewrite <-Ht, Hg, H4 in Hh. congruence. }
  assert (Hph : p ≠ Holding) by (intros ->; by destruct Hgh; apply (li_excl _ H5)).
  unfold fiber_step, try_again, after_failure, attempt, try_lock in Hstep. rewrite H3 in Hstep.
  destruct (decide (h = f)) as [->|Hne].
  - destruct a, p; simpl in Hstep; repeat case_bool_decide; simplify_eq.
    split; simpl; try done; [apply lookup_insert_eq|by rewrite lookup_insert_ne].
  - assert (Ht : t ≠ home f) by (intros ->; congruence).
    destruct a, p; simpl in Hstep; repeat case_bool_decide; simplify_eq;
      (split; simpl; rewrite ?lookup_insert_ne by done; done).
Qed.

(** C35: a fibre that enters [spin_lock::lock] while a fibre of its own thread
    holds the lock never gets it, whatever all threads do from then on: it goes on
    trying without yielding, so the holder never runs again. *)
Theorem spin_lock_never_yields f g as_ s s' :
  f ≠ g → home g = home f → lock_inv s →
  pcs s !! f = Some Locking → pcs s !! g = Some Holding →
  running_fiber s !! home f = Some f → lock_run SpinLock as_ s = Some s' →
  pcs s' !! f = Some Locking ∧ pcs s' !! g = Some Holding ∧
  running_fiber s' !! home f = Some f.
Proof.
  intros Hfg Hg Hi Hf Hgh Hr Hrun.
  assert (Hw : waits_for_own f g s) by (split; try done; apply Hi; by exists g).
  clear Hi Hf Hgh Hr. revert s Hw Hrun.
  induction as_ as [|[t a] as_ IH]; intros s Hw Hrun; simplify_eq/=; [by destruct Hw|].
  apply bind_Some in Hrun as (s1 & Hs1 & Hrun). eapply IH; [|done]. by eapply spin_step.
Qed.

(** In the same situation [mutex::lock] yields after the failed attempt: the
    holder runs, and once it has unlocked and switched back the waiting fibre
    holds the lock. *)
Theorem mutex_lets_the_holder_run f g n1 n2 s :
  f ≠ g → home g = home f → lock_inv s →
  pcs s !! f = Some Locking → pcs s !! g = Some Holding →
  running_fiber s !! home f = Some f →
  ∃ s', lock_run Mutex [(home f, TryAgain n1 g); (home f, Unlock); (home f, SwitchFiber f);
    (home f, TryAgain n2 f)] s = Some s' ∧
    pcs s' !! f = Some Holding ∧ pcs s' !! g = Some Outside ∧
    running_fiber s' !! home f = Some f ∧ m_state s' = locked.
Proof.
  intros Hfg Hg Hi Hf Hgh Hr. assert (Hl : m_state s = locked) by (apply Hi; by exists g).
  unfold lock_run, lock_step.
  repeat (rewrite ?Hr, ?Hf, ?Hgh; simpl; unfold try_again, attempt, try_lock; simpl; rewrite ?Hl;
    repeat (rewrite lookup_insert_eq || rewrite lookup_insert_ne by done); simpl;
    try (rewrite bool_decide_eq_true_2 by done); simpl).
  eexists. split; [done|]. simpl.
  repeat (rewrite lookup_insert_eq || rewrite lookup_insert_ne by done). done.
Qed.

(** [timed_lock] with a deadline that has come returns false without trying,
    even when the lock is free; before the deadline a round on a free lock takes
    it, and no round returns false. *)
Theorem timed_lock_outcome k t f d now next s :
  running_fiber s !! t = Some f → pcs s !! f = Some (TimedLocking d) → home next = t →
  lock_step k t (TryAgain now next) s =
    (if decide (now < d)%Z then
       if decide (m_state s = unlocked) then Some (with_pc f Holding (with_state locked s))
       else Some (after_failure k t next (with_pc f (TimedLocking d) s))
     else Some (with_pc f Outside s)).
Proof.
  intros Hr Hf Hn. unfold lock_step. rewrite Hr. simpl. rewrite Hf. simpl.
  rewrite bool_decide_eq_true_2 by done. case_decide as Hd.
  - rewrite bool_decide_eq_true_2 by lia. unfold try_again, attempt, try_lock.
    destruct s as [[] ps rs]; simpl; done.
  - by rewrite bool_decide_eq_false_2 by lia.
Qed.
End lock.
