(* ===== verification/Actor.v ===== *)
(** Actors (actor.hpp, actor_interface.hpp): the methods of an interface as
    members that call a delegate, at once on the actor's own thread, and as a task
    posted to that thread from any other; either way the caller gets a future.
    What a delegate does is a parameter. *)
From S2P Require Import Prelude StdHeap World ReadyList TaskQueue Notify Scheduler Blocking Quit Future RunTask.

(** * Data *)

(** [actor_member<R(Class::* )(...)>], and the one for const methods *)
Record member := Member {
  m_actor : ptr;                   (* set_actor, or null *)
  m_delegate : nat;
  is_const : bool;
}.

(** What a posted call carries: [boost::bind( m_delegate, fp )] copies the
    delegate, [boost::bind( boost::ref( m_delegate ), fp )] refers to the member. *)
Inductive closure :=
  | BindCopy (d : nat) (fp : list nat)
  | BindRef (m : nat) (fp : list nat).

Record actors (T : Type) := Actors {
  a_world : world T;
  a_thread : gmap nat nat;         (* m_thread of every actor_base *)
  a_member : gmap nat member;
  a_closure : gmap nat closure;    (* the functors UserFn stands for, numbered in order *)
}.
Arguments Actors {T} _ _ _ _.
Arguments a_world {T} _.
Arguments a_thread {T} _.
Arguments a_member {T} _.
Arguments a_closure {T} _.

#[export] Instance actors_world {T} : HasWorld (actors T) T := {
  the_world := a_world;
  put_world w s := Actors w (a_thread s) (a_member s) (a_closure s);
}.

Section ops.
Context {T : Type} `{!Clock} `{!HeapAlgo nat}.
Abbreviation A := (M (actors T) exn).

(** A delegate called with its fused arguments. *)
Variable invoke : nat → list nat → A T.

Definition get_member (m : nat) : A member := λ s,
  (match a_member s !! m with Some k => Ret k | None => Undef BadPointer end, s).
Definition set_member (m : nat) (k : member) : A unit :=
  modify (λ s, Actors (a_world s) (a_thread s) (<[m := k]> (a_member s)) (a_closure s)).

(** [get_thread], [set_thread] *)
Definition get_thread (ab : nat) : A nat := λ s,
  (match a_thread s !! ab with Some t => Ret t | None => Undef BadPointer end, s).
Definition set_thread (ab t : nat) : A unit :=
  modify (λ s, Actors (a_world s) (<[ab := t]> (a_thread s)) (a_member s) (a_closure s)).

Definition new_closure (c : closure) : A nat := λ s,
  let i := size (a_closure s) in
  (Ret i, Actors (a_world s) (a_thread s) (a_member s) (<[i := c]> (a_closure s))).

(** [set_delegate] and [operator=] *)
Definition set_delegate (m d ab : nat) : A unit :=
  k ← get_member m; set_member m (Member (Some ab) d (is_const k)).
Definition assign (m d : nat) : A unit :=
  k ← get_member m; set_member m (Member (m_actor k) d (is_const k)).

(** [set_visitor::operator()]: the member [m] gets the object's own function [d]. *)
Definition set_visitor (ab m d : nat) : A unit := set_delegate m d ab.

(** [actor_interface::set_vtable], which visits the members of the interface, and
    [actor( T* v, thread* t )] *)
Fixpoint set_vtable (vtable : list (nat * nat)) (ab : nat) : A unit :=
  match vtable with
  | [] => mret tt
  | (m, d) :: vtable => set_visitor ab m d;; set_vtable vtable ab
  end.

Definition new_actor (ab t : nat) (vtable : list (nat * nat)) : A unit :=
  set_thread ab t;;
  set_vtable vtable ab.

(** [future( const T& v )] *)
Definition future_of_value (v : T) : A nat := on_world
  (p ← fresh; modify (λ w, set_w_prom (<[p := new_promise_value v]> (w_prom w)) w);; mret p).

(** [m_delegate( fp )], converted to a future *)
Definition call_here (k : member) (fp : list nat) : A nat :=
  v ← invoke (m_delegate k) fp; future_of_value v.

(** The posted call *)
Definition post_call (t m : nat) (k : member) (fp : list nat) : A nat :=
  i ← new_closure (if is_const k then BindRef m fp else BindCopy (m_delegate k) fp);
  on_world (async t (UserFn i) 0).

(** [operator()( fp )] *)
Definition call_member (m : nat) (fp : list nat) : A nat :=
  k ← get_member m;
  match m_actor k with
  | None => call_here k fp
  | Some ab =>
    me ← on_world self;
    t ← get_thread ab;
    if bool_decide (me ≠ t) then post_call t m k fp else call_here k fp
  end.

(** Running the functor of a posted call *)
Definition run_closure (i : nat) : A T :=
  s ← gets id;
  match a_closure s !! i with
  | Some (BindCopy d fp) => invoke d fp
  | Some (BindRef m fp) => k ← get_member m; invoke (m_delegate k) fp
  | None => undef BadPointer
  end.
End ops.

(** * Correctness *)

Section actor.
Context {T : Type} `{!Clock} `{HeapSpec nat}.
Variable invoke : nat → list nat → M (actors T) exn T.
Implicit Types (s : actors T).

(** The member's calls stay on the calling thread. *)
Definition local_to s (k : member) : Prop :=
  match m_actor k with
  | None => True
  | Some ab => a_thread s !! ab = Some (w_self (a_world s))
  end.

Lemma call_member_local s m k fp :
  a_member s !! m = Some k → local_to s k →
  call_member invoke m fp s = call_here invoke k fp s.
Proof.
  intros Hm Hl. unfold call_member, mbind, M_bind, get_member at 1. rewrite Hm.
  unfold local_to in Hl. destruct (m_actor k) as [ab|]; [|done].
  unfold on_world at 1, self, gets. destruct s as [w ts ms cs]; simpl in *.
  unfold get_thread. simpl.  rewrite Hl. rewrite bool_decide_eq_false_2; [done|]. intros Hne. by apply Hne.
Qed.

Lemma call_member_remote m k ab t fp s :
  a_member s !! m = Some k → m_actor k = Some ab → a_thread s !! ab = Some t → w_self (a_world s) ≠ t →
  call_member invoke m fp s = post_call t m k fp s.
Proof.
  intros Hm Hab Ht Hne. unfold call_member, mbind, M_bind, get_member at 1. rewrite Hm, Hab.
  unfold on_world at 1, self, gets. destruct s as [w ts ms cs]; simpl in *.
  unfold get_thread. simpl. rewrite Ht. by rewrite bool_decide_eq_true_2.
Qed.

Lemma wp_get_member m k Q s :
  a_member s !! m = Some k → wp (get_member m) Q s ↔ Q (Ret k) s.
Proof. intros Hm. unfold wp, get_member. by rewrite Hm. Qed.

Lemma wp_get_thread ab t Q s :
  a_thread s !! ab = Some t → wp (get_thread ab) Q s ↔ Q (Ret t) s.
Proof. intros Ht. unfold wp, get_thread. by rewrite Ht. Qed.

Lemma assign_run m d k s :
  a_member s !! m = Some k →
  assign m d s = (Ret tt, Actors (a_world s) (a_thread s)
    (<[m := Member (m_actor k) d (is_const k)]> (a_member s)) (a_closure s)).
Proof. intros Hm. unfold assign, mbind, M_bind, get_member. by rewrite Hm. Qed.

Lemma run_closure_copy i d fp s :
  a_closure s !! i = Some (BindCopy d fp) → run_closure invoke i s = invoke d fp s.
Proof. intros Hi. unfold run_closure, mbind, M_bind, gets, id. by rewrite Hi. Qed.

Lemma run_closure_ref i m k fp s :
  a_closure s !! i = Some (BindRef m fp) → a_member s !! m = Some k →
  run_closure invoke i s = invoke (m_delegate k) fp s.
Proof.
  intros Hi Hm. unfold run_closure, mbind, M_bind, gets, id. rewrite Hi.
  unfold get_member. by rewrite Hm.
Qed.

(** A new actor's members call the object's functions, for its thread. *)
Lemma set_vtable_binds vtable ab s :
  NoDup vtable.*1 → (∀ m, m ∈ vtable.*1 → is_Some (a_member s !! m)) →
  wp (set_vtable vtable ab) (returns (λ _ s',
    a_thread s' = a_thread s ∧ a_world s' = a_world s ∧ a_closure s' = a_closure s ∧
    (∀ m, m ∉ vtable.*1 → a_member s' !! m = a_member s !! m) ∧
    ∀ m d, (m, d) ∈ vtable → ∃ c, a_member s' !! m = Some (Member (Some ab) d c))) s.
Proof.
  revert s. induction vtable as [|[m d] vt IH]; intros s Hnd Hm; simpl in *.
  { split_and!; try done. by intros m d ?%elem_of_nil. }
  apply NoDup_cons in Hnd as [Hnew Hnd]. destruct (Hm m ltac:(by left)) as [k Hk].
  unfold set_visitor, set_delegate. rewrite !wp_bind, (wp_get_member _ _ _ _ Hk). unfold set_member.
  rewrite wp_modify. eapply wp_mono, IH; [|done|].
  - intros [[]|?|?] s'; try done. simpl. intros (H1 & H2 & H3 & H4 & H5).
    split_and!; try done.
    + intros m' [Hne Hm']%not_elem_of_cons. rewrite H4 by done. by rewrite lookup_insert_ne.
    + intros m' d' [[= -> ->]|Hin]%elem_of_cons; [|by apply H5].
      rewrite H4, lookup_insert_eq by done. eauto.
  - intros m' Hm'. simpl. rewrite lookup_insert. case_decide; [eauto|]. apply Hm. by right.
Qed.

Lemma new_actor_binds vtable ab t s :
  NoDup vtable.*1 → (∀ m, m ∈ vtable.*1 → is_Some (a_member s !! m)) →
  wp (new_actor ab t vtable) (returns (λ _ s', a_thread s' !! ab = Some t ∧
    ∀ m d, (m, d) ∈ vtable → ∃ c, a_member s' !! m = Some (Member (Some ab) d c))) s.
Proof.
  intros Hnd Hm. unfold new_actor, set_thread. rewrite wp_bind, wp_modify.
  eapply wp_mono, set_vtable_binds; try done.
  intros [[]|?|?] s'; try done. simpl. intros (-> & _ & _ & _ & H5). by rewrite lookup_insert_eq.
Qed.

(** ** Properties *)

(** Called on its actor's thread, or without an actor, a member runs its
    delegate before it returns: the result is in the future it returns, which is
    ready, nothing is posted, and an exception of the delegate is thrown by the
    call itself. *)
Theorem local_call_runs_at_once s m k fp :
  a_member s !! m = Some k → local_to s k →
  match invoke (m_delegate k) fp s with
  | (Ret v, s1) => ∃ s2, call_member invoke m fp s = (Ret (w_fresh (a_world s1)), s2) ∧
      promise_wait (w_fresh (a_world s1)) microseconds_max (a_world s2) = (Ret (Value v), a_world s2) ∧
      w_task (a_world s2) = w_task (a_world s1) ∧ w_thr (a_world s2) = w_thr (a_world s1)
  | (Exc e, s1) => call_member invoke m fp s = (Exc e, s1)
  | (Undef u, s1) => call_member invoke m fp s = (Undef u, s1)
  end.
Proof.
  intros Hm Hl. rewrite (call_member_local _ _ _ _ Hm Hl). unfold call_here, mbind, M_bind.
  destruct (invoke (m_delegate k) fp s) as [[v|e|u] s1]; [|done..].
  eexists. split; [done|]. split_and!; [|done..].
  unfold promise_wait, promise_wait_with, mbind, M_bind, get_prom. simpl.
  by rewrite lookup_insert_eq.
Qed.

(** Called from another thread a member does not run its delegate: it posts one
    task to the actor's thread and returns the pending future of its result; the
    task runs the delegate the member has when it runs, if the method is const, and
    otherwise the one it had at the call. *)
Theorem remote_call_is_posted s m k ab t d' st xs c kc fp :
  a_member s !! m = Some k → m_actor k = Some ab → a_thread s !! ab = Some t →
  w_self (a_world s) ≠ t →
  w_thr (a_world s) !! t = Some st → current st = Some c → w_ctx (a_world s) !! c = Some kc →
  queue_rep (w_task (a_world s)) st xs → in_int64 (w_task_count (a_world s) + 1) = true →
  (∀ a, w_fresh (a_world s) ≤ a → w_task (a_world s) !! a = None) →
  wp (call_member invoke m fp) (returns (λ p s', a_member s' = a_member s ∧ ∃ st' tk kt i,
    queue_rep (w_task (a_world s')) st' (tk :: xs) ∧
    w_thr (a_world s') = <[t := st']> (w_thr (a_world s)) ∧
    w_task (a_world s') !! tk = Some kt ∧ t_functor kt = UserFn i ∧ t_prom kt = Some p ∧
    ¬ is_ready (a_world s') p ∧
    (∀ s2, a_closure s2 = a_closure s' → a_member s2 = a_member s' →
      (assign m d';; run_closure invoke i) s2 =
      (assign m d';; invoke (if is_const k then d' else m_delegate k) fp) s2))) s.
Proof.
  intros Hm Hab Ht Hself Hst Hc Hkc Hq Hcnt Hfr.
  unfold call_member. rewrite wp_bind, (wp_get_member m k) by done. rewrite Hab.
  rewrite wp_bind, wp_on_world, wp_self, wp_bind, (wp_get_thread ab t) by done. simpl.
  rewrite bool_decide_eq_true_2 by done. unfold post_call. rewrite wp_bind.
  unfold wp at 1, new_closure. simpl. set (i := size _).
  rewrite wp_on_world. simpl.
  eapply wp_mono, (async_posts _ t st xs c kc (UserFn i) 0); [|done..].
  intros [p|?|?] w'; try done. intros (st' & tk & kt & kp & -> & H1 & H2 & H3 & H4 & H5 & _ & _ & _ & _ & _ & H6 & _).
  split; [done|]. exists st', tk, kt, i. split_and!; try done.
  intros s2 Hcl Hmem. simpl in *. unfold mbind, M_bind.
  rewrite (assign_run m d' k) by by rewrite Hmem. destruct (is_const k) eqn:Hco.
  - eapply (run_closure_ref _ m (Member (m_actor k) d' true)); simpl; [by rewrite Hcl, lookup_insert_eq|apply lookup_insert_eq].
  - apply run_closure_copy. simpl. by rewrite Hcl, lookup_insert_eq.
Qed.
End actor.
