(* ===== verification/Delegate.v ===== *)
(** Asynchronous delegates (delegate.hpp, detail/async_delegate_impl.hpp), as they are
    written: a function bound to a thread, every call of which is posted to that thread.
    The headers themselves cannot be included, since they include one that does not exist
    and name each other in different namespaces. *)
From S2P Require Import Prelude StdHeap World ReadyList TaskQueue Notify Scheduler Blocking Quit Future RunTask Actor.

(** [async_delegate_impl<n, Signature>] *)
Record async_delegate := AsyncDelegate {
  m_del : nat;
  m_thr : nat;
}.

Section ops.
Context {T : Type} `{!Clock} `{!HeapAlgo nat}.
Abbreviation A := (M (actors T) exn).

(** [async_delegate( slot, s )], with the thread [thread::current()] by default *)
Definition new_async_delegate (slot : nat) (s : ptr) : A async_delegate :=
  match s with
  | Some t => mret (AsyncDelegate slot t)
  | None => me ← on_world self; mret (AsyncDelegate slot me)
  end.

(** [operator()( a0, ... )]: [boost::bind( m_del, a0, ... )] is posted. *)
Definition delegate_call (d : async_delegate) (args : list nat) : A nat :=
  i ← new_closure (BindCopy (m_del d) args);
  on_world (async (m_thr d) (UserFn i) 0).
End ops.

Section delegate.
Context {T : Type} `{!Clock} `{HeapSpec nat}.
Variable invoke : nat → list nat → M (actors T) exn T.
Implicit Types (s : actors T).

(** Unlike a member of an actor, a delegate posts its calls on its own thread, too: the
    caller always gets a pending future, and the posted task calls the function with the
    arguments of the call. *)
Theorem delegate_always_posts s d args st xs c kc :
  w_thr (a_world s) !! m_thr d = Some st → current st = Some c → w_ctx (a_world s) !! c = Some kc →
  queue_rep (w_task (a_world s)) st xs → in_int64 (w_task_count (a_world s) + 1) = true →
  (∀ a, w_fresh (a_world s) ≤ a → w_task (a_world s) !! a = None) →
  wp (delegate_call d args) (returns (λ p s', ∃ st' t kt i,
    queue_rep (w_task (a_world s')) st' (t :: xs) ∧
    w_thr (a_world s') = <[m_thr d := st']> (w_thr (a_world s)) ∧
    w_task (a_world s') !! t = Some kt ∧ t_functor kt = UserFn i ∧ t_prom kt = Some p ∧
    ¬ is_ready (a_world s') p ∧
    ∀ s2, a_closure s2 = a_closure s' → run_closure invoke i s2 = invoke (m_del d) args s2)) s.
Proof.
  intros Hst Hc Hkc Hq Hcnt Hfr. unfold delegate_call. rewrite wp_bind.
  unfold wp at 1, new_closure. simpl. set (i := size _). rewrite wp_on_world. simpl.
  eapply wp_mono, (async_posts _ (m_thr d) st xs c kc (UserFn i) 0); [|done..].
  intros [p|?|?] w'; try done. intros (st' & t & kt & kp & -> & H1 & H2 & H3 & H4 & H5 & _ & _ & _ & _ & _ & H6 & _).
  exists st', t, kt, i. split_and!; try done.
  intros s2 Hcl. simpl in Hcl. apply run_closure_copy. by rewrite Hcl, lookup_insert_eq.
Qed.
End delegate.
