(* ===== verification/ActorForward.v ===== *)
(** Actors made of actors (actor.hpp, actor_interface.hpp): an actor constructed from the
    interface of another binds its members to that one's, and converts the future each
    call returns to its value, which waits. Shown: on one thread such a call gives what
    the call of the object's own function gives; when the other actor lives on another
    thread the call, which is to return a future, suspends its caller until the result
    is there. Converting a future is the future's own operator; members whose functions
    have no result, for which Boost.Reflect adapts the functor, are left out. *)
From S2P Require Import Prelude StdHeap World ReadyList TaskQueue Notify Scheduler Blocking Quit Future RunTask ProcessTasks Delivery Actor.

(** Delegates that are bound to another actor's member; the numbers from [fa_next] on are
    not in use. *)
Record forwarding (T : Type) := Forwarding {
  fa_actors : actors T;
  fa_target : gmap nat nat;
  fa_next : nat;
}.
Arguments Forwarding {T} _ _ _.
Arguments fa_actors {T} _.
Arguments fa_target {T} _.
Arguments fa_next {T} _.

Abbreviation fa_world s := (a_world (fa_actors s)).

(** A call has returned a future, or waits for the future [p] below [depth] frames that
    each convert one. *)
Inductive called :=
  | Returned (f : nat)
  | Suspended (sw : switch) (p depth : nat).

Section ops.
Context {T : Type} `{!Clock} `{!HeapAlgo nat}.
Abbreviation D := (M (forwarding T) exn).
Variable invoke : nat → list nat → M (actors T) exn T.

Definition on_actors {A} (m : M (actors T) exn A) : D A := λ s,
  let '(r, a) := m (fa_actors s) in (r, Forwarding a (fa_target s) (fa_next s)).

(** [boost::bind( boost::ref( v.*p ), _1 )] *)
Definition bind_member (v : nat) : D nat := λ s,
  (Ret (fa_next s), Forwarding (fa_actors s) (<[fa_next s := v]> (fa_target s)) (S (fa_next s))).

(** [actor_member_base::set_actor] *)
Definition set_actor (m ab : nat) : M (actors T) exn unit :=
  k ← get_member m; set_member m (Member (Some ab) (m_delegate k) (is_const k)).

(** [set_visitor<vtable<...>, ...>::operator()] *)
Definition set_visitor_any (ab m v : nat) : D unit :=
  on_actors (set_actor m ab);;
  d ← bind_member v;
  on_actors (assign m d).

Fixpoint set_vtable_any (vtable : list (nat * nat)) (ab : nat) : D unit :=
  match vtable with
  | [] => mret tt
  | (m, v) :: vtable => set_visitor_any ab m v;; set_vtable_any vtable ab
  end.

(** [actor( const any_ptr& v, thread* t )] *)
Definition new_actor_any (ab t : nat) (vtable : list (nat * nat)) : D unit :=
  on_actors (set_thread ab t);; set_vtable_any vtable ab.

(** Actors constructed from each other on the thread [t], the last one first: each with its
    members and the members of the earlier ones they are made from *)
Fixpoint make_actors (t : nat) (layers : list (nat * list (nat * nat))) : D unit :=
  match layers with
  | [] => mret tt
  | (ab, vtable) :: earlier => make_actors t earlier;; new_actor_any ab t vtable
  end.

(** The thread a call of the member is to be posted to, if it is not the caller's *)
Definition elsewhere (k : member) : M (actors T) exn (option nat) :=
  match m_actor k with
  | None => mret None
  | Some ab =>
    me ← on_world self;
    t ← get_thread ab;
    mret (if bool_decide (me ≠ t) then Some t else None)
  end.

(** [operator const T&()] on the future a bound member returned, and the future made of
    the value *)
Definition convert (r : called) : D called :=
  match r with
  | Returned f =>
    wt ← on_actors (on_world (promise_wait f microseconds_max));
    match wt with
    | Value x => f' ← on_actors (future_of_value x); mret (Returned f')
    | Blocked sw => mret (Suspended sw f 1)
    end
  | Suspended sw p depth => mret (Suspended sw p (S depth))
  end.

(** [operator()( fp )], through at most [fuel] members *)
Fixpoint call_any (fuel m : nat) (fp : list nat) : D called :=
  match fuel with
  | 0 => undef Diverges
  | S fuel =>
    k ← on_actors (get_member m);
    ot ← on_actors (elsewhere k);
    match ot with
    | Some t => f ← on_actors (post_call t m k fp); mret (Returned f)
    | None =>
      ts ← gets fa_target;
      match ts !! m_delegate k with
      | None => f ← on_actors (call_here invoke k fp); mret (Returned f)
      | Some v => r ← call_any fuel v fp; convert r
      end
    end
  end.

(** The frames above the wait, once it has returned [x] *)
Fixpoint return_through (depth : nat) (x : T) : D nat :=
  f ← on_actors (future_of_value x);
  match depth with
  | S (S _ as depth) =>
    wt ← on_actors (on_world (promise_wait f microseconds_max));
    match wt with
    | Value x' => return_through depth x'
    | Blocked _ => undef Diverges
    end
  | _ => mret f
  end.

(** A suspended call, once its context [prev] is jumped back to *)
Definition call_resume (this prev p depth : nat) : D nat :=
  x ← on_actors (on_world (promise_wait_resume this prev p));
  return_through depth x.
End ops.

(** * Correctness *)

Section forward.
Context {T : Type} `{!Clock} `{HeapSpec nat}.
Variable invoke : nat → list nat → M (actors T) exn T.
Abbreviation D := (M (forwarding T) exn).
Implicit Types (s : forwarding T).

(** From the member [m], [n] conversions away, the call gets to the member [v]: those
    before it belong to the calling thread and are bound on. *)
Inductive bound s : nat → nat → nat → Prop :=
  | bound_here m : bound s m 0 m
  | bound_on m k v n v' :
      a_member (fa_actors s) !! m = Some k → local_to (fa_actors s) k →
      fa_target s !! m_delegate k = Some v → bound s v n v' → bound s m (S n) v'.

Fixpoint converted (n : nat) (c : D called) : D called :=
  match n with
  | 0 => c
  | S n => r ← converted n c; convert r
  end.

Lemma wp_on_actors {A} (m : M (actors T) exn A) Q s :
  wp (on_actors m) Q s ↔ wp m (λ r a, Q r (Forwarding a (fa_target s) (fa_next s))) (fa_actors s).
Proof. unfold wp, on_actors. by destruct (m (fa_actors s)). Qed.

Lemma forwarding_eta s : Forwarding (fa_actors s) (fa_target s) (fa_next s) = s.
Proof. by destruct s. Qed.

Lemma actors_eta (a : actors T) : Actors (a_world a) (a_thread a) (a_member a) (a_closure a) = a.
Proof. by destruct a. Qed.

Lemma elsewhere_local k (a : actors T) : local_to a k → elsewhere k a = (Ret None, a).
Proof.
  intros Hl. apply wp_run. unfold elsewhere. unfold local_to in Hl.
  destruct (m_actor k) as [ab|]; [|done].
  rewrite wp_bind, wp_on_world, wp_self. simpl. rewrite actors_eta.
  rewrite wp_bind, (wp_get_thread _ _ _ _ Hl), wp_ret. by rewrite bool_decide_eq_false_2 by auto.
Qed.

Lemma elsewhere_remote k ab t (a : actors T) :
  m_actor k = Some ab → a_thread a !! ab = Some t → w_self (a_world a) ≠ t →
  elsewhere k a = (Ret (Some t), a).
Proof.
  intros Hab Ht Hne. apply wp_run. unfold elsewhere. rewrite Hab.
  rewrite wp_bind, wp_on_world, wp_self. simpl. rewrite actors_eta.
  rewrite wp_bind, (wp_get_thread _ _ _ _ Ht), wp_ret. by rewrite bool_decide_eq_true_2.
Qed.

Lemma on_actors_run {A} (m : M (actors T) exn A) o a s :
  m (fa_actors s) = (o, a) → on_actors m s = (o, Forwarding a (fa_target s) (fa_next s)).
Proof. intros Hm. unfold on_actors. by rewrite Hm. Qed.

Lemma get_member_run m k (a : actors T) : a_member a !! m = Some k → get_member m a = (Ret k, a).
Proof. intros Hm. unfold get_member. by rewrite Hm. Qed.

(** The first two steps of every call *)
Lemma call_any_step fuel m k ot fp s :
  a_member (fa_actors s) !! m = Some k → elsewhere k (fa_actors s) = (Ret ot, fa_actors s) →
  call_any invoke (S fuel) m fp s =
  match ot with
  | Some t => (f ← on_actors (post_call t m k fp); mret (Returned f)) s
  | None =>
    match fa_target s !! m_delegate k with
    | None => (f ← on_actors (call_here invoke k fp); mret (Returned f)) s
    | Some v => (r ← call_any invoke fuel v fp; convert r) s
    end
  end.
Proof.
  intros Hm He. cbn [call_any]. rewrite (bind_run _ _ s s (Ret k)).
  2:{ rewrite (on_actors_run _ _ _ _ (get_member_run _ _ _ Hm)). by rewrite forwarding_eta. }
  rewrite (bind_run _ _ s s (Ret ot)).
  2:{ rewrite (on_actors_run _ _ _ _ He). by rewrite forwarding_eta. }
  destruct ot as [t|]; [done|]. unfold mbind at 1, M_bind at 1, gets.
  by destruct (fa_target s !! m_delegate k).
Qed.

Lemma call_any_bound s m n v fuel fp :
  bound s m n v → call_any invoke (n + fuel) m fp s = converted n (call_any invoke fuel v fp) s.
Proof.
  induction 1 as [m|m k v n v' Hm Hl Hd Hb IH]; [done|]. simpl plus.
  rewrite (call_any_step _ m k None) by (done || by apply elsewhere_local). rewrite Hd.
  cbn [converted]. unfold mbind, M_bind. by rewrite IH.
Qed.

(** The future [f] holds the value [x]. *)
Definition holds_value s (f : nat) (x : T) : Prop :=
  promise_wait f microseconds_max (fa_world s) = (Ret (Value x), fa_world s).

Lemma future_of_value_holds x s :
  ∃ f s', on_actors (future_of_value x) s = (Ret f, s') ∧ holds_value s' f x.
Proof.
  eexists _, _. split; [done|]. unfold holds_value, promise_wait, promise_wait_with, mbind, M_bind, get_prom.
  simpl. by rewrite lookup_insert_eq.
Qed.

(** A future that is ready is converted at once. *)
Lemma wait_held {B} s f x (k : waited T → D B) :
  holds_value s f x →
  (wt ← on_actors (on_world (promise_wait f microseconds_max)); k wt) s = k (Value x) s.
Proof.
  intros Hf. apply (bind_run _ _ s s (Ret (Value x))). unfold on_actors, on_world. simpl. rewrite Hf.
  by rewrite actors_eta, forwarding_eta.
Qed.

Lemma convert_held s f x :
  holds_value s f x → ∃ f' s', convert (Returned f) s = (Ret (Returned f'), s') ∧ holds_value s' f' x.
Proof.
  intros Hf. unfold convert. rewrite (wait_held _ _ _ _ Hf).
  destruct (future_of_value_holds x s) as (f' & s' & Hr & Hh). exists f', s'.
  split; [|done]. unfold mbind, M_bind. by rewrite Hr.
Qed.

Lemma converted_held n (c : D called) s f x s1 :
  c s = (Ret (Returned f), s1) → holds_value s1 f x →
  ∃ f' s', converted n c s = (Ret (Returned f'), s') ∧ holds_value s' f' x.
Proof.
  intros Hc Hh. induction n as [|n (f' & s' & Hn & Hh')]; [by exists f, s1|].
  destruct (convert_held s' f' x Hh') as (f2 & s2 & Hr & Hh2). exists f2, s2. split; [|done].
  cbn [converted]. unfold mbind, M_bind. by rewrite Hn.
Qed.

Lemma converted_stops n (c : D called) s o s1 :
  c s = (o, s1) → (∀ r, o ≠ Ret r) → converted n c s = (o, s1).
Proof.
  intros Hc Ho. induction n as [|n IH]; [done|]. cbn [converted]. unfold mbind, M_bind. rewrite IH.
  by destruct o; [destruct (Ho a)|..].
Qed.

Lemma converted_suspended n (c : D called) s sw p d s1 :
  c s = (Ret (Suspended sw p d), s1) → converted n c s = (Ret (Suspended sw p (n + d)), s1).
Proof. intros Hc. induction n as [|n IH]; [done|]. cbn [converted]. unfold mbind, M_bind. by rewrite IH. Qed.

Lemma return_through_holds depth x s :
  ∃ f s', return_through depth x s = (Ret f, s') ∧ holds_value s' f x.
Proof.
  revert s. induction depth as [|depth IH]; intros s;
    destruct (future_of_value_holds x s) as (f & s' & Hr & Hh); cbn [return_through];
    rewrite (bind_run _ _ s s' (Ret f)) by done; [by exists f, s'|].
  destruct depth as [|depth]; [by exists f, s'|]. rewrite (wait_held _ _ _ _ Hh). apply IH.
Qed.

Lemma converted_inner n (c : D called) s : converted (S n) c s = converted n (r ← c; convert r) s.
Proof.
  induction n as [|n IH]; [done|]. change (converted (S (S n)) c) with (r ← converted (S n) c; convert r).
  cbn [converted] in *. unfold mbind at 1 3, M_bind at 1 3. by rewrite IH.
Qed.

(** Posting to another thread leaves the calling one as it is. *)
Lemma running_post_elsewhere (w w1 : world T) t st st1 xs p tk f tp z n this sr r b cur :
  running w this sr r b cur → w_prom w !! w_fresh w = None → t ≠ this → p = w_fresh w →
  posted w w1 t st xs p tk f tp z n st1 →
  running w1 this sr r b cur ∧ (∀ x, x ∈ b ++ sleep_pqueue sr → prom_of (w_ctx w1) x ≠ Some p).
Proof.
  intros Hrun Hp Hne -> [Ht _ Hpr (kt & Htk & _) _ Hc Hself _ Hf].
  destruct (running_alloc_prom _ _ _ _ _ _ Hrun Hp) as [_ Hb]. rewrite Hc. split; [|done].
  eapply running_frame; [exact Hrun|done|rewrite Ht, lookup_insert_ne by done; apply Hrun|done
    |rewrite Hself; apply Hrun| |lia|].
  - intros y Hy. rewrite Htk. destruct (decide (tk = y)) as [<-|]; [rewrite lookup_insert_eq; eauto|].
    rewrite lookup_insert_ne by done. by apply Hrun.
  - intros x q k _ _ Hk. exists k. split; [|done]. rewrite Hpr, lookup_insert_ne; [done|]. congruence.
Qed.

(** Posting the call of a member whose actor lives on the thread [t] *)
Lemma post_call_posts m k t st xs c kc fp (a : actors T) :
  w_thr (a_world a) !! t = Some st → current st = Some c → w_ctx (a_world a) !! c = Some kc →
  queue_rep (w_task (a_world a)) st xs → in_int64 (w_task_count (a_world a) + 1) = true →
  (∀ x, w_fresh (a_world a) ≤ x → w_task (a_world a) !! x = None) →
  wp (post_call t m k fp) (returns (λ p a1, p = w_fresh (a_world a) ∧ ∃ f z st1,
    posted (a_world a) (a_world a1) t st xs p (S p) f time_point_min z 0 st1)) a.
Proof.
  intros Hst Hc Hkc Hq Hcnt Hfr. unfold post_call. rewrite wp_bind.
  eapply wp_eq; [done|]. rewrite wp_on_world. unfold async, async_at. rewrite wp_bind.
  eapply wp_mono, (post_rtask_spec (a_world a) t st xs _ time_point_min (at_least t 0) _ 0); try done.
  - intros [pt|?|?] w1; try done. intros (-> & st1 & Hpo). rewrite wp_ret. split; [done|]. simpl in *. eauto.
  - intros w1 Ht Hx. apply (at_least_run w1 t st c kc); congruence.
Qed.

(** ** Construction *)

(** The member [x.1] is bound to [x.2]. *)
Definition wired s (x : nat * nat) : Prop := ∃ k, a_member (fa_actors s) !! x.1 = Some k ∧
  local_to (fa_actors s) k ∧ m_delegate k < fa_next s ∧ fa_target s !! m_delegate k = Some x.2.

(** From [s] to [s'] only the members [ms] changed, and new delegates were made. *)
Record grows (ms : list nat) s s' : Prop := {
  gr_other x : x ∉ ms → a_member (fa_actors s') !! x = a_member (fa_actors s) !! x;
  gr_alloc x : is_Some (a_member (fa_actors s) !! x) → is_Some (a_member (fa_actors s') !! x);
  gr_target d : d < fa_next s → fa_target s' !! d = fa_target s !! d;
  gr_next : fa_next s ≤ fa_next s';
  gr_local k : local_to (fa_actors s) k → local_to (fa_actors s') k;
  gr_world : fa_world s' = fa_world s;
}.

Lemma grows_trans ms1 ms2 s1 s2 s3 : grows ms1 s1 s2 → grows ms2 s2 s3 → grows (ms1 ++ ms2) s1 s3.
Proof.
  intros [A1 A2 A3 A4 A5 A6] [B1 B2 B3 B4 B5 B6]. split; auto; [|intros d Hd|lia|congruence].
  - intros x Hx. rewrite B1, A1; set_solver.
  - rewrite B3 by lia. by apply A3.
Qed.

Lemma wired_grows ms s s' x : wired s x → grows ms s s' → x.1 ∉ ms → wired s' x.
Proof.
  intros (k & Hk & Hl & Hd & Ht) [A1 A2 A3 A4 A5 A6] Hx. exists k.
  split_and!; [by rewrite A1|auto|lia|by rewrite A3].
Qed.

(** An actor of the calling thread *)
Definition own_actor s (ab : nat) : Prop := local_to (fa_actors s) (Member (Some ab) 0 false).

(** One member is bound. *)
Lemma visitor_wires s ab m v :
  is_Some (a_member (fa_actors s) !! m) → own_actor s ab →
  wp (set_visitor_any ab m v) (returns (λ _ s', wired s' (m, v) ∧ grows [m] s s')) s.
Proof.
  intros [k Hk] Hab. unfold set_visitor_any, set_actor, assign, bind_member.
  rewrite wp_bind. eapply wp_eq; [eapply on_actors_run; unfold mbind, M_bind, get_member; by rewrite Hk|].
  cbv beta iota. rewrite wp_bind. eapply wp_eq; [done|]. cbv beta iota.
  eapply wp_eq; [eapply on_actors_run; unfold mbind, M_bind, get_member; simpl; by rewrite lookup_insert_eq|].
  unfold wired. simpl. split.
  - eexists. simpl. rewrite lookup_insert_eq. split_and!; [done|exact Hab|simpl; lia|by rewrite lookup_insert_eq].
  - split; simpl; try done; [| |intros d Hd; rewrite lookup_insert_ne by lia; done|lia].
    + intros x Hx. assert (x ≠ m) by set_solver. by rewrite !lookup_insert_ne by done.
    + intros x Hx. destruct (decide (m = x)) as [<-|]; [rewrite lookup_insert_eq; eauto|].
      by rewrite !lookup_insert_ne by done.
Qed.

Lemma vtable_wires vt s ab :
  NoDup vt.*1 → (∀ x, x ∈ vt.*1 → is_Some (a_member (fa_actors s) !! x)) → own_actor s ab →
  wp (set_vtable_any vt ab) (returns (λ _ s', Forall (wired s') vt ∧ grows vt.*1 s s')) s.
Proof.
  revert s. induction vt as [|[m v] vt IH]; intros s Hnd Hal Hab; cbn [set_vtable_any].
  { rewrite wp_ret. split; [done|]. by split. }
  rewrite fmap_cons in Hnd, Hal. apply NoDup_cons in Hnd as [Hm Hnd]. rewrite wp_bind.
  eapply wp_mono, visitor_wires; [|by apply Hal; left|done].
  intros [[]|?|?] s1; try done. intros [Hw1 Hg1].
  eapply wp_mono, IH; [|done|intros x Hx; apply (gr_alloc _ _ _ Hg1), Hal; by right|by apply (gr_local _ _ _ Hg1)].
  intros [[]|?|?] s2; try done. intros [Hw2 Hg2]. split.
  - constructor; [by eapply wired_grows|done].
  - exact (grows_trans [m] _ _ _ _ Hg1 Hg2).
Qed.

(** An actor is constructed from another. *)
Lemma new_actor_wires s ab vt :
  NoDup vt.*1 → (∀ x, x ∈ vt.*1 → is_Some (a_member (fa_actors s) !! x)) →
  wp (new_actor_any ab (w_self (fa_world s)) vt) (returns (λ _ s', Forall (wired s') vt ∧ grows vt.*1 s s')) s.
Proof.
  intros Hnd Hal. unfold new_actor_any, set_thread. rewrite wp_bind, wp_on_actors, wp_modify.
  set (s1 := Forwarding _ _ _). assert (Hg1 : grows [] s s1).
  { split; try done. intros k. unfold local_to. destruct (m_actor k) as [ab'|]; [|done]. simpl.
    destruct (decide (ab = ab')) as [<-|]; [by rewrite lookup_insert_eq|by rewrite lookup_insert_ne]. }
  eapply wp_mono, vtable_wires; [|done|done|by unfold own_actor, local_to; simpl; rewrite lookup_insert_eq].
  intros [[]|?|?] s2; try done. intros [Hw2 Hg2]. split; [done|]. exact (grows_trans [] _ _ _ _ Hg1 Hg2).
Qed.

(** The members of all of them, and what they are bound to *)
Definition wiring (layers : list (nat * list (nat * nat))) : list (nat * nat) := concat layers.*2.

Lemma actors_wired s layers :
  NoDup (wiring layers).*1 → (∀ x, x ∈ (wiring layers).*1 → is_Some (a_member (fa_actors s) !! x)) →
  wp (make_actors (w_self (fa_world s)) layers)
    (returns (λ _ s', Forall (wired s') (wiring layers) ∧ grows (wiring layers).*1 s s')) s.
Proof.
  unfold wiring. induction layers as [|[ab vt] earlier IH]; csimpl; intros Hnd Hal.
  { rewrite wp_ret. split; [done|]. by split. }
  rewrite fmap_app in *. apply NoDup_app in Hnd as (Hnd1 & Hdis & Hnd2). rewrite wp_bind.
  eapply wp_mono, IH; [|done|intros x Hx; apply Hal, elem_of_app; by right].
  intros [[]|?|?] s1; try done. intros [Hw1 Hg1]. rewrite <-(gr_world _ _ _ Hg1).
  eapply wp_mono, new_actor_wires; [|done|].
  - intros [[]|?|?] s2; try done. intros [Hw2 Hg2]. split.
    + apply Forall_app. split; [done|]. rewrite Forall_forall in *. intros x Hx.
      eapply wired_grows; [by apply Hw1|done|]. intros Hin. by apply (Hdis _ Hin), list_elem_of_fmap_2.
    + destruct (grows_trans _ _ _ _ _ Hg1 Hg2) as [B1 B2 B3 B4 B5 B6]. split; try done.
      intros x Hx. apply B1. set_solver.
  - intros x Hx. apply (gr_alloc _ _ _ Hg1), Hal, elem_of_app. by left.
Qed.

(** How many members a call of [m] goes through, and the one whose function is called *)
Fixpoint origin (layers : list (nat * list (nat * nat))) (m : nat) : nat * nat :=
  match layers with
  | [] => (0, m)
  | (_, vtable) :: earlier =>
    match (list_to_map vtable : gmap nat nat) !! m with
    | Some v => let '(n, b) := origin earlier v in (S n, b)
    | None => origin earlier m
    end
  end.

Lemma wired_bound s layers m : Forall (wired s) (wiring layers) → bound s m (origin layers m).1 (origin layers m).2.
Proof.
  unfold wiring. revert m. induction layers as [|[ab vt] earlier IH]; csimpl; intros m Hw; [apply bound_here|].
  apply Forall_app in Hw as [Hw1 Hw2]. destruct (_ !! m) as [v|] eqn:Hm; [|by apply IH].
  apply elem_of_list_to_map_2 in Hm. rewrite Forall_forall in Hw1. destruct (Hw1 _ Hm) as (k & Hk & Hl & _ & Ht).
  specialize (IH v Hw2). destruct (origin earlier v) as [n b]. by eapply bound_on.
Qed.

(** Calls of a member that is bound through others, all on the calling thread *)
Lemma bound_call_local s m n v kv fp :
  bound s m n v → a_member (fa_actors s) !! v = Some kv → local_to (fa_actors s) kv →
  fa_target s !! m_delegate kv = None →
  match (invoke (m_delegate kv) fp (fa_actors s)).1 with
  | Ret x => ∃ f s', call_any invoke (S n) m fp s = (Ret (Returned f), s') ∧ holds_value s' f x
  | Exc e => ∃ s', call_any invoke (S n) m fp s = (Exc e, s')
  | Undef u => ∃ s', call_any invoke (S n) m fp s = (Undef u, s')
  end.
Proof.
  intros Hb Hv Hl Hd. replace (S n) with (n + 1) by lia. rewrite (call_any_bound _ _ _ _ _ _ Hb).
  pose proof (call_any_step 0 v kv None fp s Hv (elsewhere_local _ _ Hl)) as Hstep.
  rewrite Hd in Hstep. unfold call_here in Hstep.
  destruct (invoke (m_delegate kv) fp (fa_actors s)) as [[x|e|u] a1] eqn:Hi; cbn [fst].
  - eapply converted_held.
    + rewrite Hstep. unfold mbind, M_bind, on_actors. by rewrite Hi.
    + unfold holds_value, promise_wait, promise_wait_with, mbind, M_bind, get_prom. simpl.
      by rewrite lookup_insert_eq.
  - eexists. apply converted_stops; [|done]. rewrite Hstep. unfold mbind, M_bind, on_actors. by rewrite Hi.
  - eexists. apply converted_stops; [|done]. rewrite Hstep. unfold mbind, M_bind, on_actors. by rewrite Hi.
Qed.

(** ** Properties *)

(** C21: when actors have been constructed from each other on the calling thread, down to
    one made from an object, a call of any of their members gives what the object's own
    function gives: a future that holds its value, or its exception. *)
Theorem bound_call_equals_call s layers m n v kv fp :
  NoDup (wiring layers).*1 → (∀ x, x ∈ (wiring layers).*1 → is_Some (a_member (fa_actors s) !! x)) →
  origin layers m = (n, v) → v ∉ (wiring layers).*1 →
  a_member (fa_actors s) !! v = Some kv → local_to (fa_actors s) kv →
  m_delegate kv < fa_next s → fa_target s !! m_delegate kv = None →
  wp (make_actors (w_self (fa_world s)) layers) (returns (λ _ s',
    match (invoke (m_delegate kv) fp (fa_actors s')).1 with
    | Ret x => ∃ f s'', call_any invoke (S n) m fp s' = (Ret (Returned f), s'') ∧ holds_value s'' f x
    | Exc e => ∃ s'', call_any invoke (S n) m fp s' = (Exc e, s'')
    | Undef u => ∃ s'', call_any invoke (S n) m fp s' = (Undef u, s'')
    end)) s.
Proof.
  intros Hnd Hal Ho Hv Hkv Hl Hlt Hd. eapply wp_mono, actors_wired; [|done..].
  intros [[]|?|?] s'; try done. intros [Hw [A1 A2 A3 A4 A5 A6]].
  pose proof (wired_bound _ _ m Hw) as Hb. rewrite Ho in Hb.
  apply (bound_call_local s' m n v kv); [done|by rewrite A1|by apply A5|by rewrite A3].
Qed.

(** When the last of them lives on another thread, the call posts what that one's call
    posts and then suspends its caller on the future it got; it does not return one of
    its own. *)
Theorem bound_call_suspends s m n v kv ab t st xs c kc fp this r b cur sr :
  bound s m (S n) v → a_member (fa_actors s) !! v = Some kv →
  m_actor kv = Some ab → a_thread (fa_actors s) !! ab = Some t → t ≠ this →
  w_thr (fa_world s) !! t = Some st → current st = Some c → w_ctx (fa_world s) !! c = Some kc →
  queue_rep (w_task (fa_world s)) st xs → in_int64 (w_task_count (fa_world s) + 1) = true →
  (∀ a, w_fresh (fa_world s) ≤ a → w_task (fa_world s) !! a = None ∧ w_prom (fa_world s) !! a = None) →
  running (fa_world s) this sr r b cur → (now_at (w_ticks (fa_world s)) ≤ time_point_max)%Z →
  wp (call_any invoke (S (S n)) m fp) (returns (λ o s', ∃ sw p a1 st1 r1 b1,
    call_member invoke v fp (fa_actors s) = (Ret p, a1) ∧ ¬ is_ready (a_world a1) p ∧
    o = Suspended sw p (S n) ∧ sw_prev sw = cur ∧
    running (fa_world s') this st1 (tail r1) b1 (sw_next sw) ∧
    cur ∈ b1 ∧ prom_of (w_ctx (fa_world s')) cur = Some p)) s.
Proof.
  intros Hb Hv Hab Hat Hne Hst Hc Hkc Hq Hcnt Hfr Hrun Hnow.
  assert (Hself : w_self (fa_world s) ≠ t) by (rewrite (ru_self _ _ _ _ _ _ Hrun); done).
  pose proof (elsewhere_remote kv ab t (fa_actors s) Hab Hat Hself) as Helse.
  pose proof (post_call_posts v kv t st xs c kc fp (fa_actors s) Hst Hc Hkc Hq Hcnt (λ x Hx, proj1 (Hfr x Hx))) as Hpost.
  apply wp_returns in Hpost as (p & a1 & Hpost & -> & f & z & st1 & Hpo). set (p := w_fresh (fa_world s)) in *.
  destruct (running_post_elsewhere _ _ _ _ _ _ _ _ _ _ _ _ _ _ _ _ _ Hrun (proj2 (Hfr p (le_n p))) Hne eq_refl Hpo)
    as [Hrun1 Hnone].
  assert (Hp1 : w_prom (a_world a1) !! p = Some (set_m_task (Some (S p)) new_promise))
    by (rewrite (po_prom _ _ _ _ _ _ _ _ _ _ _ _ Hpo); apply lookup_insert_eq).
  pose proof (promise_wait_blocks (a_world a1) this sr r b cur p _ Hrun1 Hp1 eq_refl eq_refl Hnone) as Hw.
  rewrite (po_ticks _ _ _ _ _ _ _ _ _ _ _ _ Hpo) in Hw. specialize (Hw Hnow).
  apply wp_returns in Hw as (wt & w2 & Hw & sw & r1 & b1 & s2 & -> & Hrun2 & Hsw & Hcur & Hpo2).
  assert (Hcm : call_member invoke v fp (fa_actors s) = (Ret p, a1)).
  { rewrite <-Hpost. apply (call_member_remote invoke v kv ab t); done. }
  apply wp_returns. eexists _, _. split.
  { replace (S (S n)) with (S n + 1) by lia. rewrite (call_any_bound _ _ _ _ _ _ Hb), converted_inner.
    apply (converted_suspended n _ _ sw p 1).
    unfold mbind at 1, M_bind at 1. rewrite (call_any_step 0 v kv (Some t) fp s Hv Helse).
    unfold mbind at 1, M_bind at 1. rewrite (on_actors_run _ _ _ _ Hpost). simpl.
    unfold mbind, M_bind, on_actors, on_world. simpl. rewrite Hw. done. }
  exists sw, p, a1, s2, r1, b1. split; [done|]. split.
  { intros (k & Hk & Hr). rewrite Hp1 in Hk. simplify_eq. by destruct Hr as [[? ?]|?]. }
  split; [by rewrite Nat.add_1_r|]. subst sw. by split_and!.
Qed.

(** Once the future is settled and the caller switched to, the call returns a future
    that holds the value, or throws the exception. *)
Theorem bound_call_resumes s this st r' b c p k (r : exn + T) depth :
  running (fa_world s) this st r' b c → c_canceled <$> w_ctx (fa_world s) !! c = Some false →
  w_prom (fa_world s) !! p = Some (settle r k) → m_error k = None →
  wp (call_resume this c p depth) (λ o s', match r with
    | inr v => ∃ f, o = Ret f ∧ holds_value s' f v
    | inl e => o = Exc e
    end) s.
Proof.
  intros Hrun Hcan Hp He. unfold call_resume. rewrite wp_bind, wp_on_actors, wp_on_world.
  eapply wp_mono, (resume_with_outcome (fa_world s) this st r' b c p k r); try done.
  intros o w' (-> & _). destruct r as [e|v]; simpl; [done|].
  match goal with |- wp _ _ ?s1 => destruct (return_through_holds depth v s1) as (f & s2 & Hr & Hh) end.
  eapply wp_eq; [exact Hr|]. eauto.
Qed.
End forward.
