(* ===== verification/ActorSignal.v ===== *)
(** Signals of actors (actor_interface.hpp): a signal of the wrapped object is
    mirrored by a member with a signal of its own for the actor's listeners, a
    reverse connection that forwards what the object emits, and a delegate that
    makes the object emit. Boost.Signals is not the library's code: its state,
    its operations and their documented laws are the classes [Signals] and
    [SignalsSpec]. Listeners are user code: that they were called is recorded,
    and they may throw. *)
From S2P Require Import Prelude StdHeap World ReadyList TaskQueue Notify Scheduler Blocking Quit Future RunTask.

(** * Data *)

(** What is connected to a signal: user code, or
    [make_unfused( bind( &actor_member::emit, m, _1 ) )], or what [wait] on a
    signal connects, [bind( &promise<T>::set_value, p, _1 )]. *)
Inductive slot :=
  | UserSlot (f : nat)
  | EmitSlot (m : nat)
  | SetValueSlot (p : nat).

(** The library's state: which slots are connected to a signal, with their
    connections in the order they are called in, and which are blocked. *)
Class Signals (L : Type) := {
  connected : L → nat → list (nat * slot);
  is_blocked : L → nat → bool;                     (* connection::blocked *)
  num_slots : nat → L → nat;
  connect_slot : nat → slot → L → nat * L;
  disconnect_slot : nat → L → L;                   (* connection::disconnect *)
  disconnect_all_slots : nat → L → L;
  block_slot : bool → nat → L → L;                 (* block( true ), unblock() *)
}.

Class SignalsSpec (L : Type) `{!Signals L} : Prop := {
  num_slots_spec l g : num_slots g l = length (connected l g);
  connect_spec l g f : let '(c, l') := connect_slot g f l in
    connected l' g = connected l g ++ [(c, f)] ∧ is_blocked l' c = false ∧
    (∀ g', g' ≠ g → connected l' g' = connected l g') ∧
    (∀ g', c ∉ (connected l g').*1) ∧ (∀ c', c' ≠ c → is_blocked l' c' = is_blocked l c');
  disconnect_spec l c : (∀ g, connected (disconnect_slot c l) g =
      filter (λ cf, cf.1 ≠ c) (connected l g)) ∧
    ∀ c', is_blocked (disconnect_slot c l) c' = is_blocked l c';
  disconnect_all_spec l g : connected (disconnect_all_slots g l) g = [] ∧
    (∀ g', g' ≠ g → connected (disconnect_all_slots g l) g' = connected l g') ∧
    ∀ c', is_blocked (disconnect_all_slots g l) c' = is_blocked l c';
  block_spec l b c : (∀ g, connected (block_slot b c l) g = connected l g) ∧
    is_blocked (block_slot b c l) c = b ∧
    ∀ c', c' ≠ c → is_blocked (block_slot b c l) c' = is_blocked l c';
}.

(** A member's delegate: [emit_or_throw] of a signal, or what [operator=] put
    there. *)
Inductive sig_delegate :=
  | EmitOrThrow (g : nat)
  | UserDelegate (f : nat).

(** [actor_member< boost::signal<void(...)> (Class::* ) >] *)
Record sig_member := SigMember {
  sm_actor : ptr;
  sm_connect_delegate : option nat;
  sm_delegate : option sig_delegate;
  sm_reverse_con : ptr;                            (* null: connection() *)
  sm_signal : nat;
}.

(** What user code sees. *)
Inductive event :=
  | Called (f : nat) (fp : list nat)               (* a listener or a delegate *)
  | ConnectNotified (d n : nat).                   (* m_connect_delegate( n ) *)

Record sactors (L T : Type) := SActors {
  sa_world : world T;
  sa_lib : L;
  sa_thread : gmap nat nat;                        (* m_thread of every actor_base *)
  sa_member : gmap nat sig_member;
  sa_closure : gmap nat (nat * list nat);          (* bind( ref( *member ), fp ) *)
  sa_events : list event;
}.
Arguments SActors {L T} _ _ _ _ _ _.
Arguments sa_world {L T} _.
Arguments sa_lib {L T} _.
Arguments sa_thread {L T} _.
Arguments sa_member {L T} _.
Arguments sa_closure {L T} _.
Arguments sa_events {L T} _.

#[export] Instance sactors_world {L T} : HasWorld (sactors L T) T := {
  the_world := sa_world;
  put_world w s := SActors w (sa_lib s) (sa_thread s) (sa_member s) (sa_closure s) (sa_events s);
}.

(** Two exceptions with a class of their own. *)
Definition no_connected_slots : exn := std_error 0.
Definition bad_function_call : exn := std_error 1.

(** * Operations *)

Section ops.
Context {L T : Type} `{!Signals L} `{!Clock} `{!HeapAlgo nat}.
Abbreviation A := (M (sactors L T) exn).

(** What a listener throws, if anything. *)
Variable throws : nat → list nat → option exn.
Variable void_t : T.

(** The first argument, or [void_t()] if there is none *)
Variable arg : list nat → T.

(** [boost::signal::operator()]: calls the connected slots. *)
Variable sig_call : (slot → A unit) → nat → A unit.

Definition set_lib (l : L) (s : sactors L T) : sactors L T :=
  SActors (sa_world s) l (sa_thread s) (sa_member s) (sa_closure s) (sa_events s).
Definition log_event (e : event) : A unit := modify (λ s,
  SActors (sa_world s) (sa_lib s) (sa_thread s) (sa_member s) (sa_closure s) (sa_events s ++ [e])).

Definition get_sig (m : nat) : A sig_member := λ s,
  (match sa_member s !! m with Some k => Ret k | None => Undef BadPointer end, s).
Definition set_sig (m : nat) (k : sig_member) : A unit := modify (λ s,
  SActors (sa_world s) (sa_lib s) (sa_thread s) (<[m := k]> (sa_member s)) (sa_closure s) (sa_events s)).

Definition on_lib {B} (f : L → B * L) : A B := λ s,
  let '(b, l) := f (sa_lib s) in (Ret b, set_lib l s).
Definition lib_do (f : L → L) : A unit := on_lib (λ l, (tt, f l)).

(** User code called with its arguments *)
Definition call_user (f : nat) (fp : list nat) : A unit :=
  log_event (Called f fp);;
  match throws f fp with Some e => throw e | None => mret tt end.

(** [scoped_block_signal block_reverse( m_reverse_con )]: the constructor, the
    rest of the block, the destructor, which reads the connection again. *)
Definition scoped_block_signal {B} (m : nat) (body : A B) : A B :=
  k ← get_sig m;
  unblock ← match sm_reverse_con k with
            | Some c =>
              b ← gets (λ s, is_blocked (sa_lib s) c);
              if (b : bool) then mret false else lib_do (block_slot true c);; mret true
            | None => mret false
            end;
  finally body (
    k ← get_sig m;
    match sm_reverse_con k with
    | Some c => when unblock (lib_do (block_slot false c))
    | None => mret tt
    end).

(** [future( const T& v )] *)
Definition ready_future : A nat := on_world
  (p ← fresh; modify (λ w, set_w_prom (<[p := new_promise_value void_t]> (w_prom w)) w);; mret p).

(** [emit]: the arguments go to the member's own signal, whose slots [run] calls. *)
Definition emit_with (run : slot → A unit) (m : nat) : A nat :=
  scoped_block_signal m (k ← get_sig m; sig_call run (sm_signal k);; ready_future).

(** The call of a slot. Slots that emit for each other without end overflow the
    stack: [n] bounds the depth of the nesting. *)
Fixpoint run_slot (n : nat) (fp : list nat) (sl : slot) : A unit :=
  match n with
  | 0 => undef Diverges
  | S n =>
    match sl with
    | UserSlot f => call_user f fp
    | EmitSlot m => emit_with (run_slot n fp) m;; mret tt
    | SetValueSlot p => on_world (set_value p (arg fp))
    end
  end.

Definition emit_signal (n g : nat) (fp : list nat) : A unit := sig_call (run_slot n fp) g.

(** [emit_or_throw::operator()] *)
Definition emit_or_throw (n g : nat) (fp : list nat) : A unit :=
  slots ← gets (λ s, num_slots g (sa_lib s));
  if bool_decide (Z.of_nat slots - 1 > 0)%Z then emit_signal n g fp
  else throw no_connected_slots.

Definition call_sig_delegate (n : nat) (d : option sig_delegate) (fp : list nat) : A unit :=
  match d with
  | Some (EmitOrThrow g) => emit_or_throw n g fp
  | Some (UserDelegate f) => call_user f fp
  | None => throw bad_function_call
  end.

(** [operator()( fp )], on the actor's thread *)
Definition call_signal_here (n m : nat) (fp : list nat) : A nat :=
  scoped_block_signal m (
    k ← get_sig m;
    slots ← gets (λ s, num_slots (sm_signal k) (sa_lib s));
    when (bool_decide (Z.of_nat slots - 1 > 0)%Z) (emit_signal n (sm_signal k) fp);;
    call_sig_delegate n (sm_delegate k) fp;;
    ready_future).

Definition new_sig_closure (m : nat) (fp : list nat) : A nat := λ s,
  let i := size (sa_closure s) in
  (Ret i, SActors (sa_world s) (sa_lib s) (sa_thread s) (sa_member s)
    (<[i := (m, fp)]> (sa_closure s)) (sa_events s)).

(** [operator()( fp )] *)
Definition call_signal (n m : nat) (fp : list nat) : A nat :=
  k ← get_sig m;
  match sm_actor k with
  | None => call_signal_here n m fp
  | Some ab =>
    me ← on_world self;
    t ← λ s, (match sa_thread s !! ab with Some t => Ret t | None => Undef BadPointer end, s);
    if bool_decide (me ≠ t) then
      i ← new_sig_closure m fp;
      on_world (async t (UserFn i) 0)
    else call_signal_here n m fp
  end.

(** [emit( fp )] *)
Definition emit (n m : nat) (fp : list nat) : A nat :=
  emit_with (run_slot n fp) m.

(** What connecting and disconnecting tell the connect delegate *)
Definition notify_connect (m : nat) : A unit :=
  k ← get_sig m;
  match sm_connect_delegate k with
  | Some d =>
    slots ← gets (λ s, num_slots (sm_signal k) (sa_lib s));
    log_event (ConnectNotified d slots)
  | None => mret tt
  end.

(** [connect], [disconnect], [set_connect_delegate] *)
Definition sig_connect (m f : nat) : A nat :=
  k ← get_sig m;
  c ← on_lib (connect_slot (sm_signal k) (UserSlot f));
  notify_connect m;;
  mret c.

Definition sig_disconnect (m c : nat) : A unit :=
  lib_do (disconnect_slot c);;
  notify_connect m.

Definition set_connect_delegate (m d : nat) : A unit :=
  k ← get_sig m;
  set_sig m (SigMember (sm_actor k) (Some d) (sm_delegate k) (sm_reverse_con k) (sm_signal k)).

(** [set_delegate( s, m, ab )], [g] being the signal [s->*m] of the wrapped
    object, and [operator=] *)
Definition sig_set_delegate (m g ab : nat) : A unit :=
  k ← get_sig m;
  lib_do (disconnect_all_slots (sm_signal k));;
  c ← on_lib (connect_slot g (EmitSlot m));
  set_sig m (SigMember (Some ab) (sm_connect_delegate k) (Some (EmitOrThrow g)) (Some c) (sm_signal k)).

Definition sig_assign (m f : nat) : A unit :=
  k ← get_sig m;
  set_sig m (SigMember (sm_actor k) (sm_connect_delegate k) (Some (UserDelegate f))
    (sm_reverse_con k) (sm_signal k)).

(** [~actor_member] *)
Definition sig_destroy (m : nat) : A unit :=
  k ← get_sig m;
  lib_do (disconnect_all_slots (sm_signal k));;
  match sm_reverse_con k with
  | Some c => lib_do (disconnect_slot c)
  | None => mret tt
  end;;
  modify (λ s, SActors (sa_world s) (sa_lib s) (sa_thread s) (delete m (sa_member s))
    (sa_closure s) (sa_events s)).
End ops.

(** * Correctness *)

Section signals.
Context {L T : Type} `{HS : SignalsSpec L} `{!Clock} `{HH : HeapSpec nat}.
Abbreviation A := (M (sactors L T) exn).
Variable throws : nat → list nat → option exn.
Variable void_t : T.
Variable arg : list nat → T.
Variable sig_call : (slot → A unit) → nat → A unit.
Implicit Types (s : sactors L T).

(** ** What is assumed of an emission

    As long as the slots leave the connections alone, they are called in the
    order they were connected in, but for those that are blocked; an exception
    ends the emission. *)

Fixpoint call_slots (run : slot → A unit) (l : list (nat * slot)) : A unit :=
  match l with
  | [] => mret tt
  | (c, f) :: l =>
    b ← gets (λ s, is_blocked (sa_lib s) c);
    when (negb b) (run f);;
    call_slots run l
  end.

Definition stable (run : slot → A unit) : Prop :=
  ∀ f, (∀ s, wp (run f) (λ o s', match o with
    | Undef _ => True
    | _ => ∀ g, connected (sa_lib s') g = connected (sa_lib s) g
    end) s).

Hypothesis sig_call_spec : ∀ run g s,
  stable run → sig_call run g s = call_slots run (connected (sa_lib s) g) s.

(** ** Stores that differ in nothing the signals see *)

Definition same_signals s s' : Prop :=
  sa_member s' = sa_member s ∧ sa_thread s' = sa_thread s ∧ sa_closure s' = sa_closure s ∧
  (∀ g, connected (sa_lib s') g = connected (sa_lib s) g) ∧
  ∀ c, is_blocked (sa_lib s') c = is_blocked (sa_lib s) c.

#[local] Instance same_signals_preorder : PreOrder same_signals.
Proof.
  split.
  - intros s. by split_and!.
  - intros s1 s2 s3 (H1 & H2 & H3 & H4 & H5) (G1 & G2 & G3 & G4 & G5).
    split_and!; [congruence..| |]; intros; [by rewrite G4|by rewrite G5].
Qed.

(** The computation ends, unless it goes wrong, with the signals as they were. *)
Definition harmless {B} (m : A B) : Prop :=
  ∀ s, wp m (λ o s', match o with Undef _ => True | _ => same_signals s s' end) s.

Lemma harmless_same {B} (m : A B) : (∀ s, same_signals s (m s).2) → harmless m.
Proof. intros Hm s. unfold wp. destruct (m s).1; try apply Hm. done. Qed.

Lemma harmless_bind {B D} (m : A B) (f : B → A D) :
  harmless m → (∀ b, harmless (f b)) → harmless (b ← m; f b).
Proof.
  intros Hm Hf s. rewrite wp_bind. eapply wp_mono, Hm. intros [b|e|u] s1 Hs; [|done..].
  eapply wp_mono, Hf. intros [d|e|u] s2 Hs2; [..|done]; by etransitivity.
Qed.

Lemma harmless_ret {B} (b : B) : harmless (mret b).
Proof. by apply harmless_same. Qed.

Lemma harmless_call_user f fp : harmless (call_user throws f fp).
Proof.
  apply harmless_bind; [by apply harmless_same|]. intros _. by destruct (throws f fp); apply harmless_same.
Qed.

Lemma harmless_call_slots run l : (∀ f, harmless (run f)) → harmless (call_slots run l).
Proof.
  intros Hrun. induction l as [|[c f] l IH]; [apply harmless_ret|]. simpl.
  apply harmless_bind; [by apply harmless_same|]. intros b. apply harmless_bind; [|done].
  destruct b; [apply harmless_ret|apply Hrun].
Qed.

Lemma harmless_stable run : (∀ f, harmless (run f)) → stable run.
Proof.
  intros Hrun f s. eapply wp_mono, Hrun. by intros [?|?|?] s'; [intros (_ & _ & _ & ? & _)..|].
Qed.

Lemma harmless_sig_call run g : (∀ f, harmless (run f)) → harmless (sig_call run g).
Proof.
  intros Hrun s. unfold wp. rewrite sig_call_spec by by apply harmless_stable.
  apply (harmless_call_slots run _ Hrun).
Qed.

(** ** Blocking the reverse connection for the time of a block *)

Lemma wp_get_sig m Q s : wp (get_sig m) Q s ↔
  match sa_member s !! m with Some k => Q (Ret k) s | None => Q (Undef BadPointer) s end.
Proof. unfold wp, get_sig. by destruct (sa_member s !! m). Qed.

Lemma wp_lib_do f Q s : wp (lib_do f) Q s ↔ Q (Ret tt) (set_lib (f (sa_lib s)) s).
Proof. done. Qed.

Lemma wp_scoped_block {B} m k c (body : A B) Q s :
  sa_member s !! m = Some k → sm_reverse_con k = Some c → is_blocked (sa_lib s) c = false →
  wp body (λ o s', match o with
    | Undef u => Q (Undef u) s'
    | _ => sa_member s' = sa_member s ∧ Q o (set_lib (block_slot false c (sa_lib s')) s')
    end) (set_lib (block_slot true c (sa_lib s)) s) →
  wp (scoped_block_signal m body) Q s.
Proof.
  intros Hm Hc Hb Hbody. unfold scoped_block_signal.
  rewrite wp_bind, wp_get_sig, Hm, wp_bind, Hc, wp_bind, wp_gets, Hb, wp_bind, wp_lib_do, wp_ret.
  rewrite wp_finally. eapply wp_mono, Hbody.
  intros [b|e|u] s'; [intros [Hm' HQ]..|done];
    by rewrite wp_bind, wp_get_sig, Hm', Hm, Hc.
Qed.

Lemma scoped_block_unchanged {B} m k (body : A B) Q s :
  sa_member s !! m = Some k →
  match sm_reverse_con k with Some c => is_blocked (sa_lib s) c = true | None => True end →
  wp body (λ o s', match o with
    | Undef u => Q (Undef u) s'
    | _ => sa_member s' = sa_member s ∧ Q o s'
    end) s →
  wp (scoped_block_signal m body) Q s.
Proof.
  intros Hm Hb Hbody. unfold scoped_block_signal. rewrite wp_bind, wp_get_sig, Hm, wp_bind.
  destruct (sm_reverse_con k) as [c|] eqn:Hc; [rewrite wp_bind, wp_gets, Hb|];
    rewrite wp_ret, wp_finally; (eapply wp_mono, Hbody);
    (intros [b|e|u] s'; [intros [Hm' HQ]..|done]);
    by rewrite wp_bind, wp_get_sig, Hm', Hm, Hc.
Qed.

Lemma same_signals_unblock c s s' :
  is_blocked (sa_lib s) c = false →
  same_signals (set_lib (block_slot true c (sa_lib s)) s) s' →
  same_signals s (set_lib (block_slot false c (sa_lib s')) s').
Proof.
  intros Hb (H1 & H2 & H3 & H4 & H5). simpl in *.
  destruct (block_spec (sa_lib s) true c) as (B1 & B2 & B3).
  destruct (block_spec (sa_lib s') false c) as (C1 & C2 & C3).
  split_and!; simpl; try done.
  - intros g. by rewrite C1, H4, B1.
  - intros c'. destruct (decide (c' = c)) as [->|Hne]; [by rewrite C2|].
    by rewrite C3, H5, B3.
Qed.

Lemma harmless_scoped_block {B} m (body : A B) : harmless body → harmless (scoped_block_signal m body).
Proof.
  intros Hbody s. destruct (sa_member s !! m) as [k|] eqn:Hm.
  2:{ unfold scoped_block_signal. by rewrite wp_bind, wp_get_sig, Hm. }
  destruct (sm_reverse_con k) as [c|] eqn:Hc; [destruct (is_blocked (sa_lib s) c) eqn:Hb|].
  2:{ eapply wp_scoped_block; [done..|]. eapply wp_mono, Hbody.
      intros [b|e|u] s' Hs; [..|done]; (split; [by destruct Hs|]); by apply same_signals_unblock. }
  all: eapply scoped_block_unchanged; [done|by rewrite Hc|]; eapply wp_mono, Hbody;
    intros [b|e|u] s' Hs; [..|done]; by destruct Hs.
Qed.

Lemma harmless_ready_future : harmless (ready_future void_t).
Proof. by apply harmless_same. Qed.

Lemma harmless_get_sig m : harmless (get_sig m).
Proof. intros s. rewrite wp_get_sig. by destruct (sa_member s !! m). Qed.

Lemma harmless_emit_with run m : (∀ f, harmless (run f)) → harmless (emit_with void_t sig_call run m).
Proof.
  intros Hrun. apply harmless_scoped_block, harmless_bind; [apply harmless_get_sig|]. intros k.
  apply harmless_bind; [by apply harmless_sig_call|]. intros _. apply harmless_ready_future.
Qed.

(** A call of a slot, whatever it leads to, leaves all connections as it found them. *)
Lemma harmless_run_slot n fp f : harmless (run_slot throws void_t arg sig_call n fp f).
Proof.
  revert f. induction n as [|n IH]; intros f; [by intros s|].
  destruct f as [u|m|p]; simpl; [apply harmless_call_user| |].
  - apply harmless_bind; [by apply harmless_emit_with|]. intros _. apply harmless_ret.
  - apply harmless_same. intros s. unfold on_world. by destruct (set_value p (arg fp) _).
Qed.

Lemma emit_signal_run n g fp s :
  emit_signal throws void_t arg sig_call n g fp s =
  call_slots (run_slot throws void_t arg sig_call n fp) (connected (sa_lib s) g) s.
Proof. apply sig_call_spec, harmless_stable, harmless_run_slot. Qed.

Lemma harmless_emit_signal n g fp : harmless (emit_signal throws void_t arg sig_call n g fp).
Proof. apply harmless_sig_call, harmless_run_slot. Qed.

(** ** Who hears an emission *)

(** Listeners called one after the other, until one throws. *)
Fixpoint listeners (us fp : list nat) : list event * option exn :=
  match us with
  | [] => ([], None)
  | u :: us =>
    match throws u fp with
    | Some e => ([Called u fp], Some e)
    | None => let '(es, x) := listeners us fp in (Called u fp :: es, x)
    end
  end.

Lemma listeners_app us vs fp :
  listeners (us ++ vs) fp =
  match listeners us fp with
  | (es, Some e) => (es, Some e)
  | (es, None) => let '(es', x) := listeners vs fp in (es ++ es', x)
  end.
Proof.
  induction us as [|u us IH]; simpl; [by destruct (listeners vs fp)|].
  destruct (throws u fp); [done|]. rewrite IH. destruct (listeners us fp) as [es [e|]]; [done|].
  by destruct (listeners vs fp).
Qed.

(** A run that calls the listeners [us] and changes no connection. *)
Definition says (us fp : list nat) s (o : outcome exn unit) s' : Prop :=
  same_signals s s' ∧ sa_events s' = sa_events s ++ (listeners us fp).1 ∧
  o = match (listeners us fp).2 with Some e => Exc e | None => Ret tt end.

Lemma says_nothing fp s : says [] fp s (Ret tt) s.
Proof. split; [done|]. simpl. by rewrite app_nil_r. Qed.

Lemma says_app us vs fp s s1 o : says us fp s (Ret tt) s1 →
  ∀ s2, says vs fp s1 o s2 → says (us ++ vs) fp s o s2.
Proof.
  intros (H1 & H2 & H3) s2 (G1 & G2 & G3). unfold says. rewrite listeners_app.
  destruct (listeners us fp) as [es [e|]]; [done|]. destruct (listeners vs fp) as [es' x].
  simpl in *. split_and!; [by etransitivity|by rewrite G2, H2, app_assoc|done].
Qed.

Lemma says_exc us vs fp s s1 e : says us fp s (Exc e) s1 → says (us ++ vs) fp s (Exc e) s1.
Proof.
  intros (H1 & H2 & H3). unfold says. rewrite listeners_app.
  by destruct (listeners us fp) as [es [e'|]].
Qed.

Lemma says_user n fp u s : wp (run_slot throws void_t arg sig_call (S n) fp (UserSlot u)) (says [u] fp s) s.
Proof.
  simpl. unfold call_user, log_event. rewrite wp_bind, wp_modify. unfold says. simpl.
  by destruct (throws u fp).
Qed.

(** The slots of an emission, [h] telling who is heard through each of them. *)
Lemma call_slots_says run (h : nat * slot → list nat) fp l s :
  (∀ c f s', (c, f) ∈ l → same_signals s s' →
    if is_blocked (sa_lib s') c then h (c, f) = [] else wp (run f) (says (h (c, f)) fp s') s') →
  wp (call_slots run l) (says (l ≫= h) fp s) s.
Proof.
  revert s. induction l as [|[c f] l IH]; intros s Hl; [apply says_nothing|]. simpl.
  rewrite wp_bind, wp_gets, wp_bind.
  assert (Hrest : ∀ s1, says (h (c, f)) fp s (Ret tt) s1 →
    wp (call_slots run l) (says (h (c, f) ++ (l ≫= h)) fp s) s1).
  { intros s1 Hs1. eapply wp_mono, IH.
    - intros o s2 Hs2. by eapply says_app.
    - intros c' f' s' Hin Hs'. apply Hl; [by right|]. destruct Hs1. by etransitivity. }
  pose proof (Hl c f s ltac:(by left) ltac:(done)) as Hcf.
  destruct (is_blocked (sa_lib s) c); simpl.
  - rewrite wp_ret. apply Hrest. rewrite Hcf. apply says_nothing.
  - eapply wp_mono, Hcf. intros [[]|e|u] s1 Hs1; [by apply Hrest|by apply says_exc|].
    destruct Hs1 as (_ & _ & Ho). by destruct (listeners _ fp).2.
Qed.

(** ** A member that mirrors the signal [g] of the wrapped object *)

Definition user_of (cf : nat * slot) : list nat :=
  match cf.2 with UserSlot f => [f] | _ => [] end.

Definition user_slot s (cf : nat * slot) : Prop :=
  (∃ f, cf.2 = UserSlot f) ∧ is_blocked (sa_lib s) cf.1 = false.

(** The member listens to [g] through its reverse connection [rc], and all other
    slots of [g] and of the member's own signal are user code; [b] tells whether
    the reverse connection is blocked. *)
Record mirrors (b : bool) s (m : nat) (k : sig_member) (g rc : nat) (l1 l2 : list (nat * slot)) : Prop := {
  mi_member : sa_member s !! m = Some k;
  mi_delegate : sm_delegate k = Some (EmitOrThrow g);
  mi_reverse : sm_reverse_con k = Some rc;
  mi_blocked : is_blocked (sa_lib s) rc = b;
  mi_source : connected (sa_lib s) g = l1 ++ (rc, EmitSlot m) :: l2;
  mi_others : ∀ cf, cf ∈ l1 ++ l2 → user_slot s cf ∧ cf.1 ≠ rc;
  mi_local : ∀ cf, cf ∈ connected (sa_lib s) (sm_signal k) → user_slot s cf ∧ cf.1 ≠ rc;
}.

(** The member's listeners and the others of the source *)
Definition locals s (k : sig_member) : list nat := connected (sa_lib s) (sm_signal k) ≫= user_of.
Definition others (l1 l2 : list (nat * slot)) : list nat := (l1 ++ l2) ≫= user_of.

(** Only user code answers: every other slot is blocked. *)
Lemma emit_users n g fp s :
  (∀ cf, cf ∈ connected (sa_lib s) g → user_slot s cf ∨
    user_of cf = [] ∧ is_blocked (sa_lib s) cf.1 = true) →
  wp (emit_signal throws void_t arg sig_call (S n) g fp)
    (says (connected (sa_lib s) g ≫= user_of) fp s) s.
Proof.
  intros Hl. unfold wp. rewrite emit_signal_run. apply call_slots_says.
  intros c f s' Hin (_ & _ & _ & _ & Hb). rewrite Hb.
  destruct (Hl _ Hin) as [[[u Hu] Hc]|[Hu Hc]]; cbn [fst snd] in *; rewrite Hc; [|done].
  subst f. apply says_user.
Qed.

(** A call of the member: its own listeners, but not a single one, then the other
    listeners of the source, which must have one. *)
Definition deliver (us ws fp : list nat) : list event * option exn :=
  match listeners (if decide (1 < length us) then us else []) fp with
  | (es, Some e) => (es, Some e)
  | (es, None) =>
    if decide (ws = []) then (es, Some no_connected_slots)
    else let '(es', x) := listeners ws fp in (es ++ es', x)
  end.

(** A run that delivers the arguments and returns a future that is ready. *)
Definition delivers (us ws fp : list nat) s (o : outcome exn nat) s' : Prop :=
  same_signals s s' ∧ sa_events s' = sa_events s ++ (deliver us ws fp).1 ∧
  match (deliver us ws fp).2 with
  | Some e => o = Exc e
  | None => ∃ p, o = Ret p ∧ is_ready (sa_world s') p
  end.

Lemma user_slots_bind s l :
  (∀ cf, cf ∈ l → user_slot s cf) → length (l ≫= user_of) = length l.
Proof.
  induction l as [|[c f] l IH]; intros Hl; [done|]. simpl.
  destruct (Hl (c, f)) as [[u Hu] _]; [by left|]. simpl in Hu. subst f. simpl.
  f_equal. apply IH. intros cf Hin. apply Hl. by right.
Qed.

(** The two emissions, and how many listeners each of the two counts sees *)
Lemma emit_own n b m k g rc l1 l2 fp s :
  mirrors b s m k g rc l1 l2 →
  wp (emit_signal throws void_t arg sig_call (S n) (sm_signal k) fp) (says (locals s k) fp s) s.
Proof. intros Hm. apply emit_users. intros cf Hin. left. by apply (mi_local _ _ _ _ _ _ _ _ Hm). Qed.

Lemma own_count b s m k g rc l1 l2 :
  mirrors b s m k g rc l1 l2 → num_slots (sm_signal k) (sa_lib s) = length (locals s k).
Proof.
  intros Hm. rewrite num_slots_spec. unfold locals. rewrite (user_slots_bind s); [done|].
  intros cf Hin. by apply (mi_local _ _ _ _ _ _ _ _ Hm).
Qed.

Lemma source_count b s m k g rc l1 l2 :
  mirrors b s m k g rc l1 l2 → num_slots g (sa_lib s) = S (length (others l1 l2)).
Proof.
  intros Hm. rewrite num_slots_spec, (mi_source _ _ _ _ _ _ _ _ Hm), length_app. simpl.
  unfold others. rewrite (user_slots_bind s); [rewrite length_app; lia|].
  intros cf Hin. by apply (mi_others _ _ _ _ _ _ _ _ Hm).
Qed.

(** With the reverse connection blocked the source reaches only its other slots. *)
Lemma emit_source n m k g rc l1 l2 fp s :
  mirrors true s m k g rc l1 l2 →
  wp (emit_signal throws void_t arg sig_call (S n) g fp) (says (others l1 l2) fp s) s.
Proof.
  intros [_ _ _ Hb Hg Hl _]. unfold others.
  replace ((l1 ++ l2) ≫= user_of) with (connected (sa_lib s) g ≫= user_of)
    by by rewrite Hg, !bind_app, bind_cons.
  apply emit_users. intros cf. rewrite Hg, elem_of_app, elem_of_cons. intros [Hin|[->|Hin]];
    [left|by right|left]; apply Hl, elem_of_app; auto.
Qed.

(** [mirrors] sees only the signals, and blocking its connection only sets [b]. *)
Lemma mirrors_same b s s' m k g rc l1 l2 :
  same_signals s s' → mirrors b s m k g rc l1 l2 → mirrors b s' m k g rc l1 l2.
Proof.
  intros (H1 & _ & _ & H4 & H5) [M1 M2 M3 M4 M5 M6 M7]. unfold user_slot in *.
  split; [by rewrite H1|done|done|by rewrite H5|by rewrite H4| |].
  - intros cf. unfold user_slot. rewrite H5. apply M6.
  - intros cf. unfold user_slot. rewrite H4, H5. apply M7.
Qed.

Lemma mirrors_block b b' s m k g rc l1 l2 :
  mirrors b s m k g rc l1 l2 → mirrors b' (set_lib (block_slot b' rc (sa_lib s)) s) m k g rc l1 l2.
Proof.
  intros [M1 M2 M3 M4 M5 M6 M7]. destruct (block_spec (sa_lib s) b' rc) as (B1 & B2 & B3).
  unfold user_slot in *. split; simpl; [done..|by rewrite B1| |].
  - intros cf Hin. unfold user_slot. simpl. rewrite B3; [by apply M6|]. by apply (M6 _ Hin).
  - intros cf Hin. rewrite B1 in Hin. unfold user_slot. simpl. rewrite B3; [by apply M7|]. by apply (M7 _ Hin).
Qed.

Lemma locals_same s s' k : same_signals s s' → locals s' k = locals s k.
Proof. intros (_ & _ & _ & Hc & _). unfold locals. by rewrite Hc. Qed.

Lemma says_when (b : bool) (m : A unit) us fp s :
  wp m (says us fp s) s → wp (when b m) (says (if b then us else []) fp s) s.
Proof. destruct b; [done|]. intros _. apply says_nothing. Qed.

Lemma ready_future_run s :
  ∃ s', ready_future void_t s = (Ret (w_fresh (sa_world s)), s') ∧ same_signals s s' ∧
    sa_events s' = sa_events s ∧ is_ready (sa_world s') (w_fresh (sa_world s)).
Proof.
  eexists. split; [done|]. split_and!; try done.
  eexists. simpl. rewrite lookup_insert_eq. split; [done|]. by right.
Qed.

(** The block of a call, with the reverse connection blocked *)
Lemma call_body_delivers n m k g rc l1 l2 fp s :
  mirrors true s m k g rc l1 l2 →
  wp (k ← get_sig m;
      slots ← gets (λ s, num_slots (sm_signal k) (sa_lib s));
      when (bool_decide (Z.of_nat slots - 1 > 0)%Z)
        (emit_signal throws void_t arg sig_call (S n) (sm_signal k) fp);;
      call_sig_delegate throws void_t arg sig_call (S n) (sm_delegate k) fp;;
      ready_future void_t)
    (delivers (locals s k) (others l1 l2) fp s) s.
Proof.
  intros Hm. rewrite wp_bind, wp_get_sig, (mi_member _ _ _ _ _ _ _ _ Hm), wp_bind, wp_gets.
  rewrite wp_bind, (own_count _ _ _ _ _ _ _ _ Hm).
  eapply wp_mono, says_when, emit_own, Hm. intros o s1 (Hs1 & He1 & Ho).
  unfold delivers, deliver.
  replace (if decide (1 < length (locals s k)) then locals s k else [])
    with (if bool_decide (Z.of_nat (length (locals s k)) - 1 > 0)%Z then locals s k else [])
    by (case_bool_decide; case_decide; first [done|lia]).
  destruct (listeners _ fp) as [es [e|]]; subst o; simpl in *; [done|].
  rewrite (mi_delegate _ _ _ _ _ _ _ _ Hm). simpl. unfold emit_or_throw.
  assert (Hm1 : mirrors true s1 m k g rc l1 l2) by by eapply mirrors_same.
  rewrite !wp_bind, wp_gets, (source_count _ _ _ _ _ _ _ _ Hm1).
  destruct (decide (others l1 l2 = [])) as [Hws|Hws].
  - rewrite Hws, bool_decide_eq_false_2 by (simpl; lia). done.
  - rewrite bool_decide_eq_true_2 by (destruct (others l1 l2); [done|simpl; lia]).
    eapply wp_mono, emit_source, Hm1. intros o s2 (Hs2 & He2 & Ho).
    destruct (listeners (others l1 l2) fp) as [es' [e'|]]; subst o; simpl in *.
    + split_and!; [by etransitivity|by rewrite He2, He1, app_assoc|done].
    + destruct (ready_future_run s2) as (s3 & Hr & Hs3 & He3 & Hrd). unfold wp. rewrite Hr. simpl.
      split_and!; [by do 2 etransitivity|by rewrite He3, He2, He1, app_assoc|by eexists].
Qed.

(** The member's calls stay on the calling thread. *)
Definition sig_local s (k : sig_member) : Prop :=
  match sm_actor k with
  | None => True
  | Some ab => sa_thread s !! ab = Some (w_self (sa_world s))
  end.

Lemma call_signal_local n m k fp s :
  sa_member s !! m = Some k → sig_local s k →
  call_signal throws void_t arg sig_call n m fp s = call_signal_here throws void_t arg sig_call n m fp s.
Proof.
  intros Hm Hl. unfold call_signal, mbind, M_bind, get_sig at 1. rewrite Hm.
  unfold sig_local in Hl. destruct (sm_actor k) as [ab|]; [|done].
  destruct s as [w lib ts ms cs es]. unfold on_world, self, gets. simpl in *. rewrite Hl.
  by rewrite bool_decide_eq_false_2 by congruence.
Qed.

Lemma call_signal_delivers n m k g rc l1 l2 fp s :
  mirrors false s m k g rc l1 l2 → sig_local s k →
  wp (call_signal throws void_t arg sig_call (S n) m fp)
    (delivers (locals s k) (others l1 l2) fp s) s.
Proof.
  intros Hm Hl. pose proof (mi_member _ _ _ _ _ _ _ _ Hm) as Hk.
  unfold wp. rewrite (call_signal_local _ _ _ _ _ Hk Hl).
  pose proof (mi_blocked _ _ _ _ _ _ _ _ Hm) as Hb.
  apply (wp_scoped_block m k rc _ (delivers (locals s k) (others l1 l2) fp s) s Hk
    (mi_reverse _ _ _ _ _ _ _ _ Hm) Hb).
  set (s1 := set_lib (block_slot true rc (sa_lib s)) s).
  assert (Hm1 : mirrors true s1 m k g rc l1 l2) by by eapply mirrors_block.
  eapply wp_mono, call_body_delivers, Hm1. unfold delivers.
  assert (Hloc : locals s1 k = locals s k).
  { unfold locals. simpl. by destruct (block_spec (sa_lib s) true rc) as [-> _]. }
  rewrite Hloc. intros o s2 (Hs2 & He2 & Ho).
  destruct (deliver _ _ fp).2 as [e|]; [subst o|destruct Ho as (p & -> & Hp)];
    (split; [by destruct Hs2|]; split; [by apply same_signals_unblock|]; split; [done|]); [done|].
  by exists p.
Qed.


(** ** Binding a member and connecting a listener *)

Lemma wp_on_lib {B} (f : L → B * L) Q s :
  wp (on_lib f) Q s ↔ Q (Ret (f (sa_lib s)).1) (set_lib (f (sa_lib s)).2 s).
Proof. unfold wp, on_lib. by destruct (f (sa_lib s)). Qed.

(** [set_delegate] drops the member's listeners and puts its reverse connection
    behind the slots of the object's signal. *)
Lemma set_delegate_mirrors m k g ab s :
  sa_member s !! m = Some k → sm_signal k ≠ g →
  (∀ cf, cf ∈ connected (sa_lib s) g → user_slot s cf) →
  wp (sig_set_delegate m g ab) (returns (λ _ s', ∃ rc,
    let k' := SigMember (Some ab) (sm_connect_delegate k) (Some (EmitOrThrow g)) (Some rc) (sm_signal k) in
    mirrors false s' m k' g rc (connected (sa_lib s) g) [] ∧ locals s' k' = [] ∧
    sa_events s' = sa_events s ∧ sa_thread s' = sa_thread s ∧ sa_world s' = sa_world s)) s.
Proof.
  intros Hm Hg Hu. unfold sig_set_delegate.
  rewrite wp_bind, wp_get_sig, Hm, wp_bind, wp_lib_do, wp_bind, wp_on_lib. simpl.
  destruct (disconnect_all_spec (sa_lib s) (sm_signal k)) as (D1 & D2 & D3).
  pose proof (connect_spec (disconnect_all_slots (sm_signal k) (sa_lib s)) g (EmitSlot m)) as Hc.
  destruct (connect_slot g _ _) as [rc l']. destruct Hc as (C1 & C2 & C3 & C4 & C5).
  unfold set_sig. rewrite wp_modify. exists rc.
  assert (Hloc : connected l' (sm_signal k) = []) by by rewrite C3.
  assert (Hsrc : connected l' g = connected (sa_lib s) g ++ [(rc, EmitSlot m)])
    by by rewrite C1, D2.
  split; [split; simpl; try done; [apply lookup_insert_eq|..]|].
  - intros cf. rewrite app_nil_r. intros Hin. destruct (Hu _ Hin) as [Hf Hb].
    assert (Hne : cf.1 ≠ rc).
    { intros <-. apply (C4 g). rewrite D2 by done. by apply list_elem_of_fmap_2. }
    split; [|done]. split; [done|]. simpl. by rewrite C5, D3.
  - intros cf. rewrite Hloc. by intros ?%not_elem_of_nil.
  - unfold locals. simpl. by rewrite Hloc.
Qed.

Lemma connect_mirrors b m k g rc l1 l2 u s :
  mirrors b s m k g rc l1 l2 → sm_signal k ≠ g → sm_connect_delegate k = None →
  rc ∈ (connected (sa_lib s) g).*1 →
  wp (sig_connect m u) (returns (λ _ s', mirrors b s' m k g rc l1 l2 ∧
    locals s' k = locals s k ++ [u] ∧
    sa_events s' = sa_events s ∧ sa_thread s' = sa_thread s ∧ sa_world s' = sa_world s)) s.
Proof.
  intros [M1 M2 M3 M4 M5 M6 M7] Hg Hd Hrc. unfold sig_connect.
  rewrite wp_bind, wp_get_sig, M1, wp_bind, wp_on_lib.
  pose proof (connect_spec (sa_lib s) (sm_signal k) (UserSlot u)) as Hc.
  destruct (connect_slot _ _ _) as [c l']. destruct Hc as (C1 & C2 & C3 & C4 & C5).
  unfold notify_connect. rewrite !wp_bind, wp_get_sig. simpl. rewrite M1, Hd, !wp_ret.
  assert (Hne : c ≠ rc) by (intros <-; by apply (C4 g)).
  split; [split; simpl; try done|].
  - rewrite C5; [done|congruence].
  - by rewrite C3.
  - intros cf Hin. destruct (M6 _ Hin) as [[Hf Hb] Hn]. split; [|done]. split; [done|]. simpl.
    rewrite C5; [done|]. intros <-. apply (C4 g). apply list_elem_of_fmap_2. rewrite M5.
    rewrite elem_of_app in Hin. rewrite elem_of_app, elem_of_cons. naive_solver.
  - intros cf. rewrite C1, elem_of_app, list_elem_of_singleton. intros [Hin| ->].
    + destruct (M7 _ Hin) as [[Hf Hb] Hn]. split; [|done]. split; [done|]. simpl.
      rewrite C5; [done|]. intros <-. apply (C4 (sm_signal k)). by apply list_elem_of_fmap_2.
    + split; [|done]. split; [by eexists|done].
  - unfold locals. simpl. by rewrite C1, bind_app.
Qed.

(** ** Properties *)

(** C17: a call of a signal member calls each of the member's listeners once, unless
    there is only one, then each other listener of the object's signal once, until
    one throws, and throws [no_connected_slots] when the object has no other listener;
    the forwarding of the object's emission back to the member is suppressed, all
    connections are left as they were, unblocked, also after an exception, and the
    returned future is ready. *)
Theorem signal_call_delivers_once n m k g rc l1 l2 fp s :
  mirrors false s m k g rc l1 l2 → sig_local s k →
  wp (call_signal throws void_t arg sig_call (S n) m fp)
    (delivers (locals s k) (others l1 l2) fp s) s.
Proof. apply call_signal_delivers. Qed.

(** What the object emits itself reaches the listeners of its signal in order,
    the member's listeners standing for the reverse connection: there even a single
    listener is called. *)
Theorem emission_is_forwarded n m k g rc l1 l2 fp s :
  mirrors false s m k g rc l1 l2 →
  wp (emit_signal throws void_t arg sig_call (S (S n)) g fp)
    (says ((l1 ≫= user_of) ++ locals s k ++ (l2 ≫= user_of)) fp s) s.
Proof.
  intros Hm. unfold wp. rewrite emit_signal_run.
  set (h (cf : nat * slot) := match cf.2 with UserSlot f => [f] | EmitSlot _ => locals s k | SetValueSlot _ => [] end).
  assert (Hh : ∀ l, (∀ cf, cf ∈ l → user_slot s cf) → l ≫= h = l ≫= user_of).
  { induction l as [|[c f] l IH]; intros Hl; [done|]. rewrite !bind_cons, IH by set_solver.
    destruct (Hl (c, f)) as [[u Hu] _]; [by left|]. simpl in Hu. by subst f. }
  pose proof (mi_others _ _ _ _ _ _ _ _ Hm) as Ho.
  replace ((l1 ≫= user_of) ++ locals s k ++ (l2 ≫= user_of)) with (connected (sa_lib s) g ≫= h).
  2:{ rewrite (mi_source _ _ _ _ _ _ _ _ Hm), bind_app, bind_cons, !Hh; [done|..];
        intros cf Hcf; apply Ho, elem_of_app; auto. }
  apply call_slots_says. intros c f s' Hin Hs'. pose proof Hs' as (_ & _ & _ & _ & Hb). rewrite Hb.
  assert (Hm' : mirrors false s' m k g rc l1 l2) by by eapply mirrors_same.
  assert (Huser : user_slot s (c, f) → if is_blocked (sa_lib s) c then h (c, f) = []
    else wp (run_slot throws void_t arg sig_call (S (S n)) fp f) (says (h (c, f)) fp s') s').
  { intros [[u Hu] Hc]. simpl in Hu, Hc. subst f. rewrite Hc. apply says_user. }
  rewrite (mi_source _ _ _ _ _ _ _ _ Hm), elem_of_app, elem_of_cons in Hin.
  destruct Hin as [Hin|[Hin|Hin]]; [apply Huser, Ho, elem_of_app; auto| |apply Huser, Ho, elem_of_app; auto].
  injection Hin as -> ->. rewrite (mi_blocked _ _ _ _ _ _ _ _ Hm). unfold h. cbn [snd].
  cbn [run_slot]. rewrite wp_bind.
  apply (wp_scoped_block m k rc); [apply Hm'|apply Hm'|apply Hm'|].
  set (s1 := set_lib _ s'). assert (Hm1 : mirrors true s1 m k g rc l1 l2) by by eapply mirrors_block.
  rewrite wp_bind, wp_get_sig, (mi_member _ _ _ _ _ _ _ _ Hm1), wp_bind.
  assert (Hloc : locals s1 k = locals s k).
  { rewrite <-(locals_same s s') by done. unfold locals. simpl.
    by destruct (block_spec (sa_lib s') true rc) as [-> _]. }
  pose proof (emit_own n _ _ _ _ _ _ _ fp _ Hm1) as Hemit. rewrite Hloc in Hemit.
  eapply wp_mono, Hemit. intros o s2 (Hs2 & He2 & Ho2). unfold says.
  pose proof (mi_blocked _ _ _ _ _ _ _ _ Hm') as Hb'.
  destruct (listeners (locals s k) fp) as [es [e|]]; subst o; simpl in He2 |- *.
  - split; [by destruct Hs2|]. split; [by apply same_signals_unblock|done].
  - destruct (ready_future_run s2) as (s3 & Hr & Hs3 & He3 & _). unfold wp. rewrite Hr. simpl.
    assert (Hs13 : same_signals s1 s3) by by etransitivity.
    split; [by destruct Hs13|]. split; [by apply same_signals_unblock|]. by rewrite He3, He2.
Qed.

(** C40: a member with a single listener never tells it of the calls of the member:
    the count that decides takes off one for the reverse connection, but that is
    connected to the object's signal and not to the member's. *)
Theorem single_listener_is_not_called n m k g ab u fp s :
  sa_member s !! m = Some k → sm_connect_delegate k = None → sm_signal k ≠ g →
  (∀ cf, cf ∈ connected (sa_lib s) g → user_slot s cf) → connected (sa_lib s) g ≠ [] →
  sa_thread s !! ab = Some (w_self (sa_world s)) →
  wp (sig_set_delegate m g ab;; sig_connect m u;; call_signal throws void_t arg sig_call (S n) m fp)
    (λ o s', sa_events s' = sa_events s ++ (listeners (connected (sa_lib s) g ≫= user_of) fp).1 ∧
      match o with
      | Ret p => is_ready (sa_world s') p
      | Exc e => (listeners (connected (sa_lib s) g ≫= user_of) fp).2 = Some e
      | Undef _ => False
      end) s.
Proof.
  intros Hm Hd Hg Hu Hne Hab. rewrite wp_bind.
  eapply wp_mono, (set_delegate_mirrors m k g ab s Hm Hg Hu).
  intros [[]|?|?] s1; try done. intros (rc & Hm1 & Hl1 & He1 & Ht1 & Hw1). set (k' := SigMember _ _ _ _ _) in *.
  rewrite wp_bind. eapply wp_mono, (connect_mirrors _ m k' g rc _ [] u s1 Hm1); [|done..|].
  2:{ rewrite (mi_source _ _ _ _ _ _ _ _ Hm1), fmap_app. apply elem_of_app. right. by left. }
  intros [c|?|?] s2; try done. intros (Hm2 & Hl2 & He2 & Ht2 & Hw2).
  eapply wp_mono, (call_signal_delivers n m k' g rc _ [] fp s2 Hm2).
  2:{ unfold sig_local. simpl. by rewrite Ht2, Hw2, Ht1, Hw1. }
  intros o s3 (_ & He3 & Ho). rewrite He3, He2, He1. rewrite Hl2, Hl1 in *. unfold deliver in *.
  unfold others in *. rewrite app_nil_r in *. simpl in *.
  assert (Hws : connected (sa_lib s) g ≫= user_of ≠ []).
  { intros Hws. apply Hne, length_zero_iff_nil. by rewrite <-(user_slots_bind s), Hws. }
  rewrite decide_False in * by done. destruct (listeners _ fp) as [es [e|]]; simpl in *.
  - by subst o.
  - by destruct Ho as (p & -> & Hp).
Qed.
End signals.
