(* ===== verification/SignalWait.v ===== *)
(** Waiting for a signal (signals.hpp): a slot that sets a promise is connected for
    the time of the wait. *)
From S2P Require Import Prelude StdHeap World ReadyList TaskQueue Notify Scheduler Blocking Quit Future RunTask ActorSignal.

Section ops.
Context {L T : Type} `{!Signals L} `{!Clock} `{!HeapAlgo nat}.
Abbreviation A := (M (sactors L T) exn).

(** [wait( sig, timeout )], up to the switch: with the promise and the scoped
    connection, which is cut when the function is left. *)
Definition signal_wait (g : nat) (timeout_us : Z) : A (nat * nat * waited T) :=
  p ← on_world alloc_prom;
  c ← on_lib (connect_slot g (SetValueSlot p));
  wt ← catch (on_world (promise_wait p timeout_us)) (λ e, lib_do (disconnect_slot c);; throw e);
  match wt with
  | Value _ => lib_do (disconnect_slot c)
  | Blocked _ => mret tt
  end;;
  mret (p, c, wt).

(** ... and once the context [prev] that blocked is jumped back to. *)
Definition signal_wait_resume (this prev p c : nat) : A T :=
  finally (on_world (promise_wait_resume this prev p)) (lib_do (disconnect_slot c)).
End ops.

Section signal_wait.
Context {L T : Type} `{HS : SignalsSpec L} `{!Clock} `{HH : HeapSpec nat}.
Abbreviation A := (M (sactors L T) exn).
Variable throws : nat → list nat → option exn.
Variable void_t : T.
Variable arg : list nat → T.
Variable sig_call : (slot → A unit) → nat → A unit.
Implicit Types (s : sactors L T).

Hypothesis sig_call_spec : ∀ run g s,
  stable run → sig_call run g s = call_slots run (connected (sa_lib s) g) s.

(** The first half: a new promise, a slot for it behind the others, and the caller
    suspended on that promise. *)
Lemma signal_wait_blocks g s this st r b cur :
  let w := sa_world s in let p := w_fresh w in
  running w this st r b cur → w_prom w !! p = None → (now_at (w_ticks w) ≤ time_point_max)%Z →
  wp (signal_wait g microseconds_max) (returns (λ x s', ∃ c sw r1 b1 st1,
    x = (p, c, Blocked sw) ∧
    connected (sa_lib s') g = connected (sa_lib s) g ++ [(c, SetValueSlot p)] ∧
    is_blocked (sa_lib s') c = false ∧ sa_events s' = sa_events s ∧
    running (sa_world s') this st1 (tail r1) b1 (sw_next sw) ∧ sw_prev sw = cur ∧
    cur ∈ b1 ∧ prom_of (w_ctx (sa_world s')) cur = Some p)) s.
Proof.
  intros w p Hrun Hnone Hnow. destruct (running_alloc_prom _ _ _ _ _ _ Hrun Hnone) as [Hrun1 Hb].
  unfold signal_wait. rewrite wp_bind, wp_on_world. unfold alloc_prom.
  rewrite wp_bind, wp_fresh, wp_bind, wp_modify, wp_ret. simpl. fold w p.
  rewrite wp_bind, wp_on_lib. simpl.
  pose proof (connect_spec (sa_lib s) g (SetValueSlot p)) as Hc.
  destruct (connect_slot g (SetValueSlot p) (sa_lib s)) as [c l']. destruct Hc as (C1 & C2 & _). simpl.
  pose proof (promise_wait_blocks _ this st r b cur p new_promise Hrun1
    (lookup_insert_eq _ _ _) eq_refl eq_refl Hb Hnow) as Hw.
  apply wp_returns in Hw as (wt & w' & Hw & sw & r1 & b1 & st1 & -> & Hrun2 & -> & Hcur & Hp).
  rewrite wp_bind. eapply wp_eq.
  { unfold catch, on_world. simpl.
    change (set_w_prom (<[p:=new_promise]> (w_prom w)) (set_w_fresh (S p) w))
      with (set_w_fresh (S (w_fresh w)) (with_prom w (w_fresh w) new_promise)).
    by rewrite Hw. }
  rewrite wp_bind, !wp_ret. simpl. by eexists _, _, r1, b1, st1.
Qed.

(** ** Properties *)

(** C22: waiting for a signal returns what the signal is emitted with: once a context
    of the thread emits it and yields, the waiter runs next, its wait returns the
    argument of the emission, and the signal is left without the slot that was
    connected for the wait. *)
Theorem signal_wait_returns_argument n g cn p s this st r b1 c b2 x k fp :
  let w := sa_world s in
  connected (sa_lib s) g = [(cn, SetValueSlot p)] → is_blocked (sa_lib s) cn = false →
  running w this st r (b1 ++ c :: b2) x → prom_of (w_ctx w) c = Some p →
  w_prom w !! p = Some k → m_error k = None → c_canceled <$> w_ctx w !! c = Some false →
  (∀ y, y ∈ sleep_pqueue st → ¬ expired (w_ctx w) (now_at (w_ticks w)) y) →
  wp (emit_signal throws void_t arg sig_call (S n) g fp;;
      sw ← on_world (yield this);
      signal_wait_resume this (sw_next sw) p cn)
    (returns (λ v s', v = arg fp ∧ connected (sa_lib s') g = [] ∧
      ∃ st' b', running (sa_world s') this st' (r ++ [x]) b' c)) s.
Proof.
  intros w Hg Hb Hrun Hp Hk He Hcan Hexp.
  pose proof (set_value_yield w this st r b1 c b2 x p k (arg fp) Hrun Hp Hk He Hcan Hexp) as Hsv.
  apply wp_returns in Hsv as ([] & w1 & Hsv & Hy).
  rewrite wp_bind. eapply (wp_eq _ _ _ (Ret tt) (put_world w1 s)).
  { rewrite (emit_signal_run _ _ _ _ sig_call_spec), Hg. apply wp_run. cbn [call_slots run_slot].
    rewrite wp_bind, wp_gets, Hb, wp_bind. simpl. rewrite wp_on_world. simpl.
    by eapply wp_eq. }
  rewrite wp_bind, wp_on_world. simpl. eapply wp_mono, Hy.
  intros [sw|?|?] w2; try done. intros (-> & st2 & b' & k2 & Hrun2 & Hk2 & Hc2 & Hp2).
  unfold signal_wait_resume. rewrite wp_finally, wp_on_world. simpl.
  unfold promise_wait_resume. rewrite wp_bind. eapply wp_mono, wait_resume_returns; [|done..].
  intros [[]|?|?] w3; try done. intros (st3 & Hrun3 & Hp3 & _).
  unfold promise_result. rewrite wp_bind, wp_get_prom, Hp3, Hp2. simpl. rewrite He. simpl.
  change (wp (lib_do (disconnect_slot cn)) (returns (λ _ s', arg fp = arg fp ∧
    connected (sa_lib s') g = [] ∧ ∃ st' b', running (sa_world s') this st' (r ++ [x]) b' c))
    (put_world w3 s)).
  rewrite wp_lib_do. simpl. split; [done|]. split; [|by exists st3, b'].
  destruct (disconnect_spec (sa_lib s) cn) as [Hd _]. rewrite Hd, Hg.
  by rewrite filter_cons_False by naive_solver.
Qed.
End signal_wait.
