(* ===== verification/PostQueue.v ===== *)
(** The lock-free posting of tasks and the wait for them, in atomic steps:
    [thread::async( const task::ptr& )] pushes by compare-and-swap and notifies
    under the mutex, [dequeue] takes everything posted by one exchange, and
    [process_tasks] looks once more under the mutex before it waits for the
    condition. [TaskQueue.v] treats each of the two operations as one step; here it
    is shown that any interleaving of their steps behaves that way. *)
From S2P Require Import Prelude World.

(** * Threads *)

(** Another thread that posts the task [t], at the next line of [thread::async]. *)
Inductive poster :=
  | Load (t : nat)                     (* stale_head = task_in_queue.load() *)
  | Link (t : nat) (stale_head : ptr)  (* t->next = stale_head *)
  | Cas (t : nat) (stale_head : ptr)   (* compare_exchange_weak( stale_head, t ) *)
  | Notify (t : nat)                   (* lock the mutex and notify_all *)
  | Posted (t : nat).

(** The thread the tasks are posted to. *)
Inductive taker :=
  | Busy                               (* outside of the mutex *)
  | Locked                             (* has the mutex, before the second dequeue *)
  | Waiting.                           (* in task_ready.wait( lock ) *)

Record pqueue := PQueue {
  task_in_queue : ptr;
  next_of : gmap nat ptr;              (* task::next *)
  posters : gmap nat poster;           (* by thread *)
  consumer : taker;
  taken : list nat;                    (* handed to enqueue so far, in order *)
}.

(** The steps of the threads; whether [dequeue] finds a task that may run, among those
    posted or those it held back before, is up to [TaskQueue.v]: here [none] is any. *)
Inductive pq_act :=
  | Step (p : nat)                     (* the poster's next step *)
  | SpuriousFailure (p : nat)          (* of the weak compare and exchange *)
  | Take                               (* dequeue *)
  | Lock                               (* unique_lock<mutex> lock( task_ready_mutex ) *)
  | TakeOrWait (none : bool)           (* if( !(next = dequeue()) ) task_ready.wait( lock ) *)
  | Wake.                              (* spuriously, or by a timeout *)

(** The tasks reached from a pointer, as [enqueue] goes through them. *)
Fixpoint collect (fuel : nat) (nx : gmap nat ptr) (cur : ptr) : list nat :=
  match fuel, cur with
  | S fuel, Some t => t :: collect fuel nx (mjoin (nx !! t))
  | _, _ => []
  end.

Definition set_poster (p : nat) (x : poster) (s : pqueue) : pqueue :=
  PQueue (task_in_queue s) (next_of s) (<[p := x]> (posters s)) (consumer s) (taken s).
Definition set_consumer (c : taker) (s : pqueue) : pqueue :=
  PQueue (task_in_queue s) (next_of s) (posters s) c (taken s).

(** [thread::async], one atomic step at a time *)
Definition poster_step (p : nat) (x : poster) (s : pqueue) : option pqueue :=
  match x with
  | Load t => Some (set_poster p (Link t (task_in_queue s)) s)
  | Link t stale => Some (PQueue (task_in_queue s) (<[t := stale]> (next_of s))
      (<[p := Cas t stale]> (posters s)) (consumer s) (taken s))
  | Cas t stale =>
      if bool_decide (task_in_queue s = stale) then
        Some (PQueue (Some t) (next_of s) (<[p := Notify t]> (posters s)) (consumer s) (taken s))
      else Some (set_poster p (Link t (task_in_queue s)) s)
  | Notify t =>
      match consumer s with
      | Locked => None
      | _ => Some (set_poster p (Posted t) (set_consumer Busy s))
      end
  | Posted _ => None
  end.

(** [task_in_queue.exchange( 0 )], and [enqueue] of what it returned *)
Definition take_all (c : taker) (s : pqueue) : pqueue :=
  PQueue None (next_of s) (posters s) c
    (taken s ++ collect (size (next_of s)) (next_of s) (task_in_queue s)).

Definition pq_step (a : pq_act) (s : pqueue) : option pqueue :=
  match a with
  | Step p => x ← posters s !! p; poster_step p x s
  | SpuriousFailure p =>
      match posters s !! p with
      | Some (Cas t _) => Some (set_poster p (Link t (task_in_queue s)) s)
      | _ => None
      end
  | Take => if consumer s is Busy then Some (take_all Busy s) else None
  | Lock => if consumer s is Busy then Some (set_consumer Locked s) else None
  | TakeOrWait none =>
      if consumer s is Locked then Some (take_all (if none then Waiting else Busy) s) else None
  | Wake => if consumer s is Waiting then Some (set_consumer Busy s) else None
  end.

Fixpoint pq_run (acts : list pq_act) (s : pqueue) : option pqueue :=
  match acts with
  | [] => Some s
  | a :: acts => s' ← pq_step a s; pq_run acts s'
  end.

(** * The specification: posting and taking as single steps *)

Record aqueue := AQueue {
  a_stack : list nat;                  (* posted, last first *)
  a_taken : list nat;
}.

Inductive aq_step : aqueue → aqueue → Prop :=
  | APush t st tk : aq_step (AQueue st tk) (AQueue (t :: st) tk)
  | ATake st tk : aq_step (AQueue st tk) (AQueue [] (tk ++ st)).

(** * Correctness *)

Implicit Types (s : pqueue).

(** The task a poster has, and whether it has been pushed. *)
Definition task_of (x : poster) : nat :=
  match x with Load t | Link t _ | Cas t _ | Notify t | Posted t => t end.
Definition pushed (x : poster) : bool :=
  match x with Notify _ | Posted _ => true | _ => false end.

Definition sole_posters (m : gmap nat poster) : Prop :=
  ∀ p q x y, m !! p = Some x → m !! q = Some y → task_of x = task_of y → p = q.

(** The pushed tasks are those in the stack or taken, [ts]; a poster about to swap has
    linked its task to the head it read. *)
Definition poster_ok (nx : gmap nat ptr) (ts : list nat) (x : poster) : Prop :=
  (pushed x = true ↔ task_of x ∈ ts) ∧
  match x with Cas t stale => nx !! t = Some stale | _ => True end.

(** The concrete state stands for the abstract one: the chain from the head is the
    stack, and every task has one poster. *)
Record pq_rep s (a : aqueue) : Prop := {
  pr_chain : chain (λ t, mjoin (next_of s !! t)) (task_in_queue s) (a_stack a);
  pr_known t : t ∈ a_stack a → is_Some (next_of s !! t);
  pr_taken : taken s = a_taken a;
  pr_posters p x : posters s !! p = Some x →
    poster_ok (next_of s) (a_stack a ++ a_taken a) x;
  pr_once : NoDup (a_stack a ++ a_taken a);
  pr_sole : sole_posters (posters s);
}.

(** A waiting thread that has something posted is about to be notified. *)
Definition wakeup_pending s : Prop :=
  consumer s = Waiting → task_in_queue s ≠ None → ∃ p t, posters s !! p = Some (Notify t).

Lemma collect_chain nx p xs fuel :
  chain (λ t, mjoin (nx !! t)) p xs → length xs ≤ fuel → collect fuel nx p = xs.
Proof.
  revert p fuel. induction xs as [|x xs IH]; intros p [|fuel]; simpl; try lia.
  - by intros ->.
  - by intros ->.
  - intros [-> Hc] Hl. f_equal. apply IH; [done|lia].
Qed.

Lemma take_all_rep c s a :
  pq_rep s a → pq_rep (take_all c s) (AQueue [] (a_taken a ++ a_stack a)).
Proof.
  intros [H1 H2 H3 H4 H5 H6].
  assert (Hp : a_stack a ++ a_taken a ≡ₚ a_taken a ++ a_stack a) by apply Permutation_app_comm.
  split; simpl; [done|by intros t ?%not_elem_of_nil| | |by rewrite <-Hp|done].
  - rewrite H3, (collect_chain _ _ (a_stack a)); [done|done|].
    apply NoDup_keys_size; [by eapply chain_NoDup|done].
  - intros p x [Hx ?]%H4. split; [by rewrite <-Hp|done].
Qed.

Lemma sole_insert (m : gmap nat poster) p x x' :
  m !! p = Some x → task_of x' = task_of x → sole_posters m → sole_posters (<[p := x']> m).
Proof.
  intros Hp Ht Hm.
  assert (Hany : ∀ q y, <[p := x']> m !! q = Some y → ∃ y', m !! q = Some y' ∧ task_of y' = task_of y).
  { intros q y. destruct (decide (q = p)) as [->|].
    - rewrite lookup_insert_eq. intros [= <-]. by exists x.
    - rewrite lookup_insert_ne by done. by exists y. }
  intros q r y z (y' & Hq & Hy)%Hany (z' & Hr & Hz)%Hany Hyz. eapply Hm; [done..|congruence].
Qed.

(** What holds of every poster still holds when one of them moves on. *)
Lemma posters_insert (P : poster → Prop) (m : gmap nat poster) p x' :
  P x' → (∀ q y, q ≠ p → m !! q = Some y → P y) → ∀ q y, <[p := x']> m !! q = Some y → P y.
Proof.
  intros Hx Hm q y. destruct (decide (q = p)) as [->|Hne].
  - rewrite lookup_insert_eq. by intros [= <-].
  - rewrite lookup_insert_ne by done. by apply Hm.
Qed.

(** Moving a poster on, with its task. *)
Lemma rep_poster s a p x x' :
  pq_rep s a → posters s !! p = Some x → task_of x' = task_of x →
  poster_ok (next_of s) (a_stack a ++ a_taken a) x' → pq_rep (set_poster p x' s) a.
Proof.
  intros [H1 H2 H3 H4 H5 H6] Hp Ht Hx. split; simpl; try done; [|by eapply sole_insert].
  apply posters_insert; [done|]. intros q y _. apply H4.
Qed.

Lemma rep_consumer s a c : pq_rep s a → pq_rep (set_consumer c s) a.
Proof. by intros [H1 H2 H3 H4 H5 H6]. Qed.

(** Linking a task that is nowhere in the stack. *)
Lemma rep_link s a p t stale :
  pq_rep s a → posters s !! p = Some (Link t stale) →
  pq_rep (PQueue (task_in_queue s) (<[t := stale]> (next_of s))
    (<[p := Cas t stale]> (posters s)) (consumer s) (taken s)) a.
Proof.
  intros [H1 H2 H3 H4 H5 H6] Hp. pose proof (H4 _ _ Hp) as [Ht _]. simpl in Ht.
  split; simpl; [| |done| |done|by eapply sole_insert].
  - eapply lseg_ext; [|done]. intros x Hx. simpl. rewrite lookup_insert_ne; [done|].
    intros <-. destruct Ht as [_ Ht]. by discriminate Ht; apply elem_of_app; left.
  - intros x Hx. apply H2 in Hx. destruct (decide (t = x)) as [<-|]; simplify_map_eq; eauto.
  - apply posters_insert; [split; [done|apply lookup_insert_eq]|].
    intros q y Hq Hy. pose proof (H4 _ _ Hy) as [Hny Hcas]. split; [done|].
    destruct y as [|?|t' stale'|?|?]; try done. rewrite lookup_insert_ne; [done|].
    intros ->. apply Hq. by eapply H6.
Qed.

(** A successful swap pushes the task. *)
Lemma rep_cas s st tk p t :
  pq_rep s (AQueue st tk) → posters s !! p = Some (Cas t (task_in_queue s)) →
  pq_rep (PQueue (Some t) (next_of s) (<[p := Notify t]> (posters s)) (consumer s) (taken s))
    (AQueue (t :: st) tk).
Proof.
  intros [H1 H2 H3 H4 H5 H6] Hp. pose proof (H4 _ _ Hp) as [Ht Hl]. simpl in *.
  split; simpl in *; [| |done| | |by eapply sole_insert].
  - split; [done|]. by rewrite Hl.
  - intros x [->|Hx]%elem_of_cons; [by rewrite Hl|by apply H2].
  - apply posters_insert; [by split; [split; [by left|]|]|].
    intros q y Hq Hy. pose proof (H4 _ _ Hy) as [Hny Hcas].
    assert (task_of y ≠ t) by (intros Heq; apply Hq; by eapply H6).
    split; [|done]. rewrite Hny, elem_of_cons. naive_solver.
  - constructor; [|done]. intros Hin. apply Ht in Hin. done.
Qed.

(** Every atomic step is one step of the specification or none. *)
Lemma pq_step_refines a s s' abs :
  pq_rep s abs → pq_step a s = Some s' → ∃ abs', rtc aq_step abs abs' ∧ pq_rep s' abs'.
Proof.
  intros Hr Hstep. assert (Hstay : pq_rep s' abs → ∃ abs', rtc aq_step abs abs' ∧ pq_rep s' abs')
    by (intros; by exists abs).
  assert (Htake : ∀ c, s' = take_all c s → ∃ abs', rtc aq_step abs abs' ∧ pq_rep s' abs').
  { intros c ->. eexists. split; [|by apply take_all_rep]. destruct abs. by eapply rtc_once, ATake. }
  destruct a as [p|p| | |none|]; simpl in Hstep.
  - apply bind_Some in Hstep as (x & Hx & Hstep).
    pose proof (pr_posters _ _ Hr _ _ Hx) as [Hn _].
    destruct x as [t|t stale|t stale|t|t]; simpl in Hstep; simplify_eq.
    + apply Hstay. by eapply rep_poster.
    + apply Hstay. by eapply rep_link.
    + case_bool_decide as Hh; simplify_eq.
      * destruct abs as [st tk]. exists (AQueue (t :: st) tk).
        split; [by eapply rtc_once, APush|by apply rep_cas].
      * apply Hstay. by eapply rep_poster.
    + apply Hstay. destruct (consumer s); simplify_eq;
        by eapply rep_poster; [apply rep_consumer| | |].
  - destruct (posters s !! p) as [[]|] eqn:Hx; simplify_eq. apply Hstay.
    pose proof (pr_posters _ _ Hr _ _ Hx) as [Hn _]. by eapply rep_poster.
  - destruct (consumer s); simplify_eq. by eapply Htake.
  - destruct (consumer s); simplify_eq. by apply Hstay, rep_consumer.
  - destruct (consumer s); simplify_eq. by eapply Htake.
  - destruct (consumer s); simplify_eq. by apply Hstay, rep_consumer.
Qed.

Lemma pq_step_wakeup a s s' : wakeup_pending s → pq_step a s = Some s' → wakeup_pending s'.
Proof.
  intros Hw Hstep. destruct a as [p|p| | |none|]; simpl in Hstep.
  - apply bind_Some in Hstep as (x & Hx & Hstep).
    assert (Hkeep : ∀ x', (∀ t, x ≠ Notify t) → (∃ q t, posters s !! q = Some (Notify t)) →
      ∃ q t, <[p := x']> (posters s) !! q = Some (Notify t)).
    { intros x' Hn (q & t & Hq). exists q, t. rewrite lookup_insert_ne; [done|].
      intros ->. rewrite Hx in Hq. simplify_eq. by destruct (Hn t). }
    destruct x as [t|t stale|t stale|t|t]; simpl in Hstep; simplify_eq; unfold wakeup_pending; simpl.
    + intros. apply Hkeep; [done|by apply Hw].
    + intros. apply Hkeep; [done|by apply Hw].
    + case_bool_decide as Hh; simplify_eq/=.
      * intros _ _. exists p, t. apply lookup_insert_eq.
      * intros. apply Hkeep; [done|by apply Hw].
    + by destruct (consumer s); simplify_eq/=.
  - destruct (posters s !! p) as [[|?|t stale|?|?]|] eqn:Hx; simplify_eq. intros Hc Hh. simpl in *.
    destruct (Hw Hc Hh) as (q & u & Hq). exists q, u. rewrite lookup_insert_ne; [done|congruence].
  - by destruct (consumer s); simplify_eq/=.
  - by destruct (consumer s); simplify_eq/=.
  - by destruct (consumer s); simplify_eq; intros Hc Hh.
  - by destruct (consumer s); simplify_eq/=.
Qed.

(** ** Properties *)

(** The posting threads of a fresh queue: each is about to post a task of its own. *)
Definition pq_init s : Prop :=
  task_in_queue s = None ∧ taken s = [] ∧ consumer s = Busy ∧ sole_posters (posters s) ∧
  ∀ p x, posters s !! p = Some x → ∃ t, x = Load t.

Lemma pq_init_rep s : pq_init s → pq_rep s (AQueue [] []).
Proof.
  intros (Hh & Ht & _ & Hs & Hp). split; simpl; try done.
  - by intros t ?%not_elem_of_nil.
  - intros p x Hx. destruct (Hp p x Hx) as [t ->]. split; [|done].
    split; [done|by intros ?%not_elem_of_nil].
  - constructor.
Qed.

(** C9: however the atomic steps of the posting threads and of the thread they post
    to interleave, spurious failures included, the queue refines one where posting a
    task and taking everything posted are single steps: some sequence of these leads
    to a stack and a list of taken tasks that the final state represents; a task is in
    one of the two, once, exactly when its poster has pushed it. *)
Theorem posting_refines_atomic_steps acts s s' :
  pq_init s → pq_run acts s = Some s' →
  ∃ abs, rtc aq_step (AQueue [] []) abs ∧ pq_rep s' abs ∧ NoDup (a_stack abs ++ a_taken abs) ∧
    ∀ p x, posters s' !! p = Some x →
      pushed x = true ↔ task_of x ∈ a_stack abs ++ a_taken abs.
Proof.
  intros Hi%pq_init_rep Hr.
  cut (∃ abs, rtc aq_step (AQueue [] []) abs ∧ pq_rep s' abs).
  { intros (abs & Hs & Hrep). exists abs. split_and!; [done|done|by apply pr_once in Hrep|].
    intros p x Hx. by apply (pr_posters _ _ Hrep) in Hx as [? _]. }
  revert s Hi Hr. generalize (AQueue [] []).
  induction acts as [|a acts IH]; intros abs s Hi Hr; simplify_eq/=; [by exists abs|].
  apply bind_Some in Hr as (s1 & Hs1 & Hr).
  destruct (pq_step_refines _ _ _ _ Hi Hs1) as (abs1 & H1 & Hi1).
  destruct (IH _ _ Hi1 Hr) as (abs' & H2 & Hi2). exists abs'. split; [by etrans|done].
Qed.

(** C23: no wakeup is lost: whenever the thread waits for the condition although a
    task is posted, the thread that posted one has not notified yet, and its
    notification, which nothing can hold back any more, ends the wait. *)
Theorem no_wakeup_is_lost acts s s' :
  pq_init s → pq_run acts s = Some s' →
  consumer s' = Waiting → task_in_queue s' ≠ None →
  ∃ p t s2, posters s' !! p = Some (Notify t) ∧ pq_step (Step p) s' = Some s2 ∧
    consumer s2 = Busy.
Proof.
  intros Hi Hr Hc Hh. assert (Hw : wakeup_pending s).
  { intros Hc0. destruct Hi as (_ & _ & Hb & _). congruence. }
  clear Hi. revert s Hr Hw. induction acts as [|a acts IH]; intros s Hr Hw; simplify_eq/=.
  - destruct (Hw Hc Hh) as (p & t & Hp). exists p, t. rewrite Hp. simpl. rewrite Hc. by eexists.
  - apply bind_Some in Hr as (s1 & Hs1 & Hr). eapply IH; [done|]. by eapply pq_step_wakeup.
Qed.
