(* ===== verification/Concrete.v ===== *)
(** A concrete thread on which the hypotheses of the scheduler's theorems hold:
    context 1 runs, contexts 2 and 3 may be ready, 4 may wait for promise 10,
    6 for promise 11, 5 may be asleep, and a few tasks are posted, queued and scheduled. Each
    theorem is applied there once. *)
From Stdlib Require Import Sorted.
From S2P Require Import Prelude StdHeap World ReadyList TaskQueue Notify Scheduler Blocking Quit.

(** A clock that advances by one with every reading. *)
#[local] Instance ex_clock : Clock := λ i, Z.of_nat (1000 + i).

#[local] Instance ex_clock_mono : MonoClock.
Proof. intros i j Hij. unfold now_at, ex_clock. lia. Qed.

Definition ex_thread (r b sl : list nat) : thread_private :=
  ThreadPrivate None (Some 21) [22] [] sl false "main" (Some 1) (head r) (last r) (head b) 0.

Definition ex_ctx (b : list nat) : ctx_map :=
  <[1 := new_cmt_context]> (<[2 := set_c_next (Some 3) new_cmt_context]>
  (<[3 := new_cmt_context]> (<[4 := set_c_prom (if b is [] then None else Some 10) new_cmt_context]>
  (<[5 := set_c_resume_time 5000 new_cmt_context]>
  (<[6 := set_c_next_blocked (Some 4) (set_c_prom (Some 11) new_cmt_context)]> ∅))))).

Definition ex_prom : gmap nat (promise nat) :=
  <[10 := set_m_blocked_thread (Some 0) new_promise]>
  (<[11 := set_m_blocked_thread (Some 0) new_promise]>
  (<[12 := set_m_error (Some broken_promise) new_promise]> ∅)).

Definition ex_task (n prio : Z) (next : ptr) : task :=
  Task time_point_min false n prio next None (UserFn 0) None 1.

Definition ex_tasks : gmap nat task :=
  <[20 := ex_task 1 0 None]> (<[21 := ex_task 3 2 (Some 20)]> (<[22 := ex_task 2 0 None]>
  (<[23 := Task (2 ^ 62) false 4 0 None None (UserFn 0) None 1]>
  (<[24 := ex_task 5 0 None]> ∅)))).

Definition ex_world (self : nat) (r b sl : list nat) : world nat :=
  World (ex_ctx b) ex_prom ex_tasks {[ 0 := ex_thread r b sl ]} self 0 5 100.

(** The lists of contexts used. *)
Definition ex_lists (r b sl : list nat) : Prop :=
  (r = [] ∨ r = [2; 3]) ∧ (b = [] ∨ b = [4] ∨ b = [6; 4]) ∧ (sl = [] ∨ sl = [5]).

Lemma ex_sched r b sl :
  ex_lists r b sl → sched_rep (ex_ctx b) (ex_thread r b sl) r b.
Proof.
  assert (Hal : ∀ xs : list nat, Forall (λ x, is_Some (ex_ctx b !! x)) xs →
    allocated (ex_ctx b) xs) by (intros xs Hxs x; by rewrite Forall_forall in Hxs; apply Hxs).
  intros (Hr & Hb & Hs). split; simpl.
  - destruct Hr as [-> | ->]; split_and!; try done; apply Hal; repeat constructor; eauto.
  - destruct Hb as [-> |[-> | ->]]; split; try done; apply Hal; repeat constructor; eauto.
  - destruct Hs as [-> | ->]; [apply is_heap_nil|apply is_heap_singleton].
  - destruct Hs as [-> | ->]; apply Hal; repeat constructor; eauto.
  - destruct Hs as [-> | ->]; [constructor|apply NoDup_singleton].
  - destruct Hr as [-> | ->], Hb as [-> |[-> | ->]]; set_solver.
  - destruct Hr as [-> | ->], Hs as [-> | ->]; set_solver.
Qed.

Lemma ex_inv self r b sl :
  ex_lists r b sl → thread_inv (ex_world self r b sl) 0 (ex_thread r b sl) r b.
Proof.
  intros Hl. pose proof (ex_sched _ _ _ Hl) as Hrep. destruct Hl as (Hr & Hb & Hs).
  split; [done|done| | |]; simpl.
  - destruct Hb as [-> |[-> | ->]]; apply Forall_forall;
      repeat (apply Forall_nil_2 || apply Forall_cons_2); [exists 10|exists 11|exists 10]; by exists (set_m_blocked_thread (Some 0) new_promise).
  - intros c c' p Hc Hc'. destruct Hb as [-> |[-> | ->]], Hs as [-> | ->]; simpl in *;
      repeat match goal with
      | H : _ ∈ [] |- _ => by apply not_elem_of_nil in H
      | H : _ ∈ _ :: _ |- _ => apply elem_of_cons in H as [->|H]
      end; try done; vm_compute; congruence.
  - destruct Hs as [-> | ->]; [by intros c ?%not_elem_of_nil|].
    intros c ->%list_elem_of_singleton. destruct Hb as [-> |[-> | ->]];
      (split; [|by intros [? ?]]); set_solver.
Qed.

Lemma ex_running r b sl :
  ex_lists r b sl → running (ex_world 0 r b sl) 0 (ex_thread r b sl) r b 1.
Proof.
  intros Hl. split; [by apply ex_inv|done| |done|by eexists| | | |];
    destruct Hl as ([-> | ->] & [-> |[-> | ->]] & [-> | ->]); try done; try set_solver.
  all: intros a Ha; simpl in *; unfold ex_ctx; rewrite !lookup_insert_ne by lia; done.
Qed.

(** ** The task queues *)

Definition ex_queues (sch : list nat) : thread_private :=
  set_task_sch_queue sch (ex_thread [] [] []).

Definition ex_queue_world (sch : list nat) : world nat :=
  set_w_thr {[ 0 := ex_queues sch ]} (ex_world 0 [] [] []).

Lemma ex_queue_rep s :
  task_in_queue s = Some 21 → task_pqueue s = [22] →
  task_sch_queue s = [] ∨ task_sch_queue s = [23] → queue_rep ex_tasks s [21; 20].
Proof.
  intros H1 H2 Hs. split; rewrite ?H1, ?H2; [done| | |].
  - intros x Hx. assert (x ∈ [21; 20; 22; 23]) as Hx' by (destruct Hs as [Hs|Hs];
      rewrite Hs in Hx; set_solver). clear Hx. revert x Hx'. apply Forall_forall.
    repeat constructor; by eexists.
  - apply is_heap_singleton.
  - destruct Hs as [-> | ->]; [apply is_heap_nil|apply is_heap_singleton].
Qed.

Lemma dequeue_conserves_tasks_witness :
  wp (dequeue 0) (returns (λ p w', ∃ s',
    w_thr w' = <[0:=s']> (w_thr (ex_queue_world [23])) ∧
    w_task w' = w_task (ex_queue_world [23]) ∧
    queue_rep (w_task w') s' [] ∧
    option_list p ++ held s' [] ≡ₚ held (ex_queues [23]) [21; 20])) (ex_queue_world [23]).
Proof.
  apply (dequeue_conserves_tasks (ex_queue_world [23])); [reflexivity|].
  by apply ex_queue_rep; auto.
Defined.

Lemma tasks_run_by_priority_then_fifo_witness :
  wp (drain 4 0) (returns (λ ts w',
    ts ≡ₚ [21; 20; 22] ∧ StronglySorted (runs_before ex_tasks) ts)) (ex_queue_world []).
Proof.
  apply (tasks_run_by_priority_then_fifo (ex_queue_world []) 0 (ex_queues []) [21; 20]);
    [apply _|reflexivity|by apply ex_queue_rep; auto|reflexivity|].
  unfold held. simpl. apply Forall_forall. repeat constructor; vm_compute; discriminate.
Defined.

(** ** Completing promises *)

Lemma ex_lists_blocked r sl :
  r = [] ∨ r = [2; 3] → sl = [] ∨ sl = [5] → ex_lists r [4] sl.
Proof. unfold ex_lists. auto. Qed.

Lemma ex_sole sl : sl = [] ∨ sl = [5] →
  sole_waiter (ex_ctx [4]) (ex_thread [2; 3] [4] sl) [4] 10 4.
Proof.
  intros Hs. split; [done|]. intros x Hx Hp.
  assert (x ∈ [4; 5]) as Hx' by (destruct Hs as [-> | ->]; simpl in Hx; set_solver).
  apply elem_of_cons in Hx' as [->|Hx']; [done|].
  apply list_elem_of_singleton in Hx'. by subst.
Qed.

Lemma set_value_wakes_the_waiter_witness :
  wp (set_value 10 7) (returns (λ _ w',
    waiter_woken (with_prom (ex_world 0 [2; 3] [4] [5]) 10
      (set_m_value (Some 7) (set_m_blocked_thread (Some 0) new_promise))) 0
      (ex_thread [2; 3] [4] [5]) 4 [2; 3] [] w')) (ex_world 0 [2; 3] [4] [5]).
Proof.
  apply (set_value_wakes_the_waiter _ 0 10 7 _ (ex_thread [2; 3] [4] [5]) _ [] 4 []);
    try reflexivity; [apply ex_sched, ex_lists_blocked; auto|apply ex_sole; auto].
Defined.

Definition ex_completed (self : nat) : world nat :=
  with_prom (ex_world self [2; 3] [4] [5]) 10
    (set_m_value (Some 7) (set_m_blocked_thread (Some 0) new_promise)).

Lemma ex_completed_ready self : is_ready (ex_completed self) 10.
Proof. eexists. split; [reflexivity|by right]. Qed.

Lemma notify_wakes_only_one_witness :
  wp (thread_notify 0 10) (returns (λ _ w', ∃ s',
    w_thr w' !! 0 = Some s' ∧
    ready_rep (w_ctx w') s' [4; 2; 3] ∧ blocked_rep (w_ctx w') s' [])) (ex_completed 0).
Proof.
  pose proof (ex_sched [2; 3] [4] [5] (ex_lists_blocked [2; 3] [5] ltac:(auto) ltac:(auto)))
    as [Hr Hb _ Ha _ _ _].
  apply (notify_wakes_only_one (ex_completed 0) 0 10 (ex_thread [2; 3] [4] [5]) [2; 3] [] 4 []);
    try reflexivity; [apply ex_completed_ready|exact Hr|exact Hb|set_solver|set_solver|exact Ha].
Defined.

(** ** Blocking operations *)

Ltac ex_lists := unfold ex_lists; auto 8.

Lemma ex_sch self r b sl : sch_allocated (ex_world self r b sl) (ex_thread r b sl).
Proof. intros t Ht. by apply not_elem_of_nil in Ht. Qed.

Lemma check_for_timeouts_wakes_expired_witness :
  wp (check_for_timeouts 0) (returns (λ v w',
    timeouts_expired (ex_world 0 [2; 3] [4] [5]) 0 (now_at 0) (ex_thread [2; 3] [4] [5]) [2; 3] [4] w' ∧
    timeout_value (ex_world 0 [2; 3] [4] [5]) (ex_thread [2; 3] [4] [5]) (now_at 0) v))
    (ex_world 0 [2; 3] [4] [5]).
Proof.
  apply (check_for_timeouts_wakes_expired (ex_world 0 [2; 3] [4] [5]) 0
    (ex_thread [2; 3] [4] [5]) [2; 3] [4]);
    [apply ex_inv; ex_lists|reflexivity|apply ex_sch].
Defined.

Lemma yield_runs_next_ready_witness :
  let w := ex_world 0 [2; 3] [4] [5] in
  wp (yield 0) (returns (λ sw w', ∃ r1 b1 s',
    made_ready w (filter (expired (w_ctx w) (now_at 0)) [5]) [2; 3] r1 ∧
    sw = Switch 1 (default 100 (head r1)) (bool_decide (r1 = [])) ∧
    running w' 0 s' (tail r1 ++ [1]) b1 (sw_next sw))) w.
Proof.
  apply (yield_runs_next_ready (ex_world 0 [2; 3] [4] [5]) 0 (ex_thread [2; 3] [4] [5]) [2; 3]
    [4] 1), ex_running; ex_lists.
Defined.

Lemma yields_round_robin_witness :
  wp (yields 3 0) (returns (λ xs w', xs = [2; 3; 1] ∧ ∃ s' b',
    running w' 0 s' [2; 3] b' 1 ∧ ∀ c, c ∈ b' ↔ c ∈ [4])) (ex_world 0 [2; 3] [4] []).
Proof.
  apply (yields_round_robin (ex_world 0 [2; 3] [4] []) 0 (ex_thread [2; 3] [4] []) [2; 3] [4] 1);
    [apply ex_running; ex_lists|done|reflexivity|].
  unfold none_canceled. apply (Forall_forall _ [1; 2; 3]). repeat constructor.
Defined.

Lemma wait_blocks_caller_witness :
  let w := ex_world 0 [2; 3] [4] [5] in
  wp (wait 0 11 2000) (returns (λ osw w', ∃ sw r1 b1 s1,
    osw = Some sw ∧ running w' 0 s1 (tail r1) b1 (sw_next sw) ∧
    sw = Switch 1 (default (w_fresh w) (head r1)) (bool_decide (r1 = [])) ∧
    1 ∈ b1 ∧ prom_of (w_ctx w') 1 = Some 11 ∧
    ((2000 ≠ time_point_max)%Z → 1 ∈ sleep_pqueue s1 ∧ resume_time_of (w_ctx w') 1 = 2000%Z))) w.
Proof.
  apply (wait_blocks_caller (ex_world 0 [2; 3] [4] [5]) 0 (ex_thread [2; 3] [4] [5]) [2; 3] [4]
    1 11 (set_m_blocked_thread (Some 0) new_promise)); try reflexivity.
  - apply ex_running; ex_lists.
  - intros x Hx Hp. assert (x ∈ [4; 5]) as Hx' by exact Hx.
    apply elem_of_cons in Hx' as [->|Hx']; [discriminate|].
    apply list_elem_of_singleton in Hx'. subst. discriminate.
  - vm_compute. discriminate.
  - right. reflexivity.
Defined.

Lemma set_value_then_yield_resumes_witness :
  wp (set_value 10 7;; sw ← yield 0; wait_resume 0 (sw_next sw);; mret (sw_next sw))
    (returns (λ y w', y = 4 ∧ ∃ s' b', running w' 0 s' [2; 3; 1] b' 4 ∧
      prom_of (w_ctx w') 4 = None ∧
      w_prom w' !! 10 = Some (set_m_value (Some 7) (set_m_blocked_thread (Some 0) new_promise))))
    (ex_world 0 [2; 3] [4] [5]).
Proof.
  apply (set_value_then_yield_resumes (ex_world 0 [2; 3] [4] [5]) 0 (ex_thread [2; 3] [4] [5])
    [2; 3] [] 4 [] 1 10 (set_m_blocked_thread (Some 0) new_promise)); try reflexivity.
  - apply ex_running; ex_lists.
  - intros y Hy He. apply list_elem_of_singleton in Hy. subst. by vm_compute in He.
Defined.

Lemma sleep_until_suspends_witness :
  let w := ex_world 0 [2; 3] [4] [5] in
  wp (sleep_until 0 1200) (returns (λ sw w', ∃ r1 b1 s1,
    running w' 0 s1 (tail r1) b1 (sw_next sw) ∧
    sw = Switch 1 (default (w_fresh w) (head r1)) (bool_decide (r1 = [])) ∧
    1 ∈ sleep_pqueue s1 ∧ prom_of (w_ctx w') 1 = None ∧
    resume_time_of (w_ctx w') 1 = 1200%Z)) w.
Proof.
  apply (sleep_until_suspends (ex_world 0 [2; 3] [4] [5]) 0 (ex_thread [2; 3] [4] [5]) [2; 3] [4]
    1 1200); [apply ex_running; ex_lists|reflexivity|reflexivity].
Defined.

(** ** Quitting *)

Lemma quit_cancels_everything_witness :
  wp (quit 0) (returns (λ _ w', ∃ s', w_thr w' !! 0 = Some s' ∧
    th_done s' = true ∧ sleep_pqueue s' = [] ∧ blocked s' = None ∧
    ready_rep (w_ctx w') s' [5; 2; 3] ∧
    ∀ c, c ∈ [2; 3; 5] → is_canceled w' c)) (ex_world 0 [2; 3] [] [5]).
Proof.
  apply (quit_cancels_everything (ex_world 0 [2; 3] [] [5]) 0 (ex_thread [2; 3] [] [5]) [2; 3]).
  apply ex_inv; ex_lists.
Defined.

