(* ===== verification/ConcreteIO.v ===== *)
(** Concrete inputs for the theorems on futures, tasks, the task loop, sockets,
    stream buffers, asynchronous operations, acceptors, reference counts, locks,
    actors and the lock-free queue: the thread of [Concrete.v], a kernel that has
    every byte at hand, a network that takes three bytes at a time, one that fails
    as told. *)
From Stdlib Require Import Strings.Byte.
From S2P Require Import Prelude StdHeap World ReadyList TaskQueue Notify Scheduler Blocking Quit Future RunTask ProcessTasks Delivery TcpRead TcpIterator TcpWrite Streambuf Iostream Asio Acceptor Retainable Lock Actor PostQueue Concrete.

#[local] Instance io_clock : Clock := λ i, Z.of_nat (1000 + i).

#[local] Instance io_clock_mono : MonoClock.
Proof. intros i j Hij. unfold now_at, io_clock. lia. Qed.

(** ** Reference counts *)

Definition ex_refs : rstore := RStore {[ 7 := 2%Z ]} {[ 1 := Some 7; 2 := Some 7; 3 := None ]}.
Definition ex_no_ext : nat → nat := λ _, 0.

Lemma ex_refs_total o : total ex_refs ex_no_ext o = if decide (o = 7) then 2 else 0.
Proof.
  unfold total, refs, ex_no_ext. simpl. rewrite Nat.add_0_r.
  case_decide as Ho; [by subst|]. apply map_size_empty_iff. apply map_empty. intros v.
  apply map_lookup_filter_None. right. intros c Hc. simpl. intros ->. apply Ho.
  apply lookup_insert_Some in Hc as [[_ Hc]|[_ Hc]]; [congruence|].
  apply lookup_insert_Some in Hc as [[_ Hc]|[_ Hc]]; [congruence|].
  apply lookup_singleton_Some in Hc as [_ Hc]. congruence.
Qed.

Lemma ex_refs_inv : refs_inv ex_refs ex_no_ext.
Proof.
  intros o. rewrite ex_refs_total. unfold ex_refs. simpl. case_decide; subst.
  - reflexivity.
  - by rewrite lookup_singleton_ne by congruence.
Qed.

Lemma ref_max_Z : Z.of_nat ref_max = (2 ^ 31 - 1)%Z.
Proof. unfold ref_max. rewrite Z2Nat.id; lia. Qed.

Lemma ex_refs_bound o : total ex_refs ex_no_ext o < ref_max.
Proof. rewrite ex_refs_total. pose proof ref_max_Z. case_decide; lia. Qed.

Lemma objects_live_while_referenced_witness :
  wp (do_rop (Assign 1 3)) (returns (λ _ s', refs_inv s' ex_no_ext)) ex_refs.
Proof.
  apply (objects_live_while_referenced ex_refs ex_no_ext (Assign 1 3));
    [apply ex_refs_inv|apply ex_refs_bound|split; by eexists].
Defined.

Definition ex_leak : rstore := RStore {[ 7 := 1%Z; 8 := 1%Z ]} {[ 1 := Some 7; 2 := Some 8 ]}.

Lemma ex_leak_total o : total ex_leak ex_no_ext o = if decide (o = 7 ∨ o = 8) then 1 else 0.
Proof.
  unfold total, refs, ex_no_ext. simpl. rewrite Nat.add_0_r.
  case_decide as Ho; [by destruct Ho; subst|]. apply map_size_empty_iff. apply map_empty. intros v.
  apply map_lookup_filter_None. right. intros c Hc. simpl. intros ->. apply Ho.
  apply lookup_insert_Some in Hc as [[_ Hc]|[_ Hc]]; [left; congruence|].
  apply lookup_singleton_Some in Hc as [_ Hc]. right. congruence.
Qed.

Lemma ex_leak_inv : refs_inv ex_leak ex_no_ext.
Proof.
  intros o. rewrite ex_leak_total. unfold ex_leak. simpl. case_decide as Ho.
  - by destruct Ho; subst.
  - rewrite lookup_insert_ne, lookup_singleton_ne by (intros <-; apply Ho; auto). done.
Qed.

Lemma move_assignment_leaks_witness :
  wp (ptr_move_assign 1 2;; ptr_destroy 2;; ptr_destroy 1) (returns (λ _ s',
    counts s' !! 7 = Some 1%Z ∧ total s' ex_no_ext 7 = 0)) ex_leak.
Proof.
  apply (move_assignment_leaks ex_leak ex_no_ext 1 2 7 (Some 8)); try reflexivity; try discriminate.
  - apply ex_leak_inv.
  - intros x. rewrite ex_leak_total. pose proof ref_max_Z. case_decide; lia.
Defined.

(** ** Locks: fibres 10 and 11 of thread 1, fibre 20 of thread 2 *)

Definition ex_home (f : nat) : nat := f / 10.

Definition ex_free : locksys :=
  LockSys unlocked {[ 10 := Outside; 11 := Outside; 20 := Outside ]} {[ 1 := 10; 2 := 20 ]}.

Lemma ex_free_home t f : running_fiber ex_free !! t = Some f → ex_home f = t.
Proof.
  intros Hf. simpl in Hf. apply lookup_insert_Some in Hf as [[<- <-]|[_ Hf]]; [reflexivity|].
  apply lookup_singleton_Some in Hf as [<- <-]. reflexivity.
Qed.

Lemma ex_free_outside f : pcs ex_free !! f ≠ Some Holding.
Proof.
  intros Hf. simpl in Hf. apply lookup_insert_Some in Hf as [[_ Hf]|[_ Hf]]; [discriminate|].
  apply lookup_insert_Some in Hf as [[_ Hf]|[_ Hf]]; [discriminate|].
  apply lookup_singleton_Some in Hf as [_ Hf]. discriminate.
Qed.

(** Thread 1 takes the lock in fibre 11 and switches to fibre 10; thread 2 tries. *)
Definition ex_contention : list (nat * lock_act) :=
  [(1, SwitchFiber 11); (1, DoTryLock); (2, DoLock); (2, TryAgain 0 20); (1, SwitchFiber 10); (1, DoLock)].

Definition ex_contended (k : lock_class) : locksys :=
  default ex_free (lock_run ex_home k ex_contention ex_free).

Lemma ex_contended_run k : lock_run ex_home k ex_contention ex_free = Some (ex_contended k).
Proof. by destruct k. Qed.

Lemma mutual_exclusion_witness :
  (∀ f g, pcs (ex_contended Mutex) !! f = Some Holding →
    pcs (ex_contended Mutex) !! g = Some Holding → f = g) ∧
  (m_state (ex_contended Mutex) = locked ↔ ∃ f, pcs (ex_contended Mutex) !! f = Some Holding).
Proof.
  apply (mutual_exclusion ex_home Mutex ex_contention ex_free);
    [reflexivity|apply ex_free_outside|apply ex_free_home|apply ex_contended_run].
Defined.

Lemma ex_contended_inv k : lock_inv ex_home (ex_contended k).
Proof.
  apply (lock_run_inv _ k ex_contention ex_free); [|apply ex_contended_run].
  split; [split; [done|]| |apply ex_free_home].
  - by intros (f & []%ex_free_outside).
  - by intros f g []%ex_free_outside.
Qed.

Definition ex_more : list (nat * lock_act) := [(1, TryAgain 1 11); (2, TryAgain 2 20); (1, TryAgain 3 11)].

Lemma spin_lock_never_yields_witness :
  let s' := default ex_free (lock_run ex_home SpinLock ex_more (ex_contended SpinLock)) in
  pcs s' !! 10 = Some Locking ∧ pcs s' !! 11 = Some Holding ∧ running_fiber s' !! 1 = Some 10.
Proof.
  apply (spin_lock_never_yields ex_home 10 11 ex_more (ex_contended SpinLock));
    [lia|reflexivity|apply ex_contended_inv|reflexivity..].
Defined.

Lemma mutex_lets_the_holder_run_witness :
  ∃ s', lock_run ex_home Mutex [(1, TryAgain 5 11); (1, Unlock); (1, SwitchFiber 10);
    (1, TryAgain 6 10)] (ex_contended Mutex) = Some s' ∧
    pcs s' !! 10 = Some Holding ∧ pcs s' !! 11 = Some Outside ∧
    running_fiber s' !! 1 = Some 10 ∧ m_state s' = locked.
Proof.
  apply (mutex_lets_the_holder_run ex_home 10 11 5 6 (ex_contended Mutex));
    [lia|reflexivity|apply ex_contended_inv|reflexivity..].
Defined.

(** ** The lock-free queue *)

Definition ex_posting : pqueue :=
  PQueue None ∅ {[ 1 := Load 31; 2 := Load 32 ]} Busy [].

Lemma ex_posting_init : pq_init ex_posting.
Proof.
  split_and!; try reflexivity.
  - intros p q x y Hp Hq. simpl in Hp, Hq. apply lookup_insert_Some in Hp as [[<- <-]|[_ Hp]];
      [|apply lookup_singleton_Some in Hp as [<- <-]];
      (apply lookup_insert_Some in Hq as [[<- <-]|[_ Hq]];
      [|apply lookup_singleton_Some in Hq as [<- <-]]); simpl; congruence.
  - intros p x Hp. simpl in Hp. apply lookup_insert_Some in Hp as [[_ <-]|[_ Hp]]; [by exists 31|].
    apply lookup_singleton_Some in Hp as [_ <-]. by exists 32.
Qed.

(** Both link to the empty head; one swaps, the other fails and tries again, while
    the thread goes to sleep in between. *)
Definition ex_acts : list pq_act :=
  [Step 1; Step 2; Step 1; Step 2; Lock; TakeOrWait true; Step 1; Step 2; Step 2; Step 2].

Definition ex_posted : pqueue := default ex_posting (pq_run ex_acts ex_posting).

Lemma posting_refines_atomic_steps_witness :
  ∃ abs, rtc aq_step (AQueue [] []) abs ∧ pq_rep ex_posted abs ∧ NoDup (a_stack abs ++ a_taken abs) ∧
    ∀ p x, posters ex_posted !! p = Some x →
      pushed x = true ↔ task_of x ∈ a_stack abs ++ a_taken abs.
Proof.
  apply (posting_refines_atomic_steps ex_acts ex_posting); [apply ex_posting_init|reflexivity].
Defined.

Lemma no_wakeup_is_lost_witness :
  ∃ p t s2, posters ex_posted !! p = Some (Notify t) ∧ pq_step (Step p) ex_posted = Some s2 ∧
    consumer s2 = Busy.
Proof.
  apply (no_wakeup_is_lost ex_acts ex_posting);
    [apply ex_posting_init|reflexivity|reflexivity|discriminate].
Defined.

(** ** The acceptor *)

Definition ex_ends : list (exn + nat) := [inr 1; inl (system_error 9); inr 2; inr 3].

Lemma accepted_connections_are_handled_witness :
  ∃ p hs', listen_run Accepting ex_ends (Acceptor AccOpen []) = (Ret p, Acceptor AccOpen ([] ++ hs')) ∧
    hs'.*1 = [1; 2; 3] ∧ (∀ e, p ≠ Over e).
Proof. apply (accepted_connections_are_handled ex_ends []). reflexivity. Defined.

Lemma two_failures_end_listening_witness :
  ∃ hs' e, listen_run Accepting (ex_ends ++ [inl (system_error 9); inl (system_error 4); inr 5])
      (Acceptor AccOpen []) = (Ret (Over e), Acceptor AccOpen ([] ++ hs')) ∧
    (e = system_error 9 ∨ e = system_error 4) ∧ hs'.*1 = [1; 2; 3].
Proof. apply (two_failures_end_listening ex_ends 9 4 [inr 5] []). reflexivity. Defined.

Lemma destroyed_while_listening_witness :
  (p ← listen None; p' ← listen_run p ex_ends; destroy;; listen_step p' (inl (system_error 9)))
    new_acceptor = (Undef BadPointer, Acceptor AccDeleted [(1, 0%Z); (2, 9%Z); (3, 0%Z)]).
Proof. apply (destroyed_while_listening ex_ends 9); reflexivity. Defined.

(** ** Futures *)

Lemma future_wait_blocks_witness :
  let w := ex_world 0 [2; 3] [4] [5] in
  wp (future_wait (Some 11) microseconds_max) (returns (λ wt w', ∃ sw r1 b1 s1,
    wt = Blocked sw ∧ running w' 0 s1 (tail r1) b1 (sw_next sw) ∧
    sw = Switch 1 (default (w_fresh w) (head r1)) (bool_decide (r1 = [])) ∧
    1 ∈ b1 ∧ prom_of (w_ctx w') 1 = Some 11)) w.
Proof.
  apply (future_wait_blocks (ex_world 0 [2; 3] [4] [5]) 0 (ex_thread [2; 3] [4] [5]) [2; 3] [4]
    1 11 (set_m_blocked_thread (Some 0) new_promise)); try reflexivity.
  - apply ex_running; ex_lists.
  - intros x Hx Hp. assert (x ∈ [4; 5]) as Hx' by exact Hx.
    apply elem_of_cons in Hx' as [->|Hx']; [discriminate|].
    apply list_elem_of_singleton in Hx'. subst. discriminate.
  - vm_compute. discriminate.
Defined.

Lemma blocked_wait_consumes_error_witness :
  let w := ex_world 0 [2; 3] [4] [5] in
  wp (promise_wait_resume 0 1 12) (λ o w', o = Exc broken_promise ∧
    w_prom w' !! 12 = Some (set_m_error None (set_m_error (Some broken_promise) new_promise)) ∧
    ¬ is_ready w' 12) w.
Proof.
  apply (blocked_wait_consumes_error (ex_world 0 [2; 3] [4] [5]) 0 (ex_thread [2; 3] [4] [5])
    [2; 3] [4] 1 12 (set_m_error (Some broken_promise) new_promise) broken_promise); try reflexivity.
  apply ex_running; ex_lists.
Defined.

(** ** Tasks: user function 3 returns 40, function 4 throws *)

Definition ex_user (id : nat) : M (world nat) exn nat :=
  if bool_decide (id = 4) then throw (std_error 1) else mret 40.

Lemma ex_tasks_bound a : 100 ≤ a → ex_tasks !! a = None.
Proof. intros Ha. unfold ex_tasks. rewrite !lookup_insert_ne by lia. done. Qed.

Lemma async_posts_task_witness :
  let w := ex_world 1 [2; 3] [4] [] in
  wp (async 0 (UserFn 3) 7) (returns (λ p w', ∃ s' t kt kp,
    p = w_fresh w ∧ w_thr w' = <[0:=s']> (w_thr w) ∧
    queue_rep (w_task w') s' (t :: [21; 20]) ∧
    w_task w' !! t = Some kt ∧ t_functor kt = UserFn 3 ∧ t_prom kt = Some p ∧
    t_prio kt = Z.max 0 7 ∧ t_when kt = time_point_min ∧ t_canceled kt = false ∧
    w_prom w' !! p = Some kp ∧ m_task kp = Some t ∧ ¬ is_ready w' p)) w.
Proof.
  apply (async_posts_task (ex_world 1 [2; 3] [4] []) 0 (ex_thread [2; 3] [4] []) [21; 20] 1
    new_cmt_context (UserFn 3) 7); try reflexivity; [by apply ex_queue_rep; auto|apply ex_tasks_bound].
Defined.

(** ** The task loop *)

(** At its wait the loop takes a task; with none posted or ready, it sleeps. *)
Definition ex_without : world nat :=
  set_w_thr {[ 0 := set_task_in_queue None (set_task_pqueue [] (ex_queues [])) ]} (ex_world 0 [] [] []).

Lemma sleeps_only_without_tasks_witness :
  wp (pt_step ex_user 0 0 (PtBlock 1500)) (returns (λ e w', ∃ s',
    w_thr w' !! 0 = Some s' ∧ queue_rep (w_task w') s' [] ∧
    match e with
    | Goto (PtWhile (Some t)) => t :: held s' [] ≡ₚ held (ex_queues [23]) [21; 20]
    | Sleep _ _ => held s' [] ≡ₚ held (ex_queues [23]) [21; 20]
    | _ => False
    end)) (ex_queue_world [23]) ∧
  without_tasks ex_without 0 (set_task_in_queue None (set_task_pqueue [] (ex_queues []))) []
    (pt_step ex_user 0 0 (PtBlock 1500) ex_without).2.
Proof.
  destruct (sleeps_only_without_tasks ex_user 0 (ex_queue_world [23]) 0 (ex_queues [23]) [21; 20] (PtBlock 1500))
    as (_ & _ & Htake); [reflexivity|by apply ex_queue_rep; auto|].
  destruct (sleeps_only_without_tasks ex_user 0 ex_without 0
    (set_task_in_queue None (set_task_pqueue [] (ex_queues []))) [] (PtBlock 1500)) as (Hsleep & _ & _);
    [reflexivity|by split; [|intros x ?%not_elem_of_nil|..]|].
  split.
  - exact (Htake 1500%Z eq_refl).
  - destruct (Hsleep (Some 1500%Z) (PtWhile None) (pt_step ex_user 0 0 (PtBlock 1500) ex_without).2)
      as (tmo & _ & _ & _ & Hw); [vm_compute; reflexivity|exact Hw].
Defined.

Definition ex_due : world nat :=
  set_w_thr {[ 0 := ex_queues [20] ]} (ex_world 0 [] [] []).

Lemma due_scheduled_task_spins_witness :
  ∃ p i, pt_steps ex_user 0 9 0 (PtWhile None) ex_due = (Ret (Goto p), set_w_ticks i ex_due) ∧
    spinning p.
Proof.
  apply (due_scheduled_task_spins ex_user 0 9 ex_due 0 (ex_queues [20])).
  split_and!; try reflexivity. exists 20, [], (ex_task 1 0 None).
  split_and!; [reflexivity|reflexivity|]. vm_compute. discriminate.
Defined.

(** ** Reading from a socket: the kernel has the whole stream at hand *)

#[local] Instance ex_kernel : Kernel (list byte) := {
  TcpRead.available k := Z.of_nat (length k);
  read_now n k := (take (Z.to_nat n) k, drop (Z.to_nat n) k);
  read_all n k := (inr (take (Z.to_nat n) k), drop (Z.to_nat n) k);
  read_any n k := (inr (take (Z.to_nat n) k), drop (Z.to_nat n) k);
  stream k := k;
}.

#[local] Instance ex_kernel_spec : KernelSpec (list byte).
Proof. split; simpl; [intros; lia|done|done]. Qed.

(** Two bytes of three are left in the read buffer. *)
Definition ex_rsock : rsock (list byte) := RSock [x01; x02; x03] 1 0 [x04; x05; x06].

Lemma ex_rsock_can_read : can_read ex_rsock 4.
Proof.
  split_and!; [|lia|lia|by vm_compute|by vm_compute].
  split; [vm_compute; split; congruence|vm_compute; discriminate|reflexivity].
Qed.

Lemma read_in_order_witness :
  unread ex_rsock = [x02; x03; x04; x05; x06] ∧
  wp (sock_read 4) (returns (λ x st', x = (4%Z, take (Z.to_nat 4) (unread ex_rsock)) ∧
    sock_inv st' ∧ unread st' = drop (Z.to_nat 4) (unread ex_rsock))) ex_rsock.
Proof.
  split; [reflexivity|]. apply (read_in_order ex_rsock 4), ex_rsock_can_read.
Defined.

(** The iterator holds the byte before the first of them. *)
Lemma iterator_visits_stream_witness :
  wp (iterator_take 3 (SockIterator x01 true)) (returns (λ x st',
    x = ([x01; x02; x03], SockIterator x04 true) ∧ sock_inv st' ∧ unread st' = [x05; x06])) ex_rsock.
Proof.
  apply (iterator_visits_stream 3 ex_rsock [x02; x03; x04] x01 [x05; x06]);
    [exact (proj1 ex_rsock_can_read)|reflexivity|reflexivity|vm_compute; reflexivity].
Defined.

(** ** Writing to a socket *)

(** Three bytes accepted, two of them on their way, two more in the other buffer *)
Definition ex_wsock1 : wsock := (sock_write [x61; x62; x63] new_wsock).2.
Definition ex_wsock2 : wsock := (write_loop_wrote 2 ex_wsock1).2.
Definition ex_wsock3 : wsock := (sock_write [x64; x65] ex_wsock2).2.

Lemma ex_wsock_reachable : reachable ex_wsock3 [x61; x62; x63; x64; x65].
Proof.
  apply (run_step _ ex_wsock2 [x61; x62; x63] [x64; x65]); [|apply (step_write _ _ _ 2); reflexivity].
  apply (run_step _ ex_wsock1 [x61; x62; x63] []); [|by apply (step_wrote 2 _ _ false 0); [|simpl; lia|]].
  apply (run_step _ new_wsock [] [x61; x62; x63]); [apply run_start|].
  apply (step_write _ _ _ 3). reflexivity.
Qed.

(** A context waits in [flush]; the loop's write fails after another byte, the context goes
    on, and one more byte is accepted. *)
Definition ex_wsock4 : wsock := (flush ex_wsock3).2.
Definition ex_wsock5 : wsock := (write_loop_failed 1 (system_error 32) ex_wsock4).2.
Definition ex_wsock6 : wsock := (flush_resume ex_wsock5).2.
Definition ex_wsock7 : wsock := (sock_write [x66] ex_wsock6).2.

Lemma ex_flush_reachable : reachable ex_wsock4 [x61; x62; x63; x64; x65].
Proof.
  apply (run_step _ ex_wsock3 _ [] _ ex_wsock_reachable). by eapply step_flush.
Qed.

Lemma ex_stuck_reachable : reachable ex_wsock7 [x61; x62; x63; x64; x65; x66].
Proof.
  apply (run_step _ ex_wsock6 [x61; x62; x63; x64; x65] [x66]); [|by apply (step_write _ _ _ 1)].
  apply (run_step _ ex_wsock5 [x61; x62; x63; x64; x65] []); [|by eapply step_flush_resume].
  apply (run_step _ ex_wsock4 [x61; x62; x63; x64; x65] []); [apply ex_flush_reachable|].
  by apply (step_wrote_failed 1 (system_error 32)).
Qed.

Lemma ex_not_failed : ¬ has_failed ex_wsock3.
Proof. intros [Hl _]%has_failed_stuck. discriminate Hl. Qed.

Lemma ex_failed : has_failed ex_wsock7.
Proof. by eapply stuck_has_failed; [apply ex_stuck_reachable|]. Qed.

Lemma writes_are_sent_in_order_witness :
  [x61; x62; x63; x64; x65] =
    sent ex_wsock3 ++ drop 2 (write_buf ex_wsock3 false) ++ write_buf ex_wsock3 true ∧
  sent ex_wsock7 = [x61; x62; x63] ∧ ∀ s' more, runs_from ex_wsock7 s' more → sent s' = [x61; x62; x63].
Proof.
  split; [exact (proj1 (writes_are_sent_in_order ex_wsock3 _ ex_wsock_reachable) ex_not_failed)|].
  split; [reflexivity|].
  exact (proj2 (proj2 (writes_are_sent_in_order ex_wsock7 _ ex_stuck_reachable) ex_failed)).
Defined.

Lemma write_loop_terminates_witness :
  wp (write_loop 2) (returns (λ _ s', loop s' = None ∧ sent s' = [x61; x62; x63; x64; x65] ∧
    cur_write_buf s' = None ∧ ∀ i, write_buf s' i = [])) ex_wsock3.
Proof. apply (write_loop_terminates ex_wsock3); [apply ex_wsock_reachable|apply ex_not_failed]. Defined.

Lemma write_after_failure_witness :
  let failed := (write_loop_failed 1 (system_error 32) ex_wsock4).2 in
  sock_write [x66] failed = (Exc (system_error 32), failed) ∧
  let flushed := (flush_resume failed).2 in
  wp (sock_write [x66]) (returns (λ n s', n = 1 ∧ loop s' = None ∧
    sent s' = sent failed ∧ cur_write_buf s' ≠ None)) flushed.
Proof.
  apply (write_after_failure [x66] (system_error 32) 1 ex_wsock4 [x61; x62; x63; x64; x65]);
    [apply ex_flush_reachable|discriminate|reflexivity|discriminate].
Defined.

(** ** Stream buffers *)

(** A network that takes and gives at most three bytes at a time: what was sent,
    and what is to be received. *)
Definition ex_net : Type := list byte * list byte.

#[local] Instance ex_net_ops : Net ex_net := {
  net_send bs n := (Transfer 0 (min 3 (length bs)) false, (n.1 ++ take 3 bs, n.2));
  net_receive max n :=
    (if n.2 is [] then Transfer 2 [] false else Transfer 0 (take (min 3 max) n.2) false,
     (n.1, drop (min 3 max) n.2));
  net_connect _ n := (0%Z, n);
  net_close n := (0%Z, n);
  delivered n := n.1;
  incoming n := n.2;
  net_patience n := 0;
}.

Lemma take_min_length {A} n (l : list A) : take (min n (length l)) l = take n l.
Proof. by rewrite <-take_take, firstn_all. Qed.

Lemma drop_min_length {A} n (l : list A) : drop (min n (length l)) l = drop n l.
Proof.
  destruct (decide (n ≤ length l)); [by rewrite Nat.min_l|].
  rewrite Nat.min_r, !drop_ge by lia. done.
Qed.

#[local] Instance ex_net_healthy : Healthy ex_net.
Proof.
  split.
  - intros bs n Hbs. assert (0 < length bs) by (destruct bs; [done|simpl; lia]).
    exists (min 3 (length bs)), false. unfold net_send, delivered, incoming, ex_net_ops. cbn [fst snd]. rewrite take_min_length.
    split; [done|]. split; [lia|done].
  - intros max [out inp] Hmax Hin. exists (min (min 3 max) (length inp)), false.
    unfold net_receive, incoming, delivered, ex_net_ops in *. cbn [fst snd] in *.
    assert (0 < length inp) by (destruct inp; [done|simpl; lia]).
    rewrite take_min_length, drop_min_length. split; [lia|]. split; [lia|]. by destruct inp.
Qed.

Definition ex_text : list byte := [x68; x65; x6c; x6c; x6f].
Definition ex_sender : sbuf ex_net := new_sbuf ([], []).
Definition ex_receiver : sbuf ex_net := new_sbuf ([], ex_text).

Lemma put_sync_get_roundtrip_witness :
  wp (n ← sputn ex_text; c ← sync; mret (n, c)) (returns (λ x s', x.1 = 5 ∧ x.2 ≠ eof ∧
    pending s' = [] ∧ (input ex_receiver = delivered (net s') →
      ∃ r', sgetn 5 ex_receiver = (Ret ex_text, r') ∧ sbuf_inv r' ∧ input r' = []))) ex_sender.
Proof.
  apply (put_sync_get_roundtrip ex_sender ex_receiver ex_text);
    [apply new_sbuf_inv|reflexivity|reflexivity|apply new_sbuf_inv].
Defined.

#[local] Instance ex_net_bounded : Bounded ex_net.
Proof.
  split.
  - intros bs n Hbs _. assert (0 < length bs) by (destruct bs; [done|simpl; lia]).
    unfold net_send, ex_net_ops. cbn [fst snd xf_done]. lia.
  - intros max [out [|b inp]] Hmax; unfold net_receive, ex_net_ops; cbn [fst snd xf_done xf_ec].
    + split; [simpl; lia|done].
    + split; [rewrite length_take; lia|]. intros _ Hn%(f_equal length).
      rewrite length_take in Hn. cbn [length] in Hn. lia.
Qed.

Lemma ex_net_timely : timely ex_net.
Proof. split; [done|]. by intros max [out [|b inp]]. Qed.

Lemma streambuf_stays_in_bounds_witness : wp (sbuf_do (Gets 4)) (in_bounds 0) ex_receiver.
Proof. apply (streambuf_stays_in_bounds ex_net_timely ex_receiver (Gets 4)), new_sbuf_inv. Defined.

(** *** The stream around such a buffer: two exchanges, and one more request *)

Definition ex_stream : iostream ex_net := (ios_connected (inr [7]) ([], ex_text)).2.

Definition ex_exchange : list (list byte * nat) := [([x3f], 1); ([x3f; x0a], 2)].

Lemma request_is_sent_before_reading_witness :
  let n1 := net (rdbuf ex_stream) in
  (incoming n1 = ex_text ∧ delivered n1 = []) ∧
  wp (answers ← exchange ex_exchange; ios_write [x21];; a ← ios_read 2; mret (answers, a))
    (returns (λ r s', length <$> r.1 = ex_exchange.*2 ∧
      concat r.1 = take (sum_list ex_exchange.*2) (incoming n1) ∧
      r.2 = take 2 (drop (sum_list ex_exchange.*2) (incoming n1)) ∧ good s' = true)) ex_stream ∧
  wp (exchange ex_exchange;; ios_write [x21];; sentry) (returns (λ ok s', ok = true ∧
    pending (rdbuf s') = [] ∧ delivered (net (rdbuf s')) = delivered n1 ++ concat ex_exchange.*1 ++ [x21])) ex_stream.
Proof.
  intros n1. split; [split; vm_compute; reflexivity|].
  apply (request_is_sent_before_reading (inr [7]) ([], ex_text) ex_stream ex_exchange [x21] 2);
    [vm_compute; reflexivity..|vm_compute; lia].
Defined.

(** A network told, for each send, to take so many bytes or to fail; receives fail. *)
Definition ex_flaky : Type := list byte * list (option nat).

#[local] Instance ex_flaky_ops : Net ex_flaky := {
  net_send bs n :=
    match n.2 with
    | Some k :: ks => (Transfer 0 (min k (length bs)) false, (n.1 ++ take k bs, ks))
    | None :: ks => (Transfer 32 0 false, (n.1, ks))
    | [] => (Transfer 0 (length bs) false, (n.1 ++ bs, []))
    end;
  net_receive max n := (Transfer 2 [] true, n);
  net_connect _ n := (0%Z, n);
  net_close n := (0%Z, n);
  delivered n := n.1;
  incoming n := [];
  net_patience n := 0;
}.

Definition ex_unsent : sbuf ex_flaky :=
  (sputn ex_text (new_sbuf ([], [Some 2; None]))).2.

Lemma ex_unsent_inv : sbuf_inv ex_unsent.
Proof. split; vm_compute; try done; try (split; lia); lia. Qed.

Lemma failed_flush_sends_twice_witness :
  pending ex_unsent = ex_text ∧
  ∃ s1 s2, sync ex_unsent = (Ret eof, s1) ∧ pending s1 = pending ex_unsent ∧
    net s1 = ([x68; x65], []) ∧ sync s1 = (Ret 0%Z, s2) ∧ pending s2 = [] ∧
    delivered (net s2) = delivered (net ex_unsent) ++
      take 2 (pending ex_unsent) ++ pending ex_unsent.
Proof.
  split; [reflexivity|].
  apply (failed_flush_sends_twice ex_unsent 2 32 ([x68; x65], [None]) ([x68; x65], [])
    ([x68; x65] ++ ex_text, []) 0); try reflexivity; [apply ex_unsent_inv|vm_compute; lia|done].
Defined.

(** Its receives fail, and their error codes are late. *)
Lemma late_failure_leaves_get_area_witness :
  wp sbumpc (returns (λ r s', r ≠ eof ∧ gptr s' = S (egptr s') ∧ strays s' = 1)) ex_unsent.
Proof.
  apply (late_failure_leaves_get_area ex_unsent 2 (net ex_unsent)); [apply ex_unsent_inv|reflexivity..].
Defined.

(** ** Asynchronous operations: context 1 of thread 0, and an io_service thread 9 *)

Definition ex_io_thread : thread_private :=
  ThreadPrivate None None [] [] [] false "main" (Some 1) None None None 0.

Definition ex_io_world {T} (self : nat) (ps : gmap nat (promise T)) : world T :=
  World {[ 1 := new_cmt_context ]} ps ∅ {[ 0 := ex_io_thread ]} self 0 0 100.

Lemma ex_io_running {T} (ps : gmap nat (promise T)) :
  running (ex_io_world 0 ps) 0 ex_io_thread [] [] 1.
Proof.
  assert (Hno : ∀ x, x ∉ ([] : list nat)) by by intros x ?%not_elem_of_nil.
  split; try done; [split; try done; [split; try done; try constructor|..]|..];
    try done; try (by intros ? ?%Hno); try apply Hno.
  all: try (intros a Ha; simpl in *; by rewrite lookup_singleton_ne by lia).
  - by split; [|intros ? ?%Hno].
  - by intros ? ? ? ?%Hno.
Qed.

Definition ex_io : io := Io (ex_io_world 0 ∅) ∅ [].

Lemma operation_blocks_its_caller_witness :
  wp (await_op (AsyncRead 5 1024) ReadWriteHandler microseconds_max) (returns (λ wt s',
    ∃ sw r1 b1 st1,
    io_started s' = io_started ex_io ++ [(AsyncRead 5 1024, ReadWriteHandler 100)] ∧ wt = Blocked sw ∧
    running (io_world s') 0 st1 (tail r1) b1 (sw_next sw) ∧ sw_prev sw = 1 ∧
    1 ∈ b1 ∧ prom_of (w_ctx (io_world s')) 1 = Some 100)) ex_io.
Proof.
  apply (operation_blocks_its_caller (AsyncRead 5 1024) ReadWriteHandler ex_io 0 ex_io_thread [] [] 1);
    [apply ex_io_running|reflexivity|vm_compute; discriminate].
Defined.

(** Promise 50 is waited for by thread 0; thread 9 invokes the handler. *)
Definition ex_waited_prom : promise io_value := set_m_blocked_thread (Some 0) new_promise.
Definition ex_waited : io := Io (ex_io_world 9 {[ 50 := ex_waited_prom ]}) ∅ [].

Lemma ex_io_queue {T} self (ps : gmap nat (promise T)) :
  queue_rep (w_task (ex_io_world self ps)) ex_io_thread [].
Proof.
  split; simpl; try done; [by intros x ?%not_elem_of_nil|apply is_heap_nil..].
Qed.

Lemma handler_completes_operation_witness :
  wp (run_handler (ReadWriteHandler 50) (Completion 0 512 [])) (returns (λ _ s',
    io_started s' = [] ∧ completed_for 50 0 ex_waited_prom ex_io_thread [] (inr (Bytes 512))
      (io_world ex_waited) (io_world s'))) ex_waited.
Proof.
  apply (handler_completes_operation (ReadWriteHandler 50) (Completion 0 512 []) ex_waited 0
    ex_waited_prom ex_io_thread []); try reflexivity; [done|done|apply ex_io_queue].
Defined.

Definition ex_unwaited : io := Io (ex_io_world 9 {[ 50 := new_promise ]}) {[ 3 := 0%Z ]} [].

Lemma error_code_arrives_late_witness :
  ∃ s1, on_world (set_value 50 (Bytes 0)) ex_unwaited = (Ret tt, s1) ∧
    read_write_handler_ec 50 3 104 0 ex_unwaited = store_ec 3 104 s1 ∧
    on_world (promise_wait 50 microseconds_max) s1 = (Ret (Value (Bytes 0)), s1) ∧
    io_ec s1 !! 3 = io_ec ex_unwaited !! 3.
Proof. apply (error_code_arrives_late ex_unwaited 50 3 104 0 new_promise); reflexivity. Defined.

(** ** Actors: member 1 of an actor on thread 0, member 2 const, member 3 of none *)

Definition ex_member (c : bool) : member := Member (Some 60) 4 c.

Definition ex_actors (self : nat) : actors nat :=
  Actors (ex_io_world self ∅) {[ 60 := 0 ]}
    {[ 1 := ex_member false; 2 := ex_member true; 3 := Member None 4 false ]} ∅.

Definition ex_invoke (d : nat) (fp : list nat) : M (actors nat) exn nat :=
  mret (d + sum_list fp).

Lemma local_call_runs_at_once_witness :
  ∃ s2, call_member ex_invoke 1 [5; 6] (ex_actors 0) = (Ret 100, s2) ∧
    promise_wait 100 microseconds_max (a_world s2) = (Ret (Value 15), a_world s2) ∧
    w_task (a_world s2) = w_task (a_world (ex_actors 0)) ∧
    w_thr (a_world s2) = w_thr (a_world (ex_actors 0)).
Proof. apply (local_call_runs_at_once ex_invoke (ex_actors 0) 1 (ex_member false) [5; 6]); reflexivity. Defined.

Lemma remote_call_is_posted_witness :
  wp (call_member ex_invoke 2 [5]) (returns (λ p s', a_member s' = a_member (ex_actors 9) ∧
    ∃ st' tk kt i,
    queue_rep (w_task (a_world s')) st' (tk :: []) ∧
    w_thr (a_world s') = <[0 := st']> (w_thr (a_world (ex_actors 9))) ∧
    w_task (a_world s') !! tk = Some kt ∧ t_functor kt = UserFn i ∧ t_prom kt = Some p ∧
    ¬ is_ready (a_world s') p ∧
    (∀ s2, a_closure s2 = a_closure s' → a_member s2 = a_member s' →
      (assign 2 7;; run_closure ex_invoke i) s2 =
      (assign 2 7;; ex_invoke 7 [5]) s2))) (ex_actors 9).
Proof.
  apply (remote_call_is_posted ex_invoke (ex_actors 9) 2 (ex_member true) 60 0 7 ex_io_thread [] 1
    new_cmt_context [5]); try reflexivity; [done|apply ex_io_queue].
Defined.

(** ** A call through [async] on the idle thread: the function that throws *)

Lemma ex_user_throws : pure_fn ex_user 4 (inl (std_error 1)).
Proof. by intros w. Qed.

Lemma async_call_equals_call_witness :
  wp (p ← async 0 (UserFn 4) 7;
      next ← dequeue 0;
      t ← deref next;
      pt_run_task ex_user 0 0 t;;
      promise_wait p microseconds_max)
    (λ o _, o = match (ex_user 4 (ex_io_world 0 ∅)).1 with
      | Ret v => Ret (Value v)
      | Exc e => Exc e
      | Undef u => Undef u
      end) (ex_io_world 0 ∅).
Proof.
  apply (async_call_equals_call ex_user 0 (ex_io_world 0 ∅) 0 ex_io_thread 1 new_cmt_context 4
    (inl (std_error 1)) 7); try reflexivity.
  - apply ex_io_queue.
  - intros i. unfold now_at, io_clock, time_point_min. lia.
  - apply ex_user_throws.
Defined.

(** ** From a completed operation back to its waiter: context 1 waits for promise
    50, context 2 runs the loop of thread 0, thread 9 completes the promise *)

Definition ex_waiting_thread : thread_private :=
  ThreadPrivate None None [] [] [] false "main" (Some 2) None None (Some 1) 0.

Definition ex_waiting (self : nat) : world nat :=
  World {[ 1 := set_c_prom (Some 50) new_cmt_context; 2 := new_cmt_context ]}
    {[ 50 := set_m_blocked_thread (Some 0) new_promise ]} ∅ {[ 0 := ex_waiting_thread ]} self 0 0 100.

Lemma ex_waiting_running : running (ex_waiting 0) 0 ex_waiting_thread [] [1] 2.
Proof.
  assert (Hno : ∀ x, x ∉ ([] : list nat)) by by intros x ?%not_elem_of_nil.
  assert (Hctx : ∀ a, 100 ≤ a → w_ctx (ex_waiting 0) !! a = None).
  { intros a Ha. simpl. by rewrite lookup_insert_ne, lookup_singleton_ne by lia. }
  split; try done; [split; try done; [split; try done; try constructor|..]|..];
    try done; try (by intros ? ?%Hno); try apply Hno.
  - split; [done|]. by intros x ?%Hno.
  - by intros x ->%list_elem_of_singleton; eexists.
  - intros c ->%list_elem_of_singleton. by eexists 50, _.
  - intros c c' p Hc Hc'. rewrite app_nil_r in Hc, Hc'.
    by apply list_elem_of_singleton in Hc as ->; apply list_elem_of_singleton in Hc' as ->.
  - by intros ?%list_elem_of_singleton.
Qed.

Lemma completion_reaches_waiter_witness :
  wp (complete 50 (inr 7);;
      modify (set_w_self 0);;
      pt_steps ex_user 0 8 0 (PtWhile None))
    (returns (λ e w', ∃ pt, e = Jump (Switch 2 1 false) pt ∧
      wp (promise_wait_resume 0 1 50) (λ o _, o = Ret 7) w')) (ex_waiting 9).
Proof.
  apply (completion_reaches_waiter ex_user 0 (ex_waiting 9) 0 ex_waiting_thread [1] 2 50
    (set_m_blocked_thread (Some 0) new_promise) 1 (inr 7)); try reflexivity; try done.
  - apply ex_waiting_running.
  - by left.
Defined.
