(* ===== verification/ConcreteSignals.v ===== *)
(** Concrete inputs for the theorems on signals and threads: signals as one list
    of connections and a set of the blocked ones, an object with two listeners, and a
    member that mirrors its signal; a context that waits for a signal; a system
    thread that starts; synchronous calls. *)
From S2P Require Import Prelude StdHeap World ReadyList TaskQueue Notify Scheduler Blocking Quit Future RunTask ProcessTasks Delivery Calls Sync Thread Actor ActorForward ActorSignal SignalWait Concrete ConcreteIO.

#[local] Instance sig_clock : Clock := λ i, Z.of_nat (1000 + i).

(** ** A library of signals *)

Record slots := Slots {
  conns : list (nat * (nat * slot));               (* signal, connection, slot *)
  blocked_conns : gset nat;
}.

Definition slots_of (l : list (nat * (nat * slot))) (g : nat) : list (nat * slot) :=
  (filter (λ x, x.1 = g) l).*2.

#[local] Instance ex_signals : Signals slots := {
  connected l g := slots_of (conns l) g;
  is_blocked l c := bool_decide (c ∈ blocked_conns l);
  num_slots g l := length (slots_of (conns l) g);
  connect_slot g f l :=
    let c := base.fresh ((λ x, x.2.1) <$> conns l) in
    (c, Slots (conns l ++ [(g, (c, f))]) (blocked_conns l ∖ {[c]}));
  disconnect_slot c l := Slots (filter (λ x, x.2.1 ≠ c) (conns l)) (blocked_conns l);
  disconnect_all_slots g l := Slots (filter (λ x, x.1 ≠ g) (conns l)) (blocked_conns l);
  block_slot b c l := Slots (conns l)
    (if b then blocked_conns l ∪ {[c]} else blocked_conns l ∖ {[c]});
}.

Lemma slots_of_app l1 l2 g : slots_of (l1 ++ l2) g = slots_of l1 g ++ slots_of l2 g.
Proof. unfold slots_of. by rewrite filter_app, fmap_app. Qed.

Lemma slots_of_single g h cf : slots_of [(h, cf)] g = if decide (h = g) then [cf] else [].
Proof.
  unfold slots_of. case_decide; [by rewrite filter_cons_True|by rewrite filter_cons_False].
Qed.

Lemma slots_of_elem l g cf : cf ∈ slots_of l g → cf.1 ∈ (λ x, x.2.1) <$> l.
Proof.
  intros (x & -> & Hx)%list_elem_of_fmap. apply list_elem_of_filter in Hx as [_ Hx].
  apply list_elem_of_fmap. by exists x.
Qed.

Lemma slots_of_filter_con l g c :
  slots_of (filter (λ x, x.2.1 ≠ c) l) g = filter (λ cf, cf.1 ≠ c) (slots_of l g).
Proof.
  unfold slots_of. induction l as [|[h [d f]] l IH]; [done|].
  destruct (decide (h = g)), (decide (d = c));
    repeat (rewrite ?filter_cons_True, ?filter_cons_False, ?fmap_cons by (simpl; naive_solver)); simpl;
    rewrite ?filter_cons_True, ?filter_cons_False by (simpl; naive_solver); by rewrite <-?IH.
Qed.

Lemma slots_of_filter_sig l g g' :
  slots_of (filter (λ x, x.1 ≠ g) l) g' = if decide (g' = g) then [] else slots_of l g'.
Proof.
  unfold slots_of. rewrite list_filter_filter. case_decide as Hg.
  - subst. induction l as [|x l IH]; [done|]. by rewrite filter_cons_False by naive_solver.
  - f_equal. apply list_filter_iff. naive_solver.
Qed.

#[local] Instance ex_signals_spec : SignalsSpec slots.
Proof.
  split; simpl.
  - done.
  - intros l g f. set (c := base.fresh _).
    assert (Hc : c ∉ (λ x : nat * (nat * slot), x.2.1) <$> conns l) by apply infinite_is_fresh.
    split_and!.
    + by rewrite slots_of_app, slots_of_single, decide_True.
    + apply bool_decide_eq_false_2. set_solver.
    + intros g' Hg'. rewrite slots_of_app, slots_of_single, decide_False, app_nil_r by congruence. done.
    + intros g' Hin. apply Hc. apply list_elem_of_fmap in Hin as (cf & -> & Hin).
      by apply slots_of_elem in Hin.
    + intros c' Hc'. apply bool_decide_ext. set_solver.
  - intros l c. split; [|done]. intros g. apply slots_of_filter_con.
  - intros l g. split_and!; [|intros g' Hg'|done]; rewrite slots_of_filter_sig; by case_decide.
  - intros l b c. split; [done|]. destruct b; split.
    1, 3: apply bool_decide_eq_true_2 || apply bool_decide_eq_false_2; set_solver.
    all: intros c' Hc'; apply bool_decide_ext; set_solver.
Qed.

(** ** Member 1 mirrors signal 5, which has the listeners 30 and 31 *)

Definition ex_throws (f : nat) (fp : list nat) : option exn :=
  if decide (f = 31) then Some (std_error 7) else None.

Definition ex_arg (fp : list nat) : nat := List.hd 0 fp.

Definition ex_call (run : slot → M (sactors slots nat) exn unit) (g : nat) : M (sactors slots nat) exn unit :=
  λ s, call_slots run (slots_of (conns (sa_lib s)) g) s.

Definition ex_sig_member : sig_member := SigMember None None None None 6.

Definition ex_object : sactors slots nat :=
  SActors (ex_world 0 [] [] []) (Slots [(5, (1, UserSlot 30)); (5, (2, UserSlot 31))] ∅)
    {[ 70 := 0 ]} {[ 1 := ex_sig_member ]} ∅ [].

(** The member bound, with the listeners 40 and 41 of its own *)
Definition ex_bound : sactors slots nat :=
  ((sig_set_delegate 1 5 70;; sig_connect 1 40;; sig_connect 1 41) ex_object).2.

Definition ex_bound_member : sig_member :=
  SigMember (Some 70) None (Some (EmitOrThrow 5)) (Some (base.fresh [1; 2])) 6.

Lemma ex_bound_mirrors :
  mirrors false ex_bound 1 ex_bound_member 5 (base.fresh [1; 2]) [(1, UserSlot 30); (2, UserSlot 31)] [].
Proof.
  split; try (by vm_compute).
  - intros cf Hin. apply elem_of_cons in Hin as [->|Hin]; [|apply list_elem_of_singleton in Hin as ->];
      (split; [split; [by eexists|by vm_compute]|by vm_compute]).
  - change (connected (sa_lib ex_bound) (sm_signal ex_bound_member))
      with (slots_of (conns (sa_lib ex_bound)) 6).
    set (l := slots_of _ _). vm_compute in l. subst l. intros cf Hin.
    apply elem_of_cons in Hin as [->|Hin]; [|apply list_elem_of_singleton in Hin as ->];
      (split; [split; [by eexists|by vm_compute]|by vm_compute]).
Qed.

Lemma signal_call_delivers_once_witness :
  wp (call_signal ex_throws 0 ex_arg ex_call 1 1 [7]) (delivers ex_throws [40; 41] [30; 31] [7] ex_bound) ex_bound.
Proof.
  apply (signal_call_delivers_once ex_throws 0 ex_arg ex_call (λ _ _ _ _, eq_refl) 0 1 ex_bound_member 5
    (base.fresh [1; 2]) [(1, UserSlot 30); (2, UserSlot 31)] [] [7] ex_bound);
    [apply ex_bound_mirrors|reflexivity].
Defined.

Lemma emission_is_forwarded_witness :
  wp (emit_signal ex_throws 0 ex_arg ex_call 2 5 [7]) (says ex_throws [30; 31; 40; 41] [7] ex_bound) ex_bound.
Proof.
  apply (emission_is_forwarded ex_throws 0 ex_arg ex_call (λ _ _ _ _, eq_refl) 0 1 ex_bound_member 5
    (base.fresh [1; 2]) [(1, UserSlot 30); (2, UserSlot 31)] [] [7] ex_bound), ex_bound_mirrors.
Defined.

Lemma single_listener_is_not_called_witness :
  wp (sig_set_delegate 1 5 70;; sig_connect 1 40;; call_signal ex_throws 0 ex_arg ex_call 1 1 [7])
    (λ o s', sa_events s' = [Called 30 [7]; Called 31 [7]] ∧
      match o with
      | Ret p => is_ready (sa_world s') p
      | Exc e => Some (std_error 7) = Some e
      | Undef _ => False
      end) ex_object.
Proof.
  apply (single_listener_is_not_called ex_throws 0 ex_arg ex_call (λ _ _ _ _, eq_refl) 0 1 ex_sig_member 5 70
    40 [7] ex_object); try reflexivity; try discriminate.
  intros cf Hin. apply elem_of_cons in Hin as [->|Hin]; [|apply list_elem_of_singleton in Hin as ->];
    (split; [by eexists|reflexivity]).
Defined.

(** ** Context 4 of thread 0 waits, by promise 10, for signal 5; context 1 emits it *)

Definition ex_waits_for_signal : sactors slots nat :=
  SActors (ex_world 0 [2; 3] [4] []) (Slots [(5, (1, SetValueSlot 10))] ∅) ∅ ∅ ∅ [].

Lemma signal_wait_returns_argument_witness :
  wp (emit_signal ex_throws 0 ex_arg ex_call 1 5 [7];;
      sw ← on_world (yield 0);
      signal_wait_resume 0 (sw_next sw) 10 1)
    (returns (λ v s', v = 7 ∧ connected (sa_lib s') 5 = [] ∧
      ∃ st' b', running (sa_world s') 0 st' [2; 3; 1] b' 4)) ex_waits_for_signal.
Proof.
  apply (signal_wait_returns_argument ex_throws 0 ex_arg ex_call (λ _ _ _ _, eq_refl) 0 5 1 10
    ex_waits_for_signal 0 (ex_thread [2; 3] [4] []) [2; 3] [] 4 [] 1
    (set_m_blocked_thread (Some 0) new_promise) [7]); try reflexivity.
  - apply ex_running. unfold ex_lists. auto.
  - by intros y ?%elem_of_nil.
Defined.

(** ** System thread 8 starts; thread 0 waits for promise 10 *)

Definition ex_cast (a : nat) : string := "address"%string.

Definition ex_starting : threads nat :=
  Threads (ex_world 0 [] [] []) {[ 7 := 0 ]} 8 {[ 90 := (10, 80) ]} {[ 80 := "worker"%string ]}.

Lemma ex_starting_fresh : fresh_above (th_world ex_starting).
Proof.
  intros a Ha. simpl in *. split; [by rewrite lookup_singleton_ne by lia|].
  unfold ex_tasks, ex_prom. by rewrite !lookup_insert_ne by lia.
Qed.

(** ** Context 1 of thread 0, which runs alone, calls [create] *)

Definition ex_alone : thread_private :=
  ThreadPrivate None None [] [] [] false "main" (Some 1) None None None 0.

Definition ex_alone_world prom tk (thr : gmap nat thread_private) : world nat :=
  World {[ 1 := new_cmt_context ]} prom tk thr 0 0 0 100.

Lemma ex_alone_running prom tk thr :
  thr !! 0 = Some ex_alone → running (ex_alone_world prom tk thr) 0 ex_alone [] [] 1.
Proof.
  intros Hthr.
  assert (Hno : ∀ x, x ∉ ([] : list nat)) by by intros x ?%not_elem_of_nil.
  split; try done; [split; try done; [split; try done; try constructor|..]|..];
    try done; try (by intros ? ?%Hno); try apply Hno.
  - split; [done|]. by intros x ?%Hno.
  - by intros c c' p ?%Hno.
  - intros a Ha. simpl in *. by rewrite lookup_singleton_ne by lia.
Qed.

Definition ex_creating : threads nat :=
  Threads (ex_alone_world ∅ ∅ {[ 0 := ex_alone ]}) {[ 7 := 0 ]} 7 ∅ {[ 80 := "worker"%string ]}.

Lemma ex_creating_inj : local_inj ex_creating.
Proof.
  split; simpl.
  - intros o o' t Ho Ho'. apply lookup_singleton_Some in Ho as [<- _].
    by apply lookup_singleton_Some in Ho' as [<- _].
  - intros o t Ho. apply lookup_singleton_Some in Ho as [_ <-]. lia.
Qed.

Lemma create_returns_new_thread_witness :
  wp ('(p, bt, wt) ← create ex_cast 80;
      on_world (pt_enter 0);;
      boost_thread_runs ex_cast id 8 bt;;
      r ← creator_resumes id (λ n, mret n) 0 7 0 1 p bt;
      mret (bt, wt, r))
    (returns (λ r s', ∃ bt c ct pt, r = (bt, Blocked (Switch 1 c true), (Jump (Switch c 1 false) pt, ct)) ∧
      w_thr (th_world ex_creating) !! ct = None ∧ th_local s' = <[8 := ct]> {[ 7 := 0 ]} ∧
      (∀ o', th_local ex_creating !! o' ≠ Some ct) ∧
      w_thr (th_world s') !! ct = Some (set_boost_thread (Some bt) (new_thread_private "worker")))) ex_creating.
Proof.
  apply (create_returns_new_thread ex_cast id id (λ n, mret n) 0 ex_creating 0 80 "worker"%string ex_alone [] 1 8);
    try reflexivity; try done.
  - apply ex_creating_inj.
  - intros a Ha. simpl in *. by rewrite lookup_singleton_ne by lia.
  - by apply ex_alone_running.
Defined.

(** ** The same context makes a synchronous call on its own thread *)

Lemma async_and_wait_equals_call_witness :
  wp (async_and_wait (λ n, mret n) 0 0 (UserFn 7) 0) (λ o w',
    o = Ret 7 ∧ w_task w' = ∅ ∧ delete 100 (w_prom w') = ∅) (ex_alone_world ∅ ∅ {[ 0 := ex_alone ]}).
Proof.
  eapply wp_mono, (async_and_wait_equals_call (λ n, mret n) 0 (ex_alone_world ∅ ∅ {[ 0 := ex_alone ]}) 0 ex_alone []
    1 new_cmt_context 7 (inr 7) 0); try reflexivity; try done. by apply ex_alone_running.
Defined.

(** The same thread before it has entered [exec] *)
Definition ex_outside : thread_private := set_current None ex_alone.

Lemma async_and_wait_before_exec_witness :
  wp (async_and_wait (λ n, mret n) 0 0 (UserFn 7) 0) (λ o w',
    o = Ret 7 ∧ w_task w' = ∅ ∧ delete 100 (w_prom w') = ∅)
    (set_w_ctx ∅ (ex_alone_world ∅ ∅ {[ 0 := ex_outside ]})).
Proof.
  by eapply wp_mono, (async_and_wait_before_exec (λ n, mret n) 0 (set_w_ctx ∅ (ex_alone_world ∅ ∅ {[ 0 := ex_outside ]}))
    0 ex_outside 7 (inr 7) 0).
Defined.

Lemma sync_on_own_thread_equals_call_witness :
  wp (to_return (λ n, mret n) 0 0 (sync_prio 0 (UserFn 7) 0 microseconds_max)) (λ o w',
    o = Ret 7 ∧ w_prom w' = ∅ ∧ w_task w' = ∅) (ex_alone_world ∅ ∅ {[ 0 := ex_alone ]}).
Proof.
  eapply wp_mono, (sync_on_own_thread_equals_call (λ n, mret n) 0 (ex_alone_world ∅ ∅ {[ 0 := ex_alone ]}) 0 ex_alone []
    1 new_cmt_context 7 (inr 7) 0 (sync_prio 0 (UserFn 7) 0 microseconds_max));
    try reflexivity; try done; [by left|by apply ex_alone_running].
Defined.

(** ** Promise 50 and task 60 live in the frame of a call from thread 0 *)

Definition ex_call_task : task := Task time_point_min false 1 0 None None (UserFn 7) (Some 50) 2.

Lemma frame_ends_before_task_witness :
  wp (complete 50 (inr 7);;
      modify (set_w_self 0);;
      pt_steps (λ n, mret n) 0 8 0 (PtWhile None))
    (returns (λ e w', ∃ pt, e = Jump (Switch 2 1 false) pt ∧
      wp (sync_resume 0 1 50 60) (λ o w'', o = Ret 7 ∧ (pt_task_done 60 w'').1 = Undef BadPointer) w'))
    (set_w_task {[ 60 := ex_call_task ]} (ex_waiting 9)).
Proof.
  apply (frame_ends_before_task (λ n, mret n) 0 (set_w_task {[ 60 := ex_call_task ]} (ex_waiting 9)) 0
    ex_waiting_thread [1] 2 50 (set_m_blocked_thread (Some 0) new_promise) 1 (inr 7) 60 ex_call_task);
    try reflexivity; try done.
  - apply (running_set_task (ex_waiting 0)); [apply ex_waiting_running|done].
  - by left.
Defined.

Definition ex_failed_call : world nat :=
  ex_alone_world {[ 50 := set_m_error (Some future_wait_timeout) new_promise ]} {[ 60 := ex_call_task ]}
    (<[ 3 := set_task_in_queue (Some 60) ex_alone ]> {[ 0 := ex_alone ]}).

Lemma failed_sync_leaves_task_posted_witness :
  wp (sync_resume 0 1 50 60)
    (λ o w', o = Exc future_wait_timeout ∧ (dequeue 3 w').1 = Undef BadPointer) ex_failed_call.
Proof.
  apply (failed_sync_leaves_task_posted ex_failed_call 0 ex_alone [] [] 1 50 60
    (set_m_error (Some future_wait_timeout) new_promise) ex_call_task future_wait_timeout 3
    (set_task_in_queue (Some 60) ex_alone) [60]); try reflexivity; try done.
  - by apply ex_alone_running.
  - split; [done| |apply is_heap_nil|apply is_heap_nil].
    intros x ->%list_elem_of_singleton. by eexists.
  - by left.
Defined.

Lemma name_is_read_after_create_returns_witness :
  wp (start_announce ex_cast id 10;; ct ← create_finish 90 100; name ct)
    (returns (λ str s', str = "address"%string ∧
      m_value <$> w_prom (th_world s') !! 10 = Some (Some 100) ∧
      ∀ l, th_cstr s' !! 80 = Some l →
        (modify (λ s, Threads (th_world s) (th_local s) (th_os s) (th_started s) (delete 80 (th_cstr s)));;
         start_name ex_cast 80) s' =
        (Undef BadPointer, Threads (th_world s') (th_local s') (th_os s') (th_started s')
          (delete 80 (th_cstr s'))))) ex_starting.
Proof.
  apply (name_is_read_after_create_returns ex_cast id ex_starting 0 10 80 90
    (set_m_blocked_thread (Some 0) new_promise) (ex_thread [] [] []) [21; 20]); try reflexivity.
  - apply ex_starting_fresh.
  - apply ex_queue_rep; auto.
Defined.

(** ** Actors of actors: member 1 of actor 61, on thread 0, is bound to member 2 of actor 60,
    which lives on the thread [t] *)

Definition ex_bound_world : world nat :=
  entered (World {[ 2 := new_cmt_context ]} ∅ ∅
    {[ 0 := ex_outside; 9 := set_current (Some 2) ex_alone ]} 0 0 0 100) 0 ex_outside.

Definition ex_forwarding (t : nat) : forwarding nat :=
  Forwarding (Actors ex_bound_world {[ 61 := 0; 60 := t ]}
    {[ 1 := Member (Some 61) 7 false; 2 := Member (Some 60) 4 false ]} ∅) {[ 7 := 2 ]} 8.

Lemma ex_bound_to t : bound (ex_forwarding t) 1 1 2.
Proof. by apply (bound_on _ 1 (Member (Some 61) 7 false) 2); [..|apply bound_here]. Qed.

(** Actor 62 is made from 61, and 61 from 60, which was made from an object. *)
Definition ex_layers : list (nat * list (nat * nat)) := [(62, [(3, 1)]); (61, [(1, 2)])].

Definition ex_unbound : forwarding nat :=
  Forwarding (Actors ex_bound_world {[ 60 := 0 ]}
    {[ 1 := Member None 0 false; 2 := Member (Some 60) 4 false; 3 := Member None 0 false ]} ∅) ∅ 8.

Lemma bound_call_equals_call_witness :
  wp (make_actors 0 ex_layers) (returns (λ _ s', ∃ f s'',
    call_any ex_invoke 3 3 [5; 6] s' = (Ret (Returned f), s'') ∧ holds_value s'' f 15)) ex_unbound.
Proof.
  apply (bound_call_equals_call ex_invoke ex_unbound ex_layers 3 2 2 (Member (Some 60) 4 false) [5; 6]); try done.
  - cbn. repeat constructor; set_solver.
  - cbn. intros x. rewrite !elem_of_cons, elem_of_nil. intros [->|[->|[]]]; eexists; reflexivity.
  - cbn. set_solver.
  - simpl. lia.
Defined.

Lemma bound_call_suspends_witness :
  wp (call_any ex_invoke 2 1 [5; 6]) (returns (λ o s', ∃ sw p a1 st1 r1 b1,
    call_member ex_invoke 2 [5; 6] (fa_actors (ex_forwarding 9)) = (Ret p, a1) ∧ ¬ is_ready (a_world a1) p ∧
    o = Suspended sw p 1 ∧ sw_prev sw = 100 ∧
    running (fa_world s') 0 st1 (tail r1) b1 (sw_next sw) ∧
    100 ∈ b1 ∧ prom_of (w_ctx (fa_world s')) 100 = Some p)) (ex_forwarding 9).
Proof.
  apply (bound_call_suspends ex_invoke (ex_forwarding 9) 1 0 2 (Member (Some 60) 4 false) 60 9
    (set_current (Some 2) ex_alone) [] 2 new_cmt_context [5; 6] 0 [] [] 100 (set_current (Some 100) ex_outside));
    try reflexivity; try done.
  - apply ex_bound_to.
  - by apply idle_queue_rep.
  - by apply entered_running; try done; intros a Ha; apply lookup_singleton_ne; simpl in Ha; lia.
Defined.
