(* ===== verification/ConcreteLog.v ===== *)
(** A concrete Boost.Format, which knows the directive [%1%], and log statements on it:
    one that is printed, one whose arguments throw, one with an argument missing. *)
From Stdlib Require Import Ascii.
From S2P Require Import Prelude World Thread Log.

#[local] Open Scope string_scope.

(** An argument is a string, or throws when it is printed. *)
Definition ex_arg : Type := string + exn.

(** [%1%] replaced by the first argument, if there is one *)
Fixpoint ex_subst (s : string) (d : option string) : option string :=
  match s with
  | EmptyString => Some EmptyString
  | String a s' =>
      match s' with
      | String b (String c r) =>
          if bool_decide (a = "%"%char ∧ b = "1"%char ∧ c = "%"%char) then
            t ← d; rest ← ex_subst r d; Some (t +:+ rest)
          else String a <$> ex_subst s' d
      | _ => String a <$> ex_subst s' d
      end
  end.

#[export] Instance ex_format {T} : Format (logging T) ex_arg (string * option string) := {
  format str := mret (str, None);
  feed f p := match p with
    | inl d => mret (f.1, Some d)
    | inr e => throw e
    end;
  print f := match ex_subst f.1 f.2 with
    | Some txt => mret txt
    | None => throw (std_error 3)            (* boost::io::too_few_args *)
    end;
  str_arg := inl;
}.

Lemma ex_subst_step a s d :
  bool_decide (a = "%"%char) = false → ex_subst (String a s) d = String a <$> ex_subst s d.
Proof.
  intros Ha%bool_decide_eq_false. simpl. destruct s as [|b [|c r]]; [done..|].
  rewrite bool_decide_false; naive_solver.
Qed.

Lemma ex_subst_last txt d :
  has_char "%" txt = false → ex_subst (txt +:+ "%1%") (Some d) = Some (txt +:+ d).
Proof.
  induction txt as [|a txt IH].
  - intros _. by rewrite <-(string_app_nil_r d) at 2.
  - cbn [has_char]. intros [Ha Ht]%orb_false_iff.
    change (String a txt +:+ "%1%") with (String a (txt +:+ "%1%")).
    by rewrite ex_subst_step, IH.
Qed.

#[export] Instance ex_format_spec {T} : FormatSpec T ex_arg (string * option string).
Proof.
  split.
  - intros str. apply quiet_ret.
  - intros f. simpl. destruct (ex_subst f.1 f.2); by split.
  - intros d txt Ht. exists (txt +:+ "%1%", None), (txt +:+ "%1%", Some d).
    intros s. repeat split. simpl. by rewrite ex_subst_last.
Qed.

(** System thread 7 runs as the thread 0, named "main"; nothing has been logged. *)
Definition ex_logging : logging nat :=
  Logging (Threads (set_w_thr {[ 0 := new_thread_private "main" ]} (World ∅ ∅ ∅ ∅ 0 0 0 1))
    {[ 7 := 0 ]} 7 ∅ ∅) (Ostream EmptyString 0 false) false.

Definition ex_cast_log (n : nat) : string := "address".
Definition ex_diagnostics (e : exn) : string := default "error" (what e).

Definition ex_logs (va_args : M (logging nat) exn (log_args ex_arg)) : string :=
  os_text (cerr (slog (F:=string * option string) ex_cast_log ex_diagnostics false true
    "src/src/thread.cpp" 229 "start_next_task" va_args ex_logging).2).

Example ex_logs_message :
  ex_logs (mret (LogFormat "+6] %1%" [inl "6"])) =
    "main       thread.cpp:229 start_next_task] +6] 6" +:+ newline.
Proof. vm_compute. reflexivity. Qed.

(** The arguments wait, and are told to quit. *)
Example ex_logs_quit :
  ex_logs (throw thread_quit) =
    "main       thread.cpp:229 start_next_task] Invalid logs: thread quit" +:+ newline.
Proof. vm_compute. reflexivity. Qed.

(** Too few arguments are noticed when the header is written. *)
Example ex_logs_too_few :
  ex_logs (mret (LogFormat "+6] %1%" [])) =
    "main       thread.cpp:229 start_next_task] main       thread.cpp:229 start_next_task] " +:+
    "Invalid logs: error" +:+ newline.
Proof. vm_compute. reflexivity. Qed.

(** The output operator of the second argument throws. *)
Definition ex_statement : M (logging nat) exn (log_args ex_arg) :=
  mret (LogFormat "%1%" [inl "6"; inr thread_quit]).

Lemma log_statement_leaves_line_witness :
  wp (log_macro (F:=string * option string) ex_cast_log ex_diagnostics true false (Style DEFAULT)
      "src/src/thread.cpp" 229 "start_next_task" ex_statement)
    (returns (λ _ s', log_mutex s' = false ∧ current_name s' = Some "main" ∧
      ∃ base r s1 txt, short_name "src/src/thread.cpp" = Some base ∧
        ex_statement ex_logging = (r, s1) ∧ cerr s' = appended (cerr s1) txt ∧
        logged (T:=nat) (F:=string * option string) ex_diagnostics true (Style DEFAULT) "main" base
          229 "start_next_task" (cerr s1) r txt)) ex_logging.
Proof.
  apply (log_statement_leaves_line ex_cast_log ex_diagnostics true false (Style DEFAULT)
    "src/src/thread.cpp" 229 "start_next_task" "main" ex_logging ex_statement); [by vm_compute|].
  repeat split; try reflexivity. intros a [= <-]. simpl. by repeat constructor.
Defined.

Lemma plain_line_is_coloured_line_stripped_witness :
  let written colors := wp (log_text ex_cast_log colors true (console_code colors (Foreground RED))
    "src/src/thread.cpp" 326 "process_tasks" "exit process tasks") in
  written true (returns (λ _ s1, written false (returns (λ _ s2,
    os_text (cerr s2) = strip false (os_text (cerr s1)))) ex_logging)) ex_logging.
Proof.
  apply (plain_line_is_coloured_line_stripped ex_cast_log true (Foreground RED) "src/src/thread.cpp"
    326 "process_tasks" "exit process tasks" "main" ex_logging); by vm_compute.
Defined.
