(* ===== verification/ConcreteLoop.v ===== *)
(** Whole runs. Three tasks posted to a thread that has nothing else to do: 63 was posted last and has
    the highest priority, 61 and 62 have the same one. The second one's function throws. *)
From Stdlib Require Import Sorting.Sorted.
From S2P Require Import Prelude StdHeap World ReadyList TaskQueue Notify Scheduler Blocking Quit Future RunTask ProcessTasks Delivery LoopRun LoopYield Calls TwoThreads.

#[local] Instance loop_clock : Clock := λ i, Z.of_nat (1000 + Nat.min i 1000).

Definition ex_functions (id : nat) : M (world nat) exn nat :=
  if bool_decide (id = 8) then throw (std_error 1) else mret (10 * id).

(** Task [60 + i], posted as the [i]th, for the function [6 + i] and the promise [50 + i] *)
Definition ex_posted (i : nat) (prio : Z) (next : ptr) : task :=
  Task time_point_min false (Z.of_nat i) prio next None (UserFn (6 + i)) (Some (50 + i)) 1.

Definition ex_loop_thread : thread_private :=
  ThreadPrivate None (Some 63) [] [] [] false "main" (Some 1) None None None 0.

Definition ex_loop : world nat :=
  World {[ 1 := new_cmt_context ]} {[ 51 := new_promise; 52 := new_promise; 53 := new_promise ]}
    {[ 61 := ex_posted 1 0 None; 62 := ex_posted 2 0 (Some 61); 63 := ex_posted 3 5 (Some 62) ]}
    {[ 0 := ex_loop_thread ]} 0 0 3 100.

Definition ex_ran : outcome exn (list nat * pt_event) * world nat :=
  pt_ran ex_functions 0 11 0 (PtWhile None) ex_loop.

Example ex_ran_order : ex_ran.1 = Ret ([63; 61; 62], Sleep None (PtWhile None)).
Proof. vm_compute. reflexivity. Qed.

Example ex_ran_values :
  (λ k, (m_error k, m_value k)) <$> (w_prom ex_ran.2 !! 51) = Some (None, Some 70) ∧
  (λ k, (m_error k, m_value k)) <$> (w_prom ex_ran.2 !! 52) = Some (Some (std_error 1), None) ∧
  (λ k, (m_error k, m_value k)) <$> (w_prom ex_ran.2 !! 53) = Some (None, Some 90).
Proof. vm_compute. done. Qed.

Definition ex_outcome (i : nat) : exn + nat :=
  if bool_decide (i = 2) then inl (std_error 1) else inr (10 * (6 + i)).

Lemma ex_job i prio next :
  i ∈ [1; 2; 3] → w_task ex_loop !! (60 + i) = Some (ex_posted i prio next) →
  job ex_functions ex_loop (60 + i) (ex_posted i prio next) (50 + i) new_promise (6 + i) (ex_outcome i).
Proof.
  intros Hi Ht.
  split; try done; revert Ht; rewrite !elem_of_cons in Hi;
    destruct Hi as [->|[->|[->|Hi]]]; try (by apply not_elem_of_nil in Hi); done.
Qed.

Lemma ex_jobs : jobs ex_functions ex_loop [63; 62; 61].
Proof.
  split.
  - by apply (bool_decide_unpack _).
  - intros x Hx. rewrite !elem_of_cons in Hx.
    destruct Hx as [->|[->|[->|Hx]]]; [| | |by apply not_elem_of_nil in Hx].
    + eexists _, _, _, _, _. apply (ex_job 3 5 (Some 62)); [|done]. by apply (bool_decide_unpack _).
    + eexists _, _, _, _, _. apply (ex_job 2 0 (Some 61)); [|done]. by apply (bool_decide_unpack _).
    + eexists _, _, _, _, _. apply (ex_job 1 0 None); [|done]. by apply (bool_decide_unpack _).
  - intros x y kx ky Hx Hy. rewrite !elem_of_cons in Hx, Hy.
    destruct Hx as [->|[->|[->|Hx]]]; [| | |by apply not_elem_of_nil in Hx];
      (destruct Hy as [->|[->|[->|Hy]]]; [| | |by apply not_elem_of_nil in Hy]);
      intros Hkx Hky; vm_compute in Hkx, Hky; by simplify_eq.
Qed.

Lemma loop_runs_everything_posted_witness :
  wp (pt_ran ex_functions 0 11 0 (PtWhile None)) (returns (λ r w',
    r.2 = Sleep None (PtWhile None) ∧ r.1 ≡ₚ [63; 62; 61] ∧
    StronglySorted (runs_before (w_task ex_loop)) r.1 ∧
    all_run ex_functions ex_loop w' [63; 62; 61] ∧
    w_thr w' = <[0 := with_pqueue [] ex_loop_thread]> (w_thr ex_loop))) ex_loop.
Proof.
  assert (Hq : queue_rep (w_task ex_loop) ex_loop_thread [63; 62; 61]).
  { split; [done| |apply is_heap_nil..].
    intros x Hx. destruct (js_job _ _ _ ex_jobs x Hx) as (kt & p & kp & id & r & Hj).
    exists kt. apply Hj. }
  apply (loop_runs_everything_posted ex_functions 0 ex_loop 0 ex_loop_thread [63; 62; 61]);
    [done|done|exact Hq|exact ex_jobs|].
  intros i. unfold now_at, loop_clock, time_point_min. lia.
Defined.

(** Thread 0, in the context 1, calls a function of thread 1, which sleeps in the context 2. *)
Definition ex_thread (c : nat) : thread_private :=
  ThreadPrivate None None [] [] [] false "t" (Some c) None None None 0.

Definition ex_two : world nat :=
  World {[ 1 := new_cmt_context; 2 := new_cmt_context ]} ∅ ∅ {[ 0 := ex_thread 1; 1 := ex_thread 2 ]} 0 0 0 100.

Definition ex_two_starts : config nat := Config ex_two CallPost (LoopAsleep None (PtWhile None)).

Definition ex_two_runs (id : nat) (sched : list who) : option (config nat) :=
  interleave ex_functions 0 0 1 (UserFn id) 0 sched ex_two_starts.

(** The caller first goes as far as it can, then the callee, then the caller. *)
Definition ex_in_turn : list who :=
  replicate 7 Caller ++ replicate 10 Callee ++ replicate 10 Caller.

(** The callee runs the function before the caller waits. *)
Definition ex_no_wait : list who :=
  Caller :: replicate 10 Callee ++ [Caller].

Example ex_in_turn_value : cf_caller <$> ex_two_runs 7 ex_in_turn = Some (CallDone (inr 70)).
Proof. vm_compute. reflexivity. Qed.

Example ex_in_turn_throws : cf_caller <$> ex_two_runs 8 ex_in_turn = Some (CallDone (inl (std_error 1))).
Proof. vm_compute. reflexivity. Qed.

Example ex_no_wait_value : cf_caller <$> ex_two_runs 7 ex_no_wait = Some (CallDone (inr 70)).
Proof. vm_compute. reflexivity. Qed.

Lemma ex_two_running : running ex_two 0 (ex_thread 1) [] [] 1.
Proof.
  assert (Hno : ∀ x, x ∉ ([] : list nat)) by by intros x ?%not_elem_of_nil.
  split; try done; [split; try done; [split; try done; try constructor|..]|..];
    try done; try (by intros ? ?%Hno); try apply Hno.
  - split; [done|]. by intros x ?%Hno.
  - by intros c c' p ?%Hno.
  - intros a Ha. simpl in *. by rewrite lookup_insert_ne, lookup_singleton_ne by lia.
Qed.

Lemma ex_can_call : can_call ex_functions 0 1 1 7 (inr 70) ex_two (ex_thread 1) (ex_thread 2) [].
Proof.
  split; try reflexivity; try done.
  - split; [apply ex_two_running|done].
  - by eexists 2, _.
  - intros i. unfold now_at, loop_clock, time_point_min, time_point_max. lia.
Qed.

Lemma remote_call_equals_call_witness :
  ∃ cf, ex_two_runs 7 ex_in_turn = Some cf ∧ (∀ i, enabled 0 1 i cf = false) ∧
    length ex_in_turn ≤ 45 ∧ call_ended (inr 70) ex_two cf.
Proof.
  assert (Hst : (λ cf, (enabled 0 1 Caller cf, enabled 0 1 Callee cf)) <$> ex_two_runs 7 ex_in_turn =
    Some (false, false)) by (vm_compute; reflexivity).
  destruct (ex_two_runs 7 ex_in_turn) as [cf|] eqn:Hcf; [|discriminate].
  assert (Hno : ∀ i, enabled 0 1 i cf = false) by (injection Hst as H1 H2; by intros []).
  unfold ex_two_runs, ex_two_starts in Hcf.
  destruct (remote_call_equals_call ex_functions 0 0 1 1 7 (inr 70) ex_two (ex_thread 1) (ex_thread 2) [] 0 0
    (LoopAsleep None (PtWhile None)) ex_in_turn cf ex_can_call idle_asleep Hcf) as (Hlen & _ & Hend).
  exists cf. split; [done|]. split; [exact Hno|]. split; [exact Hlen|exact (Hend Hno)].
Defined.

(** The context of thread 0 yields twice. *)
Example ex_two_yields : (two_yields ex_functions 0 0 ex_two).1 =
  Ret (Switch 1 100 true, Jump (Switch 100 1 false) (PtYielded 100 time_point_max),
    (Switch 1 100 false, Sleep None (PtWhile None))).
Proof. vm_compute. reflexivity. Qed.

Lemma second_yield_sleeps_witness :
  wp (two_yields ex_functions 0 0) (returns (λ r w',
    r.2 = (Switch 1 100 false, Sleep None (PtWhile None)) ∧
    ∃ s', running w' 0 s' [1] [] 100 ∧ idle s')) ex_two.
Proof.
  eapply wp_mono, (second_yield_sleeps ex_functions 0 ex_two 0 (ex_thread 1) [] 1 new_cmt_context ex_two_running);
    [|by split_and!|done..].
  intros [r|?|?] w'; try done. intros (-> & s' & ? & ? & _). split; [done|]. by exists s'.
Defined.
