(* ===== verification/ConcreteFibres.v ===== *)
(** A thread that posts a function to itself and enters its loop: the function posts two
    others and waits for their results; the second one, of higher priority, fails. Then a
    history of the thread of [Concrete.v] with a context that waits and one that sleeps, and
    one of a task that is canceled while it is suspended. *)
From S2P Require Import Prelude StdHeap World ReadyList TaskQueue Notify Scheduler Blocking Quit Future RunTask ProcessTasks Delivery Calls Fibres ThreadMachine SchedInvariant Cancel Concrete.

#[local] Instance fibres_clock : Clock := λ i, Z.of_nat (1000 + Nat.min i 1000).

Definition ex_body (id : nat) : prog nat :=
  match id with
  | 0 => PAsync 1 0 (λ a, PAsync 2 5 (λ b, PWait a (λ r, PWait b (λ r', PReturn (if r' is inl _ then r else r')))))
  | 1 => PNew (λ q, PSet q (inr 1) (PYield (PWait q (λ _, PReturn (inr 10)))))
  | _ => PReturn (inl (std_error 7))
  end.

Definition lone_thread : thread_private :=
  ThreadPrivate None None [] [] [] false "main" (Some 1) None None None 0.

Definition lone_world : world nat :=
  World {[ 1 := new_cmt_context ]} ∅ ∅ {[ 0 := lone_thread ]} 0 0 0 100.

(** [async] and [exec]: the machine, and the thread *)
Definition ex_machine : machine nat :=
  post_task 0 0 (Machine (Some (1, Entering)) [] ∅ ∅ ∅ [] 0 100).

Definition ex_posts (n : nat) : M (world nat) exn (run_state (T := nat)) :=
  async 0 (UserFn 0) 0;;
  run_steps ex_body (λ _, mret 0) 0 n 0 (Some (1, Entering), ∅).

Definition ex_end : option (machine nat) := machine_steps ex_body 40 ex_machine.

(** The thread sleeps; the waiter has found both results. The loops that yielded stay ready. *)
Example ex_end_seen : (λ m, (fst <$> f_run m, (f_ready m).*1, f_prom m !! 100, f_prom m !! 102, f_prom m !! 104)) <$> ex_end =
  Some (None, [106; 1], Some (Settled (inr 10)), Some (Settled (inr 10)), Some (Settled (inl (std_error 7)))).
Proof. vm_compute. reflexivity. Qed.

Example ex_posts_store :
  let w := (ex_posts 40 lone_world).2 in
  (λ k, (m_value k, m_error k)) <$> (w_prom w !! 100) = Some (Some 10, None) ∧
  (λ s, (current s, ready_head s, task_in_queue s, task_pqueue s)) <$> (w_thr w !! 0) = Some (Some 108, Some 106, None, []).
Proof. vm_compute. done. Qed.

Lemma lone_running : running lone_world 0 lone_thread [] [] 1.
Proof.
  assert (Hno : ∀ x, x ∉ ([] : list nat)) by by intros x ?%not_elem_of_nil.
  split; try done; [split; try done; [split; try done; try constructor|..]|..];
    try done; try (by intros ? ?%Hno); try apply Hno.
  - split; [done|]. by intros x ?%Hno.
  - by intros c c' p ?%Hno.
  - intros a Ha. simpl in *. by rewrite lookup_singleton_ne by lia.
Qed.

Lemma thread_implements_machine_witness :
  ∃ m, ex_end = Some m ∧ wp (ex_posts 40) (returns (λ f w', represents 0 m w' f)) lone_world.
Proof.
  assert (is_Some ex_end) as [m Hm] by (vm_compute; by eexists).
  exists m. split; [done|]. unfold ex_posts. rewrite wp_bind.
  pose proof (new_thread_rep 0 lone_world lone_thread 1 lone_running ltac:(by split_and!)
    eq_refl eq_refl ltac:(done) ltac:(by intros)) as Hs.
  eapply wp_mono, (step_async 0 _ _ _ _ _ _ _ 0 0 Hs); [|done..].
  intros [p|?|?] w'; [|intros []..]. intros (-> & Hctx & s' & Ht).
  eapply thread_implements_machine; [|exact Hm|].
  - intros i. unfold now_at, fibres_clock, time_point_min, time_point_max. lia.
  - eapply represents_at; [done|exact Ht|]. by rewrite Hctx.
Defined.

(** Context 1 makes the promise 100 and waits for it; 2 completes the promise of 4 and
    yields; 4 goes to sleep, and 3 runs. *)
Definition ex_w1 : world nat := (run_op 0 InYield OpNewPromise (ex_world 0 [2; 3] [4] [5])).2.
Definition ex_w2 : world nat := (run_op 0 InYield (OpWait 100 time_point_max) ex_w1).2.
Definition ex_w3 : world nat := (run_op 0 InYield (OpComplete 10 (inr 7)) ex_w2).2.
Definition ex_w4 : world nat := (run_op 0 InWait OpYield ex_w3).2.
Definition ex_w5 : world nat := (run_op 0 InYield (OpSleepUntil 1800) ex_w4).2.

Example ex_w5_lists : (λ s, (current s, ready_head s, blocked s, sleep_pqueue s)) <$> w_thr ex_w5 !! 0 =
  Some (Some 3, Some 2, Some 1, [4; 5]).
Proof. vm_compute. reflexivity. Qed.

Lemma no_context_waits {T} (w : world T) p :
  bool_decide (map_Forall (λ _ k, c_prom k ≠ Some p) (w_ctx w)) = true → ∀ c, prom_of (w_ctx w) c ≠ Some p.
Proof.
  intros Hall%bool_decide_eq_true c. unfold prom_of. destruct (w_ctx w !! c) as [k|] eqn:Hk; [|done]. apply (Hall c k Hk).
Qed.

Lemma thread_stays_well_formed_witness :
  well_formed 0 ex_w5 ∧ (run_op 0 InYield OpYield ex_w5).1 ≠ Undef AssertFailed.
Proof.
  destruct (thread_stays_well_formed 0 (ex_world 0 [2; 3] [4] [5]) ex_w5) as [Hwf Hsafe].
  - eexists _, _, _, _. apply ex_running. unfold ex_lists. auto.
  - apply (rtc_l _ _ ex_w1); [by eapply (sched_op_step 0 InYield OpNewPromise); [|apply surjective_pairing]|].
    apply (rtc_l _ _ ex_w2); [eapply (sched_op_step 0 InYield (OpWait 100 time_point_max)); [|apply surjective_pairing]|].
    { split; [by eexists|split; [apply no_context_waits; vm_compute; reflexivity|]].
      left. split; [done|]. vm_compute. discriminate. }
    apply (rtc_l _ _ ex_w3); [eapply (sched_op_step 0 InYield (OpComplete 10 (inr 7))); [|apply surjective_pairing]|].
    { eexists. split; [vm_compute; reflexivity|]. split; [reflexivity|]. intros t [= <-]. by left. }
    apply (rtc_l _ _ ex_w4); [by eapply (sched_op_step 0 InWait OpYield); [|apply surjective_pairing]|].
    apply rtc_once. eapply (sched_op_step 0 InYield (OpSleepUntil 1800)); [|apply surjective_pairing]. vm_compute. reflexivity.
  - split; [exact Hwf|by apply Hsafe].
Defined.

(** Task 25, of promise 13, runs on context 1, which yields to context 2. *)
Definition ex_running_task : task :=
  Task time_point_min false 6 0 None (Some 1) (UserFn 3) (Some 13) 1.

Definition ex_task_world : world nat :=
  set_w_task (<[25 := ex_running_task]> ex_tasks)
    (set_w_prom (<[13 := set_m_task (Some 25) new_promise]> ex_prom) (ex_world 0 [2; 3] [] [])).

Definition ex_suspended : world nat := (run_op 0 InYield OpYield ex_task_world).2.

(** Context 2 cancels the future and yields to 3, which yields to 1. *)
Lemma canceled_context_throws_witness :
  (run_op 0 InYield OpYield (run_op 0 InYield OpYield (run_op 0 InYield (OpCancel 13) ex_suspended).2).2).1 =
  Exc task_canceled.
Proof.
  assert (Hnr : ¬ is_ready ex_suspended 13).
  { intros (k & Hk & Hr). vm_compute in Hk. injection Hk as <-. by destruct Hr as [[? ?]|?]. }
  pose proof (canceled_context_throws (λ _, mret 0) 0 (λ _ c, stays_ret c 0) 0 ex_suspended 13
    (set_m_task (Some 25) new_promise) 25 ex_running_task 1 (set_c_next None new_cmt_context)
    ltac:(vm_compute; reflexivity) Hnr eq_refl ltac:(vm_compute; reflexivity) eq_refl eq_refl
    ltac:(vm_compute; reflexivity) ltac:(vm_compute; lia)) as Hc.
  apply wp_returns in Hc as ([] & w1 & Hrun & _ & Hc).
  assert (w1 = (run_op 0 InYield (OpCancel 13) ex_suspended).2) as ->
    by (unfold run_op, start_op, mbind, M_bind; by rewrite Hrun).
  eapply (Hc _ InYield OpYield (Switch 3 1 false) _ (rtc_once _ _ (happens_op _ _ 0 InYield OpYield _)));
    [vm_compute; reflexivity|reflexivity|reflexivity].
Defined.
